(* ===== verification/_CoqProject ===== *)
-Q . S2P
Prelude.v
Status.v
BinarySerializer.v
Mt19937.v
SkipList.v
MemTable.v
FileSystem.v
Wal.v
Recovery.v
Checkpoint.v
BloomFilter.v
Block.v
SSTable.v
Compaction.v
CompactionMerge.v
BlockCache.v
Engine.v
EngineCorrect.v
ConcurrentWrites.v
EngineSessions.v
EngineStats.v
CompactionReads.v
EngineCompaction.v
EngineSpec.v
ConcurrentReads.v
EngineFaults.v
CompactionFaults.v
CrashPoints.v
EngineScenarios.v
RaftState.v
Clock.v
Utils.v
ThreadPool.v
Config.v
Uuid.v
Logger.v
Metrics.v
