(* ===== verification/Prelude.v ===== *)
(** * VectorDB: a verification development

    The program under src/ is the storage node of a distributed vector
    database: a log-structured storage engine with its parts, the role and vote
    state of a Raft node, and the common utilities.  This library translates
    its C++ code into executable definitions, file by file, and proves what
    makes each part correct.

    ** The program and where it is modelled

    A write goes to the write-ahead log, then to the memtable (a skip list);
    a full memtable is flushed to a sorted table file of level 0 and the fact is
    recorded in a checkpoint; tables are merged into deeper levels in the
    background; a read looks at the memtable and then at the tables from the
    newest to the oldest; opening an engine loads the checkpoint and replays the
    rest of the log.

    - [Prelude] (this file): bytes, strings and their order, 32- and 64-bit
      wrap-around, little-endian encodings, [std::to_string], [std::sort] as the
      class [StdSort] of what the standard promises of it, list lemmas.
    - [Status]: src/src/common/error.  A [Status] is a record, [ErrorOr] a sum;
      the early-return macros are matches in the callers.
    - [BinarySerializer]: src/src/common/serialization.
    - [Mt19937]: the generator [std::mt19937] as the standard defines it; it
      decides the tower heights of the skip list, so that concrete runs of the
      model evaluate.
    - [SkipList], [MemTable]: src/src/storage/memtable.  The nodes are a list of
      cells addressed by their position, forward pointers are optional
      addresses; [None] as an outcome of an operation is an access through a
      null or missing pointer, which the theorems exclude.
    - [FileSystem]: the file operations of the standard library that the engine
      uses.  A [World] maps paths to contents and carries a list of faults, one
      consumed by each call that can fail, with the part of the data that
      reached the file; theorems about faults quantify over all such lists,
      and a [healthy] world has none.  Calls of [std::filesystem] that throw when
      they fail have an [Outcome] ([Ret] or [Throw]).
    - [Wal]: src/src/storage/wal.  - [Recovery]: src/src/storage/recovery.
    - [Checkpoint]: src/src/storage/checkpoint.
    - [BloomFilter], [Block], [SSTable]: src/src/storage/sstable.
    - [Compaction]: src/src/storage/compaction; the functions of a run have an
      [Outcome], since an exception of [exists], [file_size],
      [create_directories] or [remove] leaves them; [CompactionMerge] has the proof
      about its merge, [CompactionReads] what a whole run does to the catalogue
      and to the reads through it.
    - [BlockCache]: src/src/storage/cache.  The two critical sections of [Get]
      are separate steps, so that the theorems cover every interleaving.
    - [Engine]: src/src/storage/engine; [EngineCorrect] proves it against the
      map its writes describe, without compaction; [EngineSessions] adds crashes
      and restarts; [EngineCompaction] is the invariant with compaction, and
      [EngineSpec] the abstract engine (the pending and the flushed writes as
      two maps) and the refinement; [EngineFaults] has reads, writes and flushes
      under I/O faults, [CompactionFaults] compaction runs; [CrashPoints] lets
      the process die at any call inside an operation; [EngineStats] has the
      counters; [EngineScenarios] runs the histories in which the code departs
      from the intended behaviour.
    - [ConcurrentWrites]: several threads inside [WriteEntry] and
      [FlushMemTable]; [ConcurrentReads]: a thread inside [GetFromSSTables]
      while another runs [RunCompaction].  A thread is a program counter with
      its local variables, a schedule a list of turns, and lemmas show that
      the turns of one thread alone are the function of [Engine] or [Compaction].
    - [RaftState]: src/src/raft/core.
    - [Clock]: src/src/common/clock.  The interface is the class [Clock] with
      the instances [FakeClock] and [PhysicalClock].
    - [Utils], [Uuid]: src/src/common/utils.
    - [ThreadPool]: src/src/common/thread_pool.
    - [Config]: src/src/common/config.  - [Logger]: src/src/common/logging.
    - [Metrics]: src/src/common/metrics.  yaml-cpp, spdlog and prometheus-cpp
      are classes of what the code calls of them ([Yaml], [Spdlog],
      [Prometheus]), with what their documentation promises in a second class
      where a theorem needs it, and a concrete instance for the examples.

    Operations keep the names of the source, with the class in front where a
    name is used twice ([MemTable_Put], [SkipList_Put]); fields keep the
    trailing underscore of the members.  State is passed explicitly, an error is
    a [Status] or the [Err] of an [ErrorOr], an exception is the [Throw] of an
    [Outcome] (in [Config], [Logger] and [Metrics] a case of their own result
    types), and an outer [option] is [None] where the C++ would have undefined
    behaviour, or throws and nothing is said of what follows ([Enqueue] on a
    stopped pool, [file_size] of a table that is not there).  What is locked in
    the source is one step here; where a lock is released in between, the parts
    are separate definitions ([WriteEntry_log] and [WriteEntry_apply],
    [Flush_swap], [Flush_lsn] and [Flush_write], [Get_shared] and
    [Get_exclusive], the steps of [ThreadPool]).

    ** What is proved

    - Engine: after any sequence of puts, deletes and flushes without faults
      every operation succeeds, reads are characterised exactly, a put is read
      back, reads after a flush agree with the whole history, and an engine
      opened on the files after a crash reads as the lost one did.  With passes
      of the compaction thread anywhere in between the engine refines its
      specification; flushed data survives the compaction loop and a crash.  A
      read under I/O faults fails or is right, a failed write has no effect on
      later reads, after a failed flush the files still give back every
      write, and a compaction that returns an error, or is left by an exception
      before it removes its inputs, changes no read, in the running engine or from
      the files ([CrashPoints.failed_remove_loses_tables] is the other case).  A process that dies at any call inside a put, a delete or
      a flush leaves files that read as before or after the operation.  The
      published counters are exact.  Histories of any number of
      sessions lose nothing as long as a flush finds its table counter
      current.  The theorems with compaction assume that the level-0
      files, sorted by smallest key as the code sorts them, are in order of age
      where they share a key; [CompactionMerge] and [EngineScenarios] show what
      happens otherwise.
    - Threads: overlapping writes are durable and read back under every schedule
      that keeps two writes of one key, and writes and the swap of a flush, apart
      in the stated gaps, and in which flushes do not overlap; a reader during a compaction run
      gets the right value or an error when its copy of the catalogue is from before
      the first removal.
    - Log: entries are durable and numbered, a torn tail and a changed byte
      are detected and contained, the CRC is the bit-serial one; recovery is
      the replay of the unflushed entries and is idempotent, unknown types are
      reported.
    - Checkpoint: saving is atomic under every schedule of faults, and what is
      saved is loaded.
    - Tables: what the writer writes the reader reads, for every key, with the
      Bloom filter free of false negatives and in bounds; a truncated block is
      always detected; a failing write touches no other file.
    - Compaction: which level is picked, that the selection is complete, that
      the merge keeps exactly the newest entry of every key, and that a run
      changes no read.
    - Skip list: no invalid access, a finite map, exact memory account, no leak.
    - Cache: an LRU list under every interleaving, and never stale.
    - Raft state: one vote per term, leaders voted for themselves, terms grow,
      and no term has two leaders in a cluster of such nodes.
    - Hybrid logical clock: the algorithm on pairs, causality over runs of many
      nodes, and exactly where the 64-bit packing breaks it.
    - Thread pool: each task once and in order, no lost wake-up, a destructor
      that terminates and drains the queue without relying on spurious wake-ups.
    - Utilities: splitting, trimming, one-byte changes under FNV-1a, and the
      format of identifiers.
    - Configuration: which error is returned when, that loaded numbers have
      their types, and exactly which files determine the configuration.
    - Metrics: no null or dangling pointer until [Shutdown], and one afterwards.
    - Logger: its life cycle as an automaton, whatever calls of spdlog throw, and
      exactly which messages a JSON reader gets back from their line.

    ** Bounds and fuel

    Sizes that the code stores in 32 bits or counts in an [int] are bounded in
    the theorems that need it: the encoded entries of a table or of a whole
    engine history stay below 1 GiB, a log record below its 64 MB limit.  Fuel
    is used where the recursion is not structural and is always computed from
    the data: the length of a log for its scan (each record takes eight bytes at
    least), the number of nodes for a search in the skip list, the interval
    length for binary searches, the total number of entries for the merge.
    The theorems state that the result is a [Some], so that the fuel is enough.

    ** What is not modelled

    Directories (their creation only as a call that may throw, in a compaction
    run); exceptions of [exists] and [file_size] outside a compaction run, that is
    in reads, flushes and recovery, where these calls are taken to succeed;
    exceptions of allocation, as with sizes read from a damaged table; the start of
    the compaction thread in [Open] (its passes are steps of their own);
    the wrap-around of [size_t] sums in the bounds checks of the serializer; the time the compaction thread waits and the
    duration it measures (what it reads of [shutdown_] is an argument); the
    inside of spdlog, prometheus-cpp and yaml-cpp; the task bodies and futures of
    the thread pool; memory exhaustion.  The declarations of deleted copy
    operations and of private members have nothing to model.
    Open ends: flushes that fail between the steps of other writers, and
    compaction runs in the later ones of several sessions, where the code
    itself loses data (EngineScenarios.v, CrashPoints.v). *)

From Stdlib Require Export ZArith Lia.
From Stdlib Require Strings.Byte Strings.String.
From stdpp Require Export base list gmap sorting.
Export String.StringSyntax.
Delimit Scope string_scope with string.

#[global] Open Scope Z_scope.

(** ** Hint databases of the development *)

Create HintDb vdb.
Create Rewrite HintDb vdb_len.

(** ** Bytes

    A [uint8_t] (and a [char] of a [std::string]) is an element of the
    Standard Library's 256-constructor type, so that no range side condition
    travels with a buffer. *)

Abbreviation byte := Byte.byte.
Abbreviation bytes := (list byte).

(** [std::string]: a sequence of bytes, embedded NULs included. *)
Abbreviation str := (list byte).

(** String literals of the source. *)
Definition lit (s : String.string) : str := String.list_byte_of_string s.
Arguments lit s%_string_scope.

#[export] Instance byte_eq_dec : EqDecision byte := Byte.byte_eq_dec.

#[export] Program Instance byte_countable : Countable byte :=
  inj_countable Byte.to_N Byte.of_N _.
Next Obligation. intros b. apply Byte.of_to_N. Qed.

#[export] Instance byte_inhabited : Inhabited byte := populate Byte.x00.

Definition Z_of_byte (b : byte) : Z := Z.of_N (Byte.to_N b).

Definition byte_of_Z (z : Z) : byte :=
  match Byte.of_N (Z.to_N (z mod 256)) with
  | Some b => b
  | None => Byte.x00
  end.

Arguments Z_of_byte : simpl never.
Arguments byte_of_Z : simpl never.

Lemma Z_of_byte_range b : 0 <= Z_of_byte b < 256.
Proof. unfold Z_of_byte. pose proof (Byte.to_N_bounded b). lia. Qed.

Lemma Z_of_byte_of_Z z : Z_of_byte (byte_of_Z z) = z mod 256.
Proof.
  unfold Z_of_byte, byte_of_Z.
  pose proof (Z.mod_pos_bound z 256 ltac:(lia)) as Hm.
  destruct (Byte.of_N (Z.to_N (z mod 256))) as [b|] eqn:E.
  - apply Byte.to_of_N in E. rewrite E. lia.
  - apply Byte.of_N_None_iff in E. lia.
Qed.

Lemma byte_of_Z_of_byte b : byte_of_Z (Z_of_byte b) = b.
Proof.
  unfold byte_of_Z, Z_of_byte.
  pose proof (Byte.to_N_bounded b).
  rewrite Z.mod_small by lia. by rewrite N2Z.id, Byte.of_to_N.
Qed.

Lemma Z_of_byte_inj b1 b2 : Z_of_byte b1 = Z_of_byte b2 -> b1 = b2.
Proof. intros H. by rewrite <-(byte_of_Z_of_byte b1), H, byte_of_Z_of_byte. Qed.

(** ** Machine integers: unsigned arithmetic is taken modulo [2^w] *)

Definition u32 (z : Z) : Z := z mod 2 ^ 32.
Definition u64 (z : Z) : Z := z mod 2 ^ 64.

Lemma u32_range z : 0 <= u32 z < 2 ^ 32.
Proof. apply Z.mod_pos_bound. lia. Qed.

Lemma u64_range z : 0 <= u64 z < 2 ^ 64.
Proof. apply Z.mod_pos_bound. lia. Qed.

Lemma u32_small z : 0 <= z < 2 ^ 32 -> u32 z = z.
Proof. apply Z.mod_small. Qed.

Lemma u64_small z : 0 <= z < 2 ^ 64 -> u64 z = z.
Proof. apply Z.mod_small. Qed.

Lemma u64_add_l a b : u64 (u64 a + b) = u64 (a + b).
Proof. apply Zplus_mod_idemp_l. Qed.

Lemma u64_sub_l a b : u64 (u64 a - b) = u64 (a - b).
Proof. apply Zminus_mod_idemp_l. Qed.

(** Conversion to a 32-bit [int]. *)
Definition s32 (z : Z) : Z := let u := u32 z in if u <? 2 ^ 31 then u else u - 2 ^ 32.

Lemma s32_small z : - 2 ^ 31 <= z < 2 ^ 31 -> s32 z = z.
Proof.
  intros Hz. unfold s32, u32. destruct (decide (0 <= z)).
  - rewrite Z.mod_small by lia. destruct (Z.ltb_spec z (2 ^ 31)); lia.
  - rewrite <-(Z.mod_add z 1), Z.mod_small by lia.
    destruct (Z.ltb_spec (z + 1 * 2 ^ 32) (2 ^ 31)); lia.
Qed.

Lemma s32_u32 z : s32 (u32 z) = s32 z.
Proof. unfold s32, u32. by rewrite Zmod_mod. Qed.

#[export] Hint Resolve u32_range u64_range Z_of_byte_range : vdb.

(** ** Little-endian object representation *)

(** The [n] bytes that [memcpy] copies out of an unsigned integer. *)
Fixpoint le_bytes (n : nat) (z : Z) : bytes :=
  match n with
  | O => []
  | S n' => byte_of_Z z :: le_bytes n' (z / 256)
  end.

(** The unsigned integer whose object representation is [bs]. *)
Fixpoint le_value (bs : bytes) : Z :=
  match bs with
  | [] => 0
  | b :: bs' => Z_of_byte b + 256 * le_value bs'
  end.

Lemma length_le_bytes n z : length (le_bytes n z) = n.
Proof. revert z; induction n; intros; simpl; auto. Qed.

Lemma le_value_range bs : 0 <= le_value bs < 256 ^ Z.of_nat (length bs).
Proof.
  induction bs as [|b bs IH]; simpl length; [simpl; lia|].
  rewrite Nat2Z.inj_succ, Z.pow_succ_r by lia. simpl.
  pose proof (Z_of_byte_range b). lia.
Qed.

Lemma le_value_le_bytes n z :
  le_value (le_bytes n z) = z mod 256 ^ Z.of_nat n.
Proof.
  revert z; induction n as [|n IH]; intros z.
  - simpl. by rewrite Z.mod_1_r.
  - simpl le_bytes. simpl le_value.
    rewrite IH, Z_of_byte_of_Z, Nat2Z.inj_succ, Z.pow_succ_r by lia.
    rewrite Z.rem_mul_r by lia. lia.
Qed.

Lemma le_bytes_le_value bs : le_bytes (length bs) (le_value bs) = bs.
Proof.
  induction bs as [|b bs IH]; simpl; [done|].
  assert (Z_of_byte b + 256 * le_value bs = Z_of_byte b + le_value bs * 256) as -> by lia.
  rewrite Z.div_add, (Z.div_small _ _ (Z_of_byte_range b)) by lia.
  rewrite Z.add_0_l, IH. f_equal.
  apply Z_of_byte_inj. rewrite Z_of_byte_of_Z, Z.mod_add by lia.
  apply Z.mod_small, Z_of_byte_range.
Qed.

#[global] Arguments le_bytes : simpl never.
#[global] Arguments le_value : simpl never.

#[export] Hint Rewrite length_le_bytes @length_app @length_take @length_drop
  @length_fmap @length_replicate @length_insert : vdb_len.

(** ** [std::string] comparison

    [std::string::compare] compares the common prefix byte by byte as
    [unsigned char] and then the lengths. *)

Fixpoint str_compare (s t : str) : comparison :=
  match s, t with
  | [], [] => Eq
  | [], _ :: _ => Lt
  | _ :: _, [] => Gt
  | a :: s', b :: t' =>
      match Z_of_byte a ?= Z_of_byte b with
      | Eq => str_compare s' t'
      | c => c
      end
  end.

Definition str_lt (s t : str) : Prop := str_compare s t = Lt.

(** [operator<], [operator==] on [std::string]. *)
Definition str_ltb (s t : str) : bool :=
  match str_compare s t with Lt => true | _ => false end.

Definition str_eqb (s t : str) : bool :=
  match str_compare s t with Eq => true | _ => false end.

Lemma str_compare_refl s : str_compare s s = Eq.
Proof. induction s as [|a s IH]; simpl; [done|]. by rewrite Z.compare_refl. Qed.

Lemma str_compare_eq s t : str_compare s t = Eq <-> s = t.
Proof.
  split; [|intros ->; apply str_compare_refl].
  revert t; induction s as [|a s IH]; intros [|b t]; simpl; try done.
  destruct (Z_of_byte a ?= Z_of_byte b) eqn:E; try done.
  apply Z.compare_eq in E. intros H.
  by rewrite (Z_of_byte_inj _ _ E), (IH _ H).
Qed.

Lemma str_compare_antisym s t : str_compare t s = CompOpp (str_compare s t).
Proof.
  revert t; induction s as [|a s IH]; intros [|b t]; simpl; try done.
  rewrite (Z.compare_antisym (Z_of_byte a) (Z_of_byte b)).
  destruct (Z_of_byte a ?= Z_of_byte b); simpl; auto.
Qed.

Lemma str_lt_trans s t u : str_lt s t -> str_lt t u -> str_lt s u.
Proof.
  unfold str_lt. revert t u.
  induction s as [|a s IH]; intros [|b t] [|c u]; simpl; try done.
  destruct (Z.compare_spec (Z_of_byte a) (Z_of_byte b)) as [E1|E1|E1];
    destruct (Z.compare_spec (Z_of_byte b) (Z_of_byte c)) as [E2|E2|E2];
    try done; intros H1 H2;
    destruct (Z.compare_spec (Z_of_byte a) (Z_of_byte c)); try lia; try done;
    eauto.
Qed.

#[export] Instance str_lt_strict : StrictOrder str_lt.
Proof.
  split; [|exact str_lt_trans].
  intros s. unfold complement, str_lt. by rewrite str_compare_refl.
Qed.

#[export] Instance str_lt_trichotomy : Trichotomy str_lt.
Proof.
  intros s t. unfold str_lt, strict.
  destruct (str_compare s t) eqn:E; auto.
  - right; left. by apply str_compare_eq.
  - right; right. by rewrite str_compare_antisym, E.
Qed.

#[export] Instance str_lt_dec : RelDecision str_lt.
Proof. intros s t. unfold str_lt. apply _. Defined.

Lemma str_ltb_lt s t : str_ltb s t = true <-> str_lt s t.
Proof. unfold str_ltb, str_lt. by destruct (str_compare s t). Qed.

Lemma str_ltb_ge s t : str_ltb s t = false <-> ~ str_lt s t.
Proof. rewrite <-str_ltb_lt. by destruct (str_ltb s t). Qed.

Lemma str_eqb_eq s t : str_eqb s t = true <-> s = t.
Proof. rewrite <-str_compare_eq. unfold str_eqb. by destruct (str_compare s t). Qed.

Lemma str_eqb_refl s : str_eqb s s = true.
Proof. by apply str_eqb_eq. Qed.

Lemma str_eqb_ne s t : str_eqb s t = false <-> s <> t.
Proof. rewrite <-str_eqb_eq. by destruct (str_eqb s t). Qed.

Lemma str_lt_irrefl s : ~ str_lt s s.
Proof. apply irreflexivity, _. Qed.

Lemma str_lt_asym s t : str_lt s t -> ~ str_lt t s.
Proof. intros H1 H2. exact (str_lt_irrefl s (str_lt_trans _ _ _ H1 H2)). Qed.

Lemma str_not_lt s t : ~ str_lt s t -> s = t \/ str_lt t s.
Proof. intros H. destruct (trichotomy str_lt s t) as [?|[?|?]]; tauto. Qed.

Lemma str_nlt_trans a b c : ~ str_lt a b -> ~ str_lt b c -> ~ str_lt a c.
Proof.
  intros H1 H2 H3. destruct (str_not_lt _ _ H1) as [->|H]; [done|].
  apply H2. exact (str_lt_trans _ _ _ H H3).
Qed.

(** A decidable closed goal, by evaluation. *)
Ltac by_vm := apply (bool_decide_eq_true_1 _); vm_compute; reflexivity.

(** Case analysis on a string comparison of the source. *)
Ltac str_cases :=
  repeat match goal with
  | H : str_ltb _ _ = true |- _ => apply str_ltb_lt in H
  | H : str_ltb _ _ = false |- _ => apply str_ltb_ge in H
  | H : str_eqb _ _ = true |- _ => apply str_eqb_eq in H
  | H : str_eqb _ _ = false |- _ => apply str_eqb_ne in H
  end.

(** ** Generic lemmas on lists *)

Lemma filter_none {A} (P : A -> Prop) `{!forall x, Decision (P x)} (l : list A) :
  (forall x, x ∈ l -> ~ P x) -> filter P l = [].
Proof.
  induction l as [|x l IH]; intros Hno; [done|].
  rewrite filter_cons_False by (apply Hno; by left). apply IH. intros; apply Hno; by right.
Qed.

Lemma filter_all {A} (P : A -> Prop) `{!forall x, Decision (P x)} (l : list A) :
  (forall x, x ∈ l -> P x) -> filter P l = l.
Proof.
  induction l as [|x l IH]; intros Hyes; [done|].
  rewrite filter_cons_True by (apply Hyes; by left). f_equal. apply IH. intros; apply Hyes; by right.
Qed.

Lemma filter_ext_in {A} (P Q : A -> Prop) `{!forall x, Decision (P x)} `{!forall x, Decision (Q x)}
    (l : list A) :
  (forall x, x ∈ l -> P x <-> Q x) -> filter P l = filter Q l.
Proof.
  induction l as [|x l IH]; intros HPQ; [done|].
  assert (filter P l = filter Q l) as IH' by (apply IH; intros; apply HPQ; by right).
  assert (P x <-> Q x) as Hx by (apply HPQ; by left).
  destruct (decide (P x)) as [HP|HP].
  - rewrite (filter_cons_True P), (filter_cons_True Q) by tauto. by rewrite IH'.
  - rewrite (filter_cons_False P), (filter_cons_False Q) by tauto. done.
Qed.

Lemma StronglySorted_NoDup {A} (R : relation A) `{!Irreflexive R} (l : list A) :
  StronglySorted R l -> NoDup l.
Proof.
  induction 1 as [|x l Hs IH Hall]; constructor; [|done].
  intros Hin. rewrite Forall_forall in Hall. exact (irreflexivity R x (Hall x Hin)).
Qed.

(** Strictly sorted lists, by index. *)
Lemma StronglySorted_lookup_lt {A} (R : relation A) (l : list A) : forall i j x y,
  StronglySorted R l -> l !! i = Some x -> l !! j = Some y -> (i < j)%nat -> R x y.
Proof.
  induction l as [|z l IH]; intros i j x y Hs Hi Hj Hij; [done|].
  apply StronglySorted_inv in Hs as [Hs Hz]. destruct j as [|j]; [lia|]. cbn in Hj.
  destruct i as [|i]; cbn in Hi.
  - injection Hi as <-. rewrite Forall_forall in Hz. apply Hz. by eapply list_elem_of_lookup_2.
  - apply (IH i j); auto with lia.
Qed.

Lemma StronglySorted_fmap_inv {A B} (f : A -> B) (R : relation B) (l : list A) :
  StronglySorted R (f <$> l) -> StronglySorted (fun x y => R (f x) (f y)) l.
Proof.
  induction l as [|x l IH]; [constructor|]. rewrite fmap_cons. intros H.
  apply StronglySorted_inv in H as [H Hx]. constructor; [by apply IH|]. exact (proj1 (Forall_fmap f _ l) Hx).
Qed.

Lemma last_cons_default {A} (d : A) (x : A) (l : list A) :
  default d (last (x :: l)) = default x (last (x :: l)).
Proof. destruct (last (x :: l)) eqn:E; [done|]. by apply last_None in E. Qed.

Lemma last_app_cons {A} (d : A) (l1 l2 : list A) (x : A) :
  default d (last (l1 ++ x :: l2)) = default x (last (x :: l2)).
Proof.
  rewrite last_app. destruct (last (x :: l2)) eqn:E; [done|]. by apply last_None in E.
Qed.

Lemma perm_cons {A} (x y : A) (l1 l2 : list A) : x = y -> l1 ≡ₚ l2 -> (x :: l1) ≡ₚ (y :: l2).
Proof. intros -> H. by apply perm_skip. Qed.

Lemma NoDup_middle {A} (l1 l2 : list A) (x : A) :
  NoDup (l1 ++ x :: l2) -> (x ∉ l1 ++ l2) /\ NoDup (l1 ++ l2).
Proof. rewrite <-Permutation_middle. apply NoDup_cons. Qed.

(** Sum of a list of integers. *)
Definition zsum (l : list Z) : Z := foldr Z.add 0 l.

Lemma zsum_app l1 l2 : zsum (l1 ++ l2) = zsum l1 + zsum l2.
Proof. induction l1 as [|x l1 IH]; simpl; [done|]. unfold zsum in *. simpl. lia. Qed.

Lemma zsum_insert l i x y :
  l !! i = Some x -> zsum (<[i := y]> l) = zsum l - x + y.
Proof.
  revert i; induction l as [|z l IH]; intros [|i] H; simplify_eq/=.
  - unfold zsum; simpl. lia.
  - specialize (IH _ H). unfold zsum in *. simpl. lia.
Qed.

(** ** Bit operations at a fixed width *)

Lemma bits_high a n i : 0 <= a < 2 ^ n -> 0 <= n <= i -> Z.testbit a i = false.
Proof.
  intros Ha Hi. rewrite <-(Z.mod_small a (2 ^ n)) by lia. apply Z.mod_pow2_bits_high. lia.
Qed.

Lemma lxor_range a b n :
  0 <= n -> 0 <= a < 2 ^ n -> 0 <= b < 2 ^ n -> 0 <= Z.lxor a b < 2 ^ n.
Proof.
  intros Hn Ha Hb. assert (Z.lxor a b = Z.lxor a b mod 2 ^ n) as ->.
  { apply Z.bits_inj'. intros i Hi. destruct (decide (i < n)).
    - by rewrite Z.mod_pow2_bits_low by lia.
    - rewrite Z.mod_pow2_bits_high by lia. rewrite Z.lxor_spec.
      by rewrite (bits_high a n), (bits_high b n) by lia. }
  apply Z.mod_pos_bound. lia.
Qed.

Lemma land_ones_mod a n : 0 <= n -> Z.land a (Z.ones n) = a mod 2 ^ n.
Proof. apply Z.land_ones. Qed.

Lemma lxor_cancel_l a b c : Z.lxor a b = Z.lxor a c -> b = c.
Proof.
  intros H. apply (f_equal (Z.lxor a)) in H.
  by rewrite <-!Z.lxor_assoc, !Z.lxor_nilpotent, !Z.lxor_0_l in H.
Qed.

Lemma lxor_cancel_r a b c : Z.lxor b a = Z.lxor c a -> b = c.
Proof. rewrite (Z.lxor_comm b), (Z.lxor_comm c). apply lxor_cancel_l. Qed.

(** ** Decimal output of integers ([operator<<], [std::to_string]) *)

Definition digit (d : Z) : byte := byte_of_Z (48 + d).

(** The digits of [n], most significant first, in front of [acc]. *)
Fixpoint digits (fuel : nat) (n : Z) (acc : str) : str :=
  match fuel with
  | O => acc
  | S fuel' => if n <? 10 then digit n :: acc else digits fuel' (n / 10) (digit (n mod 10) :: acc)
  end.

(** A 64-bit number has at most 20 digits. *)
Definition to_string (z : Z) : str :=
  if z <? 0 then lit "-" ++ digits 20 (- z) [] else digits 20 z [].

(** The value of a string of digits. *)
Definition undigit (acc : Z) (b : byte) : Z := 10 * acc + (Z_of_byte b - 48).

Lemma digit_value d : 0 <= d < 10 -> Z_of_byte (digit d) = 48 + d.
Proof. intros Hd. unfold digit. rewrite Z_of_byte_of_Z. apply Z.mod_small. lia. Qed.

Lemma digits_value fuel : forall n acc,
  0 <= n < 10 ^ Z.of_nat fuel ->
  foldl undigit 0 (digits fuel n acc) = foldl undigit n acc.
Proof.
  induction fuel as [|fuel IH]; intros n acc Hn.
  - cbn in Hn. assert (n = 0) as -> by lia. done.
  - rewrite Nat2Z.inj_succ, Z.pow_succ_r in Hn by lia. cbn [digits]. destruct (Z.ltb_spec n 10).
    + cbn [foldl]. unfold undigit at 2. rewrite digit_value by lia. f_equal. lia.
    + pose proof (Z.div_mod n 10 ltac:(lia)). pose proof (Z.mod_pos_bound n 10 ltac:(lia)).
      rewrite IH by lia. cbn [foldl]. unfold undigit at 2. rewrite digit_value by lia. f_equal. lia.
Qed.

Lemma to_string_inj a b :
  0 <= a < 2 ^ 64 -> 0 <= b < 2 ^ 64 -> to_string a = to_string b -> a = b.
Proof.
  intros Ha Hb. unfold to_string. rewrite !(proj2 (Z.ltb_ge _ _)) by lia. intros H.
  apply (f_equal (foldl undigit 0)) in H. rewrite !digits_value in H; [done| |]; cbn; lia.
Qed.

(** Every character of a number is a digit. *)
Definition is_digit (b : byte) : Prop := 48 <= Z_of_byte b < 58.

Lemma digits_digits fuel : forall n acc,
  0 <= n < 10 ^ Z.of_nat fuel -> Forall is_digit acc -> Forall is_digit (digits fuel n acc).
Proof.
  induction fuel as [|fuel IH]; intros n acc Hn Hacc; [done|].
  rewrite Nat2Z.inj_succ, Z.pow_succ_r in Hn by lia. cbn [digits].
  pose proof (Z.div_mod n 10 ltac:(lia)). pose proof (Z.mod_pos_bound n 10 ltac:(lia)).
  destruct (Z.ltb_spec n 10).
  - constructor; [|done]. unfold is_digit. rewrite digit_value by lia. lia.
  - apply IH; [lia|]. constructor; [|done]. unfold is_digit. rewrite digit_value by lia. lia.
Qed.

Lemma to_string_digits z : 0 <= z < 2 ^ 64 -> Forall is_digit (to_string z).
Proof.
  intros Hz. unfold to_string. rewrite (proj2 (Z.ltb_ge _ _)) by lia.
  apply digits_digits; [cbn; lia|constructor].
Qed.

Lemma numbers_have_few_digits fuel n acc :
  (length (digits fuel n acc) <= fuel + length acc)%nat.
Proof.
  revert n acc. induction fuel as [|fuel IH]; intros n acc; cbn [digits]; [lia|].
  destruct (n <? 10); cbn [length]; [lia|]. specialize (IH (n / 10) (digit (n mod 10) :: acc)). cbn [length] in IH. lia.
Qed.

Lemma to_string_length n : 0 <= n -> (length (to_string n) <= 20)%nat.
Proof.
  intros Hn. unfold to_string. rewrite (proj2 (Z.ltb_ge _ _)) by lia.
  pose proof (numbers_have_few_digits 20 n []) as H. cbn [length] in H. lia.
Qed.

Example to_string_1024 : to_string 1024 = lit "1024".
Proof. reflexivity. Qed.

#[global] Arguments to_string : simpl never.

(** ** [std::sort]

    The result is a permutation that is sorted with respect to a strict weak
    order; the order of equivalent elements is not specified, so the clients
    are proved for every such function. *)

Record strict_weak {A} (lt : A -> A -> bool) : Prop := {
  sw_irrefl : forall x, lt x x = false;
  sw_trans : forall x y z, lt x y = true -> lt y z = true -> lt x z = true;
  sw_incomp : forall x y z, lt x y = false -> lt y z = false -> lt x z = false
}.

Class StdSort : Type := {
  std_sort : forall {A : Type}, (A -> A -> bool) -> list A -> list A;
  std_sort_perm : forall {A} (lt : A -> A -> bool) l, std_sort lt l ≡ₚ l;
  std_sort_sorted : forall {A} (lt : A -> A -> bool) l,
    strict_weak lt -> StronglySorted (fun x y => lt y x = false) (std_sort lt l)
}.

(** Insertion sort, what libstdc++ runs on short vectors. *)
Fixpoint insert_sorted {A} (lt : A -> A -> bool) (x : A) (l : list A) : list A :=
  match l with
  | [] => [x]
  | y :: l' => if lt y x then y :: insert_sorted lt x l' else x :: l
  end.

Definition insertion_sort {A} (lt : A -> A -> bool) (l : list A) : list A :=
  foldr (insert_sorted lt) [] l.

Lemma insert_sorted_perm {A} (lt : A -> A -> bool) x l : insert_sorted lt x l ≡ₚ x :: l.
Proof.
  induction l as [|y l IH]; [done|]. cbn [insert_sorted]. destruct (lt y x); [|done].
  rewrite IH. apply Permutation_swap.
Qed.

Lemma insertion_sort_perm {A} (lt : A -> A -> bool) l : insertion_sort lt l ≡ₚ l.
Proof.
  induction l as [|x l IH]; [done|]. cbn [insertion_sort foldr]. rewrite insert_sorted_perm.
  by apply perm_skip.
Qed.

Lemma insert_sorted_sorted {A} (lt : A -> A -> bool) x l :
  strict_weak lt -> StronglySorted (fun x y => lt y x = false) l ->
  StronglySorted (fun x y => lt y x = false) (insert_sorted lt x l).
Proof.
  intros Hsw. induction 1 as [|y l Hs IH Hall]; [repeat constructor|]. cbn [insert_sorted].
  destruct (lt y x) eqn:E.
  - constructor; [done|]. rewrite insert_sorted_perm. constructor; [|done].
    destruct (lt x y) eqn:E'; [|done].
    pose proof (sw_trans _ Hsw y x y E E') as H. by rewrite (sw_irrefl _ Hsw y) in H.
  - constructor; [by constructor|]. constructor; [done|].
    eapply Forall_impl; [exact Hall|]. intros z Hz. by apply (sw_incomp _ Hsw z y x).
Qed.

Lemma insertion_sort_sorted {A} (lt : A -> A -> bool) l :
  strict_weak lt -> StronglySorted (fun x y => lt y x = false) (insertion_sort lt l).
Proof.
  intros Hsw. induction l as [|x l IH]; [constructor|]. by apply insert_sorted_sorted.
Qed.

Definition insertion_std_sort : StdSort := {|
  std_sort := @insertion_sort;
  std_sort_perm := @insertion_sort_perm;
  std_sort_sorted := @insertion_sort_sorted
|}.
