(* ===== verification/Status.v ===== *)
(** * Error values: [StatusCode], [Status], [ErrorOr]

    Models src/src/common/error: the status codes with their numeric values
    and names, [Status], [ErrorOr<T>] with its throwing constructor and
    accessor, and the [ASSIGN_OR_RETURN] / [RETURN_IF_ERROR] macros as the
    notations [let? x := e in k] and [check? s in k]. *)

From S2P Require Import Prelude.

(** ** [enum class StatusCode] *)

Inductive StatusCode : Set :=
  | kOk
  | kUnknown
  | kInvalidArgument
  | kDeadlineExceeded
  | kNotFound
  | kAlreadyExists
  | kPermissionDenied
  | kResourceExhausted
  | kFailedPrecondition
  | kAborted
  | kOutOfRange
  | kUnimplemented
  | kInternal
  | kUnavailable
  | kDataLoss
  | kUnauthenticated
  | kStorageIoError
  | kStorageCorruption
  | kStorageFull
  | kStorageNotFound
  | kRaftNotLeader
  | kRaftLogCompacted
  | kRaftElectionInProgress
  | kRaftTimeout
  | kRaftInvalidTerm
  | kVectorDimensionMismatch
  | kVectorNotFound
  | kVectorIndexFull
  | kNetworkTimeout
  | kNetworkUnavailable
  | kRouterShardNotFound.

#[export] Instance StatusCode_eq_dec : EqDecision StatusCode.
Proof. solve_decision. Defined.

(** The enumerators' values. *)
Definition StatusCode_value (c : StatusCode) : Z :=
  match c with
  | kOk => 0
  | kUnknown => 1
  | kInvalidArgument => 2
  | kDeadlineExceeded => 3
  | kNotFound => 4
  | kAlreadyExists => 5
  | kPermissionDenied => 6
  | kResourceExhausted => 7
  | kFailedPrecondition => 8
  | kAborted => 9
  | kOutOfRange => 10
  | kUnimplemented => 11
  | kInternal => 12
  | kUnavailable => 13
  | kDataLoss => 14
  | kUnauthenticated => 15
  | kStorageIoError => 100
  | kStorageCorruption => 101
  | kStorageFull => 102
  | kStorageNotFound => 103
  | kRaftNotLeader => 200
  | kRaftLogCompacted => 201
  | kRaftElectionInProgress => 202
  | kRaftTimeout => 203
  | kRaftInvalidTerm => 204
  | kVectorDimensionMismatch => 300
  | kVectorNotFound => 301
  | kVectorIndexFull => 302
  | kNetworkTimeout => 400
  | kNetworkUnavailable => 401
  | kRouterShardNotFound => 402
  end.

Definition StatusCodeToString (c : StatusCode) : str :=
  lit (match c with
  | kOk => "OK"
  | kUnknown => "Unknown"
  | kInvalidArgument => "InvalidArgument"
  | kDeadlineExceeded => "DeadlineExceeded"
  | kNotFound => "NotFound"
  | kAlreadyExists => "AlreadyExists"
  | kPermissionDenied => "PermissionDenied"
  | kResourceExhausted => "ResourceExhausted"
  | kFailedPrecondition => "FailedPrecondition"
  | kAborted => "Aborted"
  | kOutOfRange => "OutOfRange"
  | kUnimplemented => "Unimplemented"
  | kInternal => "Internal"
  | kUnavailable => "Unavailable"
  | kDataLoss => "DataLoss"
  | kUnauthenticated => "Unauthenticated"
  | kStorageIoError => "StorageIoError"
  | kStorageCorruption => "StorageCorruption"
  | kStorageFull => "StorageFull"
  | kStorageNotFound => "StorageNotFound"
  | kRaftNotLeader => "RaftNotLeader"
  | kRaftLogCompacted => "RaftLogCompacted"
  | kRaftElectionInProgress => "RaftElectionInProgress"
  | kRaftTimeout => "RaftTimeout"
  | kRaftInvalidTerm => "RaftInvalidTerm"
  | kVectorDimensionMismatch => "VectorDimensionMismatch"
  | kVectorNotFound => "VectorNotFound"
  | kVectorIndexFull => "VectorIndexFull"
  | kNetworkTimeout => "NetworkTimeout"
  | kNetworkUnavailable => "NetworkUnavailable"
  | kRouterShardNotFound => "RouterShardNotFound"
  end)%string.

(** ** [class Status] *)

Record Status : Set := mkStatus { code_ : StatusCode; message_ : str }.

(** [Status::Ok()] *)
Definition StatusOk : Status := mkStatus kOk [].

(** [Status::IsOk] *)
Definition IsOk (s : Status) : bool := bool_decide (code_ s = kOk).

Definition ToString (s : Status) : str :=
  if IsOk s then lit "OK"
  else StatusCodeToString (code_ s) ++ lit ": " ++ message_ s.

(** ** [class ErrorOr<T>]: [std::variant<T, Status>] *)

Inductive ErrorOr (A : Type) : Type :=
  | Val (v : A)
  | Err (s : Status).
Arguments Val {A} v.
Arguments Err {A} s.

(** [ErrorOr(Status)]: [None] when the constructor throws. *)
Definition ErrorOr_of_Status {A} (s : Status) : option (ErrorOr A) :=
  if IsOk s then None else Some (Err s).

(** [ErrorOr::IsOk] *)
Definition holds_value {A} (e : ErrorOr A) : bool :=
  match e with Val _ => true | Err _ => false end.

(** [ErrorOr::status] *)
Definition status {A} (e : ErrorOr A) : Status :=
  match e with Val _ => StatusOk | Err s => s end.

(** [ErrorOr::value]: [None] when the accessor throws. *)
Definition value {A} (e : ErrorOr A) : option A :=
  match e with Val v => Some v | Err _ => None end.

(** An error built by the source from a code and a message. *)
Definition error {A} (c : StatusCode) (msg : str) : ErrorOr A :=
  Err (mkStatus c msg).

(** [ASSIGN_OR_RETURN(x, e); k] *)
Notation "'let?' x := e 'in' k" :=
  (match e with Val x => k | Err s => Err s end)
  (at level 10, x pattern, e at level 200, k at level 200).

Lemma StatusCode_value_inj c1 c2 : StatusCode_value c1 = StatusCode_value c2 -> c1 = c2.
Proof. by destruct c1, c2. Qed.

Lemma IsOk_ok s : IsOk s = true <-> code_ s = kOk.
Proof. unfold IsOk. apply bool_decide_eq_true. Qed.

(** The result of an [ErrorOr] built through its constructors: its status is
    Ok exactly when it holds a value. *)
Lemma ErrorOr_of_Status_status {A} (s : Status) (e : ErrorOr A) :
  ErrorOr_of_Status s = Some e -> holds_value e = false /\ status e = s /\ IsOk (status e) = false.
Proof.
  unfold ErrorOr_of_Status. destruct (IsOk s) eqn:E; [done|].
  intros [= <-]. by rewrite <-E.
Qed.
