(* ===== verification/BinarySerializer.v ===== *)
(** * [BinarySerializer]

    Models src/src/common/serialization/binary_serializer.{h,cpp}.  A write
    appends to the buffer; a read returns the value and the advanced offset,
    or the corruption status of the bounds check.  [std::memcpy] copies the
    object representation, which is little-endian on the targets the project
    builds for; a [float] is represented by its 32-bit pattern.  Offsets and
    buffer sizes are [size_t] counts of bytes in memory, hence [nat]; the
    32-bit lengths of the format are truncated where the source casts. *)

From S2P Require Import Prelude Status.

(** ** Operations *)

Definition bounds_error : Status :=
  mkStatus kStorageCorruption (lit "BinarySerializer: Buffer overflow/underflow detected").

(** [CHECK_BOUNDS]: [true] when the access stays inside the buffer. *)
Definition CHECK_BOUNDS (buffer : bytes) (offset required : nat) : bool :=
  negb (length buffer <? offset + required)%nat.

(** [buffer.data() + offset], [len] bytes of it. *)
Definition slice (buffer : bytes) (offset len : nat) : bytes :=
  take len (drop offset buffer).

Definition WriteUint32 (buffer : bytes) (value : Z) : bytes :=
  buffer ++ le_bytes 4 value.

Definition WriteUint64 (buffer : bytes) (value : Z) : bytes :=
  buffer ++ le_bytes 8 value.

Definition WriteFloat (buffer : bytes) (value : Z) : bytes :=
  buffer ++ le_bytes 4 value.

Definition WriteString (buffer : bytes) (value : str) : bytes :=
  let buffer := WriteUint32 buffer (u32 (Z.of_nat (length value))) in
  buffer ++ value.

Definition WriteFloatVector (buffer : bytes) (vec : list Z) : bytes :=
  let buffer := WriteUint32 buffer (u32 (Z.of_nat (length vec))) in
  buffer ++ mjoin (le_bytes 4 <$> vec).

Definition ReadUint32 (buffer : bytes) (offset : nat) : ErrorOr (Z * nat) :=
  if CHECK_BOUNDS buffer offset 4
  then Val (le_value (slice buffer offset 4), (offset + 4)%nat)
  else Err bounds_error.

Definition ReadUint64 (buffer : bytes) (offset : nat) : ErrorOr (Z * nat) :=
  if CHECK_BOUNDS buffer offset 8
  then Val (le_value (slice buffer offset 8), (offset + 8)%nat)
  else Err bounds_error.

Definition ReadFloat (buffer : bytes) (offset : nat) : ErrorOr (Z * nat) :=
  if CHECK_BOUNDS buffer offset 4
  then Val (le_value (slice buffer offset 4), (offset + 4)%nat)
  else Err bounds_error.

Definition ReadString (buffer : bytes) (offset : nat) : ErrorOr (str * nat) :=
  let? (length, offset) := ReadUint32 buffer offset in
  if CHECK_BOUNDS buffer offset (Z.to_nat length)
  then Val (slice buffer offset (Z.to_nat length), (offset + Z.to_nat length)%nat)
  else Err bounds_error.

(** [n] consecutive floats of the byte array [bs]. *)
Fixpoint floats_of_bytes (n : nat) (bs : bytes) : list Z :=
  match n with
  | O => []
  | S n' => le_value (take 4 bs) :: floats_of_bytes n' (drop 4 bs)
  end.

Definition ReadFloatVector (buffer : bytes) (offset : nat) : ErrorOr (list Z * nat) :=
  let? (length, offset) := ReadUint32 buffer offset in
  let n_bytes := (Z.to_nat length * 4)%nat in
  if CHECK_BOUNDS buffer offset n_bytes
  then Val (floats_of_bytes (Z.to_nat length) (slice buffer offset n_bytes),
            (offset + n_bytes)%nat)
  else Err bounds_error.

(** ** Lemmas on slices *)

Lemma CHECK_BOUNDS_true buffer offset required :
  CHECK_BOUNDS buffer offset required = true <-> (offset + required <= length buffer)%nat.
Proof. unfold CHECK_BOUNDS. destruct (Nat.ltb_spec (length buffer) (offset + required)); simpl; split; intros; try done; lia. Qed.

Lemma slice_app (pre mid post : bytes) :
  slice (pre ++ mid ++ post) (length pre) (length mid) = mid.
Proof. unfold slice. by rewrite drop_app_length, take_app_length. Qed.

Lemma slice_app_eq (pre mid post : bytes) offset len :
  offset = length pre -> len = length mid -> slice (pre ++ mid ++ post) offset len = mid.
Proof. intros -> ->. apply slice_app. Qed.

Lemma slice_end (pre mid : bytes) offset len :
  offset = length pre -> len = length mid -> slice (pre ++ mid) offset len = mid.
Proof. intros. rewrite <-(app_nil_r mid) at 1. by apply slice_app_eq. Qed.

Lemma length_slice buffer offset len :
  (offset + len <= length buffer)%nat -> length (slice buffer offset len) = len.
Proof. intros. unfold slice. rewrite length_take, length_drop. lia. Qed.

(** ** Reading back what was written, anywhere in a buffer

    These are the equations the formats of the storage engine are proved
    with: each read, at the offset where the corresponding write started. *)

Lemma ReadUint32_app pre v post offset :
  offset = length pre -> 0 <= v < 2 ^ 32 ->
  ReadUint32 (pre ++ le_bytes 4 v ++ post) offset = Val (v, (offset + 4)%nat).
Proof.
  intros -> Hv. unfold ReadUint32.
  rewrite (proj2 (CHECK_BOUNDS_true _ _ _)) by (autorewrite with vdb_len; lia).
  rewrite slice_app_eq by (autorewrite with vdb_len; lia).
  by rewrite le_value_le_bytes, Z.mod_small.
Qed.

Lemma ReadUint64_app pre v post offset :
  offset = length pre -> 0 <= v < 2 ^ 64 ->
  ReadUint64 (pre ++ le_bytes 8 v ++ post) offset = Val (v, (offset + 8)%nat).
Proof.
  intros -> Hv. unfold ReadUint64.
  rewrite (proj2 (CHECK_BOUNDS_true _ _ _)) by (autorewrite with vdb_len; lia).
  rewrite slice_app_eq by (autorewrite with vdb_len; lia).
  by rewrite le_value_le_bytes, Z.mod_small.
Qed.

(** The encoding of a length-prefixed string. *)
Definition string_bytes (s : str) : bytes := le_bytes 4 (Z.of_nat (length s)) ++ s.

Lemma WriteString_bytes buffer s :
  Z.of_nat (length s) < 2 ^ 32 -> WriteString buffer s = buffer ++ string_bytes s.
Proof.
  intros. unfold WriteString, WriteUint32, string_bytes.
  by rewrite u32_small, <-app_assoc by lia.
Qed.

Lemma ReadString_app pre s post offset :
  offset = length pre -> Z.of_nat (length s) < 2 ^ 32 ->
  ReadString (pre ++ string_bytes s ++ post) offset = Val (s, (offset + length (string_bytes s))%nat).
Proof.
  intros -> Hs. unfold ReadString, string_bytes. rewrite <-!app_assoc.
  rewrite ReadUint32_app by lia. rewrite Nat2Z.id.
  rewrite (proj2 (CHECK_BOUNDS_true _ _ _)) by (autorewrite with vdb_len; lia).
  rewrite (app_assoc pre), slice_app_eq by (autorewrite with vdb_len; lia).
  f_equal. f_equal. autorewrite with vdb_len. lia.
Qed.

Lemma length_floats (vec : list Z) : length (mjoin (le_bytes 4 <$> vec)) = (length vec * 4)%nat.
Proof.
  induction vec as [|v vec IH]; [done|]. rewrite fmap_cons.
  change (mjoin (?a :: ?b)) with (a ++ mjoin b).
  autorewrite with vdb_len. simpl. lia.
Qed.

Lemma floats_of_bytes_join (vec : list Z) :
  Forall (fun v => 0 <= v < 2 ^ 32) vec ->
  floats_of_bytes (length vec) (mjoin (le_bytes 4 <$> vec)) = vec.
Proof.
  induction 1 as [|v vec Hv Hvec IH]; [done|].
  rewrite fmap_cons. change (mjoin (?a :: ?b)) with (a ++ mjoin b).
  cbn [length floats_of_bytes].
  rewrite take_app_length', drop_app_length' by (by rewrite length_le_bytes).
  rewrite IH. f_equal. by rewrite le_value_le_bytes, Z.mod_small.
Qed.

(** ** Properties *)

(** C35. A value written with [WriteUint32] (resp. [WriteUint64], [WriteString],
    [WriteFloatVector]) to any buffer, whatever is appended afterwards, is
    what the matching read returns at the offset of the write, and the
    returned offset is where the next write went. *)
Theorem serializer_roundtrip (buffer post : bytes) (v32 v64 : Z) (s : str) (vec : list Z)
    (Hv32 : 0 <= v32 < 2 ^ 32) (Hv64 : 0 <= v64 < 2 ^ 64)
    (Hs : Z.of_nat (length s) < 2 ^ 32) (Hvec : Z.of_nat (length vec) < 2 ^ 32)
    (Hf : Forall (fun v => 0 <= v < 2 ^ 32) vec) :
  ReadUint32 (WriteUint32 buffer v32 ++ post) (length buffer)
    = Val (v32, length (WriteUint32 buffer v32)) /\
  ReadUint64 (WriteUint64 buffer v64 ++ post) (length buffer)
    = Val (v64, length (WriteUint64 buffer v64)) /\
  ReadFloat (WriteFloat buffer v32 ++ post) (length buffer)
    = Val (v32, length (WriteFloat buffer v32)) /\
  ReadString (WriteString buffer s ++ post) (length buffer)
    = Val (s, length (WriteString buffer s)) /\
  ReadFloatVector (WriteFloatVector buffer vec ++ post) (length buffer)
    = Val (vec, length (WriteFloatVector buffer vec)).
Proof.
  split; [|split; [|split; [|split]]].
  - unfold WriteUint32. rewrite <-app_assoc, ReadUint32_app by done.
    by autorewrite with vdb_len.
  - unfold WriteUint64. rewrite <-app_assoc, ReadUint64_app by done.
    by autorewrite with vdb_len.
  - unfold WriteFloat. rewrite <-app_assoc. change ReadFloat with ReadUint32.
    rewrite ReadUint32_app by done. by autorewrite with vdb_len.
  - rewrite WriteString_bytes, <-app_assoc, ReadString_app by done.
    by autorewrite with vdb_len.
  - unfold ReadFloatVector, WriteFloatVector, WriteUint32.
    rewrite u32_small, <-!app_assoc, ReadUint32_app by lia. rewrite Nat2Z.id.
    rewrite (proj2 (CHECK_BOUNDS_true _ _ _))
      by (autorewrite with vdb_len; rewrite length_floats; lia).
    rewrite (app_assoc buffer), slice_app_eq
      by (autorewrite with vdb_len; rewrite ?length_floats; lia).
    rewrite floats_of_bytes_join by done. autorewrite with vdb_len.
    rewrite length_floats. do 2 f_equal. lia.
Qed.

(** The round trip at a buffer that already holds data, with a trailing byte. *)
Lemma serializer_roundtrip_witness :
  ReadString (WriteString (lit "hdr") (lit "key") ++ lit "x") 3 = Val (lit "key", 10%nat).
Proof.
  apply (serializer_roundtrip (lit "hdr") (lit "x") 7 8 (lit "key") [1; 2]);
    [lia | lia | vm_compute; reflexivity | vm_compute; reflexivity |].
  repeat constructor; lia.
Defined.
