(* ===== verification/Mt19937.v ===== *)
(** * [std::mt19937]

    The random engine the skip list draws its node heights from, as the C++
    standard defines it ([rand.eng.mers] with the parameters of
    [std::mt19937]): the state is the window of the last 624 words, one call
    computes the next word of the sequence and returns it tempered. *)

From S2P Require Import Prelude.

(** The window [X_(i-624) .. X_(i-1)]. *)
Record mt19937 : Set := mkMt { mt_window : list Z }.

Definition mt_n : nat := 624.
Definition mt_m : nat := 397.

(** [X_i = f * (X_(i-1) xor (X_(i-1) >> 30)) + i mod 2^32] *)
Fixpoint mt_seed_words (k : nat) (i : Z) (prev : Z) : list Z :=
  match k with
  | O => []
  | S k' =>
      let x := u32 (1812433253 * Z.lxor prev (Z.shiftr prev 30) + i) in
      x :: mt_seed_words k' (i + 1) x
  end.

(** [explicit mersenne_twister_engine(result_type value)] *)
Definition mt_seed (value : Z) : mt19937 :=
  mkMt (u32 value :: mt_seed_words (mt_n - 1) 1 (u32 value)).

Definition mt_temper (x : Z) : Z :=
  let z1 := Z.lxor x (Z.land (Z.shiftr x 11) 0xffffffff) in
  let z2 := Z.lxor z1 (Z.land (u32 (Z.shiftl z1 7)) 0x9d2c5680) in
  let z3 := Z.lxor z2 (Z.land (u32 (Z.shiftl z2 15)) 0xefc60000) in
  Z.lxor z3 (Z.shiftr z3 18).

(** [operator()] *)
Definition mt_next (g : mt19937) : Z * mt19937 :=
  let x0 := nth 0 (mt_window g) 0 in
  let x1 := nth 1 (mt_window g) 0 in
  let xm := nth mt_m (mt_window g) 0 in
  let y := Z.lor (Z.land x0 0x80000000) (Z.land x1 0x7fffffff) in
  let alpha := if Z.testbit y 0 then 0x9908b0df else 0 in
  let x := Z.lxor (Z.lxor xm (Z.shiftr y 1)) alpha in
  (mt_temper x, mkMt (tail (mt_window g) ++ [x])).

#[global] Arguments mt_next : simpl never.
#[global] Arguments mt_seed : simpl never.

(** The first word of the default seed, and of the seed the skip list uses. *)
Example mt_default_first : (mt_next (mt_seed 5489)).1 = 3499211612.
Proof. vm_compute. reflexivity. Qed.

Example mt_seed42_first : (mt_next (mt_seed 42)).1 = 1608637542.
Proof. vm_compute. reflexivity. Qed.

Fixpoint mt_discard (k : nat) (g : mt19937) : mt19937 :=
  match k with O => g | S k' => mt_discard k' (mt_next g).2 end.

(** The check value the standard gives for [std::mt19937] ([rand.predef]): the
    10000th call on a default-constructed engine. *)
Example mt_10000th : (mt_next (mt_discard (Z.to_nat 9999) (mt_seed 5489))).1 = 4123659995.
Proof. vm_compute. reflexivity. Qed.
