(* ===== verification/SkipList.v ===== *)
(** * [SkipList]: the pointer structure under the memtable

    Models src/src/storage/memtable/skip_list.{h,cpp}.  The nodes live in a
    heap (an address is an index into [sl_nodes]; a [delete] only happens in
    the destructor, so the heap only grows); [forward] holds possibly null
    pointers.  Every access through a pointer or a [forward[i]] is checked:
    an operation returns [None] where the C++ would have undefined behaviour
    or would not leave a loop, and the theorems show that this never happens
    on a list built by the constructor, [Put] and [Delete].

    The refinement theorem relates the structure to a finite map from keys to
    [SkipListValue]s: searching through the levels is lookup, [Put] and
    [Delete] are insertion of a value and of a tombstone, and walking level 0
    with the iterator lists the map in key order. *)

From S2P Require Import Prelude Mt19937.

(** ** Data *)

Record SkipListValue : Set := mkSkipListValue { is_tombstone : bool; data : bytes }.

#[export] Instance SkipListValue_eq_dec : EqDecision SkipListValue.
Proof. solve_decision. Defined.

Record SkipListNode : Set := mkSkipListNode {
  node_key : str;
  node_value : SkipListValue;
  forward : list (option nat)
}.

(** Sizes that depend on the C++ implementation. *)
Class Abi := {
  sizeof_SkipList : Z;
  sizeof_SkipListNode : Z;
  sizeof_ptr : Z
}.

(** The values of the Itanium C++ ABI with libstdc++ on x86-64 Linux. *)
Definition x86_64_libstdcxx : Abi :=
  {| sizeof_SkipList := 5080; sizeof_SkipListNode := 88; sizeof_ptr := 8 |}.

Record SkipList : Set := mkSkipList {
  sl_nodes : list SkipListNode;
  max_height_ : nat;
  rnd_ : mt19937;
  memory_usage_ : Z
}.

Definition kMaxHeight : nat := 12.

(** The address of the head node, allocated by the constructor. *)
Definition head_ : nat := 0.

(** ** Heap accesses *)

(** [p->forward[i]]: [None] outside the vector or for a bad address. *)
Definition load_forward (nodes : list SkipListNode) (p i : nat) : option (option nat) :=
  match nodes !! p with
  | Some n => forward n !! i
  | None => None
  end.

(** [p->forward[i] = q] *)
Definition store_forward (nodes : list SkipListNode) (p i : nat) (q : option nat)
    : option (list SkipListNode) :=
  match nodes !! p with
  | Some n =>
      if (i <? length (forward n))%nat
      then Some (<[p := mkSkipListNode (node_key n) (node_value n) (<[i := q]> (forward n))]> nodes)
      else None
  | None => None
  end.

(** ** Constructor *)

Definition null_value : SkipListValue := mkSkipListValue false [].

Definition SkipList_new {abi : Abi} : SkipList :=
  mkSkipList [mkSkipListNode [] null_value (replicate kMaxHeight None)]
    1 (mt_seed 42)
    (u64 (sizeof_SkipList + sizeof_SkipListNode + Z.of_nat kMaxHeight * sizeof_ptr)).

(** ** [RandomHeight]: at most [kMaxHeight] iterations *)

Fixpoint RandomHeight_loop (fuel height : nat) (rnd : mt19937) : nat * mt19937 :=
  match fuel with
  | O => (height, rnd)
  | S fuel' =>
      if (height <? kMaxHeight)%nat then
        let '(r, rnd') := mt_next rnd in
        if r mod 4 =? 0 then RandomHeight_loop fuel' (S height) rnd' else (height, rnd')
      else (height, rnd)
  end.

Definition RandomHeight (rnd : mt19937) : nat * mt19937 :=
  RandomHeight_loop kMaxHeight 1 rnd.

(** ** The search shared by [Put], [Delete] and [Get] *)

(** [while (current->forward[i] != nullptr && current->forward[i]->key < key)
     current = current->forward[i];] *)
Fixpoint search_level (fuel : nat) (nodes : list SkipListNode) (i current : nat) (key : str)
    : option nat :=
  match fuel with
  | O => None
  | S fuel' =>
      match load_forward nodes current i with
      | None => None
      | Some None => Some current
      | Some (Some next) =>
          match nodes !! next with
          | None => None
          | Some n =>
              if str_ltb (node_key n) key
              then search_level fuel' nodes i next key
              else Some current
          end
      end
  end.

(** [for (int i = max_height_ - 1; i >= 0; i--) { ...; update[i] = current; }];
    the first argument is [i + 1]. *)
Fixpoint descend (levels : nat) (nodes : list SkipListNode) (current : nat)
    (update : list (option nat)) (key : str) : option (nat * list (option nat)) :=
  match levels with
  | O => Some (current, update)
  | S i =>
      match search_level (S (length nodes)) nodes i current key with
      | None => None
      | Some current => descend i nodes current (<[i := Some current]> update) key
      end
  end.

(** The search loop of [Get], which keeps no [update] vector. *)
Fixpoint descend_get (levels : nat) (nodes : list SkipListNode) (current : nat) (key : str)
    : option nat :=
  match levels with
  | O => Some current
  | S i =>
      match search_level (S (length nodes)) nodes i current key with
      | None => None
      | Some current => descend_get i nodes current key
      end
  end.

(** The node at an address that the source dereferences only when not null. *)
Definition node_at (nodes : list SkipListNode) (p : option nat) : option (option SkipListNode) :=
  match p with
  | None => Some None
  | Some q => match nodes !! q with Some n => Some (Some n) | None => None end
  end.

(** ** Insertion of a new node *)

(** [for (int i = max_height_; i < height; i++) update[i] = head_;] *)
Fixpoint raise_update (k i : nat) (update : list (option nat)) : list (option nat) :=
  match k with
  | O => update
  | S k' => raise_update k' (S i) (<[i := Some head_]> update)
  end.

(** [for (int i = 0; i < height; i++) { new_node->forward[i] = update[i]->forward[i];
     update[i]->forward[i] = new_node; }]; [k] iterations remain. *)
Fixpoint splice (k i new_node : nat) (update : list (option nat)) (nodes : list SkipListNode)
    : option (list SkipListNode) :=
  match k with
  | O => Some nodes
  | S k' =>
      match update !! i with
      | Some (Some p) =>
          match load_forward nodes p i with
          | None => None
          | Some q =>
              match store_forward nodes new_node i q with
              | None => None
              | Some nodes =>
                  match store_forward nodes p i (Some new_node) with
                  | None => None
                  | Some nodes => splice k' (S i) new_node update nodes
                  end
              end
          end
      | _ => None
      end
  end.

(** The common tail of [Put] and [Delete]: draw a height, allocate, splice. *)
Definition insert_node (sl : SkipList) (update : list (option nat)) (key : str)
    (v : SkipListValue) (usage : nat -> Z) : option SkipList :=
  let '(height, rnd) := RandomHeight (rnd_ sl) in
  let '(update, max_height) :=
    if (max_height_ sl <? height)%nat
    then (raise_update (height - max_height_ sl) (max_height_ sl) update, height)
    else (update, max_height_ sl) in
  let new_node := length (sl_nodes sl) in
  let nodes := sl_nodes sl ++ [mkSkipListNode key v (replicate height None)] in
  match splice height 0 new_node update nodes with
  | None => None
  | Some nodes =>
      Some (mkSkipList nodes max_height rnd (u64 (memory_usage_ sl + usage height)))
  end.

Definition size_of (bs : bytes) : Z := Z.of_nat (length bs).

(** Overwriting [current->value]. *)
Definition set_value (nodes : list SkipListNode) (p : nat) (n : SkipListNode) (v : SkipListValue)
    : list SkipListNode :=
  <[p := mkSkipListNode (node_key n) v (forward n)]> nodes.

(** ** Operations *)

Definition SkipList_Put {abi : Abi} (sl : SkipList) (key : str) (value : bytes) : option SkipList :=
  match descend (max_height_ sl) (sl_nodes sl) head_ (replicate kMaxHeight None) key with
  | None => None
  | Some (current, update) =>
      match load_forward (sl_nodes sl) current 0 with
      | None => None
      | Some next =>
          match node_at (sl_nodes sl) next with
          | None => None
          | Some found =>
              match next, found with
              | Some p, Some n =>
                  if str_eqb (node_key n) key then
                    let usage := u64 (memory_usage_ sl - size_of (data (node_value n))) in
                    let usage := u64 (usage + size_of value) in
                    Some (mkSkipList (set_value (sl_nodes sl) p n (mkSkipListValue false value))
                            (max_height_ sl) (rnd_ sl) usage)
                  else
                    insert_node sl update key (mkSkipListValue false value)
                      (fun height => sizeof_SkipListNode + size_of key + size_of value
                                     + Z.of_nat height * sizeof_ptr)
              | _, _ =>
                  insert_node sl update key (mkSkipListValue false value)
                    (fun height => sizeof_SkipListNode + size_of key + size_of value
                                   + Z.of_nat height * sizeof_ptr)
              end
          end
      end
  end.

Definition SkipList_Delete {abi : Abi} (sl : SkipList) (key : str) : option SkipList :=
  match descend (max_height_ sl) (sl_nodes sl) head_ (replicate kMaxHeight None) key with
  | None => None
  | Some (current, update) =>
      match load_forward (sl_nodes sl) current 0 with
      | None => None
      | Some next =>
          match node_at (sl_nodes sl) next with
          | None => None
          | Some found =>
              match next, found with
              | Some p, Some n =>
                  if str_eqb (node_key n) key then
                    if is_tombstone (node_value n) then Some sl
                    else
                      Some (mkSkipList (set_value (sl_nodes sl) p n (mkSkipListValue true []))
                              (max_height_ sl) (rnd_ sl)
                              (u64 (memory_usage_ sl - size_of (data (node_value n)))))
                  else
                    insert_node sl update key (mkSkipListValue true [])
                      (fun height => sizeof_SkipListNode + size_of key
                                     + Z.of_nat height * sizeof_ptr)
              | _, _ =>
                  insert_node sl update key (mkSkipListValue true [])
                    (fun height => sizeof_SkipListNode + size_of key
                                   + Z.of_nat height * sizeof_ptr)
              end
          end
      end
  end.

(** [bool Get(key, out_value)]: [Some v] when it returns [true] with
    [out_value = v]. *)
Definition SkipList_Get (sl : SkipList) (key : str) : option (option SkipListValue) :=
  match descend_get (max_height_ sl) (sl_nodes sl) head_ key with
  | None => None
  | Some current =>
      match load_forward (sl_nodes sl) current 0 with
      | None => None
      | Some next =>
          match node_at (sl_nodes sl) next with
          | None => None
          | Some (Some n) =>
              if str_eqb (node_key n) key then Some (Some (node_value n)) else Some None
          | Some None => Some None
          end
      end
  end.

Definition SkipList_ApproximateMemoryUsage (sl : SkipList) : Z := memory_usage_ sl.

Definition SkipList_IsEmpty (sl : SkipList) : option bool :=
  match load_forward (sl_nodes sl) head_ 0 with
  | None => None
  | Some next => Some (match next with None => true | Some _ => false end)
  end.

(** ** [class Iterator] *)

(** [Begin()]: the iterator holds a node pointer. *)
Definition Begin (sl : SkipList) : option (option nat) := load_forward (sl_nodes sl) head_ 0.

(** [Next()], on a valid iterator. *)
Definition Iterator_Next (nodes : list SkipListNode) (current : nat) : option (option nat) :=
  load_forward nodes current 0.

(** [for (; iter.Valid(); iter.Next())] collecting [Key()] and [Value()]. *)
Fixpoint iterate (fuel : nat) (nodes : list SkipListNode) (current : option nat)
    : option (list (str * SkipListValue)) :=
  match current with
  | None => Some []
  | Some p =>
      match fuel with
      | O => None
      | S fuel' =>
          match nodes !! p, Iterator_Next nodes p with
          | Some n, Some next =>
              match iterate fuel' nodes next with
              | Some rest => Some ((node_key n, node_value n) :: rest)
              | None => None
              end
          | _, _ => None
          end
      end
  end.

Definition SkipList_entries (sl : SkipList) : option (list (str * SkipListValue)) :=
  match Begin sl with
  | None => None
  | Some first => iterate (length (sl_nodes sl)) (sl_nodes sl) first
  end.

(** [~SkipList]: walks level 0 from the head, deleting each node after its
    [forward[0]] was read.  Returns the addresses in the order of deletion. *)
Fixpoint SkipList_destroy_loop (fuel : nat) (nodes : list SkipListNode) (current : option nat)
    : option (list nat) :=
  match current with
  | None => Some []
  | Some p =>
      match fuel with
      | O => None
      | S fuel' =>
          match load_forward nodes p 0 with
          | None => None
          | Some next =>
              match SkipList_destroy_loop fuel' nodes next with
              | Some freed => Some (p :: freed)
              | None => None
              end
          end
      end
  end.

Definition SkipList_destroy (sl : SkipList) : option (list nat) :=
  SkipList_destroy_loop (length (sl_nodes sl)) (sl_nodes sl) (Some head_).

(** * Invariant *)

(** What pointer writes leave unchanged of a node. *)
Definition shape (n : SkipListNode) : str * SkipListValue * nat :=
  (node_key n, node_value n, length (forward n)).

Definition shape_at (nodes : list SkipListNode) (p : nat) : str * SkipListValue * nat :=
  default ([], null_value, 0%nat) ((shape <$> nodes) !! p).

Definition key_of (nodes : list SkipListNode) (p : nat) : str := (shape_at nodes p).1.1.
Definition value_of (nodes : list SkipListNode) (p : nat) : SkipListValue := (shape_at nodes p).1.2.
Definition height_of (nodes : list SkipListNode) (p : nat) : nat := (shape_at nodes p).2.

(** The nodes of [L] that are linked on level [i]. *)
Definition at_level (nodes : list SkipListNode) (i : nat) (L : list nat) : list nat :=
  filter (fun p => (i < height_of nodes p)%nat) L.

(** Following [nx] from [c] visits exactly [rest] and ends in null. *)
Fixpoint linked (nx : nat -> option (option nat)) (c : nat) (rest : list nat) : Prop :=
  match rest with
  | [] => nx c = Some None
  | p :: rest' => nx c = Some (Some p) /\ linked nx p rest'
  end.

(** [L] lists the addresses of the data nodes in key order: every level is the
    sublist of [L] of the nodes tall enough for it. *)
Record sl_inv (sl : SkipList) (L : list nat) : Prop := {
  inv_head : height_of (sl_nodes sl) head_ = kMaxHeight;
  inv_perm : head_ :: L ≡ₚ seq 0 (length (sl_nodes sl));
  inv_sorted : StronglySorted str_lt (key_of (sl_nodes sl) <$> L);
  inv_linked : forall i, (i < kMaxHeight)%nat ->
    linked (fun p => load_forward (sl_nodes sl) p i) head_ (at_level (sl_nodes sl) i L);
  inv_heights : forall p, p ∈ L -> (1 <= height_of (sl_nodes sl) p <= max_height_ sl)%nat;
  inv_max_height : (1 <= max_height_ sl <= kMaxHeight)%nat
}.

Definition contents (nodes : list SkipListNode) (L : list nat) : list (str * SkipListValue) :=
  (fun p => (key_of nodes p, value_of nodes p)) <$> L.

(** The abstract state: a finite map from keys to values or tombstones. *)
Definition sl_repr (sl : SkipList) (m : gmap str SkipListValue) : Prop :=
  exists L, sl_inv sl L /\ m = list_to_map (contents (sl_nodes sl) L).

(** ** Chains *)

Lemma linked_app nx c A p B : linked nx c (A ++ p :: B) -> linked nx p B.
Proof. revert c; induction A as [|a A IH]; intros c; simpl; [tauto|]. intros [_ H]; eauto. Qed.

Lemma linked_ext nx nx' c rest :
  (forall p, p ∈ c :: rest -> nx' p = nx p) -> linked nx c rest -> linked nx' c rest.
Proof.
  revert c; induction rest as [|p rest IH]; intros c Hext; simpl.
  - by rewrite Hext by (by left).
  - intros [H1 H2]. rewrite Hext by (by left). split; [done|]. apply IH; [|done]. intros; apply Hext; by right.
Qed.

Lemma linked_insert nx nx' c A B new :
  NoDup (c :: A ++ B) -> new ∉ c :: A ++ B ->
  nx' new = nx (default c (last (c :: A))) ->
  nx' (default c (last (c :: A))) = Some (Some new) ->
  (forall p, p ≠ new -> p ≠ default c (last (c :: A)) -> nx' p = nx p) ->
  linked nx c (A ++ B) -> linked nx' c (A ++ new :: B).
Proof.
  revert c; induction A as [|a A IH]; intros c Hnd Hnew Hn Hp Hsame.
  - simpl in *. intros HB. split; [done|].
    destruct B as [|b B]; simpl in *; [congruence|]. destruct HB as [H1 H2].
    split; [congruence|]. eapply linked_ext; [|done].
    intros p Hpin. apply NoDup_cons in Hnd as [Hc _].
    apply Hsame; set_solver.
  - rewrite last_cons_cons in Hn, Hp, Hsame. simpl app. intros [H1 H2].
    apply NoDup_cons in Hnd as [Hc Hnd].
    assert (default c (last (a :: A)) = default a (last (a :: A))) as Hdef.
    { destruct (last (a :: A)) eqn:E; [done|]. by apply last_None in E. }
    rewrite Hdef in Hn, Hp, Hsame.
    split.
    + rewrite Hsame; [done|set_solver|].
      intros ->. apply Hc. apply elem_of_app; left.
      destruct (last (a :: A)) eqn:E; [by apply last_Some_elem_of in E|by apply last_None in E].
    + apply IH; auto. set_solver.
Qed.

(** ** Node shapes are all the invariant looks at, besides the pointers *)

Lemma shape_at_lookup nodes p n : nodes !! p = Some n -> shape_at nodes p = shape n.
Proof. intros H. unfold shape_at. by rewrite list_lookup_fmap, H. Qed.

Lemma shape_at_eq nodes nodes' p :
  shape <$> nodes' = shape <$> nodes -> shape_at nodes' p = shape_at nodes p.
Proof. unfold shape_at. by intros ->. Qed.

Lemma shape_at_app nodes n p :
  (p < length nodes)%nat -> shape_at (nodes ++ [n]) p = shape_at nodes p.
Proof. intros H. unfold shape_at. by rewrite fmap_app, lookup_app_l by (by rewrite length_fmap). Qed.

Lemma shape_at_new nodes n : shape_at (nodes ++ [n]) (length nodes) = shape n.
Proof. apply shape_at_lookup. by rewrite lookup_app_r, Nat.sub_diag by lia. Qed.

Lemma height_of_valid nodes p :
  (0 < height_of nodes p)%nat -> exists n, nodes !! p = Some n.
Proof.
  unfold height_of, shape_at. rewrite list_lookup_fmap.
  destruct (nodes !! p) as [n|]; simpl; [eauto|lia].
Qed.

Lemma load_forward_valid nodes p i :
  (i < height_of nodes p)%nat -> exists q, load_forward nodes p i = Some q.
Proof.
  intros H. destruct (height_of_valid nodes p) as [n Hn]; [lia|].
  unfold load_forward. rewrite Hn. unfold height_of in H. rewrite (shape_at_lookup _ _ _ Hn) in H.
  apply lookup_lt_is_Some. exact H.
Qed.

Lemma load_forward_lt nodes p i q :
  load_forward nodes p i = Some q -> (p < length nodes)%nat.
Proof. unfold load_forward. destruct (nodes !! p) eqn:E; [|done]. intros _. by eapply lookup_lt_Some. Qed.

Lemma store_forward_spec nodes p i q :
  (i < height_of nodes p)%nat ->
  exists nodes', store_forward nodes p i q = Some nodes' /\
    shape <$> nodes' = shape <$> nodes /\
    forall p' j, load_forward nodes' p' j =
      if decide (p' = p /\ j = i) then Some q else load_forward nodes p' j.
Proof.
  intros H. destruct (height_of_valid nodes p) as [n Hn]; [lia|].
  unfold height_of in H. rewrite (shape_at_lookup _ _ _ Hn) in H. simpl in H.
  unfold store_forward. rewrite Hn, (proj2 (Nat.ltb_lt _ _) H).
  eexists; split; [done|]. split.
  - rewrite list_fmap_insert. apply list_insert_id. rewrite list_lookup_fmap, Hn. simpl.
    unfold shape; simpl. by rewrite length_insert.
  - intros p' j. unfold load_forward. destruct (decide (p' = p)) as [->|Hne].
    + rewrite list_lookup_insert_eq, Hn by (by eapply lookup_lt_Some). simpl.
      destruct (decide (j = i)) as [->|Hji].
      * rewrite decide_True by done. by rewrite list_lookup_insert_eq.
      * rewrite decide_False by tauto. by rewrite list_lookup_insert_ne.
    + rewrite list_lookup_insert_ne by done. by rewrite decide_False by tauto.
Qed.

(** ** Searching one level *)

Lemma search_level_spec nodes i key R fuel :
  forall Q cur,
  linked (fun p => load_forward nodes p i) cur (Q ++ R) ->
  (forall p, p ∈ Q ++ R -> (0 < height_of nodes p)%nat) ->
  (forall p, p ∈ Q -> str_lt (key_of nodes p) key) ->
  (forall p, head R = Some p -> ~ str_lt (key_of nodes p) key) ->
  (length Q < fuel)%nat ->
  search_level fuel nodes i cur key = Some (default cur (last (cur :: Q))).
Proof.
  induction fuel as [|fuel IH]; intros Q cur Hlink Hv HQ HR Hf; [lia|].
  simpl. destruct Q as [|q Q]; simpl in Hlink.
  - destruct R as [|r R]; simpl in Hlink; [by rewrite Hlink|].
    destruct Hlink as [-> _]. destruct (height_of_valid nodes r) as [n Hn]; [by apply Hv; left|].
    rewrite Hn. assert (key_of nodes r = node_key n) as Hk
      by (unfold key_of; by rewrite (shape_at_lookup _ _ _ Hn)).
    rewrite <-Hk, (proj2 (str_ltb_ge _ _)) by (by apply HR). done.
  - destruct Hlink as [-> Hlink]. destruct (height_of_valid nodes q) as [n Hn]; [apply Hv; by left|].
    rewrite Hn. assert (key_of nodes q = node_key n) as Hk
      by (unfold key_of; by rewrite (shape_at_lookup _ _ _ Hn)).
    rewrite <-Hk, (proj2 (str_ltb_lt _ _)) by (apply HQ; by left).
    rewrite (IH Q q); auto; [| intros; apply Hv; by right | intros; apply HQ; by right | simpl in Hf; lia].
    rewrite last_cons_cons. destruct (last (q :: Q)) eqn:E; [done|]. by apply last_None in E.
Qed.

(** ** Splicing *)

(** The effect on the pointers of iterations [i .. i + k - 1]. *)
Definition spliced (i k new : nat) (update : list (option nat)) (nodes : list SkipListNode)
    (p j : nat) : option (option nat) :=
  if decide (i <= j < i + k)%nat then
    if decide (p = new) then
      match update !! j with Some (Some q) => load_forward nodes q j | _ => None end
    else if decide (update !! j = Some (Some p)) then Some (Some new)
    else load_forward nodes p j
  else load_forward nodes p j.

Lemma splice_spec k : forall i new update nodes,
  (forall j, (i <= j < i + k)%nat ->
     exists p, update !! j = Some (Some p) /\ p ≠ new /\ (j < height_of nodes p)%nat) ->
  (i + k <= height_of nodes new)%nat ->
  exists nodes', splice k i new update nodes = Some nodes' /\
    shape <$> nodes' = shape <$> nodes /\
    forall p j, load_forward nodes' p j = spliced i k new update nodes p j.
Proof.
  induction k as [|k IH]; intros i new update nodes Hupd Hnew.
  { exists nodes. split; [done|]. split; [done|]. intros p j. unfold spliced.
    by rewrite decide_False by lia. }
  destruct (Hupd i) as (p & Hp & Hpn & Hpi); [lia|]. simpl. rewrite Hp.
  destruct (load_forward_valid nodes p i Hpi) as [q Hq]. rewrite Hq.
  destruct (store_forward_spec nodes new i q) as (n1 & -> & Hs1 & Hl1); [lia|].
  destruct (store_forward_spec n1 p i (Some new)) as (n2 & -> & Hs2 & Hl2).
  { unfold height_of in *. by rewrite (shape_at_eq _ _ p Hs1). }
  destruct (IH (S i) new update n2) as (n3 & -> & Hs3 & Hl3).
  { intros j Hj. destruct (Hupd j) as (pj & ? & ? & ?); [lia|]. exists pj. split_and!; try done.
    unfold height_of in *. by rewrite (shape_at_eq _ _ pj Hs2), (shape_at_eq _ _ pj Hs1). }
  { unfold height_of in *. rewrite (shape_at_eq _ _ new Hs2), (shape_at_eq _ _ new Hs1). lia. }
  exists n3. split; [done|]. split; [congruence|].
  intros p' j. rewrite Hl3. unfold spliced.
  destruct (decide (S i <= j < S i + k)%nat).
  - rewrite (decide_True (P := (i <= j < i + S k)%nat)) by lia.
    destruct (decide (p' = new)) as [->|].
    + destruct (Hupd j) as (pj & -> & ? & ?); [lia|].
      rewrite Hl2, Hl1, !decide_False by lia. done.
    + destruct (decide (update !! j = Some (Some p'))); [done|].
      rewrite Hl2, Hl1, !decide_False by lia. done.
  - destruct (decide (j = i)) as [->|Hne].
    + rewrite (decide_True (P := (i <= i < i + S k)%nat)) by lia. rewrite Hl2, Hl1, Hp.
      destruct (decide (p' = new)) as [->|].
      * rewrite decide_False by (intros [? _]; congruence). rewrite decide_True by done. done.
      * destruct (decide (p' = p)) as [->|].
        -- by rewrite !decide_True by done.
        -- by rewrite !decide_False by (try tauto; congruence).
    + rewrite (decide_False (P := (i <= j < i + S k)%nat)) by lia.
      by rewrite Hl2, Hl1, !decide_False by (intros [? ?]; congruence).
Qed.

(** ** Splitting the ordered nodes at a key *)

Definition before (nodes : list SkipListNode) (key : str) (L : list nat) : list nat :=
  filter (fun p => str_lt (key_of nodes p) key) L.
Definition from (nodes : list SkipListNode) (key : str) (L : list nat) : list nat :=
  filter (fun p => ~ str_lt (key_of nodes p) key) L.

Lemma before_from nodes key L :
  StronglySorted str_lt (key_of nodes <$> L) -> L = before nodes key L ++ from nodes key L.
Proof.
  unfold before, from. induction L as [|p L IH]; [done|]. rewrite fmap_cons.
  intros Hs. apply StronglySorted_inv in Hs as [Hs Hall].
  destruct (decide (str_lt (key_of nodes p) key)) as [Hlt|Hge].
  - rewrite filter_cons_True, filter_cons_False by tauto. simpl. by rewrite <-IH.
  - rewrite filter_cons_False, filter_cons_True by tauto.
    rewrite (IH Hs) at 1.
    assert (filter (fun p => str_lt (key_of nodes p) key) L = []) as ->; [|done].
    apply filter_none. intros q Hqin Hq. apply Hge.
    rewrite Forall_fmap, Forall_forall in Hall.
    eapply str_lt_trans; [exact (Hall q Hqin)|exact Hq].
Qed.

Lemma at_level_app nodes i A B : at_level nodes i (A ++ B) = at_level nodes i A ++ at_level nodes i B.
Proof. apply filter_app. Qed.

Lemma at_level_cons nodes i p A :
  at_level nodes i (p :: A)
  = if (i <? height_of nodes p)%nat then p :: at_level nodes i A else at_level nodes i A.
Proof.
  unfold at_level. destruct (Nat.ltb_spec i (height_of nodes p)).
  - by rewrite filter_cons_True.
  - by rewrite filter_cons_False by lia.
Qed.

Lemma elem_of_at_level nodes i L p : p ∈ at_level nodes i L <-> (i < height_of nodes p)%nat /\ p ∈ L.
Proof. unfold at_level. by rewrite list_elem_of_filter. Qed.

(** The predecessor of [key] on level [i]. *)
Definition pred_at (nodes : list SkipListNode) (key : str) (L : list nat) (i : nat) : nat :=
  default head_ (last (head_ :: at_level nodes i (before nodes key L))).

Lemma pred_at_cases nodes key L i :
  pred_at nodes key L i = head_ \/ pred_at nodes key L i ∈ at_level nodes i (before nodes key L).
Proof.
  unfold pred_at. destruct (last _) as [p|] eqn:E; simpl; [|by left].
  apply last_Some_elem_of in E. set_solver.
Qed.

(** ** Searching a well-formed list *)

#[local] Arguments search_level : simpl never.

Section search.
Context (sl : SkipList) (L : list nat) (key : str) (Hinv : sl_inv sl L).

Abbreviation nodes := (sl_nodes sl).
Abbreviation Lb := (before nodes key L).
Abbreviation Lf := (from nodes key L).

Lemma inv_split : L = Lb ++ Lf.
Proof. apply before_from, Hinv. Qed.

Lemma inv_NoDup : NoDup (head_ :: L).
Proof. rewrite (inv_perm _ _ Hinv). apply NoDup_seq. Qed.

Lemma inv_addr p : p ∈ head_ :: L <-> (p < length nodes)%nat.
Proof. rewrite (inv_perm _ _ Hinv), elem_of_seq. lia. Qed.

Lemma inv_length : length nodes = S (length L).
Proof.
  pose proof (Permutation_length (inv_perm _ _ Hinv)) as H.
  rewrite length_seq in H. simpl in H. lia.
Qed.

Lemma inv_level_split i :
  (i < kMaxHeight)%nat ->
  linked (fun p => load_forward nodes p i) head_ (at_level nodes i Lb ++ at_level nodes i Lf).
Proof. intros Hi. rewrite <-at_level_app, <-inv_split. by apply Hinv. Qed.

Lemma in_before p : p ∈ Lb <-> str_lt (key_of nodes p) key /\ p ∈ L.
Proof. unfold before. by rewrite list_elem_of_filter. Qed.

Lemma in_from p : p ∈ Lf <-> ~ str_lt (key_of nodes p) key /\ p ∈ L.
Proof. unfold from. by rewrite list_elem_of_filter. Qed.

Lemma inv_height_pos p : p ∈ L -> (0 < height_of nodes p)%nat.
Proof. intros Hp. pose proof (inv_heights _ _ Hinv p Hp). lia. Qed.

(** One level of the descent, from any node of that level before [key]. *)
Lemma search_level_pred i cur :
  (i < kMaxHeight)%nat -> cur ∈ head_ :: at_level nodes i Lb ->
  search_level (S (length nodes)) nodes i cur key = Some (pred_at nodes key L i).
Proof.
  intros Hi Hcur. apply list_elem_of_split in Hcur as (P & Q & Heq).
  assert (linked (fun p => load_forward nodes p i) cur (Q ++ at_level nodes i Lf)) as Hl.
  { pose proof (inv_level_split i Hi) as Hl. destruct P as [|c P]; injection Heq as Hc Heq.
    - by rewrite Hc, Heq in Hl.
    - rewrite Heq, <-app_assoc in Hl. by eapply linked_app. }
  assert (forall p, p ∈ Q -> p ∈ at_level nodes i Lb) as HQ.
  { intros p Hp. assert (p ∈ head_ :: at_level nodes i Lb) as Hp' by (rewrite Heq; set_solver).
    apply elem_of_cons in Hp' as [->|]; [|done].
    pose proof inv_NoDup as Hnd.
    assert (NoDup (head_ :: at_level nodes i Lb)) as Hnd'.
    { apply NoDup_cons in Hnd as [Hh HL]. apply NoDup_cons. split.
      - rewrite elem_of_at_level, in_before. tauto.
      - by apply NoDup_filter, NoDup_filter. }
    rewrite Heq in Hnd'. destruct P as [|c P]; simplify_eq/=.
    - apply NoDup_cons in Hnd' as [? _]. done.
    - apply NoDup_cons in Hnd' as [Hc _]. exfalso. apply Hc. set_solver. }
  rewrite (search_level_spec _ _ _ (at_level nodes i Lf) _ Q); [|done|..].
  - unfold pred_at. rewrite Heq. f_equal. by rewrite last_app_cons.
  - intros p [Hp|Hp]%elem_of_app.
    + apply HQ, elem_of_at_level in Hp as [_ Hp]. apply in_before in Hp as [_ Hp]. by apply inv_height_pos.
    + apply elem_of_at_level in Hp as [_ Hp]. apply in_from in Hp as [_ Hp]. by apply inv_height_pos.
  - intros p Hp. apply HQ, elem_of_at_level in Hp as [_ Hp]. by apply in_before in Hp as [? _].
  - intros p Hp. apply head_Some_elem_of, elem_of_at_level in Hp as [_ Hp]. by apply in_from in Hp as [? _].
  - apply (f_equal length) in Heq. simpl in Heq. rewrite length_app in Heq. simpl in Heq.
    assert (length (at_level nodes i Lb) <= length Lb)%nat by apply length_filter.
    assert (length Lb <= length L)%nat by apply length_filter.
    rewrite inv_length. lia.
Qed.

(** [pred_at i] is usable on every level up to [i]. *)
Lemma pred_at_level i j :
  (i < kMaxHeight)%nat -> (j <= i)%nat -> pred_at nodes key L i ∈ head_ :: at_level nodes j Lb.
Proof.
  intros Hi Hj. destruct (pred_at_cases nodes key L i) as [->|Hp]; [by left|].
  right. apply elem_of_at_level in Hp as [? ?]. apply elem_of_at_level. split; [lia|done].
Qed.

Lemma pred_at_addr i : pred_at nodes key L i ∈ head_ :: L.
Proof.
  destruct (pred_at_cases nodes key L i) as [->|Hp]; [by left|]. right.
  apply elem_of_at_level in Hp as [_ Hp]. by apply in_before in Hp as [_ ?].
Qed.

Lemma pred_at_height i :
  (i < kMaxHeight)%nat -> (i < height_of nodes (pred_at nodes key L i))%nat.
Proof.
  intros Hi. destruct (pred_at_cases nodes key L i) as [->|Hp].
  - by rewrite (inv_head _ _ Hinv).
  - by apply elem_of_at_level in Hp as [? _].
Qed.

Lemma descend_spec levels : forall cur update,
  (levels <= kMaxHeight)%nat -> length update = kMaxHeight ->
  (forall i, levels = S i -> cur ∈ head_ :: at_level nodes i Lb) ->
  exists update', descend levels nodes cur update key
      = Some (if decide (levels = 0%nat) then cur else pred_at nodes key L 0, update') /\
    length update' = kMaxHeight /\
    forall i, update' !! i =
      if decide (i < levels)%nat then Some (Some (pred_at nodes key L i)) else update !! i.
Proof.
  induction levels as [|i IH]; intros cur update Hl Hlen Hcur.
  { exists update. by split_and!. }
  simpl. rewrite search_level_pred by (try lia; by apply Hcur).
  destruct (IH (pred_at nodes key L i) (<[i := Some (pred_at nodes key L i)]> update))
    as (update' & -> & Hlen' & Hupd).
  { lia. } { by rewrite length_insert. } { intros j ->. apply pred_at_level; lia. }
  exists update'. split_and!; try done.
  - by destruct (decide (i = 0%nat)) as [->|].
  - intros j. rewrite Hupd. destruct (decide (j < i)%nat); [by rewrite decide_True by lia|].
    destruct (decide (j = i)) as [->|].
    + rewrite decide_True by lia. by rewrite list_lookup_insert_eq by lia.
    + rewrite decide_False by lia. by rewrite list_lookup_insert_ne by lia.
Qed.

Lemma descend_get_spec levels : forall cur,
  (levels <= kMaxHeight)%nat ->
  (forall i, levels = S i -> cur ∈ head_ :: at_level nodes i Lb) ->
  descend_get levels nodes cur key
    = Some (if decide (levels = 0%nat) then cur else pred_at nodes key L 0).
Proof.
  induction levels as [|i IH]; intros cur Hl Hcur; [done|].
  simpl. rewrite search_level_pred by (try lia; by apply Hcur).
  rewrite IH; [|lia|intros j ->; apply pred_at_level; lia].
  by destruct (decide (i = 0%nat)) as [->|].
Qed.

(** Level 0 holds every node. *)
Lemma at_level_0 A : (forall p, p ∈ A -> p ∈ L) -> at_level nodes 0 A = A.
Proof. intros HA. apply filter_all. intros p Hp. by apply inv_height_pos, HA. Qed.

(** After the descent, [current->forward[0]] is the first node not before
    [key]. *)
Lemma load_pred_0 : load_forward nodes (pred_at nodes key L 0) 0 = Some (head Lf).
Proof.
  pose proof (inv_level_split 0 ltac:(unfold kMaxHeight; lia)) as Hl.
  rewrite (at_level_0 Lf) in Hl by (intros p Hp; by apply in_from in Hp as [_ ?]).
  assert (exists P, head_ :: at_level nodes 0 Lb = P ++ [pred_at nodes key L 0]) as [P HP].
  { unfold pred_at. destruct (last (head_ :: at_level nodes 0 Lb)) as [p|] eqn:E.
    - apply last_Some in E as [P HP]. by exists P.
    - by apply last_None in E. }
  assert (linked (fun p => load_forward nodes p 0) (pred_at nodes key L 0) Lf) as Hl'.
  { destruct P as [|c P]; simpl in HP; injection HP as Hc HP; rewrite HP in Hl.
    - by rewrite <-Hc.
    - rewrite <-app_assoc in Hl. by eapply linked_app. }
  destruct Lf as [|p R]; simpl in Hl'; [done|]. by destruct Hl' as [-> _].
Qed.

Lemma head_from_valid p : head Lf = Some p -> p ∈ L /\ exists n, nodes !! p = Some n.
Proof.
  intros Hp. apply head_Some_elem_of, in_from in Hp as [_ Hp]. split; [done|].
  by apply height_of_valid, inv_height_pos.
Qed.
End search.

(** ** Inserting a node *)

Lemma RandomHeight_loop_range fuel : forall height rnd,
  (height <= kMaxHeight)%nat ->
  (height <= (RandomHeight_loop fuel height rnd).1 <= kMaxHeight)%nat.
Proof.
  induction fuel as [|fuel IH]; intros height rnd Hh; cbn [RandomHeight_loop fst]; [lia|].
  destruct (Nat.ltb_spec height kMaxHeight); cbn [fst]; [|lia].
  destruct (mt_next rnd) as [r rnd']. destruct (r mod 4 =? 0); cbn [fst]; [|lia].
  pose proof (IH (S height) rnd'). lia.
Qed.

Lemma RandomHeight_range rnd : (1 <= (RandomHeight rnd).1 <= kMaxHeight)%nat.
Proof. apply RandomHeight_loop_range. unfold kMaxHeight. lia. Qed.

Lemma raise_update_lookup k : forall i update j,
  (i + k <= length update)%nat ->
  raise_update k i update !! j =
    if decide (i <= j < i + k)%nat then Some (Some head_) else update !! j.
Proof.
  induction k as [|k IH]; intros i update j Hk; simpl.
  - by rewrite decide_False by lia.
  - rewrite IH by (rewrite length_insert; lia).
    destruct (decide (S i <= j < S i + k)%nat); [by rewrite decide_True by lia|].
    destruct (decide (j = i)) as [->|].
    + rewrite decide_True by lia. by rewrite list_lookup_insert_eq by lia.
    + rewrite decide_False by lia. by rewrite list_lookup_insert_ne by lia.
Qed.

Lemma load_forward_app_ne nodes n p i :
  p ≠ length nodes -> load_forward (nodes ++ [n]) p i = load_forward nodes p i.
Proof.
  intros Hne. unfold load_forward. destruct (decide (p < length nodes)%nat).
  - by rewrite lookup_app_l by done.
  - rewrite (lookup_ge_None_2 (nodes ++ [n])) by (rewrite length_app; simpl; lia).
    by rewrite lookup_ge_None_2 by lia.
Qed.

(** Level [i] above the current maximum is empty, so its predecessor is the
    head: what [raise_update] writes. *)
Lemma pred_at_above sl L key i :
  sl_inv sl L -> (max_height_ sl <= i)%nat -> pred_at (sl_nodes sl) key L i = head_.
Proof.
  intros Hinv Hi. unfold pred_at, at_level.
  rewrite filter_none; [done|]. intros p Hp Hlt.
  unfold before in Hp. apply list_elem_of_filter in Hp as [_ Hp].
  pose proof (inv_heights _ _ Hinv p Hp). lia.
Qed.

Section insert.
Context (sl : SkipList) (L : list nat) (key : str) (v : SkipListValue) (Hinv : sl_inv sl L).
Context (update : list (option nat)).
Hypothesis Hfresh : forall p, p ∈ L -> key_of (sl_nodes sl) p ≠ key.
Hypothesis Hupd_len : length update = kMaxHeight.
Hypothesis Hupd : forall i, (i < max_height_ sl)%nat ->
  update !! i = Some (Some (pred_at (sl_nodes sl) key L i)).

Abbreviation nodes := (sl_nodes sl).
Abbreviation new := (length (sl_nodes sl)).
Abbreviation L' := (before nodes key L ++ new :: from nodes key L).

Definition raised (h : nat) : list (option nat) :=
  if (max_height_ sl <? h)%nat
  then raise_update (h - max_height_ sl) (max_height_ sl) update else update.

Lemma raised_lookup h i :
  (h <= kMaxHeight)%nat -> (i < h)%nat ->
  raised h !! i = Some (Some (pred_at nodes key L i)).
Proof.
  intros Hh Hi. unfold raised. pose proof (inv_max_height _ _ Hinv).
  destruct (Nat.ltb_spec (max_height_ sl) h).
  - rewrite raise_update_lookup by lia. case_decide.
    + by rewrite pred_at_above by (try done; lia).
    + apply Hupd. lia.
  - apply Hupd. lia.
Qed.

Lemma splice_ok h n :
  (h <= kMaxHeight)%nat -> length (forward n) = h ->
  exists nodes', splice h 0 new (raised h) (nodes ++ [n]) = Some nodes' /\
    shape <$> nodes' = shape <$> (nodes ++ [n]) /\
    forall p i, load_forward nodes' p i = spliced 0 h new (raised h) (nodes ++ [n]) p i.
Proof.
  intros Hh Hn. apply splice_spec.
  - intros j Hj. exists (pred_at nodes key L j).
    pose proof (pred_at_height sl L key Hinv j ltac:(lia)) as Hph.
    destruct (height_of_valid nodes (pred_at nodes key L j)) as [m Hm]; [lia|].
    apply lookup_lt_Some in Hm. split_and!.
    + apply raised_lookup; lia.
    + lia.
    + unfold height_of. by rewrite shape_at_app.
  - unfold height_of. rewrite shape_at_new. simpl. lia.
Qed.

Lemma new_not_in p : p ∈ head_ :: L -> p ≠ new.
Proof. rewrite (inv_addr sl L Hinv). lia. Qed.

Lemma insert_perm : head_ :: L' ≡ₚ seq 0 (S new).
Proof.
  rewrite seq_S, <-(inv_perm _ _ Hinv). simpl app. apply perm_skip.
  rewrite <-Permutation_middle, (Permutation_app_comm L). simpl. apply perm_skip.
  by rewrite <-(inv_split sl L key Hinv).
Qed.

Lemma insert_sorted (kf : nat -> str) :
  (forall p, p ∈ L -> kf p = key_of nodes p) -> kf new = key ->
  StronglySorted str_lt (kf <$> L').
Proof.
  intros Hkf Hnew. pose proof (inv_sorted _ _ Hinv) as Hs.
  rewrite (inv_split sl L key Hinv), fmap_app in Hs.
  assert (forall A : list nat, (forall p, p ∈ A -> p ∈ L) -> kf <$> A = key_of nodes <$> A) as Hmap.
  { intros A HA. apply list_fmap_ext. intros i p Hp. apply Hkf, HA. by eapply list_elem_of_lookup_2. }
  rewrite fmap_app, fmap_cons, Hnew.
  rewrite (Hmap (before _ _ _)) by (intros p Hp; by apply in_before in Hp as [_ ?]).
  rewrite (Hmap (from _ _ _)) by (intros p Hp; by apply in_from in Hp as [_ ?]).
  apply StronglySorted_app in Hs as (Hcross & Hb & Hf).
  apply StronglySorted_app_2; [|done|].
  - intros x1 x2 Hx1 Hx2. apply elem_of_cons in Hx2 as [->|Hx2]; [|by apply Hcross].
    apply list_elem_of_fmap in Hx1 as (p & -> & Hp). by apply in_before in Hp as [? _].
  - constructor; [done|]. apply Forall_fmap, Forall_forall. intros p Hp.
    apply in_from in Hp as [Hge Hp]. simpl.
    destruct (str_not_lt _ _ Hge) as [Heq|]; [|done]. by destruct (Hfresh p Hp).
Qed.

Lemma insert_linked h n nodes' i :
  (h <= kMaxHeight)%nat -> length (forward n) = h -> (i < kMaxHeight)%nat ->
  shape <$> nodes' = shape <$> (nodes ++ [n]) ->
  (forall p j, load_forward nodes' p j = spliced 0 h new (raised h) (nodes ++ [n]) p j) ->
  linked (fun p => load_forward nodes' p i) head_ (at_level nodes' i L').
Proof.
  intros Hh Hn Hi Hsh Hload.
  assert (forall A, (forall p, p ∈ A -> p ∈ L) -> at_level nodes' i A = at_level nodes i A) as Hlev.
  { intros A HA. apply filter_ext_in. intros p Hp. unfold height_of.
    rewrite (shape_at_eq _ _ p Hsh), shape_at_app; [done|].
    apply (inv_addr sl L Hinv). right. by apply HA. }
  assert (height_of nodes' new = h) as Hnewh.
  { unfold height_of. by rewrite (shape_at_eq _ _ new Hsh), shape_at_new. }
  assert (Hb : at_level nodes' i (before nodes key L) = at_level nodes i (before nodes key L))
    by (apply Hlev; intros p Hp; by apply in_before in Hp as [_ ?]).
  assert (Hf : at_level nodes' i (from nodes key L) = at_level nodes i (from nodes key L))
    by (apply Hlev; intros p Hp; by apply in_from in Hp as [_ ?]).
  rewrite at_level_app, at_level_cons, Hnewh, Hb, Hf.
  pose proof (inv_level_split sl L key Hinv i Hi) as Hl.
  assert (forall p, p ∈ head_ :: at_level nodes i (before nodes key L) ++ at_level nodes i (from nodes key L)
            -> p ∈ head_ :: L) as Hin.
  { intros p. rewrite <-at_level_app, <-(inv_split sl L key Hinv).
    rewrite !elem_of_cons, elem_of_at_level. tauto. }
  assert (Hold : forall p, p ≠ new -> (h <= i)%nat \/ p ≠ pred_at nodes key L i ->
            load_forward nodes' p i = load_forward nodes p i).
  { intros p Hp Hor. rewrite Hload. unfold spliced.
    rewrite load_forward_app_ne by done. case_decide; [|done].
    rewrite decide_False by done. rewrite raised_lookup by lia.
    rewrite decide_False; [done|]. intros [= E]. destruct Hor; [lia|congruence]. }
  destruct (Nat.ltb_spec i h) as [Hih|Hih].
  - eapply linked_insert; [| | | | |exact Hl].
    + rewrite <-at_level_app, <-(inv_split sl L key Hinv).
      pose proof (inv_NoDup sl L Hinv) as Hnd. apply NoDup_cons in Hnd as [? ?].
      apply NoDup_cons. split; [rewrite elem_of_at_level; tauto|]. by apply NoDup_filter.
    + intros Hnew%Hin. by apply new_not_in in Hnew.
    + cbv beta. fold (pred_at nodes key L i). rewrite Hload. unfold spliced.
      rewrite decide_True by lia. rewrite decide_True by done. rewrite raised_lookup by lia.
      by apply load_forward_app_ne, new_not_in, pred_at_addr.
    + cbv beta. fold (pred_at nodes key L i). rewrite Hload. unfold spliced.
      rewrite decide_True by lia. rewrite decide_False by (by apply new_not_in, pred_at_addr).
      rewrite raised_lookup by lia. by rewrite decide_True.
    + intros p Hp Hpp. apply Hold; [done|]. by right.
  - eapply linked_ext; [|exact Hl]. intros p Hp%Hin. apply Hold; [by apply new_not_in|]. left; lia.
Qed.
End insert.

(** [insert_node] at a key that is not in the list. *)
Lemma insert_node_spec sl L key v usage update :
  sl_inv sl L ->
  (forall p, p ∈ L -> key_of (sl_nodes sl) p ≠ key) ->
  length update = kMaxHeight ->
  (forall i, (i < max_height_ sl)%nat ->
     update !! i = Some (Some (pred_at (sl_nodes sl) key L i))) ->
  exists sl' L', insert_node sl update key v usage = Some sl' /\ sl_inv sl' L' /\
    contents (sl_nodes sl') L' ≡ₚ (key, v) :: contents (sl_nodes sl) L /\
    memory_usage_ sl' = u64 (memory_usage_ sl + usage (RandomHeight (rnd_ sl)).1) /\
    shape <$> sl_nodes sl' = (shape <$> sl_nodes sl) ++ [(key, v, (RandomHeight (rnd_ sl)).1)].
Proof.
  intros Hinv Hfresh Hlen Hupd.
  pose proof (RandomHeight_range (rnd_ sl)) as Hrange. unfold insert_node.
  destruct (RandomHeight (rnd_ sl)) as [h rnd]; cbn [fst] in *.
  set (n := mkSkipListNode key v (replicate h None)).
  assert (length (forward n) = h) as Hn by apply length_replicate.
  destruct (splice_ok sl L key Hinv update Hlen Hupd h n) as (nodes' & Hsp & Hsh & Hload);
    [lia|done|].
  set (L' := before (sl_nodes sl) key L ++ length (sl_nodes sl) :: from (sl_nodes sl) key L).
  set (mh := if (max_height_ sl <? h)%nat then h else max_height_ sl).
  exists (mkSkipList nodes' mh rnd (u64 (memory_usage_ sl + usage h))), L'.
  assert (Hshape : forall p, p ∈ head_ :: L -> shape_at nodes' p = shape_at (sl_nodes sl) p).
  { intros p Hp. rewrite (shape_at_eq _ _ p Hsh), shape_at_app; [done|]. by apply (inv_addr sl L Hinv). }
  assert (Hshape_new : shape_at nodes' (length (sl_nodes sl)) = shape n)
    by (rewrite (shape_at_eq _ _ _ Hsh); apply shape_at_new).
  assert (length nodes' = S (length (sl_nodes sl))) as Hlen'.
  { apply (f_equal length) in Hsh. rewrite !length_fmap, length_app in Hsh. simpl in Hsh. lia. }
  pose proof (inv_max_height _ _ Hinv) as Hmax. split_and!.
  - unfold raised in Hsp. subst mh. destruct (max_height_ sl <? h)%nat; by rewrite Hsp.
  - split; cbn [sl_nodes max_height_].
    + unfold height_of. rewrite Hshape by (by left). apply Hinv.
    + rewrite Hlen'. by apply insert_perm.
    + apply (insert_sorted sl L key Hinv Hfresh).
      * intros p Hp. unfold key_of. by rewrite Hshape by (by right).
      * unfold key_of. by rewrite Hshape_new.
    + intros i Hi. by eapply (insert_linked sl L key Hinv update Hlen Hupd h n); try lia.
    + intros p Hp. unfold height_of. assert (p = length (sl_nodes sl) \/ p ∈ L) as [->|Hp'].
      { subst L'. rewrite (inv_split sl L key Hinv). set_solver. }
      * rewrite Hshape_new. unfold shape; cbn [snd]. rewrite Hn. subst mh. destruct (Nat.ltb_spec (max_height_ sl) h); lia.
      * rewrite Hshape by (by right). pose proof (inv_heights _ _ Hinv p Hp') as Hh.
        unfold height_of in Hh. subst mh. destruct (Nat.ltb_spec (max_height_ sl) h); lia.
    + subst mh. destruct (Nat.ltb_spec (max_height_ sl) h); lia.
  - cbn [sl_nodes]. unfold contents. subst L'. rewrite fmap_app, fmap_cons, <-Permutation_middle, <-fmap_app.
    rewrite <-(inv_split sl L key Hinv). apply perm_cons.
    + unfold key_of, value_of. by rewrite Hshape_new.
    + apply reflexive_eq, list_fmap_ext. intros i p Hp. unfold key_of, value_of.
      rewrite Hshape; [done|]. right. by eapply list_elem_of_lookup_2.
  - done.
  - cbn [sl_nodes]. rewrite Hsh, fmap_app. unfold shape at 2. simpl. by rewrite length_replicate.
Qed.

(** Overwriting the value of a node changes nothing the invariant looks at. *)
Lemma set_value_shape nodes p n v q :
  nodes !! p = Some n ->
  shape_at (set_value nodes p n v) q
  = if decide (q = p) then (node_key n, v, length (forward n)) else shape_at nodes q.
Proof.
  intros Hn. unfold shape_at, set_value. rewrite !list_lookup_fmap.
  destruct (decide (q = p)) as [->|].
  - by rewrite list_lookup_insert_eq by (by eapply lookup_lt_Some).
  - by rewrite list_lookup_insert_ne.
Qed.

Lemma set_value_load nodes p n v q i :
  nodes !! p = Some n -> load_forward (set_value nodes p n v) q i = load_forward nodes q i.
Proof.
  intros Hn. unfold load_forward, set_value. destruct (decide (q = p)) as [->|].
  - by rewrite list_lookup_insert_eq, Hn by (by eapply lookup_lt_Some).
  - by rewrite list_lookup_insert_ne.
Qed.

Lemma set_value_inv sl L p n v mem :
  sl_inv sl L -> sl_nodes sl !! p = Some n ->
  sl_inv (mkSkipList (set_value (sl_nodes sl) p n v) (max_height_ sl) (rnd_ sl) mem) L.
Proof.
  intros Hinv Hn. set (nodes' := set_value (sl_nodes sl) p n v).
  assert (forall q, key_of nodes' q = key_of (sl_nodes sl) q) as Hk.
  { intros q. unfold key_of, nodes'. rewrite set_value_shape by done.
    destruct (decide (q = p)) as [->|]; [|done]. by rewrite (shape_at_lookup _ _ _ Hn). }
  assert (forall q, height_of nodes' q = height_of (sl_nodes sl) q) as Hh.
  { intros q. unfold height_of, nodes'. rewrite set_value_shape by done.
    destruct (decide (q = p)) as [->|]; [|done]. by rewrite (shape_at_lookup _ _ _ Hn). }
  split; cbn [sl_nodes max_height_]; fold nodes'.
  - rewrite Hh. apply Hinv.
  - unfold nodes', set_value. rewrite length_insert. apply Hinv.
  - rewrite (list_fmap_ext (key_of nodes') (key_of (sl_nodes sl)) L) by (intros; apply Hk).
    apply Hinv.
  - intros i Hi. unfold at_level.
    rewrite (filter_ext_in _ (fun q => (i < height_of (sl_nodes sl) q)%nat)) by (intros; by rewrite Hh).
    eapply linked_ext; [|by apply (inv_linked _ _ Hinv)]. intros q _. by apply set_value_load.
  - intros q Hq. rewrite Hh. by apply Hinv.
  - apply Hinv.
Qed.

Lemma contents_keys nodes L : (contents nodes L).*1 = key_of nodes <$> L.
Proof. unfold contents. rewrite <-list_fmap_compose. by apply list_fmap_ext. Qed.

Lemma inv_keys_NoDup sl L : sl_inv sl L -> NoDup (contents (sl_nodes sl) L).*1.
Proof. intros Hinv. rewrite contents_keys. eapply StronglySorted_NoDup, Hinv. apply _. Qed.

Lemma set_value_contents sl L p n v :
  sl_inv sl L -> p ∈ L -> sl_nodes sl !! p = Some n ->
  list_to_map (contents (set_value (sl_nodes sl) p n v) L)
  =@{gmap str SkipListValue} <[node_key n := v]> (list_to_map (contents (sl_nodes sl) L)).
Proof.
  intros Hinv Hp Hn.
  pose proof (set_value_inv sl L p n v 0 Hinv Hn) as Hinv'.
  apply list_elem_of_split in Hp as (A & B & HL).
  pose proof (inv_keys_NoDup _ _ Hinv) as Hnd. pose proof (inv_keys_NoDup _ _ Hinv') as Hnd'.
  pose proof (inv_NoDup sl L Hinv) as HndL. apply NoDup_cons in HndL as [_ HndL].
  cbn [sl_nodes] in Hnd'. rewrite HL in Hnd, Hnd', HndL. rewrite HL.
  assert (Hsame : forall q, q ≠ p -> shape_at (set_value (sl_nodes sl) p n v) q = shape_at (sl_nodes sl) q).
  { intros q Hq. by rewrite set_value_shape, decide_False by done. }
  assert (contents (set_value (sl_nodes sl) p n v) (A ++ p :: B)
          ≡ₚ (node_key n, v) :: contents (sl_nodes sl) (A ++ B)) as Hperm'.
  { unfold contents. rewrite fmap_app, fmap_cons, <-Permutation_middle, <-fmap_app.
    apply perm_cons.
    - unfold key_of, value_of. by rewrite set_value_shape, decide_True by done.
    - apply reflexive_eq, list_fmap_ext. intros i q Hq. unfold key_of, value_of.
      rewrite Hsame; [done|]. intros ->. apply list_elem_of_lookup_2 in Hq.
      apply NoDup_middle in HndL as [? _]. done. }
  assert (contents (sl_nodes sl) (A ++ p :: B)
          ≡ₚ (node_key n, node_value n) :: contents (sl_nodes sl) (A ++ B)) as Hperm.
  { unfold contents. rewrite fmap_app, fmap_cons, <-Permutation_middle, <-fmap_app.
    apply perm_cons; [|done]. unfold key_of, value_of. by rewrite (shape_at_lookup _ _ _ Hn). }
  rewrite (list_to_map_proper _ _ Hnd' Hperm'), (list_to_map_proper _ _ Hnd Hperm).
  rewrite !list_to_map_cons. by rewrite insert_insert_eq.
Qed.

(** ** What a search finds *)

Lemma search_cases sl L key :
  sl_inv sl L ->
  (exists p n, head (from (sl_nodes sl) key L) = Some p /\ sl_nodes sl !! p = Some n /\
     p ∈ L /\ node_key n = key) \/
  ((forall q, q ∈ L -> key_of (sl_nodes sl) q ≠ key) /\
   forall p, head (from (sl_nodes sl) key L) = Some p ->
     exists n, sl_nodes sl !! p = Some n /\ node_key n ≠ key).
Proof.
  intros Hinv. pose proof (inv_sorted _ _ Hinv) as Hs.
  pose proof (inv_split sl L key Hinv) as HL. rewrite HL, fmap_app in Hs.
  apply StronglySorted_app_1_r in Hs.
  assert (Hb : forall q, q ∈ L -> q ∉ from (sl_nodes sl) key L -> key_of (sl_nodes sl) q ≠ key).
  { intros q Hq Hnf E. apply Hnf, in_from. split; [|done]. rewrite E. apply str_lt_irrefl. }
  destruct (from (sl_nodes sl) key L) as [|p R] eqn:EF; simpl.
  { right. split; [|done]. intros q Hq. apply Hb; set_solver. }
  destruct (head_from_valid sl L key Hinv p) as [Hp [n Hn]]; [by rewrite EF|].
  assert (key_of (sl_nodes sl) p = node_key n) as Hk
    by (unfold key_of; by rewrite (shape_at_lookup _ _ _ Hn)).
  destruct (decide (node_key n = key)) as [E|E]; [left; eauto 10|].
  right. split; [|intros p' [= <-]; eauto]. intros q Hq.
  destruct (decide (q ∈ p :: R)) as [Hin|]; [|by apply Hb].
  apply elem_of_cons in Hin as [->|Hin]; [congruence|].
  rewrite fmap_cons in Hs. apply StronglySorted_inv in Hs as [_ Hall].
  rewrite Forall_fmap, Forall_forall in Hall. specialize (Hall q Hin). simpl in Hall.
  assert (~ str_lt (key_of (sl_nodes sl) p) key) as Hge.
  { assert (p ∈ from (sl_nodes sl) key L) as Hpf by (rewrite EF; by left).
    by apply in_from in Hpf as [? _]. }
  intros Heq. rewrite Heq in Hall. by apply Hge.
Qed.

(** The outcome of the common prefix of [Put], [Delete] and [Get]. *)
Lemma search_spec sl L key :
  sl_inv sl L ->
  exists update, descend (max_height_ sl) (sl_nodes sl) head_ (replicate kMaxHeight None) key
      = Some (pred_at (sl_nodes sl) key L 0, update) /\
    length update = kMaxHeight /\
    (forall i, (i < max_height_ sl)%nat ->
       update !! i = Some (Some (pred_at (sl_nodes sl) key L i))) /\
    descend_get (max_height_ sl) (sl_nodes sl) head_ key = Some (pred_at (sl_nodes sl) key L 0) /\
    load_forward (sl_nodes sl) (pred_at (sl_nodes sl) key L 0) 0
      = Some (head (from (sl_nodes sl) key L)).
Proof.
  intros Hinv. pose proof (inv_max_height _ _ Hinv) as Hmax.
  destruct (descend_spec sl L key Hinv (max_height_ sl) head_ (replicate kMaxHeight None))
    as (update & Hd & Hlen & Hupd).
  { lia. } { by rewrite length_replicate. } { intros; by left. }
  exists update. rewrite Hd, decide_False by lia. split_and!; try done.
  - intros i Hi. rewrite Hupd. by rewrite decide_True.
  - rewrite (descend_get_spec sl L key Hinv) by (try lia; intros; by left).
    by rewrite decide_False by lia.
  - by apply load_pred_0.
Qed.

Lemma repr_lookup_found sl L p n :
  sl_inv sl L -> p ∈ L -> sl_nodes sl !! p = Some n ->
  (list_to_map (contents (sl_nodes sl) L) : gmap str SkipListValue) !! node_key n
  = Some (node_value n).
Proof.
  intros Hinv Hp Hn. apply elem_of_list_to_map_1; [by apply inv_keys_NoDup|].
  apply list_elem_of_fmap. exists p. split; [|done].
  unfold key_of, value_of. by rewrite (shape_at_lookup _ _ _ Hn).
Qed.

Lemma repr_lookup_fresh sl L key :
  (forall q, q ∈ L -> key_of (sl_nodes sl) q ≠ key) ->
  (list_to_map (contents (sl_nodes sl) L) : gmap str SkipListValue) !! key = None.
Proof.
  intros Hf. apply not_elem_of_list_to_map_1. rewrite contents_keys.
  intros (q & Hk & Hq)%list_elem_of_fmap. by apply (Hf q Hq).
Qed.

Lemma insert_node_repr sl L key v usage update :
  sl_inv sl L -> (forall q, q ∈ L -> key_of (sl_nodes sl) q ≠ key) ->
  length update = kMaxHeight ->
  (forall i, (i < max_height_ sl)%nat ->
     update !! i = Some (Some (pred_at (sl_nodes sl) key L i))) ->
  exists sl', insert_node sl update key v usage = Some sl' /\
    sl_repr sl' (<[key := v]> (list_to_map (contents (sl_nodes sl) L))).
Proof.
  intros Hinv Hf Hlen Hupd.
  destruct (insert_node_spec sl L key v usage update Hinv Hf Hlen Hupd)
    as (sl' & L' & Heq & Hinv' & Hperm & _). exists sl'. split; [done|]. exists L'. split; [done|].
  rewrite (list_to_map_proper _ _ (inv_keys_NoDup _ _ Hinv') Hperm). by rewrite list_to_map_cons.
Qed.

(** * Refinement of a finite map *)

Definition live (v : bytes) : SkipListValue := mkSkipListValue false v.
Definition tombstone : SkipListValue := mkSkipListValue true [].

(** A tombstone's data is empty: what [Delete] leaves and the flush relies on. *)
Definition tombstones_empty (m : gmap str SkipListValue) : Prop :=
  map_Forall (fun _ v => is_tombstone v = true -> data v = []) m.

Section refinement.
Context {abi : Abi}.

Lemma new_inv : sl_inv SkipList_new [].
Proof.
  split.
  - reflexivity.
  - done.
  - constructor.
  - intros i Hi. change (replicate kMaxHeight (@None nat) !! i = Some None).
    by apply lookup_replicate.
  - intros p Hp. by apply elem_of_nil in Hp.
  - unfold kMaxHeight. simpl. lia.
Qed.

Lemma new_repr : sl_repr SkipList_new ∅.
Proof. exists []. split; [apply new_inv|done]. Qed.

Lemma put_repr sl m key value :
  sl_repr sl m ->
  exists sl', SkipList_Put sl key value = Some sl' /\ sl_repr sl' (<[key := live value]> m).
Proof.
  intros (L & Hinv & ->). unfold SkipList_Put.
  destruct (search_spec sl L key Hinv) as (update & -> & Hlen & Hupd & _ & ->).
  destruct (search_cases sl L key Hinv) as [(p & n & -> & Hn & Hp & Hk)|[Hf Hne]].
  - simpl. rewrite Hn, Hk, str_eqb_refl. eexists. split; [done|].
    exists L. split; [by apply set_value_inv|]. cbn [sl_nodes]. rewrite <-Hk.
    by rewrite set_value_contents.
  - destruct (head _) as [p|]; simpl; [|by apply insert_node_repr].
    destruct (Hne p eq_refl) as (n & -> & Hk).
    rewrite (proj2 (str_eqb_ne _ _) Hk). by apply insert_node_repr.
Qed.

Lemma delete_repr sl m key :
  sl_repr sl m -> tombstones_empty m ->
  exists sl', SkipList_Delete sl key = Some sl' /\ sl_repr sl' (<[key := tombstone]> m).
Proof.
  intros (L & Hinv & ->) Htomb. unfold SkipList_Delete.
  destruct (search_spec sl L key Hinv) as (update & -> & Hlen & Hupd & _ & ->).
  destruct (search_cases sl L key Hinv) as [(p & n & -> & Hn & Hp & Hk)|[Hf Hne]].
  - simpl. rewrite Hn, Hk, str_eqb_refl.
    pose proof (repr_lookup_found sl L p n Hinv Hp Hn) as Hlook. rewrite Hk in Hlook.
    destruct (is_tombstone (node_value n)) eqn:Et.
    + eexists. split; [done|]. exists L. split; [done|].
      rewrite insert_id; [done|]. rewrite Hlook. f_equal.
      specialize (Htomb _ _ Hlook Et). destruct (node_value n). simpl in *. by subst.
    + eexists. split; [done|]. exists L. split; [by apply set_value_inv|]. cbn [sl_nodes].
      rewrite <-Hk. by rewrite set_value_contents.
  - destruct (head _) as [p|]; simpl; [|by apply insert_node_repr].
    destruct (Hne p eq_refl) as (n & -> & Hk).
    rewrite (proj2 (str_eqb_ne _ _) Hk). by apply insert_node_repr.
Qed.

Lemma get_repr sl m key : sl_repr sl m -> SkipList_Get sl key = Some (m !! key).
Proof.
  intros (L & Hinv & ->). unfold SkipList_Get.
  destruct (search_spec sl L key Hinv) as (_ & _ & _ & _ & -> & ->).
  destruct (search_cases sl L key Hinv) as [(p & n & -> & Hn & Hp & Hk)|[Hf Hne]].
  - simpl. rewrite Hn, Hk, str_eqb_refl. f_equal. rewrite <-Hk. symmetry.
    by eapply repr_lookup_found.
  - rewrite repr_lookup_fresh by done.
    destruct (head _) as [p|]; simpl; [|done].
    destruct (Hne p eq_refl) as (n & -> & Hk). by rewrite (proj2 (str_eqb_ne _ _) Hk).
Qed.

Lemma linked_head nx c rest : linked nx c rest -> nx c = Some (head rest).
Proof. destruct rest; simpl; tauto. Qed.

Lemma iterate_spec nodes rest : forall c fuel,
  linked (fun p => load_forward nodes p 0) c rest ->
  (forall p, p ∈ rest -> (0 < height_of nodes p)%nat) ->
  (length rest <= fuel)%nat ->
  iterate fuel nodes (head rest) = Some (contents nodes rest).
Proof.
  induction rest as [|p rest IH]; intros c fuel Hl Hv Hf; [by destruct fuel|].
  simpl in Hl. destruct Hl as [_ Hl]. destruct fuel as [|fuel]; [simpl in Hf; lia|].
  destruct (height_of_valid nodes p) as [n Hn]; [apply Hv; by left|]. simpl. rewrite Hn.
  unfold Iterator_Next. rewrite (linked_head _ _ _ Hl).
  rewrite (IH p fuel Hl); [|intros; apply Hv; by right|simpl in Hf; lia].
  unfold key_of, value_of. by rewrite (shape_at_lookup _ _ _ Hn).
Qed.

Lemma inv_linked_0 sl L :
  sl_inv sl L -> linked (fun p => load_forward (sl_nodes sl) p 0) head_ L.
Proof.
  intros Hinv. pose proof (inv_linked _ _ Hinv 0%nat) as Hl.
  rewrite (at_level_0 sl L Hinv L) in Hl by done. apply Hl. unfold kMaxHeight. lia.
Qed.

(** The iterator lists the map in increasing key order. *)
Lemma entries_repr sl m :
  sl_repr sl m ->
  exists es, SkipList_entries sl = Some es /\ StronglySorted str_lt es.*1 /\
    m = list_to_map es.
Proof.
  intros (L & Hinv & ->). exists (contents (sl_nodes sl) L).
  pose proof (inv_linked_0 sl L Hinv) as Hl. split_and!; [|rewrite contents_keys; apply Hinv|done].
  unfold SkipList_entries, Begin. rewrite (linked_head _ _ _ Hl).
  apply (iterate_spec _ _ head_); [done| |].
  - intros p Hp. by apply (inv_height_pos sl L Hinv).
  - rewrite (inv_length sl L Hinv). lia.
Qed.

Lemma is_empty_repr sl m :
  sl_repr sl m -> SkipList_IsEmpty sl = Some (bool_decide (m = ∅)).
Proof.
  intros (L & Hinv & ->). unfold SkipList_IsEmpty.
  rewrite (linked_head _ _ _ (inv_linked_0 sl L Hinv)).
  destruct L as [|p L]; [done|]. cbn [head hd_error]. f_equal. symmetry. apply bool_decide_eq_false.
  intros E. apply (f_equal (lookup (key_of (sl_nodes sl) p))) in E.
  unfold contents in E. by rewrite fmap_cons, list_to_map_cons, lookup_insert_eq in E.
Qed.

Lemma destroy_spec nodes rest : forall c fuel,
  linked (fun p => load_forward nodes p 0) c rest -> (length rest < fuel)%nat ->
  SkipList_destroy_loop fuel nodes (Some c) = Some (c :: rest).
Proof.
  induction rest as [|p rest IH]; intros c fuel Hl Hf;
    (destruct fuel as [|fuel]; [simpl in Hf; lia|]); simpl in *.
  - rewrite Hl. by destruct fuel.
  - destruct Hl as [-> Hl]. rewrite (IH p fuel Hl) by lia. done.
Qed.

Lemma tombstones_empty_insert m key v :
  tombstones_empty m -> (is_tombstone v = true -> data v = []) ->
  tombstones_empty (<[key := v]> m).
Proof. intros Hm Hv. by apply map_Forall_insert_2. Qed.
End refinement.

(** ** Memory accounting *)

Section accounting.
Context {abi : Abi}.

(** What a node with key, value and height [s] is charged. *)
Definition node_cost (s : str * SkipListValue * nat) : Z :=
  sizeof_SkipListNode + size_of s.1.1 + size_of (data s.1.2) + Z.of_nat s.2 * sizeof_ptr.

Definition footprint (nodes : list SkipListNode) : Z :=
  sizeof_SkipList + zsum (node_cost <$> (shape <$> nodes)).

Definition accounted (sl : SkipList) : Prop :=
  memory_usage_ sl = u64 (footprint (sl_nodes sl)).

Lemma insert_node_accounted sl L key v usage update sl' :
  sl_inv sl L -> (forall q, q ∈ L -> key_of (sl_nodes sl) q ≠ key) ->
  length update = kMaxHeight ->
  (forall i, (i < max_height_ sl)%nat ->
     update !! i = Some (Some (pred_at (sl_nodes sl) key L i))) ->
  (forall h, usage h = node_cost (key, v, h)) ->
  accounted sl -> insert_node sl update key v usage = Some sl' -> accounted sl'.
Proof.
  intros Hinv Hf Hlen Hupd Husage Hacc Heq.
  destruct (insert_node_spec sl L key v usage update Hinv Hf Hlen Hupd)
    as (sl'' & L' & Heq' & _ & _ & Hmem & Hsh). simplify_eq.
  unfold accounted, footprint. rewrite Hmem, Hsh, Hacc, fmap_app, zsum_app, u64_add_l.
  rewrite Husage. f_equal. unfold footprint, zsum. simpl. lia.
Qed.

Lemma set_value_footprint nodes p n v :
  nodes !! p = Some n ->
  footprint (set_value nodes p n v)
  = footprint nodes - size_of (data (node_value n)) + size_of (data v).
Proof.
  intros Hn. unfold footprint, set_value. rewrite !list_fmap_insert.
  rewrite (zsum_insert _ _ (node_cost (shape n))) by (by rewrite !list_lookup_fmap, Hn).
  unfold node_cost, shape; simpl. lia.
Qed.

Lemma put_accounted sl m key value sl' :
  sl_repr sl m -> accounted sl -> SkipList_Put sl key value = Some sl' -> accounted sl'.
Proof.
  intros (L & Hinv & ->) Hacc. unfold SkipList_Put.
  destruct (search_spec sl L key Hinv) as (update & -> & Hlen & Hupd & _ & ->).
  destruct (search_cases sl L key Hinv) as [(p & n & -> & Hn & Hp & Hk)|[Hf Hne]].
  - simpl. rewrite Hn, Hk, str_eqb_refl. intros [= <-]. unfold accounted; cbn [memory_usage_ sl_nodes].
    rewrite set_value_footprint by done. rewrite Hacc, u64_sub_l, u64_add_l. done.
  - destruct (head _) as [p|]; simpl; [destruct (Hne p eq_refl) as (n & -> & Hk);
      rewrite (proj2 (str_eqb_ne _ _) Hk)|]; by eapply insert_node_accounted.
Qed.

Lemma delete_accounted sl m key sl' :
  sl_repr sl m -> accounted sl -> SkipList_Delete sl key = Some sl' -> accounted sl'.
Proof.
  intros (L & Hinv & ->) Hacc. unfold SkipList_Delete.
  destruct (search_spec sl L key Hinv) as (update & -> & Hlen & Hupd & _ & ->).
  assert (forall h, sizeof_SkipListNode + size_of key + Z.of_nat h * sizeof_ptr
                    = node_cost (key, tombstone, h)) as Hcost
    by (intros h; unfold node_cost, size_of, tombstone; simpl; lia).
  destruct (search_cases sl L key Hinv) as [(p & n & -> & Hn & Hp & Hk)|[Hf Hne]].
  - simpl. rewrite Hn, Hk, str_eqb_refl.
    destruct (is_tombstone (node_value n)); intros [= <-]; [done|].
    unfold accounted; cbn [memory_usage_ sl_nodes].
    rewrite set_value_footprint by done. rewrite Hacc, u64_sub_l. f_equal.
    unfold size_of; simpl. lia.
  - destruct (head _) as [p|]; simpl; [destruct (Hne p eq_refl) as (n & -> & Hk);
      rewrite (proj2 (str_eqb_ne _ _) Hk)|]; by eapply insert_node_accounted.
Qed.
End accounting.

(** * Properties of every list the program can build *)

Inductive sl_op : Set := OpPut (key : str) (value : bytes) | OpDelete (key : str).

Definition sl_step {abi : Abi} (sl : SkipList) (op : sl_op) : option SkipList :=
  match op with
  | OpPut key value => SkipList_Put sl key value
  | OpDelete key => SkipList_Delete sl key
  end.

Fixpoint sl_run {abi : Abi} (sl : SkipList) (ops : list sl_op) : option SkipList :=
  match ops with
  | [] => Some sl
  | op :: ops' => match sl_step sl op with Some sl' => sl_run sl' ops' | None => None end
  end.

(** The abstract effect of an operation. *)
Definition map_step (m : gmap str SkipListValue) (op : sl_op) : gmap str SkipListValue :=
  match op with
  | OpPut key value => <[key := live value]> m
  | OpDelete key => <[key := tombstone]> m
  end.

Section runs.
Context {abi : Abi}.

Lemma sl_step_ok sl m op :
  sl_repr sl m -> tombstones_empty m -> accounted sl ->
  exists sl', sl_step sl op = Some sl' /\ sl_repr sl' (map_step m op) /\
    tombstones_empty (map_step m op) /\ accounted sl'.
Proof.
  intros Hr Ht Ha. destruct op as [key value|key]; simpl.
  - destruct (put_repr sl m key value Hr) as (sl' & Hp & Hr'). exists sl'. split_and!; try done.
    + apply tombstones_empty_insert; [done|]. simpl. discriminate.
    + by apply (put_accounted sl m key value).
  - destruct (delete_repr sl m key Hr Ht) as (sl' & Hp & Hr'). exists sl'. split_and!; try done.
    + by apply tombstones_empty_insert.
    + by apply (delete_accounted sl m key).
Qed.

Lemma sl_run_ok ops : forall sl m,
  sl_repr sl m -> tombstones_empty m -> accounted sl ->
  exists sl', sl_run sl ops = Some sl' /\ sl_repr sl' (foldl map_step m ops) /\
    tombstones_empty (foldl map_step m ops) /\ accounted sl'.
Proof.
  induction ops as [|op ops IH]; intros sl m Hr Ht Ha; simpl; [by exists sl|].
  destruct (sl_step_ok sl m op Hr Ht Ha) as (sl' & -> & ? & ? & ?). by apply IH.
Qed.

Lemma new_accounted : accounted SkipList_new.
Proof.
  unfold accounted, footprint, SkipList_new, zsum, node_cost, size_of.
  cbn [sl_nodes memory_usage_ fmap list_fmap shape foldr fst snd node_key node_value forward].
  rewrite length_replicate. cbn [null_value data length]. f_equal. lia.
Qed.

Lemma sl_run_new ops :
  exists sl, sl_run SkipList_new ops = Some sl /\ sl_repr sl (foldl map_step ∅ ops) /\
    tombstones_empty (foldl map_step ∅ ops) /\ accounted sl.
Proof. apply sl_run_ok; [apply new_repr|apply map_Forall_empty|apply new_accounted]. Qed.
End runs.

(** C21. Memory safety and functional correctness of the skip list: from the
    constructor, any sequence of [Put] and [Delete] runs without an invalid
    access and leaves every search loop; afterwards [Get] answers exactly like
    the finite map the operations describe (tombstones included), and the
    iterator yields that map's bindings, each key once, in increasing order. *)
Theorem skiplist_refines_map {abi : Abi} (ops : list sl_op) :
  exists sl es, sl_run SkipList_new ops = Some sl /\
    (forall key, SkipList_Get sl key = Some (foldl map_step ∅ ops !! key)) /\
    SkipList_IsEmpty sl = Some (bool_decide (foldl map_step ∅ ops = ∅)) /\
    SkipList_entries sl = Some es /\ StronglySorted str_lt es.*1 /\
    foldl map_step ∅ ops = list_to_map es.
Proof.
  destruct (sl_run_new ops) as (sl & Hrun & Hr & _ & _).
  destruct (entries_repr sl _ Hr) as (es & He & Hs & Hm).
  exists sl, es. split_and!; try done.
  - intros key. by apply get_repr.
  - by apply is_empty_repr.
Qed.

(** The memory usage reported after any sequence of operations is, modulo
    2^64, the size of the list header plus, for the head and every node, the
    node itself, its key, its current data and its forward pointers. *)
Theorem skiplist_memory_usage {abi : Abi} (ops : list sl_op) :
  exists sl, sl_run SkipList_new ops = Some sl /\
    SkipList_ApproximateMemoryUsage sl = u64 (footprint (sl_nodes sl)).
Proof. destruct (sl_run_new ops) as (sl & Hrun & _ & _ & Ha). by exists sl. Qed.

(** The destructor deletes every node of the heap exactly once: nothing
    leaks, nothing is freed twice, and its loop ends. *)
Theorem skiplist_destroy_frees_all {abi : Abi} (ops : list sl_op) :
  exists sl freed, sl_run SkipList_new ops = Some sl /\
    SkipList_destroy sl = Some freed /\ freed ≡ₚ seq 0 (length (sl_nodes sl)).
Proof.
  destruct (sl_run_new ops) as (sl & Hrun & (L & Hinv & _) & _).
  exists sl, (head_ :: L). split_and!; [done| |apply Hinv].
  apply destroy_spec; [by apply inv_linked_0|]. rewrite (inv_length sl L Hinv). lia.
Qed.
