(* ===== verification/MemTable.v ===== *)
(** * [MemTable]: the in-memory write buffer

    Models src/src/storage/memtable/memtable.{h,cpp}: a thin wrapper around
    the skip list whose [Get] hides tombstones.  [mt_repr] relates it to a
    finite map from keys to values or tombstones; the clients (recovery,
    the engine, the SSTable writer) are proved against the lemmas here. *)

From S2P Require Import Prelude Mt19937 SkipList.

Record MemTable : Set := mkMemTable { table_ : SkipList }.

Section memtable.
Context {abi : Abi}.

Definition MemTable_new : MemTable := mkMemTable SkipList_new.

Definition MemTable_Put (mt : MemTable) (key : str) (value : bytes) : option MemTable :=
  match SkipList_Put (table_ mt) key value with
  | Some sl => Some (mkMemTable sl)
  | None => None
  end.

Definition MemTable_Delete (mt : MemTable) (key : str) : option MemTable :=
  match SkipList_Delete (table_ mt) key with
  | Some sl => Some (mkMemTable sl)
  | None => None
  end.

(** [std::optional]: [None] when the key is absent or deleted. *)
Definition MemTable_Get (mt : MemTable) (key : str) : option (option bytes) :=
  match SkipList_Get (table_ mt) key with
  | None => None
  | Some (Some val) => if is_tombstone val then Some None else Some (Some (data val))
  | Some None => Some None
  end.

Definition MemTable_ApproximateMemoryUsage (mt : MemTable) : Z :=
  SkipList_ApproximateMemoryUsage (table_ mt).

Definition MemTable_IsEmpty (mt : MemTable) : option bool := SkipList_IsEmpty (table_ mt).

(** Everything [Begin()] iterates over. *)
Definition MemTable_entries (mt : MemTable) : option (list (str * SkipListValue)) :=
  SkipList_entries (table_ mt).

(** ** The abstract state *)

Definition mt_repr (mt : MemTable) (m : gmap str SkipListValue) : Prop :=
  sl_repr (table_ mt) m /\ tombstones_empty m.

(** What a client sees of an entry. *)
Definition visible (v : SkipListValue) : option bytes :=
  if is_tombstone v then None else Some (data v).

Lemma mt_new_repr : mt_repr MemTable_new ∅.
Proof. split; [apply new_repr|apply map_Forall_empty]. Qed.

Lemma mt_put_repr mt m key value :
  mt_repr mt m ->
  exists mt', MemTable_Put mt key value = Some mt' /\ mt_repr mt' (<[key := live value]> m).
Proof.
  intros [Hr Ht]. unfold MemTable_Put.
  destruct (put_repr _ _ key value Hr) as (sl & -> & Hr'). eexists; split; [done|].
  split; [done|]. apply tombstones_empty_insert; [done|]. simpl. discriminate.
Qed.

Lemma mt_delete_repr mt m key :
  mt_repr mt m ->
  exists mt', MemTable_Delete mt key = Some mt' /\ mt_repr mt' (<[key := tombstone]> m).
Proof.
  intros [Hr Ht]. unfold MemTable_Delete.
  destruct (delete_repr _ _ key Hr Ht) as (sl & -> & Hr'). eexists; split; [done|].
  split; [done|]. by apply tombstones_empty_insert.
Qed.

Lemma mt_get_repr mt m key :
  mt_repr mt m -> MemTable_Get mt key = Some (m !! key ≫= visible).
Proof.
  intros [Hr _]. unfold MemTable_Get. rewrite (get_repr _ _ key Hr).
  destruct (m !! key) as [v|]; simpl; [|done]. unfold visible. by destruct (is_tombstone v).
Qed.

Lemma mt_entries_repr mt m :
  mt_repr mt m ->
  exists es, MemTable_entries mt = Some es /\ StronglySorted str_lt es.*1 /\ m = list_to_map es.
Proof. intros [Hr _]. by apply entries_repr. Qed.

Lemma mt_is_empty_repr mt m :
  mt_repr mt m -> MemTable_IsEmpty mt = Some (bool_decide (m = ∅)).
Proof. intros [Hr _]. by apply is_empty_repr. Qed.
End memtable.

#[export] Hint Resolve mt_new_repr : vdb.
