(* ===== verification/FileSystem.v ===== *)
(** * Files and streams

    The part of the C++ standard library the storage engine does its I/O
    with: [std::filesystem] ([exists], [remove], [file_size]), [std::ifstream],
    [std::ofstream] in binary mode, and [std::rename].  Files map a path to
    its contents; directories are not represented.  Every call that can fail
    consumes one element of [faults], the environment's choice: it succeeds,
    or it fails after [n] bytes of the data it had in hand reached the file.
    An exhausted list means no further fault.

    The overloads of [std::filesystem] that the code uses take no
    [std::error_code]: a failure is an exception.  [try_exists],
    [try_file_size], [try_remove] and [try_create_directories] are these calls,
    with an [Outcome] that says whether the call returned.  The compaction run
    is modelled with them; [fs_exists], [fs_file_size] and [fs_remove] are the
    same calls where they do not fail.

    An [ofstream] is buffered: [write] appends to the buffer and [flush]
    passes the buffer to the file; a failure makes the stream not [good], and
    a stream that is not good ignores further output. *)

From S2P Require Import Prelude.

Inductive fault : Set := NoFault | Fault (n : nat).

Record World : Set := mkWorld { files : gmap str bytes; faults : list fault }.

(** The outcome of the next fallible call. *)
Definition next_fault (w : World) : fault * World :=
  match faults w with
  | [] => (NoFault, w)
  | f :: fs => (f, mkWorld (files w) fs)
  end.

(** How a call ends: it returns, or an exception leaves it. *)
Inductive Outcome (A : Type) : Type := Ret (a : A) | Throw.
Arguments Ret {A} a.
Arguments Throw {A}.

(** [std::filesystem::exists] *)
Definition fs_exists (w : World) (path : str) : bool :=
  match files w !! path with Some _ => true | None => false end.

(** [std::filesystem::remove] *)
Definition fs_remove (w : World) (path : str) : World :=
  mkWorld (delete path (files w)) (faults w).

(** [std::filesystem::file_size] of an existing file. *)
Definition fs_file_size (w : World) (path : str) : option Z :=
  match files w !! path with Some c => Some (Z.of_nat (length c)) | None => None end.

(** A call that throws [std::filesystem::filesystem_error] when it fails. *)
Definition or_throw {A : Type} (w : World) (call : World -> Outcome A * World) : Outcome A * World :=
  let '(f, w) := next_fault w in
  match f with
  | NoFault => call w
  | Fault _ => (Throw, w)
  end.

Definition try_exists (w : World) (path : str) : Outcome bool * World :=
  or_throw w (fun w => (Ret (fs_exists w path), w)).

(** [file_size] of a file that is not there throws as well. *)
Definition try_file_size (w : World) (path : str) : Outcome Z * World :=
  or_throw w (fun w => (match fs_file_size w path with Some size => Ret size | None => Throw end, w)).

(** [true] when there was a file to remove. *)
Definition try_remove (w : World) (path : str) : Outcome bool * World :=
  or_throw w (fun w => (Ret (fs_exists w path), fs_remove w path)).

(** [create_directories] of the directory of a file; directories are not
    represented, so that only its failure shows. *)
Definition try_create_directories (w : World) : Outcome () * World := or_throw w (fun w => (Ret (), w)).

(** Opening an [std::ifstream]: the contents when [is_open()]. *)
Definition ifs_open (w : World) (path : str) : option bytes * World :=
  let '(f, w) := next_fault w in
  match f with
  | NoFault => (files w !! path, w)
  | Fault _ => (None, w)
  end.

(** [read] of the whole contents of an open file: [None] when it fails. *)
Definition ifs_read (w : World) (contents : bytes) : option bytes * World :=
  let '(f, w) := next_fault w in
  match f with
  | NoFault => (Some contents, w)
  | Fault _ => (None, w)
  end.

(** [seekg(offset)] followed by [read] of [len] bytes on an open stream whose
    state is [good]: the bytes obtained ([gcount()] of them), the state
    afterwards, and the world.  A failed stream, or an offset that does not
    fit [std::streamoff], gives nothing; a short read clears [good]. *)
Definition ifs_read_at (w : World) (contents : bytes) (good : bool) (offset len : Z) : bytes * bool * World :=
  if negb good || (2 ^ 63 <=? offset) then ([], false, w)
  else
    let got := take (Z.to_nat (Z.min len (Z.of_nat (length contents))))
                 (drop (Z.to_nat (Z.min offset (Z.of_nat (length contents)))) contents) in
    let '(f, w) := next_fault w in
    let got := match f with NoFault => got | Fault n => take n got end in
    (got, Z.of_nat (length got) =? len, w).

Record ofstream : Set := mkOfs { os_path : str; os_good : bool; os_buf : bytes }.

Definition append_file (w : World) (path : str) (bs : bytes) : World :=
  mkWorld (<[path := default [] (files w !! path) ++ bs]> (files w)) (faults w).

#[global] Arguments append_file : simpl never.

(** [std::ofstream(path, binary | app)]: creates the file when missing. *)
Definition ofs_open_app (w : World) (path : str) : option ofstream * World :=
  let '(f, w) := next_fault w in
  match f with
  | NoFault => (Some (mkOfs path true []), append_file w path [])
  | Fault _ => (None, w)
  end.

(** [std::ofstream(path, binary | trunc)] *)
Definition ofs_open_trunc (w : World) (path : str) : option ofstream * World :=
  let '(f, w) := next_fault w in
  match f with
  | NoFault => (Some (mkOfs path true []), mkWorld (<[path := []]> (files w)) (faults w))
  | Fault _ => (None, w)
  end.

Definition ofs_write (w : World) (os : ofstream) (bs : bytes) : ofstream * World :=
  if os_good os then
    let '(f, w) := next_fault w in
    match f with
    | NoFault => (mkOfs (os_path os) true (os_buf os ++ bs), w)
    | Fault n => (mkOfs (os_path os) false [], append_file w (os_path os) (take n (os_buf os ++ bs)))
    end
  else (os, w).

Definition ofs_flush (w : World) (os : ofstream) : ofstream * World :=
  if os_good os then
    let '(f, w) := next_fault w in
    match f with
    | NoFault => (mkOfs (os_path os) true [], append_file w (os_path os) (os_buf os))
    | Fault n => (mkOfs (os_path os) false [], append_file w (os_path os) (take n (os_buf os)))
    end
  else (os, w).

(** [std::rename]: atomic; [true] when it returns 0. *)
Definition fs_rename (w : World) (old_path new_path : str) : bool * World :=
  let '(f, w) := next_fault w in
  match f, files w !! old_path with
  | NoFault, Some c =>
      (true, mkWorld (<[new_path := c]> (delete old_path (files w))) (faults w))
  | _, _ => (false, w)
  end.

(** A world in which nothing fails. *)
Definition healthy (w : World) : Prop := faults w = [].

Lemma next_fault_healthy w : healthy w -> next_fault w = (NoFault, w).
Proof. unfold healthy, next_fault. by intros ->. Qed.

Lemma next_fault_files w f w' : next_fault w = (f, w') -> files w' = files w.
Proof. unfold next_fault. destruct (faults w); by intros [= <- <-]. Qed.

Lemma or_throw_healthy {A} w (call : World -> Outcome A * World) : healthy w -> or_throw w call = call w.
Proof. intros H. unfold or_throw. by rewrite next_fault_healthy. Qed.

(** Either the call was made, or it threw and changed no file. *)
Lemma or_throw_cases {A} w (call : World -> Outcome A * World) :
  exists w1, files w1 = files w /\ (or_throw w call = (Throw, w1) \/ or_throw w call = call w1).
Proof.
  unfold or_throw. destruct (next_fault w) as [f w1] eqn:E. exists w1. split; [by eapply next_fault_files|].
  destruct f; auto.
Qed.

Lemma append_file_lookup w path bs :
  files (append_file w path bs) !! path = Some (default [] (files w !! path) ++ bs).
Proof. apply lookup_insert_eq. Qed.

Lemma append_file_other w path bs p :
  p <> path -> files (append_file w path bs) !! p = files w !! p.
Proof. intros. by apply lookup_insert_ne. Qed.

Lemma append_file_healthy w path bs : healthy w -> healthy (append_file w path bs).
Proof. done. Qed.

#[export] Hint Resolve append_file_healthy : vdb.

(** Opening, writing and flushing without faults. *)
Lemma ofs_open_app_healthy w path :
  healthy w -> ofs_open_app w path = (Some (mkOfs path true []), append_file w path []).
Proof. intros H. unfold ofs_open_app. by rewrite next_fault_healthy. Qed.

Lemma ofs_write_healthy w path buf bs :
  healthy w -> ofs_write w (mkOfs path true buf) bs = (mkOfs path true (buf ++ bs), w).
Proof. intros H. unfold ofs_write. simpl. by rewrite next_fault_healthy. Qed.

Lemma ofs_flush_healthy w path buf :
  healthy w -> ofs_flush w (mkOfs path true buf) = (mkOfs path true [], append_file w path buf).
Proof. intros H. unfold ofs_flush. simpl. by rewrite next_fault_healthy. Qed.

Lemma ifs_open_healthy w path : healthy w -> ifs_open w path = (files w !! path, w).
Proof. intros H. unfold ifs_open. by rewrite next_fault_healthy. Qed.

Lemma ifs_read_healthy w c : healthy w -> ifs_read w c = (Some c, w).
Proof. intros H. unfold ifs_read. by rewrite next_fault_healthy. Qed.

Lemma ofs_open_trunc_healthy w path :
  healthy w ->
  ofs_open_trunc w path = (Some (mkOfs path true []), mkWorld (<[path := []]> (files w)) (faults w)).
Proof. intros H. unfold ofs_open_trunc. by rewrite next_fault_healthy. Qed.

(** A read inside the file. *)
Lemma ifs_read_at_healthy w pre mid post offset len :
  healthy w -> offset = Z.of_nat (length pre) -> len = Z.of_nat (length mid) -> offset < 2 ^ 63 ->
  ifs_read_at w (pre ++ mid ++ post) true offset len = (mid, true, w).
Proof.
  intros Hw -> -> Hlt. unfold ifs_read_at. rewrite (proj2 (Z.leb_gt _ _)) by lia. cbn [negb orb].
  rewrite next_fault_healthy by done. rewrite !Z.min_l by (rewrite !length_app; lia).
  by rewrite !Nat2Z.id, drop_app_length, take_app_length, Z.eqb_refl.
Qed.

(** Output only touches the stream's own file, whatever fails. *)
Lemma ofs_write_other w os bs os' w' p :
  ofs_write w os bs = (os', w') -> p <> os_path os ->
  files w' !! p = files w !! p /\ os_path os' = os_path os.
Proof.
  unfold ofs_write. destruct (os_good os); [|intros [= <- <-]; done].
  destruct (next_fault w) as [f w1] eqn:E. rewrite <-(next_fault_files _ _ _ E).
  destruct f; intros [= <- <-] Hp; [done|]. by rewrite append_file_other.
Qed.

Lemma ofs_flush_other w os os' w' p :
  ofs_flush w os = (os', w') -> p <> os_path os ->
  files w' !! p = files w !! p /\ os_path os' = os_path os.
Proof.
  unfold ofs_flush. destruct (os_good os); [|intros [= <- <-]; done].
  destruct (next_fault w) as [f w1] eqn:E. rewrite <-(next_fault_files _ _ _ E).
  destruct f; intros [= <- <-] Hp; by rewrite append_file_other.
Qed.
