(* ===== verification/Wal.v ===== *)
(** * [WAL]: the write-ahead log

    Models src/src/storage/wal/wal_entry.h and wal.{h,cpp}: the CRC-32 with
    its lookup table, the record format, [Open] (which scans an existing file
    for the highest sequence number), [Append], [ReadAll] and [Sync], over the
    files of FileSystem.v.  The scanning loops recurse on a fuel of one more
    than the length of the file; each iteration consumes a header, so the
    fuel is never exhausted ([ReadAll_total], [Open_scan_total]).

    The theorems: the table-driven CRC equals the bit-serial one and detects
    every change of a single byte; a record reads back as the entry it was
    made from; a log reads back as the entries appended to it, also when it
    ends in a torn record; sequence numbers continue across a reopen. *)

From S2P Require Import Prelude Status BinarySerializer FileSystem.

(** ** Entries *)

(** [enum class WALEntryType : uint8_t]: any byte can be read from a file. *)
Abbreviation WALEntryType := byte.
Definition kPut : WALEntryType := Byte.x01.
Definition kDelete : WALEntryType := Byte.x02.

Record WALEntry : Set := mkWALEntry {
  we_seq : Z;
  we_type : WALEntryType;
  we_key : str;
  we_value : bytes
}.

Definition kWALHeaderSize : nat := 8.

Definition PayloadSize (e : WALEntry) : nat :=
  let size := (1 + 8 + 4 + length (we_key e))%nat in
  if bool_decide (we_type e = kPut) then (size + (4 + length (we_value e)))%nat else size.

(** ** CRC-32 *)

(** One iteration of the inner loop of [InitCRC32Table]. *)
Definition crc_step (crc : Z) : Z :=
  Z.lxor (Z.shiftr crc 1) (if Z.land crc 1 =? 0 then 0 else 0xEDB88320).

Fixpoint crc_steps (n : nat) (crc : Z) : Z :=
  match n with O => crc | S n' => crc_steps n' (crc_step crc) end.

(** [InitCRC32Table]: the contents of [crc32_table]. *)
Definition InitCRC32Table : list Z := (fun i => crc_steps 8 (Z.of_nat i)) <$> seq 0 256.

Definition crc32_table : list Z := Eval vm_compute in InitCRC32Table.

Definition crc_update (crc : Z) (b : byte) : Z :=
  Z.lxor (Z.shiftr crc 8)
    (nth (Z.to_nat (Z.land (Z.lxor crc (Z_of_byte b)) 0xFF)) crc32_table 0).

Definition ComputeCRC32 (data : bytes) : Z :=
  Z.lxor (foldl crc_update 0xFFFFFFFF data) 0xFFFFFFFF.

(** ** Record format *)

Definition WriteRawBytes (buf data : bytes) : bytes := buf ++ data.

Definition SerializePayload (e : WALEntry) : bytes :=
  let payload := [we_type e] in
  let payload := WriteUint64 payload (we_seq e) in
  let payload := WriteUint32 payload (u32 (Z.of_nat (length (we_key e)))) in
  let payload := WriteRawBytes payload (we_key e) in
  if bool_decide (we_type e = kPut) then
    let payload := WriteUint32 payload (u32 (Z.of_nat (length (we_value e)))) in
    WriteRawBytes payload (we_value e)
  else payload.

Definition SerializeEntry (e : WALEntry) : bytes :=
  let payload := SerializePayload e in
  let payload_len := u32 (Z.of_nat (length payload)) in
  let crc := ComputeCRC32 payload in
  let record := WriteUint32 [] payload_len in
  let record := WriteUint32 record crc in
  record ++ payload.

Definition DeserializeEntry (payload : bytes) : ErrorOr WALEntry :=
  match payload with
  | [] => error kStorageCorruption (lit "WAL payload too small")
  | type :: _ =>
      if (length payload <? 13)%nat
      then error kStorageCorruption (lit "WAL payload too small")
      else
        let offset := 1%nat in
        let? (seq, offset) := ReadUint64 payload offset in
        let? (key_len, offset) := ReadUint32 payload offset in
        if (length payload <? offset + Z.to_nat key_len)%nat
        then error kStorageCorruption (lit "WAL key extends past payload")
        else
          let key := slice payload offset (Z.to_nat key_len) in
          let offset := (offset + Z.to_nat key_len)%nat in
          if bool_decide (type = kPut) then
            let? (val_len, offset) := ReadUint32 payload offset in
            if (length payload <? offset + Z.to_nat val_len)%nat
            then error kStorageCorruption (lit "WAL value extends past payload")
            else Val (mkWALEntry seq type key (slice payload offset (Z.to_nat val_len)))
          else Val (mkWALEntry seq type key [])
  end.

(** ** The log *)

Record WAL : Set := mkWAL {
  path_ : str;
  write_file_ : ofstream;
  next_sequence_number_ : Z
}.

(** One header and payload off the front of the reader: [None] where the loops
    [break] (short header, short payload). *)
Definition read_header (reader : bytes) : option (Z * Z * bytes) :=
  if (length reader <? kWALHeaderSize)%nat then None
  else
    let header_buf := take kWALHeaderSize reader in
    match ReadUint32 header_buf 0 with
    | Err _ => None
    | Val (payload_len, hdr_offset) =>
        match ReadUint32 header_buf hdr_offset with
        | Err _ => None
        | Val (expected_crc, _) => Some (payload_len, expected_crc, drop kWALHeaderSize reader)
        end
    end.

Definition read_payload (reader : bytes) (payload_len : Z) : option (bytes * bytes) :=
  if Z.of_nat (length reader) <? payload_len then None
  else Some (take (Z.to_nat payload_len) reader, drop (Z.to_nat payload_len) reader).

(** The scanning loop of [WAL::Open]. *)
Fixpoint Open_scan (fuel : nat) (reader : bytes) (next_seq : Z) : option Z :=
  match fuel with
  | O => None
  | S fuel' =>
      match read_header reader with
      | None => Some next_seq
      | Some (payload_len, expected_crc, reader) =>
          match read_payload reader payload_len with
          | None => Some next_seq
          | Some (payload, reader) =>
              if negb (ComputeCRC32 payload =? expected_crc) then Some next_seq
              else
                match DeserializeEntry payload with
                | Err _ => Some next_seq
                | Val entry =>
                    Open_scan fuel' reader
                      (if next_seq <=? we_seq entry then u64 (we_seq entry + 1) else next_seq)
                end
          end
      end
  end.

Definition max_payload : Z := 64 * 1024 * 1024.

(** The loop of [WAL::ReadAll]. *)
Fixpoint ReadAll_loop (fuel : nat) (reader : bytes) : option (list WALEntry) :=
  match fuel with
  | O => None
  | S fuel' =>
      match read_header reader with
      | None => Some []
      | Some (payload_len, expected_crc, reader) =>
          if max_payload <? payload_len then Some []
          else
            match read_payload reader payload_len with
            | None => Some []
            | Some (payload, reader) =>
                if negb (ComputeCRC32 payload =? expected_crc) then Some []
                else
                  match DeserializeEntry payload with
                  | Err _ => Some []
                  | Val entry =>
                      match ReadAll_loop fuel' reader with
                      | Some entries => Some (entry :: entries)
                      | None => None
                      end
                  end
            end
      end
  end.

(** The entries [ReadAll] finds in a file with these contents. *)
Definition parse_log (contents : bytes) : list WALEntry :=
  default [] (ReadAll_loop (S (length contents)) contents).

(** The next sequence number [Open] derives from these contents. *)
Definition scan_next_seq (contents : bytes) : Z :=
  default 1 (Open_scan (S (length contents)) contents 1).

Definition WAL_Open (w : World) (path : str) : ErrorOr WAL * World :=
  let '(scanned, w) :=
    if fs_exists w path then
      let '(reader, w) := ifs_open w path in
      match reader with
      | None => (error kStorageIoError (lit "Cannot open existing WAL: " ++ path), w)
      | Some contents => (Val (scan_next_seq contents), w)
      end
    else (Val 1, w) in
  match scanned with
  | Err s => (Err s, w)
  | Val next_seq =>
      let '(file, w) := ofs_open_app w path in
      match file with
      | None => (error kStorageIoError (lit "Cannot open WAL for writing: " ++ path), w)
      | Some file => (Val (mkWAL path file next_seq), w)
      end
  end.

Definition WAL_Append (w : World) (wal : WAL) (entry : WALEntry) : ErrorOr Z * WAL * World :=
  let seq := next_sequence_number_ wal in
  let stamped_entry := mkWALEntry seq (we_type entry) (we_key entry) (we_value entry) in
  let next := u64 (seq + 1) in
  let record := SerializeEntry stamped_entry in
  let '(file, w) := ofs_write w (write_file_ wal) record in
  if negb (os_good file)
  then (error kStorageIoError (lit "WAL write failed"), mkWAL (path_ wal) file next, w)
  else
    let '(file, w) := ofs_flush w file in
    (Val seq, mkWAL (path_ wal) file next, w).

Definition WAL_ReadAll (w : World) (wal : WAL) : ErrorOr (list WALEntry) * World :=
  let '(reader, w) := ifs_open w (path_ wal) in
  match reader with
  | None => (error kStorageIoError (lit "Cannot open WAL for reading: " ++ path_ wal), w)
  | Some contents => (Val (parse_log contents), w)
  end.

Definition WAL_Sync (w : World) (wal : WAL) : Status * WAL * World :=
  let '(file, w) := ofs_flush w (write_file_ wal) in
  let wal := mkWAL (path_ wal) file (next_sequence_number_ wal) in
  if negb (os_good file)
  then (mkStatus kStorageIoError (lit "WAL sync failed"), wal, w)
  else (StatusOk, wal, w).

Definition current_sequence_number (wal : WAL) : Z := u64 (next_sequence_number_ wal - 1).

Example crc32_check_value : ComputeCRC32 (lit "123456789") = 0xCBF43926.
Proof. vm_compute. reflexivity. Qed.

(** * CRC-32: lemmas *)

Definition crc_poly : Z := 0xEDB88320.

Lemma crc_step_odd z : crc_step z = Z.lxor (Z.shiftr z 1) (if Z.odd z then crc_poly else 0).
Proof.
  unfold crc_step. assert (Z.land z 1 = z mod 2) as -> by exact (Z.land_ones z 1 ltac:(lia)).
  rewrite Zmod_odd.
  by destruct (Z.odd z).
Qed.

Lemma odd_lxor a b : Z.odd (Z.lxor a b) = xorb (Z.odd a) (Z.odd b).
Proof. by rewrite <-!Z.bit0_odd, Z.lxor_spec. Qed.

(** The step is linear: the heart of the table method. *)
Lemma crc_step_lxor a b : crc_step (Z.lxor a b) = Z.lxor (crc_step a) (crc_step b).
Proof.
  rewrite !crc_step_odd, Z.shiftr_lxor, odd_lxor.
  apply Z.bits_inj'. intros i Hi. rewrite !Z.lxor_spec.
  destruct (Z.odd a), (Z.odd b); simpl; rewrite ?Z.bits_0;
    repeat match goal with |- context [Z.testbit ?x i] => destruct (Z.testbit x i) end; done.
Qed.

Lemma crc_steps_lxor n : forall a b, crc_steps n (Z.lxor a b) = Z.lxor (crc_steps n a) (crc_steps n b).
Proof. induction n as [|n IH]; intros; simpl; [done|]. by rewrite crc_step_lxor, IH. Qed.

Lemma crc_steps_shiftl n : forall x, crc_steps n (Z.shiftl x (Z.of_nat n)) = x.
Proof.
  induction n as [|n IH]; intros x; simpl crc_steps; [apply Z.shiftl_0_r|].
  rewrite crc_step_odd.
  assert (Z.shiftl x (Z.of_nat (S n)) = 2 * Z.shiftl x (Z.of_nat n)) as ->.
  { rewrite !Z.shiftl_mul_pow2 by lia. rewrite Nat2Z.inj_succ, Z.pow_succ_r by lia. lia. }
  rewrite Z.odd_mul. simpl. rewrite Z.lxor_0_r.
  assert (Z.shiftr (2 * Z.shiftl x (Z.of_nat n)) 1 = Z.shiftl x (Z.of_nat n)) as ->; [|apply IH].
  rewrite Z.shiftr_div_pow2 by lia. rewrite Z.mul_comm. by apply Z.div_mul.
Qed.

Lemma lxor_split z n :
  0 <= n -> z = Z.lxor (z mod 2 ^ n) (Z.shiftl (Z.shiftr z n) n).
Proof.
  intros Hn. apply Z.bits_inj'. intros i Hi. rewrite Z.lxor_spec, Z.shiftl_spec by done.
  destruct (decide (i < n)).
  - rewrite Z.mod_pow2_bits_low by lia. rewrite (Z.testbit_neg_r _ (i - n)) by lia. by rewrite xorb_false_r.
  - rewrite Z.mod_pow2_bits_high by lia. rewrite Z.shiftr_spec by lia.
    by replace (i - n + n) with i by lia.
Qed.

(** Eight steps on a word depend on its low byte through the table only. *)
Lemma crc_steps_8 z : crc_steps 8 z = Z.lxor (Z.shiftr z 8) (crc_steps 8 (z mod 256)).
Proof.
  rewrite (lxor_split z 8) at 1 by lia. rewrite crc_steps_lxor, Z.lxor_comm. f_equal.
  exact (crc_steps_shiftl 8 (Z.shiftr z 8)).
Qed.

Lemma crc32_table_eq : crc32_table = InitCRC32Table.
Proof. vm_compute. reflexivity. Qed.

Lemma crc32_table_nth i :
  0 <= i < 256 -> nth (Z.to_nat i) crc32_table 0 = crc_steps 8 i.
Proof.
  intros Hi. rewrite crc32_table_eq. unfold InitCRC32Table.
  assert ((fun i : nat => crc_steps 8 (Z.of_nat i)) <$> seq 0 256
          = map (fun i : nat => crc_steps 8 (Z.of_nat i)) (seq 0 256)) as -> by done.
  rewrite (nth_indep _ 0 (crc_steps 8 (Z.of_nat 0))) by (rewrite length_map, length_seq; lia).
  rewrite (map_nth (fun i : nat => crc_steps 8 (Z.of_nat i))), seq_nth by lia.
  f_equal. lia.
Qed.

Lemma crc_update_steps c b : crc_update c b = crc_steps 8 (Z.lxor c (Z_of_byte b)).
Proof.
  unfold crc_update. change 0xFF with (Z.ones 8). rewrite land_ones_mod by lia.
  rewrite crc32_table_nth by (apply Z.mod_pos_bound; lia).
  rewrite (crc_steps_8 (Z.lxor c (Z_of_byte b))). f_equal.
  rewrite Z.shiftr_lxor. pose proof (Z_of_byte_range b).
  rewrite (Z.shiftr_div_pow2 (Z_of_byte b)), (Z.div_small (Z_of_byte b)) by lia.
  by rewrite Z.lxor_0_r.
Qed.

(** ** Detection of a changed byte *)

Lemma crc_step_range z : 0 <= z < 2 ^ 32 -> 0 <= crc_step z < 2 ^ 32.
Proof.
  intros Hz. rewrite crc_step_odd. apply lxor_range; [lia| |destruct (Z.odd z); unfold crc_poly; lia].
  rewrite Z.shiftr_div_pow2 by lia. split; [apply Z.div_pos; lia|].
  apply Z.div_lt_upper_bound; lia.
Qed.

Lemma crc_steps_range n : forall z, 0 <= z < 2 ^ 32 -> 0 <= crc_steps n z < 2 ^ 32.
Proof. induction n; simpl; auto using crc_step_range. Qed.

(** The top bit of the result is the bit shifted out, so a step loses nothing. *)
Lemma crc_step_top z : 0 <= z < 2 ^ 32 -> Z.testbit (crc_step z) 31 = Z.odd z.
Proof.
  intros Hz. rewrite crc_step_odd, Z.lxor_spec, Z.shiftr_spec by lia.
  rewrite (bits_high z 32) by lia. by destruct (Z.odd z).
Qed.

Lemma crc_step_inj a b :
  0 <= a < 2 ^ 32 -> 0 <= b < 2 ^ 32 -> crc_step a = crc_step b -> a = b.
Proof.
  intros Ha Hb H. pose proof (crc_step_top a Ha) as Ta. pose proof (crc_step_top b Hb) as Tb.
  rewrite H, Tb in Ta. rewrite !crc_step_odd, <-Ta in H. apply lxor_cancel_r in H.
  rewrite !Z.shiftr_div_pow2 in H by lia. change (2 ^ 1) with 2 in H.
  pose proof (Zmod_odd a). pose proof (Zmod_odd b). rewrite Ta in *.
  pose proof (Z.div_mod a 2). pose proof (Z.div_mod b 2). lia.
Qed.

Lemma crc_steps_inj n : forall a b,
  0 <= a < 2 ^ 32 -> 0 <= b < 2 ^ 32 -> crc_steps n a = crc_steps n b -> a = b.
Proof.
  induction n as [|n IH]; simpl; [done|]. intros a b Ha Hb H.
  apply IH in H; auto using crc_step_range. by apply crc_step_inj.
Qed.

Lemma lxor_byte_range c b : 0 <= c < 2 ^ 32 -> 0 <= Z.lxor c (Z_of_byte b) < 2 ^ 32.
Proof. intros. apply lxor_range; [lia|done|]. pose proof (Z_of_byte_range b). lia. Qed.

Lemma crc_update_range c b : 0 <= c < 2 ^ 32 -> 0 <= crc_update c b < 2 ^ 32.
Proof. intros. rewrite crc_update_steps. by apply crc_steps_range, lxor_byte_range. Qed.

Lemma crc_fold_range data : forall c, 0 <= c < 2 ^ 32 -> 0 <= foldl crc_update c data < 2 ^ 32.
Proof. induction data as [|b data IH]; simpl; auto using crc_update_range. Qed.

Lemma crc_fold_inj data : forall c1 c2,
  0 <= c1 < 2 ^ 32 -> 0 <= c2 < 2 ^ 32 ->
  foldl crc_update c1 data = foldl crc_update c2 data -> c1 = c2.
Proof.
  induction data as [|b data IH]; simpl; [done|]. intros c1 c2 H1 H2 H.
  apply IH in H; auto using crc_update_range. rewrite !crc_update_steps in H.
  apply crc_steps_inj in H; auto using lxor_byte_range. by apply lxor_cancel_r in H.
Qed.

Lemma ComputeCRC32_range data : 0 <= ComputeCRC32 data < 2 ^ 32.
Proof. apply lxor_range; [lia|apply crc_fold_range; lia|lia]. Qed.

Lemma ComputeCRC32_detects pre b b' post :
  b <> b' -> ComputeCRC32 (pre ++ b :: post) <> ComputeCRC32 (pre ++ b' :: post).
Proof.
  intros Hb H. apply Hb. unfold ComputeCRC32 in H. apply lxor_cancel_r in H.
  rewrite !foldl_app in H. simpl in H.
  assert (0 <= foldl crc_update 0xFFFFFFFF pre < 2 ^ 32) as Hr by (apply crc_fold_range; lia).
  apply crc_fold_inj in H; auto using crc_update_range. rewrite !crc_update_steps in H.
  apply crc_steps_inj in H; auto using lxor_byte_range. apply lxor_cancel_l in H.
  by apply Z_of_byte_inj.
Qed.

(** * Records *)

(** The entries the program logs: 64-bit sequence number, lengths that fit the
    32-bit fields, no value on a delete. *)
Definition entry_ok (e : WALEntry) : Prop :=
  0 <= we_seq e < 2 ^ 64 /\
  (we_type e = kPut \/ (we_type e = kDelete /\ we_value e = [])) /\
  Z.of_nat (PayloadSize e) < 2 ^ 32.

#[export] Instance entry_ok_dec e : Decision (entry_ok e).
Proof. unfold entry_ok. apply _. Defined.

(** The bytes of the payload, as one concatenation. *)
Definition payload_bytes (e : WALEntry) : bytes :=
  [we_type e] ++ le_bytes 8 (we_seq e) ++ le_bytes 4 (Z.of_nat (length (we_key e))) ++ we_key e ++
  (if bool_decide (we_type e = kPut)
   then le_bytes 4 (Z.of_nat (length (we_value e))) ++ we_value e else []).

Lemma PayloadSize_bounds e :
  entry_ok e -> Z.of_nat (length (we_key e)) < 2 ^ 32 /\
    (we_type e = kPut -> Z.of_nat (length (we_value e)) < 2 ^ 32).
Proof.
  intros (_ & _ & Hp). unfold PayloadSize in Hp. case_bool_decide; split; intros; try done; lia.
Qed.

Lemma SerializePayload_bytes e : entry_ok e -> SerializePayload e = payload_bytes e.
Proof.
  intros He. destruct (PayloadSize_bounds e He) as [Hk Hv].
  unfold SerializePayload, payload_bytes, WriteUint64, WriteUint32, WriteRawBytes.
  case_bool_decide as Ht.
  - specialize (Hv Ht). rewrite !u32_small by lia. by rewrite <-!app_assoc.
  - rewrite !u32_small by lia. by rewrite app_nil_r, <-!app_assoc.
Qed.

Lemma length_payload_bytes e : length (payload_bytes e) = PayloadSize e.
Proof.
  unfold payload_bytes, PayloadSize. case_bool_decide; autorewrite with vdb_len; simpl; lia.
Qed.

(** A payload reads back as the entry it was built from. *)
Lemma DeserializeEntry_payload e : entry_ok e -> DeserializeEntry (payload_bytes e) = Val e.
Proof.
  intros He. destruct (PayloadSize_bounds e He) as [Hk Hv]. destruct He as (Hseq & Hty & Hp).
  pose proof (length_payload_bytes e) as Hlen.
  assert (13 <= length (payload_bytes e))%nat as H13
    by (rewrite Hlen; unfold PayloadSize; case_bool_decide; lia).
  unfold DeserializeEntry. unfold payload_bytes at 1. simpl app at 1.
  rewrite (proj2 (Nat.ltb_ge _ _) H13).
  unfold payload_bytes in *.
  rewrite ReadUint64_app by (simpl; lia).
  rewrite (app_assoc [we_type e] (le_bytes 8 _)).
  rewrite ReadUint32_app by (autorewrite with vdb_len; simpl; lia). rewrite Nat2Z.id.
  set (tail := if bool_decide _ then _ else _) in *.
  rewrite (proj2 (Nat.ltb_ge _ _)) by (autorewrite with vdb_len; simpl; lia).
  rewrite (app_assoc _ (le_bytes 4 _)).
  rewrite slice_app_eq by (autorewrite with vdb_len; simpl; lia).
  subst tail. case_bool_decide as Ht.
  - specialize (Hv Ht). rewrite (app_assoc _ (we_key e)).
    rewrite ReadUint32_app by (autorewrite with vdb_len; simpl; lia). rewrite Nat2Z.id.
    rewrite (proj2 (Nat.ltb_ge _ _)) by (autorewrite with vdb_len; simpl; lia).
    rewrite (app_assoc _ (le_bytes 4 (Z.of_nat (length (we_value e))))).
    rewrite slice_end by (autorewrite with vdb_len; simpl; lia). by destruct e.
  - destruct Hty as [|[_ Hnil]]; [done|]. destruct e; simpl in *. by rewrite Hnil.
Qed.

(** The record of an entry. *)
Definition record_bytes (e : WALEntry) : bytes :=
  le_bytes 4 (Z.of_nat (PayloadSize e)) ++ le_bytes 4 (ComputeCRC32 (payload_bytes e)) ++ payload_bytes e.

Lemma SerializeEntry_bytes e : entry_ok e -> SerializeEntry e = record_bytes e.
Proof.
  intros He. pose proof He as (_ & _ & Hp). unfold SerializeEntry, record_bytes, WriteUint32.
  rewrite SerializePayload_bytes, length_payload_bytes, u32_small by (done || lia).
  by rewrite app_nil_l, <-app_assoc.
Qed.

Lemma length_record_bytes e : length (record_bytes e) = (8 + PayloadSize e)%nat.
Proof. unfold record_bytes. autorewrite with vdb_len. rewrite length_payload_bytes. lia. Qed.

(** ** The reader on the front of a file *)

Lemma read_header_app len crc rest :
  0 <= len < 2 ^ 32 -> 0 <= crc < 2 ^ 32 ->
  read_header (le_bytes 4 len ++ le_bytes 4 crc ++ rest) = Some (len, crc, rest).
Proof.
  intros Hl Hc. unfold read_header.
  rewrite (proj2 (Nat.ltb_ge _ _)) by (autorewrite with vdb_len; unfold kWALHeaderSize; lia).
  rewrite (app_assoc (le_bytes 4 len)).
  rewrite take_app_length', drop_app_length' by (by autorewrite with vdb_len).
  pose proof (ReadUint32_app [] len (le_bytes 4 crc) 0 eq_refl Hl) as H1.
  rewrite app_nil_l in H1. rewrite H1.
  pose proof (ReadUint32_app (le_bytes 4 len) crc [] (0 + 4) ltac:(by rewrite length_le_bytes) Hc) as H2.
  rewrite app_nil_r in H2. by rewrite H2.
Qed.

Lemma read_payload_app payload rest :
  read_payload (payload ++ rest) (Z.of_nat (length payload)) = Some (payload, rest).
Proof.
  unfold read_payload. rewrite (proj2 (Z.ltb_ge _ _)) by (autorewrite with vdb_len; lia).
  by rewrite Nat2Z.id, take_app_length, drop_app_length.
Qed.

(** A header, when one is read, makes the reader strictly shorter. *)
Lemma read_header_shorter reader len crc rest :
  read_header reader = Some (len, crc, rest) -> (length rest < length reader)%nat.
Proof.
  unfold read_header. destruct (Nat.ltb_spec (length reader) kWALHeaderSize); [done|].
  destruct (ReadUint32 _ 0) as [[? ?]|]; [|done].
  destruct (ReadUint32 _ _) as [[? ?]|]; [|done]. intros [= _ _ <-].
  rewrite length_drop. unfold kWALHeaderSize in *. lia.
Qed.

Lemma read_payload_shorter reader len payload rest :
  read_payload reader len = Some (payload, rest) -> (length rest <= length reader)%nat.
Proof. unfold read_payload. case_match; intros [= _ <-]. rewrite length_drop. lia. Qed.

(** The loops end: the fuel of the definitions is enough. *)
Lemma ReadAll_loop_fuel fuel1 : forall fuel2 reader,
  (length reader < fuel1)%nat -> (length reader < fuel2)%nat ->
  exists es, ReadAll_loop fuel1 reader = Some es /\ ReadAll_loop fuel2 reader = Some es.
Proof.
  induction fuel1 as [|fuel1 IH]; intros [|fuel2] reader H1 H2; try lia. simpl.
  destruct (read_header reader) as [[[len crc] r1]|] eqn:Eh; [|by eauto].
  destruct (max_payload <? len); [by eauto|].
  destruct (read_payload r1 len) as [[payload r2]|] eqn:Ep; [|by eauto].
  destruct (negb _); [by eauto|]. destruct (DeserializeEntry payload); [|by eauto].
  apply read_header_shorter in Eh. apply read_payload_shorter in Ep.
  destruct (IH fuel2 r2) as (es & -> & ->); [lia|lia|]. eauto.
Qed.

Lemma ReadAll_total reader fuel :
  (length reader < fuel)%nat -> ReadAll_loop fuel reader = Some (parse_log reader).
Proof.
  intros Hf. destruct (ReadAll_loop_fuel fuel (S (length reader)) reader) as (es & H1 & H2); [lia|lia|].
  unfold parse_log. by rewrite H1, H2.
Qed.

Lemma Open_scan_fuel fuel1 : forall fuel2 reader seq,
  (length reader < fuel1)%nat -> (length reader < fuel2)%nat ->
  exists n, Open_scan fuel1 reader seq = Some n /\ Open_scan fuel2 reader seq = Some n.
Proof.
  induction fuel1 as [|fuel1 IH]; intros [|fuel2] reader seq H1 H2; try lia. simpl.
  destruct (read_header reader) as [[[len crc] r1]|] eqn:Eh; [|by eauto].
  destruct (read_payload r1 len) as [[payload r2]|] eqn:Ep; [|by eauto].
  destruct (negb _); [by eauto|]. destruct (DeserializeEntry payload); [|by eauto].
  apply read_header_shorter in Eh. apply read_payload_shorter in Ep.
  apply IH; lia.
Qed.

(** The scan of [Open] from any starting number. *)
Definition scan_from (reader : bytes) (seq : Z) : Z :=
  default seq (Open_scan (S (length reader)) reader seq).

Lemma Open_scan_total reader seq fuel :
  (length reader < fuel)%nat -> Open_scan fuel reader seq = Some (scan_from reader seq).
Proof.
  intros Hf. destruct (Open_scan_fuel fuel (S (length reader)) reader seq) as (n & H1 & H2); [lia|lia|].
  unfold scan_from. by rewrite H1, H2.
Qed.

(** * Logs *)

(** Entries [ReadAll] accepts: well formed and at most 64 MB of payload. *)
Definition readable (e : WALEntry) : Prop :=
  entry_ok e /\ Z.of_nat (PayloadSize e) <= max_payload.

#[export] Instance readable_dec e : Decision (readable e).
Proof. unfold readable. apply _. Defined.

Definition log_bytes (es : list WALEntry) : bytes := mjoin (record_bytes <$> es).

Lemma log_bytes_cons e es : log_bytes (e :: es) = record_bytes e ++ log_bytes es.
Proof. done. Qed.

Lemma log_bytes_snoc es e : log_bytes (es ++ [e]) = log_bytes es ++ record_bytes e.
Proof.
  induction es as [|e' es IH]; [exact (app_nil_r _)|].
  simpl app. by rewrite !log_bytes_cons, IH, app_assoc.
Qed.

Lemma read_record e rest :
  entry_ok e ->
  read_header (record_bytes e ++ rest)
  = Some (Z.of_nat (PayloadSize e), ComputeCRC32 (payload_bytes e), payload_bytes e ++ rest) /\
  read_payload (payload_bytes e ++ rest) (Z.of_nat (PayloadSize e)) = Some (payload_bytes e, rest).
Proof.
  intros (_ & _ & Hp). split.
  - unfold record_bytes. rewrite <-!app_assoc. apply read_header_app; [lia|apply ComputeCRC32_range].
  - rewrite <-length_payload_bytes. apply read_payload_app.
Qed.

Lemma parse_log_record e rest :
  readable e -> parse_log (record_bytes e ++ rest) = e :: parse_log rest.
Proof.
  intros [He Hmax]. unfold parse_log at 1. cbn [ReadAll_loop].
  destruct (read_record e rest He) as [-> ->]. rewrite (proj2 (Z.ltb_ge _ _)) by lia.
  rewrite Z.eqb_refl. cbn [negb]. rewrite DeserializeEntry_payload by done.
  rewrite ReadAll_total; [done|]. autorewrite with vdb_len. rewrite length_record_bytes. lia.
Qed.

Lemma scan_from_record e rest seq :
  entry_ok e ->
  scan_from (record_bytes e ++ rest) seq
  = scan_from rest (if seq <=? we_seq e then u64 (we_seq e + 1) else seq).
Proof.
  intros He. unfold scan_from at 1. cbn [Open_scan].
  destruct (read_record e rest He) as [-> ->]. rewrite Z.eqb_refl. cbn [negb].
  rewrite DeserializeEntry_payload by done.
  rewrite Open_scan_total; [done|]. autorewrite with vdb_len. rewrite length_record_bytes. lia.
Qed.

(** A torn record: the header or the payload is cut short. *)
Lemma read_torn e n :
  entry_ok e -> (n < length (record_bytes e))%nat ->
  match read_header (take n (record_bytes e)) with
  | None => True
  | Some (len, _, reader) => read_payload reader len = None
  end.
Proof.
  intros (_ & _ & Hp) Hn. rewrite length_record_bytes in Hn.
  destruct (decide (n < 8)%nat) as [Hs|Hs].
  - unfold read_header. rewrite length_take, length_record_bytes.
    rewrite (proj2 (Nat.ltb_lt _ _)) by (unfold kWALHeaderSize; lia). done.
  - unfold record_bytes. rewrite (app_assoc (le_bytes 4 _)), take_app.
    rewrite take_ge by (autorewrite with vdb_len; lia). rewrite <-app_assoc.
    rewrite read_header_app by (try apply ComputeCRC32_range; lia).
    unfold read_payload. rewrite (proj2 (Z.ltb_lt _ _)); [done|].
    autorewrite with vdb_len. rewrite length_payload_bytes. lia.
Qed.

Lemma parse_log_torn e n :
  entry_ok e -> (n < length (record_bytes e))%nat -> parse_log (take n (record_bytes e)) = [].
Proof.
  intros He Hn. pose proof (read_torn e n He Hn) as Ht. unfold parse_log. cbn [ReadAll_loop].
  destruct (read_header _) as [[[len crc] reader]|]; [|done]. rewrite Ht.
  by destruct (max_payload <? len).
Qed.

Lemma scan_from_torn e n seq :
  entry_ok e -> (n < length (record_bytes e))%nat -> scan_from (take n (record_bytes e)) seq = seq.
Proof.
  intros He Hn. pose proof (read_torn e n He Hn) as Ht. unfold scan_from. cbn [Open_scan].
  destruct (read_header _) as [[[len crc] reader]|]; [|done]. by rewrite Ht.
Qed.

Lemma parse_log_app es rest :
  Forall readable es -> parse_log (log_bytes es ++ rest) = es ++ parse_log rest.
Proof.
  induction 1 as [|e es He Hes IH]; [done|].
  rewrite log_bytes_cons, <-app_assoc, parse_log_record, IH by done. done.
Qed.

(** A log whose sequence numbers are [n, n+1, ...]. *)
Fixpoint numbered (n : Z) (es : list WALEntry) : Prop :=
  match es with
  | [] => True
  | e :: es' => we_seq e = n /\ numbered (n + 1) es'
  end.

Lemma numbered_snoc es : forall n e,
  numbered n es -> we_seq e = n + Z.of_nat (length es) -> numbered n (es ++ [e]).
Proof.
  induction es as [|e' es IH]; simpl; intros n e.
  - intros _ ->. split; [lia|done].
  - intros [-> H] He. split; [done|]. apply IH; [done|lia].
Qed.

Lemma scan_from_app es rest : forall n,
  Forall entry_ok es -> numbered n es -> n + Z.of_nat (length es) < 2 ^ 64 ->
  scan_from (log_bytes es ++ rest) n = scan_from rest (n + Z.of_nat (length es)).
Proof.
  induction es as [|e es IH]; intros n Hok Hnum Hmax.
  - simpl. by rewrite Z.add_0_r.
  - apply Forall_cons in Hok as [He Hok]. destruct Hnum as [Hs Hnum].
    rewrite log_bytes_cons, <-app_assoc, scan_from_record by done.
    pose proof He as ((? & ?) & _). simpl length in *.
    rewrite Hs, Z.leb_refl, u64_small by lia. rewrite IH by (done || lia). f_equal. lia.
Qed.

Lemma SerializeEntry_log es :
  Forall entry_ok es -> mjoin (SerializeEntry <$> es) = log_bytes es.
Proof.
  induction 1 as [|e es He Hes IH]; [done|]. rewrite fmap_cons.
  change (mjoin (?a :: ?b)) with (a ++ mjoin b). by rewrite SerializeEntry_bytes, IH.
Qed.

(** [~WAL]: flushes and closes. *)
Definition WAL_destroy (w : World) (wal : WAL) : World := (ofs_flush w (write_file_ wal)).2.

(** The error of an append is one. *)
Lemma WAL_Append_error w wal x s wal' w' : WAL_Append w wal x = (Err s, wal', w') -> IsOk s = false.
Proof.
  unfold WAL_Append. destruct (ofs_write _ _ _) as [f w1]. destruct (negb _); [by intros [= <- _ _]|].
  by destruct (ofs_flush w1 f) as [f2 w2].
Qed.

(** * The log as a state machine *)

Definition stamp (seq : Z) (e : WALEntry) : WALEntry :=
  mkWALEntry seq (we_type e) (we_key e) (we_value e).

Lemma readable_stamp seq e : readable e -> 0 <= seq < 2 ^ 64 -> readable (stamp seq e).
Proof. intros [(_ & Ht & Hp) Hm] Hs. split; [split; [exact Hs|split; [exact Ht|exact Hp]]|exact Hm]. Qed.

(** The open log holds exactly the entries [es], numbered from 1. *)
Record wal_state (w : World) (wal : WAL) (es : list WALEntry) : Prop := {
  ws_healthy : healthy w;
  ws_stream : write_file_ wal = mkOfs (path_ wal) true [];
  ws_file : files w !! path_ wal = Some (log_bytes es);
  ws_readable : Forall readable es;
  ws_numbered : numbered 1 es;
  ws_next : next_sequence_number_ wal = 1 + Z.of_nat (length es);
  ws_bound : 1 + Z.of_nat (length es) < 2 ^ 64
}.

Lemma readable_ok es : Forall readable es -> Forall entry_ok es.
Proof. intros H. eapply Forall_impl; [exact H|]. by intros e [? _]. Qed.

(** Opening a file that holds a log, possibly followed by a torn record. *)
Lemma WAL_Open_existing w path es tail :
  healthy w -> files w !! path = Some (log_bytes es ++ tail) ->
  Forall readable es -> numbered 1 es -> 1 + Z.of_nat (length es) < 2 ^ 64 ->
  (forall seq, scan_from tail seq = seq) ->
  WAL_Open w path
  = (Val (mkWAL path (mkOfs path true []) (1 + Z.of_nat (length es))), append_file w path []).
Proof.
  intros Hw Hf Hr Hn Hb Ht. unfold WAL_Open, fs_exists. rewrite Hf, ifs_open_healthy, Hf by done.
  rewrite ofs_open_app_healthy by done. f_equal. f_equal. f_equal.
  change (scan_next_seq ?c) with (scan_from c 1).
  rewrite scan_from_app by (auto using readable_ok || done). apply Ht.
Qed.

Lemma WAL_Open_missing w path :
  healthy w -> files w !! path = None ->
  WAL_Open w path = (Val (mkWAL path (mkOfs path true []) 1), append_file w path []).
Proof. intros Hw Hf. unfold WAL_Open, fs_exists. by rewrite Hf, ofs_open_app_healthy. Qed.

Lemma wal_state_open_new w path :
  healthy w -> files w !! path = None ->
  exists wal w', WAL_Open w path = (Val wal, w') /\ path_ wal = path /\ wal_state w' wal [].
Proof.
  intros Hw Hf. rewrite WAL_Open_missing by done. do 2 eexists. split; [done|]. split; [done|].
  split; try done. cbn [path_]. rewrite append_file_lookup, Hf. done.
Qed.

Lemma wal_state_reopen w path es :
  healthy w -> files w !! path = Some (log_bytes es) ->
  Forall readable es -> numbered 1 es -> 1 + Z.of_nat (length es) < 2 ^ 64 ->
  exists wal w', WAL_Open w path = (Val wal, w') /\ path_ wal = path /\ wal_state w' wal es.
Proof.
  intros Hw Hf Hr Hn Hb. rewrite (WAL_Open_existing w path es []); auto;
    [|by rewrite app_nil_r].
  do 2 eexists. split; [done|]. split; [done|]. split; try done.
  cbn [path_]. rewrite append_file_lookup, Hf. cbn [default]. by rewrite app_nil_r.
Qed.

Lemma wal_state_append w wal es e :
  wal_state w wal es -> readable e -> 2 + Z.of_nat (length es) < 2 ^ 64 ->
  exists wal' w', WAL_Append w wal e = (Val (1 + Z.of_nat (length es)), wal', w') /\
    path_ wal' = path_ wal /\
    wal_state w' wal' (es ++ [stamp (1 + Z.of_nat (length es)) e]) /\
    (forall p, p <> path_ wal -> files w' !! p = files w !! p).
Proof.
  intros Hs He Hb. destruct Hs as [Hw Hst Hf Hr Hn Hnx _]. unfold WAL_Append. rewrite Hnx, Hst.
  rewrite ofs_write_healthy by done. cbn [os_good negb]. rewrite ofs_flush_healthy by done.
  assert (readable (stamp (1 + Z.of_nat (length es)) e)) as Hr' by (apply readable_stamp; [done|lia]).
  do 2 eexists. split; [done|]. split; [done|]. split.
  - split; cbn [path_ write_file_ next_sequence_number_]; try done.
    + rewrite append_file_lookup, Hf, log_bytes_snoc. simpl. f_equal. f_equal.
      apply SerializeEntry_bytes. apply Hr'.
    + apply Forall_app_2; [done|]. by constructor.
    + by apply numbered_snoc.
    + rewrite length_app. simpl. rewrite u64_small by lia. lia.
    + rewrite length_app. simpl. lia.
  - intros p Hp. by rewrite append_file_other.
Qed.

Lemma wal_state_read w wal es : wal_state w wal es -> WAL_ReadAll w wal = (Val es, w).
Proof.
  intros [Hw _ Hf Hr _ _ _]. unfold WAL_ReadAll. rewrite ifs_open_healthy, Hf by done.
  rewrite <-(app_nil_r (log_bytes es)), parse_log_app by done. by rewrite app_nil_r.
Qed.

(** A sequence of appends; the sequence numbers returned. *)
Fixpoint append_all (w : World) (wal : WAL) (es : list WALEntry) : ErrorOr (list Z) * WAL * World :=
  match es with
  | [] => (Val [], wal, w)
  | e :: es' =>
      match WAL_Append w wal e with
      | (Err s, wal, w) => (Err s, wal, w)
      | (Val seq, wal, w) =>
          match append_all w wal es' with
          | (Err s, wal, w) => (Err s, wal, w)
          | (Val seqs, wal, w) => (Val (seq :: seqs), wal, w)
          end
      end
  end.

(** [es] stamped with consecutive numbers. *)
Fixpoint stamp_all (n : Z) (es : list WALEntry) : list WALEntry :=
  match es with [] => [] | e :: es' => stamp n e :: stamp_all (n + 1) es' end.

Lemma wal_state_append_all reqs : forall w wal es,
  wal_state w wal es -> Forall readable reqs ->
  1 + Z.of_nat (length es) + Z.of_nat (length reqs) < 2 ^ 64 ->
  exists wal' w', append_all w wal reqs
      = (Val (we_seq <$> stamp_all (1 + Z.of_nat (length es)) reqs), wal', w') /\
    path_ wal' = path_ wal /\
    wal_state w' wal' (es ++ stamp_all (1 + Z.of_nat (length es)) reqs).
Proof.
  induction reqs as [|e reqs IH]; intros w wal es Hs Hr Hb.
  - simpl. rewrite app_nil_r. eauto 10.
  - apply Forall_cons in Hr as [He Hr]. simpl length in Hb. cbn [append_all].
    destruct (wal_state_append w wal es e Hs He) as (wal1 & w1 & -> & Hp1 & Hs1 & _); [lia|].
    destruct (IH w1 wal1 _ Hs1 Hr) as (wal2 & w2 & Heq & Hp2 & Hs2).
    { rewrite length_app. simpl. lia. }
    rewrite length_app in Heq, Hs2. simpl length in Heq, Hs2.
    replace (1 + Z.of_nat (length es + 1)) with (1 + Z.of_nat (length es) + 1) in Heq, Hs2 by lia.
    rewrite Heq. do 2 eexists. split; [done|]. split; [congruence|].
    by rewrite <-app_assoc in Hs2.
Qed.

(** * Properties *)

(** The CRC-32 of IEEE 802.3 as a shift register that takes the message bit by
    bit, the low bit of each byte first.  The generator polynomial is given by its
    exponents below 32; the register is reflected, so that the coefficient of
    exponent [e] is bit [31 - e]. *)
Definition ieee_exponents : list Z := [26; 23; 22; 16; 12; 11; 10; 8; 7; 5; 4; 2; 1; 0].

Definition ieee_polynomial : Z := foldr (fun e p => Z.setbit p (31 - e)) 0 ieee_exponents.

Definition feed_bit (register : Z) (bit : bool) : Z :=
  let shifted := Z.shiftr register 1 in
  if xorb (Z.odd register) bit then Z.lxor shifted ieee_polynomial else shifted.

(** The [n] low bits of [x], from the lowest. *)
Fixpoint low_bits (n : nat) (x : Z) : list bool :=
  match n with O => [] | S n => Z.odd x :: low_bits n (Z.shiftr x 1) end.

Definition crc32_bit_serial (data : bytes) : Z :=
  Z.lxor (foldl feed_bit 0xFFFFFFFF (data ≫= fun b => low_bits 8 (Z_of_byte b))) 0xFFFFFFFF.

(** The steps of the code take in the bits that were added to the register. *)
Lemma feed_low_bits n : forall c x, 0 <= x < 2 ^ Z.of_nat n ->
  foldl feed_bit c (low_bits n x) = crc_steps n (Z.lxor c x).
Proof.
  induction n as [|n IH]; intros c x Hx; cbn [low_bits foldl crc_steps].
  - replace x with 0 by (change (2 ^ Z.of_nat 0) with 1 in Hx; lia). by rewrite Z.lxor_0_r.
  - assert (0 <= Z.shiftr x 1 < 2 ^ Z.of_nat n) as Hx'.
    { rewrite Nat2Z.inj_succ, Z.pow_succ_r in Hx by lia. rewrite Z.shiftr_div_pow2 by lia. change (2 ^ 1) with 2.
      split; [apply Z.div_pos; lia|apply Z.div_lt_upper_bound; lia]. }
    rewrite (IH _ _ Hx'), crc_step_odd, odd_lxor, Z.shiftr_lxor. f_equal. unfold feed_bit.
    change ieee_polynomial with crc_poly. destruct (xorb _ _); [|by rewrite Z.lxor_0_r].
    rewrite !Z.lxor_assoc. f_equal. apply Z.lxor_comm.
Qed.

(** C34. The table-driven [ComputeCRC32] computes the bit-serial CRC-32 of the IEEE
    polynomial on every input, and its result fits the 32-bit field of the record header. *)
Theorem crc32_table_correct (data : bytes) :
  ComputeCRC32 data = crc32_bit_serial data /\ 0 <= ComputeCRC32 data < 2 ^ 32.
Proof.
  split; [|apply ComputeCRC32_range]. unfold ComputeCRC32, crc32_bit_serial. f_equal.
  generalize 0xFFFFFFFF as c. induction data as [|b data IH]; intros c; [done|]. cbn [foldl].
  rewrite crc_update_steps, IH, <-feed_low_bits by apply Z_of_byte_range. symmetry. apply (foldl_app feed_bit).
Qed.

(** C19. Corruption is contained: when one byte of the payload of a logged
    record is changed on disk, [ReadAll] returns exactly the entries before
    that record, whatever follows it. *)
Theorem wal_corruption_detected (es : list WALEntry) (e : WALEntry) (pre post rest : bytes)
    (b b' : byte) (Hes : Forall readable es) (He : readable e)
    (Hpayload : SerializePayload e = pre ++ b :: post) (Hb : b <> b') :
  parse_log (mjoin (SerializeEntry <$> es) ++ take 8 (SerializeEntry e) ++ (pre ++ b' :: post) ++ rest)
  = es.
Proof.
  destruct He as [He Hmax].
  rewrite SerializeEntry_log, parse_log_app by auto using readable_ok.
  rewrite <-(app_nil_r es) at 2. f_equal. rewrite SerializeEntry_bytes by done.
  rewrite SerializePayload_bytes in Hpayload by done. unfold record_bytes.
  rewrite (app_assoc (le_bytes 4 _)), take_app_length' by (by autorewrite with vdb_len).
  assert (length (pre ++ b' :: post) = PayloadSize e) as Hlen.
  { rewrite <-length_payload_bytes, Hpayload, !length_app. done. }
  pose proof He as (_ & _ & Hp). unfold parse_log. cbn [ReadAll_loop].
  rewrite <-app_assoc, read_header_app by (try apply ComputeCRC32_range; lia).
  rewrite (proj2 (Z.ltb_ge _ _)) by lia. rewrite <-Hlen, read_payload_app, Hpayload.
  rewrite (proj2 (Z.eqb_neq _ _)); [done|]. apply not_eq_sym. by apply ComputeCRC32_detects.
Qed.

Definition sample_put : WALEntry := mkWALEntry 1 kPut (lit "k") (lit "v").
Definition sample_delete : WALEntry := mkWALEntry 2 kDelete (lit "k") [].

Lemma wal_corruption_detected_witness :
  parse_log (mjoin (SerializeEntry <$> [sample_put]) ++ take 8 (SerializeEntry sample_delete)
             ++ (take 13 (SerializePayload sample_delete) ++ lit "z") ++ lit "tail")
  = [sample_put].
Proof.
  apply (wal_corruption_detected [sample_put] sample_delete
           (take 13 (SerializePayload sample_delete)) [] (lit "tail") Byte.x6b Byte.x7a).
  - by_vm.
  - by_vm.
  - vm_compute. reflexivity.
  - discriminate.
Defined.

(** C18. Crash during an append: a file that holds complete records followed by
    any proper prefix of one more record reads back as the complete entries,
    and reopening it continues with the next sequence number. *)
Theorem wal_torn_tail (es : list WALEntry) (e : WALEntry) (n : nat)
    (Hes : Forall readable es) (Hnum : numbered 1 es) (He : entry_ok e)
    (Hn : (n < length (SerializeEntry e))%nat) (Hmax : 1 + Z.of_nat (length es) < 2 ^ 64) :
  parse_log (mjoin (SerializeEntry <$> es) ++ take n (SerializeEntry e)) = es /\
  scan_next_seq (mjoin (SerializeEntry <$> es) ++ take n (SerializeEntry e))
    = 1 + Z.of_nat (length es).
Proof.
  rewrite SerializeEntry_log by auto using readable_ok.
  rewrite SerializeEntry_bytes in * by done. split.
  - by rewrite parse_log_app, parse_log_torn, app_nil_r.
  - change (scan_next_seq ?c) with (scan_from c 1).
    rewrite scan_from_app by (auto using readable_ok || done). by apply scan_from_torn.
Qed.

Lemma wal_torn_tail_witness :
  parse_log (mjoin (SerializeEntry <$> [sample_put; sample_delete]) ++ take 20 (SerializeEntry sample_put))
  = [sample_put; sample_delete] /\
  scan_next_seq (mjoin (SerializeEntry <$> [sample_put; sample_delete]) ++ take 20 (SerializeEntry sample_put))
  = 3.
Proof.
  apply (wal_torn_tail [sample_put; sample_delete] sample_put 20).
  - by_vm.
  - vm_compute. tauto.
  - by_vm.
  - vm_compute. lia.
  - vm_compute. reflexivity.
Defined.

(** C17. Durability of the log: opened on a fresh path in a world without I/O
    faults, the log assigns the numbers 1, 2, ... to the appended entries;
    [ReadAll] returns them stamped, in order; and after reopening the file the
    same entries are read and the numbering continues where it stopped. *)
Theorem wal_append_durable (w : World) (path : str) (reqs : list WALEntry)
    (Hw : healthy w) (Hfresh : files w !! path = None) (Hreqs : Forall readable reqs)
    (Hmax : 1 + Z.of_nat (length reqs) < 2 ^ 64) :
  exists wal0 w0 wal1 w1 wal2 w2,
    WAL_Open w path = (Val wal0, w0) /\
    append_all w0 wal0 reqs = (Val (we_seq <$> stamp_all 1 reqs), wal1, w1) /\
    WAL_ReadAll w1 wal1 = (Val (stamp_all 1 reqs), w1) /\
    WAL_Open (WAL_destroy w1 wal1) path = (Val wal2, w2) /\
    next_sequence_number_ wal2 = 1 + Z.of_nat (length reqs) /\
    WAL_ReadAll w2 wal2 = (Val (stamp_all 1 reqs), w2).
Proof.
  destruct (wal_state_open_new w path Hw Hfresh) as (wal0 & w0 & Ho & Hp0 & Hs0).
  destruct (wal_state_append_all reqs w0 wal0 [] Hs0 Hreqs) as (wal1 & w1 & Ha & Hp1 & Hs1);
    [simpl; lia|]. simpl in Ha, Hs1.
  assert (length (stamp_all 1 reqs) = length reqs) as Hlen.
  { generalize 1. clear. induction reqs as [|e reqs IH]; intros n; simpl; [done|]. by rewrite IH. }
  destruct (wal_state_reopen (WAL_destroy w1 wal1) path (stamp_all 1 reqs)) as (wal2 & w2 & Ho2 & _ & Hs2).
  - unfold WAL_destroy. rewrite (ws_stream _ _ _ Hs1), ofs_flush_healthy by apply Hs1. apply Hs1.
  - unfold WAL_destroy. rewrite (ws_stream _ _ _ Hs1), ofs_flush_healthy by apply Hs1.
    rewrite <-Hp0, <-Hp1. cbn [snd]. rewrite append_file_lookup, (ws_file _ _ _ Hs1).
    simpl. by rewrite app_nil_r.
  - apply Hs1.
  - apply Hs1.
  - apply Hs1.
  - exists wal0, w0, wal1, w1, wal2, w2. split_and!; auto using wal_state_read.
    rewrite (ws_next _ _ _ Hs2). by rewrite Hlen.
Qed.

Definition no_files : World := mkWorld ∅ [].

Lemma wal_append_durable_witness :
  exists wal0 w0 wal1 w1 wal2 w2,
    WAL_Open no_files (lit "db.wal") = (Val wal0, w0) /\
    append_all w0 wal0 [sample_put; sample_delete]
      = (Val (we_seq <$> stamp_all 1 [sample_put; sample_delete]), wal1, w1) /\
    WAL_ReadAll w1 wal1 = (Val (stamp_all 1 [sample_put; sample_delete]), w1) /\
    WAL_Open (WAL_destroy w1 wal1) (lit "db.wal") = (Val wal2, w2) /\
    next_sequence_number_ wal2 = 3 /\
    WAL_ReadAll w2 wal2 = (Val (stamp_all 1 [sample_put; sample_delete]), w2).
Proof.
  apply (wal_append_durable no_files (lit "db.wal") [sample_put; sample_delete]).
  - reflexivity.
  - reflexivity.
  - by_vm.
  - vm_compute. reflexivity.
Defined.

(** ** Behaviour outside the durable path *)

(** One open, one append, one read; the results of the last two. *)
Definition open_append_read (w : World) (path : str) (e : WALEntry) :
    ErrorOr (ErrorOr Z * ErrorOr (list WALEntry)) :=
  let '(opened, w) := WAL_Open w path in
  let? wal := opened in
  let '(appended, wal, w) := WAL_Append w wal e in
  Val (appended, fst (WAL_ReadAll w wal)).

(** A record appended behind a torn tail is written and acknowledged but not
    read back: [Open] leaves the torn bytes in place. *)
Lemma append_behind_torn_tail_lost :
  open_append_read
    (mkWorld {[ lit "db.wal" := SerializeEntry sample_put ++ take 9 (SerializeEntry sample_delete) ]} [])
    (lit "db.wal") sample_delete
  = Val (Val 2, Val [sample_put]).
Proof. vm_compute. reflexivity. Qed.

(** A failing flush is not reported: [Append] returns the sequence number of
    a record of which no byte reaches the file. *)
Lemma append_ignores_flush_failure :
  open_append_read (mkWorld ∅ [NoFault; NoFault; Fault 0]) (lit "db.wal") sample_put
  = Val (Val 1, Val []).
Proof. vm_compute. reflexivity. Qed.
