(* ===== verification/Recovery.v ===== *)
(** * [RecoveryManager]: rebuilding the memtable from the log

    Models src/src/storage/recovery/recovery_manager.{h,cpp}.  The result of
    [RecoverMemTable] is the returned [ErrorOr<size_t>] together with the
    memtable, which is an in/out argument and keeps the entries applied
    before an error; the outer [option] is the memtable's (see MemTable.v).

    The theorems: recovery replays exactly the entries newer than the flushed
    LSN, in log order, also behind a torn tail; replaying twice is the same as
    replaying once; an unknown entry type is reported as corruption. *)

From S2P Require Import Prelude Status BinarySerializer Mt19937 SkipList MemTable FileSystem Wal.

Section recovery.
Context {abi : Abi}.

(** The loop over [entries_or.value()]. *)
Fixpoint replay (entries : list WALEntry) (memtable : MemTable) (last_flushed_lsn : Z)
    (applied_count : Z) : option (ErrorOr Z * MemTable) :=
  match entries with
  | [] => Some (Val applied_count, memtable)
  | entry :: entries =>
      if we_seq entry <=? last_flushed_lsn
      then replay entries memtable last_flushed_lsn applied_count
      else if bool_decide (we_type entry = kPut) then
        match MemTable_Put memtable (we_key entry) (we_value entry) with
        | Some memtable => replay entries memtable last_flushed_lsn (applied_count + 1)
        | None => None
        end
      else if bool_decide (we_type entry = kDelete) then
        match MemTable_Delete memtable (we_key entry) with
        | Some memtable => replay entries memtable last_flushed_lsn (applied_count + 1)
        | None => None
        end
      else Some (error kStorageCorruption (lit "Unknown WAL entry type during recovery"), memtable)
  end.

Definition RecoverMemTable (w : World) (wal_path : str) (memtable : MemTable)
    (last_flushed_lsn : Z) : option (ErrorOr Z * MemTable * World) :=
  if negb (fs_exists w wal_path) then Some (Val 0, memtable, w)
  else
    let '(wal_or, w) := WAL_Open w wal_path in
    match wal_or with
    | Err s => Some (Err s, memtable, w)
    | Val wal =>
        let '(entries_or, w) := WAL_ReadAll w wal in
        match entries_or with
        | Err s => Some (Err s, memtable, WAL_destroy w wal)
        | Val entries =>
            match replay entries memtable last_flushed_lsn 0 with
            | Some (r, memtable) => Some (r, memtable, WAL_destroy w wal)
            | None => None
            end
        end
    end.
End recovery.

(** ** The abstract effect of a log *)

Definition entry_value (e : WALEntry) : SkipListValue :=
  if bool_decide (we_type e = kPut) then live (we_value e) else tombstone.

Definition apply_entry (m : gmap str SkipListValue) (e : WALEntry) : gmap str SkipListValue :=
  <[we_key e := entry_value e]> m.

(** The entries [RecoverMemTable] does not skip. *)
Definition unflushed (lsn : Z) (es : list WALEntry) : list WALEntry :=
  filter (fun e => lsn < we_seq e) es.

Definition known_type (e : WALEntry) : Prop := we_type e = kPut \/ we_type e = kDelete.

(** The last write to a key wins. *)
Lemma apply_entries_lookup es k : forall m,
  foldl apply_entry m es !! k
  = match last (filter (fun e => we_key e = k) es) with
    | Some e => Some (entry_value e)
    | None => m !! k
    end.
Proof.
  induction es as [|e es IH]; intros m; [done|]. cbn [foldl]. rewrite IH.
  destruct (decide (we_key e = k)) as [He|He].
  - rewrite (filter_cons_True _ e es) by done.
    rewrite last_cons. destruct (last _); [done|]. rewrite <-He. apply lookup_insert_eq.
  - rewrite (filter_cons_False _ e es) by done. destruct (last _); [done|]. by apply lookup_insert_ne.
Qed.

Lemma apply_entries_idem m es : foldl apply_entry (foldl apply_entry m es) es = foldl apply_entry m es.
Proof.
  apply map_eq. intros k. rewrite !apply_entries_lookup. by destruct (last _).
Qed.

Lemma entry_value_put e : we_type e = kPut -> entry_value e = live (we_value e).
Proof. intros H. unfold entry_value. by rewrite bool_decide_true. Qed.

Lemma entry_value_delete e : we_type e = kDelete -> entry_value e = tombstone.
Proof. intros H. unfold entry_value. by rewrite H. Qed.

Section proofs.
Context {abi : Abi}.

(** One step of the loop on a known entry that is not skipped. *)
Lemma replay_step e es mt m lsn n :
  mt_repr mt m -> known_type e -> lsn < we_seq e ->
  exists mt', replay (e :: es) mt lsn n = replay es mt' lsn (n + 1) /\
    mt_repr mt' (apply_entry m e).
Proof.
  intros Hm Ht Hl. cbn [replay]. rewrite (proj2 (Z.leb_gt _ _)) by lia. unfold apply_entry.
  destruct Ht as [Ht|Ht].
  - rewrite bool_decide_true, entry_value_put by done.
    destruct (mt_put_repr mt m (we_key e) (we_value e) Hm) as (mt' & -> & Hm'). eauto.
  - rewrite Ht, entry_value_delete by done. cbn.
    destruct (mt_delete_repr mt m (we_key e) Hm) as (mt' & -> & Hm'). eauto.
Qed.

Lemma replay_app es rest : forall mt m lsn n,
  mt_repr mt m -> Forall known_type es ->
  exists mt',
    replay (es ++ rest) mt lsn n
    = replay rest mt' lsn (n + Z.of_nat (length (unflushed lsn es))) /\
    mt_repr mt' (foldl apply_entry m (unflushed lsn es)).
Proof.
  induction es as [|e es IH]; intros mt m lsn n Hm Hk.
  - exists mt. simpl. by rewrite Z.add_0_r.
  - apply Forall_cons in Hk as [He Hk]. unfold unflushed.
    destruct (decide (lsn < we_seq e)) as [Hl|Hl].
    + rewrite filter_cons_True by done.
      destruct (replay_step e (es ++ rest) mt m lsn n Hm He Hl) as (mt1 & Heq & Hm1).
      cbn [app]. rewrite Heq.
      destruct (IH mt1 _ lsn (n + 1) Hm1 Hk) as (mt2 & -> & Hm2).
      exists mt2. split; [|done]. f_equal. unfold unflushed. cbn [length]. lia.
    + rewrite filter_cons_False by done. cbn [app replay].
      rewrite (proj2 (Z.leb_le _ _)) by lia. by apply IH.
Qed.

Lemma replay_known es mt m lsn :
  mt_repr mt m -> Forall known_type es ->
  exists mt', replay es mt lsn 0 = Some (Val (Z.of_nat (length (unflushed lsn es))), mt') /\
    mt_repr mt' (foldl apply_entry m (unflushed lsn es)).
Proof.
  intros Hm Hk. destruct (replay_app es [] mt m lsn 0 Hm Hk) as (mt' & Heq & Hm').
  rewrite app_nil_r in Heq. rewrite Heq. eauto.
Qed.

Lemma readable_known es : Forall readable es -> Forall known_type es.
Proof. intros H. eapply Forall_impl; [exact H|]. intros e [(_ & [?|[? _]] & _) _]; [by left|by right]. Qed.
End proofs.

Lemma append_nothing w path c :
  files w !! path = Some c -> append_file w path [] = w.
Proof.
  intros Hf. unfold append_file. rewrite Hf. cbn [default]. rewrite app_nil_r, insert_id by done.
  by destruct w.
Qed.

(** Opening and closing an existing log without faults changes nothing. *)
Lemma WAL_Open_same w path c :
  healthy w -> files w !! path = Some c ->
  exists wal, WAL_Open w path = (Val wal, w) /\ path_ wal = path /\ WAL_destroy w wal = w.
Proof.
  intros Hw Hf. unfold WAL_Open, fs_exists. rewrite Hf, ifs_open_healthy, Hf by done.
  rewrite ofs_open_app_healthy, (append_nothing _ _ _ Hf) by done.
  eexists. split; [done|]. split; [done|]. unfold WAL_destroy. cbn [write_file_].
  rewrite ofs_flush_healthy by done. cbn [snd]. by rewrite (append_nothing _ _ _ Hf).
Qed.

(** Recovery of a file from its parsed entries. *)
Lemma RecoverMemTable_replay {abi : Abi} w path c mt lsn :
  healthy w -> files w !! path = Some c ->
  RecoverMemTable w path mt lsn
  = match replay (parse_log c) mt lsn 0 with
    | Some (r, mt') => Some (r, mt', w)
    | None => None
    end.
Proof.
  intros Hw Hf. destruct (WAL_Open_same w path c Hw Hf) as (wal & Ho & Hp & Hd).
  unfold RecoverMemTable, fs_exists. rewrite Hf. cbn [negb]. rewrite Ho.
  unfold WAL_ReadAll. rewrite Hp, ifs_open_healthy, Hf, Hd by done. done.
Qed.

Lemma parse_log_serialized es e n :
  Forall readable es -> entry_ok e -> (n < length (SerializeEntry e))%nat ->
  parse_log (mjoin (SerializeEntry <$> es) ++ take n (SerializeEntry e)) = es.
Proof.
  intros Hes He Hn. rewrite SerializeEntry_log by auto using readable_ok.
  rewrite SerializeEntry_bytes in * by done. by rewrite parse_log_app, parse_log_torn, app_nil_r.
Qed.

(** * Properties *)

(** C20. Recovery refines the replay of the log: on a file holding the records of
    [es] and then any proper prefix of one more record, [RecoverMemTable]
    returns the number of entries newer than [last_flushed_lsn], leaves every
    file unchanged, and turns a memtable that represents [m] into one that
    represents [m] with exactly those entries applied in log order. *)
Theorem recovery_refines_replay {abi : Abi} (w : World) (path : str) (es : list WALEntry)
    (torn : WALEntry) (n : nat) (mt : MemTable) (m : gmap str SkipListValue) (last_flushed_lsn : Z)
    (Hw : healthy w)
    (Hfile : files w !! path = Some (mjoin (SerializeEntry <$> es) ++ take n (SerializeEntry torn)))
    (Hes : Forall readable es) (Htorn : entry_ok torn) (Hn : (n < length (SerializeEntry torn))%nat)
    (Hmt : mt_repr mt m) :
  exists mt',
    RecoverMemTable w path mt last_flushed_lsn
    = Some (Val (Z.of_nat (length (unflushed last_flushed_lsn es))), mt', w) /\
    mt_repr mt' (foldl apply_entry m (unflushed last_flushed_lsn es)).
Proof.
  rewrite (RecoverMemTable_replay _ _ _ _ _ Hw Hfile), parse_log_serialized by done.
  destruct (replay_known es mt m last_flushed_lsn Hmt (readable_known es Hes)) as (mt' & -> & ?).
  eauto.
Qed.

(** A log of two records and nine bytes of a third, recovered into an empty
    memtable with the first record already flushed. *)
Definition crashed_world : World :=
  mkWorld {[ lit "db.wal" := mjoin (SerializeEntry <$> [sample_put; sample_delete])
                             ++ take 9 (SerializeEntry sample_put) ]} [].

#[local] Existing Instance x86_64_libstdcxx.

Lemma recovery_refines_replay_witness :
  exists mt', RecoverMemTable crashed_world (lit "db.wal") MemTable_new 1 = Some (Val 1, mt', crashed_world) /\
    mt_repr mt' (foldl apply_entry ∅ (unflushed 1 [sample_put; sample_delete])).
Proof.
  apply (recovery_refines_replay crashed_world (lit "db.wal") [sample_put; sample_delete]
           sample_put 9 MemTable_new ∅ 1).
  - reflexivity.
  - apply lookup_insert_eq.
  - by_vm.
  - by_vm.
  - vm_compute. lia.
  - apply mt_new_repr.
Defined.

(** Recovery is idempotent: on any log without unknown entry types, running
    [RecoverMemTable] a second time into the recovered memtable (a crash during
    recovery, or recovery into a memtable that already holds the entries)
    yields a memtable with the same contents, whatever the file's tail. *)
Theorem recovery_idempotent {abi : Abi} (w : World) (path : str) (contents : bytes)
    (mt : MemTable) (m : gmap str SkipListValue) (last_flushed_lsn : Z)
    (Hw : healthy w) (Hfile : files w !! path = Some contents)
    (Hknown : Forall known_type (parse_log contents)) (Hmt : mt_repr mt m) :
  exists n mt1 mt2 m',
    RecoverMemTable w path mt last_flushed_lsn = Some (Val n, mt1, w) /\
    RecoverMemTable w path mt1 last_flushed_lsn = Some (Val n, mt2, w) /\
    mt_repr mt1 m' /\ mt_repr mt2 m'.
Proof.
  rewrite (RecoverMemTable_replay _ _ _ mt _ Hw Hfile).
  destruct (replay_known _ mt m last_flushed_lsn Hmt Hknown) as (mt1 & -> & Hm1).
  destruct (replay_known _ mt1 _ last_flushed_lsn Hm1 Hknown) as (mt2 & Heq & Hm2).
  rewrite apply_entries_idem in Hm2.
  do 4 eexists. split; [done|]. split; [|split; [exact Hm1|exact Hm2]].
  by rewrite (RecoverMemTable_replay _ _ _ mt1 _ Hw Hfile), Heq.
Qed.

Lemma recovery_idempotent_witness :
  exists n mt1 mt2 m',
    RecoverMemTable crashed_world (lit "db.wal") MemTable_new 0 = Some (Val n, mt1, crashed_world) /\
    RecoverMemTable crashed_world (lit "db.wal") mt1 0 = Some (Val n, mt2, crashed_world) /\
    mt_repr mt1 m' /\ mt_repr mt2 m'.
Proof.
  apply (recovery_idempotent crashed_world (lit "db.wal")
           (mjoin (SerializeEntry <$> [sample_put; sample_delete]) ++ take 9 (SerializeEntry sample_put))
           MemTable_new ∅ 0).
  - reflexivity.
  - apply lookup_insert_eq.
  - replace (parse_log _) with [sample_put; sample_delete] by (vm_compute; reflexivity).
    by repeat constructor.
  - apply mt_new_repr.
Defined.

(** An entry whose type is neither put nor delete is reported: when the log
    holds known entries followed by one of an unknown type that is not
    flushed, [RecoverMemTable] returns the corruption status, and the memtable
    holds the entries before it. *)
Theorem recovery_unknown_type {abi : Abi} (w : World) (path : str) (contents : bytes)
    (es rest : list WALEntry) (e : WALEntry) (mt : MemTable) (m : gmap str SkipListValue)
    (last_flushed_lsn : Z)
    (Hw : healthy w) (Hfile : files w !! path = Some contents)
    (Hparse : parse_log contents = es ++ e :: rest) (Hknown : Forall known_type es)
    (Hunknown : ~ known_type e) (Hlsn : last_flushed_lsn < we_seq e) (Hmt : mt_repr mt m) :
  exists mt',
    RecoverMemTable w path mt last_flushed_lsn
    = Some (Err (mkStatus kStorageCorruption (lit "Unknown WAL entry type during recovery")), mt', w) /\
    mt_repr mt' (foldl apply_entry m (unflushed last_flushed_lsn es)).
Proof.
  rewrite (RecoverMemTable_replay _ _ _ mt _ Hw Hfile), Hparse.
  destruct (replay_app es (e :: rest) mt m last_flushed_lsn 0 Hmt Hknown) as (mt' & -> & Hm').
  exists mt'. split; [|done]. cbn [replay]. rewrite (proj2 (Z.leb_gt _ _)) by lia.
  rewrite !bool_decide_false by (intros ?; apply Hunknown; unfold known_type; auto). done.
Qed.

Definition sample_unknown : WALEntry := mkWALEntry 2 Byte.x07 (lit "k") [].

Lemma recovery_unknown_type_witness :
  exists mt',
    RecoverMemTable (mkWorld {[ lit "db.wal" := mjoin (SerializeEntry <$> [sample_put; sample_unknown]) ]} [])
      (lit "db.wal") MemTable_new 0
    = Some (Err (mkStatus kStorageCorruption (lit "Unknown WAL entry type during recovery")), mt',
            mkWorld {[ lit "db.wal" := mjoin (SerializeEntry <$> [sample_put; sample_unknown]) ]} []) /\
    mt_repr mt' (foldl apply_entry ∅ (unflushed 0 [sample_put])).
Proof.
  apply (recovery_unknown_type _ (lit "db.wal")
           (mjoin (SerializeEntry <$> [sample_put; sample_unknown])) [sample_put] [] sample_unknown).
  - reflexivity.
  - apply lookup_insert_eq.
  - vm_compute. reflexivity.
  - by repeat constructor.
  - intros [H|H]; discriminate H.
  - reflexivity.
  - apply mt_new_repr.
Defined.
