(* ===== verification/Checkpoint.v ===== *)
(** * [CheckpointManager]: the manifest of live SSTables

    Models src/src/storage/checkpoint/checkpoint_manager.{h,cpp} and
    [SSTableMeta] of src/src/storage/compaction/leveled_compaction.h.  The
    [int] level is written as its 32-bit pattern and read back as a signed
    integer; the number of files is truncated to 32 bits by the call.

    The theorems: what was saved is what is loaded; for every schedule of I/O
    faults a failing save leaves the previous checkpoint in place. *)

From S2P Require Import Prelude Status BinarySerializer FileSystem.

Record SSTableMeta : Set := mkMeta {
  filepath : str;
  level : Z;
  smallest_key : str;
  largest_key : str;
  file_size_bytes : Z;
  sequence_number : Z
}.

#[export] Instance SSTableMeta_eq_dec : EqDecision SSTableMeta.
Proof. solve_decision. Defined.

Record Checkpoint : Set := mkCheckpoint {
  last_flushed_lsn : Z;
  sstables : list SSTableMeta
}.

Record CheckpointManager : Set := mkCheckpointManager {
  data_dir_ : str;
  checkpoint_path_ : str;
  temp_path_ : str
}.

Definition CheckpointManager_new (data_dir : str) : CheckpointManager :=
  mkCheckpointManager data_dir (data_dir ++ lit "/MANIFEST.checkpoint")
    (data_dir ++ lit "/MANIFEST.checkpoint.tmp").

(** ** Format *)

Definition WriteMeta (buffer : bytes) (meta : SSTableMeta) : bytes :=
  let buffer := WriteUint32 buffer (u32 (level meta)) in
  let buffer := WriteUint64 buffer (file_size_bytes meta) in
  let buffer := WriteUint64 buffer (sequence_number meta) in
  let buffer := WriteString buffer (smallest_key meta) in
  let buffer := WriteString buffer (largest_key meta) in
  WriteString buffer (filepath meta).

Definition SerializeCheckpoint (checkpoint : Checkpoint) : bytes :=
  let buffer := WriteUint64 [] (last_flushed_lsn checkpoint) in
  let buffer := WriteUint32 buffer (u32 (Z.of_nat (length (sstables checkpoint)))) in
  foldl WriteMeta buffer (sstables checkpoint).

Definition ReadMeta (buffer : bytes) (offset : nat) : ErrorOr (SSTableMeta * nat) :=
  let? (lvl, offset) := ReadUint32 buffer offset in
  let? (fs, offset) := ReadUint64 buffer offset in
  let? (sq, offset) := ReadUint64 buffer offset in
  let? (sk, offset) := ReadString buffer offset in
  let? (lk, offset) := ReadString buffer offset in
  let? (path, offset) := ReadString buffer offset in
  Val (mkMeta path (s32 lvl) sk lk fs sq, offset).

Fixpoint ReadMetas (buffer : bytes) (num_files : nat) (offset : nat) : ErrorOr (list SSTableMeta) :=
  match num_files with
  | O => Val []
  | S num_files =>
      let? (meta, offset) := ReadMeta buffer offset in
      let? metas := ReadMetas buffer num_files offset in
      Val (meta :: metas)
  end.

Definition ParseCheckpoint (buffer : bytes) : ErrorOr Checkpoint :=
  let? (lsn, offset) := ReadUint64 buffer 0 in
  let? (num_files, offset) := ReadUint32 buffer offset in
  let? metas := ReadMetas buffer (Z.to_nat num_files) offset in
  Val (mkCheckpoint lsn metas).

(** ** Saving and loading *)

Definition io_status (msg : str) : Status := mkStatus kStorageIoError msg.

Definition SaveCheckpoint (w : World) (cm : CheckpointManager) (checkpoint : Checkpoint) : Status * World :=
  let buffer := SerializeCheckpoint checkpoint in
  let '(out, w) := ofs_open_trunc w (temp_path_ cm) in
  match out with
  | None => (io_status (lit "Failed to open temp checkpoint file for writing: " ++ temp_path_ cm), w)
  | Some out =>
      let '(out, w) := ofs_write w out buffer in
      let '(out, w) := ofs_flush w out in
      if negb (os_good out)
      then (io_status (lit "Failed to write to temp checkpoint file: " ++ temp_path_ cm), w)
      else
        let '(renamed, w) := fs_rename w (temp_path_ cm) (checkpoint_path_ cm) in
        if negb renamed
        then (io_status (lit "Failed to atomically rename checkpoint file"), w)
        else (StatusOk, w)
  end.

Definition LoadCheckpoint (w : World) (cm : CheckpointManager) : ErrorOr Checkpoint * World :=
  if negb (fs_exists w (checkpoint_path_ cm)) then (Val (mkCheckpoint 0 []), w)
  else
    let '(in_, w) := ifs_open w (checkpoint_path_ cm) in
    match in_ with
    | None => (error kStorageIoError (lit "Failed to open checkpoint file"), w)
    | Some contents =>
        let '(read, w) := ifs_read w contents in
        match read with
        | None => (error kStorageIoError (lit "Failed to read checkpoint file"), w)
        | Some buffer => (ParseCheckpoint buffer, w)
        end
    end.

(** ** The format round trips *)

Definition meta_ok (m : SSTableMeta) : Prop :=
  - 2 ^ 31 <= level m < 2 ^ 31 /\ 0 <= file_size_bytes m < 2 ^ 64 /\
  0 <= sequence_number m < 2 ^ 64 /\ Z.of_nat (length (smallest_key m)) < 2 ^ 32 /\
  Z.of_nat (length (largest_key m)) < 2 ^ 32 /\ Z.of_nat (length (filepath m)) < 2 ^ 32.

Definition checkpoint_ok (c : Checkpoint) : Prop :=
  0 <= last_flushed_lsn c < 2 ^ 64 /\ Z.of_nat (length (sstables c)) < 2 ^ 32 /\
  Forall meta_ok (sstables c).

#[export] Instance meta_ok_dec m : Decision (meta_ok m).
Proof. unfold meta_ok. apply _. Defined.

#[export] Instance checkpoint_ok_dec c : Decision (checkpoint_ok c).
Proof. unfold checkpoint_ok. apply _. Defined.

Definition meta_bytes (m : SSTableMeta) : bytes :=
  le_bytes 4 (u32 (level m)) ++ le_bytes 8 (file_size_bytes m) ++ le_bytes 8 (sequence_number m) ++
  string_bytes (smallest_key m) ++ string_bytes (largest_key m) ++ string_bytes (filepath m).

Lemma WriteMeta_bytes buffer m : meta_ok m -> WriteMeta buffer m = buffer ++ meta_bytes m.
Proof.
  intros (_ & _ & _ & Hs & Hl & Hf). unfold WriteMeta, WriteUint64, WriteUint32, meta_bytes.
  rewrite !WriteString_bytes by done. by rewrite <-!app_assoc.
Qed.

Lemma WriteMetas_bytes ms : forall buffer,
  Forall meta_ok ms -> foldl WriteMeta buffer ms = buffer ++ mjoin (meta_bytes <$> ms).
Proof.
  induction ms as [|m ms IH]; intros buffer Hok; [by rewrite app_nil_r|].
  apply Forall_cons in Hok as [Hm Hok]. cbn [foldl]. rewrite WriteMeta_bytes, IH by done.
  rewrite fmap_cons. change (mjoin (?a :: ?b)) with (a ++ mjoin b). by rewrite app_assoc.
Qed.

(** Peel one field off a buffer in the shape [pre ++ field ++ post]. *)
Ltac read_field field :=
  first [ rewrite ReadUint32_app by (autorewrite with vdb_len; auto with vdb; lia)
        | rewrite ReadUint64_app by (autorewrite with vdb_len; auto with vdb; lia)
        | rewrite ReadString_app by (autorewrite with vdb_len; auto with vdb; lia) ];
  cbn beta iota; rewrite (app_assoc _ field).

Lemma ReadMeta_app pre m post offset :
  offset = length pre -> meta_ok m ->
  ReadMeta (pre ++ meta_bytes m ++ post) offset = Val (m, (offset + length (meta_bytes m))%nat).
Proof.
  intros -> (Hlv & Hfs & Hsq & Hs & Hl & Hf). unfold ReadMeta, meta_bytes. rewrite <-!app_assoc.
  pose proof (u32_range (level m)).
  read_field (le_bytes 4 (u32 (level m))).
  read_field (le_bytes 8 (file_size_bytes m)).
  read_field (le_bytes 8 (sequence_number m)).
  read_field (string_bytes (smallest_key m)).
  read_field (string_bytes (largest_key m)).
  rewrite ReadString_app by (autorewrite with vdb_len; lia).
  rewrite s32_u32, s32_small by done. destruct m; cbn. autorewrite with vdb_len. do 2 f_equal. lia.
Qed.

Lemma ReadMetas_app ms : forall pre post offset,
  offset = length pre -> Forall meta_ok ms ->
  ReadMetas (pre ++ mjoin (meta_bytes <$> ms) ++ post) (length ms) offset = Val ms.
Proof.
  induction ms as [|m ms IH]; intros pre post offset Ho Hok; [done|].
  apply Forall_cons in Hok as [Hm Hok]. rewrite fmap_cons.
  change (mjoin (?a :: ?b)) with (a ++ mjoin b). rewrite <-app_assoc.
  cbn [length ReadMetas]. rewrite ReadMeta_app by done.
  rewrite app_assoc, IH; [done| |done]. autorewrite with vdb_len. lia.
Qed.

Lemma ParseCheckpoint_Serialize c post :
  checkpoint_ok c -> ParseCheckpoint (SerializeCheckpoint c ++ post) = Val c.
Proof.
  intros (Hl & Hn & Hok). unfold SerializeCheckpoint, WriteUint64, WriteUint32.
  rewrite WriteMetas_bytes, u32_small by (done || lia). rewrite <-!app_assoc. cbn [app].
  unfold ParseCheckpoint.
  pose proof (ReadUint64_app [] (last_flushed_lsn c)) as HR. cbn [app] in HR.
  rewrite HR by done. rewrite ReadUint32_app by (autorewrite with vdb_len; lia).
  rewrite (app_assoc (le_bytes 8 _)), Nat2Z.id.
  rewrite ReadMetas_app; [by destruct c| |done]. autorewrite with vdb_len. lia.
Qed.

(** ** Writing the temporary file *)

Lemma paths_differ dir :
  temp_path_ (CheckpointManager_new dir) <> checkpoint_path_ (CheckpointManager_new dir).
Proof.
  cbn. intros H. apply (f_equal (@length byte)) in H. rewrite !length_app in H. cbn in H. lia.
Qed.

(** Whatever fails: after opening, writing and flushing, only the temporary
    file can have changed, and it is complete when the stream is good. *)
Lemma write_temp w path buffer :
  match ofs_open_trunc w path with
  | (None, w1) => files w1 = files w
  | (Some out, w1) =>
      let '(out, w2) := ofs_write w1 out buffer in
      let '(out, w3) := ofs_flush w2 out in
      (forall p, p <> path -> files w3 !! p = files w !! p) /\
      (os_good out = true -> files w3 !! path = Some buffer)
  end.
Proof.
  unfold ofs_open_trunc. destruct (next_fault w) as [f w1] eqn:E1.
  apply next_fault_files in E1. destruct f; [|done].
  unfold ofs_write. cbn [os_good os_path os_buf].
  destruct (next_fault _) as [f w2] eqn:E2. apply next_fault_files in E2. destruct f.
  - unfold ofs_flush. cbn [os_good os_path os_buf].
    destruct (next_fault w2) as [f w3] eqn:E3. apply next_fault_files in E3.
    destruct f; cbn [app os_good]; (split; [intros p Hp; rewrite append_file_other, E3, E2 by done;
      cbn [files]; by rewrite lookup_insert_ne, E1|]); [intros _|done].
    rewrite append_file_lookup, E3, E2. cbn [files]. by rewrite lookup_insert_eq.
  - unfold ofs_flush. cbn [os_good]. split; [|done]. intros p Hp.
    rewrite append_file_other, E2 by done. cbn [files]. by rewrite lookup_insert_ne, E1.
Qed.

Lemma fs_rename_spec w old new :
  match fs_rename w old new with
  | (false, w') => files w' = files w
  | (true, w') => exists c, files w !! old = Some c /\ files w' = <[new := c]> (delete old (files w))
  end.
Proof.
  unfold fs_rename. destruct (next_fault w) as [f w1] eqn:E. apply next_fault_files in E.
  destruct f; [|done]. rewrite E. destruct (files w !! old) as [c|] eqn:Ho; [|done]. eauto.
Qed.

(** Without faults: saved, and nothing else changes. *)
Lemma SaveCheckpoint_healthy w dir c :
  healthy w ->
  exists w', SaveCheckpoint w (CheckpointManager_new dir) c = (StatusOk, w') /\ healthy w' /\
    files w' !! checkpoint_path_ (CheckpointManager_new dir) = Some (SerializeCheckpoint c) /\
    (forall p, p <> checkpoint_path_ (CheckpointManager_new dir) -> p <> temp_path_ (CheckpointManager_new dir) ->
       files w' !! p = files w !! p).
Proof.
  set (cm := CheckpointManager_new dir). intros Hw. unfold SaveCheckpoint.
  rewrite ofs_open_trunc_healthy, ofs_write_healthy by done. rewrite ofs_flush_healthy by done.
  cbn [os_good negb app]. unfold fs_rename. rewrite next_fault_healthy by done.
  rewrite append_file_lookup. cbn [files]. rewrite lookup_insert_eq. cbn [default id app negb].
  eexists. split; [done|]. split; [done|]. cbn [files]. split; [apply lookup_insert_eq|].
  intros p H1 H2. rewrite lookup_insert_ne, lookup_delete_ne by done.
  rewrite append_file_other by done. by apply lookup_insert_ne.
Qed.

Lemma LoadCheckpoint_healthy w dir :
  healthy w ->
  LoadCheckpoint w (CheckpointManager_new dir)
  = (match files w !! checkpoint_path_ (CheckpointManager_new dir) with
     | None => Val (mkCheckpoint 0 [])
     | Some c => ParseCheckpoint c
     end, w).
Proof.
  intros Hw. unfold LoadCheckpoint, fs_exists. destruct (files w !! _) as [c|] eqn:E; [|done]. cbn [negb].
  by rewrite ifs_open_healthy, E, ifs_read_healthy by done.
Qed.

(** Whatever fails, the checkpoint is the old or the new one. *)
Lemma SaveCheckpoint_atomic (w : World) (data_dir : str) (checkpoint : Checkpoint) :
  let cm := CheckpointManager_new data_dir in
  let '(s, w') := SaveCheckpoint w cm checkpoint in
  files w' !! checkpoint_path_ cm
  = (if IsOk s then Some (SerializeCheckpoint checkpoint) else files w !! checkpoint_path_ cm) /\
  (forall p, p <> checkpoint_path_ cm -> p <> temp_path_ cm -> files w' !! p = files w !! p).
Proof.
  intros cm. pose proof (paths_differ data_dir) as Hne. fold cm in Hne.
  unfold SaveCheckpoint. pose proof (write_temp w (temp_path_ cm) (SerializeCheckpoint checkpoint)) as Hw.
  destruct (ofs_open_trunc w (temp_path_ cm)) as [[out|] w1]; [|by rewrite Hw].
  destruct (ofs_write w1 out _) as [out2 w2]. destruct (ofs_flush w2 out2) as [out3 w3].
  destruct Hw as [Hother Hgood]. destruct (os_good out3); cbn [negb].
  - pose proof (fs_rename_spec w3 (temp_path_ cm) (checkpoint_path_ cm)) as Hr.
    destruct (fs_rename w3 _ _) as [[] w4]; cbn [negb].
    + destruct Hr as (c & Hc & ->). rewrite Hgood in Hc by done. injection Hc as <-.
      split; [by rewrite lookup_insert_eq|].
      intros p H1 H2. rewrite lookup_insert_ne, lookup_delete_ne by done. by apply Hother.
    + rewrite Hr. split; [by apply Hother|]. intros. by apply Hother.
  - split; [by apply Hother|]. intros. by apply Hother.
Qed.

(** * Properties *)

(** C22. Atomicity of a checkpoint: for every state of the file system and every
    schedule of I/O faults, [SaveCheckpoint] either reports success and the
    checkpoint file holds exactly the new serialization, or reports an error
    and the checkpoint file is what it was; no file other than the checkpoint
    and its temporary file is touched. *)
Theorem checkpoint_save_atomic (w : World) (data_dir : str) (checkpoint : Checkpoint) :
  let cm := CheckpointManager_new data_dir in
  let '(s, w') := SaveCheckpoint w cm checkpoint in
  files w' !! checkpoint_path_ cm
  = (if IsOk s then Some (SerializeCheckpoint checkpoint) else files w !! checkpoint_path_ cm) /\
  (forall p, p <> checkpoint_path_ cm -> p <> temp_path_ cm -> files w' !! p = files w !! p).
Proof. apply SaveCheckpoint_atomic. Qed.

(** Checkpoint round trip: in a world without faults a checkpoint whose
    fields fit their formats is saved with status Ok, and loading it again
    returns the same last flushed LSN and the same catalogue in the same
    order. *)
Theorem checkpoint_roundtrip (w : World) (data_dir : str) (checkpoint : Checkpoint)
    (Hw : healthy w) (Hok : checkpoint_ok checkpoint) :
  exists w',
    SaveCheckpoint w (CheckpointManager_new data_dir) checkpoint = (StatusOk, w') /\
    LoadCheckpoint w' (CheckpointManager_new data_dir) = (Val checkpoint, w').
Proof.
  destruct (SaveCheckpoint_healthy w data_dir checkpoint Hw) as (w' & Hsave & Hw' & Hf & _).
  exists w'. split; [done|]. rewrite LoadCheckpoint_healthy, Hf by done.
  pose proof (ParseCheckpoint_Serialize checkpoint [] Hok) as Hparse.
  rewrite app_nil_r in Hparse. by rewrite Hparse.
Qed.

Definition sample_checkpoint : Checkpoint :=
  mkCheckpoint 7 [mkMeta (lit "/d/level0_1.sst") 0 (lit "a") (lit "m") 120 1;
                  mkMeta (lit "/d/level1_2.sst") 1 (lit "a") (lit "z") 4000 2].

Lemma checkpoint_roundtrip_witness :
  exists w',
    SaveCheckpoint (mkWorld ∅ []) (CheckpointManager_new (lit "/d")) sample_checkpoint = (StatusOk, w') /\
    LoadCheckpoint w' (CheckpointManager_new (lit "/d")) = (Val sample_checkpoint, w').
Proof.
  apply (checkpoint_roundtrip (mkWorld ∅ []) (lit "/d") sample_checkpoint).
  - reflexivity.
  - by_vm.
Defined.
