(* ===== verification/BloomFilter.v ===== *)
(** * [BloomFilter]

    Models src/src/storage/sstable/bloom_filter.{h,cpp}.  [None] is an access
    outside [bits_] or a remainder by zero, which the source does not check;
    a filter made by the sizing constructor never reaches it.

    The number of hash functions is [round(log(2.0) * bits_per_key)], clamped
    to 1..30.  [ln2_num / 2^53] is the [double] nearest to ln 2; for every
    [bits_per_key] whose result is not clamped (at most 44) the product is
    further from a half-integer than the rounding error of one
    multiplication, so the rounding of the exact product is the value the
    source computes. *)

From S2P Require Import Prelude.

Record BloomFilter : Set := mkBloomFilter {
  bits_ : bytes;
  num_bits_ : Z;
  num_hash_functions_ : Z
}.

Definition ln2_num : Z := 6243314768165359.

Definition BloomFilter_new (expected_keys bits_per_key : Z) : BloomFilter :=
  let num_bits := Z.max (u64 (expected_keys * bits_per_key)) 64 in
  let num_bytes := u64 (num_bits + 7) / 8 in
  let num_hash_functions := (2 * ln2_num * bits_per_key + 2 ^ 53) / 2 ^ 54 in
  mkBloomFilter (replicate (Z.to_nat num_bytes) Byte.x00) (u64 (num_bytes * 8))
    (Z.max 1 (Z.min num_hash_functions 30)).

Definition HashKey (key : str) (seed : Z) : Z :=
  foldl (fun hash c => u32 (Z.lxor hash (Z_of_byte c) * 16777619)) (Z.lxor 2166136261 seed) key.

(** [(h1 + i * h2) % num_bits_], in [uint32_t] before the remainder. *)
Definition bit_position (h1 h2 num_bits i : Z) : option Z :=
  if num_bits =? 0 then None else Some (u32 (h1 + u32 (i * h2)) mod num_bits).

(** The loop of [Add]: [n] probes left, the next one being [i]. *)
Fixpoint Add_probes (n : nat) (i h1 h2 num_bits : Z) (bits : bytes) : option bytes :=
  match n with
  | O => Some bits
  | S n' =>
      match bit_position h1 h2 num_bits i with
      | None => None
      | Some bit_pos =>
          let idx := Z.to_nat (bit_pos / 8) in
          match bits !! idx with
          | None => None
          | Some b =>
              let b := byte_of_Z (Z.lor (Z_of_byte b) (Z.shiftl 1 (bit_pos mod 8))) in
              Add_probes n' (i + 1) h1 h2 num_bits (<[idx := b]> bits)
          end
      end
  end.

(** The loop of [MayContain]. *)
Fixpoint MayContain_probes (n : nat) (i h1 h2 num_bits : Z) (bits : bytes) : option bool :=
  match n with
  | O => Some true
  | S n' =>
      match bit_position h1 h2 num_bits i with
      | None => None
      | Some bit_pos =>
          match bits !! Z.to_nat (bit_pos / 8) with
          | None => None
          | Some b =>
              if Z.land (Z_of_byte b) (Z.shiftl 1 (bit_pos mod 8)) =? 0 then Some false
              else MayContain_probes n' (i + 1) h1 h2 num_bits bits
          end
      end
  end.

Definition BloomFilter_Add (bf : BloomFilter) (key : str) : option BloomFilter :=
  let h1 := HashKey key 0xbc9f1d34 in
  let h2 := HashKey key 0x9747b28c in
  match Add_probes (Z.to_nat (num_hash_functions_ bf)) 0 h1 h2 (num_bits_ bf) (bits_ bf) with
  | Some bits => Some (mkBloomFilter bits (num_bits_ bf) (num_hash_functions_ bf))
  | None => None
  end.

Definition MayContain (bf : BloomFilter) (key : str) : option bool :=
  let h1 := HashKey key 0xbc9f1d34 in
  let h2 := HashKey key 0x9747b28c in
  MayContain_probes (Z.to_nat (num_hash_functions_ bf)) 0 h1 h2 (num_bits_ bf) (bits_ bf).

(** [bloom.Add] for each key in turn. *)
Fixpoint Add_all (bf : BloomFilter) (keys : list str) : option BloomFilter :=
  match keys with
  | [] => Some bf
  | key :: keys => match BloomFilter_Add bf key with Some bf => Add_all bf keys | None => None end
  end.

#[global] Arguments HashKey : simpl never.
#[global] Arguments bit_position : simpl never.

(** ** Well-formed filters *)

(** Every bit position is inside the array. *)
Definition bloom_wf (bf : BloomFilter) : Prop :=
  0 < num_bits_ bf <= 8 * Z.of_nat (length (bits_ bf)).

(** [n] keys make a filter of at least 64 bits, rounded up to bytes. *)
Lemma bloom_new_wf n k :
  0 <= n * k < 2 ^ 64 - 7 -> bloom_wf (BloomFilter_new n k) /\
  num_bits_ (BloomFilter_new n k) = 8 * Z.of_nat (length (bits_ (BloomFilter_new n k))) /\
  64 <= num_bits_ (BloomFilter_new n k) <= Z.max (n * k) 64 + 7.
Proof.
  intros H. unfold bloom_wf, BloomFilter_new. cbn [bits_ num_bits_].
  rewrite length_replicate, (u64_small (n * k)), (u64_small (Z.max _ _ + 7)) by lia.
  assert (64 <= Z.max (n * k) 64 < 2 ^ 64 - 7) by lia.
  pose proof (Z.mod_pos_bound (Z.max (n * k) 64 + 7) 8 ltac:(lia)).
  pose proof (Z.div_mod (Z.max (n * k) 64 + 7) 8 ltac:(lia)).
  rewrite u64_small by lia. lia.
Qed.

(** Bit [p] of the array. *)
Definition bit_at (bits : bytes) (p : Z) : bool :=
  match bits !! Z.to_nat (p / 8) with
  | Some b => Z.testbit (Z_of_byte b) (p mod 8)
  | None => false
  end.

Lemma test_bit x k : 0 <= k -> (Z.land x (Z.shiftl 1 k) =? 0) = negb (Z.testbit x k).
Proof.
  intros Hk. rewrite Z.shiftl_1_l. destruct (Z.testbit x k) eqn:E; cbn [negb].
  - apply Z.eqb_neq. intros H. apply (f_equal (fun z => Z.testbit z k)) in H.
    by rewrite Z.land_spec, E, Z.pow2_bits_true, Z.bits_0 in H.
  - apply Z.eqb_eq, Z.bits_inj'. intros i Hi. rewrite Z.land_spec, Z.bits_0.
    destruct (decide (i = k)) as [->|Hne]; [by rewrite E|].
    by rewrite Z.pow2_bits_false, andb_false_r by lia.
Qed.

(** Setting bit [k] of a byte. *)
Lemma set_bit b k i :
  0 <= k < 8 -> 0 <= i < 8 ->
  Z.testbit (Z_of_byte (byte_of_Z (Z.lor (Z_of_byte b) (Z.shiftl 1 k)))) i
  = Z.testbit (Z_of_byte b) i || (i =? k).
Proof.
  intros Hk Hi. rewrite Z_of_byte_of_Z. change 256 with (2 ^ 8).
  rewrite Z.mod_pow2_bits_low, Z.lor_spec, Z.shiftl_1_l by lia. f_equal.
  destruct (Z.eqb_spec i k) as [->|Hne]; [apply Z.pow2_bits_true; lia|apply Z.pow2_bits_false; lia].
Qed.

Lemma set_bit_at bits p q b :
  0 <= p -> 0 <= q -> bits !! Z.to_nat (p / 8) = Some b ->
  bit_at (<[Z.to_nat (p / 8) := byte_of_Z (Z.lor (Z_of_byte b) (Z.shiftl 1 (p mod 8)))]> bits) q
  = bit_at bits q || (q =? p).
Proof.
  intros Hp Hq Hb. unfold bit_at.
  pose proof (Z.div_mod p 8 ltac:(lia)). pose proof (Z.div_mod q 8 ltac:(lia)).
  pose proof (Z.mod_pos_bound p 8 ltac:(lia)). pose proof (Z.mod_pos_bound q 8 ltac:(lia)).
  pose proof (Z.div_pos p 8 Hp ltac:(lia)). pose proof (Z.div_pos q 8 Hq ltac:(lia)).
  destruct (decide (q / 8 = p / 8)) as [E|E].
  - rewrite E, list_lookup_insert_eq, Hb by (by eapply lookup_lt_Some).
    rewrite set_bit by done. f_equal.
    destruct (Z.eqb_spec (q mod 8) (p mod 8)), (Z.eqb_spec q p); try done; exfalso; lia.
  - rewrite list_lookup_insert_ne by lia.
    destruct (Z.eqb_spec q p) as [->|]; [done|]. by rewrite orb_false_r.
Qed.

(** The positions [Add] sets and [MayContain] tests. *)
Definition probe (h1 h2 num_bits i : Z) : Z := u32 (h1 + u32 (i * h2)) mod num_bits.

Lemma bit_position_probe h1 h2 m i : 0 < m -> bit_position h1 h2 m i = Some (probe h1 h2 m i).
Proof. intros Hm. unfold bit_position. by rewrite (proj2 (Z.eqb_neq _ _)) by lia. Qed.

Lemma probe_range h1 h2 m i : 0 < m -> 0 <= probe h1 h2 m i < m.
Proof. intros. by apply Z.mod_pos_bound. Qed.

Lemma probe_inside h1 h2 m i (bits : bytes) :
  0 < m <= 8 * Z.of_nat (length bits) -> exists b, bits !! Z.to_nat (probe h1 h2 m i / 8) = Some b.
Proof.
  intros Hm. pose proof (probe_range h1 h2 m i ltac:(lia)). apply lookup_lt_is_Some_2.
  assert (probe h1 h2 m i / 8 < Z.of_nat (length bits)) by (apply Z.div_lt_upper_bound; lia).
  pose proof (Z.div_pos (probe h1 h2 m i) 8). lia.
Qed.

Lemma Add_probes_spec h1 h2 m n : forall i bits,
  0 < m <= 8 * Z.of_nat (length bits) ->
  exists bits', Add_probes n i h1 h2 m bits = Some bits' /\ length bits' = length bits /\
    (forall q, 0 <= q -> bit_at bits' q = true <->
       bit_at bits q = true \/ exists j, i <= j < i + Z.of_nat n /\ q = probe h1 h2 m j).
Proof.
  induction n as [|n IH]; intros i bits Hm; cbn [Add_probes].
  - exists bits. split; [done|]. split; [done|]. intros q Hq. split; [auto|].
    intros [?|(j & ? & _)]; [done|lia].
  - rewrite bit_position_probe by lia. destruct (probe_inside h1 h2 m i bits Hm) as [b Hb].
    rewrite Hb.
    edestruct IH as (bits' & -> & Hlen & Hbits); [rewrite length_insert; exact Hm|].
    eexists. split; [done|]. rewrite length_insert in Hlen. split; [done|].
    intros q Hq. rewrite Hbits by done. pose proof (probe_range h1 h2 m i ltac:(lia)).
    rewrite set_bit_at, orb_true_iff, Z.eqb_eq by (lia || done). split.
    + intros [[? | -> ] |(j & ? & ->)]; [auto|right; exists i; split; [lia|done]|].
      right; exists j; split; [lia|done].
    + intros [?|(j & Hj & ->)]; [auto|]. destruct (decide (j = i)) as [->|]; [auto|].
      right; exists j; split; [lia|done].
Qed.

Lemma MayContain_probes_spec h1 h2 m n : forall i bits,
  0 < m <= 8 * Z.of_nat (length bits) ->
  exists r, MayContain_probes n i h1 h2 m bits = Some r /\
    (r = true <-> forall j, i <= j < i + Z.of_nat n -> bit_at bits (probe h1 h2 m j) = true).
Proof.
  induction n as [|n IH]; intros i bits Hm; cbn [MayContain_probes].
  - exists true. split; [done|]. split; [|done]. intros _ j ?. lia.
  - rewrite bit_position_probe by lia. destruct (probe_inside h1 h2 m i bits Hm) as [b Hb].
    rewrite Hb. rewrite test_bit by (apply Z.mod_pos_bound; lia).
    assert (bit_at bits (probe h1 h2 m i) = Z.testbit (Z_of_byte b) (probe h1 h2 m i mod 8)) as Hi.
    { unfold bit_at. by rewrite Hb. }
    destruct (Z.testbit _ _) eqn:E; cbn [negb].
    + destruct (IH (i + 1) bits Hm) as (r & -> & Hr). exists r. split; [done|]. rewrite Hr. split.
      * intros H j Hj. destruct (decide (j = i)) as [->|]; [done|]. apply H. lia.
      * intros H j Hj. apply H. lia.
    + exists false. split; [done|]. split; [done|]. intros H. rewrite H in Hi by lia. done.
Qed.

(** [Add] and [MayContain] on a well-formed filter. *)
Lemma Add_spec bf key :
  bloom_wf bf ->
  exists bf', BloomFilter_Add bf key = Some bf' /\ bloom_wf bf' /\
    num_bits_ bf' = num_bits_ bf /\ num_hash_functions_ bf' = num_hash_functions_ bf /\
    length (bits_ bf') = length (bits_ bf) /\
    MayContain bf' key = Some true /\
    (forall k, MayContain bf k = Some true -> MayContain bf' k = Some true).
Proof.
  intros Hwf. unfold BloomFilter_Add.
  destruct (Add_probes_spec (HashKey key 0xbc9f1d34) (HashKey key 0x9747b28c) (num_bits_ bf)
              (Z.to_nat (num_hash_functions_ bf)) 0 (bits_ bf) Hwf) as (bits' & -> & Hlen & Hbits).
  eexists. split; [done|]. unfold bloom_wf, MayContain in *. cbn [bits_ num_bits_ num_hash_functions_].
  rewrite Hlen. do 4 (split; [done|]). split.
  - destruct (MayContain_probes_spec (HashKey key 0xbc9f1d34) (HashKey key 0x9747b28c) (num_bits_ bf)
      (Z.to_nat (num_hash_functions_ bf)) 0 bits' ltac:(by rewrite Hlen)) as (r & -> & Hr).
    f_equal. apply Hr. intros j Hj. apply Hbits; [apply probe_range; lia|]. right. eauto.
  - intros k Hk.
    destruct (MayContain_probes_spec (HashKey k 0xbc9f1d34) (HashKey k 0x9747b28c) (num_bits_ bf)
      (Z.to_nat (num_hash_functions_ bf)) 0 (bits_ bf) Hwf) as (r0 & Hr0 & Hold).
    destruct (MayContain_probes_spec (HashKey k 0xbc9f1d34) (HashKey k 0x9747b28c) (num_bits_ bf)
      (Z.to_nat (num_hash_functions_ bf)) 0 bits' ltac:(by rewrite Hlen)) as (r & -> & Hr).
    f_equal. apply Hr. intros j Hj. apply Hbits; [apply probe_range; lia|]. left.
    rewrite Hr0 in Hk. injection Hk as ->. by apply Hold.
Qed.

Lemma MayContain_total bf key : bloom_wf bf -> exists r, MayContain bf key = Some r.
Proof.
  intros Hwf. destruct (MayContain_probes_spec (HashKey key 0xbc9f1d34) (HashKey key 0x9747b28c)
    (num_bits_ bf) (Z.to_nat (num_hash_functions_ bf)) 0 (bits_ bf) Hwf) as (r & Hr & _). eauto.
Qed.

Lemma Add_all_spec keys : forall bf,
  bloom_wf bf ->
  exists bf', Add_all bf keys = Some bf' /\ bloom_wf bf' /\
    num_bits_ bf' = num_bits_ bf /\ num_hash_functions_ bf' = num_hash_functions_ bf /\
    length (bits_ bf') = length (bits_ bf) /\
    (forall k, k ∈ keys \/ MayContain bf k = Some true -> MayContain bf' k = Some true).
Proof.
  induction keys as [|key keys IH]; intros bf Hwf; cbn [Add_all].
  - exists bf. split_and!; try done. intros k [Hk|Hk]; [by apply not_elem_of_nil in Hk|done].
  - destruct (Add_spec bf key Hwf) as (bf1 & -> & Hwf1 & Hn1 & Hh1 & Hl1 & Hkey & Hmono).
    destruct (IH bf1 Hwf1) as (bf2 & -> & Hwf2 & Hn2 & Hh2 & Hl2 & Hall).
    exists bf2. split_and!; try done; try congruence.
    intros k Hk. apply Hall. rewrite elem_of_cons in Hk. naive_solver.
Qed.

(** * Properties *)

(** C24. No false negatives: a filter sized for [n] keys at [bits_per_key] bits
    accepts every key that was added to it, in whatever order and however many
    were added; no operation accesses a byte outside the array; and a lookup
    of any key is answered. *)
Theorem bloom_no_false_negatives (n bits_per_key : Z) (keys : list str)
    (Hsize : 0 <= n * bits_per_key < 2 ^ 64 - 7) :
  exists bf, Add_all (BloomFilter_new n bits_per_key) keys = Some bf /\
    (forall key, key ∈ keys -> MayContain bf key = Some true) /\
    (forall key, exists r, MayContain bf key = Some r) /\
    num_bits_ bf = 8 * Z.of_nat (length (bits_ bf)) /\ 1 <= num_hash_functions_ bf <= 30.
Proof.
  destruct (bloom_new_wf n bits_per_key Hsize) as (Hwf & Hn & _).
  destruct (Add_all_spec keys _ Hwf) as (bf & -> & Hwf' & Hn' & Hh & Hl & Hall).
  exists bf. split_and!; auto using MayContain_total.
  - by rewrite Hn', Hn, Hl.
  - rewrite Hh. cbn [BloomFilter_new num_hash_functions_]. lia.
  - rewrite Hh. cbn [BloomFilter_new num_hash_functions_]. lia.
Qed.

Lemma bloom_no_false_negatives_witness :
  exists bf, Add_all (BloomFilter_new 2 10) [lit "a"; lit "b"] = Some bf /\
    (forall key, key ∈ [lit "a"; lit "b"] -> MayContain bf key = Some true) /\
    (forall key, exists r, MayContain bf key = Some r) /\
    num_bits_ bf = 8 * Z.of_nat (length (bits_ bf)) /\ 1 <= num_hash_functions_ bf <= 30.
Proof. apply (bloom_no_false_negatives 2 10 [lit "a"; lit "b"]). lia. Defined.

(** Ten bits per key give seven hash functions. *)
Example hash_functions_10 : num_hash_functions_ (BloomFilter_new 100 10) = 7.
Proof. reflexivity. Qed.

(** An empty filter rejects, so the filter is not constantly true. *)
Example empty_filter_rejects : MayContain (BloomFilter_new 2 10) (lit "a") = Some false.
Proof. reflexivity. Qed.
