(* ===== verification/Block.v ===== *)
(** * [Block]: a data block of an SSTable

    Models src/src/storage/sstable/block.{h,cpp}.  [Block_Get] is the binary
    search of the source on [int] indices, with a fuel of one more than the
    number of entries (each iteration shrinks the interval); [None] is an
    access outside the vector or exhausted fuel, and [Get_sorted] shows that
    neither happens.  [Deserialize] adds the encoded size of an entry it has
    just moved from, which with libstdc++ is empty: nine bytes per entry. *)

From S2P Require Import Prelude Status BinarySerializer.

Definition kTargetBlockSize : Z := 4096.

Record BlockEntry : Set := mkBlockEntry {
  be_key : str;
  be_value : bytes;
  be_is_tombstone : bool
}.

#[export] Instance BlockEntry_eq_dec : EqDecision BlockEntry.
Proof. solve_decision. Defined.

Definition EncodedSize (e : BlockEntry) : Z :=
  4 + Z.of_nat (length (be_key e)) + 4 + Z.of_nat (length (be_value e)) + 1.

Record Block : Set := mkBlock { entries_ : list BlockEntry; current_size_ : Z }.

Definition Block_new : Block := mkBlock [] 4.

Definition Block_IsEmpty (b : Block) : bool :=
  match entries_ b with [] => true | _ :: _ => false end.

Definition EntryCount (b : Block) : Z := Z.of_nat (length (entries_ b)).

Definition Block_Add (b : Block) (entry : BlockEntry) : bool * Block :=
  let entry_size := EncodedSize entry in
  if negb (Block_IsEmpty b) && (kTargetBlockSize <? current_size_ b + entry_size)
  then (false, b)
  else (true, mkBlock (entries_ b ++ [entry]) (current_size_ b + entry_size)).

Definition LastKey (b : Block) : str :=
  match last (entries_ b) with None => [] | Some e => be_key e end.

Definition WriteBlockEntry (buffer : bytes) (e : BlockEntry) : bytes :=
  let buffer := WriteUint32 buffer (u32 (Z.of_nat (length (be_key e)))) in
  let buffer := buffer ++ be_key e in
  let buffer := WriteUint32 buffer (u32 (Z.of_nat (length (be_value e)))) in
  let buffer := buffer ++ be_value e in
  buffer ++ [if be_is_tombstone e then Byte.x01 else Byte.x00].

Definition Block_Serialize (b : Block) : bytes :=
  let buffer := WriteUint32 [] (u32 (Z.of_nat (length (entries_ b)))) in
  foldl WriteBlockEntry buffer (entries_ b).

Definition ReadBlockEntry (data : bytes) (offset : nat) : ErrorOr (BlockEntry * nat) :=
  let? (key_len, offset) := ReadUint32 data offset in
  let key_len := Z.to_nat key_len in
  if (length data <? offset + key_len)%nat
  then error kStorageCorruption (lit "Block key extends past data")
  else
    let key := slice data offset key_len in
    let offset := (offset + key_len)%nat in
    let? (val_len, offset) := ReadUint32 data offset in
    let val_len := Z.to_nat val_len in
    if (length data <? offset + val_len)%nat
    then error kStorageCorruption (lit "Block value extends past data")
    else
      let value := slice data offset val_len in
      let offset := (offset + val_len)%nat in
      match data !! offset with
      | None => error kStorageCorruption (lit "Block tombstone flag missing")
      | Some flag => Val (mkBlockEntry key value (bool_decide (flag <> Byte.x00)), S offset)
      end.

(** The encoded size of a moved-from entry. *)
Definition moved_from_size : Z := EncodedSize (mkBlockEntry [] [] false).

Fixpoint ReadBlockEntries (data : bytes) (num_entries : nat) (offset : nat) (block : Block) : ErrorOr Block :=
  match num_entries with
  | O => Val block
  | S num_entries =>
      let? (entry, offset) := ReadBlockEntry data offset in
      ReadBlockEntries data num_entries offset
        (mkBlock (entries_ block ++ [entry]) (current_size_ block + moved_from_size))
  end.

Definition Block_Deserialize (data : bytes) : ErrorOr Block :=
  let? (num_entries, offset) := ReadUint32 data 0 in
  ReadBlockEntries data (Z.to_nat num_entries) offset Block_new.

(** The loop of [Block::Get]. *)
Fixpoint Get_loop (fuel : nat) (entries : list BlockEntry) (key : str) (lo hi : Z) :
    option (option BlockEntry) :=
  match fuel with
  | O => None
  | S fuel' =>
      if lo <=? hi then
        let mid := lo + Z.quot (hi - lo) 2 in
        match entries !! Z.to_nat mid with
        | None => None
        | Some e =>
            match str_compare (be_key e) key with
            | Eq => Some (Some e)
            | Lt => Get_loop fuel' entries key (mid + 1) hi
            | Gt => Get_loop fuel' entries key lo (mid - 1)
            end
        end
      else Some None
  end.

Definition Block_Get (b : Block) (key : str) : option (option BlockEntry) :=
  Get_loop (S (length (entries_ b))) (entries_ b) key 0 (s32 (Z.of_nat (length (entries_ b))) - 1).

(** ** The size of a block *)

Definition entry_bytes (e : BlockEntry) : bytes :=
  string_bytes (be_key e) ++ string_bytes (be_value e)
  ++ [if be_is_tombstone e then Byte.x01 else Byte.x00].

(** Lengths that fit the 32-bit fields. *)
Definition block_entry_ok (e : BlockEntry) : Prop :=
  Z.of_nat (length (be_key e)) < 2 ^ 32 /\ Z.of_nat (length (be_value e)) < 2 ^ 32.

#[export] Instance block_entry_ok_dec e : Decision (block_entry_ok e).
Proof. unfold block_entry_ok. apply _. Defined.

Definition encoded_sum (es : list BlockEntry) : Z := zsum (EncodedSize <$> es).

Lemma length_entry_bytes e : Z.of_nat (length (entry_bytes e)) = EncodedSize e.
Proof.
  unfold entry_bytes, string_bytes, EncodedSize. autorewrite with vdb_len. cbn [length]. lia.
Qed.

Lemma WriteBlockEntry_bytes buffer e :
  block_entry_ok e -> WriteBlockEntry buffer e = buffer ++ entry_bytes e.
Proof.
  intros [Hk Hv]. unfold WriteBlockEntry, WriteUint32, entry_bytes, string_bytes.
  rewrite !u32_small by lia. by rewrite <-!app_assoc.
Qed.

Lemma WriteBlockEntries_bytes es : forall buffer,
  Forall block_entry_ok es -> foldl WriteBlockEntry buffer es = buffer ++ mjoin (entry_bytes <$> es).
Proof.
  induction es as [|e es IH]; intros buffer Hok; [by rewrite app_nil_r|].
  apply Forall_cons in Hok as [He Hok]. cbn [foldl]. rewrite WriteBlockEntry_bytes, IH by done.
  rewrite fmap_cons. change (mjoin (?a :: ?b)) with (a ++ mjoin b). by rewrite app_assoc.
Qed.

Lemma length_entries_bytes es : Z.of_nat (length (mjoin (entry_bytes <$> es))) = encoded_sum es.
Proof.
  induction es as [|e es IH]; [done|]. rewrite fmap_cons.
  change (mjoin (?a :: ?b)) with (a ++ mjoin b). unfold encoded_sum in *.
  autorewrite with vdb_len. rewrite Nat2Z.inj_add, length_entry_bytes, IH. done.
Qed.

Lemma encoded_sum_cons e es : encoded_sum (e :: es) = EncodedSize e + encoded_sum es.
Proof. reflexivity. Qed.

Lemma encoded_sum_snoc es e : encoded_sum (es ++ [e]) = encoded_sum es + EncodedSize e.
Proof. unfold encoded_sum. rewrite fmap_app, zsum_app. cbn. lia. Qed.

(** The bytes of a block with these entries. *)
Definition block_bytes (es : list BlockEntry) : bytes :=
  le_bytes 4 (Z.of_nat (length es)) ++ mjoin (entry_bytes <$> es).

Lemma Block_Serialize_bytes b :
  Forall block_entry_ok (entries_ b) -> Z.of_nat (length (entries_ b)) < 2 ^ 32 ->
  Block_Serialize b = block_bytes (entries_ b).
Proof.
  intros Hok Hn. unfold Block_Serialize, WriteUint32, block_bytes.
  rewrite WriteBlockEntries_bytes, u32_small by (done || lia). done.
Qed.

Lemma length_block_bytes es : Z.of_nat (length (block_bytes es)) = 4 + encoded_sum es.
Proof.
  unfold block_bytes. autorewrite with vdb_len. rewrite Nat2Z.inj_add, length_entries_bytes. done.
Qed.

(** ** Reading a block back *)

Lemma ReadBlockEntry_app pre e post offset :
  offset = length pre -> block_entry_ok e ->
  ReadBlockEntry (pre ++ entry_bytes e ++ post) offset
  = Val (e, (offset + length (entry_bytes e))%nat).
Proof.
  intros -> [Hk Hv]. destruct e as [key val tomb]. cbn [be_key be_value] in *.
  unfold ReadBlockEntry, entry_bytes, string_bytes. cbn [be_key be_value be_is_tombstone].
  rewrite <-!app_assoc. set (flag := if tomb then Byte.x01 else Byte.x00).
  rewrite ReadUint32_app by lia. cbn beta iota. rewrite (app_assoc pre), Nat2Z.id.
  set (pre1 := pre ++ le_bytes 4 (Z.of_nat (length key))).
  assert (length pre + 4 = length pre1)%nat as -> by (unfold pre1; autorewrite with vdb_len; lia).
  rewrite (proj2 (Nat.ltb_ge _ _)) by (autorewrite with vdb_len; lia).
  rewrite slice_app, (app_assoc pre1).
  rewrite ReadUint32_app by (autorewrite with vdb_len; lia). cbn beta iota.
  rewrite (app_assoc (pre1 ++ key)), Nat2Z.id.
  set (pre2 := (pre1 ++ key) ++ le_bytes 4 (Z.of_nat (length val))).
  assert (length pre1 + length key + 4 = length pre2)%nat as ->
    by (unfold pre2; autorewrite with vdb_len; lia).
  rewrite (proj2 (Nat.ltb_ge _ _)) by (autorewrite with vdb_len; lia).
  rewrite slice_app, (app_assoc pre2), <-length_app. change ([flag] ++ post) with (flag :: post).
  rewrite list_lookup_middle by done.
  f_equal. f_equal.
  - f_equal. unfold flag. by destruct tomb.
  - unfold pre2, pre1. autorewrite with vdb_len. cbn [length]. lia.
Qed.

Lemma ReadBlockEntries_app es : forall pre post offset block,
  offset = length pre -> Forall block_entry_ok es ->
  ReadBlockEntries (pre ++ mjoin (entry_bytes <$> es) ++ post) (length es) offset block
  = Val (mkBlock (entries_ block ++ es) (current_size_ block + 9 * Z.of_nat (length es))).
Proof.
  induction es as [|e es IH]; intros pre post offset block Ho Hok.
  - cbn. rewrite app_nil_r, Z.add_0_r. by destruct block.
  - apply Forall_cons in Hok as [He Hok]. rewrite fmap_cons.
    change (mjoin (?a :: ?b)) with (a ++ mjoin b). rewrite <-app_assoc.
    cbn [length ReadBlockEntries]. rewrite ReadBlockEntry_app by done. cbn beta iota.
    rewrite app_assoc, IH by (try done; autorewrite with vdb_len; lia).
    cbn [entries_ current_size_]. rewrite <-app_assoc. f_equal. f_equal.
    unfold moved_from_size, EncodedSize. cbn [be_key be_value length]. lia.
Qed.

Lemma Block_Deserialize_bytes es :
  Forall block_entry_ok es -> Z.of_nat (length es) < 2 ^ 32 ->
  Block_Deserialize (block_bytes es) = Val (mkBlock es (4 + 9 * Z.of_nat (length es))).
Proof.
  intros Hok Hn. unfold Block_Deserialize, block_bytes.
  pose proof (ReadUint32_app [] (Z.of_nat (length es)) (mjoin (entry_bytes <$> es)) 0) as HR.
  cbn [app] in HR. rewrite HR by (done || lia). cbn beta iota. rewrite Nat2Z.id.
  rewrite <-(app_nil_r (mjoin _)). by rewrite ReadBlockEntries_app.
Qed.

(** A read that succeeds on a prefix of the data gives the same result on the
    data, and ends inside the prefix. *)
Lemma ReadUint32_take n data offset r :
  ReadUint32 (take n data) offset = Val r ->
  ReadUint32 data offset = Val r /\ (r.2 <= n)%nat /\ (r.2 <= length data)%nat.
Proof.
  unfold ReadUint32. destruct (CHECK_BOUNDS (take n data) offset 4) eqn:E; [|done].
  apply CHECK_BOUNDS_true in E. rewrite length_take in E. intros [= <-].
  rewrite (proj2 (CHECK_BOUNDS_true _ _ _)) by lia. cbn [snd]. split; [|lia].
  f_equal. f_equal. f_equal. unfold slice.
  rewrite !take_drop_commute, take_take. by rewrite Nat.min_l by lia.
Qed.

Lemma slice_take n (data : bytes) offset len :
  (offset + len <= n)%nat -> slice (take n data) offset len = slice data offset len.
Proof. intros H. unfold slice. rewrite !take_drop_commute, take_take. by rewrite Nat.min_l by lia. Qed.

Lemma ReadBlockEntry_take n data offset e offset' :
  ReadBlockEntry (take n data) offset = Val (e, offset') ->
  ReadBlockEntry data offset = Val (e, offset') /\ (offset' <= n)%nat.
Proof.
  unfold ReadBlockEntry.
  destruct (ReadUint32 (take n data) offset) as [[key_len o1]|] eqn:E1; [|done].
  apply ReadUint32_take in E1 as (-> & Hn1 & Hd1). cbn [snd] in Hn1, Hd1. cbn beta iota.
  rewrite length_take. destruct (Nat.ltb_spec (n `min` length data) (o1 + Z.to_nat key_len)); [done|].
  rewrite (proj2 (Nat.ltb_ge _ _)) by lia. rewrite slice_take by lia.
  destruct (ReadUint32 (take n data) _) as [[val_len o2]|] eqn:E2; [|done].
  apply ReadUint32_take in E2 as (-> & Hn2 & Hd2). cbn [snd] in Hn2, Hd2. cbn beta iota.
  destruct (Nat.ltb_spec (n `min` length data) (o2 + Z.to_nat val_len)); [done|].
  rewrite (proj2 (Nat.ltb_ge _ _)) by lia. rewrite slice_take by lia.
  destruct (take n data !! _) as [flag|] eqn:E3; [|done].
  apply lookup_take_Some in E3 as [-> Hlt]. intros [= <- <-]. split; [done|lia].
Qed.

Lemma ReadBlockEntries_truncated es : forall n data pre offset block b,
  data = pre ++ mjoin (entry_bytes <$> es) -> offset = length pre -> (offset <= n)%nat ->
  Forall block_entry_ok es ->
  ReadBlockEntries (take n data) (length es) offset block = Val b -> (length data <= n)%nat.
Proof.
  induction es as [|e es IH]; intros n data pre offset block b -> -> Hn Hok.
  - cbn. rewrite app_nil_r. done.
  - apply Forall_cons in Hok as [He Hok]. rewrite fmap_cons.
    change (mjoin (?a :: ?b)) with (a ++ mjoin b). cbn [length ReadBlockEntries].
    destruct (ReadBlockEntry _ _) as [[e' o']|] eqn:E; [|done]. cbn beta iota.
    apply ReadBlockEntry_take in E as [E Hn'].
    rewrite ReadBlockEntry_app in E by done.
    remember (length pre + length (entry_bytes e))%nat as o1 eqn:Ho1. injection E as <- <-.
    apply (IH n _ (pre ++ entry_bytes e)); [by rewrite app_assoc| |done|done].
    by rewrite length_app.
Qed.

(** Every error of the parser is the corruption status. *)
Lemma ReadUint32_err data offset s : ReadUint32 data offset = Err s -> code_ s = kStorageCorruption.
Proof. unfold ReadUint32. destruct (CHECK_BOUNDS _ _ _); [done|]. by intros [= <-]. Qed.

Lemma ReadBlockEntry_err data offset s :
  ReadBlockEntry data offset = Err s -> code_ s = kStorageCorruption.
Proof.
  unfold ReadBlockEntry. destruct (ReadUint32 data offset) as [[k o]|s'] eqn:E1.
  2: { intros [= <-]. by eapply ReadUint32_err. }
  clear E1. cbn beta iota zeta. destruct (_ <? _)%nat; [by intros [= <-]|].
  destruct (ReadUint32 data _) as [[v o2]|s'] eqn:E2.
  2: { intros [= <-]. by eapply ReadUint32_err. }
  cbn beta iota zeta. destruct (_ <? _)%nat; [by intros [= <-]|].
  destruct (data !! _); [done|]. by intros [= <-].
Qed.

Lemma ReadBlockEntries_err data n : forall offset block s,
  ReadBlockEntries data n offset block = Err s -> code_ s = kStorageCorruption.
Proof.
  induction n as [|n IH]; intros offset block s; cbn [ReadBlockEntries]; [done|].
  destruct (ReadBlockEntry data offset) as [[e o]|s'] eqn:E; cbn beta iota; [apply IH|].
  intros [= <-]. by eapply ReadBlockEntry_err.
Qed.

Lemma Block_Deserialize_truncated es n :
  Forall block_entry_ok es -> Z.of_nat (length es) < 2 ^ 32 -> (n < length (block_bytes es))%nat ->
  exists s, Block_Deserialize (take n (block_bytes es)) = Err s /\ code_ s = kStorageCorruption.
Proof.
  intros Hok Hlen Hn. unfold Block_Deserialize.
  destruct (ReadUint32 (take n _) 0) as [[k o]|s] eqn:E.
  2: { eexists; split; [done|]. by eapply ReadUint32_err. }
  cbn beta iota. apply ReadUint32_take in E as (E & Ho & _). cbn [snd] in Ho.
  unfold block_bytes in E.
  pose proof (ReadUint32_app [] (Z.of_nat (length es)) (mjoin (entry_bytes <$> es)) 0) as HR.
  cbn [app] in HR. rewrite HR in E by (done || lia). injection E as <- <-. rewrite Nat2Z.id.
  destruct (ReadBlockEntries _ _ _ _) as [b|s] eqn:Er.
  - exfalso. eapply ReadBlockEntries_truncated in Er; [|reflexivity|done|done|done].
    lia.
  - eexists; split; [done|]. by eapply ReadBlockEntries_err.
Qed.

(** ** Lookup *)

Definition sorted_entries (es : list BlockEntry) : Prop := StronglySorted str_lt (be_key <$> es).

(** The reference lookup: the first entry with that key. *)
Definition find_key (es : list BlockEntry) (key : str) : option BlockEntry :=
  head (filter (fun e => be_key e = key) es).

Lemma find_key_cons e es k :
  find_key (e :: es) k = if decide (be_key e = k) then Some e else find_key es k.
Proof.
  unfold find_key. destruct (decide (be_key e = k)) as [He|He].
  - by rewrite filter_cons_True.
  - by rewrite filter_cons_False.
Qed.

Lemma find_key_None es k : (forall e, e ∈ es -> be_key e <> k) -> find_key es k = None.
Proof. intros H. unfold find_key. by rewrite filter_none. Qed.

Lemma find_key_app_l es1 es2 k :
  (forall e, e ∈ es2 -> be_key e <> k) -> find_key (es1 ++ es2) k = find_key es1 k.
Proof. intros H. unfold find_key. by rewrite filter_app, (filter_none _ es2), app_nil_r. Qed.

Lemma find_key_app_r es1 es2 k :
  (forall e, e ∈ es1 -> be_key e <> k) -> find_key (es1 ++ es2) k = find_key es2 k.
Proof. intros H. unfold find_key. by rewrite filter_app, (filter_none _ es1). Qed.

Lemma find_key_Some es k e : find_key es k = Some e -> e ∈ es /\ be_key e = k.
Proof.
  unfold find_key. intros H. apply head_Some_elem_of in H. apply list_elem_of_filter in H. tauto.
Qed.

Lemma sorted_entries_lt es i j e e' :
  sorted_entries es -> es !! i = Some e -> es !! j = Some e' -> (i < j)%nat ->
  str_lt (be_key e) (be_key e').
Proof.
  intros Hs Hi Hj. apply (StronglySorted_lookup_lt str_lt (be_key <$> es) i j); [exact Hs| |].
  - by rewrite list_lookup_fmap, Hi.
  - by rewrite list_lookup_fmap, Hj.
Qed.

Lemma find_key_lookup es i e : sorted_entries es -> es !! i = Some e -> find_key es (be_key e) = Some e.
Proof.
  intros Hs Hi. pose proof (take_drop_middle _ _ _ Hi) as Hsplit.
  rewrite <-Hsplit, find_key_app_r, find_key_cons.
  - by destruct (decide _).
  - intros e' He'. apply list_elem_of_lookup in He' as [j Hj].
    apply lookup_take_Some in Hj as [Hj Hlt]. intros Heq.
    pose proof (sorted_entries_lt es j i e' e Hs Hj Hi Hlt) as H. rewrite Heq in H.
    by apply str_lt_irrefl in H.
Qed.

(** The binary search finds what a linear search finds. *)
Lemma Get_loop_spec es key fuel : forall lo hi,
  sorted_entries es -> 0 <= lo <= hi + 1 -> hi < Z.of_nat (length es) -> hi - lo + 1 < Z.of_nat fuel ->
  (forall i e, es !! i = Some e -> Z.of_nat i < lo -> str_lt (be_key e) key) ->
  (forall i e, es !! i = Some e -> hi < Z.of_nat i -> str_lt key (be_key e)) ->
  Get_loop fuel es key lo hi = Some (find_key es key).
Proof.
  induction fuel as [|fuel IH]; intros lo hi Hs Hlo Hhi Hf Hbelow Habove; cbn [Get_loop].
  - lia.
  - destruct (Z.leb_spec lo hi) as [Hle|Hgt].
    + set (mid := lo + Z.quot (hi - lo) 2).
      assert (lo <= mid <= hi) as Hmid.
      { unfold mid. rewrite Z.quot_div_nonneg by lia.
        pose proof (Z.div_pos (hi - lo) 2 ltac:(lia) ltac:(lia)).
        pose proof (Z.div_le_upper_bound (hi - lo) 2 (hi - lo) ltac:(lia) ltac:(lia)). lia. }
      destruct (lookup_lt_is_Some_2 es (Z.to_nat mid)) as [e He]; [lia|]. rewrite He.
      destruct (str_compare (be_key e) key) eqn:Ec.
      * apply str_compare_eq in Ec as <-. by rewrite (find_key_lookup es (Z.to_nat mid) e).
      * apply IH; auto with lia. intros i e' Hi Hlt.
        destruct (decide (i = Z.to_nat mid)) as [->|]; [by simplify_eq|].
        transitivity (be_key e); [|done]. apply (sorted_entries_lt es i (Z.to_nat mid)); auto with lia.
      * apply IH; auto with lia. intros i e' Hi Hlt.
        assert (str_lt key (be_key e)) as Hk.
        { unfold str_lt. by rewrite str_compare_antisym, Ec. }
        destruct (decide (i = Z.to_nat mid)) as [->|]; [by simplify_eq|].
        transitivity (be_key e); [done|]. apply (sorted_entries_lt es (Z.to_nat mid) i); auto with lia.
    + rewrite find_key_None; [done|]. intros e He Heq. apply list_elem_of_lookup in He as [i Hi].
      destruct (decide (Z.of_nat i < lo)).
      * apply (str_lt_irrefl key). rewrite <-Heq at 1. by apply (Hbelow i).
      * apply (str_lt_irrefl key). rewrite <-Heq at 2. apply (Habove i); [done|lia].
Qed.

Lemma Get_sorted b key :
  sorted_entries (entries_ b) -> Z.of_nat (length (entries_ b)) < 2 ^ 31 ->
  Block_Get b key = Some (find_key (entries_ b) key).
Proof.
  intros Hs Hn. unfold Block_Get. rewrite s32_small by lia.
  apply Get_loop_spec; auto with lia.
  intros i e Hi Hlt. apply lookup_lt_Some in Hi. lia.
Qed.

(** ** Filling a block *)

Lemma length_foldl_WriteBlockEntry es : forall buffer,
  Z.of_nat (length (foldl WriteBlockEntry buffer es)) = Z.of_nat (length buffer) + encoded_sum es.
Proof.
  induction es as [|e es IH]; intros buffer; [apply eq_sym, Z.add_0_r|].
  cbn [foldl]. rewrite IH, encoded_sum_cons. unfold WriteBlockEntry, WriteUint32, EncodedSize.
  autorewrite with vdb_len. cbn [length]. lia.
Qed.

Lemma length_Block_Serialize b :
  Z.of_nat (length (Block_Serialize b)) = 4 + encoded_sum (entries_ b).
Proof.
  unfold Block_Serialize. rewrite length_foldl_WriteBlockEntry. unfold WriteUint32.
  autorewrite with vdb_len. done.
Qed.

(** The size is tracked exactly, and a block exceeds the target only when it
    holds a single entry. *)
Definition block_inv (b : Block) : Prop :=
  current_size_ b = 4 + encoded_sum (entries_ b) /\
  (current_size_ b <= kTargetBlockSize \/ (length (entries_ b) <= 1)%nat).

Lemma block_new_inv : block_inv Block_new.
Proof. split; [done|]. right. cbn. lia. Qed.

Lemma block_add_inv b e : block_inv b -> block_inv (Block_Add b e).2.
Proof.
  intros [Hsize Hbound]. unfold Block_Add, Block_IsEmpty.
  destruct (entries_ b) as [|e0 es] eqn:Ees; cbn [negb andb].
  - split; cbn [snd entries_ current_size_]; [|right; cbn; lia].
    rewrite Hsize. unfold encoded_sum. cbn. lia.
  - destruct (Z.ltb_spec kTargetBlockSize (current_size_ b + EncodedSize e)); cbn [snd].
    + split; [by rewrite Hsize, Ees|]. by rewrite Ees.
    + split; cbn [entries_ current_size_]; [|left; lia].
      rewrite (encoded_sum_snoc (e0 :: es)). lia.
Qed.

(** [Add] on every entry of a list, refused entries being skipped. *)
Definition add_each (es : list BlockEntry) : Block :=
  foldl (fun b e => (Block_Add b e).2) Block_new es.

Lemma add_each_inv es : block_inv (add_each es).
Proof.
  unfold add_each. generalize block_new_inv. generalize Block_new as b.
  induction es as [|e es IH]; intros b Hb; cbn [foldl]; [done|].
  by apply IH, block_add_inv.
Qed.

(** * Properties *)

(** Block sizing invariant: after any sequence of [Add] calls,
    [CurrentSize] is exactly the number of bytes [Serialize] produces; the
    block stays within the 4096-byte target unless it holds a single entry;
    and the next [Add] is refused exactly when the block is not empty and the
    entry would take it past the target, in which case nothing changes. *)
Theorem block_add_sizes (es : list BlockEntry) (e : BlockEntry) :
  let b := add_each es in
  current_size_ b = Z.of_nat (length (Block_Serialize b)) /\
  (Z.of_nat (length (Block_Serialize b)) <= kTargetBlockSize \/ (length (entries_ b) <= 1)%nat) /\
  ((Block_Add b e).1 = false <->
     entries_ b <> [] /\ kTargetBlockSize < Z.of_nat (length (Block_Serialize b)) + EncodedSize e) /\
  entries_ (Block_Add b e).2 = (if (Block_Add b e).1 then entries_ b ++ [e] else entries_ b).
Proof.
  intros b. destruct (add_each_inv es) as [Hsize Hbound]. fold b in Hsize, Hbound.
  rewrite length_Block_Serialize, <-Hsize. split_and!; [done|done| |].
  - unfold Block_Add, Block_IsEmpty. destruct (entries_ b) as [|e0 es']; cbn [negb andb].
    + split; [done|]. by intros [? _].
    + destruct (Z.ltb_spec kTargetBlockSize (current_size_ b + EncodedSize e)); cbn [fst];
        split; try done. intros [_ ?]. lia.
  - unfold Block_Add. by destruct (negb _ && _).
Qed.

(** C25. Block round trip and lookup: a serialized block of entries in strictly
    increasing key order deserializes to the same entries, and the binary
    search of [Get] on it finds exactly the entry with the key, for every
    key. *)
Theorem block_roundtrip_get (b : Block)
    (Hok : Forall block_entry_ok (entries_ b)) (Hn : Z.of_nat (length (entries_ b)) < 2 ^ 31)
    (Hsorted : sorted_entries (entries_ b)) :
  exists b', Block_Deserialize (Block_Serialize b) = Val b' /\ entries_ b' = entries_ b /\
    forall key, Block_Get b' key = Some (find_key (entries_ b) key).
Proof.
  rewrite Block_Serialize_bytes, Block_Deserialize_bytes by (done || lia).
  eexists. split; [done|]. split; [done|]. intros key. by rewrite Get_sorted.
Qed.

Definition sample_block : Block :=
  add_each [mkBlockEntry (lit "a") (lit "1") false; mkBlockEntry (lit "b") [] true;
            mkBlockEntry (lit "c") (lit "333") false].

Lemma sample_block_sorted : sorted_entries (entries_ sample_block).
Proof. repeat constructor; by_vm. Qed.

Lemma block_roundtrip_get_witness :
  exists b', Block_Deserialize (Block_Serialize sample_block) = Val b' /\
    entries_ b' = entries_ sample_block /\
    forall key, Block_Get b' key = Some (find_key (entries_ sample_block) key).
Proof.
  apply (block_roundtrip_get sample_block).
  - by_vm.
  - vm_compute. reflexivity.
  - apply sample_block_sorted.
Defined.

(** Truncation of a block is always detected: [Deserialize] of any proper
    prefix of a serialized block returns the corruption status, and never a
    block. *)
Theorem block_truncation_detected (b : Block) (n : nat)
    (Hok : Forall block_entry_ok (entries_ b)) (Hlen : Z.of_nat (length (entries_ b)) < 2 ^ 32)
    (Hn : (n < length (Block_Serialize b))%nat) :
  exists s, Block_Deserialize (take n (Block_Serialize b)) = Err s /\ code_ s = kStorageCorruption.
Proof.
  rewrite Block_Serialize_bytes in * by done. by apply Block_Deserialize_truncated.
Qed.

Lemma block_truncation_detected_witness :
  exists s, Block_Deserialize (take 20 (Block_Serialize sample_block)) = Err s /\
    code_ s = kStorageCorruption.
Proof.
  apply (block_truncation_detected sample_block 20).
  - by_vm.
  - vm_compute. reflexivity.
  - vm_compute. lia.
Defined.

(** The size of a deserialized block does not count keys and values: the
    entry has been moved from when its size is taken. *)
Example deserialized_size_differs :
  current_size_ sample_block = 38 /\
  current_size_ <$> value (Block_Deserialize (Block_Serialize sample_block)) = Some 31.
Proof. split; reflexivity. Qed.
