(* ===== verification/SSTable.v ===== *)
(** * Sorted string tables

    Models src/src/storage/sstable/sstable_writer.{h,cpp} and
    sstable_reader.{h,cpp}: data blocks, Bloom filter block, index block and
    footer.  The writer takes the entries its [SkipList::Iterator] yields (see
    [SkipList_entries]).  Its local variables and the lambda [flush_block]
    become the record [WriteState] and the definition [flush_block].  [None]
    is an unchecked access of the Bloom filter or of a vector.

    The theorem [sstable_write_read] is the contract of the pair: what is
    written is found again by [Get] and [ReadAll], through the filter, the
    index and the blocks. *)

From S2P Require Import Prelude Status BinarySerializer FileSystem Mt19937 SkipList BloomFilter Block.

Definition kMagicNumber : Z := 0x0053535461626C65.
Definition kFooterSize : Z := 48.

Record IndexEntry : Set := mkIndexEntry {
  last_key : str;
  block_offset : Z;
  block_size : Z
}.

(** ** [SSTableWriter] *)

Definition entry_of_iter (kv : str * SkipListValue) : BlockEntry :=
  mkBlockEntry kv.1 (data kv.2) (is_tombstone kv.2).

Record WriteState : Set := mkWriteState {
  ws_world : World;
  ws_out : ofstream;
  ws_index : list IndexEntry;
  ws_block : Block;
  ws_offset : Z;
  ws_total : Z
}.

Definition flush_block (st : WriteState) : Status * WriteState :=
  if Block_IsEmpty (ws_block st) then (StatusOk, st)
  else
    let serialized := Block_Serialize (ws_block st) in
    let '(file, w) := ofs_write (ws_world st) (ws_out st) serialized in
    if negb (os_good file)
    then (mkStatus kStorageIoError (lit "SSTable block write failed"),
          mkWriteState w file (ws_index st) (ws_block st) (ws_offset st) (ws_total st))
    else
      let idx := mkIndexEntry (LastKey (ws_block st)) (ws_offset st)
                   (u32 (Z.of_nat (length serialized))) in
      (StatusOk,
       mkWriteState w file (ws_index st ++ [idx]) Block_new
         (u64 (ws_offset st + Z.of_nat (length serialized))) (ws_total st + EntryCount (ws_block st))).

(** The loop of phase 3. *)
Fixpoint write_entries (st : WriteState) (entries : list BlockEntry) : Status * WriteState :=
  match entries with
  | [] => (StatusOk, st)
  | entry :: entries =>
      let '(added, block) := Block_Add (ws_block st) entry in
      if added
      then write_entries (mkWriteState (ws_world st) (ws_out st) (ws_index st) block
                            (ws_offset st) (ws_total st)) entries
      else
        let '(s, st) := flush_block st in
        if negb (IsOk s) then (s, st)
        else
          let '(_, block) := Block_Add (ws_block st) entry in
          write_entries (mkWriteState (ws_world st) (ws_out st) (ws_index st) block
                           (ws_offset st) (ws_total st)) entries
  end.

Definition bloom_block_bytes (bloom : BloomFilter) : bytes :=
  let buffer := WriteUint32 [] (u32 (num_bits_ bloom)) in
  let buffer := WriteUint32 buffer (u32 (num_hash_functions_ bloom)) in
  buffer ++ bits_ bloom.

Definition WriteIndexEntry (buffer : bytes) (idx : IndexEntry) : bytes :=
  let buffer := WriteUint32 buffer (u32 (Z.of_nat (length (last_key idx)))) in
  let buffer := buffer ++ last_key idx in
  let buffer := WriteUint64 buffer (block_offset idx) in
  WriteUint32 buffer (block_size idx).

Definition index_block_bytes (index : list IndexEntry) : bytes :=
  foldl WriteIndexEntry (WriteUint32 [] (u32 (Z.of_nat (length index)))) index.

Definition footer_bytes (bloom_offset bloom_size index_offset index_size total_entries : Z) : bytes :=
  let footer := WriteUint64 [] bloom_offset in
  let footer := WriteUint64 footer bloom_size in
  let footer := WriteUint64 footer index_offset in
  let footer := WriteUint64 footer index_size in
  let footer := WriteUint64 footer total_entries in
  WriteUint64 footer kMagicNumber.

(** Phases 4 to 6, after the data blocks. *)
Definition write_tail (st : WriteState) (bloom : BloomFilter) : Status * World :=
  let bloom_offset := ws_offset st in
  let bloom_block := bloom_block_bytes bloom in
  let '(file, w) := ofs_write (ws_world st) (ws_out st) bloom_block in
  if negb (os_good file) then (mkStatus kStorageIoError (lit "SSTable bloom write failed"), w)
  else
    let bloom_size := u32 (Z.of_nat (length bloom_block)) in
    let index_offset := u64 (bloom_offset + bloom_size) in
    let index_block := index_block_bytes (ws_index st) in
    let '(file, w) := ofs_write w file index_block in
    if negb (os_good file) then (mkStatus kStorageIoError (lit "SSTable index write failed"), w)
    else
      let index_size := u32 (Z.of_nat (length index_block)) in
      let footer := footer_bytes bloom_offset bloom_size index_offset index_size (ws_total st) in
      let '(file, w) := ofs_write w file footer in
      if negb (os_good file) then (mkStatus kStorageIoError (lit "SSTable footer write failed"), w)
      else
        let '(_, w) := ofs_flush w file in
        (StatusOk, w).

Definition SSTableWriter_Write (w : World) (filepath : str) (iter : list (str * SkipListValue)) :
    option (Status * World) :=
  let '(file, w) := ofs_open_trunc w filepath in
  match file with
  | None => Some (mkStatus kStorageIoError (lit "Cannot create SSTable: " ++ filepath), w)
  | Some file =>
      let all_entries := entry_of_iter <$> iter in
      match all_entries with
      | [] => Some (mkStatus kInvalidArgument (lit "Cannot write empty SSTable"), fs_remove w filepath)
      | _ :: _ =>
          match Add_all (BloomFilter_new (Z.of_nat (length all_entries)) 10) (be_key <$> all_entries) with
          | None => None
          | Some bloom =>
              let '(s, st) := write_entries (mkWriteState w file [] Block_new 0 0) all_entries in
              if negb (IsOk s) then Some (s, ws_world st)
              else
                let '(s, st) := flush_block st in
                if negb (IsOk s) then Some (s, ws_world st)
                else Some (write_tail st bloom)
          end
      end
  end.

(** ** [SSTableReader] *)

Record SSTableReader : Set := mkReader {
  filepath_ : str;
  bloom_ : BloomFilter;
  index_ : list IndexEntry;
  num_entries_ : Z
}.

Definition ReadIndexEntry (index_buf : bytes) (idx_off : nat) : ErrorOr (IndexEntry * nat) :=
  let? (key_len, idx_off) := ReadUint32 index_buf idx_off in
  if (length index_buf <? idx_off + Z.to_nat key_len)%nat
  then error kStorageCorruption (lit "Index key extends past block")
  else
    let key := slice index_buf idx_off (Z.to_nat key_len) in
    let idx_off := (idx_off + Z.to_nat key_len)%nat in
    let? (off, idx_off) := ReadUint64 index_buf idx_off in
    let? (size, idx_off) := ReadUint32 index_buf idx_off in
    Val (mkIndexEntry key off size, idx_off).

Fixpoint ReadIndexEntries (index_buf : bytes) (n : nat) (idx_off : nat) : ErrorOr (list IndexEntry) :=
  match n with
  | O => Val []
  | S n =>
      let? (ie, idx_off) := ReadIndexEntry index_buf idx_off in
      let? rest := ReadIndexEntries index_buf n idx_off in
      Val (ie :: rest)
  end.

(** The six fields of the footer. *)
Record Footer : Set := mkFooter {
  f_bloom_offset : Z; f_bloom_size : Z; f_index_offset : Z; f_index_size : Z;
  f_num_entries : Z; f_magic : Z
}.

Definition ReadFooter (footer_buf : bytes) : ErrorOr Footer :=
  let? (bloom_offset, offset) := ReadUint64 footer_buf 0 in
  let? (bloom_size, offset) := ReadUint64 footer_buf offset in
  let? (index_offset, offset) := ReadUint64 footer_buf offset in
  let? (index_size, offset) := ReadUint64 footer_buf offset in
  let? (num_entries, offset) := ReadUint64 footer_buf offset in
  let? (magic, _) := ReadUint64 footer_buf offset in
  Val (mkFooter bloom_offset bloom_size index_offset index_size num_entries magic).

Definition ReadBloom (bloom_buf : bytes) : ErrorOr BloomFilter :=
  let? (num_bits, bloom_off) := ReadUint32 bloom_buf 0 in
  let? (num_hash_fns, bloom_off) := ReadUint32 bloom_buf bloom_off in
  Val (mkBloomFilter (drop bloom_off bloom_buf) num_bits (s32 num_hash_fns)).

Definition ReadIndex (index_buf : bytes) : ErrorOr (list IndexEntry) :=
  let? (num_index_entries, idx_off) := ReadUint32 index_buf 0 in
  ReadIndexEntries index_buf (Z.to_nat num_index_entries) idx_off.

Definition SSTableReader_Open (w : World) (filepath : str) : ErrorOr SSTableReader * World :=
  if negb (fs_exists w filepath)
  then (error kStorageIoError (lit "SSTable file not found: " ++ filepath), w)
  else
    let '(file, w) := ifs_open w filepath in
    match file with
    | None => (error kStorageIoError (lit "Cannot open SSTable: " ++ filepath), w)
    | Some file =>
        let file_size := Z.of_nat (length file) in
        if file_size <? kFooterSize
        then (error kStorageCorruption (lit "SSTable too small for footer: " ++ filepath), w)
        else
          let '(got, good, w) := ifs_read_at w file true (file_size - kFooterSize) kFooterSize in
          let footer_buf := got ++ replicate (Z.to_nat kFooterSize - length got) Byte.x00 in
          match ReadFooter footer_buf with
          | Err s => (Err s, w)
          | Val f =>
              if negb (f_magic f =? kMagicNumber)
              then (error kStorageCorruption (lit "Invalid SSTable magic number: " ++ filepath), w)
              else
                let '(bloom_buf, good, w) := ifs_read_at w file good (f_bloom_offset f) (f_bloom_size f) in
                if negb good
                then (error kStorageCorruption (lit "Failed to read bloom filter block"), w)
                else
                  match ReadBloom bloom_buf with
                  | Err s => (Err s, w)
                  | Val bloom =>
                      let '(index_buf, good, w) :=
                        ifs_read_at w file good (f_index_offset f) (f_index_size f) in
                      if negb good
                      then (error kStorageCorruption (lit "Failed to read index block"), w)
                      else
                        match ReadIndex index_buf with
                        | Err s => (Err s, w)
                        | Val index => (Val (mkReader filepath bloom index (f_num_entries f)), w)
                        end
                  end
          end
    end.

Definition ReadBlock (w : World) (rd : SSTableReader) (offset size : Z) : ErrorOr Block * World :=
  let '(file, w) := ifs_open w (filepath_ rd) in
  match file with
  | None => (error kStorageIoError (lit "Cannot open SSTable for block read: " ++ filepath_ rd), w)
  | Some file =>
      let '(block_data, _, w) := ifs_read_at w file true offset size in
      if Z.of_nat (length block_data) <? size
      then (error kStorageCorruption (lit "Incomplete block read"), w)
      else (Block_Deserialize block_data, w)
  end.

(** The binary search over the index: the first block whose last key is not
    below [key]; the candidate starts at -1. *)
Fixpoint find_block (fuel : nat) (index : list IndexEntry) (key : str) (lo hi candidate : Z) : option Z :=
  match fuel with
  | O => None
  | S fuel' =>
      if lo <=? hi then
        let mid := lo + Z.quot (hi - lo) 2 in
        match index !! Z.to_nat mid with
        | None => None
        | Some ie =>
            if negb (str_ltb (last_key ie) key)
            then find_block fuel' index key lo (mid - 1) mid
            else find_block fuel' index key (mid + 1) hi candidate
        end
      else Some candidate
  end.

Definition SSTableReader_Get (w : World) (rd : SSTableReader) (key : str) :
    option (ErrorOr (option BlockEntry) * World) :=
  match MayContain (bloom_ rd) key with
  | None => None
  | Some false => Some (Val None, w)
  | Some true =>
      match find_block (S (length (index_ rd))) (index_ rd) key 0
              (s32 (Z.of_nat (length (index_ rd))) - 1) (- 1) with
      | None => None
      | Some candidate =>
          if candidate =? - 1 then Some (Val None, w)
          else
            match index_ rd !! Z.to_nat candidate with
            | None => None
            | Some ie =>
                let '(block, w) := ReadBlock w rd (block_offset ie) (block_size ie) in
                match block with
                | Err s => Some (Err s, w)
                | Val block =>
                    match Block_Get block key with
                    | None => None
                    | Some result => Some (Val result, w)
                    end
                end
            end
      end
  end.

(** The loop of [ReadAll]. *)
Fixpoint read_blocks (w : World) (rd : SSTableReader) (index : list IndexEntry)
    (all_entries : list BlockEntry) : ErrorOr (list BlockEntry) * World :=
  match index with
  | [] => (Val all_entries, w)
  | idx :: index =>
      let '(block, w) := ReadBlock w rd (block_offset idx) (block_size idx) in
      match block with
      | Err s => (Err s, w)
      | Val block => read_blocks w rd index (all_entries ++ entries_ block)
      end
  end.

Definition SSTableReader_ReadAll (w : World) (rd : SSTableReader) : ErrorOr (list BlockEntry) * World :=
  read_blocks w rd (index_ rd) [].

(** ** The layout of a table *)

Definition len (bs : bytes) : Z := Z.of_nat (length bs).

Definition data_bytes (bs : list (list BlockEntry)) : bytes := mjoin (block_bytes <$> bs).

(** The index of consecutive blocks, the first one at [off]. *)
Fixpoint index_of (off : Z) (bs : list (list BlockEntry)) : list IndexEntry :=
  match bs with
  | [] => []
  | b :: bs =>
      mkIndexEntry (LastKey (mkBlock b 0)) off (len (block_bytes b))
      :: index_of (off + len (block_bytes b)) bs
  end.

Definition table_bytes (bs : list (list BlockEntry)) (bloom : BloomFilter) : bytes :=
  let data := data_bytes bs in
  let bloom_block := bloom_block_bytes bloom in
  let index_block := index_block_bytes (index_of 0 bs) in
  data ++ bloom_block ++ index_block
  ++ footer_bytes (len data) (len bloom_block) (len data + len bloom_block) (len index_block)
       (Z.of_nat (length (mjoin bs))).

(** A table of moderate size (entries below 1 GiB in total) whose filter knows
    all of its keys. *)
Record table_ok (bs : list (list BlockEntry)) (bloom : BloomFilter) : Prop := {
  to_nonempty : Forall (fun b => b <> []) bs;
  to_sorted : sorted_entries (mjoin bs);
  to_size : encoded_sum (mjoin bs) < 2 ^ 30;
  to_bloom_wf : bloom_wf bloom;
  to_bloom_size : num_bits_ bloom < 2 ^ 32 /\ len (bits_ bloom) < 2 ^ 31;
  to_bloom_fns : 0 <= num_hash_functions_ bloom < 2 ^ 31;
  to_bloom_keys : forall key, key ∈ be_key <$> mjoin bs -> MayContain bloom key = Some true
}.

Lemma mjoin_cons {A} (l : list A) (ls : list (list A)) : mjoin (l :: ls) = l ++ mjoin ls.
Proof. done. Qed.

Lemma mjoin_snoc {A} (l : list A) (ls : list (list A)) : mjoin (ls ++ [l]) = mjoin ls ++ l.
Proof.
  induction ls as [|l' ls IH]; [exact (app_nil_r l)|].
  cbn [app]. by rewrite !mjoin_cons, IH, app_assoc.
Qed.

Lemma data_bytes_cons b bs : data_bytes (b :: bs) = block_bytes b ++ data_bytes bs.
Proof. done. Qed.

Lemma data_bytes_snoc bs b : data_bytes (bs ++ [b]) = data_bytes bs ++ block_bytes b.
Proof. unfold data_bytes. by rewrite fmap_app, <-mjoin_snoc. Qed.

Lemma len_app a b : len (a ++ b) = len a + len b.
Proof. unfold len. rewrite length_app. lia. Qed.

Lemma index_of_snoc bs b : forall off,
  index_of off (bs ++ [b])
  = index_of off bs ++ [mkIndexEntry (LastKey (mkBlock b 0)) (off + len (data_bytes bs)) (len (block_bytes b))].
Proof.
  induction bs as [|b' bs IH]; intros off; cbn [app index_of].
  - unfold len at 2. cbn. by rewrite Z.add_0_r.
  - rewrite IH, data_bytes_cons, len_app. do 4 f_equal. lia.
Qed.

(** Sizes follow from the total encoded size. *)
Lemma encoded_sum_app es1 es2 : encoded_sum (es1 ++ es2) = encoded_sum es1 + encoded_sum es2.
Proof. unfold encoded_sum. by rewrite fmap_app, zsum_app. Qed.

Lemma encoded_sum_count es : 9 * Z.of_nat (length es) <= encoded_sum es.
Proof.
  induction es as [|e es IH]; [done|]. rewrite encoded_sum_cons. unfold EncodedSize. cbn [length]. lia.
Qed.

Lemma encoded_sum_elem es e : e ∈ es -> EncodedSize e <= encoded_sum es.
Proof.
  induction 1 as [e es|e e' es He IH]; rewrite encoded_sum_cons.
  - pose proof (encoded_sum_count es). lia.
  - unfold EncodedSize at 1. unfold EncodedSize in IH. unfold EncodedSize. lia.
Qed.

Lemma small_entries_ok es : encoded_sum es < 2 ^ 30 -> Forall block_entry_ok es.
Proof.
  intros H. apply Forall_forall. intros e He. pose proof (encoded_sum_elem es e He) as Hs.
  unfold EncodedSize in Hs. split; lia.
Qed.

Lemma len_data_bytes bs : len (data_bytes bs) = 4 * Z.of_nat (length bs) + encoded_sum (mjoin bs).
Proof.
  induction bs as [|b bs IH]; [done|]. rewrite data_bytes_cons, len_app, IH, mjoin_cons, encoded_sum_app.
  unfold len. rewrite length_block_bytes. cbn [length]. lia.
Qed.

Lemma count_nonempty {A} (bs : list (list A)) :
  Forall (fun b => b <> []) bs -> (length bs <= length (mjoin bs))%nat.
Proof.
  induction 1 as [|b bs Hb Hbs IH]; [done|]. rewrite mjoin_cons, length_app. cbn [length].
  destruct b; [done|]. cbn [length]. lia.
Qed.

Lemma LastKey_length b e es : entries_ b = es -> last es = Some e -> LastKey b = be_key e.
Proof. intros <- He. unfold LastKey. by rewrite He. Qed.

Definition index_sum (index : list IndexEntry) : Z :=
  zsum ((fun ie => 16 + Z.of_nat (length (last_key ie))) <$> index).

Lemma index_of_sum bs : forall off,
  Forall (fun b => b <> []) bs -> index_sum (index_of off bs) <= 16 * Z.of_nat (length bs) + encoded_sum (mjoin bs).
Proof.
  induction bs as [|b bs IH]; intros off Hb; [done|]. apply Forall_cons in Hb as [Hb Hbs].
  cbn [index_of]. unfold index_sum in *. rewrite fmap_cons. cbn [zsum foldr last_key].
  specialize (IH (off + len (block_bytes b)) Hbs). unfold zsum in IH.
  rewrite mjoin_cons, encoded_sum_app. cbn [length].
  destruct (last b) as [e|] eqn:El; [|by apply last_None in El].
  rewrite (LastKey_length _ e b) by done.
  pose proof (encoded_sum_elem b e ltac:(by apply last_Some_elem_of)) as He.
  unfold EncodedSize in He. lia.
Qed.

(** ** Index, filter and footer round trips *)

Definition index_entry_ok (ie : IndexEntry) : Prop :=
  Z.of_nat (length (last_key ie)) < 2 ^ 32 /\ 0 <= block_offset ie < 2 ^ 64 /\ 0 <= block_size ie < 2 ^ 32.

Definition index_entry_bytes (ie : IndexEntry) : bytes :=
  string_bytes (last_key ie) ++ le_bytes 8 (block_offset ie) ++ le_bytes 4 (block_size ie).

Lemma WriteIndexEntry_bytes buffer ie :
  index_entry_ok ie -> WriteIndexEntry buffer ie = buffer ++ index_entry_bytes ie.
Proof.
  intros (Hk & _). unfold WriteIndexEntry, WriteUint64, WriteUint32, index_entry_bytes, string_bytes.
  rewrite u32_small by lia. by rewrite <-!app_assoc.
Qed.

Lemma WriteIndexEntries_bytes index : forall buffer,
  Forall index_entry_ok index ->
  foldl WriteIndexEntry buffer index = buffer ++ mjoin (index_entry_bytes <$> index).
Proof.
  induction index as [|ie index IH]; intros buffer Hok; [by rewrite app_nil_r|].
  apply Forall_cons in Hok as [Hie Hok]. cbn [foldl]. rewrite WriteIndexEntry_bytes, IH by done.
  rewrite fmap_cons, mjoin_cons. by rewrite app_assoc.
Qed.

Lemma len_index_entries index :
  len (mjoin (index_entry_bytes <$> index)) = index_sum index.
Proof.
  induction index as [|ie index IH]; [done|]. rewrite fmap_cons, mjoin_cons, len_app, IH.
  unfold index_sum, zsum. rewrite fmap_cons. cbn [foldr].
  unfold index_entry_bytes, string_bytes, len. autorewrite with vdb_len. lia.
Qed.

Lemma ReadIndexEntry_app pre ie post offset :
  offset = length pre -> index_entry_ok ie ->
  ReadIndexEntry (pre ++ index_entry_bytes ie ++ post) offset
  = Val (ie, (offset + length (index_entry_bytes ie))%nat).
Proof.
  intros -> (Hk & Ho & Hs). destruct ie as [key off size]. cbn [last_key block_offset block_size] in *.
  unfold ReadIndexEntry, index_entry_bytes, string_bytes. cbn [last_key block_offset block_size].
  rewrite <-!app_assoc. rewrite ReadUint32_app by lia. cbn beta iota.
  rewrite (app_assoc pre), Nat2Z.id. set (pre1 := pre ++ le_bytes 4 (Z.of_nat (length key))).
  assert (length pre + 4 = length pre1)%nat as -> by (unfold pre1; autorewrite with vdb_len; lia).
  rewrite (proj2 (Nat.ltb_ge _ _)) by (autorewrite with vdb_len; lia).
  rewrite slice_app, (app_assoc pre1).
  rewrite ReadUint64_app by (autorewrite with vdb_len; lia). cbn beta iota.
  rewrite (app_assoc (pre1 ++ key)).
  rewrite ReadUint32_app by (autorewrite with vdb_len; lia). cbn beta iota.
  f_equal. f_equal. unfold pre1. autorewrite with vdb_len. lia.
Qed.

Lemma ReadIndexEntries_app index : forall pre offset,
  offset = length pre -> Forall index_entry_ok index ->
  ReadIndexEntries (pre ++ mjoin (index_entry_bytes <$> index)) (length index) offset = Val index.
Proof.
  induction index as [|ie index IH]; intros pre offset Ho Hok; [done|].
  apply Forall_cons in Hok as [Hie Hok]. rewrite fmap_cons, mjoin_cons.
  cbn [length ReadIndexEntries]. rewrite ReadIndexEntry_app by done. cbn beta iota.
  rewrite app_assoc, IH by (try done; autorewrite with vdb_len; lia). done.
Qed.

Lemma index_block_roundtrip index :
  Forall index_entry_ok index -> Z.of_nat (length index) < 2 ^ 32 ->
  ReadIndex (index_block_bytes index) = Val index /\ len (index_block_bytes index) = 4 + index_sum index.
Proof.
  intros Hok Hn. unfold index_block_bytes, WriteUint32.
  rewrite WriteIndexEntries_bytes, u32_small by (done || lia). cbn [app]. split.
  - unfold ReadIndex.
    pose proof (ReadUint32_app [] (Z.of_nat (length index)) (mjoin (index_entry_bytes <$> index)) 0) as HR.
    cbn [app] in HR. rewrite HR by (done || lia). cbn beta iota. rewrite Nat2Z.id.
    by apply ReadIndexEntries_app.
  - rewrite len_app, len_index_entries. unfold len. by rewrite length_le_bytes.
Qed.

Lemma bloom_block_roundtrip bloom :
  0 <= num_bits_ bloom < 2 ^ 32 -> 0 <= num_hash_functions_ bloom < 2 ^ 31 ->
  ReadBloom (bloom_block_bytes bloom) = Val bloom /\ len (bloom_block_bytes bloom) = 8 + len (bits_ bloom).
Proof.
  intros Hb Hf. unfold bloom_block_bytes, WriteUint32. rewrite !u32_small by lia. cbn [app].
  rewrite <-app_assoc. split.
  - unfold ReadBloom.
    pose proof (ReadUint32_app [] (num_bits_ bloom)) as HR. cbn [app] in HR.
    rewrite HR by (done || lia). cbn beta iota.
    rewrite ReadUint32_app by (autorewrite with vdb_len; lia). cbn beta iota.
    rewrite app_assoc, drop_app_length' by (by autorewrite with vdb_len).
    rewrite s32_small by lia. by destruct bloom.
  - rewrite !len_app. unfold len. rewrite !length_le_bytes. lia.
Qed.

Lemma footer_roundtrip a b c d n :
  0 <= a < 2 ^ 64 -> 0 <= b < 2 ^ 64 -> 0 <= c < 2 ^ 64 -> 0 <= d < 2 ^ 64 -> 0 <= n < 2 ^ 64 ->
  ReadFooter (footer_bytes a b c d n) = Val (mkFooter a b c d n kMagicNumber) /\
  length (footer_bytes a b c d n) = 48%nat.
Proof.
  intros Ha Hb Hc Hd Hn. unfold footer_bytes, WriteUint64. rewrite <-!app_assoc. cbn [app].
  rewrite <-(app_nil_r (le_bytes 8 kMagicNumber)). split.
  - unfold ReadFooter. pose proof (ReadUint64_app [] a) as HR. cbn [app] in HR.
    rewrite HR by (done || lia). cbn beta iota.
    rewrite ReadUint64_app by (autorewrite with vdb_len; lia). cbn beta iota. rewrite (app_assoc (le_bytes 8 a)).
    rewrite ReadUint64_app by (autorewrite with vdb_len; lia). cbn beta iota. rewrite (app_assoc (_ ++ _) (le_bytes 8 c)).
    rewrite ReadUint64_app by (autorewrite with vdb_len; lia). cbn beta iota. rewrite (app_assoc (_ ++ _) (le_bytes 8 d)).
    rewrite ReadUint64_app by (autorewrite with vdb_len; lia). cbn beta iota. rewrite (app_assoc (_ ++ _) (le_bytes 8 n)).
    rewrite ReadUint64_app by (autorewrite with vdb_len; unfold kMagicNumber; lia). done.
  - autorewrite with vdb_len. done.
Qed.

(** ** Opening a table *)

Lemma length_index_of bs : forall off, length (index_of off bs) = length bs.
Proof. induction bs as [|b bs IH]; intros off; cbn [index_of length]; [done|]. by rewrite IH. Qed.

Lemma index_of_lookup bs : forall i off b,
  bs !! i = Some b ->
  index_of off bs !! i
  = Some (mkIndexEntry (LastKey (mkBlock b 0)) (off + len (data_bytes (take i bs))) (len (block_bytes b))).
Proof.
  induction bs as [|b' bs IH]; intros [|i] off b Hb; try done.
  - injection Hb as ->. cbn [index_of take]. change (len (data_bytes [])) with 0.
    by rewrite Z.add_0_r.
  - cbn in Hb. cbn [index_of lookup list_lookup take]. rewrite (IH _ _ _ Hb), data_bytes_cons, len_app.
    do 2 f_equal. lia.
Qed.

Lemma LastKey_small b : encoded_sum b < 2 ^ 30 -> Z.of_nat (length (LastKey (mkBlock b 0))) < 2 ^ 32.
Proof.
  intros H. unfold LastKey. cbn [entries_]. destruct (last b) as [e|] eqn:El; [|done].
  apply last_Some_elem_of, encoded_sum_elem in El. unfold EncodedSize in El. lia.
Qed.

Lemma len_nonneg bs : 0 <= len bs.
Proof. unfold len. lia. Qed.

#[local] Hint Resolve len_nonneg : vdb.

Lemma index_of_ok bs : forall off,
  0 <= off -> off + len (data_bytes bs) < 2 ^ 32 -> encoded_sum (mjoin bs) < 2 ^ 30 ->
  Forall index_entry_ok (index_of off bs).
Proof.
  induction bs as [|b bs IH]; intros off Ho Hd Hs; [constructor|]. cbn [index_of].
  rewrite data_bytes_cons, len_app in Hd. rewrite mjoin_cons, encoded_sum_app in Hs.
  pose proof (len_nonneg (data_bytes bs)). pose proof (len_nonneg (block_bytes b)).
  pose proof (encoded_sum_count b). pose proof (encoded_sum_count (mjoin bs)).
  constructor; [|apply IH; lia].
  split; [apply LastKey_small; lia|]. cbn [block_offset block_size]. lia.
Qed.

Lemma table_bounds bs bloom :
  table_ok bs bloom ->
  Z.of_nat (length bs) < 2 ^ 27 /\ Z.of_nat (length (mjoin bs)) < 2 ^ 27 /\
  0 <= len (data_bytes bs) < 2 ^ 31 /\ 0 <= len (bloom_block_bytes bloom) < 2 ^ 32 /\
  Forall index_entry_ok (index_of 0 bs) /\ 0 <= len (index_block_bytes (index_of 0 bs)) < 2 ^ 32.
Proof.
  intros [Hne _ Hs Hwf [Hb Hl] Hf _].
  pose proof (count_nonempty bs Hne). pose proof (encoded_sum_count (mjoin bs)).
  pose proof (len_data_bytes bs) as Hd. pose proof (len_nonneg (data_bytes bs)).
  assert (Forall index_entry_ok (index_of 0 bs)) as Hok by (apply index_of_ok; lia).
  destruct (bloom_block_roundtrip bloom) as [_ Hbl]; [destruct Hwf; lia|done|].
  pose proof (len_nonneg (bits_ bloom)).
  destruct (index_block_roundtrip (index_of 0 bs) Hok) as [_ Hi]; [rewrite length_index_of; lia|].
  pose proof (index_of_sum bs 0 Hne). pose proof (len_nonneg (index_block_bytes (index_of 0 bs))).
  split_and!; auto; lia.
Qed.

Lemma len_table_bytes bs bloom : table_ok bs bloom -> len (table_bytes bs bloom) < 2 ^ 34.
Proof.
  intros Hok. destruct (table_bounds bs bloom Hok) as (_ & Hm & Hd & Hb & _ & Hi). unfold table_bytes.
  edestruct (footer_roundtrip (len (data_bytes bs)) (len (bloom_block_bytes bloom))
    (len (data_bytes bs) + len (bloom_block_bytes bloom)) (len (index_block_bytes (index_of 0 bs)))
    (Z.of_nat (length (mjoin bs)))) as [_ Hf]; [lia..|].
  rewrite !len_app. unfold len at 4. rewrite Hf. lia.
Qed.

Lemma SSTableReader_Open_table w path bs bloom :
  healthy w -> files w !! path = Some (table_bytes bs bloom) -> table_ok bs bloom ->
  SSTableReader_Open w path
  = (Val (mkReader path bloom (index_of 0 bs) (Z.of_nat (length (mjoin bs)))), w).
Proof.
  intros Hw Hf Hok. destruct (table_bounds bs bloom Hok) as (Hn & Hm & Hd & Hb & Hidx & Hi).
  unfold SSTableReader_Open, fs_exists. rewrite Hf, ifs_open_healthy, Hf by done. cbn [negb].
  unfold table_bytes.
  set (D := data_bytes bs) in *. set (B := bloom_block_bytes bloom) in *.
  set (I := index_block_bytes (index_of 0 bs)) in *.
  edestruct (footer_roundtrip (len D) (len B) (len D + len B) (len I) (Z.of_nat (length (mjoin bs))))
    as [Hfoot Hflen]; [lia..|].
  set (F := footer_bytes _ _ _ _ _) in *.
  rewrite (proj2 (Z.ltb_ge _ _)) by (rewrite !length_app, Hflen; unfold kFooterSize; lia).
  assert (D ++ B ++ I ++ F = (D ++ B ++ I) ++ F ++ []) as E1 by (by rewrite app_nil_r, <-!app_assoc).
  rewrite E1 at 1.
  rewrite ifs_read_at_healthy;
    [|done|rewrite E1, !length_app, Hflen; cbn [length]; unfold kFooterSize; lia
     |rewrite Hflen; done|unfold kFooterSize, len in *; rewrite !length_app, Hflen; lia].
  rewrite Hflen. change (replicate _ _) with (@nil byte). rewrite app_nil_r, Hfoot.
  cbn [f_magic f_bloom_offset f_bloom_size f_index_offset f_index_size f_num_entries].
  rewrite Z.eqb_refl. cbn [negb].
  rewrite ifs_read_at_healthy by (done || lia). cbn [negb].
  destruct (bloom_block_roundtrip bloom) as [HB _];
    [destruct Hok as [_ _ _ [? ?] [? ?] _ _]; lia|apply Hok|]. fold B in HB. rewrite HB.
  rewrite (app_assoc D), (ifs_read_at_healthy w (D ++ B) I F)
    by (done || (unfold len in *; rewrite ?length_app; lia)). cbn [negb].
  destruct (index_block_roundtrip (index_of 0 bs) Hidx) as [HI _]; [rewrite length_index_of; lia|].
  fold I in HI. by rewrite HI.
Qed.

(** ** Reading blocks *)

Lemma data_bytes_split bs i b :
  bs !! i = Some b -> data_bytes bs = data_bytes (take i bs) ++ block_bytes b ++ data_bytes (drop (S i) bs).
Proof.
  intros Hb. rewrite <-(take_drop_middle _ _ _ Hb) at 1. unfold data_bytes.
  rewrite fmap_app, fmap_cons. rewrite <-mjoin_cons. generalize (block_bytes <$> take i bs) as l1.
  generalize (block_bytes b :: (block_bytes <$> drop (S i) bs)) as l2. clear.
  intros l2 l1. induction l1 as [|x l1 IH]; [done|]. cbn [app]. rewrite !mjoin_cons, IH. by rewrite app_assoc.
Qed.

Lemma mjoin_split {A} (bs : list (list A)) i b :
  bs !! i = Some b -> mjoin bs = mjoin (take i bs) ++ b ++ mjoin (drop (S i) bs).
Proof.
  revert i. induction bs as [|b' bs IH]; intros [|i] Hb; try done.
  - injection Hb as ->. done.
  - cbn in Hb. cbn [take drop]. rewrite !mjoin_cons, (IH _ Hb). by rewrite <-app_assoc.
Qed.

Lemma table_block bs bloom i b :
  table_ok bs bloom -> bs !! i = Some b ->
  Forall block_entry_ok b /\ Z.of_nat (length b) < 2 ^ 31 /\ sorted_entries b /\ b <> [].
Proof.
  intros Hok Hb. pose proof (mjoin_split bs i b Hb) as Hj. destruct Hok as [Hne Hsort Hs _ _ _ _].
  rewrite Hj in Hs, Hsort. rewrite !encoded_sum_app in Hs.
  pose proof (encoded_sum_count (mjoin (take i bs))). pose proof (encoded_sum_count b).
  pose proof (encoded_sum_count (mjoin (drop (S i) bs))). split_and!.
  - apply small_entries_ok. lia.
  - lia.
  - unfold sorted_entries in *. rewrite !fmap_app in Hsort.
    apply StronglySorted_app in Hsort as (_ & _ & Hsort). by apply StronglySorted_app in Hsort as (_ & Hsort & _).
  - rewrite Forall_forall in Hne. apply Hne. by eapply list_elem_of_lookup_2.
Qed.

Lemma ReadBlock_table w path bs bloom idx n i b :
  healthy w -> files w !! path = Some (table_bytes bs bloom) -> table_ok bs bloom -> bs !! i = Some b ->
  ReadBlock w (mkReader path bloom idx n) (len (data_bytes (take i bs))) (len (block_bytes b))
  = (Val (mkBlock b (4 + 9 * Z.of_nat (length b))), w).
Proof.
  intros Hw Hf Hok Hb. destruct (table_block _ _ _ _ Hok Hb) as (Hbok & Hbn & _ & _).
  destruct (table_bounds bs bloom Hok) as (_ & _ & Hd & _).
  unfold ReadBlock. cbn [filepath_]. rewrite ifs_open_healthy, Hf by done. unfold table_bytes.
  rewrite (data_bytes_split bs i b Hb) in Hd |- * at 1. rewrite !len_app in Hd.
  pose proof (len_nonneg (data_bytes (take i bs))). pose proof (len_nonneg (block_bytes b)).
  pose proof (len_nonneg (data_bytes (drop (S i) bs))).
  rewrite <-!app_assoc, ifs_read_at_healthy by (done || lia).
  rewrite (proj2 (Z.ltb_ge _ _)) by (unfold len; lia).
  by rewrite Block_Deserialize_bytes by (done || lia).
Qed.

(** ** Lookup through the index *)

(** The search splits the index at the first block whose last key is not
    below the key. *)
Lemma find_block_spec index key fuel : forall lo hi,
  StronglySorted str_lt (last_key <$> index) ->
  0 <= lo <= hi + 1 -> hi < Z.of_nat (length index) -> hi - lo + 1 < Z.of_nat fuel ->
  (forall i ie, index !! i = Some ie -> Z.of_nat i < lo -> str_lt (last_key ie) key) ->
  (forall i ie, index !! i = Some ie -> hi < Z.of_nat i -> ~ str_lt (last_key ie) key) ->
  exists k, 0 <= k <= Z.of_nat (length index) /\
    find_block fuel index key lo hi (if hi + 1 <? Z.of_nat (length index) then hi + 1 else - 1)
    = Some (if k <? Z.of_nat (length index) then k else - 1) /\
    (forall i ie, index !! i = Some ie -> Z.of_nat i < k -> str_lt (last_key ie) key) /\
    (forall i ie, index !! i = Some ie -> k <= Z.of_nat i -> ~ str_lt (last_key ie) key).
Proof.
  induction fuel as [|fuel IH]; intros lo hi Hs Hlo Hhi Hf Hbelow Habove; cbn [find_block]; [lia|].
  destruct (Z.leb_spec lo hi) as [Hle|Hgt].
  - set (mid := lo + Z.quot (hi - lo) 2).
    assert (lo <= mid <= hi) as Hmid.
    { unfold mid. rewrite Z.quot_div_nonneg by lia.
      pose proof (Z.div_pos (hi - lo) 2 ltac:(lia) ltac:(lia)).
      pose proof (Z.div_le_upper_bound (hi - lo) 2 (hi - lo) ltac:(lia) ltac:(lia)). lia. }
    destruct (lookup_lt_is_Some_2 index (Z.to_nat mid)) as [ie Hie]; [lia|]. rewrite Hie.
    assert (forall i j x y, index !! i = Some x -> index !! j = Some y -> (i < j)%nat ->
              str_lt (last_key x) (last_key y)) as Hlt.
    { intros i j x y Hi Hj. apply (StronglySorted_lookup_lt str_lt (last_key <$> index) i j); [done| |].
      - by rewrite list_lookup_fmap, Hi.
      - by rewrite list_lookup_fmap, Hj. }
    destruct (str_ltb (last_key ie) key) eqn:Ec; cbn [negb]; str_cases.
    + destruct (IH (mid + 1) hi) as (k & Hk); [done|lia|lia|lia| |done|by exists k].
      intros i ie' Hi Hlt'. destruct (decide (i = Z.to_nat mid)) as [->|]; [by simplify_eq|].
      transitivity (last_key ie); [|done]. apply (Hlt i (Z.to_nat mid)); auto with lia.
    + destruct (IH lo (mid - 1)) as (k & Hk0 & Heq & Hk); [done|lia|lia|lia|done| |].
      { intros i ie' Hi Hlt' Hc. destruct (decide (i = Z.to_nat mid)) as [->|]; [by simplify_eq|].
        apply Ec. transitivity (last_key ie'); [|done]. apply (Hlt (Z.to_nat mid) i); auto with lia. }
      exists k. split; [done|]. split; [|done]. rewrite <-Heq.
      rewrite (proj2 (Z.ltb_lt (mid - 1 + 1) _)) by lia. f_equal. lia.
  - exists lo. assert (hi + 1 = lo) as -> by lia. split; [lia|]. split; [done|]. split; [done|].
    intros i ie Hi Hk. apply (Habove i); [done|lia].
Qed.

Lemma LastKey_last b e : last b = Some e -> LastKey (mkBlock b 0) = be_key e.
Proof. intros H. unfold LastKey. cbn [entries_]. by rewrite H. Qed.

Lemma le_LastKey b e :
  sorted_entries b -> e ∈ b ->
  be_key e = LastKey (mkBlock b 0) \/ str_lt (be_key e) (LastKey (mkBlock b 0)).
Proof.
  intros Hs He. destruct (last b) as [l|] eqn:El.
  2: { apply last_None in El as ->. by apply not_elem_of_nil in He. }
  rewrite (LastKey_last b l El). apply last_Some in El as [b' ->].
  apply elem_of_app in He as [He|He].
  - right. unfold sorted_entries in Hs. rewrite fmap_app in Hs.
    apply StronglySorted_app in Hs as (Hx & _). apply Hx; [by apply list_elem_of_fmap_2|].
    by apply list_elem_of_singleton.
  - apply list_elem_of_singleton in He as ->. by left.
Qed.

Lemma sorted_cross bs i j bi bj e e' :
  sorted_entries (mjoin bs) -> bs !! i = Some bi -> bs !! j = Some bj -> (i < j)%nat ->
  e ∈ bi -> e' ∈ bj -> str_lt (be_key e) (be_key e').
Proof.
  intros Hs Hi Hj Hij He He'. rewrite (mjoin_split bs i bi Hi) in Hs. unfold sorted_entries in Hs.
  rewrite !fmap_app in Hs. apply StronglySorted_app in Hs as (_ & _ & Hs).
  apply StronglySorted_app in Hs as (Hx & _ & _). apply Hx; apply list_elem_of_fmap_2; [done|].
  apply list_elem_of_join. exists bj. split; [done|]. apply list_elem_of_lookup. exists (j - S i)%nat.
  rewrite lookup_drop, <-Hj. f_equal. lia.
Qed.

Lemma LastKey_elem b : b <> [] -> exists e, e ∈ b /\ LastKey (mkBlock b 0) = be_key e.
Proof.
  intros Hb. destruct (last b) as [e|] eqn:El; [|by apply last_None in El].
  exists e. split; [by apply last_Some_elem_of|by apply LastKey_last].
Qed.

Lemma last_key_index_of bs : forall off, last_key <$> index_of off bs = (fun b => LastKey (mkBlock b 0)) <$> bs.
Proof. induction bs as [|b bs IH]; intros off; cbn [index_of]; [done|]. by rewrite !fmap_cons, IH. Qed.

Lemma index_of_sorted bs off :
  sorted_entries (mjoin bs) -> Forall (fun b => b <> []) bs ->
  StronglySorted str_lt (last_key <$> index_of off bs).
Proof.
  intros Hs Hne. rewrite last_key_index_of.
  induction bs as [|b bs IH]; [constructor|]. rewrite fmap_cons.
  apply Forall_cons in Hne as [Hb Hne].
  destruct (LastKey_elem b Hb) as (e & He & Hl). constructor.
  - apply IH; [|done]. rewrite mjoin_cons in Hs. unfold sorted_entries in *. rewrite fmap_app in Hs.
    by apply StronglySorted_app in Hs as (_ & _ & Hs).
  - apply Forall_fmap, Forall_forall. intros b' Hb'. cbn. rewrite Hl.
    rewrite Forall_forall in Hne. destruct (LastKey_elem b' (Hne _ Hb')) as (e' & He' & ->).
    apply list_elem_of_lookup in Hb' as [j Hj].
    by apply (sorted_cross (b :: bs) 0 (S j) b b' e e'); auto with lia.
Qed.

(** A lookup in the block chosen by the index is a lookup in the table. *)
Lemma find_key_block bs key k b :
  sorted_entries (mjoin bs) -> bs !! k = Some b -> sorted_entries b -> b <> [] ->
  (forall i b', bs !! i = Some b' -> (i < k)%nat -> str_lt (LastKey (mkBlock b' 0)) key) ->
  (forall i b', bs !! i = Some b' -> (i < k)%nat -> sorted_entries b') ->
  ~ str_lt (LastKey (mkBlock b 0)) key ->
  find_key (mjoin bs) key = find_key b key.
Proof.
  intros Hs Hk Hsb Hb Hbelow Hsbelow Hge. rewrite (mjoin_split bs k b Hk).
  rewrite find_key_app_r.
  - apply find_key_app_l. intros e' He' Heq. apply list_elem_of_join in He' as (b' & He' & Hb').
    apply list_elem_of_lookup in Hb' as [j Hj]. rewrite lookup_drop in Hj.
    destruct (LastKey_elem b Hb) as (e & He & Hl).
    apply Hge. rewrite Hl, <-Heq. by apply (sorted_cross bs k (S k + j) b b' e e'); auto with lia.
  - intros e' He' Heq. apply list_elem_of_join in He' as (b' & He' & Hb').
    apply list_elem_of_lookup in Hb' as [j Hj]. apply lookup_take_Some in Hj as [Hj Hlt].
    pose proof (Hbelow j b' Hj Hlt) as Hx.
    destruct (le_LastKey b' e' (Hsbelow j b' Hj Hlt) He') as [Hy|Hy].
    + rewrite <-Hy, Heq in Hx. by apply str_lt_irrefl in Hx.
    + apply (str_lt_irrefl key). rewrite <-Heq at 1. by transitivity (LastKey (mkBlock b' 0)).
Qed.

Lemma Get_table w path bs bloom key :
  healthy w -> files w !! path = Some (table_bytes bs bloom) -> table_ok bs bloom ->
  SSTableReader_Get w (mkReader path bloom (index_of 0 bs) (Z.of_nat (length (mjoin bs)))) key
  = Some (Val (find_key (mjoin bs) key), w).
Proof.
  intros Hw Hf Hok. destruct (table_bounds bs bloom Hok) as (Hn & _).
  unfold SSTableReader_Get. cbn [bloom_ index_].
  destruct (MayContain_total bloom key (to_bloom_wf _ _ Hok)) as [r Hr]. rewrite Hr. destruct r.
  2: { rewrite find_key_None; [done|]. intros e He Heq.
       rewrite (to_bloom_keys _ _ Hok key) in Hr; [done|]. rewrite <-Heq. by apply list_elem_of_fmap_2. }
  destruct (find_block_spec (index_of 0 bs) key (S (length (index_of 0 bs))) 0
              (Z.of_nat (length (index_of 0 bs)) - 1)) as (k & Hk & Hfind & Hlow & Hhigh).
  { apply index_of_sorted; apply Hok. }
  { lia. } { lia. } { lia. } { lia. }
  { intros i ie Hi. apply lookup_lt_Some in Hi. lia. }
  rewrite (proj2 (Z.ltb_ge (_ - 1 + 1) _)) in Hfind by lia.
  rewrite s32_small by (rewrite length_index_of; lia). rewrite Hfind. clear Hfind.
  rewrite length_index_of in Hk |- *.
  assert (forall i b, bs !! i = Some b -> Z.of_nat i < k -> str_lt (LastKey (mkBlock b 0)) key) as Hbelow.
  { intros i b Hb Hlt. exact (Hlow i _ (index_of_lookup bs i 0 b Hb) Hlt). }
  destruct (Z.ltb_spec k (Z.of_nat (length bs))) as [Hlt|Hge].
  - rewrite (proj2 (Z.eqb_neq k (- 1))) by lia.
    destruct (lookup_lt_is_Some_2 bs (Z.to_nat k)) as [b Hb]; [lia|].
    rewrite (index_of_lookup bs _ 0 b Hb). cbn [block_offset block_size].
    rewrite Z.add_0_l, (ReadBlock_table w path bs bloom _ _ _ b) by done.
    destruct (table_block _ _ _ _ Hok Hb) as (_ & Hbn & Hbs & Hbne).
    rewrite Get_sorted by done. cbn [entries_]. do 2 f_equal. f_equal. symmetry.
    apply (find_key_block bs key (Z.to_nat k) b); try done; [apply Hok| | |].
    + intros i b' Hb' Hi. apply (Hbelow i b' Hb'). lia.
    + intros i b' Hb' Hi. by destruct (table_block _ _ _ _ Hok Hb') as (_ & _ & ? & _).
    + apply (Hhigh (Z.to_nat k) _ (index_of_lookup bs _ 0 b Hb)). lia.
  - cbn. rewrite find_key_None; [done|]. intros e He Heq.
    apply list_elem_of_join in He as (b & He & Hb). apply list_elem_of_lookup in Hb as [i Hb].
    pose proof (lookup_lt_Some _ _ _ Hb). pose proof (Hbelow i b Hb ltac:(lia)) as Hx.
    destruct (table_block _ _ _ _ Hok Hb) as (_ & _ & Hbs & _).
    destruct (le_LastKey b e Hbs He) as [Hy|Hy].
    + rewrite <-Hy, Heq in Hx. by apply str_lt_irrefl in Hx.
    + apply (str_lt_irrefl key). rewrite <-Heq at 1. by transitivity (LastKey (mkBlock b 0)).
Qed.

Lemma read_blocks_table w path bs bloom idx n k : forall i acc,
  healthy w -> files w !! path = Some (table_bytes bs bloom) -> table_ok bs bloom ->
  k = (length bs - i)%nat -> (i <= length bs)%nat ->
  read_blocks w (mkReader path bloom idx n) (index_of (len (data_bytes (take i bs))) (drop i bs)) acc
  = (Val (acc ++ mjoin (drop i bs)), w).
Proof.
  induction k as [|k IH]; intros i acc Hw Hf Hok Hk Hi.
  - rewrite drop_ge by lia. cbn. by rewrite app_nil_r.
  - destruct (lookup_lt_is_Some_2 bs i) as [b Hb]; [lia|].
    rewrite (drop_S _ _ _ Hb). cbn [index_of read_blocks block_offset block_size].
    rewrite (ReadBlock_table w path bs bloom idx n i b) by done. cbn [entries_].
    rewrite <-len_app, <-data_bytes_snoc, <-(take_S_r _ _ _ Hb).
    rewrite IH by (done || lia). rewrite mjoin_cons, app_assoc. done.
Qed.

Lemma ReadAll_table w path bs bloom n :
  healthy w -> files w !! path = Some (table_bytes bs bloom) -> table_ok bs bloom ->
  SSTableReader_ReadAll w (mkReader path bloom (index_of 0 bs) n) = (Val (mjoin bs), w).
Proof.
  intros Hw Hf Hok.
  apply (read_blocks_table w path bs bloom (index_of 0 bs) n (length bs) 0 []); auto with lia.
Qed.

(** ** The writer *)

(** The writer has written the blocks [bs] and is filling one with [cur]. *)
Record writing (w : World) (path : str) (st : WriteState) (bs : list (list BlockEntry))
    (cur : list BlockEntry) : Prop := {
  wr_world : ws_world st = w;
  wr_out : ws_out st = mkOfs path true (data_bytes bs);
  wr_index : ws_index st = index_of 0 bs;
  wr_cur : entries_ (ws_block st) = cur;
  wr_block : block_inv (ws_block st);
  wr_offset : ws_offset st = len (data_bytes bs);
  wr_total : ws_total st = Z.of_nat (length (mjoin bs));
  wr_nonempty : Forall (fun b => b <> []) bs
}.

Lemma writing_flush w path st bs cur :
  healthy w -> writing w path st bs cur -> cur <> [] -> encoded_sum (mjoin bs ++ cur) < 2 ^ 30 ->
  exists st', flush_block st = (StatusOk, st') /\ writing w path st' (bs ++ [cur]) [].
Proof.
  intros Hw [Hworld Hout Hidx Hcur Hblk Hoff Htot Hne] Hc Hs. rewrite encoded_sum_app in Hs.
  pose proof (encoded_sum_count (mjoin bs)). pose proof (encoded_sum_count cur).
  pose proof (count_nonempty bs Hne). pose proof (len_data_bytes bs) as Hd.
  assert (Block_Serialize (ws_block st) = block_bytes cur) as Hser.
  { rewrite Block_Serialize_bytes, Hcur; [done| |rewrite Hcur; lia].
    rewrite Hcur. apply small_entries_ok. lia. }
  assert (len (block_bytes cur) = 4 + encoded_sum cur) as Hl by apply length_block_bytes.
  unfold flush_block, Block_IsEmpty. rewrite Hcur. destruct cur as [|e cur'] eqn:Ec; [done|].
  rewrite <-Ec in *. rewrite Hworld, Hout, Hser, ofs_write_healthy by done. cbn [os_good negb].
  eexists. split; [done|]. split; cbn [ws_world ws_out ws_index ws_block ws_offset ws_total]; try done.
  - by rewrite data_bytes_snoc.
  - rewrite index_of_snoc, Hidx, Hoff, Z.add_0_l. fold (len (block_bytes cur)).
    rewrite u32_small by lia. unfold LastKey. by rewrite Hcur.
  - apply block_new_inv.
  - rewrite data_bytes_snoc, len_app, Hoff. fold (len (block_bytes cur)). rewrite u64_small by lia. lia.
  - rewrite mjoin_snoc, length_app. unfold EntryCount. rewrite Hcur. lia.
  - apply Forall_app_2; [done|]. by constructor; [rewrite Ec|].
Qed.

Lemma Block_Add_true b e : (Block_Add b e).1 = true -> entries_ (Block_Add b e).2 = entries_ b ++ [e].
Proof. unfold Block_Add. by destruct (negb _ && _). Qed.

Lemma Block_Add_new e : Block_Add Block_new e = (true, mkBlock [e] (4 + EncodedSize e)).
Proof. done. Qed.

Lemma Block_Add_false b e : (Block_Add b e).1 = false -> entries_ b <> [].
Proof. unfold Block_Add, Block_IsEmpty. by destruct (entries_ b). Qed.

Lemma writing_add w path st bs cur e :
  writing w path st bs cur -> (Block_Add (ws_block st) e).1 = true ->
  writing w path (mkWriteState (ws_world st) (ws_out st) (ws_index st) (Block_Add (ws_block st) e).2
                    (ws_offset st) (ws_total st)) bs (cur ++ [e]).
Proof.
  intros [Hworld Hout Hidx Hcur Hblk Hoff Htot Hne] Hadd.
  split; cbn [ws_world ws_out ws_index ws_block ws_offset ws_total]; try done.
  - by rewrite Block_Add_true, Hcur.
  - by apply block_add_inv.
Qed.

Lemma write_entries_spec w path rest : forall st bs cur,
  healthy w -> writing w path st bs cur -> encoded_sum (mjoin bs ++ cur ++ rest) < 2 ^ 30 ->
  exists st' bs' cur', write_entries st rest = (StatusOk, st') /\ writing w path st' bs' cur' /\
    mjoin bs' ++ cur' = mjoin bs ++ cur ++ rest /\ (cur ++ rest <> [] -> cur' <> []).
Proof.
  induction rest as [|e rest IH]; intros st bs cur Hw Hst Hs.
  - exists st, bs, cur. rewrite app_nil_r. done.
  - cbn [write_entries]. destruct (Block_Add (ws_block st) e) as [added block] eqn:Eadd. destruct added.
    + pose proof (writing_add w path st bs cur e Hst) as Hst1. rewrite Eadd in Hst1. cbn [fst snd] in Hst1.
      destruct (IH _ bs (cur ++ [e]) Hw (Hst1 eq_refl)) as (st' & bs' & cur' & Heq & Hst' & Hj & Hne).
      { by rewrite <-(app_assoc cur). }
      exists st', bs', cur'. split; [done|]. split; [done|]. rewrite <-app_assoc in Hj. split; [done|].
      intros _. apply Hne. by destruct cur.
    + assert (cur <> []) as Hc.
      { rewrite <-(wr_cur _ _ _ _ _ Hst). apply (Block_Add_false _ e). by rewrite Eadd. }
      destruct (writing_flush w path st bs cur Hw Hst Hc) as (st1 & -> & Hst1).
      { rewrite app_assoc, encoded_sum_app in Hs. pose proof (encoded_sum_count (e :: rest)). lia. }
      change (negb (IsOk StatusOk)) with false. cbn beta iota.
      assert (ws_block st1 = Block_new \/ entries_ (ws_block st1) = []) as Hb1
        by (right; apply (wr_cur _ _ _ _ _ Hst1)).
      destruct (Block_Add (ws_block st1) e) as [added1 block1] eqn:Eadd1.
      assert (added1 = true) as ->.
      { unfold Block_Add, Block_IsEmpty in Eadd1.
        rewrite (wr_cur _ _ _ _ _ Hst1) in Eadd1. by injection Eadd1 as <- _. }
      pose proof (writing_add w path st1 (bs ++ [cur]) [] e Hst1) as Hst2. rewrite Eadd1 in Hst2.
      cbn [fst snd] in Hst2.
      destruct (IH _ (bs ++ [cur]) [e] Hw (Hst2 eq_refl)) as (st' & bs' & cur' & Heq & Hst' & Hj & Hne).
      { rewrite mjoin_snoc, <-app_assoc. done. }
      exists st', bs', cur'. split; [done|]. split; [done|]. split; [|intros _; by apply Hne].
      rewrite Hj, mjoin_snoc, <-app_assoc. done.
Qed.

Lemma write_tail_spec w path st bs bloom :
  healthy w -> files w !! path = Some [] -> writing w path st bs [] -> table_ok bs bloom ->
  exists w', write_tail st bloom = (StatusOk, w') /\ healthy w' /\
    files w' !! path = Some (table_bytes bs bloom) /\
    (forall p, p <> path -> files w' !! p = files w !! p).
Proof.
  intros Hw Hf [Hworld Hout Hidx _ _ Hoff Htot _] Hok.
  destruct (table_bounds bs bloom Hok) as (_ & Hm & Hd & Hb & _ & Hi).
  unfold write_tail. rewrite Hworld, Hout, Hidx, Hoff, Htot.
  rewrite ofs_write_healthy by done. cbn [os_good negb].
  rewrite ofs_write_healthy by done. cbn [os_good negb].
  rewrite ofs_write_healthy by done. cbn [os_good negb]. rewrite ofs_flush_healthy by done.
  eexists. split; [done|]. split; [done|]. split.
  - rewrite append_file_lookup, Hf. unfold table_bytes, len in *. cbn [default id app].
    rewrite !(u32_small (Z.of_nat _)), u64_small by lia. by rewrite <-!app_assoc.
  - intros p Hp. by rewrite append_file_other.
Qed.

Lemma bloom_for_keys es :
  es <> [] -> encoded_sum es < 2 ^ 30 ->
  exists bloom, Add_all (BloomFilter_new (Z.of_nat (length es)) 10) (be_key <$> es) = Some bloom /\
    bloom_wf bloom /\ num_bits_ bloom < 2 ^ 32 /\ len (bits_ bloom) < 2 ^ 31 /\
    0 <= num_hash_functions_ bloom < 2 ^ 31 /\
    forall key, key ∈ be_key <$> es -> MayContain bloom key = Some true.
Proof.
  intros Hne Hs. pose proof (encoded_sum_count es).
  destruct (bloom_new_wf (Z.of_nat (length es)) 10 ltac:(lia)) as (Hwf & Hn & Hb).
  destruct (Add_all_spec (be_key <$> es) _ Hwf) as (bloom & -> & Hwf' & Hn' & Hh & Hl & Hk).
  exists bloom. split; [done|]. split; [done|]. unfold len. rewrite Hl, Hn', Hh.
  change (num_hash_functions_ (BloomFilter_new (Z.of_nat (length es)) 10)) with 7.
  split_and!; auto; lia.
Qed.

(** ** The contract of writer and reader *)

(** Every lookup and the full scan of the table at [path] return [es]. *)
Definition table_at (w : World) (path : str) (es : list BlockEntry) : Prop :=
  exists rd, SSTableReader_Open w path = (Val rd, w) /\ num_entries_ rd = Z.of_nat (length es) /\
    SSTableReader_ReadAll w rd = (Val es, w) /\
    forall key, SSTableReader_Get w rd key = Some (Val (find_key es key), w).

Lemma table_bytes_at w path bs bloom :
  healthy w -> files w !! path = Some (table_bytes bs bloom) -> table_ok bs bloom ->
  table_at w path (mjoin bs).
Proof.
  intros Hw Hf Hok. eexists. split; [by apply SSTableReader_Open_table|]. split; [done|].
  split; [by apply ReadAll_table|]. intros key. by apply Get_table.
Qed.

Lemma SSTableWriter_Write_spec w path iter :
  healthy w -> iter <> [] -> sorted_entries (entry_of_iter <$> iter) ->
  encoded_sum (entry_of_iter <$> iter) < 2 ^ 30 ->
  exists w' bs bloom, SSTableWriter_Write w path iter = Some (StatusOk, w') /\ healthy w' /\
    files w' !! path = Some (table_bytes bs bloom) /\ table_ok bs bloom /\
    mjoin bs = entry_of_iter <$> iter /\
    (forall p, p <> path -> files w' !! p = files w !! p).
Proof.
  intros Hw Hne Hsort Hs. unfold SSTableWriter_Write. rewrite ofs_open_trunc_healthy by done.
  set (w1 := mkWorld (<[path := []]> (files w)) (faults w)).
  assert (healthy w1) as Hw1 by done. set (es := entry_of_iter <$> iter) in *.
  assert (es <> []) as Hes by (unfold es; by destruct iter).
  destruct (bloom_for_keys es Hes Hs) as (bloom & Hbloom & Hbwf & Hb1 & Hb2 & Hb3 & Hkeys).
  rewrite Hbloom. destruct es as [|e0 es0] eqn:Ees; [done|]. rewrite <-Ees in *.
  destruct (write_entries_spec w1 path es (mkWriteState w1 (mkOfs path true []) [] Block_new 0 0) [] [])
    as (st1 & bs1 & cur & -> & Hst1 & Hj & Hc); [done| |done|].
  { split; try done. apply block_new_inv. }
  cbn [app] in Hj, Hc. change (negb (IsOk StatusOk)) with false. cbn beta iota.
  destruct (writing_flush w1 path st1 bs1 cur Hw1 Hst1) as (st2 & -> & Hst2);
    [by apply Hc|by rewrite Hj|].
  change (negb (IsOk StatusOk)) with false. cbn beta iota.
  assert (mjoin (bs1 ++ [cur]) = es) as Hall by (by rewrite mjoin_snoc).
  assert (table_ok (bs1 ++ [cur]) bloom) as Hok.
  { split; rewrite ?Hall; try done. apply (wr_nonempty _ _ _ _ _ Hst2). }
  destruct (write_tail_spec w1 path st2 (bs1 ++ [cur]) bloom Hw1) as (w' & -> & Hw' & Hf' & Ho);
    [by apply lookup_insert_eq|done|done|].
  exists w', (bs1 ++ [cur]), bloom. split_and!; try done.
  intros p Hp. rewrite Ho by done. by apply lookup_insert_ne.
Qed.

(** ** What a write can touch, under every schedule of faults *)

Definition only_touches (path : str) (w w' : World) : Prop :=
  forall p, p <> path -> files w' !! p = files w !! p.

#[local] Instance only_touches_refl path : Reflexive (only_touches path).
Proof. by intros w p. Qed.

#[local] Instance only_touches_trans path : Transitive (only_touches path).
Proof. intros w1 w2 w3 H1 H2 p Hp. by rewrite H2, H1. Qed.

Lemma ofs_write_touches w os bs os' w' :
  ofs_write w os bs = (os', w') -> only_touches (os_path os) w w' /\ os_path os' = os_path os.
Proof.
  unfold ofs_write. destruct (os_good os); [|by intros [= <- <-]].
  destruct (next_fault w) as [f w1] eqn:E. apply next_fault_files in E.
  destruct f; intros [= <- <-]; (split; [|done]); intros p Hp; [by rewrite E|].
  by rewrite append_file_other, E.
Qed.

Lemma ofs_flush_touches w os os' w' :
  ofs_flush w os = (os', w') -> only_touches (os_path os) w w' /\ os_path os' = os_path os.
Proof.
  unfold ofs_flush. destruct (os_good os); [|by intros [= <- <-]].
  destruct (next_fault w) as [f w1] eqn:E. apply next_fault_files in E.
  destruct f; intros [= <- <-]; (split; [|done]); intros p Hp; by rewrite append_file_other, E.
Qed.

Lemma flush_block_touches st s st' :
  flush_block st = (s, st') ->
  only_touches (os_path (ws_out st)) (ws_world st) (ws_world st') /\
  os_path (ws_out st') = os_path (ws_out st).
Proof.
  unfold flush_block. destruct (Block_IsEmpty _); [by intros [= _ <-]|].
  destruct (ofs_write _ _ _) as [file w] eqn:E. apply ofs_write_touches in E as [E1 E2].
  destruct (negb _); by intros [= _ <-].
Qed.

Lemma write_entries_touches entries : forall st s st',
  write_entries st entries = (s, st') ->
  only_touches (os_path (ws_out st)) (ws_world st) (ws_world st') /\
  os_path (ws_out st') = os_path (ws_out st).
Proof.
  induction entries as [|e entries IH]; intros st s st'; cbn [write_entries]; [by intros [= _ <-]|].
  destruct (Block_Add (ws_block st) e) as [[] block].
  - intros H. by apply IH in H.
  - destruct (flush_block st) as [s1 st1] eqn:E. apply flush_block_touches in E as [E1 E2].
    destruct (negb (IsOk s1)); [by intros [= _ <-]|].
    destruct (Block_Add (ws_block st1) e) as [added block1]. intros H. apply IH in H as [H1 H2].
    cbn [ws_out ws_world] in H1, H2. rewrite E2 in H1, H2. split; [by etransitivity|done].
Qed.

Lemma write_tail_touches st bloom s w' :
  write_tail st bloom = (s, w') -> only_touches (os_path (ws_out st)) (ws_world st) w'.
Proof.
  unfold write_tail.
  destruct (ofs_write (ws_world st) _ _) as [f1 w1] eqn:E1. apply ofs_write_touches in E1 as [E1 P1].
  destruct (negb (os_good f1)); [by intros [= _ <-]|].
  destruct (ofs_write w1 f1 _) as [f2 w2] eqn:E2. apply ofs_write_touches in E2 as [E2 P2].
  rewrite P1 in E2, P2. destruct (negb (os_good f2)); [intros [= _ <-]; by etransitivity|].
  destruct (ofs_write w2 f2 _) as [f3 w3] eqn:E3. apply ofs_write_touches in E3 as [E3 P3].
  rewrite P2 in E3, P3. assert (only_touches (os_path (ws_out st)) (ws_world st) w3) as H3
    by (etransitivity; [exact E1|]; by etransitivity).
  destruct (negb (os_good f3)); [by intros [= _ <-]|].
  destruct (ofs_flush w3 f3) as [f4 w4] eqn:E4. apply ofs_flush_touches in E4 as [E4 P4].
  rewrite P3 in E4. intros [= _ <-]. by etransitivity.
Qed.

(** The file of a table that was reported as written exists. *)
Lemma write_tail_exists st bloom s w' :
  write_tail st bloom = (s, w') -> IsOk s = true -> is_Some (files w' !! os_path (ws_out st)).
Proof.
  unfold write_tail.
  destruct (ofs_write (ws_world st) _ _) as [f1 w1] eqn:E1. apply ofs_write_touches in E1 as [_ P1].
  destruct (negb (os_good f1)); [by intros [= <- _]|].
  destruct (ofs_write w1 f1 _) as [f2 w2] eqn:E2. apply ofs_write_touches in E2 as [_ P2].
  destruct (negb (os_good f2)); [by intros [= <- _]|].
  destruct (ofs_write w2 f2 _) as [f3 w3] eqn:E3. apply ofs_write_touches in E3 as [_ P3].
  destruct (os_good f3) eqn:G3; [|by intros [= <- _]]. cbn [negb]. unfold ofs_flush. rewrite G3.
  destruct (next_fault w3) as [f w4]. rewrite <-P1, <-P2, <-P3.
  destruct f; intros [= _ <-] _; rewrite append_file_lookup; eauto.
Qed.

(** * Properties *)

(** C16. Writer and reader agree: a table written from the entries of a memtable
    in strictly increasing key order (total encoded size below 1 GiB, no I/O
    fault) opens again; [NumEntries] is their number; [ReadAll] returns them
    all in order; for every key, present or not, [Get] returns exactly the
    entry with that key (tombstones included) or nothing, never an error; and
    no other file changes. *)
Theorem sstable_write_read (w : World) (path : str) (iter : list (str * SkipListValue))
    (Hw : healthy w) (Hne : iter <> []) (Hsorted : sorted_entries (entry_of_iter <$> iter))
    (Hsize : encoded_sum (entry_of_iter <$> iter) < 2 ^ 30) :
  exists w' rd, SSTableWriter_Write w path iter = Some (StatusOk, w') /\
    SSTableReader_Open w' path = (Val rd, w') /\
    num_entries_ rd = Z.of_nat (length iter) /\
    SSTableReader_ReadAll w' rd = (Val (entry_of_iter <$> iter), w') /\
    (forall key, SSTableReader_Get w' rd key = Some (Val (find_key (entry_of_iter <$> iter) key), w')) /\
    (forall p, p <> path -> files w' !! p = files w !! p).
Proof.
  destruct (SSTableWriter_Write_spec w path iter Hw Hne Hsorted Hsize)
    as (w' & bs & bloom & -> & Hw' & Hf & Hok & Hj & Ho).
  destruct (table_bytes_at w' path bs bloom Hw' Hf Hok) as (rd & Hopen & Hn & Hall & Hget).
  rewrite Hj in Hn, Hall, Hget. rewrite length_fmap in Hn. exists w', rd. done.
Qed.

Definition sample_iter : list (str * SkipListValue) :=
  [(lit "a", mkSkipListValue false (lit "1")); (lit "b", mkSkipListValue true []);
   (lit "c", mkSkipListValue false (lit "3"))].

Lemma sstable_write_read_witness :
  exists w' rd, SSTableWriter_Write (mkWorld ∅ []) (lit "/d/level0_1.sst") sample_iter = Some (StatusOk, w') /\
    SSTableReader_Open w' (lit "/d/level0_1.sst") = (Val rd, w') /\
    num_entries_ rd = 3 /\
    SSTableReader_ReadAll w' rd = (Val (entry_of_iter <$> sample_iter), w') /\
    (forall key, SSTableReader_Get w' rd key
                 = Some (Val (find_key (entry_of_iter <$> sample_iter) key), w')) /\
    (forall p, p <> lit "/d/level0_1.sst" -> files w' !! p = (∅ : gmap str bytes) !! p).
Proof.
  apply (sstable_write_read (mkWorld ∅ []) (lit "/d/level0_1.sst") sample_iter).
  - reflexivity.
  - discriminate.
  - repeat constructor; by_vm.
  - vm_compute. reflexivity.
Defined.

(** Containment of a failing write: for every state of the file system and
    every schedule of I/O faults, writing a table touches no file but its own,
    so the tables already in the catalogue survive it; and an empty iterator
    is refused with InvalidArgument and leaves no file behind whenever the
    file could be created; a table reported as written has a file. *)
Theorem sstable_write_frame (w : World) (path : str) (iter : list (str * SkipListValue))
    (Hcount : Z.of_nat (length iter) < 2 ^ 60) :
  exists s w', SSTableWriter_Write w path iter = Some (s, w') /\
    (forall p, p <> path -> files w' !! p = files w !! p) /\
    (iter = [] -> IsOk s = false /\ (code_ s = kInvalidArgument -> files w' !! path = None)) /\
    (IsOk s = true -> is_Some (files w' !! path)).
Proof.
  unfold SSTableWriter_Write, ofs_open_trunc. destruct (next_fault w) as [f w0] eqn:E0.
  apply next_fault_files in E0.
  destruct f; [|do 2 eexists; split; [done|]; cbn; split_and!; [by intros p _; rewrite E0|by intros _|done]].
  set (w1 := mkWorld (<[path := []]> (files w0)) (faults w0)).
  assert (only_touches path w w1) as H1.
  { intros p Hp. cbn. by rewrite lookup_insert_ne, E0. }
  destruct iter as [|kv iter].
  { do 2 eexists. split; [done|]. split_and!; [|intros _; split; [done|intros _; apply lookup_delete_eq]|done].
    intros p Hp. rewrite <-H1 by done. by apply lookup_delete_ne. }
  rewrite fmap_cons. set (es := entry_of_iter kv :: (entry_of_iter <$> iter)).
  assert (Z.of_nat (length es) < 2 ^ 60) as Hes by (unfold es; cbn [length] in *; by rewrite length_fmap).
  destruct (bloom_new_wf (Z.of_nat (length es)) 10 ltac:(lia)) as (Hwf & _).
  destruct (Add_all_spec (be_key <$> es) _ Hwf) as (bloom & -> & _).
  destruct (write_entries _ es) as [s1 st1] eqn:E1. apply write_entries_touches in E1 as [T1 P1].
  cbn [ws_out os_path ws_world] in T1, P1.
  assert (only_touches path w (ws_world st1)) as H2 by (by etransitivity).
  destruct (IsOk s1) eqn:Ok1; cbn [negb]; [|do 2 eexists; split_and!; [done|done|done|by rewrite Ok1]].
  destruct (flush_block st1) as [s2 st2] eqn:E2. apply flush_block_touches in E2 as [T2 P2].
  rewrite P1 in T2, P2. assert (only_touches path w (ws_world st2)) as H3 by (by etransitivity).
  destruct (IsOk s2) eqn:Ok2; cbn [negb]; [|do 2 eexists; split_and!; [done|done|done|by rewrite Ok2]].
  destruct (write_tail st2 bloom) as [s3 w3] eqn:E3. pose proof (write_tail_exists _ _ _ _ E3) as H4.
  apply write_tail_touches in E3. rewrite P2 in E3, H4. do 2 eexists. split_and!; [done| |done|done].
  intros p Hp. by rewrite E3, H3.
Qed.

(** A world in which the Bloom filter block is cut off after five bytes. *)
Definition faulty_world : World :=
  mkWorld {[ lit "other" := lit "x" ]} [NoFault; NoFault; Fault 5].

Lemma sstable_write_frame_witness :
  exists s w', SSTableWriter_Write faulty_world (lit "t.sst") sample_iter = Some (s, w') /\
    (forall p, p <> lit "t.sst" -> files w' !! p = files faulty_world !! p) /\
    (sample_iter = [] -> IsOk s = false /\ (code_ s = kInvalidArgument -> files w' !! lit "t.sst" = None)) /\
    (IsOk s = true -> is_Some (files w' !! lit "t.sst")).
Proof.
  apply (sstable_write_frame faulty_world (lit "t.sst") sample_iter). vm_compute. reflexivity.
Defined.

(** ** Behaviour outside the contract *)

(** The final flush is not checked: [Write] reports success although the file
    is empty. *)
Example write_ignores_flush_failure :
  match SSTableWriter_Write (mkWorld ∅ [NoFault; NoFault; NoFault; NoFault; NoFault; Fault 0])
          (lit "t.sst") sample_iter with
  | Some (s, w') => IsOk s = true /\ files w' !! lit "t.sst" = Some []
  | None => False
  end.
Proof. vm_compute. split; reflexivity. Qed.

(** The filter of a file is not validated: a table whose [num_bits] field is
    zero opens, and a lookup in it takes a remainder by zero. *)
Example zero_bits_table_opens :
  let bs := [[mkBlockEntry (lit "a") (lit "1") false]] in
  let w := mkWorld {[ lit "t.sst" := table_bytes bs (mkBloomFilter [] 0 7) ]} [] in
  match SSTableReader_Open w (lit "t.sst") with
  | (Val rd, w') => SSTableReader_Get w' rd (lit "a") = None
  | (Err _, _) => False
  end.
Proof. vm_compute. reflexivity. Qed.
