(* ===== verification/Compaction.v ===== *)
(** * [CompactionManager]: leveled compaction

    Models src/src/storage/compaction/leveled_compaction.h and
    compaction_manager.{h,cpp}: the catalogue of live tables, the triggers,
    the selection of input files, the N-way merge and one compaction run.

    [std::sort] is the interface [StdSort] of Prelude.v.  The priority queue
    of the merge is a list from which the least item (smallest key, then
    highest sequence number) is taken; two items are equivalent only when key
    and sequence number agree, which the numbers assigned by [RunCompaction]
    exclude.  The draining loop has a fuel of one more than the number of
    entries read, one entry being popped per iteration.  [None] is an access
    outside a vector, the skip list's or the filter's [None], or exhausted
    fuel.  An exception of [std::filesystem] leaves [RunCompaction], since nothing
    in it catches one: each function says with an [Outcome] whether it returned,
    beside the state that it leaves behind.  The wall-clock duration in the statistics is left out. *)

From S2P Require Import Prelude Status BinarySerializer FileSystem Mt19937 SkipList BloomFilter Block SSTable Checkpoint.

(** ** Leveled compaction constants *)

Definition kNumLevels : Z := 7.
Definition kLevel0CompactionTrigger : Z := 4.
Definition kLevel1MaxBytes : Z := 10 * 1024 * 1024.
Definition kLevelMultiplier : Z := 10.

Definition OverlapsWith (m : SSTableMeta) (lo hi : str) : bool :=
  negb (str_ltb (largest_key m) lo || str_ltb hi (smallest_key m)).

Fixpoint multiply_levels (n : nat) (result : Z) : Z :=
  match n with
  | O => result
  | S n' => multiply_levels n' (u64 (result * kLevelMultiplier))
  end.

Definition MaxBytesForLevel (level : Z) : Z :=
  if level <=? 0 then 0 else multiply_levels (Z.to_nat (level - 1)) kLevel1MaxBytes.

(** ** The manager *)

Record CompactionManager : Set := mkCM {
  cm_data_dir_ : str;
  max_level_ : Z;
  files_ : list SSTableMeta;
  next_file_number_ : Z
}.

Definition CompactionManager_new (data_dir : str) (max_level : Z) : CompactionManager :=
  mkCM data_dir max_level [] 1.

Definition set_files (cm : CompactionManager) (fs : list SSTableMeta) : CompactionManager :=
  mkCM (cm_data_dir_ cm) (max_level_ cm) fs (next_file_number_ cm).

Definition AddFile (cm : CompactionManager) (meta : SSTableMeta) : Status * CompactionManager :=
  if (level meta <? 0) || (max_level_ cm <=? level meta)
  then (mkStatus kInvalidArgument (lit "Invalid level: " ++ to_string (level meta)), cm)
  else (StatusOk, set_files cm (files_ cm ++ [meta])).

Definition RemoveFile (cm : CompactionManager) (path : str) : CompactionManager :=
  set_files cm (filter (fun f => filepath f <> path) (files_ cm)).

Definition TotalBytesAtLevel (cm : CompactionManager) (lvl : Z) : Z :=
  foldl (fun total f => if level f =? lvl then u64 (total + file_size_bytes f) else total) 0 (files_ cm).

Definition Level0FileCount (cm : CompactionManager) : Z :=
  Z.of_nat (length (filter (fun f => level f = 0) (files_ cm))).

Definition AllFiles (cm : CompactionManager) : list SSTableMeta := files_ cm.

(** The loop [for (level = 1; level < max_level_ - 1; ++level)]: [n] levels
    left, the next one being [lvl]. *)
Fixpoint pick_level (cm : CompactionManager) (n : nat) (lvl : Z) : Z :=
  match n with
  | O => - 1
  | S n' =>
      if MaxBytesForLevel lvl <? TotalBytesAtLevel cm lvl then lvl
      else pick_level cm n' (lvl + 1)
  end.

Definition PickCompactionLevel (cm : CompactionManager) : Z :=
  if kLevel0CompactionTrigger <=? Level0FileCount cm then 0
  else pick_level cm (Z.to_nat (max_level_ cm - 2)) 1.

Definition NeedsCompaction (cm : CompactionManager) : bool := negb (PickCompactionLevel cm =? - 1).

(** [operator<<] with [std::setw(8)] and [std::setfill('0')]. *)
Definition pad8 (s : str) : str := replicate (8 - length s) Byte.x30 ++ s.

Definition GenerateOutputPath (cm : CompactionManager) (lvl : Z) : str * CompactionManager :=
  (cm_data_dir_ cm ++ lit "/level" ++ to_string lvl ++ lit "_"
     ++ pad8 (to_string (next_file_number_ cm)) ++ lit ".sst",
   mkCM (cm_data_dir_ cm) (max_level_ cm) (files_ cm) (u64 (next_file_number_ cm + 1))).

(** ** Statistics *)

Record CompactionStats : Set := mkStats {
  source_level : Z; target_level : Z; files_read : Z; files_written : Z;
  bytes_read : Z; bytes_written : Z; keys_merged : Z; tombstones_dropped : Z;
  duplicate_keys_dropped : Z
}.

Definition stats_read (st : CompactionStats) (keys bytes : Z) : CompactionStats :=
  mkStats (source_level st) (target_level st) (files_read st) (files_written st)
    (u64 (bytes_read st + bytes)) (bytes_written st) (u64 (keys_merged st + keys))
    (tombstones_dropped st) (duplicate_keys_dropped st).

Definition stats_written (st : CompactionStats) (bytes : Z) : CompactionStats :=
  mkStats (source_level st) (target_level st) (files_read st) (files_written st + 1)
    (bytes_read st) (u64 (bytes_written st + bytes)) (keys_merged st)
    (tombstones_dropped st) (duplicate_keys_dropped st).

Definition stats_tombstone (st : CompactionStats) : CompactionStats :=
  mkStats (source_level st) (target_level st) (files_read st) (files_written st)
    (bytes_read st) (bytes_written st) (keys_merged st)
    (u64 (tombstones_dropped st + 1)) (duplicate_keys_dropped st).

Definition stats_duplicate (st : CompactionStats) : CompactionStats :=
  mkStats (source_level st) (target_level st) (files_read st) (files_written st)
    (bytes_read st) (bytes_written st) (keys_merged st)
    (tombstones_dropped st) (u64 (duplicate_keys_dropped st + 1)).

(** ** The merge *)

Record MergeItem : Set := mkItem { mi_entry : BlockEntry; mi_seq : Z; mi_file : nat }.

(** [MergeItem::operator>] *)
Definition item_gt (a b : MergeItem) : bool :=
  if negb (str_eqb (be_key (mi_entry a)) (be_key (mi_entry b)))
  then str_ltb (be_key (mi_entry b)) (be_key (mi_entry a))
  else mi_seq a <? mi_seq b.

(** [heap.top()] and [heap.pop()]. *)
Fixpoint pop_least (best : MergeItem) (heap : list MergeItem) : MergeItem * list MergeItem :=
  match heap with
  | [] => (best, [])
  | x :: heap =>
      if item_gt best x
      then let '(top, rest) := pop_least x heap in (top, best :: rest)
      else let '(top, rest) := pop_least best heap in (top, x :: rest)
  end.

Record MergeState : Set := mkMS {
  ms_world : World;
  ms_cm : CompactionManager;
  ms_heap : list MergeItem;
  ms_next : list nat;                   (* the index of the next entry of each file *)
  ms_metas : list SSTableMeta;          (* output_metas *)
  ms_entries : list BlockEntry;         (* output_entries *)
  ms_last_key : str;                    (* last_emitted_key *)
  ms_bytes : Z;                         (* out_bytes_estimate *)
  ms_path : str;                        (* current_output_path *)
  ms_stats : CompactionStats
}.

Definition kMaxOutputBytes : Z := 64 * 1024 * 1024.

Section compaction.
Context {abi : Abi} {sort : StdSort}.

Definition GetFilesAtLevel (cm : CompactionManager) (lvl : Z) : list SSTableMeta :=
  std_sort (fun a b => str_ltb (smallest_key a) (smallest_key b))
    (filter (fun f => level f = lvl) (files_ cm)).

(** The key range of the selected source files. *)
Definition widen (range : str * str) (f : SSTableMeta) : str * str :=
  (if str_ltb (smallest_key f) range.1 then smallest_key f else range.1,
   if str_ltb range.2 (largest_key f) then largest_key f else range.2).

Definition SelectCompactionFiles (cm : CompactionManager) (source_level : Z) :
    list SSTableMeta * list SSTableMeta :=
  match GetFilesAtLevel cm source_level with
  | [] => ([], [])
  | (first :: _) as source_files =>
      let inputs := if source_level =? 0 then source_files else [first] in
      let '(range_lo, range_hi) := foldl widen (smallest_key first, largest_key first) inputs in
      let target_files := GetFilesAtLevel cm (source_level + 1) in
      (inputs, filter (fun f => OverlapsWith f range_lo range_hi = true) target_files)
  end.

(** The skip list built by [WriteVectorToSSTable]. *)
Fixpoint fill_skiplist (sl : SkipList) (entries : list BlockEntry) : option SkipList :=
  match entries with
  | [] => Some sl
  | e :: entries =>
      match (if be_is_tombstone e then SkipList_Delete sl (be_key e)
             else SkipList_Put sl (be_key e) (be_value e)) with
      | Some sl => fill_skiplist sl entries
      | None => None
      end
  end.

(** [SSTableWriter::Write] begins with [create_directories] of the directory of
    [path], which is never empty here: an output path has a slash. *)
Definition WriteVectorToSSTable (w : World) (path : str) (entries : list BlockEntry) :
    option (Outcome Status * World) :=
  match entries with
  | [] => Some (Ret (mkStatus kInvalidArgument (lit "Cannot write empty SSTable")), w)
  | _ :: _ =>
      match fill_skiplist SkipList_new entries with
      | None => None
      | Some sl =>
          match SkipList_entries sl with
          | None => None
          | Some iter =>
              let '(made, w) := try_create_directories w in
              match made with
              | Throw => Some (Throw, w)
              | Ret _ =>
                  match SSTableWriter_Write w path iter with
                  | None => None
                  | Some (s, w) => Some (Ret s, w)
                  end
              end
          end
      end
  end.

(** [SSTableReader::Open] begins with [exists], which may throw; when it
    returns, its result is what [SSTableReader_Open] looks at. *)
Definition Open_input (w : World) (path : str) : Outcome (ErrorOr SSTableReader) * World :=
  let '(found, w) := try_exists w path in
  match found with
  | Throw => (Throw, w)
  | Ret _ => let '(reader, w) := SSTableReader_Open w path in (Ret reader, w)
  end.

(** The loop that reads every input file. *)
Fixpoint read_inputs (w : World) (inputs : list SSTableMeta) (stats : CompactionStats) :
    Outcome (ErrorOr (list (list BlockEntry))) * CompactionStats * World :=
  match inputs with
  | [] => (Ret (Val []), stats, w)
  | meta :: inputs =>
      let '(reader, w) := Open_input w (filepath meta) in
      match reader with
      | Throw => (Throw, stats, w)
      | Ret (Err s) => (Ret (Err s), stats, w)
      | Ret (Val rd) =>
          let '(all, w) := SSTableReader_ReadAll w rd in
          match all with
          | Err s => (Ret (Err s), stats, w)
          | Val entries =>
              let stats := stats_read stats (Z.of_nat (length entries)) (file_size_bytes meta) in
              let '(rest, stats, w) := read_inputs w inputs stats in
              match rest with
              | Throw => (Throw, stats, w)
              | Ret (Err s) => (Ret (Err s), stats, w)
              | Ret (Val rest) => (Ret (Val (entries :: rest)), stats, w)
              end
          end
      end
  end.

(** Seeding the heap with the first entry of each file. *)
Fixpoint seed_heap (i : nat) (file_data : list (list BlockEntry)) (inputs : list SSTableMeta) :
    list MergeItem * list nat :=
  match file_data, inputs with
  | entries :: file_data, meta :: inputs =>
      let '(heap, next) := seed_heap (S i) file_data inputs in
      match entries with
      | [] => (heap, 0%nat :: next)
      | e :: _ => (mkItem e (sequence_number meta) i :: heap, 1%nat :: next)
      end
  | _, _ => ([], [])
  end.

(** [exists(path) ? file_size(path) : estimate] *)
Definition output_size (w : World) (path : str) (estimate : Z) : Outcome Z * World :=
  let '(found, w) := try_exists w path in
  match found with
  | Throw => (Throw, w)
  | Ret false => (Ret estimate, w)
  | Ret true => try_file_size w path
  end.

Definition set_world (st : MergeState) (w : World) : MergeState :=
  mkMS w (ms_cm st) (ms_heap st) (ms_next st) (ms_metas st) (ms_entries st) (ms_last_key st)
    (ms_bytes st) (ms_path st) (ms_stats st).

(** The lambda [flush_output]. *)
Definition flush_output (target_level : Z) (st : MergeState) : option (Outcome Status * MergeState) :=
  match ms_entries st with
  | [] => Some (Ret StatusOk, st)
  | first :: _ =>
      match WriteVectorToSSTable (ms_world st) (ms_path st) (ms_entries st) with
      | None => None
      | Some (Throw, w) => Some (Throw, set_world st w)
      | Some (Ret ws, w) =>
          if negb (IsOk ws) then Some (Ret ws, set_world st w)
          else
            let '(size, w) := output_size w (ms_path st) (ms_bytes st) in
            match size with
            | Throw => Some (Throw, set_world st w)
            | Ret size =>
                let meta := mkMeta (ms_path st) target_level (be_key first)
                              (be_key (default first (last (ms_entries st)))) size
                              (next_file_number_ (ms_cm st)) in
                let '(path, cm) := GenerateOutputPath (ms_cm st) target_level in
                Some (Ret StatusOk, mkMS w cm (ms_heap st) (ms_next st) (ms_metas st ++ [meta]) []
                                      (ms_last_key st) 0 path (stats_written (ms_stats st) size))
            end
      end
  end.

(** The loop that drains the heap. *)
Fixpoint drain (fuel : nat) (file_data : list (list BlockEntry)) (inputs : list SSTableMeta)
    (target_level : Z) (is_bottom_level : bool) (st : MergeState) : option (Outcome Status * MergeState) :=
  match fuel with
  | O => None
  | S fuel' =>
      match ms_heap st with
      | [] => Some (Ret StatusOk, st)
      | x :: heap =>
          let '(item, heap) := pop_least x heap in
          match file_data !! mi_file item, ms_next st !! mi_file item, inputs !! mi_file item with
          | Some entries, Some next_idx, Some meta =>
              let '(heap, next) :=
                match entries !! next_idx with
                | Some e => (heap ++ [mkItem e (sequence_number meta) (mi_file item)],
                             <[mi_file item := S next_idx]> (ms_next st))
                | None => (heap, ms_next st)
                end in
              let e := mi_entry item in
              if str_eqb (be_key e) (ms_last_key st) then
                drain fuel' file_data inputs target_level is_bottom_level
                  (mkMS (ms_world st) (ms_cm st) heap next (ms_metas st) (ms_entries st)
                     (ms_last_key st) (ms_bytes st) (ms_path st) (stats_duplicate (ms_stats st)))
              else if be_is_tombstone e && is_bottom_level then
                drain fuel' file_data inputs target_level is_bottom_level
                  (mkMS (ms_world st) (ms_cm st) heap next (ms_metas st) (ms_entries st)
                     (be_key e) (ms_bytes st) (ms_path st) (stats_tombstone (ms_stats st)))
              else
                let st := mkMS (ms_world st) (ms_cm st) heap next (ms_metas st)
                            (ms_entries st ++ [e]) (be_key e) (u64 (ms_bytes st + EncodedSize e))
                            (ms_path st) (ms_stats st) in
                if kMaxOutputBytes <=? ms_bytes st then
                  match flush_output target_level st with
                  | None => None
                  | Some (Throw, st) => Some (Throw, st)
                  | Some (Ret s, st) =>
                      if negb (IsOk s) then Some (Ret s, st)
                      else drain fuel' file_data inputs target_level is_bottom_level st
                  end
                else drain fuel' file_data inputs target_level is_bottom_level st
          | _, _, _ => None
          end
      end
  end.

Definition MergeFiles (w : World) (cm : CompactionManager) (inputs : list SSTableMeta)
    (target_level : Z) (stats : CompactionStats) :
    option (Outcome (ErrorOr (list SSTableMeta)) * CompactionStats * CompactionManager * World) :=
  let '(read, stats, w) := read_inputs w inputs stats in
  match read with
  | Throw => Some (Throw, stats, cm, w)
  | Ret (Err s) => Some (Ret (Err s), stats, cm, w)
  | Ret (Val file_data) =>
      let '(heap, next) := seed_heap 0 file_data inputs in
      let is_bottom_level := target_level =? max_level_ cm - 1 in
      let '(path, cm) := GenerateOutputPath cm target_level in
      let st := mkMS w cm heap next [] [] [] 0 path stats in
      match drain (S (length (mjoin file_data))) file_data inputs target_level is_bottom_level st with
      | None => None
      | Some (Throw, st) => Some (Throw, ms_stats st, ms_cm st, ms_world st)
      | Some (Ret s, st) =>
          if negb (IsOk s) then Some (Ret (Err s), ms_stats st, ms_cm st, ms_world st)
          else
            match flush_output target_level st with
            | None => None
            | Some (Throw, st) => Some (Throw, ms_stats st, ms_cm st, ms_world st)
            | Some (Ret s, st) =>
                if negb (IsOk s) then Some (Ret (Err s), ms_stats st, ms_cm st, ms_world st)
                else Some (Ret (Val (ms_metas st)), ms_stats st, ms_cm st, ms_world st)
            end
      end
  end.

(** ** One compaction run *)

Definition set_sequence (m : SSTableMeta) (seq : Z) : SSTableMeta :=
  mkMeta (filepath m) (level m) (smallest_key m) (largest_key m) (file_size_bytes m) seq.

Definition renumber_sources (total : Z) (fs : list SSTableMeta) : list SSTableMeta :=
  imap (fun i f => set_sequence f (total - Z.of_nat i)) fs.

Definition renumber_targets (fs : list SSTableMeta) : list SSTableMeta :=
  imap (fun i f => set_sequence f (Z.of_nat i)) fs.

Fixpoint add_files (cm : CompactionManager) (metas : list SSTableMeta) : Status * CompactionManager :=
  match metas with
  | [] => (StatusOk, cm)
  | meta :: metas =>
      let '(s, cm) := AddFile cm meta in
      if negb (IsOk s) then (s, cm) else add_files cm metas
  end.

Fixpoint remove_inputs (w : World) (cm : CompactionManager) (inputs : list SSTableMeta) :
    Outcome () * CompactionManager * World :=
  match inputs with
  | [] => (Ret (), cm, w)
  | old :: inputs =>
      let cm := RemoveFile cm (filepath old) in
      let '(removed, w) := try_remove w (filepath old) in
      match removed with
      | Throw => (Throw, cm, w)
      | Ret _ => remove_inputs w cm inputs
      end
  end.

Definition RunCompaction (w : World) (cm : CompactionManager) :
    option (Outcome (ErrorOr CompactionStats) * CompactionManager * World) :=
  let src := PickCompactionLevel cm in
  if src =? - 1 then Some (Ret (error kNotFound (lit "No compaction needed")), cm, w)
  else
    let '(source_files, target_files) := SelectCompactionFiles cm src in
    match source_files with
    | [] => Some (Ret (error kNotFound (lit "No source files selected for compaction")), cm, w)
    | _ :: _ =>
        let total_inputs := Z.of_nat (length source_files + length target_files) in
        let all_inputs := renumber_sources total_inputs source_files ++ renumber_targets target_files in
        let stats := mkStats src (src + 1) (Z.of_nat (length all_inputs)) 0 0 0 0 0 0 in
        match MergeFiles w cm all_inputs (src + 1) stats with
        | None => None
        | Some (Throw, _, cm, w) => Some (Throw, cm, w)
        | Some (Ret (Err s), _, cm, w) => Some (Ret (Err s), cm, w)
        | Some (Ret (Val new_files), stats, cm, w) =>
            let '(s, cm) := add_files cm new_files in
            if negb (IsOk s) then Some (Ret (Err s), cm, w)
            else
              let '(removed, cm, w) := remove_inputs w cm all_inputs in
              match removed with
              | Throw => Some (Throw, cm, w)
              | Ret _ => Some (Ret (Val stats), cm, w)
              end
        end
    end.
End compaction.

(** ** Triggers and selection *)

Lemma pick_level_spec cm n : forall lvl,
  1 <= lvl ->
  let over j := TotalBytesAtLevel cm j > MaxBytesForLevel j in
  (pick_level cm n lvl = - 1 /\ forall j, lvl <= j < lvl + Z.of_nat n -> ~ over j) \/
  (lvl <= pick_level cm n lvl < lvl + Z.of_nat n /\ over (pick_level cm n lvl) /\
   forall j, lvl <= j < pick_level cm n lvl -> ~ over j).
Proof.
  induction n as [|n IH]; intros lvl Hl over; cbn [pick_level].
  - left. split; [done|]. intros j ?. lia.
  - destruct (Z.ltb_spec (MaxBytesForLevel lvl) (TotalBytesAtLevel cm lvl)) as [Ho|Ho].
    + right. split; [lia|]. split; [unfold over; lia|]. intros j ?. lia.
    + destruct (IH (lvl + 1) ltac:(lia)) as [[-> Hno]|(Hr & Hov & Hno)].
      * left. split; [done|]. intros j Hj. destruct (decide (j = lvl)) as [->|]; [unfold over; lia|].
        apply Hno. lia.
      * right. split; [lia|]. split; [done|]. intros j Hj.
        destruct (decide (j = lvl)) as [->|]; [unfold over; lia|]. apply Hno. lia.
Qed.

Lemma by_smallest_key_weak :
  strict_weak (fun a b : SSTableMeta => str_ltb (smallest_key a) (smallest_key b)).
Proof.
  split.
  - intros x. apply str_ltb_ge, str_lt_irrefl.
  - intros x y z. rewrite !str_ltb_lt. apply str_lt_trans.
  - intros x y z. rewrite !str_ltb_ge. apply str_nlt_trans.
Qed.

Section selection.
Context {abi : Abi} {sort : StdSort}.

Lemma elem_of_GetFilesAtLevel cm lvl f : f ∈ GetFilesAtLevel cm lvl <-> f ∈ files_ cm /\ level f = lvl.
Proof. unfold GetFilesAtLevel. rewrite std_sort_perm, list_elem_of_filter. tauto. Qed.

Lemma widen_covers fs : forall range f,
  let out := foldl widen range fs in
  ~ str_lt range.1 out.1 /\ ~ str_lt out.2 range.2 /\
  (f ∈ fs -> ~ str_lt (smallest_key f) out.1 /\ ~ str_lt out.2 (largest_key f)).
Proof.
  induction fs as [|f' fs IH]; intros range f out.
  - unfold out. cbn. split_and!; try apply str_lt_irrefl. intros H. by apply not_elem_of_nil in H.
  - unfold out. cbn [foldl]. destruct (IH (widen range f') f) as (H1 & H2 & H3).
    assert (~ str_lt range.1 (widen range f').1 /\ ~ str_lt (smallest_key f') (widen range f').1 /\
            ~ str_lt (widen range f').2 range.2 /\ ~ str_lt (widen range f').2 (largest_key f')) as HW.
    { unfold widen. cbn [fst snd].
      destruct (str_ltb (smallest_key f') range.1) eqn:E1, (str_ltb range.2 (largest_key f')) eqn:E2;
        str_cases; split_and!; auto using str_lt_irrefl, str_lt_asym. }
    destruct HW as (W1 & W2 & W3 & W4).
    split_and!; [by eapply str_nlt_trans|by eapply str_nlt_trans|]. intros Hf. apply elem_of_cons in Hf as [->|Hf].
    + split; by eapply str_nlt_trans.
    + by apply H3.
Qed.
End selection.

(** * Properties *)

Lemma selection_spec {sort : StdSort} (cm : CompactionManager) (src : Z)
    (f t : SSTableMeta) :
  let '(inputs, overlapping) := SelectCompactionFiles cm src in
  (f ∈ inputs -> f ∈ files_ cm /\ level f = src) /\
  (t ∈ overlapping -> t ∈ files_ cm /\ level t = src + 1) /\
  (src = 0 -> f ∈ files_ cm -> level f = 0 -> f ∈ inputs) /\
  (src <> 0 -> (exists g, g ∈ files_ cm /\ level g = src) -> length inputs = 1%nat) /\
  (f ∈ inputs -> t ∈ files_ cm -> level t = src + 1 ->
   OverlapsWith t (smallest_key f) (largest_key f) = true -> t ∈ overlapping).
Proof.
  unfold SelectCompactionFiles. destruct (GetFilesAtLevel cm src) as [|first rest] eqn:Eg.
  - assert (forall g, g ∈ files_ cm -> level g <> src) as Hnone.
    { intros g Hg Hl. assert (g ∈ GetFilesAtLevel cm src) as H by (by apply elem_of_GetFilesAtLevel).
      rewrite Eg in H. by apply not_elem_of_nil in H. }
    split_and!; try (intros H; by apply not_elem_of_nil in H).
    + intros -> Hf Hl. by destruct (Hnone f Hf).
    + intros _ (g & Hg & Hl). by destruct (Hnone g Hg).
  - assert (forall g, g ∈ first :: rest <-> g ∈ files_ cm /\ level g = src) as Hin.
    { intros g. rewrite <-Eg. apply elem_of_GetFilesAtLevel. }
    set (inputs := if src =? 0 then first :: rest else [first]).
    assert (forall g, g ∈ inputs -> g ∈ first :: rest) as Hsub.
    { intros g. unfold inputs. destruct (src =? 0); [done|].
      intros Hg. apply list_elem_of_singleton in Hg as ->. by left. }
    destruct (foldl widen (smallest_key first, largest_key first) inputs) as [lo hi] eqn:Er.
    cbn beta iota zeta. split_and!.
    + intros Hf. by apply Hin, Hsub.
    + rewrite list_elem_of_filter, elem_of_GetFilesAtLevel. tauto.
    + intros -> Hf Hl. unfold inputs. cbn. by apply Hin.
    + intros Hsrc _. unfold inputs. by rewrite (proj2 (Z.eqb_neq _ _)).
    + intros Hf Ht Hl Hov. apply list_elem_of_filter. split; [|by apply elem_of_GetFilesAtLevel].
      destruct (widen_covers inputs (smallest_key first, largest_key first) f) as (_ & _ & Hc).
      rewrite Er in Hc. destruct (Hc Hf) as [Hlo Hhi]. cbn [fst snd] in Hlo, Hhi.
      unfold OverlapsWith in *. apply negb_true_iff, orb_false_iff in Hov as [H1 H2].
      apply negb_true_iff, orb_false_iff. str_cases. split; apply str_ltb_ge.
      * intros H. destruct (str_not_lt _ _ Hlo) as [E|E]; [by rewrite E in H1|].
        apply H1. by transitivity lo.
      * intros H. destruct (str_not_lt _ _ Hhi) as [E|E]; [by rewrite E in H|].
        apply H2. by transitivity hi.
Qed.

(** Compaction trigger: [PickCompactionLevel] returns 0 exactly when at
    least four level-0 files exist; otherwise the lowest level in
    1 .. max_level - 2 whose total size exceeds its budget, or -1 when there
    is none; the bottom level is never picked. *)
Theorem compaction_pick_level (cm : CompactionManager) :
  let l := PickCompactionLevel cm in
  let over j := TotalBytesAtLevel cm j > MaxBytesForLevel j in
  (l = 0 <-> kLevel0CompactionTrigger <= Level0FileCount cm) /\
  (0 < l -> l < max_level_ cm - 1 /\ over l /\ forall j, 1 <= j < l -> ~ over j) /\
  (l = - 1 -> forall j, 1 <= j < max_level_ cm - 1 -> ~ over j) /\
  - 1 <= l.
Proof.
  intros l over. unfold l, PickCompactionLevel.
  destruct (Z.leb_spec kLevel0CompactionTrigger (Level0FileCount cm)); [split_and!; lia|].
  destruct (pick_level_spec cm (Z.to_nat (max_level_ cm - 2)) 1 ltac:(lia)) as [[-> Hno]|(Hr & Hov & Hno)].
  - split_and!; try lia. intros _ j Hj. apply Hno. lia.
  - split_and!; try lia. intros _. split_and!; [lia|done|]. intros j Hj. by apply Hno.
Qed.

(** Level budgets: with the default seven levels no budget overflows 64
    bits, and the budget of level [l] is 10 MiB times [10^(l-1)]. *)
Theorem level_budget (l : Z) (Hl : 1 <= l < kNumLevels) :
  MaxBytesForLevel l = kLevel1MaxBytes * kLevelMultiplier ^ (l - 1).
Proof.
  unfold kNumLevels in Hl.
  assert (l = 1 \/ l = 2 \/ l = 3 \/ l = 4 \/ l = 5 \/ l = 6) as H by lia.
  repeat destruct H as [-> | H]; try subst l; reflexivity.
Qed.

Lemma level_budget_witness : MaxBytesForLevel 3 = 1048576000.
Proof. apply (level_budget 3). unfold kNumLevels. lia. Defined.

(** C26. Selection is complete: at level 0 every file of the level is an input,
    at a deeper level exactly one file of it; every file of the next level
    whose key range meets the range of some input is selected with it, so a
    merge never leaves an older version of an input key in an unselected
    target file; and only files of the two levels are selected. *)
Theorem compaction_selection_complete {sort : StdSort} (cm : CompactionManager) (src : Z)
    (f t : SSTableMeta) :
  let '(inputs, overlapping) := SelectCompactionFiles cm src in
  (f ∈ inputs -> f ∈ files_ cm /\ level f = src) /\
  (t ∈ overlapping -> t ∈ files_ cm /\ level t = src + 1) /\
  (src = 0 -> f ∈ files_ cm -> level f = 0 -> f ∈ inputs) /\
  (src <> 0 -> (exists g, g ∈ files_ cm /\ level g = src) -> length inputs = 1%nat) /\
  (f ∈ inputs -> t ∈ files_ cm -> level t = src + 1 ->
   OverlapsWith t (smallest_key f) (largest_key f) = true -> t ∈ overlapping).
Proof. apply selection_spec. Qed.


