(* ===== verification/CompactionMerge.v ===== *)
(** * Correctness of the N-way merge

    Proofs about [MergeFiles] of Compaction.v.  The state of the draining loop
    is related to the entries of each input that have not been emitted yet
    ([rems]): the heap holds exactly their heads.  Popping the least head of
    sorted inputs yields, for each key, the entry with the highest sequence
    number first; the later ones are skipped.  The result is stated for the
    tables on disk: looking a key up in the outputs gives the newest input
    version of it, tombstones dropped when merging into the bottom level. *)

From S2P Require Import Prelude Status BinarySerializer FileSystem Mt19937 SkipList BloomFilter Block SSTable Checkpoint Compaction.

(** ** Writing a vector of entries *)

(** Tombstones carry no value, as the memtable writes them. *)
Definition tombstone_plain (e : BlockEntry) : Prop := be_is_tombstone e = true -> be_value e = [].

Definition value_of_entry (e : BlockEntry) : SkipListValue := mkSkipListValue (be_is_tombstone e) (be_value e).

Definition pair_of_entry (e : BlockEntry) : str * SkipListValue := (be_key e, value_of_entry e).

Lemma entry_of_pair e : entry_of_iter (pair_of_entry e) = e.
Proof. by destruct e. Qed.

Lemma sorted_pairs_unique (l1 l2 : list (str * SkipListValue)) :
  StronglySorted str_lt l1.*1 -> StronglySorted str_lt l2.*1 ->
  (list_to_map l1 : gmap str SkipListValue) = list_to_map l2 -> l1 = l2.
Proof.
  intros H1 H2 Hm.
  apply (StronglySorted_unique_strong (fun x y => str_lt x.1 y.1)).
  - intros x y _ _ Hxy Hyx. by destruct (str_lt_asym _ _ Hxy).
  - by apply StronglySorted_fmap_inv in H1.
  - by apply StronglySorted_fmap_inv in H2.
  - apply (list_to_map_inj (M := gmap str)); [by apply (StronglySorted_NoDup str_lt)..|done].
Qed.

Section write.
Context {abi : Abi}.

Lemma fill_skiplist_repr es : forall sl m,
  sl_repr sl m -> tombstones_empty m -> Forall tombstone_plain es ->
  exists sl', fill_skiplist sl es = Some sl' /\
    sl_repr sl' (foldl (fun m e => <[be_key e := value_of_entry e]> m) m es).
Proof.
  induction es as [|e es IH]; intros sl m Hr Ht Hp; cbn [fill_skiplist foldl]; [eauto|].
  apply Forall_cons in Hp as [He Hp]. unfold tombstone_plain in He.
  assert (tombstones_empty (<[be_key e := value_of_entry e]> m)) as Ht'.
  { apply tombstones_empty_insert; [done|]. exact He. }
  destruct (be_is_tombstone e) eqn:Et.
  - destruct (delete_repr sl m (be_key e) Hr Ht) as (sl' & -> & Hr').
    apply (IH _ _); [|done|done]. unfold value_of_entry. by rewrite Et, He.
  - destruct (put_repr sl m (be_key e) (be_value e) Hr) as (sl' & -> & Hr').
    apply (IH _ _); [|done|done]. unfold value_of_entry. by rewrite Et.
Qed.

Lemma foldl_insert_map es : forall m : gmap str SkipListValue,
  NoDup (be_key <$> es) ->
  foldl (fun m e => <[be_key e := value_of_entry e]> m) m es
  = list_to_map (pair_of_entry <$> es) ∪ m.
Proof.
  induction es as [|e es IH]; intros m Hnd; cbn [foldl].
  - symmetry. apply (map_empty_union m).
  - rewrite fmap_cons in Hnd. apply NoDup_cons in Hnd as [Hni Hnd]. rewrite IH by done.
    rewrite fmap_cons. unfold pair_of_entry at 2. rewrite list_to_map_cons.
    rewrite <-insert_union_l, <-insert_union_r; [done|].
    apply not_elem_of_list_to_map_1. by rewrite <-list_fmap_compose.
Qed.

(** The iterator over the skip list that is built for a sorted batch. *)
Lemma vector_iter es :
  sorted_entries es -> Forall tombstone_plain es ->
  exists sl, fill_skiplist SkipList_new es = Some sl /\ SkipList_entries sl = Some (pair_of_entry <$> es).
Proof.
  intros Hs Hp. destruct (fill_skiplist_repr es SkipList_new ∅ new_repr) as (sl & Hfill & Hr);
    [apply map_Forall_empty|done|].
  rewrite foldl_insert_map, map_union_empty in Hr by (by apply (StronglySorted_NoDup str_lt)).
  destruct (entries_repr sl _ Hr) as (iter & Hiter & Hsorted & Hm).
  exists sl. split; [done|]. rewrite Hiter. f_equal.
  apply sorted_pairs_unique; [done| |done]. by rewrite <-list_fmap_compose.
Qed.

Lemma WriteVectorToSSTable_spec w path es :
  healthy w -> es <> [] -> sorted_entries es -> encoded_sum es < 2 ^ 30 -> Forall tombstone_plain es ->
  exists w', WriteVectorToSSTable w path es = Some (Ret StatusOk, w') /\ healthy w' /\
    (exists bs bloom, files w' !! path = Some (table_bytes bs bloom) /\ table_ok bs bloom /\ mjoin bs = es) /\
    (forall p, p <> path -> files w' !! p = files w !! p).
Proof.
  intros Hw Hne Hs Hsize Hp. unfold WriteVectorToSSTable. destruct (vector_iter es Hs Hp) as (sl & Hfill & Hiter).
  assert (entry_of_iter <$> (pair_of_entry <$> es) = es) as Hes.
  { rewrite <-list_fmap_compose. rewrite <-(list_fmap_id es) at 2. apply list_fmap_ext.
    intros i e _. apply entry_of_pair. }
  destruct es as [|e0 es0] eqn:Ees; [done|]. rewrite <-Ees in *. rewrite Hfill, Hiter.
  unfold try_create_directories. rewrite or_throw_healthy by done.
  destruct (SSTableWriter_Write_spec w path (pair_of_entry <$> es)) as (w' & bs & bloom & -> & Hw' & Hf & Hok & Hj & Ho);
    rewrite ?Hes; auto; [by rewrite Ees|].
  exists w'. split; [done|]. split; [done|]. split; [|done]. exists bs, bloom. by rewrite Hes in Hj.
Qed.
End write.

(** ** The order of the heap *)

(** [a] comes before [b]: smaller key, or same key and not older. *)
Definition item_le (a b : MergeItem) : Prop :=
  str_lt (be_key (mi_entry a)) (be_key (mi_entry b)) \/
  (be_key (mi_entry a) = be_key (mi_entry b) /\ mi_seq b <= mi_seq a).

Lemma item_gt_false a b : item_gt a b = false <-> item_le a b.
Proof.
  unfold item_gt, item_le. destruct (str_eqb (be_key (mi_entry a)) (be_key (mi_entry b))) eqn:E;
    cbn [negb]; str_cases.
  - rewrite E, Z.ltb_ge. split; [auto|]. intros [H|[_ H]]; [by apply str_lt_irrefl in H|done].
  - rewrite str_ltb_ge. split.
    + intros H. left. destruct (str_not_lt _ _ H) as [?|?]; [congruence|done].
    + intros [H|[H _]]; [by apply str_lt_asym|done].
Qed.

Lemma item_gt_true a b : item_gt a b = true -> item_le b a.
Proof.
  unfold item_gt, item_le. destruct (str_eqb (be_key (mi_entry a)) (be_key (mi_entry b))) eqn:E;
    cbn [negb]; str_cases.
  - rewrite Z.ltb_lt, E. right. split; [done|lia].
  - rewrite str_ltb_lt. auto.
Qed.

#[local] Instance item_le_trans : Transitive item_le.
Proof.
  intros a b c [H1|[E1 H1]] [H2|[E2 H2]]; unfold item_le.
  - left. by transitivity (be_key (mi_entry b)).
  - left. by rewrite <-E2.
  - left. by rewrite E1.
  - right. split; [congruence|lia].
Qed.

Lemma item_le_refl a : item_le a a.
Proof. right. split; [done|lia]. Qed.

Lemma pop_least_spec heap : forall best top rest,
  pop_least best heap = (top, rest) ->
  (best :: heap) ≡ₚ (top :: rest) /\ item_le top best /\ (forall y, y ∈ rest -> item_le top y).
Proof.
  induction heap as [|x heap IH]; intros best top rest; cbn [pop_least].
  - intros [= <- <-]. split; [done|]. split; [apply item_le_refl|]. intros y Hy. by apply not_elem_of_nil in Hy.
  - destruct (item_gt best x) eqn:E.
    + destruct (pop_least x heap) as [t r] eqn:Ep. intros [= <- <-].
      destruct (IH _ _ _ Ep) as (Hp & Hx & Hr). apply item_gt_true in E. split.
      * rewrite Hp. apply Permutation_swap.
      * split; [by transitivity x|]. intros y Hy. apply elem_of_cons in Hy as [->|Hy]; [by transitivity x|auto].
    + destruct (pop_least best heap) as [t r] eqn:Ep. intros [= <- <-].
      destruct (IH _ _ _ Ep) as (Hp & Hx & Hr). apply item_gt_false in E. split.
      * rewrite Permutation_swap, Hp. apply Permutation_swap.
      * split; [done|]. intros y Hy. apply elem_of_cons in Hy as [->|Hy]; [by transitivity best|auto].
Qed.

(** ** The entries not yet emitted *)

(** The heads of the remaining entries of each file: what the heap holds. *)
Fixpoint heads (i : nat) (rems : list (list BlockEntry)) (inputs : list SSTableMeta) : list MergeItem :=
  match rems, inputs with
  | r :: rems, m :: inputs =>
      match r with
      | [] => heads (S i) rems inputs
      | e :: _ => mkItem e (sequence_number m) i :: heads (S i) rems inputs
      end
  | _, _ => []
  end.

Definition head_item (r : list BlockEntry) (m : SSTableMeta) (i : nat) : list MergeItem :=
  match r with [] => [] | e :: _ => [mkItem e (sequence_number m) i] end.

Lemma heads_cons k r rems m inputs :
  heads k (r :: rems) (m :: inputs) = head_item r m k ++ heads (S k) rems inputs.
Proof. by destruct r. Qed.

Lemma heads_update rems : forall k i inputs r r' m,
  rems !! i = Some r -> inputs !! i = Some m ->
  exists A B, heads k rems inputs = A ++ head_item r m (k + i) ++ B /\
    heads k (<[i := r']> rems) inputs = A ++ head_item r' m (k + i) ++ B.
Proof.
  induction rems as [|r0 rems IH]; intros k [|i] [|m0 inputs] r r' m Hr Hm; try done.
  - injection Hr as ->. injection Hm as ->. exists [], (heads (S k) rems inputs). rewrite Nat.add_0_r. split; apply heads_cons.
  - cbn in Hr, Hm. destruct (IH (S k) i inputs r r' m Hr Hm) as (A & B & H1 & H2).
    exists (head_item r0 m0 k ++ A), B.
    change (<[S i:=r']> (r0 :: rems)) with (r0 :: <[i:=r']> rems).
    rewrite !heads_cons, H1, H2, <-!app_assoc. by replace (S k + i)%nat with (k + S i)%nat by lia.
Qed.

Lemma elem_of_heads rems : forall k inputs it,
  it ∈ heads k rems inputs ->
  exists i e r m, rems !! i = Some (e :: r) /\ inputs !! i = Some m /\ it = mkItem e (sequence_number m) (k + i).
Proof.
  induction rems as [|r0 rems IH]; intros k [|m0 inputs] it Hit;
    try (by apply not_elem_of_nil in Hit).
  rewrite heads_cons in Hit. apply elem_of_app in Hit as [Hit|Hit].
  - destruct r0 as [|e r]; [by apply not_elem_of_nil in Hit|].
    apply list_elem_of_singleton in Hit as ->. exists 0%nat, e, r, m0. by rewrite Nat.add_0_r.
  - destruct (IH _ _ _ Hit) as (i & e & r & m & H1 & H2 & ->). exists (S i), e, r, m.
    split; [done|]. split; [done|]. f_equal. lia.
Qed.

Lemma heads_elem rems : forall k inputs i e r m,
  rems !! i = Some (e :: r) -> inputs !! i = Some m ->
  mkItem e (sequence_number m) (k + i) ∈ heads k rems inputs.
Proof.
  intros k inputs i e r m Hr Hm.
  destruct (heads_update rems k i inputs (e :: r) [] m Hr Hm) as (A & B & -> & _).
  apply elem_of_app. right. by left.
Qed.

(** The heap and the cursors agree with the remaining entries. *)
Record draining (file_data rems : list (list BlockEntry)) (inputs : list SSTableMeta)
    (heap : list MergeItem) (next : list nat) : Prop := {
  dr_files : length rems = length file_data /\ length inputs = length file_data /\ length next = length file_data;
  dr_heap : heap ≡ₚ heads 0 rems inputs;
  dr_next : forall i r entries n,
    rems !! i = Some r -> file_data !! i = Some entries -> next !! i = Some n -> drop n entries = tail r
}.

Lemma seed_heap_draining file_data : forall inputs k,
  length inputs = length file_data ->
  (seed_heap k file_data inputs).1 = heads k file_data inputs /\
  length (seed_heap k file_data inputs).2 = length file_data /\
  forall i entries n, file_data !! i = Some entries -> (seed_heap k file_data inputs).2 !! i = Some n ->
    drop n entries = tail entries.
Proof.
  induction file_data as [|es file_data IH]; intros [|m inputs] k Hlen; try done.
  cbn [seed_heap]. specialize (IH inputs (S k) ltac:(by injection Hlen)).
  destruct (seed_heap (S k) file_data inputs) as [heap next]. cbn [fst snd] in IH.
  destruct IH as (Hh & Hl & Hn). rewrite heads_cons. destruct es as [|e es]; cbn [fst snd head_item app].
  - split; [done|]. split; [by cbn; f_equal|]. intros [|i] entries n Hi Hi'; simplify_eq/=; eauto.
  - split; [by rewrite Hh|]. split; [by cbn; f_equal|]. intros [|i] entries n Hi Hi'; simplify_eq/=; eauto.
Qed.

(** ** The newest version of a key *)

(** The entry for [k] with the highest sequence number among the inputs. *)
Fixpoint newest (rems : list (list BlockEntry)) (inputs : list SSTableMeta) (k : str) : option (Z * BlockEntry) :=
  match rems, inputs with
  | r :: rems, m :: inputs =>
      match find_key r k, newest rems inputs k with
      | None, rest => rest
      | Some e, Some (s, e') =>
          if sequence_number m <? s then Some (s, e') else Some (sequence_number m, e)
      | Some e, None => Some (sequence_number m, e)
      end
  | _, _ => None
  end.

Lemma newest_update rems : forall inputs k i r r',
  rems !! i = Some r -> find_key r' k = find_key r k ->
  newest (<[i := r']> rems) inputs k = newest rems inputs k.
Proof.
  induction rems as [|r0 rems IH]; intros [|m inputs] k [|i] r r' Hr Hk; try done.
  - injection Hr as ->. cbn. by rewrite Hk.
  - cbn in Hr. change (<[S i:=r']> (r0 :: rems)) with (r0 :: <[i:=r']> rems).
    cbn [newest]. by rewrite (IH inputs k i r r' Hr Hk).
Qed.

Lemma newest_None rems : forall inputs k,
  (forall i r, rems !! i = Some r -> find_key r k = None) -> newest rems inputs k = None.
Proof.
  induction rems as [|r rems IH]; intros [|m inputs] k Hno; try done. cbn [newest].
  rewrite (Hno 0%nat r) by done. apply IH. intros i r' Hr. by apply (Hno (S i)).
Qed.

(** Every version of [k] found has a number at most [s]. *)
Lemma newest_bound rems : forall inputs k s e,
  newest rems inputs k = Some (s, e) -> exists i r m, rems !! i = Some r /\ inputs !! i = Some m /\
    sequence_number m = s /\ find_key r k = Some e.
Proof.
  induction rems as [|r rems IH]; intros [|m inputs] k s e H; try done. cbn [newest] in H.
  destruct (find_key r k) as [e0|] eqn:Ef.
  - destruct (newest rems inputs k) as [[s' e']|] eqn:En.
    + destruct (sequence_number m <? s').
      * injection H as -> ->. destruct (IH _ _ _ _ En) as (i & r' & m' & H1 & H2 & H3 & H4).
        by exists (S i), r', m'.
      * injection H as <- ->. by exists 0%nat, r, m.
    + injection H as <- ->. by exists 0%nat, r, m.
  - destruct (IH _ _ _ _ H) as (i & r' & m' & H1 & H2 & H3 & H4). by exists (S i), r', m'.
Qed.

Lemma newest_max rems : forall inputs k i r m e,
  rems !! i = Some r -> inputs !! i = Some m -> find_key r k = Some e ->
  (forall j r' m' e', rems !! j = Some r' -> inputs !! j = Some m' -> find_key r' k = Some e' -> j <> i ->
     sequence_number m' < sequence_number m) ->
  newest rems inputs k = Some (sequence_number m, e).
Proof.
  induction rems as [|r0 rems IH]; intros [|m0 inputs] k [|i] r m e Hr Hm Hf Hmax; try done; cbn [newest].
  - injection Hr as ->. injection Hm as ->. rewrite Hf.
    destruct (newest rems inputs k) as [[s e']|] eqn:En; [|done].
    destruct (newest_bound _ _ _ _ _ En) as (j & r' & m' & H1 & H2 & <- & H4).
    rewrite (proj2 (Z.ltb_ge _ _)); [done|].
    specialize (Hmax (S j) r' m' e' H1 H2 H4 ltac:(done)). lia.
  - cbn in Hr, Hm. rewrite (IH inputs k i r m e Hr Hm Hf).
    2: { intros j r' m' e' H1 H2 H3 H4. apply (Hmax (S j) r' m' e'); auto. }
    destruct (find_key r0 k) as [e0|] eqn:E0; [|done].
    rewrite (proj2 (Z.ltb_lt _ _)); [done|]. by apply (Hmax 0%nat r0 m0 e0).
Qed.

(** ** What the loop emits *)

(** Tombstones are dropped when merging into the bottom level. *)
Definition keep (bottom : bool) (v : option (Z * BlockEntry)) : option BlockEntry :=
  match v with
  | None => None
  | Some (_, e) => if be_is_tombstone e && bottom then None else Some e
  end.

(** [outs] is the merge of [rems] above the key emitted last. *)
Record emits (bottom : bool) (rems : list (list BlockEntry)) (inputs : list SSTableMeta)
    (last_key : str) (outs : list BlockEntry) : Prop := {
  em_sorted : sorted_entries outs;
  em_above : forall e, e ∈ outs -> str_lt last_key (be_key e);
  em_find : forall k, k <> last_key -> find_key outs k = keep bottom (newest rems inputs k)
}.

(** [e], the head of file [i], comes before everything that remains. *)
Definition least (rems : list (list BlockEntry)) (inputs : list SSTableMeta) (i : nat) (e : BlockEntry)
    (m : SSTableMeta) : Prop :=
  forall j r' m' e', rems !! j = Some r' -> inputs !! j = Some m' -> e' ∈ r' ->
    str_lt (be_key e) (be_key e') \/ (be_key e = be_key e' /\ sequence_number m' <= sequence_number m).

Lemma find_key_tail e r k : be_key e <> k -> find_key r k = find_key (e :: r) k.
Proof. intros H. rewrite find_key_cons. by destruct (decide (be_key e = k)). Qed.

Lemma emits_nil bottom rems inputs last_key :
  (forall i r, rems !! i = Some r -> r = []) -> emits bottom rems inputs last_key [].
Proof.
  intros H. split; [constructor|intros e He; by apply not_elem_of_nil in He|].
  intros k _. rewrite newest_None; [done|]. intros i r Hr. by rewrite (H i r Hr).
Qed.

Lemma emits_skip bottom rems inputs e r i outs :
  rems !! i = Some (e :: r) -> emits bottom (<[i := r]> rems) inputs (be_key e) outs ->
  emits bottom rems inputs (be_key e) outs.
Proof.
  intros Hr [Hs Ha Hf]. split; [done|done|]. intros k Hk. rewrite Hf by done.
  rewrite (newest_update rems inputs k i (e :: r)); [done|done|]. by apply find_key_tail.
Qed.

Lemma emits_emit bottom rems inputs last_key e r i m outs :
  rems !! i = Some (e :: r) -> inputs !! i = Some m -> NoDup (sequence_number <$> inputs) ->
  length rems = length inputs ->
  least rems inputs i e m -> str_lt last_key (be_key e) ->
  emits bottom (<[i := r]> rems) inputs (be_key e) outs ->
  emits bottom rems inputs last_key ((if be_is_tombstone e && bottom then [] else [e]) ++ outs).
Proof.
  intros Hr Hm Hnd Hlen Hleast Hlt [Hs Ha Hf].
  assert (newest rems inputs (be_key e) = Some (sequence_number m, e)) as Hnew.
  { apply (newest_max rems inputs _ i (e :: r)); [done|done| |].
    - rewrite find_key_cons. by destruct (decide _).
    - intros j r' m' e' Hr' Hm' He' Hji. apply find_key_Some in He' as [He' Hkey].
      destruct (Hleast j r' m' e' Hr' Hm' He') as [H|[_ H]].
      + rewrite Hkey in H. by apply str_lt_irrefl in H.
      + assert (sequence_number m' <> sequence_number m) as Hne; [|lia]. intros E. apply Hji.
        apply (NoDup_lookup _ j i (sequence_number m) Hnd); rewrite list_lookup_fmap.
        * by rewrite Hm', <-E.
        * by rewrite Hm. }
  assert (find_key outs (be_key e) = None) as Hout.
  { apply find_key_None. intros e' He' E. apply Ha in He'. rewrite E in He'. by apply str_lt_irrefl in He'. }
  assert (forall k, k <> be_key e -> newest (<[i := r]> rems) inputs k = newest rems inputs k) as Hsame.
  { intros k Hk. apply (newest_update rems inputs k i (e :: r)); [done|]. by apply find_key_tail. }
  destruct (be_is_tombstone e && bottom) eqn:Eb; cbn [app]; split.
  - done.
  - intros e' He'. transitivity (be_key e); auto.
  - intros k Hk. destruct (decide (k = be_key e)) as [->|Hne].
    + rewrite Hnew. cbn [keep]. by rewrite Eb.
    + by rewrite Hf, Hsame.
  - unfold sorted_entries. rewrite fmap_cons. constructor; [done|].
    apply Forall_fmap, Forall_forall. exact Ha.
  - intros e' He'. apply elem_of_cons in He' as [->|He']; [done|]. transitivity (be_key e); auto.
  - intros k Hk. rewrite find_key_cons. destruct (decide (be_key e = k)) as [<-|Hne].
    + rewrite Hnew. cbn [keep]. by rewrite Eb.
    + by rewrite Hf, Hsame by done.
Qed.

(** ** One iteration *)

(** The cursor and heap update of one iteration. *)
Definition advance (entries : list BlockEntry) (meta : SSTableMeta) (i next_idx : nat)
    (heap : list MergeItem) (next : list nat) : list MergeItem * list nat :=
  match entries !! next_idx with
  | Some e => (heap ++ [mkItem e (sequence_number meta) i], <[i := S next_idx]> next)
  | None => (heap, next)
  end.

Lemma advance_draining file_data rems inputs heap heap' next i e r m entries n :
  draining file_data rems inputs heap next ->
  rems !! i = Some (e :: r) -> inputs !! i = Some m -> file_data !! i = Some entries -> next !! i = Some n ->
  heap ≡ₚ mkItem e (sequence_number m) i :: heap' ->
  draining file_data (<[i := r]> rems) inputs (advance entries m i n heap' next).1
    (advance entries m i n heap' next).2.
Proof.
  intros [Hlen Hheap Hnext] Hr Hm He Hn Hpop.
  pose proof (Hnext i (e :: r) entries n Hr He Hn) as Hdrop. cbn in Hdrop.
  assert (heap' ++ head_item r m i ≡ₚ heads 0 (<[i := r]> rems) inputs) as Hheap'.
  { destruct (heads_update rems 0 i inputs (e :: r) r m Hr Hm) as (A & B & H1 & ->). cbn in H1.
    rewrite Hheap, H1 in Hpop. rewrite <-Permutation_middle in Hpop. apply Permutation_cons_inv in Hpop.
    rewrite <-Hpop. cbn [Nat.add]. rewrite <-!app_assoc. apply Permutation_app_head, Permutation_app_comm. }
  assert (entries !! n = head r) as Hhd.
  { rewrite <-(Nat.add_0_r n), <-lookup_drop, Hdrop. by destruct r. }
  unfold advance. rewrite Hhd. destruct r as [|e' r']; cbn [head fst snd head_item] in *.
  - rewrite app_nil_r in Hheap'. split; [by rewrite length_insert|done|].
    intros j r entries' n' Hr' He' Hn'. destruct (decide (i = j)) as [<-|Hne].
    + rewrite list_lookup_insert_eq in Hr' by (by eapply lookup_lt_Some). simplify_eq. done.
    + rewrite list_lookup_insert_ne in Hr' by done. eauto.
  - split; [by rewrite !length_insert|done|].
    intros j r entries' n' Hr1 He1 Hn1. destruct (decide (i = j)) as [<-|Hne].
    + rewrite list_lookup_insert_eq in Hr1 by (by eapply lookup_lt_Some).
      rewrite list_lookup_insert_eq in Hn1 by (by eapply lookup_lt_Some). simplify_eq. cbn.
      replace (S n) with (n + 1)%nat by lia. rewrite <-drop_drop, Hdrop. done.
    + rewrite list_lookup_insert_ne in Hr1 by done. rewrite list_lookup_insert_ne in Hn1 by done. eauto.
Qed.

Lemma pop_draining file_data rems inputs x heap next item heap' :
  draining file_data rems inputs (x :: heap) next -> pop_least x heap = (item, heap') ->
  Forall sorted_entries rems ->
  exists e r m entries n, item = mkItem e (sequence_number m) (mi_file item) /\
    rems !! mi_file item = Some (e :: r) /\ inputs !! mi_file item = Some m /\
    file_data !! mi_file item = Some entries /\ next !! mi_file item = Some n /\
    least rems inputs (mi_file item) e m /\
    draining file_data (<[mi_file item := r]> rems) inputs
      (advance entries m (mi_file item) n heap' next).1 (advance entries m (mi_file item) n heap' next).2.
Proof.
  intros Hd Hpop Hsorted. destruct (pop_least_spec _ _ _ _ Hpop) as (Hperm & _ & Hle).
  pose proof Hd as [(Hl1 & Hl2 & Hl3) Hheap _].
  assert (item ∈ heads 0 rems inputs) as Hin. { rewrite <-Hheap, Hperm. by left. }
  destruct (elem_of_heads _ _ _ _ Hin) as (i & e & r & m & Hr & Hm & ->). cbn [mi_file Nat.add] in *.
  destruct (lookup_lt_is_Some_2 file_data i) as [entries He].
  { apply lookup_lt_Some in Hr. lia. }
  destruct (lookup_lt_is_Some_2 next i) as [n Hn].
  { apply lookup_lt_Some in Hr. lia. }
  exists e, r, m, entries, n. split_and!; try done.
  - intros j r' m' e' Hr' Hm' He'.
    assert (exists h t, r' = h :: t) as (h & t & ->).
    { destruct r' as [|h t]; [by apply not_elem_of_nil in He'|eauto]. }
    assert (item_le (mkItem e (sequence_number m) i) (mkItem h (sequence_number m') j)) as Hhead.
    { pose proof (heads_elem rems 0 inputs j h t m' Hr' Hm') as Hj. rewrite <-Hheap, Hperm in Hj.
      apply elem_of_cons in Hj as [<-|Hj]; [apply item_le_refl|by apply Hle]. }
    unfold item_le in Hhead. cbn [mi_entry mi_seq] in Hhead.
    apply elem_of_cons in He' as [->|He']; [done|]. left.
    rewrite Forall_lookup in Hsorted. pose proof (Hsorted j _ Hr') as Hst. unfold sorted_entries in Hst.
    rewrite fmap_cons in Hst. apply StronglySorted_inv in Hst as [_ Hht].
    rewrite Forall_forall in Hht. pose proof (Hht (be_key e') ltac:(by apply list_elem_of_fmap_2)) as H.
    destruct Hhead as [Hh|[-> _]]; [by transitivity (be_key h)|done].
  - by apply (advance_draining file_data rems inputs (x :: heap) heap' next i e r m entries n).
Qed.

(** Taking the head of one of the inputs. *)
Lemma rems_split (rems : list (list BlockEntry)) i e r :
  rems !! i = Some (e :: r) ->
  exists A B, mjoin rems = A ++ e :: r ++ B /\ mjoin (<[i := r]> rems) = A ++ r ++ B.
Proof.
  intros Hr. pose proof (lookup_lt_Some _ _ _ Hr).
  exists (mjoin (take i rems)), (mjoin (drop (S i) rems)). split; [exact (mjoin_split rems i (e :: r) Hr)|].
  rewrite (mjoin_split (<[i := r]> rems) i r) by (by apply list_lookup_insert_eq).
  by rewrite take_insert_ge, drop_insert_lt by lia.
Qed.

Lemma rems_length (rems : list (list BlockEntry)) i e r :
  rems !! i = Some (e :: r) -> length (mjoin rems) = S (length (mjoin (<[i := r]> rems))).
Proof.
  intros Hr. destruct (rems_split rems i e r Hr) as (A & B & -> & ->). rewrite !length_app. cbn [length].
  rewrite length_app. lia.
Qed.

Lemma rems_encoded (rems : list (list BlockEntry)) i e r :
  rems !! i = Some (e :: r) ->
  encoded_sum (mjoin rems) = EncodedSize e + encoded_sum (mjoin (<[i := r]> rems)).
Proof.
  intros Hr. destruct (rems_split rems i e r Hr) as (A & B & -> & ->).
  rewrite !encoded_sum_app, encoded_sum_cons, encoded_sum_app. lia.
Qed.

Lemma elem_of_rems_insert (rems : list (list BlockEntry)) i e r e' :
  rems !! i = Some (e :: r) -> e' ∈ mjoin (<[i := r]> rems) -> e' ∈ mjoin rems.
Proof.
  intros Hr. destruct (rems_split rems i e r Hr) as (A & B & -> & ->).
  rewrite !elem_of_app, elem_of_cons, elem_of_app. tauto.
Qed.

(** ** Output files *)

(** The path [GenerateOutputPath] makes for a file number. *)
Definition out_path (dir : str) (lvl num : Z) : str :=
  dir ++ lit "/level" ++ to_string lvl ++ lit "_" ++ pad8 (to_string num) ++ lit ".sst".

Lemma pad8_value s : foldl undigit 0 (pad8 s) = foldl undigit 0 s.
Proof.
  unfold pad8. rewrite foldl_app. f_equal. induction (8 - length s)%nat as [|n IH]; [done|exact IH].
Qed.

Lemma out_path_inj dir lvl a b :
  0 <= a < 2 ^ 64 -> 0 <= b < 2 ^ 64 -> out_path dir lvl a = out_path dir lvl b -> a = b.
Proof.
  intros Ha Hb H. unfold out_path in H. do 4 apply app_inv_head in H. apply app_inv_tail in H.
  apply (f_equal (foldl undigit 0)) in H. rewrite !pad8_value in H.
  unfold to_string in H. rewrite !(proj2 (Z.ltb_ge _ _)), !digits_value in H by (cbn; lia). done.
Qed.

(** The file of [m] is a table that holds exactly [b]. *)
Definition holds_table (w : World) (path : str) (b : list BlockEntry) : Prop :=
  exists bs bloom, files w !! path = Some (table_bytes bs bloom) /\ table_ok bs bloom /\ mjoin bs = b.

Lemma holds_table_at w path b : healthy w -> holds_table w path b -> table_at w path b.
Proof. intros Hw (bs & bloom & Hf & Hok & <-). by apply (table_bytes_at w path bs bloom). Qed.

Record out_file (w : World) (dir : str) (lvl : Z) (lo hi : Z) (m : SSTableMeta) (b : list BlockEntry) : Prop := {
  of_table : holds_table w (filepath m) b;
  of_level : level m = lvl;
  of_range : exists first last', head b = Some first /\ last b = Some last' /\
    smallest_key m = be_key first /\ largest_key m = be_key last';
  of_number : exists num, lo <= num < hi /\ filepath m = out_path dir lvl num;
  of_fields : 0 <= file_size_bytes m < 2 ^ 64 /\ 0 <= sequence_number m < 2 ^ 64
}.

Lemma out_file_weaken w w' dir lvl lo hi hi' m b :
  out_file w dir lvl lo hi m b -> hi <= hi' ->
  (forall num, lo <= num < hi -> files w' !! out_path dir lvl num = files w !! out_path dir lvl num) ->
  out_file w' dir lvl lo hi' m b.
Proof.
  intros [Ht Hl Hr (num & Hn & Hp) Hd] Hhi Hsame. split; [|done|done| |done].
  - destruct Ht as (bs & bloom & Hf & Hok & Hj). exists bs, bloom. by rewrite Hp, Hsame, <-Hp.
  - exists num. split; [lia|done].
Qed.

(** The output side of the state: [batches] are on disk, [ms_entries] not yet. *)
Record outputs (w0 : World) (dir : str) (lvl lo : Z) (st : MergeState) (batches : list (list BlockEntry)) : Prop := {
  ou_healthy : healthy (ms_world st);
  ou_dir : cm_data_dir_ (ms_cm st) = dir;
  ou_number : 0 <= lo < next_file_number_ (ms_cm st);
  ou_path : ms_path st = out_path dir lvl (next_file_number_ (ms_cm st) - 1);
  ou_files : Forall2 (out_file (ms_world st) dir lvl lo (next_file_number_ (ms_cm st) - 1)) (ms_metas st) batches;
  ou_bytes : ms_bytes st = encoded_sum (ms_entries st);
  ou_frame : forall p, (forall num, lo <= num < next_file_number_ (ms_cm st) - 1 -> p <> out_path dir lvl num) ->
    files (ms_world st) !! p = files w0 !! p
}.

Section drain.
Context {abi : Abi}.

Lemma output_size_healthy w path estimate c :
  healthy w -> files w !! path = Some c -> output_size w path estimate = (Ret (Z.of_nat (length c)), w).
Proof.
  intros Hw Hf. unfold output_size, try_exists, try_file_size. rewrite !or_throw_healthy by done.
  unfold fs_exists, fs_file_size. by rewrite Hf.
Qed.

Lemma flush_output_spec w0 dir lvl lo st batches :
  outputs w0 dir lvl lo st batches -> ms_entries st <> [] -> sorted_entries (ms_entries st) ->
  encoded_sum (ms_entries st) < 2 ^ 30 -> Forall tombstone_plain (ms_entries st) ->
  next_file_number_ (ms_cm st) + 1 < 2 ^ 64 ->
  exists st', flush_output lvl st = Some (Ret StatusOk, st') /\
    outputs w0 dir lvl lo st' (batches ++ [ms_entries st]) /\
    ms_entries st' = [] /\ ms_heap st' = ms_heap st /\ ms_next st' = ms_next st /\
    ms_last_key st' = ms_last_key st /\ files_ (ms_cm st') = files_ (ms_cm st) /\
    max_level_ (ms_cm st') = max_level_ (ms_cm st) /\
    next_file_number_ (ms_cm st') = next_file_number_ (ms_cm st) + 1.
Proof.
  intros [Hw Hdir Hnum Hpath Hfiles Hbytes Hframe] Hne Hs Hsize Hp Hmax.
  destruct (WriteVectorToSSTable_spec (ms_world st) (ms_path st) (ms_entries st) Hw Hne Hs Hsize Hp)
    as (w' & Hwrite & Hw' & Htable & Hother).
  unfold flush_output. destruct (ms_entries st) as [|first rest] eqn:Ees; [done|].
  rewrite <-Ees in *. rewrite Hwrite. change (negb (IsOk StatusOk)) with false. cbn beta iota.
  destruct Htable as (bs & bloom & Hf & Hok & Hj).
  rewrite (output_size_healthy w' (ms_path st) (ms_bytes st) _ Hw' Hf).
  unfold GenerateOutputPath. eexists. split; [done|].
  set (n := next_file_number_ (ms_cm st)) in *.
  assert (u64 (n + 1) = n + 1) as Hu by (apply u64_small; lia).
  split; [|cbn; rewrite ?Hu; split_and!; done].
  split; cbn [ms_world ms_cm ms_path ms_metas ms_bytes ms_entries cm_data_dir_ next_file_number_]; rewrite ?Hu.
  - done.
  - done.
  - lia.
  - rewrite Hdir. unfold out_path. by replace (n + 1 - 1) with n by lia.
  - replace (n + 1 - 1) with n by lia. apply Forall2_app.
    + eapply Forall2_impl; [exact Hfiles|]. intros m b Hm. cbn beta in Hm.
      eapply out_file_weaken; [exact Hm|lia|]. intros num Hnum'. apply Hother. rewrite Hpath.
      intros E. apply out_path_inj in E; lia.
    + constructor; [|constructor]. split; cbn [filepath level smallest_key largest_key file_size_bytes sequence_number];
        [by exists bs, bloom|done| | |].
      * destruct (last (ms_entries st)) as [l|] eqn:El; [|by apply last_None in El].
        exists first, l. split; [by rewrite Ees|done].
      * exists (n - 1). split; [lia|done].
      * pose proof (len_table_bytes bs bloom Hok) as Hlen. unfold len in Hlen. lia.
  - done.
  - intros p Hpn. rewrite Hother; [|rewrite Hpath; apply Hpn; lia]. apply Hframe. intros num ?. apply Hpn. lia.
Qed.
End drain.

(** ** The loop *)

(** The input side of the state, and what is known of the current batch. *)
Record ready (file_data : list (list BlockEntry)) (inputs : list SSTableMeta)
    (rems : list (list BlockEntry)) (st : MergeState) : Prop := {
  rd_drain : draining file_data rems inputs (ms_heap st) (ms_next st);
  rd_sorted : Forall sorted_entries rems;
  rd_plain : Forall tombstone_plain (mjoin rems);
  rd_above : forall e, e ∈ mjoin rems -> ~ str_lt (be_key e) (ms_last_key st);
  rd_cur_sorted : sorted_entries (ms_entries st);
  rd_cur_plain : Forall tombstone_plain (ms_entries st);
  rd_cur_below : forall e, e ∈ ms_entries st -> ~ str_lt (ms_last_key st) (be_key e);
  rd_size : encoded_sum (ms_entries st) + encoded_sum (mjoin rems) < 2 ^ 30
}.

Lemma sorted_entries_snoc es e :
  sorted_entries es -> (forall e', e' ∈ es -> str_lt (be_key e') (be_key e)) -> sorted_entries (es ++ [e]).
Proof.
  intros Hs Hlt. unfold sorted_entries. rewrite fmap_app. apply StronglySorted_app_2; [|done|repeat constructor].
  intros x y Hx Hy. apply list_elem_of_fmap in Hx as (e' & -> & Hx).
  apply list_elem_of_singleton in Hy as ->. by apply Hlt.
Qed.

(** After an entry has been taken, with or without being emitted. *)
Lemma ready_next file_data inputs rems st st' i e r m :
  ready file_data inputs rems st -> rems !! i = Some (e :: r) -> inputs !! i = Some m ->
  least rems inputs i e m -> length rems = length inputs ->
  draining file_data (<[i := r]> rems) inputs (ms_heap st') (ms_next st') ->
  ms_last_key st' = be_key e ->
  (ms_entries st' = ms_entries st \/
   (ms_entries st' = ms_entries st ++ [e] /\ str_lt (ms_last_key st) (be_key e))) ->
  ready file_data inputs (<[i := r]> rems) st'.
Proof.
  intros [_ Hs Hp Ha Hcs Hcp Hcb Hsz] Hr Hm Hl Hlen Hd Hlast Hent.
  pose proof (rems_encoded rems i e r Hr) as Henc.
  assert (e ∈ mjoin rems) as Hein.
  { destruct (rems_split rems i e r Hr) as (A & B & -> & _). apply elem_of_app. right. by left. }
  pose proof (Ha e Hein) as Hale.
  assert (forall e', e' ∈ ms_entries st -> ~ str_lt (be_key e) (be_key e')) as Hbelow.
  { intros e' He'. apply (str_nlt_trans _ (ms_last_key st)); [done|by apply Hcb]. }
  assert (0 <= EncodedSize e) by (unfold EncodedSize; lia).
  split; rewrite ?Hlast.
  - done.
  - apply Forall_insert; [done|]. rewrite Forall_lookup in Hs. pose proof (Hs i _ Hr) as Hi.
    unfold sorted_entries in *. rewrite fmap_cons in Hi. by apply StronglySorted_inv in Hi as [? _].
  - apply Forall_forall. intros e' He'. rewrite Forall_forall in Hp. apply Hp. by eapply elem_of_rems_insert.
  - intros e' He'. apply (elem_of_rems_insert rems i e r e' Hr) in He'.
    apply list_elem_of_join in He' as (r' & He' & Hr'). apply list_elem_of_lookup in Hr' as [j Hj].
    destruct (lookup_lt_is_Some_2 inputs j) as [m' Hm']; [apply lookup_lt_Some in Hj; lia|].
    destruct (Hl j r' m' e' Hj Hm' He') as [H1|[H1 _]]; [by apply str_lt_asym|].
    rewrite H1. apply str_lt_irrefl.
  - destruct Hent as [->|[-> Hlt]]; [done|]. apply sorted_entries_snoc; [done|].
    intros e' He'. destruct (str_not_lt _ _ (Hcb e' He')) as [<-|H1]; [done|].
    by transitivity (ms_last_key st).
  - destruct Hent as [->|[-> _]]; [done|]. apply Forall_app_2; [done|]. constructor; [|done].
    rewrite Forall_forall in Hp. by apply Hp.
  - intros e'. destruct Hent as [->|[-> _]]; [by apply Hbelow|]. intros He'.
    apply elem_of_app in He' as [He'|He']; [by apply Hbelow|].
    apply list_elem_of_singleton in He' as ->. apply str_lt_irrefl.
  - destruct Hent as [->|[-> _]]; [lia|]. rewrite encoded_sum_snoc. lia.
Qed.

(** [outputs] only looks at the output fields. *)
Lemma outputs_same w0 dir lvl lo st st' batches :
  outputs w0 dir lvl lo st batches ->
  ms_world st' = ms_world st -> ms_cm st' = ms_cm st -> ms_path st' = ms_path st ->
  ms_metas st' = ms_metas st -> ms_bytes st' = encoded_sum (ms_entries st') ->
  outputs w0 dir lvl lo st' batches.
Proof. intros [] E1 E2 E3 E4 E5. split; rewrite ?E1, ?E2, ?E3, ?E4, ?E5; done. Qed.

(** The last batch can be written. *)
Definition batch_ok (es : list BlockEntry) : Prop :=
  sorted_entries es /\ Forall tombstone_plain es /\ encoded_sum es < 2 ^ 30.

Section loop.
Context {abi : Abi}.
Context (w0 : World) (dir : str) (lvl lo : Z) (bottom : bool).
Context (file_data : list (list BlockEntry)) (inputs : list SSTableMeta).
Context (Hnd : NoDup (sequence_number <$> inputs)).

(** [run] ends with everything of [rems] merged behind what [st] had. *)
Definition merged (rems : list (list BlockEntry)) (st : MergeState)
    (batches : list (list BlockEntry)) (run : option (Outcome Status * MergeState)) : Prop :=
  exists st' batches' outs,
    run = Some (Ret StatusOk, st') /\
    emits bottom rems inputs (ms_last_key st) outs /\
    outputs w0 dir lvl lo st' batches' /\
    mjoin batches' ++ ms_entries st' = mjoin batches ++ ms_entries st ++ outs /\
    batch_ok (ms_entries st') /\
    files_ (ms_cm st') = files_ (ms_cm st) /\ max_level_ (ms_cm st') = max_level_ (ms_cm st) /\
    next_file_number_ (ms_cm st') <= next_file_number_ (ms_cm st) + Z.of_nat (length (mjoin rems)).

Definition drained (fuel : nat) (rems : list (list BlockEntry)) (st : MergeState)
    (batches : list (list BlockEntry)) : Prop :=
  merged rems st batches (drain fuel file_data inputs lvl bottom st).

Lemma ready_batch_ok rems st : ready file_data inputs rems st -> batch_ok (ms_entries st).
Proof.
  intros [_ _ _ _ Hcs Hcp _ Hsz]. split; [done|]. split; [done|].
  pose proof (encoded_sum_count (mjoin rems)). lia.
Qed.

Lemma drained_done fuel rems st batches :
  ready file_data inputs rems st -> outputs w0 dir lvl lo st batches -> ms_heap st = [] ->
  drained (S fuel) rems st batches.
Proof.
  intros Hrd Hou Hh. exists st, batches, []. cbn [drain]. rewrite Hh.
  split; [done|]. split.
  - apply emits_nil. intros i r Hr. destruct r as [|e r]; [done|exfalso].
    destruct (rd_drain _ _ _ _ Hrd) as [(Hl1 & Hl2 & _) Hheap _]. rewrite Hh in Hheap.
    destruct (lookup_lt_is_Some_2 inputs i) as [m Hm]; [apply lookup_lt_Some in Hr; lia|].
    pose proof (heads_elem rems 0 inputs i e r m Hr Hm) as Hin. rewrite <-Hheap in Hin.
    by apply not_elem_of_nil in Hin.
  - rewrite app_nil_r. split_and!; try done; try (by eapply ready_batch_ok). lia.
Qed.

Definition drain_correct (fuel : nat) : Prop := forall rems st batches,
  ready file_data inputs rems st -> outputs w0 dir lvl lo st batches ->
  next_file_number_ (ms_cm st) + Z.of_nat (length (mjoin rems)) + 1 < 2 ^ 64 ->
  (length (mjoin rems) < fuel)%nat -> drained fuel rems st batches.

(** The entry is not emitted (duplicate or dropped tombstone). *)
Lemma drained_silent fuel rems st st1 batches i e r m :
  drain_correct fuel -> ready file_data inputs rems st -> outputs w0 dir lvl lo st batches ->
  rems !! i = Some (e :: r) -> inputs !! i = Some m -> least rems inputs i e m ->
  length rems = length inputs ->
  draining file_data (<[i := r]> rems) inputs (ms_heap st1) (ms_next st1) ->
  ms_world st1 = ms_world st -> ms_cm st1 = ms_cm st -> ms_path st1 = ms_path st ->
  ms_metas st1 = ms_metas st -> ms_entries st1 = ms_entries st -> ms_bytes st1 = ms_bytes st ->
  ms_last_key st1 = be_key e ->
  (forall outs, emits bottom (<[i := r]> rems) inputs (be_key e) outs ->
                emits bottom rems inputs (ms_last_key st) outs) ->
  next_file_number_ (ms_cm st) + Z.of_nat (length (mjoin rems)) + 1 < 2 ^ 64 ->
  (length (mjoin rems) < S fuel)%nat ->
  merged rems st batches (drain fuel file_data inputs lvl bottom st1).
Proof.
  intros IH Hrd Hou Hr Hm Hleast Hlen Hdr E1 E2 E3 E4 E5 E6 E7 Hemit Hnum Hfuel.
  pose proof (rems_length rems i e r Hr).
  destruct (IH (<[i := r]> rems) st1 batches) as (st' & batches' & outs & Heq & Hem & Hou' & Hj & Hb & Hf & Hx & Hn).
  - by apply (ready_next file_data inputs rems st st1 i e r m); auto.
  - apply (outputs_same w0 dir lvl lo st); auto. rewrite E5, E6. apply Hou.
  - rewrite E2. lia.
  - lia.
  - exists st', batches', outs. rewrite E7 in Hem. rewrite E2 in Hf, Hx, Hn. rewrite E5 in Hj.
    split_and!; auto. lia.
Qed.

(** The entry is appended to the batch, which is flushed when it is full. *)
Lemma drained_emit fuel rems st st1 batches i e r :
  drain_correct fuel -> rems !! i = Some (e :: r) ->
  ready file_data inputs (<[i := r]> rems) st1 -> outputs w0 dir lvl lo st1 batches ->
  ms_entries st1 = ms_entries st ++ [e] -> ms_last_key st1 = be_key e -> ms_cm st1 = ms_cm st ->
  (forall outs, emits bottom (<[i := r]> rems) inputs (be_key e) outs ->
                emits bottom rems inputs (ms_last_key st) (e :: outs)) ->
  next_file_number_ (ms_cm st) + Z.of_nat (length (mjoin rems)) + 1 < 2 ^ 64 ->
  (length (mjoin rems) < S fuel)%nat ->
  merged rems st batches
    (if kMaxOutputBytes <=? ms_bytes st1 then
       match flush_output lvl st1 with
       | None => None
       | Some (Throw, st2) => Some (Throw, st2)
       | Some (Ret s, st2) =>
           if negb (IsOk s) then Some (Ret s, st2) else drain fuel file_data inputs lvl bottom st2
       end
     else drain fuel file_data inputs lvl bottom st1).
Proof.
  intros IH Hr Hrd1 Hou1 Ee El Ecm Hemit Hnum Hfuel. pose proof (rems_length rems i e r Hr).
  destruct (ready_batch_ok _ _ Hrd1) as (Hb1 & Hb2 & Hb3).
  destruct (kMaxOutputBytes <=? ms_bytes st1).
  - destruct (flush_output_spec w0 dir lvl lo st1 batches Hou1)
      as (st2 & -> & Hou2 & Hent & Hh & Hnx & Hlk & Hfl & Hml & Hfn); auto.
    { rewrite Ee. by destruct (ms_entries st). }
    { rewrite Ecm. lia. }
    change (negb (IsOk StatusOk)) with false. cbn beta iota.
    destruct (IH (<[i := r]> rems) st2 (batches ++ [ms_entries st1]))
      as (st' & batches' & outs & Heq & Hem & Hou' & Hj & Hb & Hf & Hx & Hn); [|done| |lia|].
    { destruct Hrd1 as [R1 R2 R3 R4 R5 R6 R7 R8]. pose proof (encoded_sum_count (ms_entries st1)).
      split; rewrite ?Hh, ?Hnx, ?Hlk, ?Hent; try done; [constructor| |].
      - intros e' He'. by apply not_elem_of_nil in He'.
      - change (encoded_sum []) with 0. lia. }
    { rewrite Hfn, Ecm. lia. }
    exists st', batches', (e :: outs). rewrite Hlk, El in Hem. rewrite Hent, mjoin_snoc, Ee in Hj.
    rewrite Hfn in Hn. rewrite Hfl in Hf. rewrite Hml in Hx. rewrite Ecm in Hf, Hx, Hn.
    split_and!; auto; [|lia]. rewrite Hj. cbn [app]. by rewrite <-!app_assoc.
  - destruct (IH (<[i := r]> rems) st1 batches)
      as (st' & batches' & outs & Heq & Hem & Hou' & Hj & Hb & Hf & Hx & Hn); [done|done|rewrite Ecm; lia|lia|].
    exists st', batches', (e :: outs). rewrite El in Hem. rewrite Ee in Hj. rewrite Ecm in Hf, Hx, Hn.
    split_and!; auto; [|lia]. rewrite Hj. by rewrite <-!app_assoc.
Qed.

Lemma drain_spec fuel : drain_correct fuel.
Proof.
  induction fuel as [|fuel IH]; intros rems st batches Hrd Hou Hnum Hfuel; [lia|].
  destruct (ms_heap st) as [|x heap] eqn:Eheap; [by apply drained_done|].
  pose proof (rd_drain _ _ _ _ Hrd) as Hdr. rewrite Eheap in Hdr.
  destruct (pop_least x heap) as [item heap'] eqn:Epop.
  destruct (pop_draining _ _ _ _ _ _ _ _ Hdr Epop (rd_sorted _ _ _ _ Hrd))
    as (e & r & m & entries & n & Hitem & Hr & Hm & He & Hn & Hleast & Hdr').
  destruct (dr_files _ _ _ _ _ Hdr) as (Hl1 & Hl2 & _).
  assert (e ∈ mjoin rems) as Hein.
  { destruct (rems_split rems _ e r Hr) as (A & B & -> & _). apply elem_of_app. right. by left. }
  unfold drained. cbn [drain]. rewrite Eheap, Epop, He, Hn, Hm.
  assert (mi_entry item = e) as -> by (by rewrite Hitem).
  fold (advance entries m (mi_file item) n heap' (ms_next st)).
  destruct (advance entries m (mi_file item) n heap' (ms_next st)) as [heap2 next2] eqn:Eadv.
  cbn [fst snd] in Hdr'. set (i := mi_file item) in *.
  destruct (str_eqb (be_key e) (ms_last_key st)) eqn:Ekey; str_cases.
  { apply (drained_silent fuel rems st _ batches i e r m); auto; [lia|].
    intros outs. rewrite <-Ekey. by apply emits_skip. }
  assert (str_lt (ms_last_key st) (be_key e)) as Hlt.
  { destruct (str_not_lt _ _ (rd_above _ _ _ _ Hrd e Hein)) as [?|?]; done. }
  pose proof (fun outs => emits_emit bottom rems inputs (ms_last_key st) e r i m outs Hr Hm Hnd
                ltac:(lia) Hleast Hlt) as Hemit.
  destruct (be_is_tombstone e && bottom) eqn:Etomb.
  { apply (drained_silent fuel rems st _ batches i e r m); auto. lia. }
  set (st1 := mkMS _ _ _ _ _ _ _ _ _ _).
  assert (ready file_data inputs (<[i := r]> rems) st1) as Hrd1.
  { apply (ready_next file_data inputs rems st st1 i e r m); auto; lia. }
  destruct (ready_batch_ok _ _ Hrd1) as (_ & _ & Hb3).
  apply (drained_emit fuel rems st st1 batches i e r); auto.
  apply (outputs_same w0 dir lvl lo st); auto. cbn [st1 ms_bytes ms_entries] in Hb3 |- *.
  rewrite (ou_bytes _ _ _ _ _ _ Hou), encoded_sum_snoc in *.
  pose proof (encoded_sum_count (ms_entries st)). unfold EncodedSize in *.
  by rewrite u64_small by lia.
Qed.
End loop.

(** ** [MergeFiles] *)

Lemma read_inputs_spec w inputs : forall file_data stats,
  healthy w -> Forall2 (fun m es => table_at w (filepath m) es) inputs file_data ->
  exists stats', read_inputs w inputs stats = (Ret (Val file_data), stats', w).
Proof.
  induction inputs as [|m inputs IH]; intros file_data stats Hw H.
  - apply Forall2_nil_inv_l in H as ->. by eexists.
  - apply Forall2_cons_inv_l in H as (es & rest & (rd & Ho & _ & Ha & _) & Hrest & ->).
    cbn [read_inputs]. unfold Open_input, try_exists. rewrite or_throw_healthy, Ho, Ha by done.
    destruct (IH rest (stats_read stats (Z.of_nat (length es)) (file_size_bytes m)) Hw Hrest) as (stats' & ->).
    by eexists.
Qed.

Lemma not_lt_nil k : ~ str_lt k [].
Proof. unfold str_lt. by destruct k. Qed.

(** What a compaction writes: one table per batch, with its key range. *)
Record output_ok (w : World) (lvl : Z) (m : SSTableMeta) (b : list BlockEntry) : Prop := {
  oo_table : table_at w (filepath m) b;
  oo_level : level m = lvl;
  oo_range : exists first last', head b = Some first /\ last b = Some last' /\
    smallest_key m = be_key first /\ largest_key m = be_key last'
}.

Section merge.
Context {abi : Abi}.

Lemma MergeFiles_spec w cm inputs lvl stats file_data :
  healthy w ->
  Forall2 (fun m es => table_at w (filepath m) es) inputs file_data ->
  Forall sorted_entries file_data -> Forall tombstone_plain (mjoin file_data) ->
  NoDup (sequence_number <$> inputs) -> encoded_sum (mjoin file_data) < 2 ^ 30 ->
  0 <= next_file_number_ cm < 2 ^ 63 ->
  exists metas batches outs stats' cm' w',
    MergeFiles w cm inputs lvl stats = Some (Ret (Val metas), stats', cm', w') /\
    emits (lvl =? max_level_ cm - 1) file_data inputs [] outs /\ mjoin batches = outs /\
    healthy w' /\ files_ cm' = files_ cm /\ max_level_ cm' = max_level_ cm /\
    Forall2 (out_file w' (cm_data_dir_ cm) lvl (next_file_number_ cm) (next_file_number_ cm')) metas batches /\
    next_file_number_ cm < next_file_number_ cm' <= next_file_number_ cm + 2 + Z.of_nat (length (mjoin file_data)) /\
    cm_data_dir_ cm' = cm_data_dir_ cm /\
    (forall p, (forall num, next_file_number_ cm <= num < next_file_number_ cm' -> p <> out_path (cm_data_dir_ cm) lvl num) ->
       files w' !! p = files w !! p).
Proof.
  intros Hw Htab Hsort Hplain Hnd Hsize Hnum.
  pose proof (encoded_sum_count (mjoin file_data)) as Hcount.
  pose proof (Forall2_length _ _ _ Htab) as Hlen.
  unfold MergeFiles. destruct (read_inputs_spec w inputs file_data stats Hw Htab) as (stats1 & ->).
  destruct (seed_heap_draining file_data inputs 0 Hlen) as (Hh & Hl & Hn).
  destruct (seed_heap 0 file_data inputs) as [heap next]. cbn [fst snd] in Hh, Hl, Hn.
  unfold GenerateOutputPath. set (n := next_file_number_ cm) in *.
  rewrite u64_small by lia. set (cm1 := mkCM _ _ _ _). set (bottom := lvl =? max_level_ cm - 1).
  set (st0 := mkMS w cm1 heap next [] [] [] 0 _ stats1).
  destruct (drain_spec w (cm_data_dir_ cm) lvl n bottom file_data inputs Hnd
              (S (length (mjoin file_data))) file_data st0 [])
    as (st & batches & outs & -> & Hem & Hou & Hj & (Hb1 & Hb2 & Hb3) & Hf & Hx & Hnx).
  { split; cbn [st0 ms_heap ms_next ms_last_key ms_entries]; auto.
    - split; [done|by rewrite Hh|]. intros i r entries k Hi Hi' Hk. simplify_eq. eauto.
    - intros e _. apply not_lt_nil.
    - constructor.
    - intros e He. by apply not_elem_of_nil in He. }
  { split; cbn [st0 cm1 ms_world ms_cm ms_path ms_metas ms_bytes ms_entries cm_data_dir_ next_file_number_]; auto.
    - lia.
    - by replace (n + 1 - 1) with n by lia. }
  { cbn. lia. }
  { lia. }
  change (negb (IsOk StatusOk)) with false. cbn beta iota.
  cbn [st0 ms_last_key ms_entries ms_cm cm1 files_ max_level_ next_file_number_ app] in Hem, Hj, Hf, Hx, Hnx.
  change (mjoin [] ++ outs) with outs in Hj.
  destruct (ms_entries st) as [|e0 es0] eqn:Eent.
  - unfold flush_output. rewrite Eent. change (negb (IsOk StatusOk)) with false. cbn beta iota.
    rewrite app_nil_r in Hj. destruct Hou as [O1 O2 O3 O4 O5 O6 O7].
    exists (ms_metas st), batches, outs. do 3 eexists. split; [done|]. split_and!; auto; try lia.
    + eapply Forall2_impl; [exact O5|]. intros m b Hmb. cbn beta in Hmb.
      by eapply out_file_weaken; [exact Hmb|lia|].
    + intros p Hp. apply O7. intros num ?. apply Hp. lia.
  - rewrite <-Eent in *.
    destruct (flush_output_spec w (cm_data_dir_ cm) lvl n st batches Hou)
      as (st2 & -> & [O1 O2 O3 O4 O5 O6 O7] & Hent & _ & _ & _ & Hf2 & Hx2 & Hn2); auto; [by rewrite Eent|lia|].
    change (negb (IsOk StatusOk)) with false. cbn beta iota.
    exists (ms_metas st2), (batches ++ [ms_entries st]), outs. do 3 eexists. split; [done|].
    rewrite mjoin_snoc. split_and!; auto; try lia; try congruence.
    + eapply Forall2_impl; [exact O5|]. intros m b Hmb. cbn beta in Hmb.
      by eapply out_file_weaken; [exact Hmb|lia|].
    + intros p Hp. apply O7. intros num ?. apply Hp. lia.
Qed.

Lemma out_file_output_ok w dir lvl lo hi m b :
  healthy w -> out_file w dir lvl lo hi m b -> output_ok w lvl m b.
Proof. intros Hw [Ht Hl Hr _ _]. split; [by apply holds_table_at|done|done]. Qed.
End merge.

(** * Properties *)

(** C15. The merge keeps the newest version of every key: on inputs that are
    well-formed tables with distinct sequence numbers (total size below 1 GiB,
    no I/O fault), [MergeFiles] succeeds; the outputs are tables of the target
    level whose recorded key ranges are their first and last keys; taken
    together they are strictly sorted, so their ranges do not overlap; and
    looking up any non-empty key in them gives the input entry with the highest
    sequence number, or nothing when that entry is a tombstone and the target
    is the bottom level.  The empty key is never emitted. *)
Theorem merge_newest_wins {abi : Abi} (w : World) (cm : CompactionManager) (inputs : list SSTableMeta)
    (target_level : Z) (stats : CompactionStats) (file_data : list (list BlockEntry))
    (Hw : healthy w)
    (Htables : Forall2 (fun m es => table_at w (filepath m) es) inputs file_data)
    (Hsorted : Forall sorted_entries file_data) (Hplain : Forall tombstone_plain (mjoin file_data))
    (Hseq : NoDup (sequence_number <$> inputs)) (Hsize : encoded_sum (mjoin file_data) < 2 ^ 30)
    (Hnum : 0 <= next_file_number_ cm < 2 ^ 63) :
  exists metas batches stats' cm' w',
    MergeFiles w cm inputs target_level stats = Some (Ret (Val metas), stats', cm', w') /\
    Forall2 (output_ok w' target_level) metas batches /\
    sorted_entries (mjoin batches) /\ find_key (mjoin batches) [] = None /\
    (forall k, k <> [] ->
       find_key (mjoin batches) k = keep (target_level =? max_level_ cm - 1) (newest file_data inputs k)).
Proof.
  destruct (MergeFiles_spec w cm inputs target_level stats file_data Hw Htables Hsorted Hplain Hseq Hsize Hnum)
    as (metas & batches & outs & stats' & cm' & w' & Heq & [Hs Ha Hf] & <- & Hw' & _ & _ & Hout & _ & _ & _).
  exists metas, batches, stats', cm', w'. split_and!; auto.
  - eapply Forall2_impl; [exact Hout|]. intros m b. by apply out_file_output_ok.
  - apply find_key_None. intros e He E. apply Ha in He. rewrite E in He. by apply str_lt_irrefl in He.
Qed.

(** ** Two sample tables *)

#[local] Existing Instance x86_64_libstdcxx.

Definition bloom_of (es : list BlockEntry) : BloomFilter :=
  default (mkBloomFilter [] 0 0) (Add_all (BloomFilter_new (Z.of_nat (length es)) 10) (be_key <$> es)).

Definition older_entries : list BlockEntry :=
  [mkBlockEntry (lit "a") (lit "old") false; mkBlockEntry (lit "b") (lit "old") false].

Definition newer_entries : list BlockEntry :=
  [mkBlockEntry (lit "a") (lit "new") false; mkBlockEntry (lit "b") [] true].

Definition two_tables : World :=
  mkWorld (<[lit "/s/level0_2.sst" := table_bytes [newer_entries] (bloom_of newer_entries)]>
             {[ lit "/s/level0_1.sst" := table_bytes [older_entries] (bloom_of older_entries) ]}) [].

Lemma table_ok_intro es :
  es <> [] -> sorted_entries es -> encoded_sum es < 2 ^ 30 -> table_ok [es] (bloom_of es).
Proof.
  intros Hne Hs Hsize. destruct (bloom_for_keys es Hne Hsize) as (bloom & Hb & Hwf & Hb1 & Hb2 & Hb3 & Hk).
  unfold bloom_of. rewrite Hb. cbn [default].
  assert (mjoin [es] = es) as Hj by apply app_nil_r.
  split; rewrite ?Hj; auto.
Qed.

Definition older_meta : SSTableMeta := mkMeta (lit "/s/level0_1.sst") 0 (lit "a") (lit "b") 200 1.
Definition newer_meta : SSTableMeta := mkMeta (lit "/s/level0_2.sst") 0 (lit "a") (lit "b") 200 2.

Lemma two_tables_at :
  Forall2 (fun m es => table_at two_tables (filepath m) es) [older_meta; newer_meta] [older_entries; newer_entries].
Proof.
  assert (sorted_entries older_entries /\ sorted_entries newer_entries) as [H1 H2]
    by (split; repeat constructor; by_vm).
  constructor; [|constructor; [|constructor]].
  - apply holds_table_at; [done|]. exists [older_entries], (bloom_of older_entries).
    split; [|split; [by apply table_ok_intro|done]]. cbn [two_tables files filepath older_meta].
    rewrite lookup_insert_ne by (intros H; discriminate H). apply lookup_insert_eq.
  - apply holds_table_at; [done|]. exists [newer_entries], (bloom_of newer_entries).
    split; [|split; [by apply table_ok_intro|done]]. apply lookup_insert_eq.
Qed.

Lemma merge_newest_wins_witness :
  exists metas batches stats' cm' w',
    MergeFiles two_tables (CompactionManager_new (lit "/s") 7) [older_meta; newer_meta] 1
      (mkStats 0 1 2 0 0 0 0 0 0) = Some (Ret (Val metas), stats', cm', w') /\
    Forall2 (output_ok w' 1) metas batches /\
    sorted_entries (mjoin batches) /\ find_key (mjoin batches) [] = None /\
    (forall k, k <> [] ->
       find_key (mjoin batches) k = keep (1 =? 6) (newest [older_entries; newer_entries] [older_meta; newer_meta] k)).
Proof.
  apply (merge_newest_wins two_tables (CompactionManager_new (lit "/s") 7) [older_meta; newer_meta] 1
           (mkStats 0 1 2 0 0 0 0 0 0) [older_entries; newer_entries]).
  - reflexivity.
  - apply two_tables_at.
  - repeat constructor; by_vm.
  - repeat constructor; by intros.
  - repeat constructor; by_vm.
  - vm_compute. reflexivity.
  - vm_compute. split; [discriminate|reflexivity].
Defined.

(** ** Version order in a compaction run *)

(** [RunCompaction] numbers its source files by their position in the list
    sorted by smallest key, whatever their own sequence numbers. *)
Definition l0_entries (n : Z) : list BlockEntry :=
  if n =? 1 then [mkBlockEntry (lit "a") (lit "x") false; mkBlockEntry (lit "k") (lit "old") false]
  else if n =? 2 then [mkBlockEntry (lit "k") (lit "new") false]
  else [mkBlockEntry (lit "z") (lit "x") false].

Definition l0_path (n : Z) : str := lit "/s/level0_" ++ to_string n ++ lit ".sst".

Definition l0_meta (n : Z) : SSTableMeta :=
  mkMeta (l0_path n) 0
    (default [] (be_key <$> head (l0_entries n))) (default [] (be_key <$> last (l0_entries n))) 200 n.

Definition four_tables : World :=
  mkWorld (foldr (fun n fs => <[l0_path n := table_bytes [l0_entries n] (bloom_of (l0_entries n))]> fs)
             ∅ [1; 2; 3; 4]) [].

(** Reading a key from the output of a compaction of [metas]. *)
Definition compact_and_get (w : World) (metas : list SSTableMeta) (key : str) : option (option BlockEntry) :=
  match RunCompaction (sort := insertion_std_sort) w (mkCM (lit "/s") 7 metas 1) with
  | Some (Ret (Val _), cm, w) =>
      match files_ cm with
      | [m] =>
          match SSTableReader_Open w (filepath m) with
          | (Val rd, w) =>
              match SSTableReader_Get w rd key with
              | Some (Val e, _) => Some e
              | _ => None
              end
          | _ => None
          end
      | _ => None
      end
  | _ => None
  end.

(** The table with sequence number 2 holds the newer version of "k", but the
    compaction keeps the version of table 1, whose smallest key is smaller. *)
Example compaction_keeps_older_version :
  compact_and_get four_tables (l0_meta <$> [1; 2; 3; 4]) (lit "k")
  = Some (Some (mkBlockEntry (lit "k") (lit "old") false)).
Proof. vm_compute. reflexivity. Qed.

(** An entry with the empty key does not survive the merge: it equals the
    initial value of [last_emitted_key]. *)
Example merge_drops_empty_key :
  let es := [mkBlockEntry [] (lit "v") false; mkBlockEntry (lit "a") (lit "v") false] in
  let w := mkWorld {[ l0_path 1 := table_bytes [es] (bloom_of es) ]} [] in
  match MergeFiles w (CompactionManager_new (lit "/s") 7) [mkMeta (l0_path 1) 0 [] (lit "a") 200 1] 1
          (mkStats 0 1 1 0 0 0 0 0 0) with
  | Some (Ret (Val [m]), _, _, _) => smallest_key m = lit "a"
  | _ => False
  end.
Proof. vm_compute. reflexivity. Qed.
