(* ===== verification/BlockCache.v ===== *)
(** * [BlockCache]: LRU cache of blocks

    Models src/src/storage/cache/block_cache.{h,cpp}.  [lru_list_] is a
    [std::list]: each element has an identity (its node) that the iterators
    stored in [hash_map_] refer to; dereferencing an iterator whose node is
    gone is undefined behaviour and gives [None].  [Get] takes the lock twice,
    so it is two atomic sections, [Get_shared] and [Get_exclusive], and the
    theorems are about every interleaving of the sections of any number of
    threads.  [size_t] arithmetic is modulo [2^64].

    The theorem: the cache implements an abstract LRU list (move to front,
    evict from the back until the total fits), never follows a dangling
    iterator, and never exceeds its capacity. *)

From S2P Require Import Prelude.

Record CacheItem : Set := mkCacheItem { ci_key : str; ci_data : bytes }.

Record BlockCache : Set := mkCache {
  capacity_bytes_ : Z;
  current_size_bytes_ : Z;
  lru_list_ : list (nat * CacheItem);
  hash_map_ : gmap str nat;
  fresh_node : nat;
  hits_ : Z;
  misses_ : Z
}.

Definition BlockCache_new (capacity_mb : Z) : BlockCache :=
  mkCache (u64 (capacity_mb * 1024 * 1024)) 0 [] ∅ 0 0 0.

Definition MakeCacheKey (sstable_filepath : str) (block_offset : Z) : str :=
  sstable_filepath ++ lit ":" ++ to_string block_offset.

Definition item_size (it : CacheItem) : Z :=
  u64 (Z.of_nat (length (ci_key it)) + Z.of_nat (length (ci_data it))).

(** The node an iterator refers to, with what is before and after it. *)
Fixpoint split_node (id : nat) (l : list (nat * CacheItem)) :
    option (list (nat * CacheItem) * CacheItem * list (nat * CacheItem)) :=
  match l with
  | [] => None
  | (j, it) :: l =>
      if (j =? id)%nat then Some ([], it, l)
      else match split_node id l with
           | Some (before, x, after) => Some ((j, it) :: before, x, after)
           | None => None
           end
  end.

(** The section of [Get] under the shared lock: [false] is a miss. *)
Definition Get_shared (c : BlockCache) (cache_key : str) : bool * BlockCache :=
  match hash_map_ c !! cache_key with
  | None => (false, mkCache (capacity_bytes_ c) (current_size_bytes_ c) (lru_list_ c) (hash_map_ c)
                      (fresh_node c) (hits_ c) (u64 (misses_ c + 1)))
  | Some _ => (true, c)
  end.

(** The section of [Get] under the exclusive lock. *)
Definition Get_exclusive (c : BlockCache) (cache_key : str) : option (option bytes * BlockCache) :=
  match hash_map_ c !! cache_key with
  | None => Some (None, mkCache (capacity_bytes_ c) (current_size_bytes_ c) (lru_list_ c) (hash_map_ c)
                          (fresh_node c) (hits_ c) (u64 (misses_ c + 1)))
  | Some id =>
      match split_node id (lru_list_ c) with
      | None => None
      | Some (before, it, after) =>
          Some (Some (ci_data it),
                mkCache (capacity_bytes_ c) (current_size_bytes_ c) ((id, it) :: before ++ after)
                  (hash_map_ c) (fresh_node c) (u64 (hits_ c + 1)) (misses_ c))
      end
  end.

Definition BlockCache_Get (c : BlockCache) (cache_key : str) : option (option bytes * BlockCache) :=
  let '(found, c) := Get_shared c cache_key in
  if found then Get_exclusive c cache_key else Some (None, c).

(** The eviction loop; [n] is the length of the list. *)
Fixpoint evict (n : nat) (c : BlockCache) : BlockCache :=
  match n with
  | O => c
  | S n' =>
      if capacity_bytes_ c <? current_size_bytes_ c then
        match last (lru_list_ c) with
        | None => c
        | Some (_, it) =>
            evict n' (mkCache (capacity_bytes_ c) (u64 (current_size_bytes_ c - item_size it))
                        (take n' (lru_list_ c)) (delete (ci_key it) (hash_map_ c))
                        (fresh_node c) (hits_ c) (misses_ c))
        end
      else c
  end.

Definition BlockCache_Put (c : BlockCache) (cache_key : str) (block_data : bytes) : option BlockCache :=
  let item := mkCacheItem cache_key block_data in
  if capacity_bytes_ c <? item_size item then Some c
  else
    let removed :=
      match hash_map_ c !! cache_key with
      | None => Some c
      | Some id =>
          match split_node id (lru_list_ c) with
          | None => None
          | Some (before, old, after) =>
              Some (mkCache (capacity_bytes_ c) (u64 (current_size_bytes_ c - item_size old)) (before ++ after)
                      (delete cache_key (hash_map_ c)) (fresh_node c) (hits_ c) (misses_ c))
          end
      end in
    match removed with
    | None => None
    | Some c =>
        let id := fresh_node c in
        let c := mkCache (capacity_bytes_ c) (u64 (current_size_bytes_ c + item_size item))
                   ((id, item) :: lru_list_ c) (<[cache_key := id]> (hash_map_ c)) (S id) (hits_ c) (misses_ c) in
        Some (evict (length (lru_list_ c)) c)
    end.

(** ** The abstract LRU list *)

Definition total_size (l : list CacheItem) : Z := zsum (item_size <$> l).

Definition lru_find (l : list CacheItem) (key : str) : option bytes :=
  ci_data <$> head (filter (fun it => ci_key it = key) l).

Definition lru_remove (l : list CacheItem) (key : str) : list CacheItem := filter (fun it => ci_key it <> key) l.

Definition lru_touch (l : list CacheItem) (key : str) : list CacheItem :=
  filter (fun it => ci_key it = key) l ++ lru_remove l key.

(** The longest prefix that fits. *)
Fixpoint lru_fit (budget : Z) (l : list CacheItem) : list CacheItem :=
  match l with
  | [] => []
  | it :: l => if item_size it <=? budget then it :: lru_fit (budget - item_size it) l else []
  end.

Definition lru_put (capacity : Z) (l : list CacheItem) (key : str) (data : bytes) : list CacheItem :=
  let item := mkCacheItem key data in
  if capacity <? item_size item then l else lru_fit capacity (item :: lru_remove l key).

(** ** The representation invariant *)

Definition items (c : BlockCache) : list CacheItem := (lru_list_ c).*2.

Definition index_pairs (l : list (nat * CacheItem)) : list (str * nat) := (fun n => (ci_key n.2, n.1)) <$> l.

Record cache_inv (cap : Z) (c : BlockCache) : Prop := {
  ci_cap : capacity_bytes_ c = cap;
  ci_keys : NoDup (ci_key <$> items c);
  ci_nodes : NoDup (lru_list_ c).*1;
  ci_fresh : Forall (fun n => (n < fresh_node c)%nat) (lru_list_ c).*1;
  ci_map : hash_map_ c = list_to_map (index_pairs (lru_list_ c));
  ci_size : current_size_bytes_ c = total_size (items c);
  ci_fits : total_size (items c) <= cap
}.

Lemma item_size_range it : 0 <= item_size it < 2 ^ 64.
Proof. apply u64_range. Qed.

Lemma total_size_cons it l : total_size (it :: l) = item_size it + total_size l.
Proof. done. Qed.

Lemma total_size_app l1 l2 : total_size (l1 ++ l2) = total_size l1 + total_size l2.
Proof. unfold total_size. by rewrite fmap_app, zsum_app. Qed.

Lemma total_size_nonneg l : 0 <= total_size l.
Proof. induction l as [|it l IH]; [done|]. rewrite total_size_cons. pose proof (item_size_range it). lia. Qed.

Lemma index_pairs_keys l : (index_pairs l).*1 = ci_key <$> l.*2.
Proof. unfold index_pairs. by rewrite <-!list_fmap_compose. Qed.

Lemma split_node_spec l : forall before it after id,
  l = before ++ (id, it) :: after -> NoDup l.*1 -> split_node id l = Some (before, it, after).
Proof.
  intros before it after id -> Hnd. induction before as [|[j x] before IH]; cbn [app split_node].
  - by rewrite Nat.eqb_refl.
  - cbn [app fmap list_fmap fst] in Hnd. apply NoDup_cons in Hnd as [Hni Hnd].
    rewrite IH by done. destruct (Nat.eqb_spec j id) as [->|]; [|done].
    exfalso. apply Hni. rewrite fmap_app. apply elem_of_app. right. by left.
Qed.

(** The index points at the node that holds the key. *)
Lemma index_lookup cap c key :
  cache_inv cap c ->
  match hash_map_ c !! key with
  | None => key ∉ ci_key <$> items c
  | Some id => exists before data after,
      lru_list_ c = before ++ (id, mkCacheItem key data) :: after /\
      split_node id (lru_list_ c) = Some (before, mkCacheItem key data, after)
  end.
Proof.
  intros [_ Hk Hn _ Hm _ _]. rewrite Hm. destruct (list_to_map _ !! key) as [id|] eqn:E.
  - apply elem_of_list_to_map_2 in E. apply list_elem_of_fmap in E as ([j [k d]] & Heq & Hin).
    injection Heq as -> ->. apply list_elem_of_split in Hin as (before & after & Hl).
    exists before, d, after. split; [done|]. by apply split_node_spec.
  - apply not_elem_of_list_to_map_2 in E. by rewrite index_pairs_keys in E.
Qed.

(** ** The list operations on a list that holds the key once *)

Lemma filter_key_split (A B : list CacheItem) key d :
  NoDup (ci_key <$> A ++ mkCacheItem key d :: B) ->
  filter (fun it => ci_key it = key) (A ++ mkCacheItem key d :: B) = [mkCacheItem key d] /\
  lru_remove (A ++ mkCacheItem key d :: B) key = A ++ B.
Proof.
  intros Hnd. rewrite fmap_app, fmap_cons in Hnd. apply NoDup_middle in Hnd as [Hni _].
  assert (forall it, it ∈ A ++ B -> ci_key it <> key) as Hno.
  { intros it Hit E. apply Hni. cbn [ci_key]. rewrite <-fmap_app, <-E. by apply list_elem_of_fmap_2. }
  unfold lru_remove. rewrite !filter_app, filter_cons_True, filter_cons_False by (cbn; auto).
  rewrite !(filter_none (fun it => ci_key it = key)) by (intros it ?; apply Hno; set_solver).
  rewrite !(filter_all (fun it => ci_key it <> key)) by (intros it ?; apply Hno; set_solver). done.
Qed.

Lemma lru_absent (l : list CacheItem) key :
  (key ∉ ci_key <$> l) -> filter (fun it => ci_key it = key) l = [] /\ lru_remove l key = l.
Proof.
  intros Hni. assert (forall it, it ∈ l -> ci_key it <> key) as Hno.
  { intros it Hit <-. apply Hni. by apply list_elem_of_fmap_2. }
  split; [apply filter_none, Hno|apply filter_all, Hno].
Qed.

(** ** Eviction *)

Lemma lru_fit_all b l : total_size l <= b -> lru_fit b l = l.
Proof.
  revert b. induction l as [|it l IH]; intros b Hb; [done|]. rewrite total_size_cons in Hb.
  pose proof (total_size_nonneg l). cbn [lru_fit]. rewrite (proj2 (Z.leb_le _ _)) by lia.
  f_equal. apply IH. lia.
Qed.

Lemma lru_fit_snoc b l it : b < total_size (l ++ [it]) -> lru_fit b (l ++ [it]) = lru_fit b l.
Proof.
  revert b. induction l as [|x l IH]; intros b Hb; cbn [app lru_fit].
  - cbn [app] in Hb. rewrite total_size_cons in Hb. change (total_size []) with 0 in Hb.
    by rewrite (proj2 (Z.leb_gt _ _)) by lia.
  - cbn [app] in Hb. rewrite total_size_cons in Hb. destruct (item_size x <=? b); [|done].
    f_equal. apply IH. lia.
Qed.

Lemma lru_fit_total b l : 0 <= b -> total_size (lru_fit b l) <= b.
Proof.
  revert b. induction l as [|it l IH]; intros b Hb; [done|]. cbn [lru_fit].
  destruct (Z.leb_spec (item_size it) b); [|done]. rewrite total_size_cons.
  specialize (IH (b - item_size it) ltac:(lia)). lia.
Qed.

(** Everything but the capacity bound. *)
Record cache_pre (cap : Z) (c : BlockCache) : Prop := {
  cp_cap : capacity_bytes_ c = cap;
  cp_keys : NoDup (ci_key <$> items c);
  cp_nodes : NoDup (lru_list_ c).*1;
  cp_fresh : Forall (fun n => (n < fresh_node c)%nat) (lru_list_ c).*1;
  cp_map : hash_map_ c = list_to_map (index_pairs (lru_list_ c));
  cp_size : current_size_bytes_ c = total_size (items c);
  cp_bound : total_size (items c) < 2 ^ 64
}.

Lemma index_pairs_snoc l n : index_pairs (l ++ [n]) = index_pairs l ++ [(ci_key n.2, n.1)].
Proof. unfold index_pairs. by rewrite fmap_app. Qed.

Lemma evict_spec cap n : forall c,
  0 <= cap -> cache_pre cap c -> n = length (lru_list_ c) ->
  cache_inv cap (evict n c) /\ items (evict n c) = lru_fit cap (items c).
Proof.
  induction n as [|n IH]; intros c Hcap Hpre Hn.
  - destruct Hpre as [H1 H2 H3 H4 H5 H6 H7]. cbn [evict].
    assert (lru_list_ c = []) as E by (by apply length_zero_iff_nil). unfold items in *. rewrite E in *.
    split; [|done]. split; try done; unfold items; by rewrite E.
  - cbn [evict]. rewrite (cp_cap _ _ Hpre), (cp_size _ _ Hpre).
    destruct (Z.ltb_spec cap (total_size (items c))) as [Hlt|Hge].
    + destruct (last (lru_list_ c)) as [[id it]|] eqn:El.
      2: { apply last_None in El. by rewrite El in Hn. }
      apply last_Some in El as [l El]. destruct Hpre as [H1 H2 H3 H4 H5 H6 H7].
      unfold items in *. rewrite El in *. rewrite length_app in Hn. cbn in Hn.
      rewrite take_app_length' by lia. rewrite !fmap_app in *. cbn [fmap list_fmap snd fst] in *.
      rewrite total_size_app in *. rewrite total_size_cons in *. change (total_size []) with 0 in *.
      pose proof (total_size_nonneg l.*2). pose proof (item_size_range it).
      apply NoDup_app in H2 as (H2 & H2' & _). apply NoDup_app in H3 as (H3 & _ & _).
      apply Forall_app in H4 as [H4 _].
      destruct (IH (mkCache cap (u64 (total_size l.*2 + (item_size it + 0) - item_size it)) l
                      (delete (ci_key it) (hash_map_ c)) (fresh_node c) (hits_ c) (misses_ c))) as [Hinv Hit].
      * done.
      * split; unfold items; cbn [lru_list_ fresh_node hash_map_ current_size_bytes_ capacity_bytes_]; auto.
        -- rewrite H5, index_pairs_snoc, list_to_map_app. cbn [snd fst list_to_map foldr].
           assert ((list_to_map (index_pairs l) : gmap str nat) !! ci_key it = None) as Hnone.
           { apply not_elem_of_list_to_map_1. rewrite index_pairs_keys. intros Hin.
             apply (H2' _ Hin). by left. }
           change (<[ci_key it := id]> ∅ : gmap str nat) with ({[ ci_key it := id ]} : gmap str nat).
           rewrite <-insert_union_singleton_r by done. by apply delete_insert_id.
        -- rewrite u64_small by lia. lia.
        -- lia.
      * cbn. lia.
      * split; [exact Hinv|]. rewrite Hit. cbn [lru_list_]. symmetry. apply lru_fit_snoc.
        rewrite total_size_app, total_size_cons. change (total_size []) with 0. lia.
    + split; [destruct Hpre; by split|]. by rewrite lru_fit_all.
Qed.

(** ** The operations implement the abstract ones *)

(** The index of a list does not depend on the order of its nodes. *)
Lemma index_pairs_perm l1 l2 :
  l1 ≡ₚ l2 -> NoDup (ci_key <$> l1.*2) ->
  (list_to_map (index_pairs l1) : gmap str nat) = list_to_map (index_pairs l2).
Proof.
  intros Hp Hnd. apply list_to_map_proper; [by rewrite index_pairs_keys|]. unfold index_pairs. by rewrite Hp.
Qed.

Lemma total_size_perm l1 l2 : l1 ≡ₚ l2 -> total_size l1 = total_size l2.
Proof.
  unfold total_size. induction 1; cbn in *; unfold zsum in *; cbn in *; lia.
Qed.

(** Moving a node to the front. *)
Lemma cache_inv_front cap c n before after hits misses :
  cache_inv cap c -> lru_list_ c = before ++ n :: after ->
  cache_inv cap (mkCache (capacity_bytes_ c) (current_size_bytes_ c) (n :: before ++ after) (hash_map_ c)
                   (fresh_node c) hits misses).
Proof.
  intros [H1 H2 H3 H4 H5 H6 H7] Hl.
  assert (lru_list_ c ≡ₚ n :: before ++ after) as Hp by (rewrite Hl; symmetry; apply Permutation_middle).
  assert (items c ≡ₚ (n :: before ++ after).*2) as Hpi by (unfold items; by rewrite Hp).
  split; unfold items; cbn [lru_list_ fresh_node hash_map_ current_size_bytes_ capacity_bytes_]; auto.
  - by rewrite <-Hpi.
  - by rewrite <-Hp.
  - by rewrite <-Hp.
  - rewrite H5. by apply index_pairs_perm.
  - rewrite H6. by apply total_size_perm.
  - by rewrite <-(total_size_perm _ _ Hpi).
Qed.

(** The items around a node. *)
Lemma items_split c before id it after :
  lru_list_ c = before ++ (id, it) :: after -> items c = before.*2 ++ it :: after.*2.
Proof. intros Hl. unfold items. by rewrite Hl, fmap_app. Qed.

Lemma Get_exclusive_spec cap c key :
  cache_inv cap c ->
  exists c', Get_exclusive c key = Some (lru_find (items c) key, c') /\ cache_inv cap c' /\
    items c' = lru_touch (items c) key.
Proof.
  intros Hinv. pose proof (index_lookup cap c key Hinv) as Hix. unfold Get_exclusive, lru_find, lru_touch.
  destruct (hash_map_ c !! key) as [id|].
  - destruct Hix as (before & d & after & Hl & ->). pose proof (ci_keys _ _ Hinv) as Hk.
    rewrite (items_split _ _ _ _ _ Hl) in *. destruct (filter_key_split _ _ _ _ Hk) as [-> ->].
    eexists. split; [done|]. split; [by apply cache_inv_front|].
    unfold items. cbn [lru_list_]. by rewrite fmap_cons, fmap_app.
  - destruct (lru_absent _ _ Hix) as [-> ->]. eexists. split; [done|]. split; [|done].
    destruct Hinv. by split.
Qed.

Lemma Get_shared_spec cap c key :
  cache_inv cap c ->
  cache_inv cap (Get_shared c key).2 /\ items (Get_shared c key).2 = items c /\
  ((Get_shared c key).1 = true <-> lru_find (items c) key <> None).
Proof.
  intros Hinv. pose proof (index_lookup cap c key Hinv) as Hix. unfold Get_shared, lru_find.
  destruct (hash_map_ c !! key) as [id|]; cbn [fst snd].
  - destruct Hix as (before & d & after & Hl & _). split; [done|]. split; [done|].
    pose proof (ci_keys _ _ Hinv) as Hk. rewrite (items_split _ _ _ _ _ Hl) in *.
    by destruct (filter_key_split _ _ _ _ Hk) as [-> _].
  - destruct (lru_absent _ _ Hix) as [-> _]. split; [destruct Hinv; by split|]. done.
Qed.

(** Taking the old node of a key out. *)
Lemma cache_pre_remove cap c id before d after key :
  0 <= cap < 2 ^ 63 -> cache_inv cap c -> lru_list_ c = before ++ (id, mkCacheItem key d) :: after ->
  cache_inv cap (mkCache (capacity_bytes_ c) (u64 (current_size_bytes_ c - item_size (mkCacheItem key d)))
                   (before ++ after) (delete key (hash_map_ c)) (fresh_node c) (hits_ c) (misses_ c)) /\
  (before ++ after).*2 = lru_remove (items c) key.
Proof.
  intros Hcap Hinv Hl. pose proof (ci_keys _ _ Hinv) as Hk. rewrite (items_split _ _ _ _ _ Hl) in Hk |- *.
  destruct (filter_key_split _ _ _ _ Hk) as [_ ->]. split; [|by rewrite fmap_app].
  destruct (cache_inv_front cap c _ _ _ (hits_ c) (misses_ c) Hinv Hl) as [H1 H2 H3 H4 H5 H6 H7].
  unfold items in *. cbn [lru_list_ fresh_node hash_map_ current_size_bytes_ capacity_bytes_] in *.
  rewrite fmap_cons in *. cbn [snd fst] in *. rewrite total_size_cons in *.
  pose proof (total_size_nonneg (before ++ after).*2). pose proof (item_size_range (mkCacheItem key d)).
  apply NoDup_cons in H2 as [Hni H2]. apply NoDup_cons in H3 as [_ H3]. apply Forall_cons in H4 as [_ H4].
  split; unfold items; cbn [lru_list_ fresh_node hash_map_ current_size_bytes_ capacity_bytes_]; auto.
  - rewrite H5. unfold index_pairs at 1. rewrite fmap_cons. cbn [fst snd ci_key list_to_map foldr].
    apply delete_insert_id. apply not_elem_of_list_to_map_1. by rewrite index_pairs_keys.
  - rewrite H6, u64_small by lia. lia.
  - lia.
Qed.

(** Pushing a fresh node to the front. *)
Lemma cache_pre_push cap c key d :
  0 <= cap < 2 ^ 63 -> cache_inv cap c -> (key ∉ ci_key <$> items c) -> item_size (mkCacheItem key d) <= cap ->
  cache_pre cap (mkCache (capacity_bytes_ c) (u64 (current_size_bytes_ c + item_size (mkCacheItem key d)))
                   ((fresh_node c, mkCacheItem key d) :: lru_list_ c) (<[key := fresh_node c]> (hash_map_ c))
                   (S (fresh_node c)) (hits_ c) (misses_ c)).
Proof.
  intros Hcap [H1 H2 H3 H4 H5 H6 H7] Hni Hd.
  pose proof (total_size_nonneg (items c)). pose proof (item_size_range (mkCacheItem key d)).
  unfold items in *. split; unfold items; cbn [lru_list_ fresh_node hash_map_ current_size_bytes_ capacity_bytes_].
  - done.
  - rewrite !fmap_cons. by constructor.
  - rewrite fmap_cons. constructor; [|done]. cbn [fst]. intros Hin.
    rewrite Forall_forall in H4. specialize (H4 _ Hin). lia.
  - rewrite fmap_cons. constructor; [cbn [fst]; lia|]. eapply Forall_impl; [exact H4|].
    intros n Hn. cbn beta in Hn |- *. lia.
  - by rewrite H5.
  - rewrite fmap_cons, total_size_cons, H6, u64_small by lia. cbn [snd]. lia.
  - rewrite fmap_cons, total_size_cons. cbn [snd]. lia.
Qed.

Lemma lru_remove_absent l key : key ∉ ci_key <$> lru_remove l key.
Proof.
  intros Hin. apply list_elem_of_fmap in Hin as (it & -> & Hin). unfold lru_remove in Hin.
  apply list_elem_of_filter in Hin as [H _]. done.
Qed.

Lemma Put_spec cap c key d :
  0 <= cap < 2 ^ 63 -> cache_inv cap c ->
  exists c', BlockCache_Put c key d = Some c' /\ cache_inv cap c' /\ items c' = lru_put cap (items c) key d.
Proof.
  intros Hcap Hinv. unfold BlockCache_Put, lru_put. rewrite (ci_cap _ _ Hinv).
  destruct (Z.ltb_spec cap (item_size (mkCacheItem key d))) as [Hbig|Hfit]; [eauto|].
  pose proof (index_lookup cap c key Hinv) as Hix.
  assert (exists c1, match hash_map_ c !! key with
      | None => Some c
      | Some id =>
          match split_node id (lru_list_ c) with
          | None => None
          | Some (before, old, after) =>
              Some (mkCache (capacity_bytes_ c) (u64 (current_size_bytes_ c - item_size old)) (before ++ after)
                      (delete key (hash_map_ c)) (fresh_node c) (hits_ c) (misses_ c))
          end
      end = Some c1 /\ cache_inv cap c1 /\ items c1 = lru_remove (items c) key) as (c1 & Hc1 & Hinv1 & Hit1).
  { destruct (hash_map_ c !! key) as [id|].
    - destruct Hix as (before & old & after & Hl & ->).
      destruct (cache_pre_remove cap c id before old after key Hcap Hinv Hl) as [Hp Hr]. eauto.
    - exists c. split; [done|]. split; [done|]. by destruct (lru_absent _ _ Hix) as [_ ->]. }
  rewrite (ci_cap _ _ Hinv) in Hc1. rewrite Hc1.
  pose proof (cache_pre_push cap c1 key d Hcap Hinv1) as Hpush. rewrite Hit1 in Hpush.
  specialize (Hpush (lru_remove_absent _ _) Hfit).
  destruct (evict_spec cap _ _ ltac:(lia) Hpush eq_refl) as [Hinv2 Hit2].
  eexists. split; [done|]. split; [exact Hinv2|]. rewrite Hit2. unfold items at 1. cbn [lru_list_].
  rewrite fmap_cons. cbn [snd]. fold (items c1). by rewrite Hit1.
Qed.

(** ** Interleavings

    The atomic sections of any number of threads, in the order in which they
    take the lock.  A [Get] that finds its key under the shared lock is a
    [Probe] followed, after arbitrary other sections, by a [Take]. *)

Inductive cache_event : Set :=
  | Probe (key : str)
  | Take (key : str)
  | Insert (key : str) (data : bytes).

(** The section's result: whether a probe found the key, what a take read. *)
Inductive cache_result : Set :=
  | Probed (found : bool)
  | Took (data : option bytes)
  | Inserted.

Definition cache_step (c : BlockCache) (ev : cache_event) : option (cache_result * BlockCache) :=
  match ev with
  | Probe key => let '(found, c) := Get_shared c key in Some (Probed found, c)
  | Take key => match Get_exclusive c key with Some (d, c) => Some (Took d, c) | None => None end
  | Insert key data => match BlockCache_Put c key data with Some c => Some (Inserted, c) | None => None end
  end.

Fixpoint cache_run (c : BlockCache) (evs : list cache_event) : option (list cache_result * BlockCache) :=
  match evs with
  | [] => Some ([], c)
  | ev :: evs =>
      match cache_step c ev with
      | None => None
      | Some (r, c) =>
          match cache_run c evs with Some (rs, c) => Some (r :: rs, c) | None => None end
      end
  end.

(** The same on the abstract list. *)
Definition lru_step (cap : Z) (l : list CacheItem) (ev : cache_event) : cache_result * list CacheItem :=
  match ev with
  | Probe key => (Probed (match lru_find l key with Some _ => true | None => false end), l)
  | Take key => (Took (lru_find l key), lru_touch l key)
  | Insert key data => (Inserted, lru_put cap l key data)
  end.

Fixpoint lru_run (cap : Z) (l : list CacheItem) (evs : list cache_event) : list cache_result * list CacheItem :=
  match evs with
  | [] => ([], l)
  | ev :: evs =>
      let '(r, l) := lru_step cap l ev in
      let '(rs, l) := lru_run cap l evs in
      (r :: rs, l)
  end.

Lemma cache_step_spec cap c ev :
  0 <= cap < 2 ^ 63 -> cache_inv cap c ->
  exists c', cache_step c ev = Some ((lru_step cap (items c) ev).1, c') /\ cache_inv cap c' /\
    items c' = (lru_step cap (items c) ev).2.
Proof.
  intros Hcap Hinv. destruct ev as [key|key|key d]; cbn [cache_step lru_step fst snd].
  - pose proof (Get_shared_spec cap c key Hinv) as (H1 & H2 & H3).
    destruct (Get_shared c key) as [found c']. cbn [fst snd] in *. exists c'. split; [|done].
    do 3 f_equal. destruct (lru_find (items c) key), found; try done; exfalso.
    + by assert (false = true) by (by apply H3).
    + by apply (proj1 H3 eq_refl).
  - destruct (Get_exclusive_spec cap c key Hinv) as (c' & -> & H1 & H2). eauto.
  - destruct (Put_spec cap c key d Hcap Hinv) as (c' & -> & H1 & H2). eauto.
Qed.

Lemma cache_run_spec cap evs : forall c,
  0 <= cap < 2 ^ 63 -> cache_inv cap c ->
  exists c', cache_run c evs = Some ((lru_run cap (items c) evs).1, c') /\ cache_inv cap c' /\
    items c' = (lru_run cap (items c) evs).2.
Proof.
  induction evs as [|ev evs IH]; intros c Hcap Hinv; cbn [cache_run lru_run]; [eauto|].
  destruct (cache_step_spec cap c ev Hcap Hinv) as (c1 & -> & H1 & H2).
  destruct (lru_step cap (items c) ev) as [r l]. cbn [fst snd] in *. subst l.
  destruct (IH c1 Hcap H1) as (c2 & -> & H3 & H4).
  destruct (lru_run cap (items c1) evs) as [rs l]. eauto.
Qed.

Lemma cache_new_inv mb :
  0 <= mb < 2 ^ 43 -> cache_inv (mb * 1024 * 1024) (BlockCache_new mb).
Proof.
  intros H. split; cbn; try done; try (by constructor). - rewrite u64_small; lia. - lia.
Qed.

(** The data of the last insertion of [key] that was not refused. *)
Definition latest (cap : Z) (evs : list cache_event) (key : str) : option bytes :=
  foldl (fun cur ev =>
    match ev with
    | Insert k d => if bool_decide (k = key) && negb (cap <? item_size (mkCacheItem k d)) then Some d else cur
    | _ => cur
    end) None evs.

Lemma lru_fit_sub b l it : it ∈ lru_fit b l -> it ∈ l.
Proof.
  revert b. induction l as [|x l IH]; intros b; cbn [lru_fit]; [done|].
  destruct (item_size x <=? b); [|intros H; by apply not_elem_of_nil in H].
  rewrite !elem_of_cons. intros [->|H]; [by left|right; eauto].
Qed.

Lemma latest_snoc cap evs ev key :
  latest cap (evs ++ [ev]) key
  = match ev with
    | Insert k d => if bool_decide (k = key) && negb (cap <? item_size (mkCacheItem k d)) then Some d
                    else latest cap evs key
    | _ => latest cap evs key
    end.
Proof. unfold latest. by rewrite foldl_app. Qed.

Lemma lru_run_snoc cap evs : forall l ev,
  (lru_run cap l (evs ++ [ev])).2 = (lru_step cap (lru_run cap l evs).2 ev).2.
Proof.
  induction evs as [|e evs IH]; intros l ev; cbn [app lru_run].
  - cbn [snd]. by destruct (lru_step cap l ev).
  - destruct (lru_step cap l e) as [r l']. specialize (IH l' ev).
    destruct (lru_run cap l' (evs ++ [ev])), (lru_run cap l' evs). exact IH.
Qed.

Lemma lru_latest cap evs it :
  it ∈ (lru_run cap [] evs).2 -> latest cap evs (ci_key it) = Some (ci_data it).
Proof.
  revert it. induction evs as [|ev evs IH] using rev_ind; intros it.
  - intros H. by apply not_elem_of_nil in H.
  - rewrite lru_run_snoc, latest_snoc. destruct ev as [key|key|key d]; cbn [lru_step snd]; [apply IH| |].
    + intros H. apply IH. unfold lru_touch, lru_remove in H.
      rewrite elem_of_app, !list_elem_of_filter in H. tauto.
    + unfold lru_put. destruct (cap <? item_size (mkCacheItem key d)); cbn [negb].
      * rewrite andb_false_r. apply IH.
      * rewrite andb_true_r. intros H. apply lru_fit_sub, elem_of_cons in H as [->|H].
        -- cbn. by rewrite bool_decide_true.
        -- unfold lru_remove in H. apply list_elem_of_filter in H as [Hne H].
           rewrite bool_decide_false by congruence. by apply IH.
Qed.

(** * Properties *)

(** C23. The cache implements LRU under every interleaving: for any sequence of
    the atomic sections of concurrent [Get] and [Put] calls on a new cache of
    less than 8 EiB, no dangling iterator is followed; every section returns
    what the abstract LRU list gives; the list holds exactly the abstract
    items in recency order; and the tracked size is the total of the items
    and never exceeds the capacity. *)
Theorem cache_refines_lru (capacity_mb : Z) (evs : list cache_event) (Hmb : 0 <= capacity_mb < 2 ^ 43) :
  let cap := capacity_mb * 1024 * 1024 in
  exists c, cache_run (BlockCache_new capacity_mb) evs = Some ((lru_run cap [] evs).1, c) /\
    items c = (lru_run cap [] evs).2 /\
    current_size_bytes_ c = total_size (items c) /\ current_size_bytes_ c <= capacity_bytes_ c.
Proof.
  intros cap. destruct (cache_run_spec cap evs (BlockCache_new capacity_mb)) as (c & Hrun & Hinv & Hit).
  - unfold cap. lia.
  - by apply cache_new_inv.
  - exists c. split; [done|]. split; [done|]. rewrite (ci_size _ _ Hinv), (ci_cap _ _ Hinv).
    split; [done|apply Hinv].
Qed.

Definition sample_events : list cache_event :=
  [Insert (lit "f:0") (lit "x"); Probe (lit "f:0"); Insert (lit "f:9") (lit "y"); Take (lit "f:0");
   Insert (lit "f:0") (lit "z"); Take (lit "f:0"); Take (lit "g:0")].

Lemma cache_refines_lru_witness :
  exists c, cache_run (BlockCache_new 1) sample_events = Some ((lru_run 1048576 [] sample_events).1, c) /\
    items c = (lru_run 1048576 [] sample_events).2 /\
    current_size_bytes_ c = total_size (items c) /\ current_size_bytes_ c <= capacity_bytes_ c.
Proof. apply (cache_refines_lru 1 sample_events). lia. Defined.

(** A hit is never stale: whatever was interleaved, what a take reads for a
    key is the data of the last accepted insertion of that key. *)
Theorem cache_never_stale (capacity_mb : Z) (evs : list cache_event) (key : str) (data : bytes) (c c' : BlockCache)
    (Hmb : 0 <= capacity_mb < 2 ^ 43)
    (Hrun : cache_run (BlockCache_new capacity_mb) evs = Some ((lru_run (capacity_mb * 1024 * 1024) [] evs).1, c))
    (Hget : Get_exclusive c key = Some (Some data, c')) :
  latest (capacity_mb * 1024 * 1024) evs key = Some data.
Proof.
  set (cap := capacity_mb * 1024 * 1024) in *.
  destruct (cache_run_spec cap evs (BlockCache_new capacity_mb)) as (c1 & Hrun1 & Hinv & Hit);
    [unfold cap; lia|by apply cache_new_inv|].
  change (items (BlockCache_new capacity_mb)) with (@nil CacheItem) in *.
  rewrite Hrun in Hrun1. injection Hrun1 as <-.
  destruct (Get_exclusive_spec cap c key Hinv) as (c2 & Heq & _). rewrite Hget in Heq. injection Heq as Hfind _.
  unfold lru_find in Hfind. destruct (head _) as [it|] eqn:Eh; [|done]. injection Hfind as ->.
  apply head_Some_elem_of, list_elem_of_filter in Eh as [<- Hin]. apply lru_latest. by rewrite <-Hit.
Qed.

Lemma cache_never_stale_witness :
  latest 1048576 (take 5 sample_events) (lit "f:0") = Some (lit "z").
Proof.
  eapply (cache_never_stale 1 (take 5 sample_events) (lit "f:0") (lit "z")).
  - lia.
  - vm_compute. reflexivity.
  - vm_compute. reflexivity.
Defined.

Lemma digits_no_colon s : Forall is_digit s -> Byte.x3a ∉ s.
Proof. intros H Hin. rewrite Forall_forall in H. specialize (H _ Hin). by destruct H as [_ H]. Qed.

Lemma app_colon_inj (a b a' b' : str) :
  (Byte.x3a ∉ b) -> (Byte.x3a ∉ b') -> a ++ Byte.x3a :: b = a' ++ Byte.x3a :: b' -> a = a' /\ b = b'.
Proof.
  revert a'. induction a as [|x a IH]; intros [|x' a'] Hb Hb' H; cbn [app] in H.
  - by injection H as ->.
  - injection H as <- ->. exfalso. apply Hb. apply elem_of_app. right. by left.
  - injection H as -> <-. exfalso. apply Hb'. apply elem_of_app. right. by left.
  - injection H as -> H. destruct (IH a' Hb Hb' H) as [-> ->]. done.
Qed.

(** Cache keys are unique: two blocks have the same cache key only if they
    are the same block of the same file, even when paths contain colons. *)
Theorem cache_key_injective (path path' : str) (offset offset' : Z)
    (Ho : 0 <= offset < 2 ^ 64) (Ho' : 0 <= offset' < 2 ^ 64)
    (Hkey : MakeCacheKey path offset = MakeCacheKey path' offset') :
  path = path' /\ offset = offset'.
Proof.
  unfold MakeCacheKey in Hkey.
  destruct (app_colon_inj path (to_string offset) path' (to_string offset')) as [-> H];
    auto using digits_no_colon, to_string_digits.
  split; [done|]. by apply to_string_inj.
Qed.

Lemma cache_key_injective_witness : lit "a:1" = lit "a:1" /\ 2 = 2.
Proof.
  apply (cache_key_injective (lit "a:1") (lit "a:1") 2 2).
  - lia.
  - lia.
  - reflexivity.
Defined.
