(* ===== verification/Engine.v ===== *)
(** * [StorageEngine]

    Models src/src/storage/engine/storage_engine.{h,cpp}: opening and
    recovery, the write path (log, memtable, flush), the read path (memtable,
    tables from newest to oldest), the destructor and one pass of the
    background compaction loop.  The engine owns the log, the memtables, the
    catalogue, the block cache and the checkpoint manager, as in the source;
    a [std::unique_ptr] is an [option], and [None] as an outcome is a
    dereference of a null pointer, an exception of [file_size], or the [None]
    of a component.

    Where the source releases its locks between two steps, the steps are
    separate definitions ([WriteEntry_log], [WriteEntry_apply], [Flush_swap],
    [Flush_lsn], [Flush_write]), so that interleavings of threads are
    sequences of them; the methods compose them. *)

From S2P Require Import Prelude Status BinarySerializer Mt19937 SkipList MemTable FileSystem Wal Recovery Checkpoint BloomFilter Block SSTable Compaction BlockCache.

Record StorageConfig : Set := mkConfig {
  data_dir : str;
  wal_dir : str;
  sst_dir : str;
  memtable_size_bytes : Z;
  block_cache_mb : Z
}.

Record StorageEngine : Set := mkEngine {
  config_ : StorageConfig;
  wal_ : option WAL;
  active_memtable_ : option MemTable;
  immutable_memtable_ : option MemTable;
  compaction_manager_ : CompactionManager;
  block_cache_ : BlockCache;
  checkpoint_manager_ : CheckpointManager;
  wal_writes_ : Z;
  memtable_flushes_ : Z;
  next_sst_sequence_ : Z
}.

Definition StorageEngine_new (config : StorageConfig) : StorageEngine :=
  mkEngine config None None None (CompactionManager_new (sst_dir config) kNumLevels)
    (BlockCache_new (block_cache_mb config)) (CheckpointManager_new (data_dir config)) 0 0 1.

(** Field updates. *)
Definition set_wal (e : StorageEngine) (wal : WAL) : StorageEngine :=
  mkEngine (config_ e) (Some wal) (active_memtable_ e) (immutable_memtable_ e) (compaction_manager_ e)
    (block_cache_ e) (checkpoint_manager_ e) (wal_writes_ e) (memtable_flushes_ e) (next_sst_sequence_ e).

Definition set_memtables (e : StorageEngine) (active immutable : option MemTable) : StorageEngine :=
  mkEngine (config_ e) (wal_ e) active immutable (compaction_manager_ e)
    (block_cache_ e) (checkpoint_manager_ e) (wal_writes_ e) (memtable_flushes_ e) (next_sst_sequence_ e).

Definition set_compaction (e : StorageEngine) (cm : CompactionManager) : StorageEngine :=
  mkEngine (config_ e) (wal_ e) (active_memtable_ e) (immutable_memtable_ e) cm
    (block_cache_ e) (checkpoint_manager_ e) (wal_writes_ e) (memtable_flushes_ e) (next_sst_sequence_ e).

Definition set_counters (e : StorageEngine) (writes flushes seq : Z) : StorageEngine :=
  mkEngine (config_ e) (wal_ e) (active_memtable_ e) (immutable_memtable_ e) (compaction_manager_ e)
    (block_cache_ e) (checkpoint_manager_ e) writes flushes seq.

Definition wal_path (config : StorageConfig) : str := wal_dir config ++ lit "/wal_current.log".

Section engine.
Context {abi : Abi} {sort : StdSort}.

(** ** Recovery *)

Definition Recover (w : World) (e : StorageEngine) : option (Status * StorageEngine * World) :=
  let '(cp_result, w) := LoadCheckpoint w (checkpoint_manager_ e) in
  match cp_result with
  | Err s => Some (s, e, w)
  | Val cp =>
      let '(s, cm) := add_files (compaction_manager_ e) (sstables cp) in
      let e := set_compaction e cm in
      if negb (IsOk s) then Some (s, e, w)
      else
        let e := set_memtables e (Some MemTable_new) (immutable_memtable_ e) in
        let '(wal_result, w) := WAL_Open w (wal_path (config_ e)) in
        match wal_result with
        | Err s => Some (s, e, w)
        | Val wal =>
            let e := set_wal e wal in
            match RecoverMemTable w (wal_path (config_ e)) MemTable_new (last_flushed_lsn cp) with
            | None => None
            | Some (Err s, mt, w) => Some (s, set_memtables e (Some mt) (immutable_memtable_ e), w)
            | Some (Val _, mt, w) => Some (StatusOk, set_memtables e (Some mt) (immutable_memtable_ e), w)
            end
        end
  end.

(** ** Flushing *)

(** Step 1: swap the active memtable for an empty one.  The inner [option]
    is empty when there is nothing to flush. *)
Definition Flush_swap (e : StorageEngine) : option (option MemTable * StorageEngine) :=
  match active_memtable_ e with
  | None => None
  | Some mt =>
      match MemTable_IsEmpty mt with
      | None => None
      | Some true => Some (None, e)
      | Some false => Some (Some mt, set_memtables e (Some MemTable_new) None)
      end
  end.

(** The log position recorded with the flush. *)
Definition Flush_lsn (e : StorageEngine) : option Z :=
  match wal_ e with None => None | Some wal => Some (current_sequence_number wal) end.

Definition sst_path (e : StorageEngine) (seq : Z) : str :=
  sst_dir (config_ e) ++ lit "/level0_" ++ to_string seq ++ lit ".sst".

(** The key range read back from the new file; empty strings otherwise. *)
Definition key_range (w : World) (path : str) : str * str * World :=
  let '(reader, w) := SSTableReader_Open w path in
  match reader with
  | Err _ => ([], [], w)
  | Val rd =>
      let '(entries, w) := SSTableReader_ReadAll w rd in
      match entries with
      | Val (first :: rest) => (be_key first, be_key (default first (last (first :: rest))), w)
      | _ => ([], [], w)
      end
  end.

(** Steps 2 to 5. *)
Definition Flush_write (w : World) (e : StorageEngine) (to_flush : MemTable) (flush_lsn : Z) :
    option (Status * StorageEngine * World) :=
  let seq := next_sst_sequence_ e in
  let e := set_counters e (wal_writes_ e) (memtable_flushes_ e) (u64 (seq + 1)) in
  let path := sst_path e seq in
  match MemTable_entries to_flush with
  | None => None
  | Some iter =>
      match SSTableWriter_Write w path iter with
      | None => None
      | Some (s, w) =>
          if negb (IsOk s) then Some (s, e, w)
          else
            match fs_file_size w path with
            | None => None
            | Some size =>
                let '(lo, hi, w) := key_range w path in
                let meta := mkMeta path 0 lo hi size seq in
                let '(s, cm) := AddFile (compaction_manager_ e) meta in
                let e := set_compaction e cm in
                if negb (IsOk s) then Some (s, e, w)
                else
                  let cp := mkCheckpoint flush_lsn (AllFiles (compaction_manager_ e)) in
                  let '(s, w) := SaveCheckpoint w (checkpoint_manager_ e) cp in
                  if negb (IsOk s) then Some (s, e, w)
                  else
                    let e := set_memtables e (active_memtable_ e) None in
                    Some (StatusOk,
                          set_counters e (wal_writes_ e) (u64 (memtable_flushes_ e + 1)) (next_sst_sequence_ e), w)
            end
      end
  end.

Definition FlushMemTable (w : World) (e : StorageEngine) : option (Status * StorageEngine * World) :=
  match Flush_swap e with
  | None => None
  | Some (None, e) => Some (StatusOk, e, w)
  | Some (Some to_flush, e) =>
      match Flush_lsn e with
      | None => None
      | Some flush_lsn => Flush_write w e to_flush flush_lsn
      end
  end.

(** ** Writing *)

(** Step 1: append to the log. *)
Definition WriteEntry_log (w : World) (e : StorageEngine) (type : WALEntryType) (key : str) (value : bytes) :
    option (Status * StorageEngine * World) :=
  match wal_ e with
  | None => None
  | Some wal =>
      let '(result, wal, w) := WAL_Append w wal (mkWALEntry 0 type key value) in
      let e := set_wal e wal in
      match result with
      | Err s => Some (s, e, w)
      | Val _ => Some (StatusOk, set_counters e (u64 (wal_writes_ e + 1)) (memtable_flushes_ e) (next_sst_sequence_ e), w)
      end
  end.

(** Step 2: apply to the memtable; [true] when a flush is needed. *)
Definition WriteEntry_apply (e : StorageEngine) (type : WALEntryType) (key : str) (value : bytes) :
    option (bool * StorageEngine) :=
  match active_memtable_ e with
  | None => None
  | Some mt =>
      match (if bool_decide (type = kPut) then MemTable_Put mt key value else MemTable_Delete mt key) with
      | None => None
      | Some mt =>
          Some (memtable_size_bytes (config_ e) <=? MemTable_ApproximateMemoryUsage mt,
                set_memtables e (Some mt) (immutable_memtable_ e))
      end
  end.

Definition WriteEntry (w : World) (e : StorageEngine) (type : WALEntryType) (key : str) (value : bytes) :
    option (Status * StorageEngine * World) :=
  match WriteEntry_log w e type key value with
  | None => None
  | Some (s, e, w) =>
      if negb (IsOk s) then Some (s, e, w)
      else
        match WriteEntry_apply e type key value with
        | None => None
        | Some (needs_flush, e) =>
            if needs_flush then FlushMemTable w e else Some (StatusOk, e, w)
        end
  end.

Definition StorageEngine_Put (w : World) (e : StorageEngine) (key : str) (value : bytes) :=
  WriteEntry w e kPut key value.

Definition StorageEngine_Delete (w : World) (e : StorageEngine) (key : str) :=
  WriteEntry w e kDelete key [].

(** ** Reading *)

(** L0 first, then deeper levels; within a level the newest first. *)
Definition newer_first (a b : SSTableMeta) : bool :=
  if negb (level a =? level b) then level a <? level b
  else sequence_number b <? sequence_number a.

Fixpoint search_tables (w : World) (files : list SSTableMeta) (key : str) :
    option (ErrorOr (option bytes) * World) :=
  match files with
  | [] => Some (Val None, w)
  | meta :: files =>
      if str_ltb key (smallest_key meta) || str_ltb (largest_key meta) key
      then search_tables w files key
      else
        let '(reader, w) := SSTableReader_Open w (filepath meta) in
        match reader with
        | Err s => Some (Err s, w)
        | Val rd =>
            match SSTableReader_Get w rd key with
            | None => None
            | Some (Err s, w) => Some (Err s, w)
            | Some (Val None, w) => search_tables w files key
            | Some (Val (Some entry), w) =>
                if be_is_tombstone entry then Some (Val None, w) else Some (Val (Some (be_value entry)), w)
            end
        end
  end.

Definition GetFromSSTables (w : World) (e : StorageEngine) (key : str) : option (ErrorOr (option bytes) * World) :=
  search_tables w (std_sort newer_first (AllFiles (compaction_manager_ e))) key.

Definition StorageEngine_Get (w : World) (e : StorageEngine) (key : str) : option (ErrorOr (option bytes) * World) :=
  match active_memtable_ e with
  | None => None
  | Some mt =>
      match MemTable_Get mt key with
      | None => None
      | Some (Some v) => Some (Val (Some v), w)
      | Some None =>
          match immutable_memtable_ e with
          | None => GetFromSSTables w e key
          | Some imm =>
              match MemTable_Get imm key with
              | None => None
              | Some (Some v) => Some (Val (Some v), w)
              | Some None => GetFromSSTables w e key
              end
          end
      end
  end.

(** ** Background compaction: the body of the loop after a wake-up

    Nothing in the thread catches an exception: one that leaves the body ends the
    process ([std::terminate]), and only the files remain. *)

Definition CompactionLoop_body (w : World) (e : StorageEngine) : option (Outcome StorageEngine * World) :=
  if negb (NeedsCompaction (compaction_manager_ e)) then Some (Ret e, w)
  else
    match RunCompaction w (compaction_manager_ e) with
    | None => None
    | Some (Throw, _, w) => Some (Throw, w)
    | Some (Ret _, cm, w) =>
        let e := set_compaction e cm in
        match wal_ e with
        | None => None
        | Some wal =>
            let cp := mkCheckpoint (current_sequence_number wal) (AllFiles (compaction_manager_ e)) in
            let '(_, w) := SaveCheckpoint w (checkpoint_manager_ e) cp in
            Some (Ret e, w)
        end
    end.

(** The loop.  Each element of [loads] is what [shutdown_.load()] returns at the
    head of a round and after the wait in it; the thread is waiting when the
    list is used up. *)
Fixpoint CompactionLoop (loads : list (bool * bool)) (w : World) (e : StorageEngine) :
    option (Outcome StorageEngine * World) :=
  match loads with
  | [] => Some (Ret e, w)
  | (at_head, after_wait) :: loads =>
      if at_head then Some (Ret e, w)
      else if after_wait then Some (Ret e, w)
      else
        match CompactionLoop_body w e with
        | None => None
        | Some (Throw, w) => Some (Throw, w)
        | Some (Ret e, w) => CompactionLoop loads w e
        end
  end.

(** ** Opening and closing *)

(** The destructor: the final flush, whose failure is only logged, and then
    the log closes its file. *)
Definition StorageEngine_destroy (w : World) (e : StorageEngine) : option World :=
  let close (e : StorageEngine) (w : World) : World :=
    match wal_ e with Some wal => WAL_destroy w wal | None => w end in
  match active_memtable_ e with
  | None => Some (close e w)
  | Some mt =>
      match MemTable_IsEmpty mt with
      | None => None
      | Some true => Some (close e w)
      | Some false =>
          match FlushMemTable w e with
          | None => None
          | Some (_, e, w) => Some (close e w)
          end
      end
  end.

(** When recovery fails the engine is destroyed before [Open] returns. *)
Definition StorageEngine_Open (w : World) (config : StorageConfig) : option (ErrorOr StorageEngine * World) :=
  match Recover w (StorageEngine_new config) with
  | None => None
  | Some (s, e, w) =>
      if negb (IsOk s) then
        match StorageEngine_destroy w e with
        | None => None
        | Some w => Some (Err s, w)
        end
      else Some (Val e, w)
  end.
End engine.
