(* ===== verification/EngineCorrect.v ===== *)
(** * Correctness of the storage engine

    Proofs about Engine.v for one thread of operations in a world without
    I/O faults.  The state is related to the log of all writes: the log is the
    concatenation of the segments that were flushed, one table per segment,
    and of the pending entries, which the memtable holds ([engine_view]).
    Every operation preserves the relation; reopening the files re-establishes
    it; and the relation determines what [Get] returns. *)

From S2P Require Import Prelude Status BinarySerializer Mt19937 SkipList MemTable FileSystem Wal Recovery Checkpoint BloomFilter Block SSTable Compaction CompactionMerge BlockCache Engine.

(** ** The contents of a segment *)

(** The effect of a list of log entries on an empty memtable. *)
Definition segment_map (seg : list WALEntry) : gmap str SkipListValue := foldl apply_entry ∅ seg.

(** [es] lists the map [m] in key order. *)
Definition lists_map (m : gmap str SkipListValue) (es : list BlockEntry) : Prop :=
  sorted_entries es /\ m = list_to_map (pair_of_entry <$> es).

Definition entry_for (key : str) (v : SkipListValue) : BlockEntry := mkBlockEntry key (data v) (is_tombstone v).

Lemma lists_map_find m es key :
  lists_map m es -> find_key es key = entry_for key <$> m !! key.
Proof.
  intros [Hs ->]. clear Hs. induction es as [|e es IH]; [done|]. rewrite fmap_cons, find_key_cons.
  unfold pair_of_entry at 1. rewrite list_to_map_cons. destruct (decide (be_key e = key)) as [<-|Hne].
  - rewrite lookup_insert_eq. by destruct e.
  - by rewrite lookup_insert_ne.
Qed.

Lemma lists_map_iter m iter :
  StronglySorted str_lt iter.*1 -> m = list_to_map iter -> lists_map m (entry_of_iter <$> iter).
Proof.
  intros Hs ->. split.
  - unfold sorted_entries. by rewrite <-list_fmap_compose.
  - f_equal. rewrite <-list_fmap_compose. rewrite <-(list_fmap_id iter) at 1. apply list_fmap_ext.
    intros i [k [t d]] _. done.
Qed.

(** ** Sizes *)

Definition pair_size (kv : str * SkipListValue) : Z := EncodedSize (entry_of_iter kv).

Definition map_size (m : gmap str SkipListValue) : Z := zsum (pair_size <$> map_to_list m).

Lemma zsum_perm l1 l2 : l1 ≡ₚ l2 -> zsum l1 = zsum l2.
Proof. unfold zsum. induction 1; cbn; lia. Qed.

Lemma map_size_insert_fresh m k v : m !! k = None -> map_size (<[k := v]> m) = pair_size (k, v) + map_size m.
Proof.
  intros H. unfold map_size. rewrite (zsum_perm _ _ (fmap_Permutation pair_size _ _ (map_to_list_insert m k v H))).
  done.
Qed.

Lemma pair_size_pos kv : 9 <= pair_size kv.
Proof. unfold pair_size, EncodedSize. lia. Qed.

Lemma map_size_insert m k v : map_size (<[k := v]> m) <= pair_size (k, v) + map_size m.
Proof.
  destruct (m !! k) as [v'|] eqn:E; [|rewrite map_size_insert_fresh by done; lia].
  rewrite <-(insert_delete_eq m k v). rewrite map_size_insert_fresh by apply lookup_delete_eq.
  rewrite <-(insert_delete_id m k v' E) at 2. rewrite map_size_insert_fresh by apply lookup_delete_eq.
  pose proof (pair_size_pos (k, v')). lia.
Qed.

Definition entry_cost (e : WALEntry) : Z :=
  9 + Z.of_nat (length (we_key e)) + Z.of_nat (length (we_value e)).

Definition log_cost (es : list WALEntry) : Z := zsum (entry_cost <$> es).

Lemma log_cost_app es1 es2 : log_cost (es1 ++ es2) = log_cost es1 + log_cost es2.
Proof. unfold log_cost. by rewrite fmap_app, zsum_app. Qed.

Lemma log_cost_cons e es : log_cost (e :: es) = entry_cost e + log_cost es.
Proof. reflexivity. Qed.

Lemma log_cost_count es : 9 * Z.of_nat (length es) <= log_cost es.
Proof.
  induction es as [|e es IH]; [done|]. rewrite log_cost_cons. cbn [length]. unfold entry_cost. lia.
Qed.

Lemma entry_value_size e : pair_size (we_key e, entry_value e) <= entry_cost e.
Proof.
  unfold pair_size, EncodedSize, entry_of_iter, entry_value, entry_cost. cbn [be_key be_value fst snd].
  destruct (bool_decide _); cbn [data live tombstone length]; lia.
Qed.

Lemma segment_size seg : forall m, map_size (foldl apply_entry m seg) <= log_cost seg + map_size m.
Proof.
  induction seg as [|e seg IH]; intros m; cbn [foldl]; [change (log_cost []) with 0; lia|].
  specialize (IH (apply_entry m e)). rewrite log_cost_cons.
  pose proof (map_size_insert m (we_key e) (entry_value e)) as Hi. fold (apply_entry m e) in Hi.
  pose proof (entry_value_size e). lia.
Qed.

Lemma lists_map_size seg es : lists_map (segment_map seg) es -> encoded_sum es <= log_cost seg.
Proof.
  intros [Hs Hm]. pose proof (segment_size seg ∅) as H. fold (segment_map seg) in H. rewrite Hm in H.
  change (map_size ∅) with 0 in H. unfold map_size in H.
  assert (NoDup (pair_of_entry <$> es).*1) as Hnd.
  { rewrite <-list_fmap_compose. by apply (StronglySorted_NoDup str_lt). }
  rewrite (zsum_perm _ _ (fmap_Permutation pair_size _ _ (map_to_list_to_map _ Hnd))) in H.
  rewrite <-list_fmap_compose in H. unfold encoded_sum.
  rewrite (list_fmap_ext EncodedSize (pair_size ∘ pair_of_entry) es); [lia|].
  intros i e _. unfold pair_size. cbn. by rewrite entry_of_pair.
Qed.

(** ** Segments and the log *)

Lemma segment_map_app seg1 seg2 key :
  segment_map (seg1 ++ seg2) !! key
  = match segment_map seg2 !! key with Some v => Some v | None => segment_map seg1 !! key end.
Proof.
  unfold segment_map. rewrite foldl_app, !apply_entries_lookup.
  destruct (last (filter _ seg2)); [done|]. by rewrite lookup_empty.
Qed.

Lemma segment_map_nil seg : segment_map seg = ∅ <-> seg = [].
Proof.
  split; [|by intros ->]. intros H. destruct seg as [|e seg] using rev_ind; [done|]. exfalso.
  unfold segment_map in H. rewrite foldl_app in H. cbn [foldl] in H.
  by apply (insert_non_empty _ (we_key e) (entry_value e)) in H.
Qed.

Lemma numbered_unflushed es : forall n lsn,
  numbered n es ->
  unflushed lsn es = drop (Z.to_nat (lsn - n + 1)) es.
Proof.
  induction es as [|e es IH]; intros n lsn Hn; cbn [numbered] in Hn; [by rewrite drop_nil|].
  destruct Hn as [Hs Hn]. unfold unflushed. destruct (decide (lsn < we_seq e)) as [Hl|Hl].
  - rewrite filter_cons_True by done. replace (Z.to_nat (lsn - n + 1)) with 0%nat by lia.
    cbn [drop]. f_equal. fold (unflushed lsn es). rewrite (IH (n + 1) lsn Hn).
    by replace (Z.to_nat (lsn - (n + 1) + 1)) with 0%nat by lia.
  - rewrite filter_cons_False by done. replace (Z.to_nat (lsn - n + 1)) with (S (Z.to_nat (lsn - (n + 1) + 1))) by lia.
    cbn [drop]. fold (unflushed lsn es). by apply IH.
Qed.

Lemma unflushed_segments flushed pending :
  numbered 1 (flushed ++ pending) ->
  unflushed (Z.of_nat (length flushed)) (flushed ++ pending) = pending.
Proof.
  intros Hn. rewrite (numbered_unflushed _ 1) by done.
  replace (Z.to_nat (Z.of_nat (length flushed) - 1 + 1)) with (length flushed) by lia.
  apply drop_app_length.
Qed.

(** ** The state of the engine *)

Definition table_path (cfg : StorageConfig) (seq : Z) : str :=
  sst_dir cfg ++ lit "/level0_" ++ to_string seq ++ lit ".sst".

(** The table of one flushed segment. *)
Record seg_file (w : World) (cfg : StorageConfig) (seq : Z) (m : SSTableMeta) (seg : list WALEntry) : Prop := {
  sf_path : filepath m = table_path cfg seq;
  sf_level : level m = 0;
  sf_seq : sequence_number m = seq;
  sf_ok : meta_ok m;
  sf_table : exists es, holds_table w (filepath m) es /\ lists_map (segment_map seg) es /\
    exists first last', head es = Some first /\ last es = Some last' /\
      smallest_key m = be_key first /\ largest_key m = be_key last'
}.

(** One table per segment, numbered from 1. *)
Definition seg_files (w : World) (cfg : StorageConfig) (metas : list SSTableMeta) (segs : list (list WALEntry)) : Prop :=
  length metas = length segs /\
  forall i m seg, metas !! i = Some m -> segs !! i = Some seg -> seg_file w cfg (1 + Z.of_nat i) m seg.

(** What [LoadCheckpoint] will find. *)
Definition manifest (w : World) (cfg : StorageConfig) (metas : list SSTableMeta) (segs : list (list WALEntry)) : Prop :=
  match files w !! checkpoint_path_ (CheckpointManager_new (data_dir cfg)) with
  | None => segs = []
  | Some c => ParseCheckpoint c = Val (mkCheckpoint (Z.of_nat (length (mjoin segs))) metas)
  end.

(** The engine has flushed [segs] and holds [cur] in its memtable. *)
Record engine_view (cfg : StorageConfig) (w : World) (e : StorageEngine) (segs : list (list WALEntry))
    (cur : list WALEntry) : Prop := {
  ev_config : config_ e = cfg;
  ev_wal : exists wal, wal_ e = Some wal /\ path_ wal = wal_path cfg /\ wal_state w wal (mjoin segs ++ cur);
  ev_mem : exists mt, active_memtable_ e = Some mt /\ mt_repr mt (segment_map cur);
  ev_imm : immutable_memtable_ e = None;
  ev_manager : compaction_manager_ e = mkCM (sst_dir cfg) kNumLevels (files_ (compaction_manager_ e)) 1;
  ev_cpm : checkpoint_manager_ e = CheckpointManager_new (data_dir cfg);
  ev_files : seg_files w cfg (files_ (compaction_manager_ e)) segs;
  ev_manifest : manifest w cfg (files_ (compaction_manager_ e)) segs;
  ev_nonempty : Forall (fun s => s <> []) segs;
  ev_cost : log_cost (mjoin segs ++ cur) < 2 ^ 30;
  ev_readable : Forall readable (mjoin segs ++ cur)
}.

(** Between openings the table counter is one past the last table. *)
Definition engine_inv (cfg : StorageConfig) (w : World) (e : StorageEngine) (segs : list (list WALEntry))
    (cur : list WALEntry) : Prop :=
  engine_view cfg w e segs cur /\ next_sst_sequence_ e = 1 + Z.of_nat (length segs).

(** The engine without its memtables: [segs] are flushed, [rest] is logged
    behind them. *)
Record engine_store (cfg : StorageConfig) (w : World) (e : StorageEngine) (segs : list (list WALEntry))
    (rest : list WALEntry) : Prop := {
  st_config : config_ e = cfg;
  st_wal : exists wal, wal_ e = Some wal /\ path_ wal = wal_path cfg /\ wal_state w wal (mjoin segs ++ rest);
  st_imm : immutable_memtable_ e = None;
  st_manager : compaction_manager_ e = mkCM (sst_dir cfg) kNumLevels (files_ (compaction_manager_ e)) 1;
  st_cpm : checkpoint_manager_ e = CheckpointManager_new (data_dir cfg);
  st_files : seg_files w cfg (files_ (compaction_manager_ e)) segs;
  st_manifest : manifest w cfg (files_ (compaction_manager_ e)) segs;
  st_nonempty : Forall (fun s => s <> []) segs;
  st_cost : log_cost (mjoin segs ++ rest) < 2 ^ 30;
  st_readable : Forall readable (mjoin segs ++ rest);
  st_seq : next_sst_sequence_ e = 1 + Z.of_nat (length segs)
}.

Lemma engine_inv_store cfg w e segs cur :
  engine_inv cfg w e segs cur <->
  engine_store cfg w e segs cur /\ exists mt, active_memtable_ e = Some mt /\ mt_repr mt (segment_map cur).
Proof.
  split.
  - intros [[] Hseq]. split; [by split|done].
  - intros [[] Hmem]. split; [by split|done].
Qed.

(** The store does not depend on the active memtable. *)
Lemma engine_store_memtable cfg w e segs rest mt :
  engine_store cfg w e segs rest -> engine_store cfg w (set_memtables e mt (immutable_memtable_ e)) segs rest.
Proof. intros []. by split. Qed.

(** Paths of moderate length. *)
Definition config_ok (cfg : StorageConfig) : Prop := Z.of_nat (length (sst_dir cfg)) < 2 ^ 31.

(** ** The files of the engine are distinct *)

Lemma suffix_neq (a b : str) x y sa sb :
  a = sa ++ [x] -> b = sb ++ [y] -> x <> y -> a <> b.
Proof. intros -> -> Hxy E. apply app_inj_2 in E as [_ E]; [|done]. by injection E. Qed.

Lemma lit_snoc a s x : lit s = lit a ++ [x] -> forall p, p ++ lit s = (p ++ lit a) ++ [x].
Proof. intros H p. by rewrite H, app_assoc. Qed.

Lemma table_path_last cfg seq : exists p, table_path cfg seq = p ++ [Byte.x74].
Proof.
  unfold table_path. rewrite !app_assoc. eexists. apply (lit_snoc ".ss"%string ".sst"%string Byte.x74). reflexivity.
Qed.

Lemma wal_path_last cfg : exists p, wal_path cfg = p ++ [Byte.x67].
Proof. eexists. apply (lit_snoc "/wal_current.lo"%string "/wal_current.log"%string Byte.x67). reflexivity. Qed.

Lemma checkpoint_path_last dir : exists p, checkpoint_path_ (CheckpointManager_new dir) = p ++ [Byte.x6e; Byte.x74].
Proof.
  exists (dir ++ lit "/MANIFEST.checkpoi"). cbn [checkpoint_path_ CheckpointManager_new].
  by rewrite <-app_assoc.
Qed.

Lemma temp_path_last dir : exists p, temp_path_ (CheckpointManager_new dir) = p ++ [Byte.x70].
Proof. eexists. apply (lit_snoc "/MANIFEST.checkpoint.tm"%string "/MANIFEST.checkpoint.tmp"%string Byte.x70). reflexivity. Qed.

Lemma table_path_last2 cfg seq : exists p, table_path cfg seq = p ++ [Byte.x73; Byte.x74].
Proof.
  exists (sst_dir cfg ++ lit "/level0_" ++ to_string seq ++ lit ".s"). unfold table_path. by rewrite <-!app_assoc.
Qed.

Lemma paths_distinct cfg seq :
  let cp := checkpoint_path_ (CheckpointManager_new (data_dir cfg)) in
  let tmp := temp_path_ (CheckpointManager_new (data_dir cfg)) in
  table_path cfg seq <> wal_path cfg /\ table_path cfg seq <> cp /\ table_path cfg seq <> tmp /\
  wal_path cfg <> cp /\ wal_path cfg <> tmp.
Proof.
  intros cp tmp.
  destruct (table_path_last cfg seq) as [p1 H1]. destruct (wal_path_last cfg) as [p2 H2].
  destruct (checkpoint_path_last (data_dir cfg)) as [p3 H3]. destruct (temp_path_last (data_dir cfg)) as [p4 H4].
  destruct (table_path_last2 cfg seq) as [p5 H5]. fold cp in H3. fold tmp in H4.
  assert (cp = (p3 ++ [Byte.x6e]) ++ [Byte.x74]) as H3' by (by rewrite H3, <-app_assoc).
  split_and!.
  - by apply (suffix_neq _ _ _ _ _ _ H1 H2).
  - rewrite H5, H3. intros E. apply app_inj_2 in E as [_ E]; [done|done].
  - by apply (suffix_neq _ _ _ _ _ _ H1 H4).
  - by apply (suffix_neq _ _ _ _ _ _ H2 H3').
  - by apply (suffix_neq _ _ _ _ _ _ H2 H4).
Qed.

Lemma table_path_inj cfg a b :
  0 <= a < 2 ^ 64 -> 0 <= b < 2 ^ 64 -> table_path cfg a = table_path cfg b -> a = b.
Proof.
  intros Ha Hb H. unfold table_path in H. do 2 apply app_inv_head in H. apply app_inv_tail in H.
  by apply to_string_inj.
Qed.

(** Tables survive changes of other files. *)
Lemma seg_files_frame w w' cfg metas segs :
  seg_files w cfg metas segs ->
  (forall i, (i < length segs)%nat -> files w' !! table_path cfg (1 + Z.of_nat i) = files w !! table_path cfg (1 + Z.of_nat i)) ->
  seg_files w' cfg metas segs.
Proof.
  intros [Hlen Hall] Hsame. split; [done|]. intros i m seg Hm Hs.
  destruct (Hall i m seg Hm Hs) as [H1 H2 H3 H4 (es & (bs & bloom & Hf & Hok & Hj) & Hl & Hr)].
  split; auto. exists es. split; [|done]. exists bs, bloom. split; [|done].
  rewrite H1, Hsame, <-H1; [done|]. by eapply lookup_lt_Some.
Qed.

Lemma manifest_frame w w' cfg metas segs :
  manifest w cfg metas segs ->
  files w' !! checkpoint_path_ (CheckpointManager_new (data_dir cfg))
  = files w !! checkpoint_path_ (CheckpointManager_new (data_dir cfg)) ->
  manifest w' cfg metas segs.
Proof. intros H E. unfold manifest in *. by rewrite E. Qed.

(** A write the log can represent. *)
Definition write_ok (type : WALEntryType) (key : str) (value : bytes) : Prop :=
  (type = kPut \/ (type = kDelete /\ value = [])) /\
  17 + Z.of_nat (length key) + Z.of_nat (length value) <= max_payload.

#[export] Instance write_ok_dec type key value : Decision (write_ok type key value).
Proof. unfold write_ok. apply _. Defined.

Lemma write_ok_readable type key value :
  write_ok type key value -> readable (mkWALEntry 0 type key value).
Proof.
  intros [Ht Hs]. unfold max_payload in Hs. unfold readable, entry_ok, PayloadSize, max_payload.
  cbn [we_seq we_type we_key we_value]. destruct (bool_decide (type = kPut)); split_and!; auto; lia.
Qed.

Section steps.
Context {abi : Abi} {sort : StdSort}.

Lemma apply_entry_stamp m n x : apply_entry m (stamp n x) = apply_entry m x.
Proof. done. Qed.

(** Step 1 of a write. *)
Lemma WriteEntry_log_run w e wal log type key value :
  wal_ e = Some wal -> wal_state w wal log -> write_ok type key value -> Z.of_nat (length log) < 2 ^ 62 ->
  exists wal' w1,
    WriteEntry_log w e type key value
    = Some (StatusOk, set_counters (set_wal e wal') (u64 (wal_writes_ e + 1)) (memtable_flushes_ e) (next_sst_sequence_ e), w1) /\
    path_ wal' = path_ wal /\
    wal_state w1 wal' (log ++ [stamp (1 + Z.of_nat (length log)) (mkWALEntry 0 type key value)]) /\
    (forall p, p <> path_ wal -> files w1 !! p = files w !! p).
Proof.
  intros Hwal Hws Hok Hsize. pose proof (write_ok_readable _ _ _ Hok) as Hrd.
  destruct (wal_state_append w wal log _ Hws Hrd) as (wal' & w' & Happ & Hp' & Hws' & Hother); [lia|].
  exists wal', w'. unfold WriteEntry_log. rewrite Hwal, Happ. done.
Qed.

(** Step 2 of a write. *)
Lemma WriteEntry_apply_run e mt m type key value :
  active_memtable_ e = Some mt -> mt_repr mt m ->
  exists needs mt',
    WriteEntry_apply e type key value = Some (needs, set_memtables e (Some mt') (immutable_memtable_ e)) /\
    mt_repr mt' (apply_entry m (mkWALEntry 0 type key value)).
Proof.
  intros Hmt Hrepr. unfold WriteEntry_apply, apply_entry, entry_value. rewrite Hmt.
  cbn [we_type we_key we_value]. destruct (bool_decide (type = kPut)).
  - destruct (mt_put_repr mt m key value Hrepr) as (mt' & -> & Hrepr'). eauto.
  - destruct (mt_delete_repr mt m key Hrepr) as (mt' & -> & Hrepr'). eauto.
Qed.

(** Steps 1 and 2 of a write. *)
Lemma write_run w e wal mt log m type key value :
  wal_ e = Some wal -> wal_state w wal log -> active_memtable_ e = Some mt -> mt_repr mt m ->
  write_ok type key value -> Z.of_nat (length log) < 2 ^ 62 ->
  let x := mkWALEntry 0 type key value in
  exists e1 w1 needs e2 wal' mt',
    WriteEntry_log w e type key value = Some (StatusOk, e1, w1) /\
    WriteEntry_apply e1 type key value = Some (needs, e2) /\
    path_ wal' = path_ wal /\ wal_state w1 wal' (log ++ [stamp (1 + Z.of_nat (length log)) x]) /\
    (forall p, p <> path_ wal -> files w1 !! p = files w !! p) /\ mt_repr mt' (apply_entry m x) /\
    config_ e2 = config_ e /\ wal_ e2 = Some wal' /\ active_memtable_ e2 = Some mt' /\
    immutable_memtable_ e2 = immutable_memtable_ e /\ compaction_manager_ e2 = compaction_manager_ e /\
    checkpoint_manager_ e2 = checkpoint_manager_ e /\ next_sst_sequence_ e2 = next_sst_sequence_ e.
Proof.
  intros Hwal Hws Hmt Hrepr Hok Hsize x.
  destruct (WriteEntry_log_run w e wal log type key value Hwal Hws Hok Hsize) as (wal' & w1 & Hlog & Hp & Hws' & Hother).
  set (e1 := set_counters _ _ _ _) in Hlog.
  destruct (WriteEntry_apply_run e1 mt m type key value Hmt Hrepr) as (needs & mt' & Happly & Hrepr').
  exists e1, w1, needs. eexists. exists wal', mt'. by split_and!.
Qed.

Lemma segment_map_snoc cur n x : segment_map (cur ++ [stamp n x]) = apply_entry (segment_map cur) x.
Proof. unfold segment_map. rewrite foldl_app. cbn [foldl]. apply apply_entry_stamp. Qed.

Lemma log_cost_snoc es n x : log_cost (es ++ [stamp n x]) = log_cost es + entry_cost x.
Proof.
  rewrite log_cost_app. unfold log_cost at 2, zsum. cbn [fmap list_fmap foldr].
  change (entry_cost (stamp n x)) with (entry_cost x). lia.
Qed.

Lemma write_log_apply cfg w e segs cur type key value :
  engine_view cfg w e segs cur -> write_ok type key value ->
  log_cost (mjoin segs ++ cur) + entry_cost (mkWALEntry 0 type key value) < 2 ^ 30 ->
  exists e1 w1 needs e2,
    WriteEntry_log w e type key value = Some (StatusOk, e1, w1) /\
    WriteEntry_apply e1 type key value = Some (needs, e2) /\
    engine_view cfg w1 e2 segs
      (cur ++ [stamp (1 + Z.of_nat (length (mjoin segs ++ cur))) (mkWALEntry 0 type key value)]) /\
    next_sst_sequence_ e2 = next_sst_sequence_ e.
Proof.
  intros [Hc (wal & Hwal & Hp & Hws) (mt & Hmt & Hrepr) Himm Hlv Hcpm Hfiles Hman Hne Hcost Hread] Hok Hsize.
  pose proof (write_ok_readable _ _ _ Hok) as Hrd. pose proof (log_cost_count (mjoin segs ++ cur)) as Hcount.
  destruct (write_run w e wal mt _ _ type key value Hwal Hws Hmt Hrepr Hok)
    as (e1 & w1 & needs & e2 & wal' & mt' & H1 & H2 & Hp' & Hws' & Hother & Hrepr' & Ec & Ew & Em & Ei & Ecm & Ecp & Es); [lia|].
  exists e1, w1, needs, e2. split; [done|]. split; [done|]. split; [|done].
  destruct (paths_distinct cfg 0) as (_ & _ & _ & Hcp & _).
  split; rewrite ?Ecm; auto; try congruence.
  - exists wal'. split; [done|]. split; [congruence|]. by rewrite app_assoc.
  - exists mt'. by rewrite segment_map_snoc.
  - apply (seg_files_frame w); [done|]. intros i _. apply Hother. rewrite Hp. apply paths_distinct.
  - apply (manifest_frame w); [done|]. apply Hother. rewrite Hp. congruence.
  - rewrite app_assoc, log_cost_snoc. lia.
  - rewrite app_assoc. apply Forall_app_2; [done|]. constructor; [|done]. apply readable_stamp; [done|lia].
Qed.
End steps.

(** ** Flushing *)

Lemma wal_state_frame w w' wal es :
  wal_state w wal es -> healthy w' -> files w' !! path_ wal = files w !! path_ wal -> wal_state w' wal es.
Proof. intros [] Hw E. split; auto. by rewrite E. Qed.

Section flush.
Context {abi : Abi} {sort : StdSort}.

Lemma key_range_table w path first rest :
  table_at w path (first :: rest) ->
  key_range w path = (be_key first, be_key (default first (last (first :: rest))), w).
Proof. intros (rd & Ho & _ & Ha & _). unfold key_range. by rewrite Ho, Ha. Qed.

(** Writing the table of a memtable that holds [cur]. *)
Lemma flush_table w path mt cur :
  healthy w -> mt_repr mt (segment_map cur) -> cur <> [] -> log_cost cur < 2 ^ 30 ->
  exists iter es w', MemTable_entries mt = Some iter /\
    SSTableWriter_Write w path iter = Some (StatusOk, w') /\ healthy w' /\
    holds_table w' path es /\ lists_map (segment_map cur) es /\ es <> [] /\
    (forall p, p <> path -> files w' !! p = files w !! p) /\
    exists size, fs_file_size w' path = Some size /\ 0 <= size < 2 ^ 64.
Proof.
  intros Hw Hrepr Hcur Hcost. destruct (mt_entries_repr mt _ Hrepr) as (iter & Hiter & Hs & Hm).
  pose proof (lists_map_iter _ iter Hs Hm) as Hlm. pose proof (lists_map_size cur _ Hlm) as Hsize.
  assert (iter <> []) as Hne.
  { intros ->. apply Hcur. by apply segment_map_nil. }
  destruct (SSTableWriter_Write_spec w path iter Hw Hne) as (w' & bs & bloom & Hwr & Hw' & Hf & Hok & Hj & Ho);
    [apply Hlm|lia|].
  exists iter, (entry_of_iter <$> iter), w'. split_and!; auto.
  - exists bs, bloom. done.
  - by destruct iter.
  - exists (len (table_bytes bs bloom)). unfold fs_file_size. rewrite Hf.
    pose proof (len_table_bytes bs bloom Hok). unfold len in *. split; [done|lia].
Qed.

(** The metadata of the new table. *)
Definition new_meta (cfg : StorageConfig) (seq size : Z) (es : list BlockEntry) : SSTableMeta :=
  mkMeta (table_path cfg seq) 0 (default [] (be_key <$> head es)) (default [] (be_key <$> last es)) size seq.

Lemma new_meta_seg_file cfg w seq size es cur :
  config_ok cfg -> holds_table w (table_path cfg seq) es -> lists_map (segment_map cur) es -> es <> [] ->
  log_cost cur < 2 ^ 30 -> 0 <= size < 2 ^ 64 -> 0 <= seq < 2 ^ 32 ->
  seg_file w cfg seq (new_meta cfg seq size es) cur.
Proof.
  intros Hcfg Ht Hl Hne Hcost Hsize Hseq. pose proof (lists_map_size cur es Hl) as Hes.
  destruct es as [|first rest] eqn:Ees; [done|]. rewrite <-Ees in *.
  destruct (last es) as [l|] eqn:El; [|apply last_None in El; congruence].
  assert (head es = Some first) as Hh by (by rewrite Ees).
  pose proof (encoded_sum_elem es first ltac:(rewrite Ees; by left)) as Hf1.
  pose proof (encoded_sum_elem es l ltac:(by apply last_Some_elem_of)) as Hf2.
  unfold EncodedSize in Hf1, Hf2. unfold new_meta. rewrite Hh, El. cbn [fmap option_fmap option_map default].
  split; cbn [filepath level sequence_number]; auto.
  - unfold meta_ok. cbn [filepath level sequence_number file_size_bytes smallest_key largest_key].
    pose proof (to_string_length seq ltac:(lia)). unfold table_path, config_ok in *.
    rewrite !length_app. change (length (lit "/level0_")) with 8%nat. change (length (lit ".sst")) with 4%nat.
    unfold id. split_and!; lia.
  - exists es. split; [done|]. split; [done|]. exists first, l. done.
Qed.
End flush.

Lemma seg_files_snoc w cfg metas segs m cur :
  seg_files w cfg metas segs -> seg_file w cfg (1 + Z.of_nat (length segs)) m cur ->
  seg_files w cfg (metas ++ [m]) (segs ++ [cur]).
Proof.
  intros [Hlen Hall] Hm. split; [by rewrite !length_app, Hlen|]. intros i m' seg Hi Hs.
  destruct (decide (i < length segs)%nat) as [Hlt|Hge].
  - rewrite lookup_app_l in Hi by lia. rewrite lookup_app_l in Hs by lia. eauto.
  - rewrite lookup_app_r in Hi by lia. rewrite lookup_app_r in Hs by lia. rewrite Hlen in Hi.
    apply list_lookup_singleton_Some in Hi as [Hi <-]. apply list_lookup_singleton_Some in Hs as [_ <-].
    by replace i with (length segs) by lia.
Qed.

Lemma seg_files_metas_ok w cfg metas segs : seg_files w cfg metas segs -> Forall meta_ok metas.
Proof.
  intros [Hlen Hall]. apply Forall_lookup. intros i m Hm.
  destruct (lookup_lt_is_Some_2 segs i) as [seg Hs]; [apply lookup_lt_Some in Hm; lia|].
  apply (Hall i m seg Hm Hs).
Qed.

Section flush_step.
Context {abi : Abi} {sort : StdSort}.

(** The number of segments is bounded by the log. *)
Lemma store_bounds cfg w e segs rest :
  engine_store cfg w e segs rest ->
  Z.of_nat (length segs) < 2 ^ 27 /\ Z.of_nat (length (mjoin segs ++ rest)) < 2 ^ 27 /\ log_cost rest < 2 ^ 30.
Proof.
  intros Hst. pose proof (st_cost _ _ _ _ _ Hst) as Hcost. pose proof (log_cost_count (mjoin segs ++ rest)) as Hc.
  pose proof (count_nonempty segs (st_nonempty _ _ _ _ _ Hst)). rewrite length_app in *. rewrite log_cost_app in *.
  pose proof (log_cost_count (mjoin segs)). pose proof (log_cost_count rest). split_and!; lia.
Qed.

(** Writing out a memtable: the table is on disk, catalogued and in the
    checkpoint. *)
Lemma Flush_write_run cfg w e mt cur seq lsn :
  healthy w -> config_ e = cfg -> next_sst_sequence_ e = seq -> 0 <= seq < 2 ^ 64 - 1 ->
  max_level_ (compaction_manager_ e) = kNumLevels -> checkpoint_manager_ e = CheckpointManager_new (data_dir cfg) ->
  mt_repr mt (segment_map cur) -> cur <> [] -> log_cost cur < 2 ^ 30 ->
  exists es size e' w',
    Flush_write w e mt lsn = Some (StatusOk, e', w') /\ healthy w' /\
    let meta := new_meta cfg seq size es in
    let metas := files_ (compaction_manager_ e) ++ [meta] in
    holds_table w' (table_path cfg seq) es /\ lists_map (segment_map cur) es /\ es <> [] /\ 0 <= size < 2 ^ 64 /\
    files w' !! checkpoint_path_ (CheckpointManager_new (data_dir cfg)) = Some (SerializeCheckpoint (mkCheckpoint lsn metas)) /\
    (forall p, p <> table_path cfg seq -> p <> checkpoint_path_ (CheckpointManager_new (data_dir cfg)) ->
       p <> temp_path_ (CheckpointManager_new (data_dir cfg)) -> files w' !! p = files w !! p) /\
    config_ e' = cfg /\ wal_ e' = wal_ e /\ active_memtable_ e' = active_memtable_ e /\ immutable_memtable_ e' = None /\
    compaction_manager_ e' = set_files (compaction_manager_ e) metas /\
    checkpoint_manager_ e' = checkpoint_manager_ e /\ next_sst_sequence_ e' = seq + 1.
Proof.
  intros Hw Hc Hseq Hs Hmx Hcpm Hrepr Hcur Hcost.
  destruct (flush_table w (table_path cfg seq) mt cur Hw Hrepr Hcur Hcost)
    as (iter & es & w1 & Hiter & Hwrite & Hw1 & Ht & Hl & Hes & Hother & size & Hsize & Hrange).
  unfold Flush_write, sst_path. cbn [set_memtables set_counters next_sst_sequence_ wal_writes_ memtable_flushes_ config_
    compaction_manager_ checkpoint_manager_ active_memtable_ set_compaction immutable_memtable_ wal_ block_cache_].
  rewrite Hseq, Hc, u64_small by lia. fold (table_path cfg seq).
  rewrite Hiter, Hwrite. change (negb (IsOk StatusOk)) with false. cbn beta iota. rewrite Hsize.
  destruct es as [|first rest] eqn:Ees; [done|].
  rewrite (key_range_table w1 _ first rest) by (by apply holds_table_at). rewrite <-Ees in *.
  assert (mkMeta (table_path cfg seq) 0 (be_key first) (be_key (default first (last es))) size seq
          = new_meta cfg seq size es) as ->.
  { unfold new_meta. destruct (last es) eqn:El; [|apply last_None in El; congruence]. by rewrite Ees. }
  unfold AddFile. cbn [level new_meta]. rewrite Hmx. cbn [Z.ltb Z.leb Z.compare kNumLevels orb].
  cbn [negb IsOk]. change (negb (IsOk StatusOk)) with false. cbn beta iota.
  unfold AllFiles. cbn [compaction_manager_ set_files files_]. rewrite Hcpm.
  set (cp := mkCheckpoint _ _).
  destruct (SaveCheckpoint_healthy w1 (data_dir cfg) cp Hw1) as (w2 & Hsave & Hw2 & Hcpf & Hother2).
  rewrite Hsave. change (negb (IsOk StatusOk)) with false. cbn beta iota.
  destruct (paths_distinct cfg seq) as (_ & D2 & D3 & _).
  exists es, size. do 2 eexists. split; [done|]. split; [done|]. cbn zeta. split_and!; try done; try lia.
  - destruct Ht as (bs & bloom & Hf & Htab). exists bs, bloom. by rewrite Hother2.
  - intros p H1 H2 H3. rewrite Hother2 by done. by apply Hother.
Qed.

(** The segment [cur] is written out while [rest] is logged behind it. *)
Lemma Flush_write_store cfg w e mt segs cur rest :
  config_ok cfg -> engine_store cfg w e segs (cur ++ rest) -> cur <> [] -> mt_repr mt (segment_map cur) ->
  exists e' w',
    Flush_write w e mt (Z.of_nat (length (mjoin segs ++ cur))) = Some (StatusOk, e', w') /\
    engine_store cfg w' e' (segs ++ [cur]) rest /\ active_memtable_ e' = active_memtable_ e.
Proof.
  intros Hcfg Hst Hcur Hrepr. pose proof (store_bounds _ _ _ _ _ Hst) as (Hb1 & Hb2 & Hb3).
  destruct Hst as [Hc (wal & Hwal & Hp & Hws) Himm Hlv Hcpm Hfiles Hman Hne Hcost Hread Hseq].
  rewrite app_assoc, (length_app (mjoin segs ++ cur)) in Hb2. rewrite log_cost_app in Hb3.
  pose proof (log_cost_count rest) as Hrest.
  set (seq := 1 + Z.of_nat (length segs)) in *. set (metas := files_ (compaction_manager_ e)) in *.
  destruct (Flush_write_run cfg w e mt cur seq (Z.of_nat (length (mjoin segs ++ cur))))
    as (es & size & e' & w' & -> & Hw' & Ht & Hl & Hes & Hrange & Hcpf & Hother & Hc' & Hwal' & Hact' & Himm' & Hcm' & Hcpm' & Hseq');
    auto; [apply Hws|unfold seq; lia|by rewrite Hlv|lia|].
  fold metas in Hcpf, Hcm'.
  pose proof (new_meta_seg_file cfg w' seq size es cur Hcfg Ht Hl Hes ltac:(lia) Hrange ltac:(unfold seq; lia)) as Hsf.
  destruct (paths_distinct cfg seq) as (D1 & D2 & D3 & D4 & D5).
  assert (seg_files w' cfg (metas ++ [new_meta cfg seq size es]) (segs ++ [cur])) as Hfiles2.
  { apply seg_files_snoc; [|done]. apply (seg_files_frame w); [done|]. intros i Hi.
    destruct (paths_distinct cfg (1 + Z.of_nat i)) as (_ & P2 & P3 & _). apply Hother; [|done|done].
    intros E. apply table_path_inj in E; unfold seq in *; lia. }
  do 2 eexists. split; [done|]. split; [|done].
  split; rewrite ?Hcm', ?mjoin_snoc, <-?app_assoc; auto; cbn [set_files files_ cm_data_dir_ max_level_ next_file_number_].
  - exists wal. split; [congruence|]. split; [done|]. apply (wal_state_frame w); [done|done|].
    rewrite Hp. apply Hother; auto.
  - unfold set_files. by rewrite Hlv.
  - congruence.
  - unfold manifest. rewrite Hcpf, mjoin_snoc.
    pose proof (ParseCheckpoint_Serialize (mkCheckpoint (Z.of_nat (length (mjoin segs ++ cur))) (metas ++ [new_meta cfg seq size es])) []) as Hparse.
    rewrite app_nil_r in Hparse. apply Hparse. unfold checkpoint_ok. cbn [last_flushed_lsn sstables].
    pose proof (proj1 Hfiles2) as Hlen2. rewrite Hlen2, !length_app. rewrite length_app in Hb2. cbn [length].
    split_and!; [lia|lia|lia|]. by apply (seg_files_metas_ok w' cfg _ (segs ++ [cur])).
  - apply Forall_app_2; [done|]. by constructor.
  - rewrite Hseq', length_app. unfold seq. cbn. lia.
Qed.

(** The swap that precedes it. *)
Lemma Flush_swap_run e mt m :
  active_memtable_ e = Some mt -> mt_repr mt m ->
  Flush_swap e
  = Some (if bool_decide (m = ∅) then (None, e) else (Some mt, set_memtables e (Some MemTable_new) None)).
Proof.
  intros Hmt Hrepr. unfold Flush_swap. rewrite Hmt, (mt_is_empty_repr _ _ Hrepr). by case_bool_decide.
Qed.

Lemma Flush_lsn_store cfg w e segs rest :
  engine_store cfg w e segs rest -> Flush_lsn e = Some (Z.of_nat (length (mjoin segs ++ rest))).
Proof.
  intros Hst. pose proof (store_bounds _ _ _ _ _ Hst) as (_ & Hb & _).
  destruct (st_wal _ _ _ _ _ Hst) as (wal & Hwal & _ & Hws). unfold Flush_lsn. rewrite Hwal.
  unfold current_sequence_number. rewrite (ws_next _ _ _ Hws), u64_small by lia. f_equal. lia.
Qed.

Lemma FlushMemTable_spec cfg w e segs cur :
  config_ok cfg -> engine_inv cfg w e segs cur ->
  exists e' w' segs', FlushMemTable w e = Some (StatusOk, e', w') /\ engine_inv cfg w' e' segs' [] /\
    mjoin segs' = mjoin segs ++ cur.
Proof.
  intros Hcfg Hinv. pose proof Hinv as [Hst (mt & Hmt & Hrepr)]%engine_inv_store.
  unfold FlushMemTable. rewrite (Flush_swap_run e mt _ Hmt Hrepr).
  destruct (decide (cur = [])) as [->|Hcur].
  - rewrite bool_decide_true by (by apply segment_map_nil). do 3 eexists. split; [done|]. split; [done|].
    by rewrite app_nil_r.
  - rewrite bool_decide_false by (by rewrite segment_map_nil).
    set (e1 := set_memtables e (Some MemTable_new) None).
    assert (engine_store cfg w e1 segs (cur ++ [])) as Hst1.
    { rewrite app_nil_r. unfold e1. rewrite <-(st_imm _ _ _ _ _ Hst). by apply engine_store_memtable. }
    rewrite (Flush_lsn_store cfg w e1 segs (cur ++ []) Hst1), app_nil_r.
    destruct (Flush_write_store cfg w e1 mt segs cur [] Hcfg Hst1 Hcur Hrepr) as (e' & w' & -> & Hst' & Hact).
    exists e', w', (segs ++ [cur]). split; [done|]. rewrite mjoin_snoc. split; [|done].
    apply engine_inv_store. split; [done|]. exists MemTable_new. split; [done|]. apply mt_new_repr.
Qed.
End flush_step.

(** ** Opening *)

Lemma add_files_ok metas : forall cm,
  (forall m, m ∈ metas -> 0 <= level m < max_level_ cm) ->
  add_files cm metas = (StatusOk, set_files cm (files_ cm ++ metas)).
Proof.
  induction metas as [|m metas IH]; intros cm Hl; cbn [add_files].
  - rewrite app_nil_r. by destruct cm.
  - pose proof (Hl m ltac:(by left)) as Hm. unfold AddFile.
    rewrite (proj2 (Z.ltb_ge _ _)), (proj2 (Z.leb_gt _ _)) by lia. cbn [orb].
    change (negb (IsOk StatusOk)) with false. cbn beta iota.
    rewrite IH; [|intros m' Hm'; apply Hl; by right]. unfold set_files. cbn. by rewrite <-app_assoc.
Qed.

Lemma seg_files_level0 w cfg metas segs m : seg_files w cfg metas segs -> m ∈ metas -> level m = 0.
Proof.
  intros [Hlen Hall] Hm. apply list_elem_of_lookup in Hm as [i Hi].
  destruct (lookup_lt_is_Some_2 segs i) as [seg Hs]; [apply lookup_lt_Some in Hi; lia|].
  apply (Hall i m seg Hi Hs).
Qed.

Section opening.
Context {abi : Abi} {sort : StdSort}.

(** What [LoadCheckpoint] returns. *)
Definition loaded (w : World) (cfg : StorageConfig) : ErrorOr Checkpoint :=
  match files w !! checkpoint_path_ (CheckpointManager_new (data_dir cfg)) with
  | None => Val (mkCheckpoint 0 [])
  | Some c => ParseCheckpoint c
  end.

(** Recovery from a log, possibly with a torn record at its end, and a
    checkpoint that covers the entries [flushed]. *)
Lemma Recover_torn cfg w flushed pending tail metas :
  healthy w -> files w !! wal_path cfg = Some (log_bytes (flushed ++ pending) ++ tail) ->
  parse_log tail = [] -> (forall seq, scan_from tail seq = seq) ->
  Forall readable (flushed ++ pending) -> numbered 1 (flushed ++ pending) ->
  Z.of_nat (length (flushed ++ pending)) < 2 ^ 63 ->
  loaded w cfg = Val (mkCheckpoint (Z.of_nat (length flushed)) metas) ->
  (forall m, m ∈ metas -> 0 <= level m < kNumLevels) ->
  exists e mt, Recover w (StorageEngine_new cfg) = Some (StatusOk, e, w) /\
    config_ e = cfg /\
    wal_ e = Some (mkWAL (wal_path cfg) (mkOfs (wal_path cfg) true []) (1 + Z.of_nat (length (flushed ++ pending)))) /\
    active_memtable_ e = Some mt /\ mt_repr mt (segment_map pending) /\ immutable_memtable_ e = None /\
    compaction_manager_ e = mkCM (sst_dir cfg) kNumLevels metas 1 /\
    checkpoint_manager_ e = CheckpointManager_new (data_dir cfg) /\ next_sst_sequence_ e = 1.
Proof.
  intros Hw Hf Htail Hscan Hr Hn Hcount Hload Hlev. unfold Recover. cbn [StorageEngine_new checkpoint_manager_].
  rewrite LoadCheckpoint_healthy by done. fold (loaded w cfg). rewrite Hload.
  cbn [sstables last_flushed_lsn compaction_manager_]. rewrite add_files_ok by done.
  change (negb (IsOk StatusOk)) with false. cbn beta iota.
  cbn [set_compaction set_memtables config_ StorageEngine_new].
  rewrite (WAL_Open_existing w (wal_path cfg) _ tail) by (done || lia). rewrite (append_nothing _ _ _ Hf).
  cbn [set_wal config_]. rewrite (RecoverMemTable_replay _ _ _ _ _ Hw Hf), parse_log_app, Htail, app_nil_r by done.
  destruct (replay_known (flushed ++ pending) MemTable_new ∅ (Z.of_nat (length flushed)) mt_new_repr
              (readable_known _ Hr)) as (mt & -> & Hmt).
  rewrite unflushed_segments in Hmt by done. do 2 eexists. split; [done|]. by split_and!.
Qed.

Lemma Recover_loaded cfg w flushed pending metas :
  healthy w -> files w !! wal_path cfg = Some (log_bytes (flushed ++ pending)) ->
  Forall readable (flushed ++ pending) -> numbered 1 (flushed ++ pending) ->
  Z.of_nat (length (flushed ++ pending)) < 2 ^ 63 ->
  loaded w cfg = Val (mkCheckpoint (Z.of_nat (length flushed)) metas) ->
  (forall m, m ∈ metas -> 0 <= level m < kNumLevels) ->
  exists e wal mt, Recover w (StorageEngine_new cfg) = Some (StatusOk, e, w) /\
    config_ e = cfg /\ wal_ e = Some wal /\ path_ wal = wal_path cfg /\ wal_state w wal (flushed ++ pending) /\
    active_memtable_ e = Some mt /\ mt_repr mt (segment_map pending) /\ immutable_memtable_ e = None /\
    compaction_manager_ e = mkCM (sst_dir cfg) kNumLevels metas 1 /\
    checkpoint_manager_ e = CheckpointManager_new (data_dir cfg) /\ next_sst_sequence_ e = 1.
Proof.
  intros Hw Hf Hr Hn Hcount Hload Hlev.
  destruct (Recover_torn cfg w flushed pending [] metas) as (e & mt & Hrec & Hc & Hwal & Hrest); try done.
  { by rewrite app_nil_r. }
  exists e. eexists. exists mt. split; [done|]. split; [done|]. split; [exact Hwal|]. split; [done|].
  split; [|done]. split; try done. cbn [next_sequence_number_]. lia.
Qed.

Lemma manifest_loaded w cfg metas segs :
  seg_files w cfg metas segs -> manifest w cfg metas segs ->
  loaded w cfg = Val (mkCheckpoint (Z.of_nat (length (mjoin segs))) metas).
Proof.
  intros [Hlen _] Hman. unfold loaded. unfold manifest in Hman.
  destruct (files w !! checkpoint_path_ (CheckpointManager_new (data_dir cfg))); [done|]. subst segs. by destruct metas.
Qed.

(** Recovery from the files of an engine that had flushed [segs] and logged
    [cur] behind them. *)
Lemma Recover_spec cfg w segs cur metas :
  healthy w -> files w !! wal_path cfg = Some (log_bytes (mjoin segs ++ cur)) ->
  Forall readable (mjoin segs ++ cur) -> numbered 1 (mjoin segs ++ cur) ->
  log_cost (mjoin segs ++ cur) < 2 ^ 30 -> Forall (fun s => s <> []) segs ->
  seg_files w cfg metas segs -> manifest w cfg metas segs ->
  exists e, Recover w (StorageEngine_new cfg) = Some (StatusOk, e, w) /\ engine_view cfg w e segs cur /\
    files_ (compaction_manager_ e) = metas /\ next_sst_sequence_ e = 1.
Proof.
  intros Hw Hf Hr Hn Hcost Hne Hfiles Hman. pose proof (log_cost_count (mjoin segs ++ cur)).
  destruct (Recover_loaded cfg w (mjoin segs) cur metas Hw Hf Hr Hn)
    as (e & wal & mt & Hrec & Hc & Hwal & Hp & Hws & Hmt & Hrepr & Himm & Hcm & Hcp & Hseq); [lia| | |].
  - by apply manifest_loaded.
  - intros m Hm. by rewrite (seg_files_level0 w cfg metas segs m).
  - exists e. split; [done|]. rewrite Hcm. split; [|done]. split; rewrite ?Hcm; eauto.
Qed.

Lemma engine_reopen cfg w e segs cur :
  engine_view cfg w e segs cur ->
  exists e', StorageEngine_Open w cfg = Some (Val e', w) /\ engine_view cfg w e' segs cur /\
    files_ (compaction_manager_ e') = files_ (compaction_manager_ e).
Proof.
  intros [_ (wal & _ & Hp & Hws) _ _ _ _ Hfiles Hman Hne Hcost Hread].
  destruct (Recover_spec cfg w segs cur (files_ (compaction_manager_ e))) as (e' & Hrec & Hv & Hm & _); auto.
  - apply Hws.
  - rewrite <-Hp. apply Hws.
  - apply Hws.
  - exists e'. unfold StorageEngine_Open. rewrite Hrec. done.
Qed.

(** Opening on an empty file system. *)
Lemma engine_open_fresh cfg w :
  healthy w -> files w !! wal_path cfg = None ->
  files w !! checkpoint_path_ (CheckpointManager_new (data_dir cfg)) = None ->
  exists e w', StorageEngine_Open w cfg = Some (Val e, w') /\ engine_inv cfg w' e [] [].
Proof.
  intros Hw Hf Hcp. set (w1 := append_file w (wal_path cfg) []).
  assert (files w1 !! wal_path cfg = Some []) as Hf1 by (unfold w1; by rewrite append_file_lookup, Hf).
  destruct (paths_distinct cfg 0) as (_ & _ & _ & D4 & _).
  assert (files w1 !! checkpoint_path_ (CheckpointManager_new (data_dir cfg)) = None) as Hcp1
    by (unfold w1; by rewrite append_file_other).
  destruct (Recover_spec cfg w1 [] [] []) as (e & Hrec & Hv & _ & Hseq); try done; try (by constructor).
  { unfold manifest. by rewrite Hcp1. }
  exists e, w1. split; [|done]. unfold StorageEngine_Open.
  assert (Recover w (StorageEngine_new cfg) = Recover w1 (StorageEngine_new cfg)) as ->; [|by rewrite Hrec].
  unfold Recover. cbn [StorageEngine_new checkpoint_manager_].
  rewrite !LoadCheckpoint_healthy, Hcp, Hcp1 by done. cbn [sstables add_files compaction_manager_].
  change (negb (IsOk StatusOk)) with false. cbn beta iota. cbn [set_compaction set_memtables config_ StorageEngine_new].
  rewrite WAL_Open_missing by done. fold w1.
  destruct (WAL_Open_same w1 (wal_path cfg) [] Hw Hf1) as (wal & Ho & Hp & _).
  rewrite Ho. assert (wal = mkWAL (wal_path cfg) (mkOfs (wal_path cfg) true []) 1) as ->; [|done].
  destruct (wal_state_reopen w1 (wal_path cfg) [] Hw Hf1) as (wal' & w' & Ho' & Hp' & Hws'); [constructor|done|done|].
  rewrite Ho in Ho'. injection Ho' as <- <-. destruct Hws' as [_ Hst _ _ _ Hnx _].
  destruct wal as [p f nx]. cbn in *. subst. done.
Qed.
End opening.

(** ** Reading *)

(** The newest table that has the key decides. *)
Fixpoint table_get (segs : list (list WALEntry)) (key : str) : option bytes :=
  match segs with
  | [] => None
  | seg :: segs =>
      match segment_map seg !! key with Some v => visible v | None => table_get segs key end
  end.

Lemma table_get_app segs1 segs2 key :
  table_get (segs1 ++ segs2) key
  = match segment_map (mjoin (reverse segs1)) !! key with Some v => visible v | None => table_get segs2 key end.
Proof.
  induction segs1 as [|seg segs1 IH]; cbn [app table_get]; [done|].
  rewrite reverse_cons, mjoin_snoc, segment_map_app.
  destruct (segment_map seg !! key); [done|]. apply IH.
Qed.

Lemma table_get_log segs key : table_get (reverse segs) key = segment_map (mjoin segs) !! key ≫= visible.
Proof.
  rewrite <-(app_nil_r (reverse segs)), table_get_app, reverse_involutive.
  by destruct (segment_map (mjoin segs) !! key).
Qed.

(** What a client reads: a tombstone in the memtable does not count. *)
Definition view_get (segs : list (list WALEntry)) (cur : list WALEntry) (key : str) : option bytes :=
  match segment_map cur !! key ≫= visible with
  | Some v => Some v
  | None => segment_map (mjoin segs) !! key ≫= visible
  end.

Lemma newer_first_weak : strict_weak newer_first.
Proof.
  assert (forall a b, newer_first a b = true <->
    level a < level b \/ (level a = level b /\ sequence_number b < sequence_number a)) as Hspec.
  { intros a b. unfold newer_first. destruct (Z.eqb_spec (level a) (level b)); cbn [negb];
      rewrite Z.ltb_lt; lia. }
  assert (forall a b, newer_first a b = false <->
    ~ (level a < level b \/ (level a = level b /\ sequence_number b < sequence_number a))) as Hspec'.
  { intros a b. rewrite <-Hspec. by destruct (newer_first a b). }
  split.
  - intros x. apply Hspec'. lia.
  - intros x y z. rewrite !Hspec. lia.
  - intros x y z. rewrite !Hspec'. lia.
Qed.

Lemma sorted_reverse {sort : StdSort} w cfg metas segs :
  seg_files w cfg metas segs -> std_sort newer_first metas = reverse metas.
Proof.
  intros Hfiles. pose proof Hfiles as [Hlen Hall].
  assert (forall i m, metas !! i = Some m -> sequence_number m = 1 + Z.of_nat i /\ level m = 0) as Hseq.
  { intros i m Hm. destruct (lookup_lt_is_Some_2 segs i) as [seg Hs]; [apply lookup_lt_Some in Hm; lia|].
    destruct (Hall i m seg Hm Hs). done. }
  apply (StronglySorted_unique_strong (fun x y => newer_first y x = false)).
  - intros x y Hx Hy H1 H2. rewrite std_sort_perm in Hx. rewrite elem_of_reverse in Hy.
    apply list_elem_of_lookup in Hx as [i Hi]. apply list_elem_of_lookup in Hy as [j Hj].
    destruct (Hseq i x Hi) as [Hx Hlx]. destruct (Hseq j y Hj) as [Hy Hly].
    unfold newer_first in H1, H2. rewrite Hlx, Hly in H1, H2. cbn [Z.eqb negb] in H1, H2.
    apply Z.ltb_ge in H1, H2. assert (i = j) as -> by lia. congruence.
  - apply std_sort_sorted, newer_first_weak.
  - clear Hlen Hfiles. assert (forall k, (k <= length metas)%nat ->
      StronglySorted (fun x y => newer_first y x = false) (reverse (take k metas))) as Hk.
    2: { rewrite <-(take_ge metas (length metas)) by done. by apply Hk. }
    induction k as [|k IH]; intros Hk; [constructor|].
    destruct (lookup_lt_is_Some_2 metas k) as [m Hm]; [lia|].
    rewrite (take_S_r _ _ _ Hm), reverse_app. cbn [reverse rev_append app].
    constructor; [apply IH; lia|]. apply Forall_forall. intros x Hx. rewrite elem_of_reverse in Hx.
    apply list_elem_of_lookup in Hx as [i Hi]. apply lookup_take_Some in Hi as [Hi Hik].
    destruct (Hseq i x Hi) as [Hx Hlx]. destruct (Hseq k m Hm) as [Hy Hly].
    unfold newer_first. rewrite Hlx, Hly. cbn [Z.eqb negb]. apply Z.ltb_ge. lia.
  - rewrite std_sort_perm. by rewrite reverse_Permutation.
Qed.

(** A key outside the recorded range of a table is not in it. *)
Lemma out_of_range es key first last' :
  sorted_entries es -> head es = Some first -> last es = Some last' ->
  str_ltb key (be_key first) || str_ltb (be_key last') key = true -> find_key es key = None.
Proof.
  intros Hs Hh Hlast Erange. apply find_key_None. intros e He <-.
  assert (be_key first = be_key e \/ str_lt (be_key first) (be_key e)) as Hfirst.
  { destruct es as [|e0 es0]; [done|]. injection Hh as ->. apply elem_of_cons in He as [->|He]; [by left|].
    unfold sorted_entries in Hs. rewrite fmap_cons in Hs. apply StronglySorted_inv in Hs as [_ Hx].
    right. rewrite Forall_forall in Hx. apply Hx. by apply list_elem_of_fmap_2. }
  pose proof (le_LastKey es e Hs He) as Hle. rewrite (LastKey_last es last' Hlast) in Hle.
  apply orb_true_iff in Erange as [E|E]; str_cases.
  - destruct Hfirst as [Hf|Hf]; [rewrite Hf in E; by apply str_lt_irrefl in E|by apply (str_lt_asym _ _ E)].
  - destruct Hle as [Hf|Hf]; [rewrite Hf in E; by apply str_lt_irrefl in E|by apply (str_lt_asym _ _ E)].
Qed.

(** What the search makes of a table with known contents and range. *)
Lemma search_tables_cons w m metas key es first last' :
  healthy w -> holds_table w (filepath m) es -> sorted_entries es ->
  head es = Some first -> last es = Some last' ->
  smallest_key m = be_key first -> largest_key m = be_key last' ->
  search_tables w (m :: metas) key
  = match find_key es key with
    | Some entry => Some (Val (if be_is_tombstone entry then None else Some (be_value entry)), w)
    | None => search_tables w metas key
    end.
Proof.
  intros Hw Ht Hs Hh Hlast Es El. cbn [search_tables]. rewrite Es, El.
  destruct (str_ltb key (be_key first) || str_ltb (be_key last') key) eqn:Erange.
  - by rewrite (out_of_range es key first last').
  - destruct (holds_table_at w _ es Hw Ht) as (rd & -> & _ & _ & ->).
    destruct (find_key es key) as [entry|]; [|done]. by destruct (be_is_tombstone entry).
Qed.

Lemma search_tables_spec w cfg key metas : forall segs,
  healthy w -> Forall2 (fun m seg => exists seq, seg_file w cfg seq m seg) metas segs ->
  search_tables w metas key = Some (Val (table_get segs key), w).
Proof.
  induction metas as [|m metas IH]; intros segs Hw Hall.
  - by apply Forall2_nil_inv_l in Hall as ->.
  - apply Forall2_cons_inv_l in Hall as (seg & segs' & (seq & Hsf) & Hall & ->). cbn [table_get].
    destruct Hsf as [_ _ _ _ (es & Ht & Hl & first & last' & Hh & Hlast & Es & El)].
    pose proof (lists_map_find _ es key Hl) as Hfind.
    rewrite (search_tables_cons w m metas key es first last' Hw Ht (proj1 Hl) Hh Hlast Es El), Hfind.
    destruct (segment_map seg !! key) as [v|]; cbn [fmap option_fmap option_map entry_for be_is_tombstone be_value];
      [|by apply IH].
    unfold visible. by destruct (is_tombstone v).
Qed.

Section reading.
Context {abi : Abi} {sort : StdSort}.

Lemma Get_current cfg w e segs cur mt m key :
  healthy w -> seg_files w cfg (files_ (compaction_manager_ e)) segs -> immutable_memtable_ e = None ->
  active_memtable_ e = Some mt -> mt_repr mt m -> m !! key = segment_map cur !! key ->
  StorageEngine_Get w e key = Some (Val (view_get segs cur key), w).
Proof.
  intros Hw Hfiles Himm Hmt Hrepr Hm.
  unfold StorageEngine_Get, view_get. rewrite Hmt, (mt_get_repr _ _ key Hrepr), Himm, Hm.
  destruct (segment_map cur !! key ≫= visible); [done|]. unfold GetFromSSTables, AllFiles.
  rewrite (sorted_reverse w cfg _ segs Hfiles).
  rewrite (search_tables_spec w cfg key _ (reverse segs)), table_get_log; [done|done|].
  apply Forall2_reverse. destruct Hfiles as [Hlen Hall]. apply Forall2_same_length_lookup_2; [done|].
  intros i f seg Hf Hs. exists (1 + Z.of_nat i). by apply Hall.
Qed.

Lemma Get_view cfg w e segs cur key :
  engine_view cfg w e segs cur -> StorageEngine_Get w e key = Some (Val (view_get segs cur key), w).
Proof.
  intros [_ (wal & _ & _ & Hws) (mt & Hmt & Hrepr) Himm _ _ Hfiles _ _ _ _].
  by apply (Get_current cfg w e segs cur mt (segment_map cur) key (ws_healthy _ _ _ Hws)).
Qed.
End reading.

(** ** Sequences of operations *)

Inductive engine_op : Set :=
  | OpPut (key : str) (value : bytes)
  | OpDelete (key : str)
  | OpFlush.

(** The log entry of an operation, before it is numbered. *)
Definition op_log (op : engine_op) : list WALEntry :=
  match op with
  | OpPut key value => [mkWALEntry 0 kPut key value]
  | OpDelete key => [mkWALEntry 0 kDelete key []]
  | OpFlush => []
  end.

Definition ops_log (ops : list engine_op) : list WALEntry := mjoin (op_log <$> ops).

Definition op_ok (op : engine_op) : Prop :=
  match op with
  | OpPut key value => write_ok kPut key value
  | OpDelete key => write_ok kDelete key []
  | OpFlush => True
  end.

#[export] Instance op_ok_dec op : Decision (op_ok op).
Proof. destruct op; cbn [op_ok]; apply _. Defined.

(** An entry without its number. *)
Definition strip (e : WALEntry) : WALEntry := stamp 0 e.

Lemma segment_map_strip seg : segment_map (strip <$> seg) = segment_map seg.
Proof.
  unfold segment_map. generalize (∅ : gmap str SkipListValue) as m.
  induction seg as [|e seg IH]; intros m; [done|]. rewrite fmap_cons. cbn [foldl]. by rewrite IH.
Qed.

Lemma log_cost_strip es : log_cost (strip <$> es) = log_cost es.
Proof. unfold log_cost. by rewrite <-list_fmap_compose. Qed.

Section run.
Context {abi : Abi} {sort : StdSort}.

Definition engine_step (w : World) (e : StorageEngine) (op : engine_op) : option (Status * StorageEngine * World) :=
  match op with
  | OpPut key value => StorageEngine_Put w e key value
  | OpDelete key => StorageEngine_Delete w e key
  | OpFlush => FlushMemTable w e
  end.

(** The statuses returned, in order, and the final state. *)
Fixpoint engine_run (w : World) (e : StorageEngine) (ops : list engine_op) :
    option (list Status * StorageEngine * World) :=
  match ops with
  | [] => Some ([], e, w)
  | op :: ops =>
      match engine_step w e op with
      | None => None
      | Some (s, e, w) =>
          match engine_run w e ops with
          | None => None
          | Some (ss, e, w) => Some (s :: ss, e, w)
          end
      end
  end.

Lemma WriteEntry_spec cfg w e segs cur type key value :
  config_ok cfg -> engine_inv cfg w e segs cur -> write_ok type key value ->
  log_cost (mjoin segs ++ cur) + entry_cost (mkWALEntry 0 type key value) < 2 ^ 30 ->
  exists e' w' segs' cur', WriteEntry w e type key value = Some (StatusOk, e', w') /\
    engine_inv cfg w' e' segs' cur' /\
    strip <$> (mjoin segs' ++ cur') = (strip <$> (mjoin segs ++ cur)) ++ [mkWALEntry 0 type key value].
Proof.
  intros Hcfg [Hv Hseq] Hok Hcost.
  destruct (write_log_apply cfg w e segs cur type key value Hv Hok Hcost)
    as (e1 & w1 & needs & e2 & Hlog & Happly & Hv2 & Hseq2).
  unfold WriteEntry. rewrite Hlog. change (negb (IsOk StatusOk)) with false. cbn beta iota. rewrite Happly.
  set (x := stamp _ _) in Hv2.
  assert (strip <$> (mjoin segs ++ cur ++ [x]) = (strip <$> (mjoin segs ++ cur)) ++ [mkWALEntry 0 type key value]) as Hx
    by (by rewrite app_assoc, fmap_app).
  destruct needs.
  - destruct (FlushMemTable_spec cfg w1 e2 segs (cur ++ [x]) Hcfg) as (e' & w' & segs' & -> & Hinv' & Hj);
      [by split; [|rewrite Hseq2]|].
    exists e', w', segs', []. rewrite app_nil_r, Hj. done.
  - exists e2, w1, segs, (cur ++ [x]). split; [done|]. split; [by split; [|rewrite Hseq2]|]. done.
Qed.

Lemma engine_step_spec cfg w e segs cur op :
  config_ok cfg -> engine_inv cfg w e segs cur -> op_ok op ->
  log_cost (mjoin segs ++ cur) + log_cost (op_log op) < 2 ^ 30 ->
  exists e' w' segs' cur', engine_step w e op = Some (StatusOk, e', w') /\ engine_inv cfg w' e' segs' cur' /\
    strip <$> (mjoin segs' ++ cur') = (strip <$> (mjoin segs ++ cur)) ++ op_log op.
Proof.
  intros Hcfg Hinv Hok Hcost. destruct op as [key value|key|]; cbn [op_log engine_step] in *.
  - apply WriteEntry_spec; [done|done|done|]. rewrite log_cost_cons in Hcost. change (log_cost []) with 0 in Hcost. lia.
  - apply WriteEntry_spec; [done|done|done|]. rewrite log_cost_cons in Hcost. change (log_cost []) with 0 in Hcost. lia.
  - destruct (FlushMemTable_spec cfg w e segs cur Hcfg Hinv) as (e' & w' & segs' & -> & Hinv' & Hj).
    exists e', w', segs', []. by rewrite !app_nil_r, Hj.
Qed.

Lemma engine_run_spec cfg ops : forall w e segs cur,
  config_ok cfg -> engine_inv cfg w e segs cur -> Forall op_ok ops ->
  log_cost (mjoin segs ++ cur) + log_cost (ops_log ops) < 2 ^ 30 ->
  exists ss e' w' segs' cur', engine_run w e ops = Some (ss, e', w') /\ Forall (fun s => s = StatusOk) ss /\
    engine_inv cfg w' e' segs' cur' /\
    strip <$> (mjoin segs' ++ cur') = (strip <$> (mjoin segs ++ cur)) ++ ops_log ops.
Proof.
  induction ops as [|op ops IH]; intros w e segs cur Hcfg Hinv Hok Hcost; cbn [engine_run].
  - exists [], e, w, segs, cur. change (ops_log []) with (@nil WALEntry). rewrite app_nil_r. by split_and!.
  - apply Forall_cons in Hok as [Hop Hok]. unfold ops_log in Hcost |- *. rewrite fmap_cons, mjoin_cons in *.
    fold (ops_log ops) in *. rewrite (log_cost_app (op_log op)) in Hcost. pose proof (log_cost_count (ops_log ops)).
    destruct (engine_step_spec cfg w e segs cur op Hcfg Hinv Hop) as (e1 & w1 & segs1 & cur1 & -> & Hinv1 & Hl1); [lia|].
    destruct (IH w1 e1 segs1 cur1 Hcfg Hinv1 Hok) as (ss & e2 & w2 & segs2 & cur2 & -> & Hss & Hinv2 & Hl2).
    { rewrite <-(log_cost_strip (mjoin segs1 ++ cur1)), Hl1, log_cost_app, log_cost_strip. lia. }
    exists (StatusOk :: ss), e2, w2, segs2, cur2. split_and!; try done; [by constructor|].
    rewrite Hl2, Hl1. by rewrite <-app_assoc.
Qed.
End run.

(** Opening on an empty file system and running [ops]. *)
Definition run_fresh {abi : Abi} {sort : StdSort} (cfg : StorageConfig) (ops : list engine_op) :
    option (list Status * StorageEngine * World) :=
  match StorageEngine_Open (mkWorld ∅ []) cfg with
  | Some (Val e, w) => engine_run w e ops
  | _ => None
  end.

Lemma run_fresh_spec {abi : Abi} {sort : StdSort} cfg ops :
  config_ok cfg -> Forall op_ok ops -> log_cost (ops_log ops) < 2 ^ 30 ->
  exists ss e w segs cur, run_fresh cfg ops = Some (ss, e, w) /\ Forall (fun s => s = StatusOk) ss /\
    engine_inv cfg w e segs cur /\ (strip <$> mjoin segs) ++ (strip <$> cur) = ops_log ops.
Proof.
  intros Hcfg Hok Hcost. destruct (engine_open_fresh cfg (mkWorld ∅ [])) as (e0 & w0 & Ho & Hinv); [done|done|done|].
  unfold run_fresh. rewrite Ho.
  destruct (engine_run_spec cfg ops w0 e0 [] [] Hcfg Hinv Hok) as (ss & e & w & segs & cur & -> & Hss & Hinv' & Hl).
  { exact Hcost. }
  exists ss, e, w, segs, cur. split_and!; try done. by rewrite <-fmap_app.
Qed.

Lemma engine_run_app {abi : Abi} {sort : StdSort} ops1 ops2 : forall w e,
  engine_run w e (ops1 ++ ops2)
  = match engine_run w e ops1 with
    | None => None
    | Some (ss1, e, w) =>
        match engine_run w e ops2 with
        | None => None
        | Some (ss2, e, w) => Some (ss1 ++ ss2, e, w)
        end
    end.
Proof.
  induction ops1 as [|op ops1 IH]; intros w e; cbn [app engine_run].
  - by destruct (engine_run w e ops2) as [[[ss e'] w']|].
  - destruct (engine_step w e op) as [[[s e1] w1]|]; [|done]. rewrite IH.
    destruct (engine_run w1 e1 ops1) as [[[ss1 e2] w2]|]; [|done].
    by destruct (engine_run w2 e2 ops2) as [[[ss2 e3] w3]|].
Qed.

(** A sequence that ends with a flush leaves nothing pending. *)
Lemma run_fresh_flush_spec {abi : Abi} {sort : StdSort} cfg ops :
  config_ok cfg -> Forall op_ok ops -> log_cost (ops_log ops) < 2 ^ 30 ->
  exists ss e w segs, run_fresh cfg (ops ++ [OpFlush]) = Some (ss, e, w) /\
    engine_inv cfg w e segs [] /\ strip <$> mjoin segs = ops_log ops.
Proof.
  intros Hcfg Hops Hcost.
  destruct (run_fresh_spec cfg ops Hcfg Hops Hcost) as (ss & e & w & segs & cur & Hrun & _ & Hinv & Hlog).
  destruct (FlushMemTable_spec cfg w e segs cur Hcfg Hinv) as (e' & w' & segs' & Hflush & Hinv' & Hj).
  unfold run_fresh in *. destruct (StorageEngine_Open _ _) as [[[e0|s0] w0]|]; try done.
  rewrite engine_run_app, Hrun. cbn [engine_run engine_step]. rewrite Hflush. do 4 eexists. split; [done|].
  split; [done|]. by rewrite Hj, fmap_app.
Qed.

(** The last write to a key decides its value. *)
Lemma segment_map_last pre e post :
  (forall x, x ∈ post -> we_key x <> we_key e) ->
  segment_map (pre ++ e :: post) !! we_key e = Some (entry_value e).
Proof.
  intros Hno. unfold segment_map. rewrite apply_entries_lookup, filter_app.
  rewrite (filter_cons_True _ e post) by done.
  rewrite (filter_none (fun x => we_key x = we_key e) post) by done. by rewrite last_snoc.
Qed.

Definition visible_at (log : list WALEntry) (key : str) : option bytes := segment_map log !! key ≫= visible.

Lemma view_get_split segs cur log key :
  (strip <$> mjoin segs) ++ (strip <$> cur) = log ->
  view_get segs cur key
  = match segment_map cur !! key with
    | Some v => if is_tombstone v then visible_at (strip <$> mjoin segs) key else Some (data v)
    | None => visible_at log key
    end.
Proof.
  intros <-. unfold view_get, visible_at. rewrite segment_map_app, !segment_map_strip.
  destruct (segment_map cur !! key) as [v|]; cbn [mbind option_bind]; [|done].
  unfold visible at 1. by destruct (is_tombstone v).
Qed.

(** The last entry of the key is not a deletion. *)
Definition not_deleted (log : list WALEntry) (key : str) : bool :=
  match segment_map log !! key with Some v => negb (is_tombstone v) | None => true end.

Lemma view_get_current segs cur log key :
  strip <$> (mjoin segs ++ cur) = log -> not_deleted log key = true -> view_get segs cur key = visible_at log key.
Proof.
  intros <- Hnd. unfold not_deleted in Hnd. unfold visible_at, view_get. rewrite segment_map_strip, segment_map_app in *.
  destruct (segment_map cur !! key) as [v|]; [|done]. cbn [mbind option_bind]. unfold visible. by destruct (is_tombstone v).
Qed.

(** * Properties *)

(** C13. What a read returns, exactly: after any sequence of puts, deletes and
    flushes on a new engine (each write within the log's record limit, 1 GiB in
    total, no I/O fault), every operation has returned Ok, the writes split
    into a flushed part and a pending part, the contents of the memtable being
    those of the pending one, and [Get] of any key returns the value of the
    last pending write of the key if that is a put, and otherwise what the
    flushed writes alone determine (with their deletes honoured). *)
Theorem engine_get_exact {abi : Abi} {sort : StdSort} (cfg : StorageConfig) (ops : list engine_op)
    (Hcfg : config_ok cfg) (Hops : Forall op_ok ops) (Hcost : log_cost (ops_log ops) < 2 ^ 30) :
  exists ss e w flushed pending mt,
    run_fresh cfg ops = Some (ss, e, w) /\ Forall (fun s => s = StatusOk) ss /\
    flushed ++ pending = ops_log ops /\
    active_memtable_ e = Some mt /\ mt_repr mt (segment_map pending) /\
    forall key, StorageEngine_Get w e key
      = Some (Val (match visible_at pending key with Some v => Some v | None => visible_at flushed key end), w).
Proof.
  destruct (run_fresh_spec cfg ops Hcfg Hops Hcost) as (ss & e & w & segs & cur & Hrun & Hss & [Hv _] & Hlog).
  destruct (ev_mem _ _ _ _ _ Hv) as (mt & Hmt & Hrepr).
  exists ss, e, w, (strip <$> mjoin segs), (strip <$> cur), mt. split_and!; try done.
  - by rewrite segment_map_strip.
  - intros key. rewrite (Get_view cfg w e segs cur key Hv). unfold view_get, visible_at. by rewrite !segment_map_strip.
Qed.

(** Read your writes: under the same conditions, when the last write to a
    key was a put, [Get] returns its value, wherever the flushes fell. *)
Theorem engine_read_your_writes {abi : Abi} {sort : StdSort} (cfg : StorageConfig) (ops : list engine_op)
    (key : str) (value : bytes) (pre post : list WALEntry)
    (Hcfg : config_ok cfg) (Hops : Forall op_ok ops) (Hcost : log_cost (ops_log ops) < 2 ^ 30)
    (Hlast : ops_log ops = pre ++ mkWALEntry 0 kPut key value :: post)
    (Hpost : Forall (fun x => we_key x <> key) post) :
  exists ss e w, run_fresh cfg ops = Some (ss, e, w) /\ StorageEngine_Get w e key = Some (Val (Some value), w).
Proof.
  destruct (run_fresh_spec cfg ops Hcfg Hops Hcost) as (ss & e & w & segs & cur & Hrun & _ & [Hv _] & Hlog).
  exists ss, e, w. split; [done|]. rewrite (Get_view cfg w e segs cur key Hv), (view_get_split _ _ _ _ Hlog).
  assert (segment_map (ops_log ops) !! key = Some (live value)) as Hval.
  { rewrite Hlast. apply (segment_map_last pre (mkWALEntry 0 kPut key value) post).
    intros x Hx. rewrite Forall_forall in Hpost. by apply Hpost. }
  pose proof Hval as Hcur. rewrite <-Hlog, segment_map_app, !segment_map_strip in Hcur.
  destruct (segment_map cur !! key) as [v|]; [by injection Hcur as ->|].
  unfold visible_at. by rewrite Hval.
Qed.

(** After a flush reads are exact: when the sequence ends with a flush, [Get]
    of every key agrees with the map the writes describe, deleted and
    never-written keys being absent. *)
Theorem engine_get_after_flush {abi : Abi} {sort : StdSort} (cfg : StorageConfig) (ops : list engine_op) (key : str)
    (Hcfg : config_ok cfg) (Hops : Forall op_ok ops) (Hcost : log_cost (ops_log ops) < 2 ^ 30) :
  exists ss e w, run_fresh cfg (ops ++ [OpFlush]) = Some (ss, e, w) /\
    StorageEngine_Get w e key = Some (Val (visible_at (ops_log ops) key), w).
Proof.
  destruct (run_fresh_flush_spec cfg ops Hcfg Hops Hcost) as (ss & e & w & segs & Hrun & [Hv _] & Hlog).
  exists ss, e, w. split; [done|]. rewrite (Get_view cfg w e segs [] key Hv). unfold view_get, visible_at.
  change (segment_map [] !! key) with (None : option SkipListValue). cbn [mbind option_bind].
  by rewrite <-Hlog, segment_map_strip.
Qed.

(** Crash recovery: after any such sequence, opening a new engine on the
    files left behind (the memory of the old one being lost, no flush having
    run) succeeds without changing them, and the new engine answers every read
    as the old one did. *)
Theorem engine_crash_recovery {abi : Abi} {sort : StdSort} (cfg : StorageConfig) (ops : list engine_op)
    (Hcfg : config_ok cfg) (Hops : Forall op_ok ops) (Hcost : log_cost (ops_log ops) < 2 ^ 30) :
  exists ss e w e', run_fresh cfg ops = Some (ss, e, w) /\
    StorageEngine_Open w cfg = Some (Val e', w) /\
    (forall key, StorageEngine_Get w e' key = StorageEngine_Get w e key) /\
    (forall key, exists v, StorageEngine_Get w e key = Some (Val v, w)).
Proof.
  destruct (run_fresh_spec cfg ops Hcfg Hops Hcost) as (ss & e & w & segs & cur & Hrun & _ & [Hv _] & _).
  destruct (engine_reopen cfg w e segs cur Hv) as (e' & Hopen & Hv' & _).
  exists ss, e, w, e'. split_and!; try done.
  - intros key. by rewrite (Get_view cfg w e' segs cur key Hv'), (Get_view cfg w e segs cur key Hv).
  - intros key. eexists. by apply (Get_view cfg w e segs cur key).
Qed.

(** ** A sample run *)

Definition sample_config : StorageConfig :=
  mkConfig (lit "/d") (lit "/d/wal") (lit "/d/sst") (64 * 1024 * 1024) 128.

(** The engine that an [Open] has returned. *)
Definition result_of (cfg : StorageConfig) (r : option (ErrorOr StorageEngine * World)) : StorageEngine * World :=
  match r with Some (Val e, w) => (e, w) | _ => (StorageEngine_new cfg, mkWorld ∅ []) end.

Definition sample_ops : list engine_op :=
  [OpPut (lit "a") (lit "1"); OpPut (lit "b") (lit "2"); OpDelete (lit "b"); OpFlush; OpPut (lit "a") (lit "3")].

#[local] Existing Instance x86_64_libstdcxx.
#[local] Existing Instance insertion_std_sort.

Lemma sample_ops_ok : Forall op_ok sample_ops.
Proof. by_vm. Qed.

Lemma engine_get_exact_witness :
  exists ss e w flushed pending,
    run_fresh sample_config sample_ops = Some (ss, e, w) /\
    flushed ++ pending = ops_log sample_ops /\
    StorageEngine_Get w e (lit "b")
    = Some (Val (match visible_at pending (lit "b") with Some v => Some v | None => visible_at flushed (lit "b") end), w).
Proof.
  destruct (engine_get_exact sample_config sample_ops) as (ss & e & w & flushed & pending & mt & Hr & _ & Hl & _ & _ & Hg).
  - vm_compute. reflexivity.
  - apply sample_ops_ok.
  - vm_compute. reflexivity.
  - exists ss, e, w, flushed, pending. split; [exact Hr|]. split; [exact Hl|]. exact (Hg (lit "b")).
Defined.

Lemma engine_read_your_writes_witness :
  exists ss e w, run_fresh sample_config sample_ops = Some (ss, e, w) /\
    StorageEngine_Get w e (lit "a") = Some (Val (Some (lit "3")), w).
Proof.
  apply (engine_read_your_writes sample_config sample_ops (lit "a") (lit "3") (take 3 (ops_log sample_ops)) []).
  - vm_compute. reflexivity.
  - apply sample_ops_ok.
  - vm_compute. reflexivity.
  - reflexivity.
  - constructor.
Defined.

Lemma engine_get_after_flush_witness :
  exists ss e w, run_fresh sample_config (sample_ops ++ [OpFlush]) = Some (ss, e, w) /\
    StorageEngine_Get w e (lit "b") = Some (Val (visible_at (ops_log sample_ops) (lit "b")), w).
Proof.
  apply (engine_get_after_flush sample_config sample_ops (lit "b")).
  - vm_compute. reflexivity.
  - apply sample_ops_ok.
  - vm_compute. reflexivity.
Defined.

Lemma engine_crash_recovery_witness :
  exists ss e w e', run_fresh sample_config sample_ops = Some (ss, e, w) /\
    StorageEngine_Open w sample_config = Some (Val e', w) /\
    (forall key, StorageEngine_Get w e' key = StorageEngine_Get w e key) /\
    (forall key, exists v, StorageEngine_Get w e key = Some (Val v, w)).
Proof.
  apply (engine_crash_recovery sample_config sample_ops).
  - vm_compute. reflexivity.
  - apply sample_ops_ok.
  - vm_compute. reflexivity.
Defined.
