(* ===== verification/ConcurrentWrites.v ===== *)
(** * Several writers on one engine

    [WriteEntry] appends to the log under [wal_mutex_], releases it, changes the
    memtable under [memtable_mutex_], releases it, and flushes when the memtable
    has grown too large; [FlushMemTable] swaps the memtable under one mutex,
    reads the log position under the other and writes the table without any.
    These sections are the atomic steps of a thread here, and a schedule is a
    list of the threads' next steps.  Writing the table is one step: no step of
    another writer touches the table file, the checkpoint or the catalogue, another
    flush apart.  [WriteEntry_steps] shows that the steps of
    one thread, taken without interruption, are [WriteEntry].

    The locks alone do not make the interleavings safe (EngineScenarios.v has
    the races); the property here states what a schedule has to respect so
    that they are: no two writes of one key between log and memtable at the same
    time, and no write under way between the swap of a flush and the reading of
    its log position, and one flush at a time.  Everything else may overlap, in
    particular writes of different keys with each other and with the writing of
    a table. *)

From S2P Require Import Prelude Status BinarySerializer Mt19937 SkipList MemTable FileSystem Wal Recovery Checkpoint BloomFilter Block SSTable Compaction CompactionMerge BlockCache Engine EngineCorrect.

(** ** Threads *)

(** Where a thread is in [WriteEntry]. *)
Inductive pc : Set :=
  | Logged (type : WALEntryType) (key : str) (value : bytes)   (* before the memtable *)
  | NeedsFlush                                                 (* before [FlushMemTable] *)
  | Swapped (to_flush : MemTable)                              (* before the log position *)
  | Positioned (to_flush : MemTable) (flush_lsn : Z)           (* before the table *)
  | Done (s : Status).

Record writers : Set := mkWriters {
  pcs : gmap nat pc;
  engine : StorageEngine;
  world : World
}.

Inductive event : Set :=
  | Call (t : nat) (type : WALEntryType) (key : str) (value : bytes)   (* a call and its log record *)
  | Step (t : nat).

(** A thread that is not inside [WriteEntry]. *)
Definition idle (p : option pc) : bool := match p with None | Some (Done _) => true | _ => false end.

Section writers.
Context {abi : Abi} {sort : StdSort}.

Definition goto (t : nat) (p : pc) (st : writers) (e : StorageEngine) (w : World) : writers :=
  mkWriters (<[t := p]> (pcs st)) e w.

Definition writer_step (ev : event) (st : writers) : option writers :=
  let '(e, w) := (engine st, world st) in
  match ev with
  | Call t type key value =>
      if negb (idle (pcs st !! t)) then None
      else
        match WriteEntry_log w e type key value with
        | None => None
        | Some (s, e, w) => Some (goto t (if negb (IsOk s) then Done s else Logged type key value) st e w)
        end
  | Step t =>
      match pcs st !! t with
      | None | Some (Done _) => Some st
      | Some (Logged type key value) =>
          match WriteEntry_apply e type key value with
          | None => None
          | Some (needs_flush, e) => Some (goto t (if needs_flush then NeedsFlush else Done StatusOk) st e w)
          end
      | Some NeedsFlush =>
          match Flush_swap e with
          | None => None
          | Some (None, e) => Some (goto t (Done StatusOk) st e w)
          | Some (Some to_flush, e) => Some (goto t (Swapped to_flush) st e w)
          end
      | Some (Swapped to_flush) =>
          match Flush_lsn e with
          | None => None
          | Some flush_lsn => Some (goto t (Positioned to_flush flush_lsn) st e w)
          end
      | Some (Positioned to_flush flush_lsn) =>
          match Flush_write w e to_flush flush_lsn with
          | None => None
          | Some (s, e, w) => Some (goto t (Done s) st e w)
          end
      end
  end.

Fixpoint writers_run (events : list event) (st : writers) : option writers :=
  match events with
  | [] => Some st
  | ev :: events => match writer_step ev st with None => None | Some st => writers_run events st end
  end.

Lemma writers_run_done t n s st :
  pcs st !! t = Some (Done s) -> writers_run (replicate n (Step t)) st = Some st.
Proof.
  intros Ht. induction n as [|n IH]; [done|]. cbn [replicate writers_run writer_step]. by rewrite Ht.
Qed.

Ltac take_step Hrun Hpc := rewrite Hrun; cbn [writer_step]; rewrite Hpc; cbn [engine world goto].

(** The steps of one thread without interruption are [WriteEntry]. *)
Lemma WriteEntry_steps t type key value st :
  idle (pcs st !! t) = true ->
  writers_run (Call t type key value :: replicate 4 (Step t)) st
  = match WriteEntry (world st) (engine st) type key value with
    | None => None
    | Some (s, e, w) => Some (goto t (Done s) st e w)
    end.
Proof.
  intros Hidle. unfold WriteEntry.
  assert (forall n p e w, writers_run (replicate (S n) (Step t)) (goto t p st e w)
    = match writer_step (Step t) (goto t p st e w) with None => None | Some st => writers_run (replicate n (Step t)) st end)
    as Hrun by done.
  assert (forall p p' e e' w w', goto t p' (goto t p st e w) e' w' = goto t p' st e' w') as Hgoto
    by (intros; unfold goto; cbn [pcs]; by rewrite insert_insert_eq).
  assert (forall p e w, pcs (goto t p st e w) !! t = Some p) as Hpc by (intros; cbn [goto pcs]; by rewrite lookup_insert_eq).
  cbn [writers_run writer_step]. rewrite Hidle. cbn [negb].
  destruct (WriteEntry_log _ _ _ _ _) as [[[s e] w]|]; [|done].
  destruct (negb (IsOk s)); [by rewrite (writers_run_done t 4 s)|].
  take_step Hrun Hpc.
  destruct (WriteEntry_apply e type key value) as [[needs e1]|]; [|done]. fold (goto t (Logged type key value) st e w).
  rewrite Hgoto. destruct needs; [|by rewrite (writers_run_done t 3 StatusOk)].
  take_step Hrun Hpc. unfold FlushMemTable.
  destruct (Flush_swap e1) as [[[mt|] e2]|]; [| |done]; fold (goto t NeedsFlush st e1 w); rewrite Hgoto;
    [|by rewrite (writers_run_done t 2 StatusOk)].
  take_step Hrun Hpc.
  destruct (Flush_lsn e2) as [lsn|]; [|done]. fold (goto t (Swapped mt) st e2 w). rewrite Hgoto.
  take_step Hrun Hpc.
  destruct (Flush_write w e2 mt lsn) as [[[s' e3] w3]|]; [|done].
  fold (goto t (Positioned mt lsn) st e2 w). by rewrite Hgoto.
Qed.

(** ** Schedules *)

Definition logs (p : pc) : bool := match p with Logged _ _ _ => true | _ => false end.
Definition logs_key (key : str) (p : pc) : bool := match p with Logged _ key' _ => bool_decide (key' = key) | _ => false end.
Definition swapped (p : pc) : bool := match p with Swapped _ => true | _ => false end.
Definition flushes (p : pc) : bool := match p with Swapped _ | Positioned _ _ => true | _ => false end.

(** No thread is in a place that satisfies [b]. *)
Definition none_in (b : pc -> bool) (st : writers) : bool :=
  forallb (fun '(_, p) => negb (b p)) (map_to_list (pcs st)).

(** What the schedule has to respect at one event. *)
Definition permitted (ev : event) (st : writers) : bool :=
  match ev with
  | Call t _ key _ => idle (pcs st !! t) && none_in (logs_key key) st && none_in swapped st
  | Step t =>
      match pcs st !! t with
      | Some NeedsFlush => none_in logs st && none_in flushes st
      | _ => true
      end
  end.

Fixpoint disciplined (events : list event) (st : writers) : bool :=
  match events with
  | [] => true
  | ev :: events =>
      permitted ev st && match writer_step ev st with None => true | Some st => disciplined events st end
  end.
End writers.

Definition event_ok (ev : event) : Prop :=
  match ev with Call _ type key value => write_ok type key value | Step _ => True end.

#[export] Instance event_ok_dec ev : Decision (event_ok ev).
Proof. destruct ev; cbn [event_ok]; apply _. Defined.

(** The entries in the order in which they reach the log. *)
Definition begun (events : list event) : list WALEntry :=
  mjoin ((fun ev => match ev with Call _ type key value => [mkWALEntry 0 type key value] | Step _ => [] end) <$> events).

(** ** The invariant *)

Lemma none_in_spec b st : none_in b st = true <-> forall t p, pcs st !! t = Some p -> b p = false.
Proof.
  unfold none_in. rewrite forallb_forall. split.
  - intros H t p Ht. apply elem_of_map_to_list, list_elem_of_In in Ht. specialize (H _ Ht). cbn in H.
    by destruct (b p).
  - intros H [t p] Ht. apply list_elem_of_In, elem_of_map_to_list in Ht. by rewrite (H t p Ht).
Qed.

Lemma pcs_goto t p st e w t' p' :
  pcs (goto t p st e w) !! t' = Some p' <-> (t' = t /\ p' = p) \/ (t' <> t /\ pcs st !! t' = Some p').
Proof. cbn [goto pcs]. rewrite lookup_insert_Some. split; intros [[? ?]|[? ?]]; auto. Qed.

(** A place that a thread leaves, or moves to, counts for no other thread. *)
Lemma none_in_leave b t p st e w :
  none_in b (goto t p st e w) = true -> (forall p0, pcs st !! t = Some p0 -> b p0 = false) -> none_in b st = true.
Proof.
  rewrite !none_in_spec. intros H H0 t' p' Ht. destruct (decide (t' = t)) as [->|Hne]; [by apply H0|].
  apply (H t'), pcs_goto. by right.
Qed.

(** Where the threads may be: the entries of the threads that are between log
    and memtable are the newest of their keys in [cur]; one thread at most is
    flushing, and it holds the segment [fl]. *)
Record places (st : writers) (segs : list (list WALEntry)) (fl cur : list WALEntry) : Prop := {
  pl_logged : forall t type key value, pcs st !! t = Some (Logged type key value) ->
    segment_map cur !! key = Some (entry_value (mkWALEntry 0 type key value));
  pl_one_logged : forall t1 t2 p1 p2 key, pcs st !! t1 = Some p1 -> pcs st !! t2 = Some p2 ->
    logs_key key p1 = true -> logs_key key p2 = true -> t1 = t2;
  pl_swapped : forall t mt, pcs st !! t = Some (Swapped mt) -> mt_repr mt (segment_map fl) /\ fl <> [] /\ cur = [];
  pl_positioned : forall t mt lsn, pcs st !! t = Some (Positioned mt lsn) ->
    mt_repr mt (segment_map fl) /\ fl <> [] /\ lsn = Z.of_nat (length (mjoin segs ++ fl));
  pl_one_flush : forall t1 t2 p1 p2, pcs st !! t1 = Some p1 -> pcs st !! t2 = Some p2 ->
    flushes p1 = true -> flushes p2 = true -> t1 = t2;
  pl_no_flush : none_in flushes st = true -> fl = [];
  pl_done : forall t s, pcs st !! t = Some (Done s) -> s = StatusOk
}.

(** The memtable holds the entries of [cur], except for the keys whose thread
    has not got there yet. *)
Definition memtable_current (st : writers) (cur : list WALEntry) : Prop :=
  exists mt m, active_memtable_ (engine st) = Some mt /\ mt_repr mt m /\
    forall key, none_in (logs_key key) st = true -> m !! key = segment_map cur !! key.

Definition writers_inv (cfg : StorageConfig) (st : writers) (segs : list (list WALEntry)) (fl cur : list WALEntry) : Prop :=
  engine_store cfg (world st) (engine st) segs (fl ++ cur) /\ memtable_current st cur /\ places st segs fl cur.

(** Case analysis on the thread that moved. *)
Ltac moved H := apply pcs_goto in H as [[-> ?]|[? H]]; simplify_eq.

(** A thread that moves to a place with no claim on the state. *)
Lemma places_quiet st segs fl cur t p e w :
  places st segs fl cur -> p = NeedsFlush \/ p = Done StatusOk ->
  (forall p0, pcs st !! t = Some p0 -> flushes p0 = false) -> places (goto t p st e w) segs fl cur.
Proof.
  intros [Hlog Hone Hsw Hpos Honef Hno Hdone] Hp Hleft. split.
  - intros t' type key value Ht. moved Ht; [by destruct Hp|]. by eapply Hlog.
  - intros t1 t2 p1 p2 key H1 H2 L1 L2. moved H1; [by destruct Hp as [->| ->]|].
    moved H2; [by destruct Hp as [->| ->]|]. by eapply Hone.
  - intros t' mt Ht. moved Ht; [by destruct Hp|]. by eapply Hsw.
  - intros t' mt lsn Ht. moved Ht; [by destruct Hp|]. by eapply Hpos.
  - intros t1 t2 p1 p2 H1 H2 F1 F2. moved H1; [by destruct Hp as [->| ->]|].
    moved H2; [by destruct Hp as [->| ->]|]. by eapply Honef.
  - intros Hf. by apply Hno, (none_in_leave _ _ _ _ _ _ Hf).
  - intros t' s Ht. moved Ht; [destruct Hp; congruence|]. by eapply Hdone.
Qed.

Section steps.
Context {abi : Abi} {sort : StdSort}.
Variable cfg : StorageConfig.
Hypothesis Hcfg : config_ok cfg.

(** Step 1 of a write extends the log and nothing else. *)
Lemma engine_store_log w e segs rest type key value :
  engine_store cfg w e segs rest -> write_ok type key value ->
  log_cost (mjoin segs ++ rest) + entry_cost (mkWALEntry 0 type key value) < 2 ^ 30 ->
  exists e' w' n, WriteEntry_log w e type key value = Some (StatusOk, e', w') /\
    engine_store cfg w' e' segs (rest ++ [stamp n (mkWALEntry 0 type key value)]) /\
    active_memtable_ e' = active_memtable_ e.
Proof.
  intros Hst Hok Hsize. pose proof (store_bounds _ _ _ _ _ Hst) as (_ & Hb & _).
  destruct Hst as [Hc (wal & Hwal & Hp & Hws) Himm Hlv Hcpm Hfiles Hman Hne Hcost Hread Hseq].
  destruct (WriteEntry_log_run w e wal _ type key value Hwal Hws Hok) as (wal' & w' & Hlog & Hp' & Hws' & Hother); [lia|].
  exists (set_counters (set_wal e wal') (u64 (wal_writes_ e + 1)) (memtable_flushes_ e) (next_sst_sequence_ e)), w'.
  eexists. split; [exact Hlog|]. split; [|done]. destruct (paths_distinct cfg 0) as (_ & _ & _ & Hcp & _).
  split; cbn [set_counters set_wal config_ wal_ immutable_memtable_ compaction_manager_ checkpoint_manager_ next_sst_sequence_];
    auto.
  - exists wal'. split; [done|]. split; [congruence|]. by rewrite app_assoc.
  - apply (seg_files_frame w); [done|]. intros i _. apply Hother. rewrite Hp. apply paths_distinct.
  - apply (manifest_frame w); [done|]. apply Hother. rewrite Hp. congruence.
  - rewrite app_assoc, log_cost_snoc. lia.
  - rewrite app_assoc. apply Forall_app_2; [done|]. constructor; [|done].
    apply readable_stamp; [by apply write_ok_readable|lia].
Qed.

Lemma idle_nowhere b st t :
  idle (pcs st !! t) = true -> (forall s, b (Done s) = false) -> forall p, pcs st !! t = Some p -> b p = false.
Proof. intros Hidle Hb p Hp. rewrite Hp in Hidle. by destruct p. Qed.

Lemma places_begin st segs fl cur t type key value n e w :
  places st segs fl cur -> permitted (Call t type key value) st = true ->
  places (goto t (Logged type key value) st e w) segs fl (cur ++ [stamp n (mkWALEntry 0 type key value)]).
Proof.
  intros [Hlog Hone Hsw Hpos Honef Hno Hdone] Hperm. cbn [permitted] in Hperm.
  apply andb_true_iff in Hperm as [[Hidle Hkey]%andb_true_iff Hnsw]. rewrite none_in_spec in Hkey, Hnsw. split.
  - intros t' type' key' value' Ht. rewrite segment_map_snoc. unfold apply_entry. cbn [we_key]. moved Ht.
    + by rewrite lookup_insert_eq.
    + rewrite lookup_insert_ne; [by eapply Hlog|]. intros <-. specialize (Hkey _ _ Ht). cbn [logs_key] in Hkey.
      by rewrite bool_decide_true in Hkey.
  - intros t1 t2 p1 p2 key' H1 H2 L1 L2. moved H1; moved H2; [done| | |by eapply Hone].
    + cbn [logs_key] in L1. apply bool_decide_eq_true in L1 as ->. by rewrite (Hkey _ _ H2) in L2.
    + cbn [logs_key] in L2. apply bool_decide_eq_true in L2 as ->. by rewrite (Hkey _ _ H1) in L1.
  - intros t' mt' Ht. moved Ht. by specialize (Hnsw _ _ Ht).
  - intros t' mt' lsn Ht. moved Ht. by eapply Hpos.
  - intros t1 t2 p1 p2 H1 H2 F1 F2. moved H1; moved H2. by eapply Honef.
  - intros Hf. apply Hno, (none_in_leave _ _ _ _ _ _ Hf). by apply idle_nowhere.
  - intros t' s Ht. moved Ht. by eapply Hdone.
Qed.

Lemma begin_spec st segs fl cur t type key value :
  writers_inv cfg st segs fl cur -> write_ok type key value ->
  log_cost (mjoin segs ++ fl ++ cur) + entry_cost (mkWALEntry 0 type key value) < 2 ^ 30 ->
  permitted (Call t type key value) st = true ->
  exists st' n, writer_step (Call t type key value) st = Some st' /\
    writers_inv cfg st' segs fl (cur ++ [stamp n (mkWALEntry 0 type key value)]).
Proof.
  intros (Hst & (mt & m & Hmt & Hrepr & Hm) & Hpl) Hok Hcost Hperm.
  assert (idle (pcs st !! t) = true) as Hidle.
  { cbn [permitted] in Hperm. by apply andb_true_iff in Hperm as [[? _]%andb_true_iff _]. }
  destruct (engine_store_log _ _ segs (fl ++ cur) type key value Hst Hok Hcost) as (e' & w' & n & Hrun & Hst' & Hact).
  exists (goto t (Logged type key value) st e' w'), n. cbn [writer_step]. rewrite Hidle, Hrun. split; [done|].
  split; [by rewrite app_assoc|]. split; [|by apply places_begin].
  exists mt, m. split; [by rewrite <-Hmt|]. split; [done|]. intros key' Hk. rewrite segment_map_snoc.
  assert (key <> key') as Hne.
  { intros ->. rewrite none_in_spec in Hk. specialize (Hk t (Logged type key' value)).
    cbn [logs_key] in Hk. rewrite bool_decide_true in Hk by done. discriminate Hk. apply pcs_goto. by left. }
  unfold apply_entry. cbn [we_key]. rewrite lookup_insert_ne by done. apply Hm.
  apply (none_in_leave _ _ _ _ _ _ Hk). by apply idle_nowhere.
Qed.

Lemma apply_spec st segs fl cur t type key value :
  writers_inv cfg st segs fl cur -> pcs st !! t = Some (Logged type key value) ->
  exists st', writer_step (Step t) st = Some st' /\ writers_inv cfg st' segs fl cur.
Proof.
  intros (Hst & (mt & m & Hmt & Hrepr & Hm) & Hpl) Ht. cbn [writer_step]. rewrite Ht.
  destruct (WriteEntry_apply_run (engine st) mt m type key value Hmt Hrepr) as (needs & mt' & -> & Hrepr').
  eexists. split; [done|]. split; [by apply engine_store_memtable|]. split.
  - exists mt', (apply_entry m (mkWALEntry 0 type key value)). split; [done|]. split; [done|]. intros key' Hk.
    unfold apply_entry. cbn [we_key]. destruct (decide (key = key')) as [<-|Hne].
    + rewrite lookup_insert_eq. symmetry. by apply (pl_logged _ _ _ _ Hpl t).
    + rewrite lookup_insert_ne by done. apply Hm, (none_in_leave _ _ _ _ _ _ Hk). intros p0. rewrite Ht. intros [= <-].
      cbn [logs_key]. by apply bool_decide_eq_false.
  - apply places_quiet; [done|by destruct needs; auto|]. rewrite Ht. by intros p0 [= <-].
Qed.

(** With no write between log and memtable and no flush under way the memtable
    becomes the segment to flush. *)
Lemma swap_spec st segs fl cur t :
  writers_inv cfg st segs fl cur -> pcs st !! t = Some NeedsFlush -> permitted (Step t) st = true ->
  exists st' fl' cur', writer_step (Step t) st = Some st' /\ writers_inv cfg st' segs fl' cur' /\ fl' ++ cur' = fl ++ cur.
Proof.
  intros (Hst & (mt & m & Hmt & Hrepr & Hm) & Hpl) Ht Hperm. cbn [permitted writer_step] in *. rewrite Ht in *.
  apply andb_true_iff in Hperm as [Hnl Hnf]. pose proof (pl_no_flush _ _ _ _ Hpl Hnf) as ->.
  rewrite none_in_spec in Hnl, Hnf. cbn [app] in *.
  assert (m = segment_map cur) as ->.
  { apply map_eq. intros key. apply Hm, none_in_spec. intros t' p Ht'. specialize (Hnl _ _ Ht'). by destruct p. }
  rewrite (Flush_swap_run _ mt _ Hmt Hrepr). case_bool_decide as Hemp.
  - exists (goto t (Done StatusOk) st (engine st) (world st)), [], cur. split; [done|]. split; [|done].
    split; [done|]. split; [by exists mt, (segment_map cur)|].
    apply places_quiet; [done|by right|]. intros p0. rewrite Ht. by intros [= <-].
  - rewrite segment_map_nil in Hemp. set (e' := set_memtables _ _ _).
    exists (goto t (Swapped mt) st e' (world st)), cur, []. split; [done|]. split; [|by rewrite app_nil_r].
    split; [|split].
    + rewrite app_nil_r. unfold e'. rewrite <-(st_imm _ _ _ _ _ Hst). by apply engine_store_memtable.
    + exists MemTable_new, ∅. split; [done|]. split; [apply mt_new_repr|done].
    + split.
      * intros t' type key value Ht'. moved Ht'. by specialize (Hnl _ _ Ht').
      * intros t1 t2 p1 p2 key H1 H2 L1 L2. moved H1; moved H2. specialize (Hnl _ _ H1). by destruct p1.
      * intros t' mt' Ht'. moved Ht'; [done|]. by specialize (Hnf _ _ Ht').
      * intros t' mt' lsn Ht'. moved Ht'. by specialize (Hnf _ _ Ht').
      * intros t1 t2 p1 p2 H1 H2 F1 F2. moved H1; moved H2; [done| | |].
        -- by rewrite (Hnf _ _ H2) in F2.
        -- by rewrite (Hnf _ _ H1) in F1.
        -- by rewrite (Hnf _ _ H1) in F1.
      * rewrite none_in_spec. intros Hf. by specialize (Hf t (Swapped mt) ltac:(apply pcs_goto; by left)).
      * intros t' s Ht'. moved Ht'. by apply (pl_done _ _ _ _ Hpl t').
Qed.

Lemma position_spec st segs fl cur t mt :
  writers_inv cfg st segs fl cur -> pcs st !! t = Some (Swapped mt) ->
  exists st', writer_step (Step t) st = Some st' /\ writers_inv cfg st' segs fl cur.
Proof.
  intros (Hst & Hmem & Hpl) Ht. cbn [writer_step]. rewrite Ht.
  destruct (pl_swapped _ _ _ _ Hpl t mt Ht) as (Hrepr & Hfl & ->).
  rewrite (Flush_lsn_store cfg _ _ _ _ Hst), app_nil_r. eexists. split; [done|]. split; [done|]. split.
  - destruct Hmem as (mt' & m & Hmt & Hr & Hm). exists mt', m. split; [done|]. split; [done|]. intros key Hk.
    apply Hm, (none_in_leave _ _ _ _ _ _ Hk). rewrite Ht. by intros p0 [= <-].
  - destruct Hpl as [Hlog Hone Hsw Hpos Honef Hno Hdone]. split.
    + intros t' type key value Ht'. moved Ht'. by eapply Hlog.
    + intros t1 t2 p1 p2 key H1 H2 L1 L2. moved H1; moved H2. by eapply Hone.
    + intros t' mt' Ht'. moved Ht'. by eapply Hsw.
    + intros t' mt' lsn Ht'. moved Ht'; [done|]. by eapply Hpos.
    + intros t1 t2 p1 p2 H1 H2 F1 F2. moved H1; moved H2; [done| | |by eapply Honef].
      * by rewrite (Honef _ _ _ _ H2 Ht F2 eq_refl).
      * by rewrite (Honef _ _ _ _ H1 Ht F1 eq_refl).
    + rewrite none_in_spec. intros Hf. by specialize (Hf t (Positioned mt _) ltac:(apply pcs_goto; by left)).
    + intros t' s Ht'. moved Ht'. by eapply Hdone.
Qed.

Lemma table_spec st segs fl cur t mt lsn :
  writers_inv cfg st segs fl cur -> pcs st !! t = Some (Positioned mt lsn) ->
  exists st', writer_step (Step t) st = Some st' /\ writers_inv cfg st' (segs ++ [fl]) [] cur.
Proof.
  intros (Hst & (mt' & m & Hmt & Hr & Hm) & Hpl) Ht. cbn [writer_step]. rewrite Ht.
  destruct (pl_positioned _ _ _ _ Hpl t mt lsn Ht) as (Hrepr & Hfl & ->).
  destruct (Flush_write_store cfg _ _ mt segs fl cur Hcfg Hst Hfl Hrepr) as (e' & w' & -> & Hst' & Hact).
  eexists. split; [done|]. split; [done|]. split.
  - exists mt', m. split; [by rewrite <-Hmt|]. split; [done|]. intros key Hk.
    apply Hm, (none_in_leave _ _ _ _ _ _ Hk). rewrite Ht. by intros p0 [= <-].
  - destruct Hpl as [Hlog Hone Hsw Hpos Honef Hno Hdone]. split.
    + intros t' type key value Ht'. moved Ht'. by eapply Hlog.
    + intros t1 t2 p1 p2 key H1 H2 L1 L2. moved H1; moved H2. by eapply Hone.
    + intros t' mt1 Ht'. moved Ht'. by pose proof (Honef _ _ _ _ Ht' Ht eq_refl eq_refl).
    + intros t' mt1 lsn Ht'. moved Ht'. by pose proof (Honef _ _ _ _ Ht' Ht eq_refl eq_refl).
    + intros t1 t2 p1 p2 H1 H2 F1 F2. moved H1; moved H2. by eapply Honef.
    + done.
    + intros t' s Ht'. moved Ht'; [done|]. by eapply Hdone.
Qed.

Lemma begun_cons ev events : begun (ev :: events) = begun [ev] ++ begun events.
Proof. unfold begun. rewrite !fmap_cons, fmap_nil, !mjoin_cons. cbn [mjoin list_join]. by rewrite app_nil_r. Qed.

Lemma writer_step_spec st segs fl cur ev :
  writers_inv cfg st segs fl cur -> event_ok ev ->
  log_cost (mjoin segs ++ fl ++ cur) + log_cost (begun [ev]) < 2 ^ 30 -> permitted ev st = true ->
  exists st' segs' fl' cur', writer_step ev st = Some st' /\ writers_inv cfg st' segs' fl' cur' /\
    strip <$> (mjoin segs' ++ fl' ++ cur') = (strip <$> (mjoin segs ++ fl ++ cur)) ++ begun [ev].
Proof.
  intros Hinv Hok Hcost Hperm. destruct ev as [t type key value|t].
  - destruct (begin_spec st segs fl cur t type key value Hinv Hok) as (st' & n & Hstep & Hinv'); [|done|].
    { change (begun _) with [mkWALEntry 0 type key value] in Hcost. rewrite log_cost_cons in Hcost.
      change (log_cost []) with 0 in Hcost. lia. }
    exists st', segs, fl. eexists. split; [done|]. split; [done|]. by rewrite !app_assoc, (fmap_app _ _ [_]).
  - change (begun [Step t]) with (@nil WALEntry). rewrite app_nil_r. destruct (pcs st !! t) as [p|] eqn:Ht.
    2: { exists st, segs, fl, cur. cbn [writer_step]. by rewrite Ht. }
    destruct p as [type key value| |mt|mt lsn|s].
    + destruct (apply_spec st segs fl cur t type key value Hinv Ht) as (st' & Hstep & Hinv'). eauto 10.
    + destruct (swap_spec st segs fl cur t Hinv Ht Hperm) as (st' & fl' & cur' & Hstep & Hinv' & Heq).
      exists st', segs, fl', cur'. by rewrite Heq.
    + destruct (position_spec st segs fl cur t mt Hinv Ht) as (st' & Hstep & Hinv'). eauto 10.
    + destruct (table_spec st segs fl cur t mt lsn Hinv Ht) as (st' & Hstep & Hinv').
      exists st', (segs ++ [fl]), [], cur. by rewrite mjoin_snoc, <-app_assoc.
    + exists st, segs, fl, cur. cbn [writer_step]. by rewrite Ht.
Qed.

Lemma writers_run_spec events : forall st segs fl cur,
  writers_inv cfg st segs fl cur -> Forall event_ok events ->
  log_cost (mjoin segs ++ fl ++ cur) + log_cost (begun events) < 2 ^ 30 -> disciplined events st = true ->
  exists st' segs' fl' cur', writers_run events st = Some st' /\ writers_inv cfg st' segs' fl' cur' /\
    strip <$> (mjoin segs' ++ fl' ++ cur') = (strip <$> (mjoin segs ++ fl ++ cur)) ++ begun events.
Proof.
  induction events as [|ev events IH]; intros st segs fl cur Hinv Hok Hcost Hdis; cbn [writers_run disciplined] in *.
  - exists st, segs, fl, cur. change (begun []) with (@nil WALEntry). by rewrite app_nil_r.
  - apply Forall_cons in Hok as [Hev Hok]. apply andb_true_iff in Hdis as [Hperm Hdis].
    rewrite begun_cons, (log_cost_app (begun [ev])) in Hcost. pose proof (log_cost_count (begun events)).
    destruct (writer_step_spec st segs fl cur ev Hinv Hev) as (st1 & segs1 & fl1 & cur1 & Hstep & Hinv1 & Hlog1); [lia|done|].
    rewrite Hstep in Hdis |- *.
    destruct (IH st1 segs1 fl1 cur1 Hinv1 Hok) as (st' & segs' & fl' & cur' & Hrun & Hinv' & Hlog'); [|done|].
    { rewrite <-(log_cost_strip (mjoin segs1 ++ _)), Hlog1, log_cost_app, log_cost_strip. lia. }
    exists st', segs', fl', cur'. split; [done|]. split; [done|]. rewrite Hlog', Hlog1, (begun_cons ev events). by rewrite <-app_assoc.
Qed.

(** ** Reading *)

(** After a crash everything that was logged is read. *)
Lemma writers_crash st segs fl cur log key :
  writers_inv cfg st segs fl cur -> strip <$> (mjoin segs ++ fl ++ cur) = log -> not_deleted log key = true ->
  exists e, StorageEngine_Open (world st) cfg = Some (Val e, world st) /\
    StorageEngine_Get (world st) e key = Some (Val (visible_at log key), world st).
Proof.
  intros (Hst & _ & _) Hlog Hnd.
  destruct Hst as [_ (wal & _ & Hp & Hws) _ _ _ Hfiles Hman Hne Hcost Hread _].
  destruct (Recover_spec cfg (world st) segs (fl ++ cur) (files_ (compaction_manager_ (engine st))))
    as (e & Hrec & Hv & _); try done; [apply Hws|by rewrite <-Hp; apply Hws|apply Hws|].
  exists e. unfold StorageEngine_Open. rewrite Hrec. split; [done|].
  by rewrite (Get_view cfg _ _ _ _ key Hv), (view_get_current _ _ log).
Qed.

(** No write of the key is between log and memtable, and no flush is under way. *)
Definition settled (st : writers) (key : str) : bool := none_in (logs_key key) st && none_in flushes st.

Lemma writers_read st segs fl cur log key :
  writers_inv cfg st segs fl cur -> strip <$> (mjoin segs ++ fl ++ cur) = log -> not_deleted log key = true ->
  settled st key = true ->
  StorageEngine_Get (world st) (engine st) key = Some (Val (visible_at log key), world st).
Proof.
  intros (Hst & (mt & m & Hmt & Hrepr & Hm) & Hpl) Hlog Hnd [Hk Hf]%andb_true_iff.
  rewrite (pl_no_flush _ _ _ _ Hpl Hf) in *. cbn [app] in *.
  destruct Hst as [_ (wal & _ & _ & Hws) Himm _ _ Hfiles _ _ _ _ _].
  rewrite (Get_current cfg _ _ segs cur mt m key (ws_healthy _ _ _ Hws) Hfiles Himm Hmt Hrepr (Hm key Hk)).
  by rewrite (view_get_current _ _ log).
Qed.

Lemma writers_start e w : engine_inv cfg w e [] [] -> writers_inv cfg (mkWriters ∅ e w) [] [] [].
Proof.
  intros [Hst (mt & Hmt & Hrepr)]%engine_inv_store. split; [done|]. split; [by exists mt, ∅|].
  split; intros *; cbn [pcs]; by rewrite ?lookup_empty.
Qed.
End steps.

(** * Properties *)

(** C5. Writers on one engine, under any interleaving of their critical
    sections in which no two writes of one key are between log and memtable at
    the same time, no write is between log and memtable when a memtable is
    swapped for a flush and none begins before that flush has read its log
    position, and flushes do not overlap: every step succeeds, every finished
    write (flushes included) returns [Ok], and for each key whose last logged
    write is not a deletion, the files at that moment (a crash) open to an
    engine that reads the last logged value, and the running engine reads it
    too once no write of the key is between log and memtable and no flush is under
    way. *)
Theorem concurrent_writers {abi : Abi} {sort : StdSort} (cfg : StorageConfig) (e0 : StorageEngine) (w0 : World)
    (events : list event) :
  config_ok cfg -> StorageEngine_Open (mkWorld ∅ []) cfg = Some (Val e0, w0) ->
  Forall event_ok events -> log_cost (begun events) < 2 ^ 30 ->
  disciplined events (mkWriters ∅ e0 w0) = true ->
  exists st, writers_run events (mkWriters ∅ e0 w0) = Some st /\
    (forall t s, pcs st !! t = Some (Done s) -> s = StatusOk) /\
    forall key, not_deleted (begun events) key = true ->
      (exists e, StorageEngine_Open (world st) cfg = Some (Val e, world st) /\
         StorageEngine_Get (world st) e key = Some (Val (visible_at (begun events) key), world st)) /\
      (settled st key = true ->
         StorageEngine_Get (world st) (engine st) key = Some (Val (visible_at (begun events) key), world st)).
Proof.
  intros Hcfg Hopen Hok Hcost Hdis.
  destruct (engine_open_fresh cfg (mkWorld ∅ [])) as (e & w & Hopen' & Hinv); [done|done|done|].
  rewrite Hopen in Hopen'. injection Hopen' as <- <-.
  destruct (writers_run_spec cfg Hcfg events _ [] [] [] (writers_start cfg e0 w0 Hinv) Hok)
    as (st & segs & fl & cur & Hrun & Hst & Hlog); [done|done|].
  exists st. split; [done|]. split; [intros t s; apply (pl_done _ _ _ _ (proj2 (proj2 Hst)))|].
  intros key Hnd. split; [by apply (writers_crash cfg st segs fl cur)|by apply (writers_read cfg st segs fl cur)].
Qed.

#[local] Existing Instance x86_64_libstdcxx.
#[local] Existing Instance insertion_std_sort.

(** A threshold that every write exceeds. *)
Definition eager_config : StorageConfig := mkConfig (lit "/d") (lit "/d/wal") (lit "/d/sst") 1 1.

Definition eager_open : StorageEngine * World := result_of eager_config (StorageEngine_Open (mkWorld ∅ []) eager_config).

(** Two overlapping writes; one thread flushes both while a third writes; the
    second thread then flushes the third write, and the third has nothing
    left to flush. *)
Definition overlapping : list event :=
  [Call 1 kPut (lit "a") (lit "1"); Call 2 kPut (lit "b") (lit "2"); Step 2; Step 1; Step 1; Step 1;
   Call 3 kPut (lit "a") (lit "3"); Step 1; Step 3; Step 2; Step 2; Step 2; Step 3].

Lemma concurrent_writers_witness :
  exists st, writers_run overlapping (mkWriters ∅ eager_open.1 eager_open.2) = Some st /\
    StorageEngine_Get (world st) (engine st) (lit "a") = Some (Val (Some (lit "3")), world st) /\
    StorageEngine_Get (world st) (engine st) (lit "b") = Some (Val (Some (lit "2")), world st).
Proof.
  destruct (concurrent_writers eager_config eager_open.1 eager_open.2 overlapping) as (st & Hrun & _ & Hget).
  - reflexivity.
  - vm_compute. reflexivity.
  - by_vm.
  - reflexivity.
  - vm_compute. reflexivity.
  - exists st. split; [exact Hrun|].
    assert (match writers_run overlapping (mkWriters ∅ eager_open.1 eager_open.2) with
            | Some st => settled st (lit "a") && settled st (lit "b")
            | None => false
            end = true) as Hset by (vm_compute; reflexivity).
    rewrite Hrun in Hset. apply andb_true_iff in Hset as [Ha Hb].
    split; [exact (proj2 (Hget (lit "a") eq_refl) Ha)|exact (proj2 (Hget (lit "b") eq_refl) Hb)].
Defined.

(** The value of a key after a crash in this state. *)
Definition read_after_crash (key : str) (st : option writers) : option (ErrorOr (option bytes)) :=
  match st with
  | Some st =>
      match StorageEngine_Open (world st) (config_ (engine st)) with
      | Some (Val e, w) => fst <$> StorageEngine_Get w e key
      | _ => None
      end
  | None => None
  end.

(** The last write of "a" survives a crash before it has reached the memtable. *)
Example crash_before_memtable :
  read_after_crash (lit "a") (writers_run (take 7 overlapping) (mkWriters ∅ eager_open.1 eager_open.2))
  = Some (Val (Some (lit "3"))).
Proof. vm_compute. reflexivity. Qed.
