(* ===== verification/EngineSessions.v ===== *)
(** * Several sessions on the same files

    A history of clients that write, delete and flush, interrupted by crashes
    (the process dies and a new engine opens the files) and by clean restarts (the
    destructor runs first, with its final flush).  The table counter of the
    engine starts at 1 in every session, so that a flush in a session that found
    tables writes over one of them (EngineScenarios.v); [numbering_kept] is the
    check, along the history, that no flush meets that situation.  Histories
    that pass it lose nothing, however many sessions they have. *)

From S2P Require Import Prelude Status BinarySerializer Mt19937 SkipList MemTable FileSystem Wal Recovery Checkpoint BloomFilter Block SSTable Compaction CompactionMerge BlockCache Engine EngineCorrect.

Inductive session_op : Set :=
  | Op (op : engine_op)
  | Crash
  | Restart.

Definition session_log (ops : list session_op) : list WALEntry :=
  mjoin ((fun op => match op with Op op => op_log op | _ => [] end) <$> ops).

Definition session_op_ok (op : session_op) : Prop := match op with Op op => op_ok op | _ => True end.

#[export] Instance session_op_ok_dec op : Decision (session_op_ok op).
Proof. destruct op; cbn [session_op_ok]; apply _. Defined.

Section sessions.
Context {abi : Abi} {sort : StdSort}.

Definition open_again (w : World) (e : StorageEngine) : option (Status * StorageEngine * World) :=
  match StorageEngine_Open w (config_ e) with
  | None => None
  | Some (Err s, w) => Some (s, e, w)
  | Some (Val e, w) => Some (StatusOk, e, w)
  end.

Definition session_step (w : World) (e : StorageEngine) (op : session_op) : option (Status * StorageEngine * World) :=
  match op with
  | Op op => engine_step w e op
  | Crash => open_again w e
  | Restart => match StorageEngine_destroy w e with None => None | Some w => open_again w e end
  end.

(** The statuses returned, in order, and the final state. *)
Fixpoint sessions_run (w : World) (e : StorageEngine) (ops : list session_op) :
    option (list Status * StorageEngine * World) :=
  match ops with
  | [] => Some ([], e, w)
  | op :: ops =>
      match session_step w e op with
      | None => None
      | Some (s, e, w) =>
          match sessions_run w e ops with
          | None => None
          | Some (ss, e, w) => Some (s :: ss, e, w)
          end
      end
  end.

(** Whether a step writes out the memtable. *)
Definition fills (w : World) (e : StorageEngine) (type : WALEntryType) (key : str) (value : bytes) : bool :=
  match WriteEntry_log w e type key value with
  | Some (_, e, _) => match WriteEntry_apply e type key value with Some (needs_flush, _) => needs_flush | None => false end
  | None => false
  end.

Definition has_pending (e : StorageEngine) : bool :=
  match active_memtable_ e with
  | Some mt => match MemTable_IsEmpty mt with Some empty => negb empty | None => false end
  | None => false
  end.

Definition writes_table (w : World) (e : StorageEngine) (op : session_op) : bool :=
  match op with
  | Op (OpPut key value) => fills w e kPut key value
  | Op (OpDelete key) => fills w e kDelete key []
  | Op OpFlush | Restart => has_pending e
  | Crash => false
  end.

(** The next table number is the one behind the catalogued tables. *)
Definition counter_current (e : StorageEngine) : bool :=
  next_sst_sequence_ e =? 1 + Z.of_nat (length (files_ (compaction_manager_ e))).

Fixpoint numbering_kept (w : World) (e : StorageEngine) (ops : list session_op) : bool :=
  match ops with
  | [] => true
  | op :: ops =>
      (negb (writes_table w e op) || counter_current e) &&
      match session_step w e op with None => true | Some (_, e, w) => numbering_kept w e ops end
  end.

(** ** One step *)

Lemma counter_current_inv cfg w e segs cur :
  engine_view cfg w e segs cur -> counter_current e = true -> engine_inv cfg w e segs cur.
Proof.
  intros Hv Hc. split; [done|]. apply Z.eqb_eq in Hc. by rewrite Hc, (proj1 (ev_files _ _ _ _ _ Hv)).
Qed.

Lemma WAL_destroy_state w wal es : wal_state w wal es -> WAL_destroy w wal = w.
Proof.
  intros Hws. unfold WAL_destroy. rewrite (ws_stream _ _ _ Hws), ofs_flush_healthy by apply Hws. cbn [snd].
  unfold append_file. rewrite (ws_file _ _ _ Hws). cbn [default]. rewrite app_nil_r, insert_id by apply Hws. by destruct w.
Qed.

Lemma has_pending_view cfg w e segs cur :
  engine_view cfg w e segs cur -> has_pending e = negb (bool_decide (cur = [])).
Proof.
  intros Hv. destruct (ev_mem _ _ _ _ _ Hv) as (mt & Hmt & Hrepr).
  unfold has_pending. rewrite Hmt, (mt_is_empty_repr _ _ Hrepr). f_equal. apply bool_decide_ext, segment_map_nil.
Qed.

Lemma open_again_spec cfg w e segs cur e0 :
  engine_view cfg w e segs cur -> config_ e0 = cfg ->
  exists e', open_again w e0 = Some (StatusOk, e', w) /\ engine_view cfg w e' segs cur.
Proof.
  intros Hv Hc. destruct (engine_reopen cfg w e segs cur Hv) as (e' & Ho & Hv' & _).
  exists e'. unfold open_again. by rewrite Hc, Ho.
Qed.

(** A write that does not fill the memtable needs no table number. *)
Lemma WriteEntry_view cfg w e segs cur type key value :
  config_ok cfg -> engine_view cfg w e segs cur -> write_ok type key value ->
  log_cost (mjoin segs ++ cur) + entry_cost (mkWALEntry 0 type key value) < 2 ^ 30 ->
  negb (fills w e type key value) || counter_current e = true ->
  exists e' w' segs' cur', WriteEntry w e type key value = Some (StatusOk, e', w') /\
    engine_view cfg w' e' segs' cur' /\
    strip <$> (mjoin segs' ++ cur') = (strip <$> (mjoin segs ++ cur)) ++ [mkWALEntry 0 type key value].
Proof.
  intros Hcfg Hv Hok Hcost [Hf|Hc]%orb_true_iff.
  - destruct (write_log_apply cfg w e segs cur type key value Hv Hok Hcost)
      as (e1 & w1 & needs & e2 & Hlog & Happly & Hv2 & _).
    unfold fills in Hf. rewrite Hlog, Happly in Hf. destruct needs; [done|].
    exists e2, w1, segs. eexists. unfold WriteEntry. rewrite Hlog. change (negb (IsOk StatusOk)) with false.
    cbn beta iota. rewrite Happly. split; [done|]. split; [exact Hv2|]. by rewrite app_assoc, fmap_app.
  - destruct (WriteEntry_spec cfg w e segs cur type key value Hcfg (counter_current_inv _ _ _ _ _ Hv Hc) Hok Hcost)
      as (e' & w' & segs' & cur' & Hrun & [Hv' _] & Hlog). eauto 10.
Qed.

Lemma FlushMemTable_view cfg w e segs cur :
  config_ok cfg -> engine_view cfg w e segs cur -> negb (has_pending e) || counter_current e = true ->
  exists e' w' segs', FlushMemTable w e = Some (StatusOk, e', w') /\ engine_view cfg w' e' segs' [] /\
    mjoin segs' = mjoin segs ++ cur.
Proof.
  intros Hcfg Hv [Hp|Hc]%orb_true_iff.
  - rewrite (has_pending_view _ _ _ _ _ Hv), negb_involutive in Hp. apply bool_decide_eq_true in Hp as ->.
    destruct (ev_mem _ _ _ _ _ Hv) as (mt & Hmt & Hrepr). exists e, w, segs. unfold FlushMemTable.
    rewrite (Flush_swap_run e mt _ Hmt Hrepr), bool_decide_true by done. by rewrite app_nil_r.
  - destruct (FlushMemTable_spec cfg w e segs cur Hcfg (counter_current_inv _ _ _ _ _ Hv Hc))
      as (e' & w' & segs' & Hrun & [Hv' _] & Hj). eauto 10.
Qed.

Lemma destroy_view cfg w e segs cur :
  config_ok cfg -> engine_view cfg w e segs cur -> negb (has_pending e) || counter_current e = true ->
  exists e' w' segs', StorageEngine_destroy w e = Some w' /\ engine_view cfg w' e' segs' [] /\
    mjoin segs' = mjoin segs ++ cur.
Proof.
  intros Hcfg Hv Hp.
  destruct (FlushMemTable_view cfg w e segs cur Hcfg Hv Hp) as (e' & w' & segs' & Hrun & Hv' & Hj).
  destruct (ev_mem _ _ _ _ _ Hv) as (mt & Hmt & Hrepr). unfold StorageEngine_destroy.
  destruct (ev_wal _ _ _ _ _ Hv) as (wal & Hwal & _ & Hws). destruct (ev_wal _ _ _ _ _ Hv') as (wal' & Hwal' & _ & Hws').
  rewrite Hmt, (mt_is_empty_repr _ _ Hrepr). case_bool_decide as Hemp.
  - unfold FlushMemTable in Hrun. rewrite (Flush_swap_run e mt _ Hmt Hrepr), bool_decide_true in Hrun by done.
    injection Hrun as <- <-. exists e, w, segs'. rewrite Hwal, (WAL_destroy_state _ _ _ Hws). done.
  - rewrite Hrun, Hwal', (WAL_destroy_state _ _ _ Hws'). eauto 10.
Qed.

Lemma session_step_spec cfg w e segs cur op :
  config_ok cfg -> engine_view cfg w e segs cur -> session_op_ok op ->
  log_cost (mjoin segs ++ cur) + log_cost (session_log [op]) < 2 ^ 30 ->
  negb (writes_table w e op) || counter_current e = true ->
  exists e' w' segs' cur', session_step w e op = Some (StatusOk, e', w') /\ engine_view cfg w' e' segs' cur' /\
    strip <$> (mjoin segs' ++ cur') = (strip <$> (mjoin segs ++ cur)) ++ session_log [op].
Proof.
  intros Hcfg Hv Hok Hcost Hnum. destruct op as [[key value|key|]| |]; cbn [session_step engine_step writes_table] in *.
  - apply WriteEntry_view; [done|done|done| |done].
    change (session_log _) with [mkWALEntry 0 kPut key value] in Hcost.
    rewrite log_cost_cons in Hcost. change (log_cost []) with 0 in Hcost. lia.
  - apply WriteEntry_view; [done|done|done| |done].
    change (session_log _) with [mkWALEntry 0 kDelete key []] in Hcost.
    rewrite log_cost_cons in Hcost. change (log_cost []) with 0 in Hcost. lia.
  - destruct (FlushMemTable_view cfg w e segs cur Hcfg Hv Hnum) as (e' & w' & segs' & Hrun & Hv' & Hj).
    exists e', w', segs', []. change (session_log _) with (@nil WALEntry). by rewrite !app_nil_r, Hj.
  - destruct (open_again_spec cfg w e segs cur e Hv (ev_config _ _ _ _ _ Hv)) as (e' & Hrun & Hv').
    exists e', w, segs, cur. change (session_log _) with (@nil WALEntry). by rewrite app_nil_r.
  - destruct (destroy_view cfg w e segs cur Hcfg Hv Hnum) as (e1 & w1 & segs' & -> & Hv1 & Hj).
    destruct (open_again_spec cfg w1 e1 segs' [] e Hv1 (ev_config _ _ _ _ _ Hv)) as (e' & Hrun & Hv').
    exists e', w1, segs', []. change (session_log _) with (@nil WALEntry). by rewrite !app_nil_r, Hj.
Qed.

Lemma session_log_cons op ops : session_log (op :: ops) = session_log [op] ++ session_log ops.
Proof. unfold session_log. rewrite !fmap_cons, fmap_nil, !mjoin_cons. cbn [mjoin list_join]. by rewrite app_nil_r. Qed.

Lemma sessions_run_spec cfg ops : forall w e segs cur,
  config_ok cfg -> engine_view cfg w e segs cur -> Forall session_op_ok ops ->
  log_cost (mjoin segs ++ cur) + log_cost (session_log ops) < 2 ^ 30 -> numbering_kept w e ops = true ->
  exists ss e' w' segs' cur', sessions_run w e ops = Some (ss, e', w') /\ Forall (fun s => s = StatusOk) ss /\
    engine_view cfg w' e' segs' cur' /\
    strip <$> (mjoin segs' ++ cur') = (strip <$> (mjoin segs ++ cur)) ++ session_log ops.
Proof.
  induction ops as [|op ops IH]; intros w e segs cur Hcfg Hv Hok Hcost Hnum; cbn [sessions_run numbering_kept] in *.
  - exists [], e, w, segs, cur. change (session_log []) with (@nil WALEntry). rewrite app_nil_r. by split_and!.
  - apply Forall_cons in Hok as [Hop Hok]. apply andb_true_iff in Hnum as [Hnum1 Hnum].
    rewrite session_log_cons, (log_cost_app (session_log [op])) in Hcost. pose proof (log_cost_count (session_log ops)).
    destruct (session_step_spec cfg w e segs cur op Hcfg Hv Hop) as (e1 & w1 & segs1 & cur1 & Hs & Hv1 & Hl1); [lia|done|].
    rewrite Hs in Hnum |- *.
    destruct (IH w1 e1 segs1 cur1 Hcfg Hv1 Hok) as (ss & e2 & w2 & segs2 & cur2 & -> & Hss & Hv2 & Hl2); [|done|].
    { rewrite <-(log_cost_strip (mjoin segs1 ++ cur1)), Hl1, log_cost_app, log_cost_strip. lia. }
    exists (StatusOk :: ss), e2, w2, segs2, cur2. split_and!; try done; [by constructor|].
    rewrite Hl2, Hl1, (session_log_cons op ops). by rewrite <-app_assoc.
Qed.

(** A first session passes the check, whatever it does. *)
Lemma first_session_numbered cfg ops : forall w e segs cur,
  config_ok cfg -> engine_inv cfg w e segs cur -> Forall op_ok ops ->
  log_cost (mjoin segs ++ cur) + log_cost (ops_log ops) < 2 ^ 30 -> numbering_kept w e (Op <$> ops) = true.
Proof.
  induction ops as [|op ops IH]; intros w e segs cur Hcfg Hinv Hok Hcost; [done|].
  apply Forall_cons in Hok as [Hop Hok]. unfold ops_log in Hcost. rewrite fmap_cons, mjoin_cons in Hcost.
  fold (ops_log ops) in Hcost. rewrite (log_cost_app (op_log op)) in Hcost. pose proof (log_cost_count (ops_log ops)).
  destruct (engine_step_spec cfg w e segs cur op Hcfg Hinv Hop) as (e1 & w1 & segs1 & cur1 & Hs & Hinv1 & Hl1); [lia|].
  rewrite fmap_cons. cbn [numbering_kept session_step]. rewrite Hs. apply andb_true_iff. split.
  - apply orb_true_iff. right. apply Z.eqb_eq. destruct Hinv as [Hv ->].
    by rewrite (proj1 (ev_files _ _ _ _ _ Hv)).
  - apply (IH w1 e1 segs1 cur1 Hcfg Hinv1 Hok).
    rewrite <-(log_cost_strip (mjoin segs1 ++ cur1)), Hl1, log_cost_app, log_cost_strip. lia.
Qed.
End sessions.

(** * Properties *)

(** C9. Any number of sessions: after any history of puts, deletes, flushes,
    crashes and clean restarts on a new engine, without I/O faults, in which every
    flush finds the table counter one past the catalogued tables, every operation
    and every reopening has succeeded, every key whose last write is not a
    deletion reads as that write (a key never written as absent), and
    an engine opened on the files at the end reads every key as the last
    engine did. *)
Theorem engine_sessions {abi : Abi} {sort : StdSort} (cfg : StorageConfig) (e0 : StorageEngine) (w0 : World)
    (ops : list session_op)
    (Hcfg : config_ok cfg) (Hopen : StorageEngine_Open (mkWorld ∅ []) cfg = Some (Val e0, w0))
    (Hops : Forall session_op_ok ops) (Hcost : log_cost (session_log ops) < 2 ^ 30)
    (Hnum : numbering_kept w0 e0 ops = true) :
  exists ss e w e', sessions_run w0 e0 ops = Some (ss, e, w) /\ Forall (fun s => s = StatusOk) ss /\
    (forall key, not_deleted (session_log ops) key = true ->
       StorageEngine_Get w e key = Some (Val (visible_at (session_log ops) key), w)) /\
    StorageEngine_Open w cfg = Some (Val e', w) /\
    forall key, exists v,
      StorageEngine_Get w e key = Some (Val v, w) /\ StorageEngine_Get w e' key = Some (Val v, w).
Proof.
  destruct (engine_open_fresh cfg (mkWorld ∅ [])) as (e1 & w1 & Hopen' & Hv0 & _); [done|done|done|].
  rewrite Hopen in Hopen'. injection Hopen' as <- <-.
  destruct (sessions_run_spec cfg ops w0 e0 [] [] Hcfg Hv0 Hops Hcost Hnum)
    as (ss & e & w & segs & cur & Hrun & Hss & Hv & Hlog).
  destruct (engine_reopen cfg w e segs cur Hv) as (e' & Ho & Hv' & _).
  exists ss, e, w, e'. split_and!; try done.
  - intros key Hnd. by rewrite (Get_view cfg w e segs cur key Hv), (view_get_current _ _ (session_log ops)).
  - intros key. exists (view_get segs cur key). split; by apply (Get_view cfg).
Qed.

(** ** Witness *)

#[local] Existing Instance x86_64_libstdcxx.
#[local] Existing Instance insertion_std_sort.

Definition opened : StorageEngine * World := result_of sample_config (StorageEngine_Open (mkWorld ∅ []) sample_config).

(** A crash before the first flush, two flushes, and three more sessions. *)
Definition sample_history : list session_op :=
  [Op (OpPut (lit "a") (lit "1")); Crash; Op (OpPut (lit "b") (lit "2")); Op OpFlush; Op (OpPut (lit "a") (lit "3"));
   Restart; Op (OpDelete (lit "a")); Crash; Op (OpPut (lit "c") (lit "4")); Op (OpPut (lit "a") (lit "5")); Crash].

Lemma engine_sessions_witness :
  exists ss e w, sessions_run opened.2 opened.1 sample_history = Some (ss, e, w) /\
    StorageEngine_Get w e (lit "a") = Some (Val (Some (lit "5")), w) /\
    StorageEngine_Get w e (lit "b") = Some (Val (Some (lit "2")), w).
Proof.
  destruct (engine_sessions sample_config opened.1 opened.2 sample_history) as (ss & e & w & e' & Hrun & _ & Hget & _).
  - reflexivity.
  - vm_compute. reflexivity.
  - by_vm.
  - reflexivity.
  - vm_compute. reflexivity.
  - exists ss, e, w. split; [exact Hrun|]. split; [exact (Hget (lit "a") eq_refl)|exact (Hget (lit "b") eq_refl)].
Defined.

(** A flush in the session behind a restart does not pass the check: it writes
    over the first table of the session before. *)
Example restart_then_flush_refused :
  numbering_kept opened.2 opened.1
    [Op (OpPut (lit "a") (lit "1")); Restart; Op (OpPut (lit "b") (lit "2")); Op OpFlush] = false.
Proof. vm_compute. reflexivity. Qed.
