(* ===== verification/EngineStats.v ===== *)
(** * The statistics of the engine

    The counters that [StorageEngine] and [BlockCache] publish
    (storage_engine.h, block_cache.h), and what they count: the records of the log, the
    tables of the catalogue, and, for the cache, nothing, since no operation of
    the engine uses it. *)

From S2P Require Import Prelude Status BinarySerializer Mt19937 SkipList MemTable FileSystem Wal Recovery Checkpoint BloomFilter Block SSTable Compaction CompactionMerge BlockCache Engine EngineCorrect.

(** ** Accessors *)

Definition hits (c : BlockCache) : Z := hits_ c.
Definition misses (c : BlockCache) : Z := misses_ c.

Definition wal_writes (e : StorageEngine) : Z := wal_writes_ e.
Definition memtable_flushes (e : StorageEngine) : Z := memtable_flushes_ e.
Definition cache_hits (e : StorageEngine) : Z := hits (block_cache_ e).
Definition cache_misses (e : StorageEngine) : Z := misses (block_cache_ e).

(** ** The counters along a run *)

(** [writes] records, as many flushes as tables, modulo the width of the
    counters, and an untouched cache. *)
Record counted (cache : BlockCache) (writes : Z) (e : StorageEngine) : Prop := {
  cn_writes : wal_writes_ e = u64 writes;
  cn_flushes : memtable_flushes_ e = u64 (Z.of_nat (length (files_ (compaction_manager_ e))));
  cn_cache : block_cache_ e = cache
}.

Section stats.
Context {abi : Abi} {sort : StdSort}.
Variable cache : BlockCache.

Lemma AddFile_length cm meta s cm' :
  AddFile cm meta = (s, cm') -> IsOk s = true -> length (files_ cm') = S (length (files_ cm)).
Proof.
  unfold AddFile. destruct (_ || _); intros [= <- <-] Hs; [done|]. cbn [set_files files_]. rewrite length_app. cbn. lia.
Qed.

Lemma Flush_write_counted w e mt lsn n e' w' :
  counted cache n e -> Flush_write w e mt lsn = Some (StatusOk, e', w') -> counted cache n e'.
Proof.
  intros [Hn Hf Hc]. unfold Flush_write. destruct (MemTable_entries mt) as [iter|]; [|done].
  destruct (SSTableWriter_Write w _ iter) as [[s1 w1]|]; [|done].
  destruct (IsOk s1) eqn:G1; cbn [negb]; [|intros [= -> _ _]; done].
  destruct (fs_file_size w1 _) as [size|]; [|done]. destruct (key_range w1 _) as [[lo hi] w2].
  destruct (AddFile _ _) as [s3 cm3] eqn:E3. destruct (IsOk s3) eqn:G3; cbn [negb]; [|intros [= -> _ _]; done].
  pose proof (AddFile_length _ _ _ _ E3 G3) as Hlen.
  destruct (SaveCheckpoint w2 _ _) as [s4 w4]. destruct (IsOk s4) eqn:G4; cbn [negb]; [|intros [= -> _ _]; done].
  intros [= <- <-]. cbn in Hlen. split; cbn; [done| |done]. rewrite Hf, Hlen, u64_add_l. f_equal. lia.
Qed.

Lemma FlushMemTable_counted w e n e' w' :
  counted cache n e -> FlushMemTable w e = Some (StatusOk, e', w') -> counted cache n e'.
Proof.
  intros Hn. unfold FlushMemTable, Flush_swap. destruct (active_memtable_ e) as [mt|]; [|done].
  destruct (MemTable_IsEmpty mt) as [[|]|]; [by intros [= <- _]| |done].
  destruct (Flush_lsn _) as [lsn|]; [|done]. apply Flush_write_counted. by destruct Hn.
Qed.

Lemma WriteEntry_counted w e type key value n e' w' :
  counted cache n e -> WriteEntry w e type key value = Some (StatusOk, e', w') -> counted cache (n + 1) e'.
Proof.
  intros [Hn Hf Hc]. unfold WriteEntry, WriteEntry_log. destruct (wal_ e) as [wal|]; [|done].
  destruct (WAL_Append w wal _) as [[[q|s] wal'] w1] eqn:Ea.
  - change (negb (IsOk StatusOk)) with false. cbn beta iota. set (e1 := set_counters _ _ _ _).
    assert (counted cache (n + 1) e1) as H1 by (split; cbn; [by rewrite Hn, u64_add_l|done|done]).
    unfold WriteEntry_apply. destruct (active_memtable_ e1) as [mt|]; [|done].
    destruct (if bool_decide _ then _ else _) as [mt'|]; [|done]. set (e2 := set_memtables _ _ _).
    assert (counted cache (n + 1) e2) as H2 by (by destruct H1).
    destruct (_ <=? _); [by apply FlushMemTable_counted|by intros [= <- _]].
  - apply WAL_Append_error in Ea. rewrite Ea. cbn [negb]. intros [= -> _ _]. done.
Qed.

Lemma engine_run_counted ops : forall w e n ss e' w',
  counted cache n e -> engine_run w e ops = Some (ss, e', w') -> Forall (fun s => s = StatusOk) ss ->
  counted cache (n + Z.of_nat (length (ops_log ops))) e'.
Proof.
  induction ops as [|op ops IH]; intros w e n ss e' w' Hn; cbn [engine_run].
  - intros [= _ <- _] _. by rewrite Z.add_0_r.
  - destruct (engine_step w e op) as [[[s e1] w1]|] eqn:Es; [|done].
    destruct (engine_run w1 e1 ops) as [[[ss1 e2] w2]|] eqn:Er; [|done]. intros [= <- <- <-] [-> Hss]%Forall_cons.
    unfold ops_log. rewrite fmap_cons, mjoin_cons, length_app, Nat2Z.inj_add, Z.add_assoc. fold (ops_log ops).
    apply (IH w1 e1 _ ss1 e2 w2); [|done|done]. destruct op; cbn [engine_step op_log length] in *.
    + by eapply WriteEntry_counted.
    + by eapply WriteEntry_counted.
    + rewrite Z.add_0_r. by eapply FlushMemTable_counted.
Qed.
End stats.

(** Recovery does not count. *)
Lemma Recover_counters {abi : Abi} w e s e' w' :
  Recover w e = Some (s, e', w') ->
  wal_writes_ e' = wal_writes_ e /\ memtable_flushes_ e' = memtable_flushes_ e /\ block_cache_ e' = block_cache_ e.
Proof.
  unfold Recover. destruct (LoadCheckpoint w _) as [[cp|s1] w1]; [|by intros [= _ <- _]].
  destruct (add_files _ _) as [s2 cm]. destruct (negb _); [by intros [= _ <- _]|].
  destruct (WAL_Open w1 _) as [[wal|s3] w3]; [|by intros [= _ <- _]].
  destruct (RecoverMemTable _ _ _ _) as [[[[n|s4] mt] w4]|]; [| |done]; by intros [= _ <- _].
Qed.

(** * Properties *)

(** C14. The statistics are exact: after any sequence of puts, deletes and flushes
    on a new engine without I/O faults, [wal_writes] is the number of puts
    and deletes, [memtable_flushes] the number of tables in the catalogue,
    and the hits and misses of the block cache are both zero, since no
    operation of the engine consults it. *)
Theorem engine_statistics {abi : Abi} {sort : StdSort} (cfg : StorageConfig) (ops : list engine_op)
    (Hcfg : config_ok cfg) (Hops : Forall op_ok ops) (Hcost : log_cost (ops_log ops) < 2 ^ 30) :
  exists ss e w, run_fresh cfg ops = Some (ss, e, w) /\
    wal_writes e = Z.of_nat (length (ops_log ops)) /\
    memtable_flushes e = Z.of_nat (length (AllFiles (compaction_manager_ e))) /\
    cache_hits e = 0 /\ cache_misses e = 0.
Proof.
  destruct (run_fresh_spec cfg ops Hcfg Hops Hcost) as (ss & e & w & segs & cur & Hrun & Hss & Hinv & _).
  exists ss, e, w. split; [done|].
  destruct (engine_open_fresh cfg (mkWorld ∅ [])) as (e0 & w0 & Ho & [Hv _]); [done..|].
  unfold run_fresh in Hrun. rewrite Ho in Hrun.
  assert (counted (BlockCache_new (block_cache_mb cfg)) 0 e0) as H0.
  { unfold StorageEngine_Open in Ho. destruct (Recover _ _) as [[[s e1] w1]|] eqn:Er; [|done].
    apply Recover_counters in Er as (E1 & E2 & E3). destruct (negb (IsOk s)).
    { by destruct (StorageEngine_destroy w1 e1). }
    injection Ho as <- _. split; [done| |done]. rewrite E2. destruct (ev_files _ _ _ _ _ Hv) as [Hlen _].
    by rewrite Hlen. }
  destruct (engine_run_counted _ ops w0 e0 0 ss e w H0 Hrun Hss) as [Hw Hf Hc].
  apply engine_inv_store in Hinv as [Hst _]. pose proof (store_bounds _ _ _ _ _ Hst) as (Hb & _).
  pose proof (log_cost_count (ops_log ops)). destruct (st_files _ _ _ _ _ Hst) as [Hlen _].
  unfold wal_writes, memtable_flushes, AllFiles, cache_hits, cache_misses, hits, misses.
  rewrite Hw, Hf, Hc, Hlen, !u64_small by lia. done.
Qed.

#[local] Existing Instance x86_64_libstdcxx.
#[local] Existing Instance insertion_std_sort.

Lemma engine_statistics_witness :
  exists ss e w, run_fresh sample_config sample_ops = Some (ss, e, w) /\ wal_writes e = 4 /\
    memtable_flushes e = Z.of_nat (length (AllFiles (compaction_manager_ e))) /\ cache_hits e = 0 /\ cache_misses e = 0.
Proof.
  apply (engine_statistics sample_config sample_ops); [reflexivity|exact sample_ops_ok|reflexivity].
Defined.
