(* ===== verification/CompactionReads.v ===== *)
(** * A compaction pass does not change what is read

    The merge of CompactionMerge.v and the selection of Compaction.v composed
    with the read path of Engine.v: under a catalogue in which a version of a
    key is newer the higher its level (and, on level 0, the higher its sequence
    number), [RunCompaction] and the pass of the background loop around it
    leave the answer to every read as it was, and the catalogue in order.

    One condition is about the code's renumbering of the level-0 files by their
    place in the order by smallest key: [position_is_age] says that this place
    agrees with the age of the files that share a key.  Where it does not hold
    the pass may bring back an older version (see
    [compaction_keeps_older_version] in CompactionMerge.v). *)

From S2P Require Import Prelude Status BinarySerializer Mt19937 SkipList MemTable FileSystem Wal Recovery Checkpoint BloomFilter Block SSTable Compaction CompactionMerge BlockCache Engine EngineCorrect.

#[export] Instance zsum_proper : Proper ((≡ₚ) ==> (=)) zsum.
Proof. intros l1 l2. apply zsum_perm. Qed.

#[export] Instance encoded_sum_proper : Proper ((≡ₚ) ==> (=)) encoded_sum.
Proof. intros es1 es2 H. unfold encoded_sum. by rewrite H. Qed.

(** ** The contents of the catalogue *)

(** What a reader of the file finds. *)
Definition entries_of (w : World) (m : SSTableMeta) : list BlockEntry :=
  match SSTableReader_Open w (filepath m) with
  | (Val rd, w') => match SSTableReader_ReadAll w' rd with (Val es, _) => es | _ => [] end
  | _ => []
  end.

(** The version of [k] in the file. *)
Definition version (w : World) (k : str) (m : SSTableMeta) : option BlockEntry := find_key (entries_of w m) k.

Record table_file (w : World) (m : SSTableMeta) : Prop := {
  tf_table : holds_table w (filepath m) (entries_of w m);
  tf_plain : Forall tombstone_plain (entries_of w m);
  tf_keys : Forall (fun e => be_key e <> []) (entries_of w m);
  tf_range : exists first last', head (entries_of w m) = Some first /\ last (entries_of w m) = Some last' /\
    smallest_key m = be_key first /\ largest_key m = be_key last'
}.

(** Files on levels with one version of a key per level, except on level 0,
    where sequence numbers tell the versions apart. *)
Record catalogue_ok (w : World) (cm : CompactionManager) : Prop := {
  co_healthy : healthy w;
  co_tables : forall m, m ∈ files_ cm -> table_file w m;
  co_paths : NoDup (filepath <$> files_ cm);
  co_levels : forall m, m ∈ files_ cm -> 0 <= level m < max_level_ cm;
  co_versions : forall m m' k, m ∈ files_ cm -> m' ∈ files_ cm -> m <> m' -> level m = level m' ->
    is_Some (version w k m) -> is_Some (version w k m') ->
    level m = 0 /\ sequence_number m <> sequence_number m'
}.

Lemma entries_of_holds w m es : healthy w -> holds_table w (filepath m) es -> entries_of w m = es.
Proof.
  intros Hw Ht. destruct (holds_table_at w _ es Hw Ht) as (rd & Ho & _ & Ha & _).
  unfold entries_of. by rewrite Ho, Ha.
Qed.

Lemma table_file_sorted w m : table_file w m -> sorted_entries (entries_of w m).
Proof. intros [(bs & bloom & _ & [] & <-) _ _ _]. done. Qed.

(** Only the contents of the file matter. *)
Lemma table_file_frame w w' m :
  healthy w' -> files w' !! filepath m = files w !! filepath m -> table_file w m ->
  table_file w' m /\ entries_of w' m = entries_of w m.
Proof.
  intros Hw' Hf [Ht Hp Hk Hr].
  assert (holds_table w' (filepath m) (entries_of w m)) as Ht'.
  { destruct Ht as (bs & bloom & H & ?). exists bs, bloom. by rewrite Hf. }
  pose proof (entries_of_holds w' m _ Hw' Ht') as E. split; [|done]. split; by rewrite E.
Qed.

Lemma version_key w k m e : version w k m = Some e -> e ∈ entries_of w m /\ be_key e = k.
Proof. apply find_key_Some. Qed.

(** ** The version that is read *)

Definition client_value (o : option BlockEntry) : option bytes :=
  match o with
  | Some e => if be_is_tombstone e then None else Some (be_value e)
  | None => None
  end.

(** The first version along a list of files. *)
Fixpoint first_version (w : World) (k : str) (fs : list SSTableMeta) : option BlockEntry :=
  match fs with
  | [] => None
  | m :: fs => match version w k m with Some e => Some e | None => first_version w k fs end
  end.

Lemma search_first w fs k :
  healthy w -> (forall m, m ∈ fs -> table_file w m) ->
  search_tables w fs k = Some (Val (client_value (first_version w k fs)), w).
Proof.
  intros Hw. induction fs as [|m fs IH]; intros Hall; [done|].
  pose proof (Hall m ltac:(by left)) as Hm. pose proof (table_file_sorted w m Hm) as Hs.
  destruct Hm as [Ht _ _ (first & last' & Hh & Hl & Es & El)].
  rewrite (search_tables_cons w m fs k _ first last' Hw Ht Hs Hh Hl Es El). cbn [first_version].
  unfold version. destruct (find_key (entries_of w m) k) as [e|]; [done|]. apply IH. intros m' Hm'. apply Hall. by right.
Qed.

(** [e] is the current version of [k]: all others are older. *)
Definition current (w : World) (fs : list SSTableMeta) (k : str) (o : option BlockEntry) : Prop :=
  match o with
  | None => forall m, m ∈ fs -> version w k m = None
  | Some e => exists m, m ∈ fs /\ version w k m = Some e /\
      forall m', m' ∈ fs -> m' <> m -> is_Some (version w k m') -> newer_first m m' = true
  end.

(** The order of the search among files that are not equivalent in it. *)
Lemma newer_first_spec a b :
  newer_first a b = true <-> level a < level b \/ (level a = level b /\ sequence_number b < sequence_number a).
Proof.
  unfold newer_first. destruct (Z.eqb_spec (level a) (level b)); cbn [negb]; rewrite Z.ltb_lt; lia.
Qed.

Lemma first_version_None w k fs : first_version w k fs = None <-> forall m, m ∈ fs -> version w k m = None.
Proof.
  induction fs as [|m fs IH]; cbn [first_version]; [split; [|done]; intros _ m Hm; by apply not_elem_of_nil in Hm|].
  destruct (version w k m) as [e|] eqn:E.
  - split; [done|]. intros H. by rewrite (H m ltac:(by left)) in E.
  - rewrite IH. split; intros H m' Hm'.
    + apply elem_of_cons in Hm' as [->|Hm']; auto.
    + apply H. by right.
Qed.

Lemma first_version_Some w k fs e :
  first_version w k fs = Some e -> exists l1 m l2, fs = l1 ++ m :: l2 /\ version w k m = Some e /\
    forall m', m' ∈ l1 -> version w k m' = None.
Proof.
  induction fs as [|m fs IH]; cbn [first_version]; [done|]. destruct (version w k m) as [e'|] eqn:E.
  - intros [= ->]. exists [], m, fs. split; [done|]. split; [done|]. intros m' Hm'. by apply not_elem_of_nil in Hm'.
  - intros (l1 & m0 & l2 & -> & Hm0 & Hl1)%IH. exists (m :: l1), m0, l2. split; [done|]. split; [done|].
    intros m' [->|Hm']%elem_of_cons; auto.
Qed.

Lemma newer_first_asym a b : newer_first a b = true -> newer_first b a = true -> False.
Proof. rewrite !newer_first_spec. lia. Qed.

Lemma current_unique w fs k o o' : current w fs k o -> current w fs k o' -> o = o'.
Proof.
  destruct o as [e|], o' as [e'|]; cbn [current].
  - intros (m & Hm & Hv & Hall) (m' & Hm' & Hv' & Hall').
    destruct (decide (m = m')) as [->|Hne]; [congruence|]. exfalso.
    eapply newer_first_asym; [apply (Hall m')|apply (Hall' m)]; eauto.
  - intros (m & Hm & Hv & _) H. by rewrite (H m Hm) in Hv.
  - intros H (m & Hm & Hv & _). by rewrite (H m Hm) in Hv.
  - done.
Qed.

(** Two versions of a key in the catalogue are never equivalent. *)
Lemma versions_comparable w cm m m' k :
  catalogue_ok w cm -> m ∈ files_ cm -> m' ∈ files_ cm -> m <> m' ->
  is_Some (version w k m) -> is_Some (version w k m') -> newer_first m' m = false -> newer_first m m' = true.
Proof.
  intros Hok Hm Hm' Hne Hv Hv' Hnot. apply not_true_iff_false in Hnot. rewrite newer_first_spec in *.
  destruct (decide (level m = level m')) as [Hl|]; [|lia].
  destruct (co_versions _ _ Hok m m' k Hm Hm' Hne Hl Hv Hv') as [_ Hseq]. lia.
Qed.

(** A key of a table lies in its recorded range. *)
Lemma version_in_range w m k :
  table_file w m -> is_Some (version w k m) -> ~ str_lt k (smallest_key m) /\ ~ str_lt (largest_key m) k.
Proof.
  intros Hm [e Hv]. pose proof (table_file_sorted w m Hm) as Hs.
  destruct Hm as [_ _ _ (first & last' & Hh & Hl & -> & ->)]. unfold version in Hv. 
  destruct (str_ltb k (be_key first) || str_ltb (be_key last') k) eqn:E.
  - by rewrite (out_of_range _ k first last' Hs Hh Hl E) in Hv.
  - apply orb_false_iff in E as [E1 E2]. by split; apply str_ltb_ge.
Qed.

Lemma shared_key_overlaps w k m m' :
  table_file w m -> table_file w m' -> is_Some (version w k m) -> is_Some (version w k m') ->
  OverlapsWith m' (smallest_key m) (largest_key m) = true.
Proof.
  intros Hm Hm' Hv Hv'. destruct (version_in_range w m k Hm Hv) as [H1 H2].
  destruct (version_in_range w m' k Hm' Hv') as [H3 H4].
  apply negb_true_iff, orb_false_iff. split; apply str_ltb_ge.
  - by apply (str_nlt_trans _ k).
  - by apply (str_nlt_trans _ k).
Qed.

Section reads.
Context {sort : StdSort}.

Lemma first_version_current w cm k :
  catalogue_ok w cm -> current w (files_ cm) k (first_version w k (std_sort newer_first (files_ cm))).
Proof.
  intros Hok. pose proof (std_sort_perm newer_first (files_ cm)) as Hperm.
  pose proof (std_sort_sorted newer_first (files_ cm) newer_first_weak) as Hsorted.
  destruct (first_version w k (std_sort newer_first (files_ cm))) as [e|] eqn:E; cbn [current].
  - apply first_version_Some in E as (l1 & m & l2 & El & Hv & Hl1). rewrite El in Hperm, Hsorted.
    assert (forall m', m' ∈ files_ cm <-> m' ∈ l1 ++ m :: l2) as Hin by (intros; by rewrite Hperm).
    assert (m ∈ files_ cm) as Hm by (apply Hin, elem_of_app; right; by left).
    exists m. split; [done|]. split; [done|]. intros m' Hm' Hne [e' Hv'].
    apply (versions_comparable w cm m m' k Hok); eauto.
    apply Hin, elem_of_app in Hm' as [Hm'|Hm']; [by rewrite (Hl1 m' Hm') in Hv'|].
    apply elem_of_cons in Hm' as [->|Hm']; [done|].
    apply StronglySorted_app_1_r in Hsorted. apply StronglySorted_inv in Hsorted as [_ Hall].
    rewrite Forall_forall in Hall. by apply Hall.
  - intros m Hm. apply first_version_None with (1 := E). by rewrite Hperm.
Qed.

Lemma table_read w cm k o :
  catalogue_ok w cm -> current w (files_ cm) k o ->
  search_tables w (std_sort newer_first (files_ cm)) k = Some (Val (client_value o), w).
Proof.
  intros Hok Ho. rewrite search_first.
  - by rewrite (current_unique _ _ _ _ _ (first_version_current w cm k Hok) Ho).
  - apply Hok.
  - intros m Hm. apply (co_tables _ _ Hok). by rewrite std_sort_perm in Hm.
Qed.

(** ** The selected files *)

Lemma selected_submseteq cm src :
  let '(inputs, overlapping) := SelectCompactionFiles cm src in inputs ++ overlapping ⊆+ files_ cm.
Proof.
  unfold SelectCompactionFiles.
  assert (forall l, GetFilesAtLevel cm l ≡ₚ filter (fun f => level f = l) (files_ cm)) as Hp
    by (intros; apply std_sort_perm).
  destruct (GetFilesAtLevel cm src) as [|first rest] eqn:Eg; [apply submseteq_nil_l|].
  destruct (foldl widen _ _) as [lo hi]. 
  assert ((if src =? 0 then first :: rest else [first]) ⊆+ filter (fun f => level f = src) (files_ cm)) as H1.
  { rewrite <-Hp, Eg. destruct (src =? 0); [done|]. apply submseteq_skip, submseteq_nil_l. }
  assert (filter (fun f => OverlapsWith f lo hi = true) (GetFilesAtLevel cm (src + 1)) ⊆+
          filter (fun f => level f = src + 1) (files_ cm)) as H2.
  { rewrite <-Hp. apply sublist_submseteq, sublist_filter. }
  etrans; [exact (submseteq_app _ _ _ _ H1 H2)|].
  clear. induction (files_ cm) as [|f fs IH]; [done|]. rewrite !filter_cons.
  destruct (decide (level f = src)), (decide (level f = src + 1)); try lia.
  - cbn. by apply submseteq_skip.
  - rewrite <-Permutation_middle. by apply submseteq_skip.
  - by apply submseteq_cons.
Qed.

(** The renumbering of the level-0 files agrees with their age where they
    share a key. *)
Definition position_is_age (w : World) (cm : CompactionManager) : Prop :=
  forall i j a b k, GetFilesAtLevel cm 0 !! i = Some a -> GetFilesAtLevel cm 0 !! j = Some b -> (i < j)%nat ->
    is_Some (version w k a) -> is_Some (version w k b) -> sequence_number b < sequence_number a.

(** The inputs of the merge, as [RunCompaction] numbers them. *)
Definition merge_inputs (sources targets : list SSTableMeta) : list SSTableMeta :=
  renumber_sources (Z.of_nat (length sources + length targets)) sources ++ renumber_targets targets.

Lemma merge_inputs_lookup sources targets i m :
  (sources ++ targets) !! i = Some m ->
  merge_inputs sources targets !! i
  = Some (set_sequence m (if (i <? length sources)%nat then Z.of_nat (length sources + length targets) - Z.of_nat i
                          else Z.of_nat (i - length sources))).
Proof.
  intros Hi. unfold merge_inputs, renumber_sources, renumber_targets.
  destruct (Nat.ltb_spec i (length sources)) as [Hlt|Hge].
  - rewrite lookup_app_l in Hi |- * by (rewrite ?length_imap; done). by rewrite list_lookup_imap, Hi.
  - rewrite lookup_app_r in Hi |- * by (rewrite ?length_imap; done).
    rewrite length_imap, list_lookup_imap, Hi. done.
Qed.

Lemma merge_inputs_paths sources targets :
  filepath <$> merge_inputs sources targets = filepath <$> sources ++ targets.
Proof.
  assert (forall g (l : list SSTableMeta), filepath <$> imap (fun i f => set_sequence f (g i)) l = filepath <$> l) as H.
  { intros g l. revert g. induction l as [|f l IH]; intros g; [done|]. rewrite imap_cons. cbn. f_equal. exact (IH (g ∘ S)). }
  unfold merge_inputs, renumber_sources, renumber_targets. rewrite !fmap_app. f_equal; apply H.
Qed.

Lemma length_merge_inputs sources targets : length (merge_inputs sources targets) = length (sources ++ targets).
Proof. unfold merge_inputs, renumber_sources, renumber_targets. by rewrite !length_app, !length_imap. Qed.

Lemma merge_inputs_NoDup sources targets : NoDup (sequence_number <$> merge_inputs sources targets).
Proof.
  apply NoDup_alt. intros i j x Hi Hj. rewrite list_lookup_fmap in Hi, Hj.
  destruct (merge_inputs sources targets !! i) as [mi|] eqn:Ei; [|done].
  destruct (merge_inputs sources targets !! j) as [mj|] eqn:Ej; [|done]. injection Hi as <-. injection Hj as Hx.
  assert (i < length (sources ++ targets) /\ j < length (sources ++ targets))%nat as [Hli Hlj].
  { rewrite <-length_merge_inputs. split; eapply lookup_lt_Some; eauto. }
  destruct (lookup_lt_is_Some_2 _ _ Hli) as [a Ha], (lookup_lt_is_Some_2 _ _ Hlj) as [b Hb].
  rewrite (merge_inputs_lookup _ _ _ _ Ha) in Ei. rewrite (merge_inputs_lookup _ _ _ _ Hb) in Ej.
  injection Ei as <-. injection Ej as <-. cbn [set_sequence sequence_number] in Hx. rewrite length_app in Hli, Hlj.
  destruct (Nat.ltb_spec i (length sources)), (Nat.ltb_spec j (length sources)); lia.
Qed.

Section pass.
Context (w : World) (cm : CompactionManager) (src : Z) (sources targets : list SSTableMeta).
Hypothesis Hok : catalogue_ok w cm.
Hypothesis Hage : position_is_age w cm.
Hypothesis Hsel : SelectCompactionFiles cm src = (sources, targets).
Hypothesis Hsrc : 0 <= src.

Lemma selected_in m : m ∈ sources ++ targets -> m ∈ files_ cm.
Proof. pose proof (selected_submseteq cm src) as H. rewrite Hsel in H. intros Hm. by eapply elem_of_submseteq. Qed.

Lemma selected_levels m :
  (m ∈ sources -> level m = src) /\ (m ∈ targets -> level m = src + 1).
Proof. pose proof (selection_spec cm src m m) as H. rewrite Hsel in H. split; intros; by apply H. Qed.

(** Two sources sit in the order of their age. *)
Lemma sources_by_age i j a b k :
  sources !! i = Some a -> sources !! j = Some b -> (i < j)%nat ->
  is_Some (version w k a) -> is_Some (version w k b) -> newer_first a b = true.
Proof.
  intros Hi Hj Hij Ha Hb. apply newer_first_spec. right.
  rewrite (proj1 (selected_levels a)), (proj1 (selected_levels b)) by (by eapply list_elem_of_lookup_2). split; [done|].
  unfold SelectCompactionFiles in Hsel. destruct (GetFilesAtLevel cm src) as [|first rest] eqn:Eg; [by injection Hsel as <- <-|].
  destruct (foldl widen _ _) as [lo hi]. injection Hsel as Hs _. destruct (Z.eqb_spec src 0) as [->|Hne].
  - rewrite <-Hs, <-Eg in Hi, Hj. by apply (Hage i j a b k).
  - rewrite <-Hs in Hj. destruct j as [|[|j]]; [lia|done|done].
Qed.

(** Two targets do not share a key. *)
Lemma targets_disjoint m m' k :
  m ∈ targets -> m' ∈ targets -> is_Some (version w k m) -> is_Some (version w k m') -> m = m'.
Proof.
  intros Hm Hm' Hv Hv'. destruct (decide (m = m')) as [|Hne]; [done|]. exfalso.
  pose proof (proj2 (selected_levels m) Hm). pose proof (proj2 (selected_levels m') Hm').
  destruct (co_versions _ _ Hok m m' k) as [Hl _]; auto; [apply selected_in, elem_of_app; by right..|lia|lia].
Qed.

Lemma selected_NoDup : NoDup (filepath <$> sources ++ targets).
Proof.
  pose proof (selected_submseteq cm src) as H. rewrite Hsel in H.
  apply submseteq_Permutation in H as [rest Hp]. pose proof (co_paths _ _ Hok) as Hnd.
  rewrite Hp, fmap_app in Hnd. by apply NoDup_app in Hnd as [? _].
Qed.

(** Of two inputs that share a key the first is a source, and is newer. *)
Lemma inputs_by_age i j a b k :
  (sources ++ targets) !! i = Some a -> (sources ++ targets) !! j = Some b -> (i < j)%nat ->
  is_Some (version w k a) -> is_Some (version w k b) -> (i < length sources)%nat /\ newer_first a b = true.
Proof.
  intros Hi Hj Hij Ha Hb. destruct (decide (i < length sources)%nat) as [Hlt|Hge].
  - split; [done|]. rewrite lookup_app_l in Hi by done.
    destruct (decide (j < length sources)%nat) as [Hlj|Hge'].
    + rewrite lookup_app_l in Hj by done. by apply (sources_by_age i j a b k).
    + rewrite lookup_app_r in Hj by lia. apply list_elem_of_lookup_2 in Hi, Hj. apply newer_first_spec. left.
      rewrite (proj1 (selected_levels a) Hi), (proj2 (selected_levels b) Hj). lia.
  - exfalso. rewrite lookup_app_r in Hi, Hj by lia.
    assert (a = b) as -> by (apply (targets_disjoint a b k); auto; by eapply list_elem_of_lookup_2).
    pose proof selected_NoDup as Hnd. rewrite fmap_app in Hnd. apply NoDup_app in Hnd as (_ & _ & Hnd).
    apply NoDup_fmap_1 in Hnd. pose proof (NoDup_lookup _ _ _ _ Hnd Hi Hj). lia.
Qed.

(** The merge takes the version a read would take. *)
Lemma newest_current k :
  current w (sources ++ targets) k
    (snd <$> newest (entries_of w <$> sources ++ targets) (merge_inputs sources targets) k).
Proof.
  destruct (first_version w k (sources ++ targets)) as [e|] eqn:E.
  - apply first_version_Some in E as (l1 & m & l2 & El & Hv & Hl1).
    assert ((sources ++ targets) !! length l1 = Some m) as Hi by (by rewrite El, list_lookup_middle).
    assert (forall j m', (sources ++ targets) !! j = Some m' -> is_Some (version w k m') -> j <> length l1 ->
              (length l1 < j)%nat) as Hlater.
    { intros j m' Hj [e' Hv'] Hne. destruct (decide (j < length l1)%nat) as [Hlt|]; [|lia]. exfalso.
      rewrite El, lookup_app_l in Hj by done. apply list_elem_of_lookup_2 in Hj. by rewrite (Hl1 m' Hj) in Hv'. }
    erewrite newest_max; [|by rewrite list_lookup_fmap, Hi|by apply merge_inputs_lookup|exact Hv|].
    + cbn [fmap option_fmap option_map snd current]. exists m. split; [rewrite El; apply elem_of_app; right; by left|].
      split; [done|]. intros m' Hm' Hne Hv'. apply list_elem_of_lookup in Hm' as [j Hj].
      apply (inputs_by_age (length l1) j m m' k); eauto. apply (Hlater j m'); auto. intros ->. congruence.
    + intros j r' m' e' Hr Hm' Hf Hne. rewrite list_lookup_fmap in Hr.
      destruct ((sources ++ targets) !! j) as [b|] eqn:Eb; [|done]. injection Hr as <-.
      rewrite (merge_inputs_lookup _ _ _ _ Eb) in Hm'. injection Hm' as <-. cbn [set_sequence sequence_number].
      assert (is_Some (version w k b)) as Hb by (by exists e'). pose proof (Hlater j b Eb Hb Hne) as Hlt.
      destruct (inputs_by_age (length l1) j m b k) as [Hs _]; eauto.
      apply lookup_lt_Some in Eb. rewrite length_app in Eb.
      destruct (Nat.ltb_spec (length l1) (length sources)), (Nat.ltb_spec j (length sources)); lia.
  - rewrite newest_None; cbn [fmap option_fmap option_map current].
    + by apply first_version_None.
    + intros i r Hr. rewrite list_lookup_fmap in Hr. destruct ((sources ++ targets) !! i) as [m|] eqn:Ei; [|done].
      injection Hr as <-. apply (proj1 (first_version_None w k _) E). by eapply list_elem_of_lookup_2.
Qed.

(** Paths identify the files of the catalogue. *)
Lemma path_selected m :
  m ∈ files_ cm -> filepath m ∈ filepath <$> sources ++ targets -> m ∈ sources ++ targets.
Proof.
  intros [i Hi]%list_elem_of_lookup (m' & Hp & Hm')%list_elem_of_fmap.
  pose proof (selected_in m' Hm') as [j Hj]%list_elem_of_lookup.
  assert (i = j) as ->; [|congruence]. apply (NoDup_lookup _ _ _ (filepath m) (co_paths _ _ Hok)).
  - by rewrite list_lookup_fmap, Hi.
  - by rewrite list_lookup_fmap, Hj, Hp.
Qed.

(** A file outside the selection that shares a key with a selected one is above
    the level of that one, or below the target level. *)
Lemma outsider_level m m' k :
  m ∈ sources ++ targets -> m' ∈ files_ cm -> m' ∉ sources ++ targets ->
  is_Some (version w k m) -> is_Some (version w k m') ->
  level m' < src \/ src + 1 < level m' \/ (level m' = src /\ m ∈ targets).
Proof.
  intros Hm Hm' Hout Hv Hv'. pose proof (selected_in m Hm) as Hmf.
  assert (m <> m') as Hne by (intros ->; done).
  assert (m ∈ sources -> level m' <> src + 1) as Hnext.
  { intros Hs Hl. apply Hout, elem_of_app. right. pose proof (selection_spec cm src m m') as H. rewrite Hsel in H.
    apply H; auto. apply (shared_key_overlaps w k); [by apply (co_tables _ _ Hok)..|done|done]. }
  assert (level m = level m' -> level m' = 0) as Hsame.
  { intros Hl. destruct (co_versions _ _ Hok m m' k) as [? _]; auto. lia. }
  apply elem_of_app in Hm as [Hm|Hm].
  - pose proof (proj1 (selected_levels m) Hm) as Hl. specialize (Hnext Hm).
    destruct (decide (level m' = src)) as [El|]; [|lia]. exfalso.
    assert (src = 0) as E0 by lia. apply Hout, elem_of_app. left.
    pose proof (selection_spec cm src m' m) as H. rewrite Hsel in H. apply H; [done|done|lia].
  - pose proof (proj2 (selected_levels m) Hm) as Hl. destruct (decide (level m' = src + 1)) as [El|]; [lia|].
    destruct (decide (level m' = src)); [auto|lia].
Qed.

(** ** After the merge *)

(** The files of [metas] hold [batches], which are what the merge emits; the
    inputs are gone from the catalogue, and the other files are as they were. *)
Section merged.
Context (w2 : World) (metas : list SSTableMeta) (batches : list (list BlockEntry)).
Hypothesis Hw2 : healthy w2.
Hypothesis Hold : forall m, m ∈ files_ cm -> m ∉ sources ++ targets ->
  files w2 !! filepath m = files w !! filepath m.
Hypothesis Hout : Forall2 (fun m b => holds_table w2 (filepath m) b /\ level m = src + 1 /\
    (exists first last', head b = Some first /\ last b = Some last' /\
       smallest_key m = be_key first /\ largest_key m = be_key last') /\
    forall f, f ∈ files_ cm -> filepath f <> filepath m) metas batches.
Hypothesis Hemits : emits (src + 1 =? max_level_ cm - 1) (entries_of w <$> sources ++ targets)
  (merge_inputs sources targets) [] (mjoin batches).
Hypothesis Hmax : src + 1 <= max_level_ cm - 1.

Definition new_files : list SSTableMeta :=
  filter (fun f => filepath f ∉ filepath <$> sources ++ targets) (files_ cm ++ metas).

Lemma output_lookup m : m ∈ metas -> exists i b, metas !! i = Some m /\ batches !! i = Some b /\
  holds_table w2 (filepath m) b /\ entries_of w2 m = b /\ level m = src + 1 /\
  (forall f, f ∈ files_ cm -> filepath f <> filepath m).
Proof.
  intros Hm. apply list_elem_of_lookup in Hm as [i Hi].
  destruct (Forall2_lookup_l _ _ _ _ _ Hout Hi) as (b & Hb & Ht & Hl & _ & Hf).
  exists i, b. split_and!; try done. by apply entries_of_holds.
Qed.

Lemma elem_of_new_files m : m ∈ new_files <-> (m ∈ files_ cm /\ m ∉ sources ++ targets) \/ m ∈ metas.
Proof.
  unfold new_files. rewrite list_elem_of_filter, elem_of_app. split.
  - intros [Hp [Hm|Hm]]; [left|by right]. split; [done|]. intros Hin. apply Hp. by apply list_elem_of_fmap_2.
  - intros [[Hm Hin]|Hm].
    + split; [|by left]. intros Hp. by apply Hin, path_selected.
    + split; [|by right]. destruct (output_lookup m Hm) as (_ & _ & _ & _ & _ & _ & _ & Hf).
      intros (m' & Hp & Hm')%list_elem_of_fmap. by apply (Hf m' (selected_in m' Hm')).
Qed.

(** Files that stay keep their versions. *)
Lemma outsider_version m k :
  m ∈ files_ cm -> m ∉ sources ++ targets -> version w2 k m = version w k m.
Proof.
  intros Hm Hin. unfold version.
  by destruct (table_file_frame w w2 m Hw2 (Hold m Hm Hin) (co_tables _ _ Hok m Hm)) as [_ ->].
Qed.

Lemma output_version m k e :
  m ∈ metas -> version w2 k m = Some e -> find_key (mjoin batches) k = Some e.
Proof.
  intros Hm Hv. destruct (output_lookup m Hm) as (i & b & _ & Hb & _ & Eb & _ & _).
  unfold version in Hv. rewrite Eb in Hv. apply find_key_Some in Hv as [He <-].
  assert (e ∈ mjoin batches) as Hin by (apply list_elem_of_join; exists b; split; [done|]; by eapply list_elem_of_lookup_2).
  apply list_elem_of_lookup in Hin as [j Hj]. exact (find_key_lookup _ j e (em_sorted _ _ _ _ _ Hemits) Hj).
Qed.

Lemma output_holder k e :
  find_key (mjoin batches) k = Some e -> exists m, m ∈ metas /\ version w2 k m = Some e.
Proof.
  intros [He <-]%find_key_Some. apply list_elem_of_join in He as (b & He & Hb).
  apply list_elem_of_lookup in Hb as [i Hi]. destruct (Forall2_lookup_r _ _ _ _ _ Hout Hi) as (m & Hm & Ht & _).
  exists m. split; [by eapply list_elem_of_lookup_2|]. unfold version. rewrite (entries_of_holds w2 m b Hw2 Ht).
  destruct Ht as (bs & bloom & _ & [_ Hs _ _ _ _ _] & <-). apply list_elem_of_lookup in He as [j Hj].
  by eapply find_key_lookup.
Qed.

Lemma outputs_index i j m m' k :
  metas !! i = Some m -> metas !! j = Some m' -> is_Some (version w2 k m) -> is_Some (version w2 k m') -> i = j.
Proof.
  intros Hi Hj [e Hv] [e' Hv'].
  destruct (Forall2_lookup_l _ _ _ _ _ Hout Hi) as (b & Hb & Ht & _).
  destruct (Forall2_lookup_l _ _ _ _ _ Hout Hj) as (b' & Hb' & Ht' & _).
  unfold version in Hv, Hv'. rewrite (entries_of_holds w2 m b Hw2 Ht) in Hv. rewrite (entries_of_holds w2 m' b' Hw2 Ht') in Hv'.
  apply find_key_Some in Hv as [He Hk], Hv' as [He' Hk'].
  pose proof (em_sorted _ _ _ _ _ Hemits) as Hs.
  destruct (Nat.lt_trichotomy i j) as [Hij|[->|Hij]]; [exfalso|done|exfalso].
  - pose proof (sorted_cross batches i j b b' e e' Hs Hb Hb' Hij He He') as Hlt.
    rewrite Hk, Hk' in Hlt. by apply str_lt_irrefl in Hlt.
  - pose proof (sorted_cross batches j i b' b e' e Hs Hb' Hb Hij He' He) as Hlt.
    rewrite Hk, Hk' in Hlt. by apply str_lt_irrefl in Hlt.
Qed.

Lemma outputs_disjoint m m' k :
  m ∈ metas -> m' ∈ metas -> is_Some (version w2 k m) -> is_Some (version w2 k m') -> m = m'.
Proof.
  intros [i Hi]%list_elem_of_lookup [j Hj]%list_elem_of_lookup Hv Hv'.
  rewrite (outputs_index i j m m' k) in Hi by done. congruence.
Qed.
(** An outsider that shares a key with an input stays on the same side of the
    target level as it was of the input. *)
Lemma outsider_side m m' k :
  m ∈ sources ++ targets -> m' ∈ files_ cm -> m' ∉ sources ++ targets ->
  is_Some (version w k m) -> is_Some (version w k m') ->
  (newer_first m m' = true -> src + 1 < level m') /\ (newer_first m' m = true -> level m' < src + 1).
Proof.
  intros Hm Hm' Hno Hv Hv'. pose proof (outsider_level m m' k Hm Hm' Hno Hv Hv') as Hlev.
  rewrite !newer_first_spec. pose proof (selected_levels m) as [Hs Ht].
  apply elem_of_app in Hm as [Hm|Hm].
  - specialize (Hs Hm). destruct Hlev as [?|[?|[? Hm2]]]; [lia|lia|]. apply (proj2 (selected_levels m)) in Hm2. lia.
  - specialize (Ht Hm). destruct Hlev as [?|[?|[? _]]]; lia.
Qed.

(** The empty key is in no input and in no output. *)
Lemma outputs_find k :
  find_key (mjoin batches) k
  = keep (src + 1 =? max_level_ cm - 1) (newest (entries_of w <$> sources ++ targets) (merge_inputs sources targets) k).
Proof.
  destruct (decide (k = [])) as [->|Hk]; [|by apply (em_find _ _ _ _ _ Hemits)].
  rewrite newest_None.
  - apply find_key_None. intros e He E. apply (em_above _ _ _ _ _ Hemits) in He. rewrite E in He. by apply str_lt_irrefl in He.
  - intros i r Hr. rewrite list_lookup_fmap in Hr. destruct ((sources ++ targets) !! i) as [m|] eqn:Ei; [|done].
    injection Hr as <-. apply list_elem_of_lookup_2, selected_in in Ei.
    pose proof (tf_keys _ _ (co_tables _ _ Hok m Ei)) as Hkeys. rewrite Forall_forall in Hkeys.
    apply find_key_None. intros e He. by apply Hkeys.
Qed.

(** What an output holds is a version of an input, and the newest of them. *)
Lemma output_from_input m k e :
  m ∈ metas -> version w2 k m = Some e -> exists m1, m1 ∈ sources ++ targets /\ version w k m1 = Some e.
Proof.
  intros Hm Hv. pose proof (output_version m k e Hm Hv) as Hf. rewrite outputs_find in Hf.
  pose proof (newest_current k) as Hcur.
  destruct (newest _ _ k) as [[s e']|]; [|done]. cbn [keep] in Hf. destruct (_ && _); [done|]. injection Hf as ->.
  destruct Hcur as (m1 & Hm1 & Hv1 & _). eauto.
Qed.

Lemma input_newest m k e :
  m ∈ sources ++ targets -> version w k m = Some e ->
  (forall m', m' ∈ files_ cm -> m' <> m -> is_Some (version w k m') -> newer_first m m' = true) ->
  exists s, newest (entries_of w <$> sources ++ targets) (merge_inputs sources targets) k = Some (s, e).
Proof.
  intros Hm Hv Hall.
  assert (current w (sources ++ targets) k (Some e)) as Hcur.
  { exists m. split; [done|]. split; [done|]. intros m' Hm' Hne Hv'. apply Hall; auto. by apply selected_in. }
  pose proof (current_unique _ _ _ _ _ Hcur (newest_current k)) as E.
  destruct (newest _ _ k) as [[s e']|]; [|done]. injection E as ->. by exists s.
Qed.

(** The current version was in an input: it is written, or it was a tombstone
    and nothing is left that it would have to hide. *)
Lemma merged_current_input m k e :
  m ∈ sources ++ targets -> version w k m = Some e ->
  (forall m', m' ∈ files_ cm -> m' <> m -> is_Some (version w k m') -> newer_first m m' = true) ->
  exists o', current w2 new_files k o' /\ client_value o' = client_value (Some e).
Proof.
  intros Hm Hv Hall. destruct (input_newest m k e Hm Hv Hall) as [s Hn].
  assert (forall m', m' ∈ files_ cm -> m' ∉ sources ++ targets -> is_Some (version w2 k m') ->
            src + 1 < level m') as Hbelow.
  { intros m' Hm' Hno Hv'. rewrite outsider_version in Hv' by done.
    apply (outsider_side m m' k); eauto. apply Hall; [done| |done]. by intros ->. }
  pose proof (outputs_find k) as Hf. rewrite Hn in Hf. cbn [keep] in Hf.
  destruct (be_is_tombstone e && (src + 1 =? max_level_ cm - 1)) eqn:Et.
  - apply andb_true_iff in Et as [Et Eb]. apply Z.eqb_eq in Eb. exists None. cbn [client_value]. rewrite Et. split; [|done].
    intros m' [[Hm' Hno]|Hm']%elem_of_new_files; destruct (version w2 k m') as [e'|] eqn:Ev; try done; exfalso.
    + specialize (Hbelow m' Hm' Hno ltac:(by eauto)). pose proof (co_levels _ _ Hok m' Hm'). lia.
    + by rewrite (output_version m' k e' Hm' Ev) in Hf.
  - destruct (output_holder k e Hf) as (mo & Hmo & Hvo). exists (Some e). split; [|done].
    exists mo. split; [by apply elem_of_new_files; right|]. split; [done|].
    destruct (output_lookup mo Hmo) as (_ & _ & _ & _ & _ & _ & Hl & _).
    intros m' [[Hm' Hno]|Hm']%elem_of_new_files Hne Hv'.
    + apply newer_first_spec. specialize (Hbelow m' Hm' Hno Hv'). lia.
    + destruct Hne. apply (outputs_disjoint m' mo k); eauto.
Qed.

Lemma merged_current k o :
  current w (files_ cm) k o -> exists o', current w2 new_files k o' /\ client_value o' = client_value o.
Proof.
  destruct o as [e|]; cbn [current].
  - intros (m & Hm & Hv & Hall). destruct (decide (m ∈ sources ++ targets)) as [Hin|Hno].
    + by apply (merged_current_input m).
    + exists (Some e). split; [|done]. exists m. split; [apply elem_of_new_files; auto|].
      split; [by rewrite outsider_version|]. intros m' [[Hm' Hno']|Hm']%elem_of_new_files Hne [e' Hv'].
      * rewrite outsider_version in Hv' by done. apply Hall; eauto.
      * destruct (output_from_input m' k e' Hm' Hv') as (m1 & Hm1 & Hv1).
        destruct (output_lookup m' Hm') as (_ & _ & _ & _ & _ & _ & Hl & _).
        apply newer_first_spec. left. rewrite Hl. apply (outsider_side m1 m k); eauto.
        apply Hall; eauto; [by apply selected_in|]. by intros ->.
  - intros Hnone. exists None. split; [|done]. intros m [[Hm Hno]|Hm]%elem_of_new_files.
    + rewrite outsider_version by done. by apply Hnone.
    + destruct (version w2 k m) as [e|] eqn:Ev; [|done].
      destruct (output_from_input m k e Hm Ev) as (m1 & Hm1 & Hv1).
      by rewrite (Hnone m1 (selected_in m1 Hm1)) in Hv1.
Qed.
(** The outputs are no larger than the inputs. *)
Lemma outputs_size : encoded_sum (mjoin batches) <= encoded_sum (mjoin (entries_of w <$> sources ++ targets)).
Proof.
  assert (mjoin batches ⊆+ mjoin (entries_of w <$> sources ++ targets)) as Hsub.
  { apply NoDup_submseteq.
    - apply (NoDup_fmap_1 be_key). by apply (StronglySorted_NoDup str_lt), (em_sorted _ _ _ _ _ Hemits).
    - intros e He. apply list_elem_of_lookup in He as [j Hj].
      pose proof (find_key_lookup _ j e (em_sorted _ _ _ _ _ Hemits) Hj) as Hf. rewrite outputs_find in Hf.
      destruct (newest _ _ (be_key e)) as [[n e']|] eqn:En; [|done]. cbn [keep] in Hf. destruct (_ && _); [done|].
      injection Hf as ->. apply newest_bound in En as (i & r & m & Hr & _ & _ & [He _]%find_key_Some).
      apply list_elem_of_join. exists r. split; [done|]. by eapply list_elem_of_lookup_2. }
  apply submseteq_Permutation in Hsub as [rest ->]. rewrite encoded_sum_app.
  pose proof (encoded_sum_count rest). lia.
Qed.

(** *** The catalogue stays in order *)

Lemma output_table m : m ∈ metas -> table_file w2 m.
Proof.
  intros [i Hi]%list_elem_of_lookup.
  destruct (Forall2_lookup_l _ _ _ _ _ Hout Hi) as (b & Hb & Ht & _ & Hr & _). apply list_elem_of_lookup_2 in Hi.
  pose proof (entries_of_holds w2 m b Hw2 Ht) as Eb.
  assert (forall e, e ∈ b -> version w2 (be_key e) m = Some e) as Hfind.
  { intros e [j Hj]%list_elem_of_lookup. unfold version. rewrite Eb.
    destruct Ht as (bs & bloom & _ & [_ Hs _ _ _ _ _] & <-). by eapply find_key_lookup. }
  split; rewrite ?Eb; auto; apply Forall_forall; intros e He.
  - destruct (output_from_input m _ e Hi (Hfind e He)) as (m1 & Hm1 & [He1 _]%version_key).
    pose proof (tf_plain _ _ (co_tables _ _ Hok m1 (selected_in m1 Hm1))) as Hp. rewrite Forall_forall in Hp. by apply Hp.
  - intros Ek. apply str_lt_irrefl with []. rewrite <-Ek at 2. apply (em_above _ _ _ _ _ Hemits).
    apply list_elem_of_join. exists b. split; [done|]. by eapply list_elem_of_lookup_2.
Qed.

Lemma output_nonempty m : m ∈ metas -> exists k, is_Some (version w2 k m).
Proof.
  intros Hm. destruct (output_table m Hm) as [_ _ _ (first & _ & Hh & _)]. exists (be_key first), first.
  unfold version. destruct (entries_of w2 m) as [|e es]; [done|]. injection Hh as ->.
  rewrite find_key_cons. by destruct (decide _).
Qed.

Lemma version_path m m' k : filepath m = filepath m' -> version w2 k m = version w2 k m'.
Proof. intros E. unfold version, entries_of. by rewrite E. Qed.

Lemma new_files_paths : NoDup (filepath <$> new_files).
Proof.
  unfold new_files. rewrite filter_app, fmap_app. apply NoDup_app. split_and!.
  - eapply sublist_NoDup; [apply (co_paths _ _ Hok)|]. apply fmap_sublist, sublist_filter.
  - intros p (m & -> & [_ Hm]%list_elem_of_filter)%list_elem_of_fmap (m' & Ep & [_ Hm']%list_elem_of_filter)%list_elem_of_fmap.
    destruct (output_lookup m' Hm') as (_ & _ & _ & _ & _ & _ & _ & Hf). by apply (Hf m Hm).
  - eapply sublist_NoDup; [|apply fmap_sublist, sublist_filter]. apply NoDup_alt. intros i j p Hi Hj.
    rewrite list_lookup_fmap in Hi, Hj. destruct (metas !! i) as [m|] eqn:Ei; [|done].
    destruct (metas !! j) as [m'|] eqn:Ej; [|done]. injection Hi as <-. injection Hj as Hp.
    destruct (output_nonempty m) as [k Hk]; [by eapply list_elem_of_lookup_2|].
    apply (outputs_index i j m m' k); auto. by rewrite (version_path m' m).
Qed.

Lemma new_files_versions m m' k :
  m ∈ new_files -> m' ∈ new_files -> m <> m' -> level m = level m' ->
  is_Some (version w2 k m) -> is_Some (version w2 k m') -> level m = 0 /\ sequence_number m <> sequence_number m'.
Proof.
  assert (forall o f, o ∈ metas -> f ∈ files_ cm -> f ∉ sources ++ targets ->
            is_Some (version w2 k o) -> is_Some (version w2 k f) -> level o <> level f) as Hcross.
  { intros o f Ho Hf Hno [e Hv] Hv'. rewrite outsider_version in Hv' by done.
    destruct (output_from_input o k e Ho Hv) as (m1 & Hm1 & Hv1).
    destruct (output_lookup o Ho) as (_ & _ & _ & _ & _ & _ & -> & _).
    pose proof (outsider_level m1 f k Hm1 Hf Hno ltac:(by eauto) Hv'). lia. }
  intros [[Hm Hno]|Hm]%elem_of_new_files [[Hm' Hno']|Hm']%elem_of_new_files Hne Hl Hv Hv'.
  - rewrite outsider_version in Hv, Hv' by done. by apply (co_versions _ _ Hok m m' k).
  - by destruct (Hcross m' m).
  - by destruct (Hcross m m').
  - destruct Hne. by apply (outputs_disjoint m m' k).
Qed.

Lemma merged_catalogue cm' :
  files_ cm' ≡ₚ new_files -> max_level_ cm' = max_level_ cm -> catalogue_ok w2 cm'.
Proof.
  intros Ef Em. assert (forall m, m ∈ files_ cm' <-> m ∈ new_files) as Hin by (intros; by rewrite Ef).
  split.
  - done.
  - intros m [[Hm Hno]|Hm]%Hin%elem_of_new_files; [|by apply output_table].
    by apply (table_file_frame w w2); [|apply Hold|apply (co_tables _ _ Hok)].
  - rewrite Ef. apply new_files_paths.
  - rewrite Em. intros m [[Hm Hno]|Hm]%Hin%elem_of_new_files; [by apply (co_levels _ _ Hok)|].
    destruct (output_lookup m Hm) as (_ & _ & _ & _ & _ & _ & -> & _). lia.
  - intros m m' k Hm%Hin Hm'%Hin. by apply new_files_versions.
Qed.
End merged.
End pass.
(** ** One run *)

Definition catalogue_size (w : World) (cm : CompactionManager) : Z :=
  zsum ((fun m => encoded_sum (entries_of w m)) <$> files_ cm).

(** No catalogued file has a path the manager has yet to generate. *)
Definition fresh_paths (cm : CompactionManager) : Prop :=
  forall m lvl num, m ∈ files_ cm -> 1 <= lvl < max_level_ cm -> next_file_number_ cm <= num < 2 ^ 64 ->
    filepath m <> out_path (cm_data_dir_ cm) lvl num.

(** A catalogue in order, with room for further runs. *)
Record orderly (w : World) (cm : CompactionManager) : Prop := {
  or_catalogue : catalogue_ok w cm;
  or_fresh : fresh_paths cm;
  or_levels : 2 <= max_level_ cm < 2 ^ 31;
  or_number : 0 <= next_file_number_ cm < 2 ^ 63;
  or_size : catalogue_size w cm < 2 ^ 30
}.

Lemma TotalBytesAtLevel_none cm lvl : (forall f, f ∈ files_ cm -> level f <> lvl) -> TotalBytesAtLevel cm lvl = 0.
Proof.
  unfold TotalBytesAtLevel. induction (files_ cm) as [|f fs IH]; intros Hno; cbn [foldl]; [done|].
  rewrite (proj2 (Z.eqb_neq _ _)) by (apply Hno; by left). apply IH. intros g Hg. apply Hno. by right.
Qed.

Lemma MaxBytesForLevel_nonneg lvl : 0 <= MaxBytesForLevel lvl.
Proof.
  assert (forall n r, 0 <= r -> 0 <= multiply_levels n r) as H.
  { induction n as [|n IH]; intros r Hr; cbn [multiply_levels]; [done|]. apply IH. apply u64_range. }
  unfold MaxBytesForLevel. destruct (lvl <=? 0); [lia|]. apply H. done.
Qed.

(** The picked level is not the bottom one and has a file. *)
Lemma picked_level cm :
  2 <= max_level_ cm -> NeedsCompaction cm = true ->
  let src := PickCompactionLevel cm in
  0 <= src < max_level_ cm - 1 /\ exists f, f ∈ files_ cm /\ level f = src.
Proof.
  intros Hmax Hneed src. apply negb_true_iff, Z.eqb_neq in Hneed. fold src in Hneed.
  pose proof (compaction_pick_level cm) as (H0 & Hpos & _ & Hlow). fold src in H0, Hpos, Hlow.
  destruct (filter (fun f => level f = src) (files_ cm)) as [|f fs] eqn:Ef.
  - exfalso. assert (forall f, f ∈ files_ cm -> level f <> src) as Hno.
    { intros f Hf Hl. assert (f ∈ filter (fun f => level f = src) (files_ cm)) as H by (by apply list_elem_of_filter).
      rewrite Ef in H. by apply not_elem_of_nil in H. }
    destruct (decide (src = 0)) as [E|].
    + apply H0 in E as Hc. unfold Level0FileCount, kLevel0CompactionTrigger in Hc. rewrite E in Ef.
      rewrite Ef in Hc. cbn in Hc. lia.
    + destruct Hpos as (_ & Hov & _); [lia|]. rewrite TotalBytesAtLevel_none in Hov by done.
      pose proof (MaxBytesForLevel_nonneg src). lia.
  - split; [lia|]. exists f. assert (f ∈ filter (fun f => level f = src) (files_ cm)) as H by (rewrite Ef; by left).
    apply list_elem_of_filter in H. tauto.
Qed.

Lemma remove_inputs_spec inputs : forall w cm,
  healthy w -> exists cm' w', remove_inputs w cm inputs = (Ret (), cm', w') /\
  cm' = set_files cm (filter (fun f => filepath f ∉ filepath <$> inputs) (files_ cm)) /\ healthy w' /\
  forall p, p ∉ filepath <$> inputs -> files w' !! p = files w !! p.
Proof.
  induction inputs as [|m inputs IH]; intros w cm Hw; cbn [remove_inputs].
  - do 2 eexists. split; [done|]. split_and!; try done. destruct cm as [d x fs n]. unfold set_files. cbn.
    f_equal. symmetry. apply filter_all. intros. apply not_elem_of_nil.
  - unfold try_remove. rewrite or_throw_healthy by done. cbn beta iota zeta.
    destruct (IH (fs_remove w (filepath m)) (RemoveFile cm (filepath m)) Hw) as (cm' & w' & -> & -> & Hw' & Hf).
    do 2 eexists. split; [done|]. split_and!; [|done|].
    + unfold RemoveFile, set_files. cbn. f_equal. rewrite list_filter_filter. apply list_filter_iff.
      intros f. rewrite not_elem_of_cons. tauto.
    + intros p Hp. rewrite fmap_cons, not_elem_of_cons in Hp. destruct Hp as [Hne Hp]. rewrite Hf by done.
      cbn [fs_remove files]. by apply lookup_delete_ne.
Qed.

(** *** Paths of different levels *)

Lemma app_sep_inj (P : byte -> Prop) x l1 l2 r1 r2 :
  Forall P l1 -> Forall P l2 -> ~ P x -> l1 ++ x :: r1 = l2 ++ x :: r2 -> l1 = l2 /\ r1 = r2.
Proof.
  intros H1. revert l2. induction H1 as [|a l1 Ha H1 IH]; intros [|b l2] H2 Hx E.
  - by injection E.
  - injection E as -> _. by inversion H2.
  - injection E as -> _. done.
  - injection E as -> E. inversion H2; subst. by destruct (IH l2 ltac:(done) Hx E) as [-> ->].
Qed.

Lemma out_path_inj2 dir l1 l2 a b :
  0 <= l1 < 2 ^ 64 -> 0 <= l2 < 2 ^ 64 -> 0 <= a < 2 ^ 64 -> 0 <= b < 2 ^ 64 ->
  out_path dir l1 a = out_path dir l2 b -> l1 = l2 /\ a = b.
Proof.
  intros Hl1 Hl2 Ha Hb H. assert (l1 = l2) as ->; [|split; [done|by apply (out_path_inj dir l2)]].
  unfold out_path in H. do 2 apply app_inv_head in H. change (lit "_") with [Byte.x5f] in H. cbn [app] in H.
  apply (app_sep_inj is_digit) in H as [H _]; [by apply to_string_inj|by apply to_string_digits..|].
  intros [_ Hc]. vm_compute in Hc. discriminate Hc.
Qed.

(** *** The run as a whole *)

Lemma files_size w fs :
  zsum ((fun m => encoded_sum (entries_of w m)) <$> fs) = encoded_sum (mjoin (entries_of w <$> fs)).
Proof.
  induction fs as [|m fs IH]; [done|]. rewrite !fmap_cons. change (mjoin (?a :: ?b)) with (a ++ mjoin b).
  rewrite encoded_sum_app, <-IH. done.
Qed.

Lemma merge_tables w cm src sources targets :
  catalogue_ok w cm -> SelectCompactionFiles cm src = (sources, targets) ->
  let file_data := entries_of w <$> sources ++ targets in
  Forall2 (fun m es => table_at w (filepath m) es) (merge_inputs sources targets) file_data /\
  Forall sorted_entries file_data /\ Forall tombstone_plain (mjoin file_data) /\
  encoded_sum (mjoin file_data) <= catalogue_size w cm.
Proof.
  intros Hok Hsel file_data. pose proof (selected_in cm src sources targets Hsel) as Hin. split_and!.
  - apply Forall2_same_length_lookup_2; [unfold file_data; by rewrite length_merge_inputs, length_fmap|].
    intros i m es Hm Hes. unfold file_data in Hes. rewrite list_lookup_fmap in Hes.
    destruct ((sources ++ targets) !! i) as [f|] eqn:Ei; [|done]. injection Hes as <-.
    rewrite (merge_inputs_lookup _ _ _ _ Ei) in Hm. injection Hm as <-. apply list_elem_of_lookup_2, Hin in Ei.
    apply holds_table_at; [apply Hok|]. exact (tf_table _ _ (co_tables _ _ Hok f Ei)).
  - apply Forall_fmap, Forall_forall. intros m Hm. by apply table_file_sorted, (co_tables _ _ Hok), Hin.
  - apply Forall_join, Forall_fmap, Forall_forall. intros m Hm. by apply tf_plain, (co_tables _ _ Hok), Hin.
  - pose proof (selected_submseteq cm src) as Hsub. rewrite Hsel in Hsub.
    apply submseteq_Permutation in Hsub as [rest Hp]. unfold catalogue_size.
    rewrite (zsum_perm _ _ (fmap_Permutation _ _ _ Hp)), fmap_app.
    rewrite zsum_app, !files_size. unfold file_data.
    pose proof (encoded_sum_count (mjoin (entries_of w <$> rest))). lia.
Qed.

(** The level-0 files after a run: none, or all of them as before. *)
Lemma level0_after w cm src sources targets metas :
  catalogue_ok w cm -> SelectCompactionFiles cm src = (sources, targets) -> 0 <= src ->
  (forall m, m ∈ metas -> level m = src + 1) ->
  filter (fun f => level f = 0) (new_files cm sources targets metas)
  = if src =? 0 then [] else filter (fun f => level f = 0) (files_ cm).
Proof.
  intros Hok Hsel Hsrc Hlev. unfold new_files. rewrite list_filter_filter, filter_app.
  rewrite (filter_none _ metas), app_nil_r by (intros m Hm [Hl _]; specialize (Hlev m Hm); lia).
  pose proof (fun f => selection_spec cm src f f) as Hspec. rewrite Hsel in Hspec.
  destruct (Z.eqb_spec src 0) as [->|Hne].
  - apply filter_none. intros f Hf [Hl Hno]. apply Hno, list_elem_of_fmap_2, elem_of_app. left. by apply Hspec.
  - apply filter_ext_in. intros f Hf. split; [tauto|]. intros Hl. split; [done|].
    destruct (selected_levels cm src sources targets Hsel f) as [Hs Ht].
    intros [Hin|Hin]%(path_selected w cm src sources targets Hok Hsel f Hf)%elem_of_app; [apply Hs in Hin|apply Ht in Hin]; lia.
Qed.

(** What a run leaves behind: a catalogue in order, on which every key reads as
    before; other files are not touched. *)
Record run_result (w : World) (cm : CompactionManager) (w' : World) (cm' : CompactionManager) : Prop := {
  rr_catalogue : catalogue_ok w' cm';
  rr_age : position_is_age w' cm';
  rr_fresh : fresh_paths cm';
  rr_levels : max_level_ cm' = max_level_ cm;
  rr_dir : cm_data_dir_ cm' = cm_data_dir_ cm;
  rr_number : next_file_number_ cm < next_file_number_ cm' <= next_file_number_ cm + 2 ^ 27;
  rr_size : catalogue_size w' cm' <= catalogue_size w cm;
  rr_metas : Forall meta_ok (files_ cm) -> Z.of_nat (length (cm_data_dir_ cm)) < 2 ^ 31 -> Forall meta_ok (files_ cm');
  rr_names : forall m, m ∈ files_ cm' -> m ∈ files_ cm \/
    (0 < level m /\ exists num, filepath m = out_path (cm_data_dir_ cm) (level m) num);
  rr_reads : forall k o, current w (files_ cm) k o ->
    exists o', current w' (files_ cm') k o' /\ client_value o' = client_value o;
  rr_others : forall p, (forall m, m ∈ files_ cm -> filepath m <> p) ->
    (forall lvl num, out_path (cm_data_dir_ cm) lvl num <> p) -> files w' !! p = files w !! p
}.

Section outcome.
Context (w : World) (cm : CompactionManager) (src : Z) (sources targets : list SSTableMeta).
Hypothesis Hc : orderly w cm.
Hypothesis Hage : position_is_age w cm.
Hypothesis Hsel : SelectCompactionFiles cm src = (sources, targets).
Hypothesis Hsrc : 0 <= src < max_level_ cm - 1.

Lemma sources_nonempty f : f ∈ files_ cm -> level f = src -> sources <> [].
Proof.
  intros Hf Hl. pose proof (selection_spec cm src f f) as H. rewrite Hsel in H. destruct H as (_ & _ & H0 & H1 & _).
  destruct (decide (src = 0)) as [E|Hne].
  - intros ->. apply not_elem_of_nil with f. apply H0; [done|done|lia].
  - intros ->. by specialize (H1 Hne ltac:(by eauto)).
Qed.

(** [w1] after the merge, [w2] after the inputs have been removed. *)
Context (w1 w2 : World) (cm1 cm2 : CompactionManager) (metas : list SSTableMeta) (batches : list (list BlockEntry)).
Hypothesis Hw2 : healthy w2.
Hypothesis Hemits : emits (src + 1 =? max_level_ cm - 1) (entries_of w <$> sources ++ targets)
  (merge_inputs sources targets) [] (mjoin batches).
Hypothesis Hfiles1 : files_ cm1 = files_ cm.
Hypothesis Hout1 : Forall2 (out_file w1 (cm_data_dir_ cm) (src + 1) (next_file_number_ cm) (next_file_number_ cm1))
  metas batches.
Hypothesis Hnum1 : next_file_number_ cm < next_file_number_ cm1 <= next_file_number_ cm + 2 ^ 27.
Hypothesis Hframe1 : forall p,
  (forall num, next_file_number_ cm <= num < next_file_number_ cm1 -> p <> out_path (cm_data_dir_ cm) (src + 1) num) ->
  files w1 !! p = files w !! p.
Hypothesis Hframe2 : forall p, p ∉ filepath <$> sources ++ targets -> files w2 !! p = files w1 !! p.
Hypothesis Hcm2 : cm2 = mkCM (cm_data_dir_ cm) (max_level_ cm) (new_files cm sources targets metas) (next_file_number_ cm1).

Let Hok : catalogue_ok w cm := or_catalogue _ _ Hc.

Lemma output_number m : m ∈ metas -> exists num, next_file_number_ cm <= num < next_file_number_ cm1 /\
  level m = src + 1 /\ filepath m = out_path (cm_data_dir_ cm) (src + 1) num.
Proof.
  intros [i Hi]%list_elem_of_lookup. destruct (Forall2_lookup_l _ _ _ _ _ Hout1 Hi) as (b & _ & [_ Hl _ (num & Hn & Hp) _]).
  eauto.
Qed.

Lemma output_not_input m f : m ∈ metas -> f ∈ files_ cm -> filepath f <> filepath m.
Proof.
  intros (num & Hn & _ & ->)%output_number Hf. apply (or_fresh _ _ Hc f); [done|lia|].
  pose proof (or_number _ _ Hc). lia.
Qed.

Lemma run_outputs : Forall2 (fun m b => holds_table w2 (filepath m) b /\ level m = src + 1 /\
    (exists first last', head b = Some first /\ last b = Some last' /\
       smallest_key m = be_key first /\ largest_key m = be_key last') /\
    forall f, f ∈ files_ cm -> filepath f <> filepath m) metas batches.
Proof.
  apply Forall2_same_length_lookup_2; [by eapply Forall2_length|]. intros i m b Hm Hb.
  destruct (Forall2_lookup_lr _ _ _ _ _ _ Hout1 Hm Hb) as [(bs & bloom & Hf & Ht) Hl Hr _ _].
  apply list_elem_of_lookup_2 in Hm. split_and!; [|done|done|by intros f; apply output_not_input].
  exists bs, bloom. split; [|done]. rewrite Hframe2; [done|].
  intros (f & Hp & Hin)%list_elem_of_fmap. apply (output_not_input m f Hm); [|done]. by apply (selected_in cm src sources targets Hsel).
Qed.

Lemma run_kept m : m ∈ files_ cm -> m ∉ sources ++ targets -> files w2 !! filepath m = files w !! filepath m.
Proof.
  intros Hm Hno. pose proof (or_number _ _ Hc). rewrite Hframe2.
  - apply Hframe1. intros num Hn. apply (or_fresh _ _ Hc m); [done|lia|]. lia.
  - intros Hin. by apply Hno, (path_selected w cm src sources targets Hok Hsel).
Qed.

Lemma run_size : catalogue_size w2 cm2 <= catalogue_size w cm.
Proof.
  pose proof run_outputs as Hout. unfold catalogue_size. rewrite Hcm2, !files_size. cbn [files_].
  set (Q := fun f : SSTableMeta => filepath f ∉ filepath <$> sources ++ targets).
  assert (new_files cm sources targets metas = filter Q (files_ cm) ++ metas) as ->.
  { unfold new_files. rewrite filter_app. f_equal. apply filter_all. intros m Hm (f & Hp & Hf)%list_elem_of_fmap.
    apply (output_not_input m f Hm); [|done]. by apply (selected_in cm src sources targets Hsel). }
  assert (sources ++ targets ≡ₚ filter (fun f => ~ Q f) (files_ cm)) as Hperm.
  { apply NoDup_Permutation.
    - by eapply NoDup_fmap_1, (selected_NoDup w cm src sources targets Hok Hsel).
    - apply NoDup_filter. by eapply NoDup_fmap_1, co_paths.
    - intros m. rewrite list_elem_of_filter. unfold Q. split.
      + intros Hm. split; [|by apply (selected_in cm src sources targets Hsel)]. intros Hno.
        apply Hno. by apply list_elem_of_fmap_2.
      + intros [Hm Hin]. apply (path_selected w cm src sources targets Hok Hsel m Hin). by apply dec_stable. }
  rewrite <-(filter_app_complement Q (files_ cm)) at 2. rewrite <-Hperm.
  rewrite !(fmap_app _ (filter Q (files_ cm))), !join_app, !encoded_sum_app.
  assert (entries_of w2 <$> filter Q (files_ cm) = entries_of w <$> filter Q (files_ cm)) as ->.
  { apply list_fmap_ext. intros i m [Hq Hm]%list_elem_of_lookup_2%list_elem_of_filter.
    apply (table_file_frame w w2 m Hw2); [|by apply (co_tables _ _ Hok)]. apply run_kept; [done|].
    intros Hin. apply Hq. by apply list_elem_of_fmap_2. }
  assert (entries_of w2 <$> metas = batches) as ->.
  { apply list_eq_Forall2, Forall2_fmap_l. eapply Forall2_impl; [exact Hout|].
    intros m b [Ht _]. by apply entries_of_holds. }
  pose proof (outputs_size w cm src sources targets Hok Hsel batches Hemits). lia.
Qed.

Lemma output_meta m : m ∈ metas -> Z.of_nat (length (cm_data_dir_ cm)) < 2 ^ 31 -> meta_ok m.
Proof.
  intros [i Hi]%list_elem_of_lookup Hdir. pose proof (or_levels _ _ Hc). pose proof (or_number _ _ Hc).
  destruct (Forall2_lookup_l _ _ _ _ _ Hout1 Hi)
    as (b & _ & [(bs & bloom & _ & Hto & Ej) Hl (first & last' & Hh & Hla & Es & El) (num & Hn & Hp) Hfields]).
  pose proof (to_size _ _ Hto) as Hsize. rewrite Ej in Hsize.
  pose proof (encoded_sum_elem b first ltac:(by apply head_Some_elem_of)) as Hf1.
  pose proof (encoded_sum_elem b last' ltac:(by apply last_Some_elem_of)) as Hf2. unfold EncodedSize in Hf1, Hf2.
  pose proof (to_string_length (src + 1) ltac:(lia)). pose proof (to_string_length num ltac:(lia)).
  unfold meta_ok. rewrite Es, El, Hl, Hp. unfold out_path, pad8. rewrite !length_app, length_replicate.
  change (length (lit "/level")) with 6%nat. change (length (lit "_")) with 1%nat.
  change (length (lit ".sst")) with 4%nat. split_and!; lia.
Qed.

Lemma run_age : position_is_age w2 cm2.
Proof.
  unfold position_is_age, GetFilesAtLevel. rewrite Hcm2. cbn [files_].
  rewrite (level0_after w cm src sources targets metas Hok Hsel) by (lia || by intros m (_ & _ & ? & _)%output_number).
  destruct (Z.eqb_spec src 0) as [|Hne].
  - intros i j a b k Hi. apply list_elem_of_lookup_2 in Hi. rewrite std_sort_perm in Hi. by apply not_elem_of_nil in Hi.
  - intros i j a b k Hi Hj Hij.
    assert (forall i f, GetFilesAtLevel cm 0 !! i = Some f -> version w2 k f = version w k f) as Hsame.
    { intros n f [Hf Hl]%list_elem_of_lookup_2%elem_of_GetFilesAtLevel.
      assert (f ∉ sources ++ targets) as Hno.
      { destruct (selected_levels cm src sources targets Hsel f) as [Hs Ht].
        intros [Hin|Hin]%elem_of_app; [apply Hs in Hin|apply Ht in Hin]; lia. }
      unfold version. by destruct (table_file_frame w w2 f Hw2 (run_kept f Hf Hno) (co_tables _ _ Hok f Hf)) as [_ ->]. }
    rewrite (Hsame i a Hi), (Hsame j b Hj). by apply (Hage i j).
Qed.

Lemma run_outcome : run_result w cm w2 cm2.
Proof.
  pose proof run_outputs as Hout. pose proof run_kept as Hold. split.
  - apply (merged_catalogue w cm src sources targets Hok Hage Hsel ltac:(lia) w2 metas batches); auto; try lia;
      by rewrite Hcm2.
  - apply run_age.
  - rewrite Hcm2. intros m lvl num [[Hm _]|Hm]%(elem_of_new_files w cm src sources targets Hok Hsel w2 metas batches Hw2 Hout);
      cbn [max_level_ next_file_number_ cm_data_dir_]; intros Hlvl Hn.
    + apply (or_fresh _ _ Hc m); [done|done|lia].
    + destruct (output_number m Hm) as (num' & Hn' & _ & ->). intros E. pose proof (or_levels _ _ Hc). pose proof (or_number _ _ Hc).
      apply out_path_inj2 in E as [_ E]; lia.
  - by rewrite Hcm2.
  - by rewrite Hcm2.
  - by rewrite Hcm2.
  - apply run_size.
  - rewrite Hcm2, !Forall_forall. intros Hall Hdir m.
    intros [[Hm _]|Hm]%(elem_of_new_files w cm src sources targets Hok Hsel w2 metas batches Hw2 Hout); [by apply Hall|].
    by apply output_meta.
  - rewrite Hcm2. intros m [[Hm _]|Hm]%(elem_of_new_files w cm src sources targets Hok Hsel w2 metas batches Hw2 Hout); [by left|].
    destruct (output_number m Hm) as (num & _ & Hl & Hp). right. rewrite Hl. split; [lia|eauto].
  - rewrite Hcm2. cbn [files_].
    apply (merged_current w cm src sources targets Hok Hage Hsel ltac:(lia) w2 metas batches); auto; lia.
  - intros p Hno Hp. rewrite Hframe2.
    + apply Hframe1. intros num _ E. by apply (Hp (src + 1) num).
    + intros (f & -> & Hf)%list_elem_of_fmap. apply (Hno f); [|done]. by apply (selected_in cm src sources targets Hsel).
Qed.
End outcome.

Context {abi : Abi}.

(** A run that is needed selects files and merges them. *)
Lemma run_merges w cm :
  orderly w cm -> NeedsCompaction cm = true ->
  let src := PickCompactionLevel cm in
  exists sources targets, SelectCompactionFiles cm src = (sources, targets) /\ 0 <= src < max_level_ cm - 1 /\ sources <> [] /\
    forall stats, exists metas batches stats' cm1 w1,
      MergeFiles w cm (merge_inputs sources targets) (src + 1) stats = Some (Ret (Val metas), stats', cm1, w1) /\
      emits (src + 1 =? max_level_ cm - 1) (entries_of w <$> sources ++ targets) (merge_inputs sources targets) []
        (mjoin batches) /\
      healthy w1 /\ files_ cm1 = files_ cm /\ max_level_ cm1 = max_level_ cm /\ cm_data_dir_ cm1 = cm_data_dir_ cm /\
      Forall2 (out_file w1 (cm_data_dir_ cm) (src + 1) (next_file_number_ cm) (next_file_number_ cm1)) metas batches /\
      next_file_number_ cm < next_file_number_ cm1 <= next_file_number_ cm + 2 ^ 27 /\
      (forall p, (forall num, next_file_number_ cm <= num < next_file_number_ cm1 ->
                    p <> out_path (cm_data_dir_ cm) (src + 1) num) -> files w1 !! p = files w !! p).
Proof.
  intros Hc Hneed src. pose proof (or_catalogue _ _ Hc) as Hok.
  destruct (picked_level cm (proj1 (or_levels _ _ Hc)) Hneed) as (Hsrc & f & Hf & Hlf).
  destruct (SelectCompactionFiles cm src) as [sources targets] eqn:Hsel. exists sources, targets.
  split; [done|]. split; [done|]. split; [exact (sources_nonempty cm src sources targets Hsel f Hf Hlf)|]. intros stats.
  destruct (merge_tables w cm src sources targets Hok Hsel) as (Htab & Hsort & Hplain & Hsize).
  pose proof (or_size _ _ Hc) as Hsize'.
  destruct (MergeFiles_spec w cm (merge_inputs sources targets) (src + 1) stats _ (co_healthy _ _ Hok) Htab Hsort Hplain
              (merge_inputs_NoDup sources targets) ltac:(lia) (or_number _ _ Hc))
    as (metas & batches & outs & stats' & cm1 & w1 & Hrun & Hem & <- & Hw1 & Hf1 & Hx1 & Hout1 & Hn1 & Hd1 & Hfr1).
  exists metas, batches, stats', cm1, w1. split_and!; try done; try lia.
  pose proof (encoded_sum_count (mjoin (entries_of w <$> sources ++ targets))). lia.
Qed.

Lemma RunCompaction_spec w cm :
  orderly w cm -> position_is_age w cm -> NeedsCompaction cm = true ->
  exists stats cm' w', RunCompaction w cm = Some (Ret (Val stats), cm', w') /\ run_result w cm w' cm'.
Proof.
  intros Hc Hage Hneed. destruct (run_merges w cm Hc Hneed) as (sources & targets & Hsel & Hsrc & Hne & Hmerge).
  apply negb_true_iff in Hneed. unfold RunCompaction. rewrite Hneed. set (src := PickCompactionLevel cm) in *.
  rewrite Hsel. destruct sources as [|s0 sources0]; [done|]. set (sources := s0 :: sources0) in *.
  fold (merge_inputs sources targets).
  match goal with |- context [MergeFiles w cm _ _ ?st] => destruct (Hmerge st)
    as (metas & batches & stats' & cm1 & w1 & -> & Hem & Hw1 & Hf1 & Hx1 & Hd1 & Hout1 & Hn1 & Hfr1) end.
  rewrite add_files_ok.
  2: { rewrite Hx1. intros m (_ & _ & -> & _)%(output_number cm src w1 cm1 metas batches Hout1). lia. }
  change (negb (IsOk StatusOk)) with false. cbn beta iota.
  destruct (remove_inputs_spec (merge_inputs sources targets) w1 (set_files cm1 (files_ cm1 ++ metas)) Hw1)
    as (cm2 & w2 & -> & Ecm2 & Hw2 & Hfr2). rewrite merge_inputs_paths in Hfr2.
  exists stats', cm2, w2. split; [done|].
  apply (run_outcome w cm src sources targets Hc Hage Hsel Hsrc w1 w2 cm1 cm2 metas batches); auto.
  rewrite Ecm2. unfold set_files, new_files. cbn [cm_data_dir_ max_level_ files_ next_file_number_].
  rewrite Hd1, Hx1, Hf1. f_equal. apply list_filter_iff.
  intros m. by rewrite merge_inputs_paths.
Qed.
End reads.
