(* ===== verification/EngineCompaction.v ===== *)
(** * The engine with its compaction thread

    Client operations and passes of the compaction thread
    ([CompactionLoop_body] of Engine.v) in any order.  The state of the engine
    is described by the entries of the log that are in tables and those that
    are pending, and by a catalogue in order (CompactionReads.v); every
    operation keeps it so ([settled]).  What a client sees is a map with a
    pending part ([spec_state]): the engine refines it. *)

From S2P Require Import Prelude Status BinarySerializer Mt19937 SkipList MemTable FileSystem Wal Recovery Checkpoint BloomFilter Block SSTable Compaction CompactionMerge BlockCache Engine EngineCorrect CompactionReads.

(** ** Names of tables *)

Definition sst_named (p : str) : Prop := exists q, p = q ++ lit ".sst".

Lemma out_path_named dir lvl num : sst_named (out_path dir lvl num).
Proof. unfold out_path. rewrite !app_assoc. by eexists. Qed.

Lemma table_path_named cfg seq : sst_named (table_path cfg seq).
Proof. unfold table_path. rewrite !app_assoc. by eexists. Qed.

(** The log, the checkpoint and its temporary file are not tables. *)
Lemma sst_named_distinct cfg p :
  sst_named p -> p <> wal_path cfg /\ p <> checkpoint_path_ (CheckpointManager_new (data_dir cfg)) /\
    p <> temp_path_ (CheckpointManager_new (data_dir cfg)).
Proof.
  intros [q ->].
  destruct (wal_path_last cfg) as [p2 H2]. destruct (checkpoint_path_last (data_dir cfg)) as [p3 H3].
  destruct (temp_path_last (data_dir cfg)) as [p4 H4].
  assert (q ++ lit ".sst" = (q ++ lit ".ss") ++ [Byte.x74]) as H1 by (by rewrite <-app_assoc).
  assert (q ++ lit ".sst" = (q ++ lit ".s") ++ [Byte.x73; Byte.x74]) as H5 by (by rewrite <-app_assoc).
  split_and!.
  - by apply (suffix_neq _ _ _ _ _ _ H1 H2).
  - rewrite H5, H3. intros E. apply app_inj_2 in E as [_ E]; [done|done].
  - by apply (suffix_neq _ _ _ _ _ _ H1 H4).
Qed.

(** Tables written by flushes are never on a path of a compaction. *)
Lemma table_path_not_output cfg seq lvl num :
  1 <= lvl < 2 ^ 64 -> table_path cfg seq <> out_path (sst_dir cfg) lvl num.
Proof.
  intros Hl E. unfold table_path, out_path in E. apply app_inv_head in E.
  change (lit "/level0_") with (lit "/level" ++ to_string 0 ++ lit "_") in E. rewrite <-!app_assoc in E.
  apply app_inv_head in E. change (lit "_") with [Byte.x5f] in E. cbn [app] in E.
  apply (app_sep_inj is_digit) in E as [E _].
  - apply to_string_inj in E; lia.
  - by apply to_string_digits.
  - apply to_string_digits. lia.
  - intros [_ Hc]. vm_compute in Hc. discriminate Hc.
Qed.

Lemma segment_map_values seg k v :
  segment_map seg !! k = Some v -> (is_tombstone v = true -> data v = []) /\ exists e, e ∈ seg /\ we_key e = k.
Proof.
  unfold segment_map. rewrite apply_entries_lookup. destruct (last (filter _ seg)) as [e|] eqn:El; [|by rewrite lookup_empty].
  intros [= <-]. apply last_Some_elem_of, list_elem_of_filter in El as [Hk He]. split; [|by eauto].
  unfold entry_value. by destruct (bool_decide _).
Qed.

Lemma lists_map_elem m es e : lists_map m es -> e ∈ es -> m !! be_key e = Some (value_of_entry e).
Proof.
  intros Hl He. pose proof (lists_map_find m es (be_key e) Hl) as Hf. destruct Hl as [Hs ->].
  apply elem_of_list_to_map_1.
  - rewrite <-list_fmap_compose. by apply (StronglySorted_NoDup str_lt).
  - apply list_elem_of_fmap. by exists e.
Qed.

(** ** Files that are not tables do not matter *)

Section frame.
Context (w w' : World) (cm : CompactionManager).
Hypothesis Hw' : healthy w'.
Hypothesis Hsame : forall m, m ∈ files_ cm -> files w' !! filepath m = files w !! filepath m.

Lemma frame_entries m : catalogue_ok w cm -> m ∈ files_ cm -> table_file w' m /\ entries_of w' m = entries_of w m.
Proof. intros Hok Hm. apply (table_file_frame w); [done|by apply Hsame|by apply (co_tables _ _ Hok)]. Qed.

Lemma frame_version m k : catalogue_ok w cm -> m ∈ files_ cm -> version w' k m = version w k m.
Proof. intros Hok Hm. unfold version. by destruct (frame_entries m Hok Hm) as [_ ->]. Qed.

Lemma frame_current k o : catalogue_ok w cm -> current w (files_ cm) k o -> current w' (files_ cm) k o.
Proof.
  intros Hok. destruct o as [e|]; cbn [current].
  - intros (m & Hm & Hv & Hall). exists m. rewrite frame_version by done. split_and!; auto.
    intros m' Hm'. rewrite frame_version by done. by apply Hall.
  - intros Hnone m Hm. rewrite frame_version by done. by apply Hnone.
Qed.

Lemma frame_orderly : orderly w cm -> orderly w' cm.
Proof.
  intros [Hok Hfresh Hlev Hnum Hsize]. split; auto.
  - split; [done| |apply Hok|apply Hok|].
    + intros m Hm. by apply frame_entries.
    + intros m m' k Hm Hm'. rewrite !frame_version by done. by apply (co_versions _ _ Hok).
  - unfold catalogue_size in *.
    rewrite (list_fmap_ext (fun m => encoded_sum (entries_of w' m)) (fun m => encoded_sum (entries_of w m))); [done|].
    intros i m Hm%list_elem_of_lookup_2. by destruct (frame_entries m Hok Hm) as [_ ->].
Qed.
End frame.

Lemma frame_age {sort : StdSort} w w' cm :
  healthy w' -> (forall m, m ∈ files_ cm -> files w' !! filepath m = files w !! filepath m) -> catalogue_ok w cm ->
  position_is_age w cm -> position_is_age w' cm.
Proof.
  intros Hw' Hsame Hok Hage i j a b k Hi Hj Hij.
  rewrite !(frame_version w w' cm); [by apply (Hage i j)|done..| |done|done|done|].
  - by apply list_elem_of_lookup_2, elem_of_GetFilesAtLevel in Hj as [? _].
  - by apply list_elem_of_lookup_2, elem_of_GetFilesAtLevel in Hi as [? _].
Qed.

(** After a run the manager is ready for the next one. *)
Lemma run_orderly {sort : StdSort} w cm w' cm' :
  orderly w cm -> run_result w cm w' cm' -> next_file_number_ cm' < 2 ^ 63 -> orderly w' cm'.
Proof.
  intros Hc Hr Hn. pose proof (rr_number _ _ _ _ Hr). pose proof (or_number _ _ Hc). pose proof (or_levels _ _ Hc).
  pose proof (rr_size _ _ _ _ Hr). pose proof (or_size _ _ Hc).
  split; [apply Hr..| |lia|lia]. by rewrite (rr_levels _ _ _ _ Hr).
Qed.

(** A table has an entry, so the catalogue is no longer than its contents. *)
Lemma catalogue_count w cm : catalogue_ok w cm -> 9 * Z.of_nat (length (files_ cm)) <= catalogue_size w cm.
Proof.
  intros Hok. unfold catalogue_size. pose proof (co_tables _ _ Hok) as Ht. clear Hok.
  induction (files_ cm) as [|m fs IH]; [done|]. rewrite fmap_cons. unfold zsum in *. cbn [foldr length].
  specialize (IH ltac:(intros m' Hm'; apply Ht; by right)).
  destruct (Ht m ltac:(by left)) as [_ _ _ (first & _ & Hh & _)].
  pose proof (encoded_sum_elem (entries_of w m) first ltac:(by apply head_Some_elem_of)) as He.
  unfold EncodedSize in He. lia.
Qed.

(** ** A new table on level 0 *)

Section add_table.
Context (w w' : World) (cm : CompactionManager) (meta : SSTableMeta) (es : list BlockEntry).
Hypothesis Hor : orderly w cm.
Hypothesis Hw' : healthy w'.
Hypothesis Hsame : forall m, m ∈ files_ cm -> files w' !! filepath m = files w !! filepath m.
Hypothesis Ht : table_file w' meta.
Hypothesis Hes : entries_of w' meta = es.
Hypothesis Hlevel : level meta = 0.
Hypothesis Hpath : forall m, m ∈ files_ cm -> filepath m <> filepath meta.
Hypothesis Hfresh : forall lvl num, 1 <= lvl < max_level_ cm -> filepath meta <> out_path (cm_data_dir_ cm) lvl num.
Hypothesis Hnewest : forall m, m ∈ files_ cm -> level m = 0 -> sequence_number m < sequence_number meta.
Hypothesis Hsize : catalogue_size w cm + encoded_sum es < 2 ^ 30.

Let cm' : CompactionManager := set_files cm (files_ cm ++ [meta]).
Let Hok : catalogue_ok w cm := or_catalogue _ _ Hor.

Lemma add_table_size : catalogue_size w' cm' = catalogue_size w cm + encoded_sum es.
Proof.
  unfold catalogue_size, cm'. cbn [set_files files_]. rewrite fmap_app, zsum_app.
  rewrite (list_fmap_ext (fun m => encoded_sum (entries_of w' m)) (fun m => encoded_sum (entries_of w m)) (files_ cm)).
  - unfold zsum at 2. cbn [fmap list_fmap foldr]. rewrite Hes. lia.
  - intros i m Hm%list_elem_of_lookup_2. by destruct (frame_entries w w' cm Hw' Hsame m Hok Hm) as [_ ->].
Qed.

Lemma add_table_newer m : m ∈ files_ cm -> newer_first meta m = true.
Proof.
  intros Hm. apply newer_first_spec. rewrite Hlevel. pose proof (co_levels _ _ Hok m Hm).
  destruct (decide (level m = 0)) as [Hl|]; [|lia]. specialize (Hnewest m Hm Hl). lia.
Qed.

Lemma elem_of_add_table m : m ∈ files_ cm' <-> m ∈ files_ cm \/ m = meta.
Proof. unfold cm'. cbn [set_files files_]. by rewrite elem_of_app, list_elem_of_singleton. Qed.

Lemma add_table_catalogue : catalogue_ok w' cm'.
Proof.
  split.
  - done.
  - intros m [Hm| ->]%elem_of_add_table; [by apply (frame_entries w w' cm)|done].
  - unfold cm'. cbn [set_files files_]. rewrite fmap_app. apply NoDup_app. split_and!.
    + apply (co_paths _ _ Hok).
    + intros p (m & -> & Hm)%list_elem_of_fmap. cbn [fmap list_fmap]. rewrite list_elem_of_singleton. by apply Hpath.
    + apply NoDup_singleton.
  - intros m [Hm| ->]%elem_of_add_table; [by apply (co_levels _ _ Hok)|]. pose proof (or_levels _ _ Hor).
    rewrite Hlevel. cbn. lia.
  - intros m m' k [Hm| ->]%elem_of_add_table [Hm'| ->]%elem_of_add_table Hne Hl; try done.
    + rewrite !(frame_version w w' cm) by done. by apply (co_versions _ _ Hok).
    + intros _ _. rewrite Hlevel in Hl. pose proof (Hnewest m Hm Hl). split; [done|lia].
    + intros _ _. rewrite Hlevel in Hl. symmetry in Hl. pose proof (Hnewest m' Hm' Hl). split; [done|lia].
Qed.

Lemma add_table_orderly : orderly w' cm'.
Proof.
  pose proof (or_levels _ _ Hor). pose proof (or_number _ _ Hor).
  split; [apply add_table_catalogue| |done|done|rewrite add_table_size; lia].
  intros m lvl num [Hm| ->]%elem_of_add_table Hl Hn; [by apply (or_fresh _ _ Hor)|by apply Hfresh].
Qed.

(** Its versions are the current ones; the other keys are not affected. *)
Lemma add_table_current k o :
  current w (files_ cm) k o ->
  current w' (files_ cm') k (match find_key es k with Some e => Some e | None => o end).
Proof.
  intros Ho. destruct (find_key es k) as [e|] eqn:Ef.
  - exists meta. split; [by apply elem_of_add_table; right|]. split; [unfold version; by rewrite Hes|].
    intros m [Hm|Hm]%elem_of_add_table Hne _; [by apply add_table_newer|done].
  - assert (version w' k meta = None) as Hnone by (unfold version; by rewrite Hes).
    destruct o as [e|]; cbn [current] in *.
    + destruct Ho as (m & Hm & Hv & Hall). exists m. split; [by apply elem_of_add_table; left|].
      rewrite (frame_version w w' cm) by done. split; [done|].
      intros m' [Hm'| ->]%elem_of_add_table; [|by rewrite Hnone; intros _ [? ?]].
      rewrite (frame_version w w' cm) by done. by apply Hall.
    + intros m [Hm| ->]%elem_of_add_table; [|done]. rewrite (frame_version w w' cm) by done. by apply Ho.
Qed.
End add_table.

(** ** The state between operations *)

(** The log holds [flushed ++ cur]; [cur] is in the memtable. *)
Record settled (cfg : StorageConfig) (w : World) (e : StorageEngine) (flushed cur : list WALEntry) : Prop := {
  se_config : config_ e = cfg;
  se_tables : orderly w (compaction_manager_ e);
  se_metas : Forall meta_ok (files_ (compaction_manager_ e));
  se_dir : cm_data_dir_ (compaction_manager_ e) = sst_dir cfg;
  se_levels : max_level_ (compaction_manager_ e) = kNumLevels;
  se_level0 : forall m, m ∈ files_ (compaction_manager_ e) -> level m = 0 ->
    filepath m = table_path cfg (sequence_number m) /\ 0 <= sequence_number m < next_sst_sequence_ e;
  se_deeper : forall m, m ∈ files_ (compaction_manager_ e) -> level m <> 0 ->
    exists num, filepath m = out_path (sst_dir cfg) (level m) num;
  se_wal : exists wal, wal_ e = Some wal /\ path_ wal = wal_path cfg /\ wal_state w wal (flushed ++ cur);
  se_readable : Forall readable (flushed ++ cur);
  se_keys : Forall (fun x => we_key x <> []) (flushed ++ cur);
  se_cost : catalogue_size w (compaction_manager_ e) + log_cost cur <= log_cost (flushed ++ cur) < 2 ^ 30;
  se_mem : exists mt, active_memtable_ e = Some mt /\ mt_repr mt (segment_map cur);
  se_imm : immutable_memtable_ e = None;
  se_cpm : checkpoint_manager_ e = CheckpointManager_new (data_dir cfg);
  se_seq : 1 <= next_sst_sequence_ e <= 1 + Z.of_nat (length flushed)
}.

(** With nothing pending, the checkpoint covers the log and lists the tables. *)
Definition checkpointed (cfg : StorageConfig) (w : World) (e : StorageEngine) (flushed cur : list WALEntry) : Prop :=
  cur = [] -> loaded w cfg = Val (mkCheckpoint (Z.of_nat (length flushed)) (files_ (compaction_manager_ e))).

Section facts.
Context {cfg : StorageConfig} {w : World} {e : StorageEngine} {flushed cur : list WALEntry}.
Hypothesis Hs : settled cfg w e flushed cur.

Lemma settled_names m : m ∈ files_ (compaction_manager_ e) -> sst_named (filepath m).
Proof.
  intros Hm. destruct (decide (level m = 0)) as [Hl|Hl].
  - destruct (se_level0 _ _ _ _ _ Hs m Hm Hl) as [-> _]. apply table_path_named.
  - destruct (se_deeper _ _ _ _ _ Hs m Hm Hl) as [num ->]. apply out_path_named.
Qed.

Lemma settled_catalogue : catalogue_ok w (compaction_manager_ e).
Proof. apply (se_tables _ _ _ _ _ Hs). Qed.

Lemma settled_bounds :
  Z.of_nat (length (flushed ++ cur)) < 2 ^ 27 /\ log_cost cur < 2 ^ 30 /\
  Z.of_nat (length (files_ (compaction_manager_ e))) < 2 ^ 27.
Proof.
  pose proof (se_cost _ _ _ _ _ Hs). pose proof (log_cost_count (flushed ++ cur)).
  pose proof (catalogue_count _ _ settled_catalogue). pose proof (log_cost_count cur). lia.
Qed.

(** The table a flush would write to is not in the catalogue. *)
Lemma settled_next_path m :
  m ∈ files_ (compaction_manager_ e) -> filepath m <> table_path cfg (next_sst_sequence_ e).
Proof.
  intros Hm. pose proof (se_seq _ _ _ _ _ Hs). pose proof settled_bounds as (Hb & _). rewrite length_app in Hb.
  destruct (decide (level m = 0)) as [Hl|Hl].
  - destruct (se_level0 _ _ _ _ _ Hs m Hm Hl) as [-> Hq]. intros E. apply table_path_inj in E; lia.
  - destruct (se_deeper _ _ _ _ _ Hs m Hm Hl) as [num ->]. intros E. symmetry in E. revert E.
    apply table_path_not_output. pose proof (co_levels _ _ settled_catalogue m Hm) as Hlev.
    rewrite (se_levels _ _ _ _ _ Hs) in Hlev. unfold kNumLevels in Hlev. lia.
Qed.

(** Files that are neither tables nor the log. *)
Lemma settled_frame w' :
  healthy w' ->
  (forall m, m ∈ files_ (compaction_manager_ e) -> files w' !! filepath m = files w !! filepath m) ->
  orderly w' (compaction_manager_ e) /\ catalogue_size w' (compaction_manager_ e) = catalogue_size w (compaction_manager_ e) /\
  forall k o, current w (files_ (compaction_manager_ e)) k o -> current w' (files_ (compaction_manager_ e)) k o.
Proof.
  intros Hw' Hf. split_and!.
  - apply (frame_orderly w); auto. apply (se_tables _ _ _ _ _ Hs).
  - unfold catalogue_size. f_equal. apply list_fmap_ext. intros i m Hm%list_elem_of_lookup_2.
    by destruct (frame_entries w w' _ Hw' Hf m settled_catalogue Hm) as [_ ->].
  - intros k o. apply frame_current; auto. apply settled_catalogue.
Qed.
End facts.

(** ** Opening *)

Lemma empty_orderly w cm :
  healthy w -> files_ cm = [] -> 2 <= max_level_ cm < 2 ^ 31 -> 0 <= next_file_number_ cm < 2 ^ 63 ->
  orderly w cm /\ catalogue_size w cm = 0.
Proof.
  intros Hw Hf Hl Hn. assert (catalogue_size w cm = 0) as Hz by (unfold catalogue_size; by rewrite Hf).
  assert (forall m, ~ m ∈ files_ cm) as Hno by (rewrite Hf; intros m; apply not_elem_of_nil).
  split; [|done]. split; auto; [|by intros m lvl num ?%Hno|lia].
  split; auto; [by intros m ?%Hno| |by intros m ?%Hno|by intros m m' k ?%Hno].
  rewrite Hf. constructor.
Qed.

Section steps.
Context {abi : Abi} {sort : StdSort}.

Lemma settled_fresh cfg w :
  healthy w -> files w !! wal_path cfg = None ->
  files w !! checkpoint_path_ (CheckpointManager_new (data_dir cfg)) = None ->
  exists e w', StorageEngine_Open w cfg = Some (Val e, w') /\ settled cfg w' e [] [] /\ checkpointed cfg w' e [] [] /\
    files_ (compaction_manager_ e) = [] /\ next_file_number_ (compaction_manager_ e) = 1.
Proof.
  intros Hw Hf Hcp. destruct (engine_open_fresh cfg w Hw Hf Hcp) as (e & w' & Ho & Hv & Hseq).
  destruct (ev_files _ _ _ _ _ Hv) as [Hlen _].
  assert (files_ (compaction_manager_ e) = []) as Hnil by (by destruct (files_ (compaction_manager_ e))).
  pose proof (ev_manager _ _ _ _ _ Hv) as Hcm. destruct (ev_wal _ _ _ _ _ Hv) as (wal & Hwal & Hp & Hws).
  destruct (empty_orderly w' (compaction_manager_ e)) as [Hor Hz]; [apply Hws|done|by rewrite Hcm|by rewrite Hcm|].
  exists e, w'. split; [done|]. split; [|split; [|split; [done|by rewrite Hcm]]].
  2: { intros _. apply (manifest_loaded w' cfg _ [] (ev_files _ _ _ _ _ Hv) (ev_manifest _ _ _ _ _ Hv)). }
  split; try apply Hv; auto; try (by rewrite Hcm); rewrite ?Hnil, ?Hz; try done.
  - by intros m ?%not_elem_of_nil.
  - by intros m ?%not_elem_of_nil.
  - rewrite Hseq. done.
Qed.

(** ** Reading *)

Lemma settled_get cfg w e flushed cur key o :
  settled cfg w e flushed cur -> current w (files_ (compaction_manager_ e)) key o ->
  StorageEngine_Get w e key
  = Some (Val (match segment_map cur !! key ≫= visible with Some v => Some v | None => client_value o end), w).
Proof.
  intros Hs Ho. destruct (se_mem _ _ _ _ _ Hs) as (mt & Hmt & Hrepr). unfold StorageEngine_Get.
  rewrite Hmt, (mt_get_repr _ _ key Hrepr), (se_imm _ _ _ _ _ Hs).
  destruct (segment_map cur !! key ≫= visible); [done|]. unfold GetFromSSTables, AllFiles.
  apply table_read; [apply (settled_catalogue Hs)|done].
Qed.

(** ** Writing *)

(** [current] before and after a step that does not change the tables. *)
Definition same_tables (w : World) (e : StorageEngine) (w' : World) (e' : StorageEngine) : Prop :=
  forall k o, current w (files_ (compaction_manager_ e)) k o -> current w' (files_ (compaction_manager_ e')) k o.

Lemma settled_write cfg w e flushed cur type key value :
  settled cfg w e flushed cur -> write_ok type key value -> key <> [] ->
  log_cost (flushed ++ cur) + entry_cost (mkWALEntry 0 type key value) < 2 ^ 30 ->
  exists e1 w1 needs e2 cur',
    WriteEntry_log w e type key value = Some (StatusOk, e1, w1) /\
    WriteEntry_apply e1 type key value = Some (needs, e2) /\
    settled cfg w1 e2 flushed cur' /\ cur' <> [] /\ segment_map cur' = apply_entry (segment_map cur) (mkWALEntry 0 type key value) /\
    log_cost (flushed ++ cur') = log_cost (flushed ++ cur) + entry_cost (mkWALEntry 0 type key value) /\
    compaction_manager_ e2 = compaction_manager_ e /\ same_tables w e w1 e2.
Proof.
  intros Hs Hok Hkey Hsize. pose proof (write_ok_readable _ _ _ Hok) as Hrd.
  pose proof (settled_bounds Hs) as (Hb & _). destruct (se_wal _ _ _ _ _ Hs) as (wal & Hwal & Hp & Hws).
  destruct (se_mem _ _ _ _ _ Hs) as (mt & Hmt & Hrepr).
  set (x := mkWALEntry 0 type key value) in *. set (n := 1 + Z.of_nat (length (flushed ++ cur))).
  destruct (write_run w e wal mt _ _ type key value Hwal Hws Hmt Hrepr Hok)
    as (e1 & w1 & needs & e2 & wal' & mt' & H1 & H2 & Hp' & Hws' & Hother & Hrepr' & Ec & Ew & Em & Ei & Ecm & Ecp & Es); [lia|].
  fold x n in Hws', Hrepr'.
  destruct (settled_frame Hs w1) as (Hor & Hcs & Hcur); [apply Hws'| |].
  { intros m Hm. apply Hother. rewrite Hp. by apply (sst_named_distinct cfg), (settled_names Hs). }
  exists e1, w1, needs, e2, (cur ++ [stamp n x]). split; [done|]. split; [done|].
  rewrite segment_map_snoc, app_assoc, log_cost_snoc. split; [|split_and!; auto].
  2: { by destruct cur. }
  2: { unfold same_tables. by rewrite Ecm. }
  destruct Hs as [Sc St Sm Sd Sl S0 Sdp _ Sr Sk [Sc1 Sc2] _ Si Scp Sq].
  split; rewrite ?Ecm, ?Ec, ?Ecp, ?Es, ?Ei; auto.
  - exists wal'. split; [done|]. split; [congruence|]. by rewrite app_assoc.
  - rewrite app_assoc. apply Forall_app_2; [done|]. constructor; [|done]. apply readable_stamp; [done|unfold n; lia].
  - rewrite app_assoc. apply Forall_app_2; [done|]. by constructor.
  - rewrite app_assoc, !log_cost_snoc, Hcs. fold x. lia.
  - exists mt'. by rewrite segment_map_snoc.
Qed.

(** ** Flushing *)

(** What the tables say after a flush of [m]. *)
Definition flushed_version (m : gmap str SkipListValue) (k : str) (o : option BlockEntry) : option BlockEntry :=
  match m !! k with Some v => Some (entry_for k v) | None => o end.

Lemma new_meta_table cfg w seq size es cur :
  healthy w -> holds_table w (table_path cfg seq) es -> lists_map (segment_map cur) es -> es <> [] ->
  Forall (fun x => we_key x <> []) cur ->
  table_file w (new_meta cfg seq size es) /\ entries_of w (new_meta cfg seq size es) = es.
Proof.
  intros Hw Ht Hl Hne Hkeys. pose proof (entries_of_holds w (new_meta cfg seq size es) es Hw Ht) as E. split; [|done].
  assert (forall x, x ∈ es -> tombstone_plain x /\ be_key x <> []) as Hall.
  { intros x Hx. pose proof (lists_map_elem _ _ x Hl Hx) as Hv. apply segment_map_values in Hv as [Hp (y & Hy & Hk)].
    rewrite Forall_forall in Hkeys. specialize (Hkeys y Hy). split; [exact Hp|congruence]. }
  split; rewrite ?E; [done|apply Forall_forall; intros x Hx; by apply Hall..|].
  destruct es as [|first rest]; [done|].
  destruct (last (first :: rest)) as [l|] eqn:El; [|by apply last_None in El].
  exists first, l. unfold new_meta. by rewrite El.
Qed.

(** The table of the flush is on disk, catalogued and checkpointed. *)
Section flushed.
Context (cfg : StorageConfig) (w w' : World) (e e' : StorageEngine) (flushed cur : list WALEntry).
Context (es : list BlockEntry) (size : Z).
Let seq : Z := next_sst_sequence_ e.
Let meta : SSTableMeta := new_meta cfg seq size es.
Let metas : list SSTableMeta := files_ (compaction_manager_ e) ++ [meta].
Hypothesis Hcfg : config_ok cfg.
Hypothesis Hs : settled cfg w e flushed cur.
Hypothesis Hcur : cur <> [].
Hypothesis Hw' : healthy w'.
Hypothesis Ht : holds_table w' (table_path cfg seq) es.
Hypothesis Hl : lists_map (segment_map cur) es.
Hypothesis Hes : es <> [].
Hypothesis Hrange : 0 <= size < 2 ^ 64.
Hypothesis Hcpf : files w' !! checkpoint_path_ (CheckpointManager_new (data_dir cfg))
  = Some (SerializeCheckpoint (mkCheckpoint (Z.of_nat (length (flushed ++ cur))) metas)).
Hypothesis Hother : forall p, p <> table_path cfg seq ->
  p <> checkpoint_path_ (CheckpointManager_new (data_dir cfg)) ->
  p <> temp_path_ (CheckpointManager_new (data_dir cfg)) -> files w' !! p = files w !! p.
Hypothesis Hcm' : compaction_manager_ e' = set_files (compaction_manager_ e) metas.

Lemma flush_bounds : 0 <= seq < 2 ^ 32 /\ log_cost cur < 2 ^ 30 /\ Z.of_nat (length (flushed ++ cur)) < 2 ^ 27.
Proof.
  pose proof (settled_bounds Hs) as (Hb1 & Hb2 & _). pose proof (se_seq _ _ _ _ _ Hs) as Hq. fold seq in Hq.
  rewrite length_app in *. lia.
Qed.

Lemma flush_table_file : table_file w' meta /\ entries_of w' meta = es.
Proof.
  apply (new_meta_table cfg w' seq size es cur); auto.
  by destruct (proj1 (Forall_app _ _ _) (se_keys _ _ _ _ _ Hs)) as [_ ?].
Qed.

Lemma flush_meta_ok : meta_ok meta.
Proof.
  pose proof flush_bounds as (H1 & H2 & _).
  apply (sf_ok _ _ _ _ _ (new_meta_seg_file cfg w' seq size es cur Hcfg Ht Hl Hes H2 Hrange H1)).
Qed.

Lemma flush_same m : m ∈ files_ (compaction_manager_ e) -> files w' !! filepath m = files w !! filepath m.
Proof.
  intros Hm. destruct (sst_named_distinct cfg _ (settled_names Hs m Hm)) as (_ & H1 & H2).
  apply Hother; [by apply (settled_next_path Hs)|done|done].
Qed.

Lemma flush_newest m :
  m ∈ files_ (compaction_manager_ e) -> level m = 0 -> sequence_number m < sequence_number meta.
Proof. intros Hm Hlm. by destruct (se_level0 _ _ _ _ _ Hs m Hm Hlm) as [_ [_ ?]]. Qed.

Lemma flush_current k o :
  current w (files_ (compaction_manager_ e)) k o ->
  current w' (files_ (compaction_manager_ e')) k (flushed_version (segment_map cur) k o).
Proof.
  intros Ho. rewrite Hcm'. unfold flushed_version. pose proof (lists_map_find _ _ k Hl) as Hf.
  pose proof (add_table_current w w' _ meta es (se_tables _ _ _ _ _ Hs) Hw' flush_same (proj2 flush_table_file)
                eq_refl flush_newest k o Ho) as H.
  rewrite Hf in H. by destruct (segment_map cur !! k).
Qed.

Lemma flush_orderly :
  orderly w' (compaction_manager_ e') /\
  catalogue_size w' (compaction_manager_ e') = catalogue_size w (compaction_manager_ e) + encoded_sum es.
Proof.
  pose proof (lists_map_size cur es Hl) as Hsz. pose proof (se_cost _ _ _ _ _ Hs) as [Hcost1 Hcost2].
  destruct flush_table_file as [Htf Hent]. rewrite Hcm'. split.
  - apply (add_table_orderly w w' _ meta es); auto; [apply Hs|apply flush_same|apply (settled_next_path Hs)| |apply flush_newest|lia].
    intros lvl num Hlv. rewrite (se_dir _ _ _ _ _ Hs). apply table_path_not_output.
    rewrite (se_levels _ _ _ _ _ Hs) in Hlv. unfold kNumLevels in Hlv. lia.
  - apply (add_table_size w w' _ meta es); auto; [apply Hs|apply flush_same].
Qed.

Lemma flush_saved : loaded w' cfg = Val (mkCheckpoint (Z.of_nat (length (flushed ++ cur))) metas).
Proof.
  unfold loaded. rewrite Hcpf.
  pose proof (ParseCheckpoint_Serialize (mkCheckpoint (Z.of_nat (length (flushed ++ cur))) metas) []) as Hparse.
  rewrite app_nil_r in Hparse. apply Hparse. pose proof flush_bounds. pose proof (settled_bounds Hs) as (_ & _ & Hb3).
  unfold checkpoint_ok, metas. cbn [last_flushed_lsn sstables]. rewrite (length_app _ [meta]). cbn [length].
  split_and!; [lia|lia|lia|]. apply Forall_app_2; [apply Hs|]. constructor; [apply flush_meta_ok|done].
Qed.

Lemma settled_flushed :
  config_ e' = cfg -> wal_ e' = wal_ e -> active_memtable_ e' = Some MemTable_new -> immutable_memtable_ e' = None ->
  checkpoint_manager_ e' = checkpoint_manager_ e -> next_sst_sequence_ e' = seq + 1 ->
  settled cfg w' e' (flushed ++ cur) [].
Proof.
  intros Hc' Hwal' Hact' Himm' Hcpm' Hseq'. pose proof flush_bounds as (Hb1 & Hb2 & Hb3).
  destruct flush_orderly as [Hor Hsz']. pose proof (lists_map_size cur es Hl) as Hsz.
  pose proof flush_meta_ok as Hmeta.
  assert (1 <= length cur)%nat as Hlen by (destruct cur; cbn; [done|lia]).
  destruct Hs as [Sc St Sm Sd Sl S0 Sdp (wal & Hwal & Hp & Hws) Sr Sk [Sc1 Sc2] _ Si Scp Sq].
  split; rewrite ?app_nil_r; auto; try congruence; rewrite ?Hcm'; cbn [set_files files_ cm_data_dir_ max_level_]; auto.
  - apply Forall_app_2; [done|]. by constructor.
  - intros m [Hm|Hm]%elem_of_app Hlm; [destruct (S0 m Hm Hlm); split; [done|unfold seq in *; lia]|].
    apply list_elem_of_singleton in Hm as ->. split; [done|]. cbn. lia.
  - intros m [Hm|Hm]%elem_of_app Hlm; [by apply Sdp|]. apply list_elem_of_singleton in Hm as ->. done.
  - exists wal. split; [congruence|]. split; [done|]. apply (wal_state_frame w); [done|done|]. rewrite Hp.
    destruct (paths_distinct cfg seq) as (D1 & _ & _ & D4 & D5). apply Hother; auto.
  - rewrite Hcm' in Hsz'. rewrite Hsz'. unfold log_cost at 1. cbn. lia.
  - exists MemTable_new. split; [done|]. apply mt_new_repr.
  - rewrite Hseq', length_app. unfold seq in *. lia.
Qed.
End flushed.

Lemma settled_flush cfg w e flushed cur :
  config_ok cfg -> settled cfg w e flushed cur -> checkpointed cfg w e flushed cur ->
  exists e' w', FlushMemTable w e = Some (StatusOk, e', w') /\ settled cfg w' e' (flushed ++ cur) [] /\
    checkpointed cfg w' e' (flushed ++ cur) [] /\
    next_file_number_ (compaction_manager_ e') = next_file_number_ (compaction_manager_ e) /\
    forall k o, current w (files_ (compaction_manager_ e)) k o ->
      current w' (files_ (compaction_manager_ e')) k (flushed_version (segment_map cur) k o).
Proof.
  intros Hcfg Hs Hcp. pose proof (settled_bounds Hs) as (Hb1 & Hb2 & _). pose proof (se_seq _ _ _ _ _ Hs) as Hq.
  destruct (se_mem _ _ _ _ _ Hs) as (mt & Hmt & Hrepr). destruct (se_wal _ _ _ _ _ Hs) as (wal & Hwal & Hp & Hws).
  unfold FlushMemTable, Flush_swap. rewrite Hmt, (mt_is_empty_repr _ _ Hrepr).
  destruct (decide (cur = [])) as [->|Hcur].
  { rewrite bool_decide_true by (by apply segment_map_nil). exists e, w. rewrite app_nil_r. by split_and!. }
  rewrite bool_decide_false by (by rewrite segment_map_nil). unfold Flush_lsn.
  cbn [set_memtables wal_]. rewrite Hwal. unfold current_sequence_number. rewrite (ws_next _ _ _ Hws).
  rewrite u64_small by lia. replace (1 + _ - 1) with (Z.of_nat (length (flushed ++ cur))) by lia.
  destruct (Flush_write_run cfg w (set_memtables e (Some MemTable_new) None) mt cur (next_sst_sequence_ e)
              (Z.of_nat (length (flushed ++ cur))) (ws_healthy _ _ _ Hws) (se_config _ _ _ _ _ Hs) eq_refl
              ltac:(rewrite length_app in Hb1; lia) (se_levels _ _ _ _ _ Hs) (se_cpm _ _ _ _ _ Hs) Hrepr Hcur Hb2)
    as (es & size & e' & w' & -> & Hw' & Ht & Hl & Hes & Hrange & Hcpf & Hother & Hc' & Hwal' & Hact' & Himm' & Hcm' & Hcpm' & Hseq').
  exists e', w'. split; [done|]. split_and!.
  - by apply (settled_flushed cfg w w' e e' flushed cur es size).
  - intros _. rewrite Hcm'. by apply (flush_saved cfg w w' e flushed cur es size).
  - by rewrite Hcm'.
  - by apply (flush_current cfg w w' e e' flushed cur es size).
Qed.
End steps.

(** ** One pass of the compaction thread *)

(** The condition on the level-0 files, needed when there is something to do. *)
Definition pass_ok {sort : StdSort} (w : World) (e : StorageEngine) : Prop :=
  NeedsCompaction (compaction_manager_ e) = true -> position_is_age w (compaction_manager_ e).

Section pass.
Context {abi : Abi} {sort : StdSort}.

(** After the run, before the checkpoint. *)
Lemma settled_run cfg w e flushed cur w' cm' :
  config_ok cfg -> settled cfg w e flushed cur -> run_result w (compaction_manager_ e) w' cm' ->
  next_file_number_ cm' < 2 ^ 63 -> settled cfg w' (set_compaction e cm') flushed cur.
Proof.
  intros Hcfg Hs Hr Hn. pose proof (rr_size _ _ _ _ Hr) as Hsize. pose proof (settled_names Hs) as Hnames.
  destruct Hs as [Sc St Sm Sd Sl S0 Sdp (wal & Hwal & Hp & Hws) Sr Sk [Sc1 Sc2] Smem Si Scp Sq].
  split; cbn [set_compaction config_ compaction_manager_ wal_ active_memtable_ immutable_memtable_ checkpoint_manager_
              next_sst_sequence_]; auto.
  - by apply (run_orderly w (compaction_manager_ e)).
  - apply (rr_metas _ _ _ _ Hr); [done|]. by rewrite Sd.
  - by rewrite (rr_dir _ _ _ _ Hr).
  - by rewrite (rr_levels _ _ _ _ Hr).
  - intros m [Hm|[Hm _]]%(rr_names _ _ _ _ Hr) Hl; [by apply S0|lia].
  - intros m [Hm|[_ (num & Hm)]]%(rr_names _ _ _ _ Hr) Hl; [by apply Sdp|]. exists num. by rewrite Hm, Sd.
  - exists wal. split_and!; auto. apply (wal_state_frame w); [done|apply (co_healthy _ _ (rr_catalogue _ _ _ _ Hr))|].
    rewrite Hp. apply (rr_others _ _ _ _ Hr).
    + intros m Hm. by apply sst_named_distinct, Hnames.
    + intros lvl num. apply sst_named_distinct, out_path_named.
  - lia.
Qed.

(** Other files than the log and the tables. *)
Lemma settled_same cfg w e flushed cur w' :
  settled cfg w e flushed cur -> healthy w' -> files w' !! wal_path cfg = files w !! wal_path cfg ->
  (forall m, m ∈ files_ (compaction_manager_ e) -> files w' !! filepath m = files w !! filepath m) ->
  settled cfg w' e flushed cur /\ same_tables w e w' e /\
  (position_is_age w (compaction_manager_ e) -> position_is_age w' (compaction_manager_ e)).
Proof.
  intros Hs Hw' Hlog Hsame. destruct (settled_frame Hs w') as (Hor & Hcs & Hcur); [done|done|].
  split; [|split; [exact Hcur|by apply frame_age; [..|apply (settled_catalogue Hs)]]].
  destruct Hs as [Sc St Sm Sd Sl S0 Sdp (wal & Hwal & Hp & Hws) Sr Sk Scost Smem Si Scp Sq].
  split; auto; [|by rewrite Hcs]. exists wal. split_and!; auto. apply (wal_state_frame w); [done|done|]. by rewrite Hp.
Qed.

(** A new checkpoint. *)
Lemma settled_checkpoint cfg w e flushed cur w' :
  settled cfg w e flushed cur -> healthy w' ->
  (forall p, p <> checkpoint_path_ (CheckpointManager_new (data_dir cfg)) ->
     p <> temp_path_ (CheckpointManager_new (data_dir cfg)) -> files w' !! p = files w !! p) ->
  settled cfg w' e flushed cur /\ same_tables w e w' e /\
  (position_is_age w (compaction_manager_ e) -> position_is_age w' (compaction_manager_ e)).
Proof.
  intros Hs Hw' Hf. apply settled_same; [done|done| |].
  - destruct (paths_distinct cfg 0) as (_ & _ & _ & H1 & H2). by apply Hf.
  - intros m Hm. destruct (sst_named_distinct cfg _ (settled_names Hs m Hm)) as (_ & H1 & H2). by apply Hf.
Qed.

Lemma settled_checkpoint_ok cfg w e flushed cur :
  settled cfg w e flushed cur ->
  checkpoint_ok (mkCheckpoint (Z.of_nat (length (flushed ++ cur))) (files_ (compaction_manager_ e))).
Proof.
  intros Hs. pose proof (settled_bounds Hs) as (Hb1 & _ & Hb3). unfold checkpoint_ok. cbn [last_flushed_lsn sstables].
  split_and!; [lia|lia|lia|]. apply (se_metas _ _ _ _ _ Hs).
Qed.

(** Every key reads the same in the tables before and after. *)
Definition same_values (w : World) (e : StorageEngine) (w' : World) (e' : StorageEngine) : Prop :=
  forall k o, current w (files_ (compaction_manager_ e)) k o ->
    exists o', current w' (files_ (compaction_manager_ e')) k o' /\ client_value o' = client_value o.

Lemma settled_pass cfg w e flushed cur :
  config_ok cfg -> settled cfg w e flushed cur -> checkpointed cfg w e flushed cur -> pass_ok w e ->
  next_file_number_ (compaction_manager_ e) + 2 ^ 27 < 2 ^ 63 ->
  exists e' w', CompactionLoop_body w e = Some (Ret e', w') /\ settled cfg w' e' flushed cur /\
    checkpointed cfg w' e' flushed cur /\
    next_file_number_ (compaction_manager_ e') <= next_file_number_ (compaction_manager_ e) + 2 ^ 27 /\
    same_values w e w' e' /\ pass_ok w' e'.
Proof.
  intros Hcfg Hs Hcp Hage Hnum. unfold CompactionLoop_body. destruct (NeedsCompaction (compaction_manager_ e)) eqn:Hneed; cbn [negb].
  2: { exists e, w. split_and!; auto; [lia|intros k o Ho; eauto]. }
  destruct (RunCompaction_spec w _ (se_tables _ _ _ _ _ Hs) (Hage Hneed) Hneed) as (stats & cm1 & w1 & -> & Hr).
  pose proof (rr_number _ _ _ _ Hr) as Hn1.
  pose proof (settled_run cfg w e flushed cur w1 cm1 Hcfg Hs Hr ltac:(lia)) as Hs1.
  destruct (se_wal _ _ _ _ _ Hs1) as (wal & Hwal & Hp & Hws). rewrite Hwal.
  assert (current_sequence_number wal = Z.of_nat (length (flushed ++ cur))) as ->.
  { unfold current_sequence_number. rewrite (ws_next _ _ _ Hws). pose proof (settled_bounds Hs) as (Hb & _).
    rewrite u64_small by lia. lia. }
  rewrite (se_cpm _ _ _ _ _ Hs1). unfold AllFiles. set (e1 := set_compaction e cm1) in *. set (cp := mkCheckpoint _ _).
  destruct (SaveCheckpoint_healthy w1 (data_dir cfg) cp (co_healthy _ _ (settled_catalogue Hs1)))
    as (w2 & -> & Hw2 & Hcpf & Hother).
  destruct (settled_checkpoint cfg w1 e1 flushed cur w2 Hs1 Hw2 Hother) as (Hs2 & Hsame & Hage2).
  exists e1, w2. split_and!; auto; [|cbn; lia| |intros _; apply Hage2, Hr].
  - intros ->. unfold loaded. rewrite Hcpf.
    pose proof (ParseCheckpoint_Serialize cp []) as Hparse. rewrite app_nil_r in Hparse. unfold cp in *.
    rewrite Hparse, app_nil_r by (by apply (settled_checkpoint_ok cfg w1 e1)). done.
  - intros k o Ho. destruct (rr_reads _ _ _ _ Hr k o Ho) as (o' & Ho' & E). exists o'. split; [|done]. by apply Hsame.
Qed.
End pass.
