(* ===== verification/EngineSpec.v ===== *)
(** * What the engine promises: a map with a pending part

    The abstract specification of the storage engine as its clients see it,
    and the theorem that the engine with its compaction thread implements it.
    The specification keeps the writes that are in the memtable apart from the
    contents of the tables, because the code does: a pending delete does not
    hide a value that has been flushed ([spec_get]).  A write may be followed
    by a flush of its own, which the specification leaves open; a pass of the
    compaction thread changes nothing. *)

From S2P Require Import Prelude Status BinarySerializer Mt19937 SkipList MemTable FileSystem Wal Recovery Checkpoint BloomFilter Block SSTable Compaction CompactionMerge BlockCache Engine EngineCorrect CompactionReads EngineCompaction.

(** ** The specification *)

Record spec_state : Set := mkSpec {
  sp_pending : gmap str SkipListValue;
  sp_tables : gmap str bytes
}.

Definition spec_init : spec_state := mkSpec ∅ ∅.

Definition spec_get (st : spec_state) (key : str) : option bytes :=
  match sp_pending st !! key ≫= visible with
  | Some v => Some v
  | None => sp_tables st !! key
  end.

Definition spec_write (st : spec_state) (key : str) (v : SkipListValue) : spec_state :=
  mkSpec (<[key := v]> (sp_pending st)) (sp_tables st).

(** A flush moves the pending writes to the tables, deletes included. *)
Definition flush_value (pending : option SkipListValue) (table : option bytes) : option bytes :=
  match pending with Some v => visible v | None => table end.

Definition spec_flush (st : spec_state) : spec_state :=
  mkSpec ∅ (merge flush_value (sp_pending st) (sp_tables st)).

(** What the threads do. *)
Inductive thread_op : Set :=
  | Client (op : engine_op)
  | Pass.

Inductive spec_step : spec_state -> thread_op -> spec_state -> Prop :=
  | spec_put st key value : spec_step st (Client (OpPut key value)) (spec_write st key (live value))
  | spec_put_flush st key value :
      spec_step st (Client (OpPut key value)) (spec_flush (spec_write st key (live value)))
  | spec_delete st key : spec_step st (Client (OpDelete key)) (spec_write st key tombstone)
  | spec_delete_flush st key : spec_step st (Client (OpDelete key)) (spec_flush (spec_write st key tombstone))
  | spec_do_flush st : spec_step st (Client OpFlush) (spec_flush st)
  | spec_pass st : spec_step st Pass st.

Inductive spec_run : spec_state -> list thread_op -> spec_state -> Prop :=
  | spec_done st : spec_run st [] st
  | spec_more st op st1 ops st2 : spec_step st op st1 -> spec_run st1 ops st2 -> spec_run st (op :: ops) st2.

Lemma spec_flush_lookup st key :
  sp_tables (spec_flush st) !! key = flush_value (sp_pending st !! key) (sp_tables st !! key).
Proof.
  cbn. rewrite lookup_merge. by destruct (sp_pending st !! key), (sp_tables st !! key).
Qed.

(** Without pending deletes a flush is not visible. *)
Lemma spec_flush_get st key :
  (forall v, sp_pending st !! key = Some v -> is_tombstone v = false) -> spec_get (spec_flush st) key = spec_get st key.
Proof.
  intros Hno. unfold spec_get at 1. cbn [spec_flush sp_pending]. rewrite lookup_empty. cbn [mbind option_bind].
  rewrite spec_flush_lookup. unfold spec_get, flush_value. destruct (sp_pending st !! key) as [v|] eqn:E; cbn; [|done].
  unfold visible. by rewrite (Hno v eq_refl).
Qed.

(** ** The engine *)

Section threads.
Context {abi : Abi} {sort : StdSort}.

Definition thread_step (w : World) (e : StorageEngine) (op : thread_op) : option (Status * StorageEngine * World) :=
  match op with
  | Client op => engine_step w e op
  | Pass => match CompactionLoop_body w e with Some (Ret e, w) => Some (StatusOk, e, w) | _ => None end
  end.

Fixpoint thread_run (w : World) (e : StorageEngine) (ops : list thread_op) : option (list Status * StorageEngine * World) :=
  match ops with
  | [] => Some ([], e, w)
  | op :: ops =>
      match thread_step w e op with
      | None => None
      | Some (s, e, w) =>
          match thread_run w e ops with
          | None => None
          | Some (ss, e, w) => Some (s :: ss, e, w)
          end
      end
  end.

(** Opening on an empty file system and running [ops]. *)
Definition run_threads (cfg : StorageConfig) (ops : list thread_op) : option (list Status * StorageEngine * World) :=
  match StorageEngine_Open (mkWorld ∅ []) cfg with
  | Some (Val e, w) => thread_run w e ops
  | _ => None
  end.

(** At every pass that has something to do the level-0 files are in order. *)
Definition ordered_passes (cfg : StorageConfig) (ops : list thread_op) : Prop :=
  forall before after ss e w, ops = before ++ Pass :: after -> run_threads cfg before = Some (ss, e, w) -> pass_ok w e.
End threads.

Definition thread_log (op : thread_op) : list WALEntry := match op with Client op => op_log op | Pass => [] end.

Definition thread_ok (op : thread_op) : Prop :=
  match op with Client op => op_ok op | Pass => True end /\ Forall (fun x => we_key x <> []) (thread_log op).

Definition threads_log (ops : list thread_op) : list WALEntry := mjoin (thread_log <$> ops).

(** ** The simulation *)

(** [c] is the size of the log and [n] bounds the file numbers used. *)
Record related (cfg : StorageConfig) (w : World) (e : StorageEngine) (st : spec_state) (c n : Z) : Prop := {
  re_state : exists flushed cur, settled cfg w e flushed cur /\ checkpointed cfg w e flushed cur /\
    sp_pending st = segment_map cur /\ log_cost (flushed ++ cur) = c;
  re_tables : forall k o, current w (files_ (compaction_manager_ e)) k o -> client_value o = sp_tables st !! k;
  re_number : next_file_number_ (compaction_manager_ e) <= n
}.

Section simulation.
Context {abi : Abi} {sort : StdSort}.

Lemma related_get cfg w e st c n key :
  related cfg w e st c n -> StorageEngine_Get w e key = Some (Val (spec_get st key), w).
Proof.
  intros [(flushed & cur & Hs & _ & Hp & _) Ht _].
  pose proof (first_version_current w _ key (settled_catalogue Hs)) as Ho.
  rewrite (settled_get cfg w e flushed cur key _ Hs Ho). unfold spec_get. by rewrite Hp, (Ht key _ Ho).
Qed.

Lemma related_same_values cfg w e st c n w' e' :
  related cfg w e st c n -> catalogue_ok w (compaction_manager_ e) -> catalogue_ok w' (compaction_manager_ e') ->
  same_values w e w' e' ->
  forall k o, current w' (files_ (compaction_manager_ e')) k o -> client_value o = sp_tables st !! k.
Proof.
  intros Hr Hok Hok' Hsame k o Ho. pose proof (first_version_current w _ k Hok) as Hv.
  destruct (Hsame k _ Hv) as (o' & Ho' & E). rewrite (current_unique _ _ _ _ _ Ho Ho'), E. by apply (re_tables _ _ _ _ _ _ Hr).
Qed.

Lemma related_flush cfg w e st c n :
  config_ok cfg -> related cfg w e st c n ->
  exists e' w', FlushMemTable w e = Some (StatusOk, e', w') /\ related cfg w' e' (spec_flush st) c n.
Proof.
  intros Hcfg [(flushed & cur & Hs & Hcp & Hp & Hc) Ht Hn].
  destruct (settled_flush cfg w e flushed cur Hcfg Hs Hcp) as (e' & w' & Hrun & Hs' & Hcp' & Hn' & Hcur).
  exists e', w'. split; [done|]. split; [| |lia].
  - exists (flushed ++ cur), []. split_and!; auto. by rewrite app_nil_r.
  - intros k o Ho. pose proof (first_version_current w _ k (settled_catalogue Hs)) as Hv.
    rewrite (current_unique _ _ _ _ _ Ho (Hcur k _ Hv)), spec_flush_lookup, <-(Ht k _ Hv), Hp.
    unfold flushed_version, flush_value. by destruct (segment_map cur !! k).
Qed.

Lemma related_write cfg w e st c n type key value :
  config_ok cfg -> related cfg w e st c n -> write_ok type key value -> key <> [] ->
  let x := mkWALEntry 0 type key value in
  c + entry_cost x < 2 ^ 30 ->
  exists e' w' st', WriteEntry w e type key value = Some (StatusOk, e', w') /\
    (st' = spec_write st key (entry_value x) \/ st' = spec_flush (spec_write st key (entry_value x))) /\
    related cfg w' e' st' (c + entry_cost x) n.
Proof.
  intros Hcfg [(flushed & cur & Hs & Hcp & Hp & <-) Ht Hn] Hok Hkey x Hcost.
  destruct (settled_write cfg w e flushed cur type key value Hs Hok Hkey Hcost)
    as (e1 & w1 & needs & e2 & cur' & Hlog & Happly & Hs' & Hne & Hm & Hcost' & Hcm & Hsame). fold x in Hm, Hcost'.
  assert (related cfg w1 e2 (spec_write st key (entry_value x)) (log_cost (flushed ++ cur) + entry_cost x) n) as Hr.
  { split; [| |by rewrite Hcm].
    - exists flushed, cur'. split_and!; auto; [intros E; by destruct (Hne E)|]. cbn [spec_write sp_pending]. by rewrite Hp, Hm.
    - intros k o Ho. pose proof (first_version_current w _ k (settled_catalogue Hs)) as Hv.
      rewrite (current_unique _ _ _ _ _ Ho (Hsame k _ Hv)). by apply Ht. }
  unfold WriteEntry. rewrite Hlog. change (negb (IsOk StatusOk)) with false. cbn beta iota. rewrite Happly.
  destruct needs; [|by do 3 eexists; split; [done|]; split; [left|]].
  destruct (related_flush cfg w1 e2 _ _ n Hcfg Hr) as (e' & w' & Hf & Hr').
  exists e', w'. eexists. split; [done|]. split; [by right|done].
Qed.

Lemma related_pass cfg w e st c n :
  config_ok cfg -> related cfg w e st c n -> pass_ok w e -> n + 2 ^ 27 < 2 ^ 63 ->
  exists e' w', CompactionLoop_body w e = Some (Ret e', w') /\ pass_ok w' e' /\ related cfg w' e' st c (n + 2 ^ 27).
Proof.
  intros Hcfg Hr Hage Hnum. pose proof Hr as [(flushed & cur & Hs & Hcp & Hp & Hc) Ht Hn].
  destruct (settled_pass cfg w e flushed cur Hcfg Hs Hcp Hage ltac:(lia)) as (e' & w' & Hrun & Hs' & Hcp' & Hn' & Hsame & Hage').
  exists e', w'. split; [done|]. split; [done|]. split; [by exists flushed, cur| |lia].
  apply (related_same_values cfg w e st c n); auto; [apply (settled_catalogue Hs)|apply (settled_catalogue Hs')].
Qed.

(** One step of the engine is one step of the specification. *)
Lemma related_step cfg w e st c n op :
  config_ok cfg -> related cfg w e st c n -> thread_ok op -> c + log_cost (thread_log op) < 2 ^ 30 ->
  (op = Pass -> pass_ok w e) -> n + 2 ^ 27 < 2 ^ 63 ->
  exists e' w' st', thread_step w e op = Some (StatusOk, e', w') /\ spec_step st op st' /\
    related cfg w' e' st' (c + log_cost (thread_log op)) (n + 2 ^ 27).
Proof.
  assert (forall e' w' st' c n, related cfg w' e' st' c n -> related cfg w' e' st' c (n + 2 ^ 27)) as Hweak
    by (intros ? ? ? ? ? [? ? ?]; split; auto; lia).
  assert (forall x, log_cost [x] = entry_cost x) as Hone by (intros x; unfold log_cost, zsum; cbn; lia).
  intros Hcfg Hr [Hok Hkeys] Hcost Hage Hnum.
  destruct op as [[key value|key|]|]; cbn [thread_step engine_step thread_log op_log] in *.
  - rewrite Hone in *. apply Forall_inv in Hkeys.
    destruct (related_write cfg w e st c n kPut key value Hcfg Hr Hok Hkeys Hcost) as (e' & w' & st' & Hrun & Hst & Hr').
    exists e', w', st'. split; [done|]. split; [destruct Hst as [-> | ->]; constructor|auto].
  - rewrite Hone in *. apply Forall_inv in Hkeys.
    destruct (related_write cfg w e st c n kDelete key [] Hcfg Hr Hok Hkeys Hcost) as (e' & w' & st' & Hrun & Hst & Hr').
    exists e', w', st'. split; [done|]. split; [destruct Hst as [-> | ->]; constructor|auto].
  - destruct (related_flush cfg w e st c n Hcfg Hr) as (e' & w' & Hrun & Hr').
    exists e', w', (spec_flush st). split; [done|]. split; [constructor|]. rewrite Z.add_0_r. auto.
  - destruct (related_pass cfg w e st c n Hcfg Hr (Hage eq_refl) Hnum) as (e' & w' & -> & _ & Hr').
    exists e', w', st. split; [done|]. split; [constructor|]. by rewrite Z.add_0_r.
Qed.

Lemma thread_run_app ops1 ops2 : forall w e,
  thread_run w e (ops1 ++ ops2)
  = match thread_run w e ops1 with
    | None => None
    | Some (ss1, e, w) =>
        match thread_run w e ops2 with
        | None => None
        | Some (ss2, e, w) => Some (ss1 ++ ss2, e, w)
        end
    end.
Proof.
  induction ops1 as [|op ops1 IH]; intros w e; cbn [app thread_run].
  - by destruct (thread_run w e ops2) as [[[ss e'] w']|].
  - destruct (thread_step w e op) as [[[s e1] w1]|]; [|done]. rewrite IH.
    destruct (thread_run w1 e1 ops1) as [[[ss1 e2] w2]|]; [|done].
    by destruct (thread_run w2 e2 ops2) as [[[ss2 e3] w3]|].
Qed.

Lemma run_threads_snoc cfg ops op ss e w s e' w' :
  run_threads cfg ops = Some (ss, e, w) -> thread_step w e op = Some (s, e', w') ->
  run_threads cfg (ops ++ [op]) = Some (ss ++ [s], e', w').
Proof.
  unfold run_threads. destruct (StorageEngine_Open _ _) as [[[e0|?] w0]|]; try done. intros Hrun Hstep.
  rewrite thread_run_app, Hrun. cbn [thread_run]. by rewrite Hstep.
Qed.

Lemma related_run cfg after : forall before ss w e st c n,
  config_ok cfg -> run_threads cfg before = Some (ss, e, w) -> related cfg w e st c n ->
  Forall thread_ok after -> c + log_cost (threads_log after) < 2 ^ 30 ->
  ordered_passes cfg (before ++ after) -> n + Z.of_nat (length after) * 2 ^ 27 < 2 ^ 63 ->
  exists ss' e' w' st', run_threads cfg (before ++ after) = Some (ss ++ ss', e', w') /\
    Forall (fun s => s = StatusOk) ss' /\ spec_run st after st' /\
    related cfg w' e' st' (c + log_cost (threads_log after)) (n + Z.of_nat (length after) * 2 ^ 27).
Proof.
  induction after as [|op after IH]; intros before ss w e st c n Hcfg Hrun Hr Hok Hcost Hord Hn.
  - exists [], e, w, st. rewrite !app_nil_r. split_and!; auto; [constructor|].
    cbn [threads_log fmap list_fmap]. change (log_cost (mjoin [])) with 0. by rewrite Z.add_0_r, Z.add_0_r.
  - apply Forall_cons in Hok as [Hop Hok].
    assert (log_cost (threads_log (op :: after)) = log_cost (thread_log op) + log_cost (threads_log after)) as Hl.
    { unfold threads_log. rewrite fmap_cons. change (mjoin (?a :: ?b)) with (a ++ mjoin b). apply log_cost_app. }
    pose proof (log_cost_count (threads_log after)). cbn [length] in Hn |- *.
    destruct (related_step cfg w e st c n op Hcfg Hr Hop ltac:(lia)) as (e1 & w1 & st1 & Hstep & Hspec & Hr1); [|lia|].
    { intros ->. apply (Hord before after ss); auto. }
    pose proof (run_threads_snoc _ _ _ _ _ _ _ _ _ Hrun Hstep) as Hrun1.
    destruct (IH (before ++ [op]) (ss ++ [StatusOk]) w1 e1 st1 _ _ Hcfg Hrun1 Hr1 Hok)
      as (ss' & e' & w' & st' & Hrun' & Hss & Hspec' & Hr'); [lia|by rewrite <-app_assoc|lia|].
    exists (StatusOk :: ss'), e', w', st'. rewrite <-!app_assoc in Hrun'. split_and!; auto.
    + by econstructor.
    + rewrite Hl. replace (n + Z.of_nat (S (length after)) * 2 ^ 27) with (n + 2 ^ 27 + Z.of_nat (length after) * 2 ^ 27) by lia.
      by rewrite Z.add_assoc.
Qed.

Lemma run_threads_spec cfg ops :
  config_ok cfg -> Forall thread_ok ops -> log_cost (threads_log ops) < 2 ^ 30 -> ordered_passes cfg ops ->
  Z.of_nat (length ops) < 2 ^ 35 ->
  exists ss e w st c n, run_threads cfg ops = Some (ss, e, w) /\ Forall (fun s => s = StatusOk) ss /\
    spec_run spec_init ops st /\ related cfg w e st c n /\ n = 1 + Z.of_nat (length ops) * 2 ^ 27.
Proof.
  intros Hcfg Hok Hcost Hord Hlen.
  destruct (settled_fresh cfg (mkWorld ∅ [])) as (e & w & Ho & Hs & Hcp & Hnil & Hnum); [done|done|done|].
  assert (related cfg w e spec_init 0 1) as Hr.
  { split; [by exists [], []| |by rewrite Hnum]. rewrite Hnil. intros k [b|]; cbn [current]; [|done].
    by intros (m & ?%not_elem_of_nil & _). }
  assert (run_threads cfg [] = Some ([], e, w)) as Hrun by (unfold run_threads; by rewrite Ho).
  destruct (related_run cfg ops [] [] w e spec_init 0 1 Hcfg Hrun Hr Hok Hcost Hord ltac:(lia))
    as (ss & e' & w' & st & Hrun' & Hss & Hspec & Hr'). exists ss, e', w', st. do 2 eexists. by split_and!.
Qed.

(** A new engine on the files of one with nothing pending. *)
Lemma related_reopen cfg w e st c n :
  related cfg w e st c n -> sp_pending st = ∅ ->
  exists e', StorageEngine_Open w cfg = Some (Val e', w) /\
    forall key, StorageEngine_Get w e' key = Some (Val (spec_get st key), w).
Proof.
  intros [(flushed & cur & Hs & Hcp & Hp & _) Ht _] Hempty. rewrite Hempty in Hp. symmetry in Hp.
  apply segment_map_nil in Hp as ->. pose proof (settled_catalogue Hs) as Hok. pose proof (settled_bounds Hs) as (Hb & _).
  destruct (se_wal _ _ _ _ _ Hs) as (wal & _ & Hpath & Hws). pose proof (app_nil_r flushed) as Hnil.
  destruct (Recover_loaded cfg w flushed [] (files_ (compaction_manager_ e)))
    as (e' & wal' & mt & Hrec & _ & _ & _ & _ & Hmt & Hrepr & Himm & Hcm & _ & _); rewrite ?Hnil in *; auto.
  - apply Hok.
  - rewrite <-Hpath. apply Hws.
  - pose proof (se_readable _ _ _ _ _ Hs) as Hrd. by rewrite Hnil in Hrd.
  - apply Hws.
  - lia.
  - intros m Hm. rewrite <-(se_levels _ _ _ _ _ Hs). by apply (co_levels _ _ Hok).
  - exists e'. unfold StorageEngine_Open. rewrite Hrec. split; [done|]. intros key.
    pose proof (first_version_current w _ key Hok) as Ho. unfold StorageEngine_Get.
    rewrite Hmt, (mt_get_repr _ _ key Hrepr), Himm. unfold spec_get. rewrite Hempty, lookup_empty.
    change (segment_map [] !! key) with (None : option SkipListValue). cbn [mbind option_bind].
    unfold GetFromSSTables, AllFiles. rewrite Hcm. cbn [files_]. rewrite <-(Ht key _ Ho).
    by apply (table_read w (compaction_manager_ e)).
Qed.

(** The loop of the thread. *)
Lemma related_loop cfg loads : forall w e st c n,
  config_ok cfg -> related cfg w e st c n -> pass_ok w e -> n + Z.of_nat (length loads) * 2 ^ 27 < 2 ^ 63 ->
  exists e' w' n', CompactionLoop loads w e = Some (Ret e', w') /\ related cfg w' e' st c n'.
Proof.
  induction loads as [|[at_head after_wait] loads IH]; intros w e st c n Hcfg Hr Hage Hn; cbn [CompactionLoop]; [by eauto|].
  destruct at_head; [by eauto|]. destruct after_wait; [by eauto|]. cbn [length] in Hn.
  destruct (related_pass cfg w e st c n Hcfg Hr Hage ltac:(lia)) as (e1 & w1 & -> & Hage1 & Hr1).
  apply (IH w1 e1 st c (n + 2 ^ 27)); auto. lia.
Qed.
End simulation.

(** * Properties *)

(** C1. The engine refines its specification: for any sequence of puts, deletes
    and flushes of clients and passes of the compaction thread, in any order,
    on a new engine (non-empty keys, writes within the log's record limit and
    below 1 GiB in total, no I/O fault, and the level-0 files in order at
    every pass that runs), every operation succeeds, the specification can
    make the same steps, and every [Get] returns what it determines. *)
Theorem engine_refines_spec {abi : Abi} {sort : StdSort} (cfg : StorageConfig) (ops : list thread_op)
    (Hcfg : config_ok cfg) (Hops : Forall thread_ok ops) (Hcost : log_cost (threads_log ops) < 2 ^ 30)
    (Hpasses : ordered_passes cfg ops) (Hlen : Z.of_nat (length ops) < 2 ^ 35) :
  exists ss e w st, run_threads cfg ops = Some (ss, e, w) /\ Forall (fun s => s = StatusOk) ss /\
    spec_run spec_init ops st /\ forall key, StorageEngine_Get w e key = Some (Val (spec_get st key), w).
Proof.
  destruct (run_threads_spec cfg ops Hcfg Hops Hcost Hpasses Hlen) as (ss & e & w & st & c & n & Hrun & Hss & Hspec & Hr & _).
  exists ss, e, w, st. split_and!; auto. intros key. by eapply related_get.
Qed.



(** C3. A compaction run changes no read: on a catalogue in order whose level-0
    files, sorted by smallest key, are by age where they share a key (contents
    below 1 GiB, file numbers and paths not used up, no I/O fault), a run that
    is needed succeeds, leaves a catalogue in order for which the same holds,
    and the search through the tables returns the same value for every key,
    deleted keys staying deleted. *)
Theorem compaction_run_transparent {abi : Abi} {sort : StdSort} (w : World) (cm : CompactionManager)
    (Hor : orderly w cm) (Hage : position_is_age w cm) (Hneed : NeedsCompaction cm = true) :
  exists stats cm' w', RunCompaction w cm = Some (Ret (Val stats), cm', w') /\
    catalogue_ok w' cm' /\ position_is_age w' cm' /\ fresh_paths cm' /\ catalogue_size w' cm' <= catalogue_size w cm /\
    forall key, exists v,
      search_tables w (std_sort newer_first (AllFiles cm)) key = Some (Val v, w) /\
      search_tables w' (std_sort newer_first (AllFiles cm')) key = Some (Val v, w').
Proof.
  destruct (RunCompaction_spec w cm Hor Hage Hneed) as (stats & cm' & w' & Hrun & Hr).
  exists stats, cm', w'. split; [done|]. split_and!; [apply Hr..|]. intros key.
  pose proof (first_version_current w cm key (or_catalogue _ _ Hor)) as Ho.
  destruct (rr_reads _ _ _ _ Hr key _ Ho) as (o' & Ho' & E).
  eexists. split; [by apply table_read; [apply Hor|]|]. rewrite <-E. by apply table_read; [apply Hr|].
Qed.

(** ** Sample runs *)

(** A test for the condition on passes: the sequence numbers fall along the
    level-0 order. *)
Fixpoint falls (l : list Z) : bool :=
  match l with
  | x :: (y :: _) as rest => (y <? x) && falls rest
  | _ => true
  end.

Lemma falls_sorted l : falls l = true -> StronglySorted (fun x y => y < x) l.
Proof.
  intros Hf. apply Sorted_StronglySorted; [intros x y z; lia|].
  induction l as [|x [|y l] IH]; [constructor|repeat constructor|]. cbn [falls] in Hf.
  apply andb_true_iff in Hf as [Hlt Hf]. constructor; [by apply IH|]. constructor. by apply Z.ltb_lt.
Qed.

Section check.
Context {abi : Abi} {sort : StdSort}.

Definition pass_falls (e : StorageEngine) : bool :=
  negb (NeedsCompaction (compaction_manager_ e)) ||
  falls (sequence_number <$> GetFilesAtLevel (compaction_manager_ e) 0).

Lemma pass_falls_ok w e : pass_falls e = true -> pass_ok w e.
Proof.
  unfold pass_falls, pass_ok. intros Hf Hneed. rewrite Hneed in Hf. cbn [negb orb] in Hf. apply falls_sorted in Hf.
  intros i j a b k Hi Hj Hij _ _. apply (f_equal (fmap sequence_number)) in Hi, Hj.
  rewrite <-list_lookup_fmap in Hi, Hj. exact (StronglySorted_lookup_lt _ _ i j _ _ Hf Hi Hj Hij).
Qed.

Fixpoint passes_fall (w : World) (e : StorageEngine) (ops : list thread_op) : bool :=
  match ops with
  | [] => true
  | op :: ops =>
      match op with Pass => pass_falls e | Client _ => true end &&
      match thread_step w e op with Some (_, e, w) => passes_fall w e ops | None => true end
  end.

Definition run_falls (cfg : StorageConfig) (ops : list thread_op) : bool :=
  match StorageEngine_Open (mkWorld ∅ []) cfg with Some (Val e, w) => passes_fall w e ops | _ => true end.

Lemma passes_fall_run before after : forall w e ss e' w',
  passes_fall w e (before ++ Pass :: after) = true -> thread_run w e before = Some (ss, e', w') -> pass_ok w' e'.
Proof.
  induction before as [|op before IH]; intros w e ss e' w'; cbn [app passes_fall thread_run].
  - intros [Hf _]%andb_true_iff [= _ <- <-]. by apply pass_falls_ok.
  - intros [_ Hf]%andb_true_iff. destruct (thread_step w e op) as [[[s e1] w1]|]; [|done].
    destruct (thread_run w1 e1 before) as [[[ss1 e2] w2]|] eqn:Er; [|done]. intros [= _ <- <-]. by eapply IH.
Qed.

Lemma run_falls_ordered cfg ops : run_falls cfg ops = true -> ordered_passes cfg ops.
Proof.
  unfold run_falls, ordered_passes, run_threads. intros Hf before after ss e w -> Hrun.
  destruct (StorageEngine_Open _ _) as [[[e0|?] w0]|]; try done. by eapply passes_fall_run.
Qed.
End check.

#[local] Existing Instance x86_64_libstdcxx.
#[local] Existing Instance insertion_std_sort.

(** Four tables; "d" is written, overwritten and deleted in different ones. *)
Definition layered_ops : list thread_op :=
  Client <$> [OpPut (lit "d") (lit "1"); OpFlush;
              OpPut (lit "c") (lit "2"); OpPut (lit "d") (lit "3"); OpFlush;
              OpPut (lit "b") (lit "4"); OpFlush;
              OpPut (lit "a") (lit "5"); OpDelete (lit "d")].

(** With a pass that merges them, a write, and a pass that has nothing to do. *)
Definition mixed_ops : list thread_op :=
  layered_ops ++ [Client OpFlush; Pass; Client (OpPut (lit "c") (lit "6")); Pass].

Definition thread_okb (op : thread_op) : bool :=
  match op with Client op => bool_decide (op_ok op) | Pass => true end &&
  forallb (fun x => negb (bool_decide (we_key x = []))) (thread_log op).

Lemma thread_okb_ok ops : forallb thread_okb ops = true -> Forall thread_ok ops.
Proof.
  rewrite forallb_forall, Forall_forall. intros Hall op Hop. apply list_elem_of_In, Hall, andb_true_iff in Hop as [H1 H2]. split.
  - destruct op; [by apply bool_decide_eq_true in H1|done].
  - apply Forall_forall. intros x Hx. rewrite forallb_forall in H2. apply list_elem_of_In, H2, negb_true_iff in Hx.
    by apply bool_decide_eq_false in Hx.
Qed.

Lemma layered_age ss e w : run_threads sample_config (layered_ops ++ [Client OpFlush]) = Some (ss, e, w) -> pass_falls e = true.
Proof.
  assert (match run_threads sample_config (layered_ops ++ [Client OpFlush]) with
          | Some (_, e, _) => pass_falls e | None => true end = true) as H by (vm_compute; reflexivity).
  intros Hrun. by rewrite Hrun in H.
Qed.

Lemma engine_refines_spec_witness :
  exists ss e w st, run_threads sample_config mixed_ops = Some (ss, e, w) /\ Forall (fun s => s = StatusOk) ss /\
    spec_run spec_init mixed_ops st /\ forall key, StorageEngine_Get w e key = Some (Val (spec_get st key), w).
Proof.
  apply (engine_refines_spec sample_config mixed_ops).
  - by_vm.
  - apply thread_okb_ok. by_vm.
  - by_vm.
  - apply run_falls_ordered. vm_compute. reflexivity.
  - by_vm.
Defined.


(** The state behind that run has a catalogue in order that is due for compaction. *)
Lemma layered_state :
  exists ss e w, run_threads sample_config (layered_ops ++ [Client OpFlush]) = Some (ss, e, w) /\
    orderly w (compaction_manager_ e) /\ position_is_age w (compaction_manager_ e) /\
    NeedsCompaction (compaction_manager_ e) = true.
Proof.
  destruct (run_threads_spec sample_config (layered_ops ++ [Client OpFlush]))
    as (ss & e & w & st & c & n & Hrun & _ & _ & [(flushed & cur & Hs & _) _ _] & _).
  - by_vm.
  - apply thread_okb_ok. by_vm.
  - by_vm.
  - apply run_falls_ordered. vm_compute. reflexivity.
  - by_vm.
  - assert (NeedsCompaction (compaction_manager_ e) = true) as Hneed.
    { assert (match run_threads sample_config (layered_ops ++ [Client OpFlush]) with
              | Some (_, e, _) => NeedsCompaction (compaction_manager_ e) | None => true end = true) as H
        by (vm_compute; reflexivity).
      by rewrite Hrun in H. }
    exists ss, e, w. split_and!; [exact Hrun|apply Hs| |exact Hneed].
    exact (pass_falls_ok w e (layered_age ss e w Hrun) Hneed).
Qed.

Lemma compaction_run_transparent_witness :
  exists ss e w, run_threads sample_config (layered_ops ++ [Client OpFlush]) = Some (ss, e, w) /\
    let cm := compaction_manager_ e in
    exists stats cm' w', RunCompaction w cm = Some (Ret (Val stats), cm', w') /\
      catalogue_ok w' cm' /\ position_is_age w' cm' /\ fresh_paths cm' /\ catalogue_size w' cm' <= catalogue_size w cm /\
      forall key, exists v,
        search_tables w (std_sort newer_first (AllFiles cm)) key = Some (Val v, w) /\
        search_tables w' (std_sort newer_first (AllFiles cm')) key = Some (Val v, w').
Proof.
  destruct layered_state as (ss & e & w & Hrun & Hor & Hage & Hneed). exists ss, e, w. split; [exact Hrun|].
  exact (compaction_run_transparent w (compaction_manager_ e) Hor Hage Hneed).
Defined.
