(* ===== verification/ConcurrentReads.v ===== *)
(** * A reader while a compaction run updates the catalogue

    [GetFromSSTables] copies the catalogue under its lock and then opens the
    files one after the other without any lock; [RunCompaction] adds its outputs
    and then removes its inputs one after the other, the lock of the catalogue
    being released in between.  Both are divided here into their atomic steps,
    which an arbitrary schedule interleaves; lemmas show that the steps of one
    thread alone make up the function of Engine.v and of Compaction.v.

    The property: a reader that took its copy before the first input was removed
    gets the value that the catalogue held before the run, or an error (when a
    file has been deleted under it), and never another value.  A copy taken
    between two removals can hold an old version and lack the new one: the
    example at the end shows a deleted key that reads as present. *)

From S2P Require Import Prelude Status BinarySerializer Mt19937 SkipList MemTable FileSystem Wal Recovery Checkpoint BloomFilter Block SSTable Compaction CompactionMerge BlockCache Engine EngineCorrect CompactionReads EngineCompaction EngineSpec.

(** ** The reader *)

Inductive reader : Set :=
  | Searching (rest : list SSTableMeta)                       (* before a round of the loop *)
  | Opened (rd : SSTableReader) (rest : list SSTableMeta)     (* between [Open] and [Get] *)
  | Finished (r : ErrorOr (option bytes)).

Definition reader_step (key : str) (w : World) (r : reader) : option (reader * World) :=
  match r with
  | Searching [] => Some (Finished (Val None), w)
  | Searching (meta :: rest) =>
      if str_ltb key (smallest_key meta) || str_ltb (largest_key meta) key then Some (Searching rest, w)
      else
        let '(rd, w) := SSTableReader_Open w (filepath meta) in
        match rd with
        | Err s => Some (Finished (Err s), w)
        | Val rd => Some (Opened rd rest, w)
        end
  | Opened rd rest =>
      match SSTableReader_Get w rd key with
      | None => None
      | Some (Err s, w) => Some (Finished (Err s), w)
      | Some (Val None, w) => Some (Searching rest, w)
      | Some (Val (Some entry), w) =>
          Some (Finished (if be_is_tombstone entry then Val None else Val (Some (be_value entry))), w)
      end
  | Finished r => Some (Finished r, w)
  end.

Fixpoint reader_steps (n : nat) (key : str) (w : World) (r : reader) : option (reader * World) :=
  match n with
  | O => Some (r, w)
  | S n => match reader_step key w r with None => None | Some (r, w) => reader_steps n key w r end
  end.

Lemma reader_steps_finished n key w r : reader_steps n key w (Finished r) = Some (Finished r, w).
Proof. by induction n as [|n IH]. Qed.

(** Alone, the reader is the loop of [GetFromSSTables]. *)
Lemma reader_alone key fs : forall w n, (2 * length fs < n)%nat ->
  reader_steps n key w (Searching fs)
  = match search_tables w fs key with None => None | Some (r, w') => Some (Finished r, w') end.
Proof.
  induction fs as [|m fs IH]; intros w n Hn; (destruct n as [|n]; [cbn in Hn; lia|]); cbn [reader_steps reader_step search_tables].
  - apply reader_steps_finished.
  - cbn [length] in Hn. destruct (_ || _); [apply IH; lia|].
    destruct (SSTableReader_Open w (filepath m)) as [[rd|s] w1]; [|apply reader_steps_finished].
    destruct n as [|n]; [lia|]. cbn [reader_steps reader_step].
    destruct (SSTableReader_Get w1 rd key) as [[[[entry|]|s] w2]|]; [|apply IH; lia|apply reader_steps_finished|done].
    rewrite reader_steps_finished. by destruct (be_is_tombstone entry).
Qed.

(** ** The update of the catalogue *)

Section compactor.
Context {abi : Abi} {sort : StdSort}.

(** [GetFromSSTables] behind [AllFiles] and [std::sort]. *)
Definition reader_begin (cm : CompactionManager) : reader := Searching (std_sort newer_first (AllFiles cm)).

Inductive compactor : Set :=
  | Adding (new_files all_inputs : list SSTableMeta)
  | Removing (all_inputs : list SSTableMeta)
  | Deleting (path : str) (all_inputs : list SSTableMeta)     (* between [RemoveFile] and [remove] *)
  | Returned (s : Status)
  | Threw.                                                    (* an exception of [remove] *)

Definition compactor_step (c : compactor) (cm : CompactionManager) (w : World) : compactor * CompactionManager * World :=
  match c with
  | Adding [] all_inputs => (Removing all_inputs, cm, w)
  | Adding (meta :: new_files) all_inputs =>
      let '(s, cm) := AddFile cm meta in
      if negb (IsOk s) then (Returned s, cm, w) else (Adding new_files all_inputs, cm, w)
  | Removing [] => (Returned StatusOk, cm, w)
  | Removing (old_file :: all_inputs) =>
      (Deleting (filepath old_file) all_inputs, RemoveFile cm (filepath old_file), w)
  | Deleting path all_inputs =>
      let '(removed, w) := try_remove w path in
      match removed with
      | Ret _ => (Removing all_inputs, cm, w)
      | Throw => (Threw, cm, w)
      end
  | Returned s => (Returned s, cm, w)
  | Threw => (Threw, cm, w)
  end.

Fixpoint compactor_steps (n : nat) (c : compactor) (cm : CompactionManager) (w : World) :
    compactor * CompactionManager * World :=
  match n with
  | O => (c, cm, w)
  | S n => let '(c, cm, w) := compactor_step c cm w in compactor_steps n c cm w
  end.

(** [RunCompaction] up to the update: the outputs, the inputs and the statistics. *)
Definition RunCompaction_merge (w : World) (cm : CompactionManager) :
    option (Outcome (ErrorOr (list SSTableMeta * list SSTableMeta * CompactionStats)) * CompactionManager * World) :=
  let src := PickCompactionLevel cm in
  if src =? - 1 then Some (Ret (error kNotFound (lit "No compaction needed")), cm, w)
  else
    let '(source_files, target_files) := SelectCompactionFiles cm src in
    match source_files with
    | [] => Some (Ret (error kNotFound (lit "No source files selected for compaction")), cm, w)
    | _ :: _ =>
        let total_inputs := Z.of_nat (length source_files + length target_files) in
        let all_inputs := renumber_sources total_inputs source_files ++ renumber_targets target_files in
        let stats := mkStats src (src + 1) (Z.of_nat (length all_inputs)) 0 0 0 0 0 0 in
        match MergeFiles w cm all_inputs (src + 1) stats with
        | None => None
        | Some (Throw, _, cm, w) => Some (Throw, cm, w)
        | Some (Ret (Err s), _, cm, w) => Some (Ret (Err s), cm, w)
        | Some (Ret (Val new_files), stats, cm, w) => Some (Ret (Val (new_files, all_inputs, stats)), cm, w)
        end
    end.

Lemma compactor_returned n s cm w : compactor_steps n (Returned s) cm w = (Returned s, cm, w).
Proof. by induction n as [|n IH]. Qed.

Lemma compactor_threw n cm w : compactor_steps n Threw cm w = (Threw, cm, w).
Proof. by induction n as [|n IH]. Qed.

(** Where the run is behind the removals. *)
Definition removed_all (r : Outcome ()) : compactor := match r with Ret _ => Returned StatusOk | Throw => Threw end.

Lemma compactor_removes inputs : forall n cm w, (2 * length inputs < n)%nat ->
  compactor_steps n (Removing inputs) cm w
  = let '(r, cm, w) := remove_inputs w cm inputs in (removed_all r, cm, w).
Proof.
  induction inputs as [|m inputs IH]; intros n cm w Hn; (destruct n as [|n]; [cbn in Hn; lia|]);
    cbn [compactor_steps compactor_step remove_inputs].
  - apply compactor_returned.
  - cbn [length] in Hn. destruct n as [|n]; [lia|]. cbn [compactor_steps compactor_step].
    destruct (try_remove w (filepath m)) as [[b|] w1]; [apply IH; lia|apply compactor_threw].
Qed.

Lemma compactor_alone metas inputs : forall n cm w, (length metas + 2 * length inputs + 1 < n)%nat ->
  compactor_steps n (Adding metas inputs) cm w
  = let '(s, cm) := add_files cm metas in
    if negb (IsOk s) then (Returned s, cm, w)
    else let '(r, cm, w) := remove_inputs w cm inputs in (removed_all r, cm, w).
Proof.
  induction metas as [|m metas IH]; intros n cm w Hn; (destruct n as [|n]; [cbn in Hn; lia|]);
    cbn [compactor_steps compactor_step add_files].
  - change (negb (IsOk StatusOk)) with false. cbn beta iota. apply compactor_removes. cbn in Hn. lia.
  - cbn [length] in Hn. destruct (AddFile cm m) as [s cm1]. destruct (negb (IsOk s)) eqn:Es.
    + rewrite Es. apply compactor_returned.
    + apply IH. lia.
Qed.

(** Alone, the steps make up [RunCompaction]. *)
Lemma RunCompaction_steps w cm :
  RunCompaction w cm
  = match RunCompaction_merge w cm with
    | None => None
    | Some (Throw, cm, w) => Some (Throw, cm, w)
    | Some (Ret (Err s), cm, w) => Some (Ret (Err s), cm, w)
    | Some (Ret (Val (new_files, all_inputs, stats)), cm, w) =>
        match compactor_steps (length new_files + 2 * length all_inputs + 2) (Adding new_files all_inputs) cm w with
        | (Returned s, cm, w) => if negb (IsOk s) then Some (Ret (Err s), cm, w) else Some (Ret (Val stats), cm, w)
        | (Threw, cm, w) => Some (Throw, cm, w)
        | _ => None
        end
    end.
Proof.
  unfold RunCompaction, RunCompaction_merge. destruct (_ =? -1); [done|].
  destruct (SelectCompactionFiles cm _) as [sources targets]. destruct sources as [|s0 sources]; [done|].
  destruct (MergeFiles _ _ _ _ _) as [[[[[[metas|s]|] stats] cm1] w1]|]; [|done..].
  rewrite compactor_alone by lia. destruct (add_files cm1 metas) as [s cm2]. destruct (negb (IsOk s)) eqn:Es.
  - by rewrite Es.
  - by destruct (remove_inputs w1 cm2 _) as [[[[]|] cm3] w3].
Qed.

(** ** Interleavings *)

Inductive thread : Set := Reader | Compactor.

Record shared : Set := mkShared {
  sh_reader : reader;
  sh_compactor : compactor;
  sh_cm : CompactionManager;
  sh_world : World
}.

Fixpoint interleave (key : str) (schedule : list thread) (s : shared) : option shared :=
  match schedule with
  | [] => Some s
  | Reader :: schedule =>
      match reader_step key (sh_world s) (sh_reader s) with
      | None => None
      | Some (r, w) => interleave key schedule (mkShared r (sh_compactor s) (sh_cm s) w)
      end
  | Compactor :: schedule =>
      let '(c, cm, w) := compactor_step (sh_compactor s) (sh_cm s) (sh_world s) in
      interleave key schedule (mkShared (sh_reader s) c cm w)
  end.
End compactor.

(** ** Reads depend on the file only *)

Lemma read_at_pure c good offset n :
  exists got good', forall w, healthy w -> ifs_read_at w c good offset n = (got, good', w).
Proof.
  unfold ifs_read_at. destruct (_ || _); [eauto|]. do 2 eexists. intros w Hw. by rewrite next_fault_healthy.
Qed.

Ltac pure_read :=
  match goal with
  | |- context [ifs_read_at ?w ?c ?g ?o ?n] =>
      let H := fresh "Hpure" in destruct (read_at_pure c g o n) as (? & ? & H); rewrite !H by done
  end.

Section same_file.
Context (w w' : World).
Hypothesis Hw : healthy w.
Hypothesis Hw' : healthy w'.

Lemma Open_same path :
  files w' !! path = files w !! path -> SSTableReader_Open w' path = ((SSTableReader_Open w path).1, w').
Proof.
  intros Hf. unfold SSTableReader_Open, fs_exists, ifs_open. rewrite !next_fault_healthy, Hf by done.
  destruct (files w !! path) as [c|]; cbn [negb]; [|done]. destruct (_ <? kFooterSize); [done|]. pure_read.
  destruct (ReadFooter _) as [f|s]; [|done]. destruct (negb _); [done|]. pure_read. destruct (negb _); [done|].
  destruct (ReadBloom _) as [bloom|s]; [|done]. pure_read. destruct (negb _); [done|]. by destruct (ReadIndex _).
Qed.

Lemma ReadBlock_same rd offset size :
  files w' !! filepath_ rd = files w !! filepath_ rd -> ReadBlock w' rd offset size = ((ReadBlock w rd offset size).1, w').
Proof.
  intros Hf. unfold ReadBlock, ifs_open. rewrite !next_fault_healthy, Hf by done.
  destruct (files w !! filepath_ rd) as [c|]; [|done]. pure_read. by destruct (_ <? size).
Qed.

Lemma Get_same_file rd key r :
  files w' !! filepath_ rd = files w !! filepath_ rd ->
  SSTableReader_Get w rd key = Some (r, w) -> SSTableReader_Get w' rd key = Some (r, w').
Proof.
  intros Hf. unfold SSTableReader_Get. destruct (MayContain _ _) as [[|]|]; [|by intros [= <-]|done].
  destruct (find_block _ _ _ _ _ _) as [candidate|]; [|done]. destruct (candidate =? -1); [by intros [= <-]|].
  destruct (index_ rd !! _) as [ie|]; [|done]. rewrite (ReadBlock_same rd _ _ Hf).
  destruct (ReadBlock w rd _ _) as [[b|s] w2]; cbn [fst]; [|by intros [= <-]].
  destruct (Block_Get b key); [|done]. by intros [= <-].
Qed.

(** The file has been deleted. *)
Lemma Open_missing path : files w' !! path = None -> exists s, SSTableReader_Open w' path = (Err s, w').
Proof. intros Hf. unfold SSTableReader_Open, fs_exists. rewrite Hf. cbn [negb]. by eexists. Qed.

(** A lookup on it answers from the filter or the index, or reports an error. *)
Lemma Get_missing rd key r :
  files w' !! filepath_ rd = None -> SSTableReader_Get w rd key = Some (Val r, w) ->
  SSTableReader_Get w' rd key = Some (Val r, w') \/ exists s, SSTableReader_Get w' rd key = Some (Err s, w').
Proof.
  intros Hf. unfold SSTableReader_Get. destruct (MayContain _ _) as [[|]|]; [|by intros [= <-]; left|done].
  destruct (find_block _ _ _ _ _ _) as [candidate|]; [|done]. destruct (candidate =? -1); [by intros [= <-]; left|].
  destruct (index_ rd !! _) as [ie|]; [|done]. intros _. right. unfold ReadBlock, ifs_open.
  rewrite next_fault_healthy, Hf by done. by eexists.
Qed.
End same_file.

Lemma Open_path w path rd w' : SSTableReader_Open w path = (Val rd, w') -> filepath_ rd = path.
Proof.
  unfold SSTableReader_Open. destruct (negb _); [done|]. destruct (ifs_open w path) as [[c|] w1]; [|done].
  destruct (_ <? kFooterSize); [done|]. destruct (ifs_read_at w1 _ _ _ _) as [[got good] w2].
  destruct (ReadFooter _) as [f|s]; [|done]. destruct (negb _); [done|].
  destruct (ifs_read_at w2 _ _ _ _) as [[got2 good2] w3]. destruct (negb _); [done|].
  destruct (ReadBloom _) as [bloom|s]; [|done]. destruct (ifs_read_at w3 _ _ _ _) as [[got3 good3] w4].
  destruct (negb _); [done|]. destruct (ReadIndex _); [|done]. by intros [= <- _].
Qed.

(** ** A reader whose files may be deleted *)

(** [w'] has the files of [fs] as [w] has them, or not at all. *)
Record erodes (fs : list SSTableMeta) (w w' : World) : Prop := {
  er_healthy : healthy w';
  er_files : forall m, m ∈ fs -> files w' !! filepath m = files w !! filepath m \/ files w' !! filepath m = None
}.

Lemma erodes_remove fs w w' path : erodes fs w w' -> erodes fs w (fs_remove w' path).
Proof.
  intros [Hw Hf]. split; [done|]. intros m Hm. cbn [fs_remove files].
  destruct (decide (path = filepath m)) as [->|Hne]; [right; apply lookup_delete_eq|].
  rewrite lookup_delete_ne by done. by apply Hf.
Qed.

Section eroding.
Context (w : World) (fs : list SSTableMeta) (key : str) (goal : option bytes).
Hypothesis Hw : healthy w.
Hypothesis Htables : forall m, m ∈ fs -> table_file w m.

(** The reader is on its way to [goal]. *)
Definition on_course (r : reader) : Prop :=
  match r with
  | Searching rest => (forall m, m ∈ rest -> m ∈ fs) /\ client_value (first_version w key rest) = goal
  | Opened rd rest => exists m, m ∈ fs /\ (forall m', m' ∈ rest -> m' ∈ fs) /\
      SSTableReader_Open w (filepath m) = (Val rd, w) /\ client_value (first_version w key (m :: rest)) = goal
  | Finished r => r = Val goal \/ exists s, r = Err s
  end.

(** The reader's own steps that are left. *)
Definition reader_size (r : reader) : nat :=
  match r with
  | Searching rest => 2 * length rest + 1
  | Opened _ rest => 2 * length rest + 2
  | Finished _ => 0
  end.

Lemma reader_step_course w' r :
  erodes fs w w' -> on_course r ->
  exists r', reader_step key w' r = Some (r', w') /\ on_course r' /\
    (reader_size r' < reader_size r \/ reader_size r = 0 /\ r' = r)%nat.
Proof.
  intros [Hw' Hf] Hr. destruct r as [[|m rest]|rd rest|r]; cbn [reader_step].
  - destruct Hr as [_ Hg]. eexists. split; [done|]. split; [left; by rewrite <-Hg|cbn; lia].
  - destruct Hr as [Hin Hg]. pose proof (Hin m ltac:(by left)) as Hm. pose proof (Htables m Hm) as Ht.
    assert (forall m', m' ∈ rest -> m' ∈ fs) as Hrest by (intros; apply Hin; by right).
    destruct (str_ltb key (smallest_key m) || str_ltb (largest_key m) key) eqn:Er.
    + eexists. split; [done|]. split; [|cbn; lia]. split; [done|]. rewrite <-Hg. cbn [first_version].
      destruct (version w key m) eqn:Ev; [|done]. exfalso.
      destruct (version_in_range w m key Ht ltac:(by eauto)) as [H1 H2].
      apply orb_true_iff in Er as [Er|Er]; by apply str_ltb_lt in Er.
    + destruct (holds_table_at w _ _ Hw (tf_table _ _ Ht)) as (rd & Ho & _).
      destruct (Hf m Hm) as [Hs|Hs].
      * rewrite (Open_same w w' Hw Hw' _ Hs), Ho. cbn [fst]. eexists. split; [done|]. split; [|cbn; lia]. exists m. done.
      * destruct (Open_missing w' _ Hs) as [s ->]. eexists. split; [done|]. split; [right; eauto|cbn; lia].
  - destruct Hr as (m & Hm & Hrest & Ho & Hg). pose proof (Htables m Hm) as Ht.
    destruct (holds_table_at w _ _ Hw (tf_table _ _ Ht)) as (rd' & Ho' & _ & _ & Hget). rewrite Ho in Ho'. injection Ho' as <-.
    specialize (Hget key). fold (version w key m) in Hget. pose proof (Open_path _ _ _ _ Ho) as Hp.
    assert (SSTableReader_Get w' rd key = Some (Val (version w key m), w') \/
            exists s, SSTableReader_Get w' rd key = Some (Err s, w')) as Hcase.
    { destruct (Hf m Hm) as [Hs|Hs]; rewrite <-Hp in Hs.
      - left. by apply (Get_same_file w w').
      - by apply (Get_missing w w'). }
    destruct Hcase as [-> |[s ->]]; [|eexists; split; [done|]; split; [right; eauto|cbn; lia]].
    cbn [first_version] in Hg. destruct (version w key m) as [e|]; (eexists; split; [done|]; split; [|cbn; lia]).
    + left. rewrite <-Hg. cbn [client_value]. by destruct (be_is_tombstone e).
    + by split.
  - eexists. split; [done|]. split; [done|]. right. done.
Qed.
End eroding.

(** ** The copy taken while the outputs are added *)

Section update.
Context {abi : Abi} {sort : StdSort}.
Context (w : World) (cm : CompactionManager) (src : Z) (sources targets : list SSTableMeta).
Hypothesis Hok : catalogue_ok w cm.
Hypothesis Hage : position_is_age w cm.
Hypothesis Hsel : SelectCompactionFiles cm src = (sources, targets).
Hypothesis Hsrc : 0 <= src.
Context (w1 : World) (metas : list SSTableMeta) (batches : list (list BlockEntry)).
Hypothesis Hw1 : healthy w1.
Hypothesis Hold : forall m, m ∈ files_ cm -> files w1 !! filepath m = files w !! filepath m.
Hypothesis Hout : Forall2 (fun m b => holds_table w1 (filepath m) b /\ level m = src + 1 /\
    (exists first last', head b = Some first /\ last b = Some last' /\
       smallest_key m = be_key first /\ largest_key m = be_key last') /\
    forall f, f ∈ files_ cm -> filepath f <> filepath m) metas batches.
Hypothesis Hemits : emits (src + 1 =? max_level_ cm - 1) (entries_of w <$> sources ++ targets)
  (merge_inputs sources targets) [] (mjoin batches).

(** An output that is found before all inputs agrees with what they hold. *)
Lemma output_is_current m k e :
  m ∈ metas -> version w1 k m = Some e ->
  (forall m', m' ∈ files_ cm -> is_Some (version w k m') -> newer_first m' m = false) ->
  current w (files_ cm) k (Some e).
Proof.
  intros Hm Hv Hfirst.
  pose proof (output_version w cm src sources targets w1 metas batches Hw1 Hout Hemits m k e Hm Hv) as Hf.
  rewrite (outputs_find w cm src sources targets Hok Hsel batches Hemits) in Hf.
  pose proof (newest_current w cm src sources targets Hok Hage Hsel Hsrc k) as Hcur.
  destruct (newest _ _ k) as [[s e']|]; [|done]. cbn [keep] in Hf. destruct (_ && _); [done|]. injection Hf as ->.
  destruct Hcur as (m0 & Hm0 & Hv0 & Hall). pose proof (selected_in cm src sources targets Hsel m0 Hm0) as Hin0.
  destruct (output_lookup cm src w1 metas batches Hw1 Hout m Hm) as (_ & _ & _ & _ & _ & _ & Hl & _).
  assert (forall m', m' ∈ files_ cm -> is_Some (version w k m') -> src + 1 <= level m') as Hlow.
  { intros m' Hm' Hv'. pose proof (Hfirst m' Hm' Hv') as H. apply not_true_iff_false in H.
    rewrite newer_first_spec in H. lia. }
  exists m0. split; [done|]. split; [done|]. intros m' Hm' Hne Hv'.
  destruct (decide (m' ∈ sources ++ targets)) as [Hin|Hno]; [by apply Hall|].
  apply (versions_comparable w cm m0 m' k Hok); eauto. apply not_true_iff_false. intros Hn.
  destruct (outsider_side w cm src sources targets Hok Hsel Hsrc m0 m' k Hm0 Hm' Hno) as [_ H]; eauto.
  specialize (H Hn). specialize (Hlow m' Hm' Hv'). lia.
Qed.

Lemma adding_read k j :
  current w (files_ cm) k (first_version w1 k (std_sort newer_first (files_ cm ++ take j metas))).
Proof.
  set (fs := files_ cm ++ take j metas).
  pose proof (std_sort_perm newer_first fs) as Hperm.
  pose proof (std_sort_sorted newer_first fs newer_first_weak) as Hsorted.
  assert (forall m, m ∈ files_ cm -> version w1 k m = version w k m) as Hver
    by (intros m Hm; by apply (frame_version w w1 cm)).
  destruct (first_version w1 k (std_sort newer_first fs)) as [e|] eqn:E.
  - apply first_version_Some in E as (l1 & m & l2 & El & Hv & Hl1). rewrite El in Hperm, Hsorted.
    assert (forall m', m' ∈ fs <-> m' ∈ l1 ++ m :: l2) as Hin by (intros; by rewrite Hperm).
    assert (forall m', m' ∈ files_ cm -> m' <> m -> is_Some (version w k m') -> newer_first m' m = false) as Hafter.
    { intros m' Hm' Hne [e' Hv']. assert (m' ∈ l1 ++ m :: l2) as Hm2 by (apply Hin, elem_of_app; by left).
      apply elem_of_app in Hm2 as [Hm2|Hm2]; [rewrite <-Hver, (Hl1 m' Hm2) in Hv' by done; done|].
      apply elem_of_cons in Hm2 as [->|Hm2]; [done|]. apply StronglySorted_app_1_r in Hsorted.
      apply StronglySorted_inv in Hsorted as [_ Hall]. rewrite Forall_forall in Hall. by apply Hall. }
    assert (m ∈ fs) as Hm by (apply Hin, elem_of_app; right; by left). apply elem_of_app in Hm as [Hm|Hm].
    + rewrite Hver in Hv by done. exists m. split; [done|]. split; [done|]. intros m' Hm' Hne Hv'.
      apply (versions_comparable w cm m m' k Hok); eauto.
    + assert (m ∈ metas) as Hmm by (apply list_elem_of_lookup in Hm as [i Hi]; apply lookup_take_Some in Hi as [Hi _]; by eapply list_elem_of_lookup_2).
      apply (output_is_current m k e Hmm Hv). intros m' Hm' Hv'. apply Hafter; [done| |done].
      intros ->. destruct (output_lookup cm src w1 metas batches Hw1 Hout m Hmm) as (_ & _ & _ & _ & _ & _ & _ & Hf).
      by apply (Hf m Hm').
  - intros m Hm. rewrite <-Hver by done. apply first_version_None with (1 := E). rewrite Hperm. apply elem_of_app. by left.
Qed.
End update.

(** ** Every schedule *)

(** The number of times the reader is scheduled. *)
#[export] Instance thread_eq_dec : EqDecision thread.
Proof. solve_decision. Defined.

Definition reader_turns (schedule : list thread) : nat := length (filter (fun t => t = Reader) schedule).

Section schedules.
Context {abi : Abi} {sort : StdSort}.

Lemma compactor_step_erodes fs w c cm w1 c' cm' w' :
  compactor_step c cm w1 = (c', cm', w') -> erodes fs w w1 -> erodes fs w w'.
Proof.
  intros Hs He. destruct c as [[|m metas] inputs|[|m inputs]|path inputs|s|]; cbn [compactor_step] in Hs.
  - by injection Hs as <- <- <-.
  - destruct (AddFile cm m) as [s cm1]. destruct (negb _); by injection Hs as <- <- <-.
  - by injection Hs as <- <- <-.
  - by injection Hs as <- <- <-.
  - unfold try_remove in Hs. rewrite or_throw_healthy in Hs by apply He. injection Hs as <- <- <-. by apply erodes_remove.
  - by injection Hs as <- <- <-.
  - by injection Hs as <- <- <-.
Qed.

Lemma interleave_course w fs key goal schedule : forall s,
  healthy w -> (forall m, m ∈ fs -> table_file w m) ->
  erodes fs w (sh_world s) -> on_course w fs key goal (sh_reader s) ->
  exists s', interleave key schedule s = Some s' /\ on_course w fs key goal (sh_reader s') /\
    (reader_size (sh_reader s') + reader_turns schedule <= reader_size (sh_reader s) \/ reader_size (sh_reader s') = 0)%nat.
Proof.
  induction schedule as [|t schedule IH]; intros s Hw Ht He Hr; cbn [interleave].
  - exists s. split; [done|]. split; [done|]. left. cbn. lia.
  - destruct t.
    + destruct (reader_step_course w fs key goal Hw Ht (sh_world s) (sh_reader s) He Hr) as (r' & -> & Hr' & Hsize).
      destruct (IH (mkShared r' (sh_compactor s) (sh_cm s) (sh_world s)) Hw Ht He Hr') as (s' & Hs' & Hc' & Hz).
      exists s'. split; [done|]. split; [done|]. cbn [sh_reader] in Hz. rewrite (eq_refl : reader_turns (Reader :: schedule) = S (reader_turns schedule)).
      destruct Hsize as [Hsize|[Hz0 ->]]; lia.
    + destruct (compactor_step _ _ _) as [[c cm] w'] eqn:Ec.
      apply (IH (mkShared (sh_reader s) c cm w') Hw Ht); [|done]. by eapply compactor_step_erodes.
Qed.

Lemma adding_steps metas inputs : forall j cm w,
  (j <= length metas)%nat -> (forall m, m ∈ metas -> 0 <= level m < max_level_ cm) ->
  compactor_steps j (Adding metas inputs) cm w = (Adding (drop j metas) inputs, set_files cm (files_ cm ++ take j metas), w).
Proof.
  induction metas as [|m metas IH]; intros j cm w Hj Hl; destruct j as [|j]; cbn [length] in Hj; try lia.
  - cbn. rewrite app_nil_r. by destruct cm.
  - cbn. rewrite app_nil_r. by destruct cm.
  - cbn [compactor_steps compactor_step]. unfold AddFile.
    destruct (Hl m ltac:(by left)) as [H1 H2].
    rewrite (proj2 (Z.ltb_ge _ _)), (proj2 (Z.leb_gt _ _)) by lia. cbn [orb].
    change (negb (IsOk StatusOk)) with false. cbn beta iota. rewrite IH.
    + cbn [set_files files_ drop take]. by rewrite <-app_assoc.
    + lia.
    + intros m' Hm'. apply Hl. by right.
Qed.
End schedules.

(** * Properties *)

(** C6. A read during a compaction run: on a catalogue in order whose level-0
    files sort by age, when a run is needed, its merge succeeds; a reader that
    copies the catalogue after any number of the outputs have been added and
    before an input has been removed, and from then on takes its steps in any
    interleaving with those of the run, meets no undefined behaviour, is done
    after two steps per file, and returns the value the key had before the run
    or, when a file was deleted under it, an error. *)
Theorem concurrent_read {abi : Abi} {sort : StdSort} (w : World) (cm : CompactionManager)
    (Hor : orderly w cm) (Hage : position_is_age w cm) (Hneed : NeedsCompaction cm = true) :
  exists metas inputs stats cm1 w1, RunCompaction_merge w cm = Some (Ret (Val (metas, inputs, stats)), cm1, w1) /\
    forall (j : nat) (schedule : list thread) (key : str), (j <= length metas)%nat ->
      let '(c, cm2, w2) := compactor_steps j (Adding metas inputs) cm1 w1 in
      exists s, interleave key schedule (mkShared (reader_begin cm2) c cm2 w2) = Some s /\
        ((2 * length (files_ cm2) < reader_turns schedule)%nat -> exists r, sh_reader s = Finished r) /\
        forall r, sh_reader s = Finished r ->
          (exists e, r = Err e) \/ search_tables w (std_sort newer_first (AllFiles cm)) key = Some (r, w).
Proof.
  pose proof (or_catalogue _ _ Hor) as Hok.
  destruct (run_merges w cm Hor Hneed) as (sources & targets & Hsel & Hsrc & Hne & Hmerge).
  apply negb_true_iff in Hneed. unfold RunCompaction_merge. rewrite Hneed. set (src := PickCompactionLevel cm) in *.
  rewrite Hsel. destruct sources as [|s0 sources0]; [done|]. set (sources := s0 :: sources0) in *.
  fold (merge_inputs sources targets).
  match goal with |- context [MergeFiles w cm _ _ ?st] => destruct (Hmerge st)
    as (metas & batches & stats' & cm1 & w1 & -> & Hem & Hw1 & Hf1 & Hx1 & Hd1 & Hout1 & Hn1 & Hfr1) end.
  exists metas, (merge_inputs sources targets), stats', cm1, w1. split; [done|]. intros j schedule key Hj.
  pose proof (run_outputs w cm src sources targets Hor Hsel Hsrc w1 w1 cm1 metas batches Hout1 Hn1 (fun _ _ => eq_refl)) as Hout.
  assert (forall m, m ∈ files_ cm -> files w1 !! filepath m = files w !! filepath m) as Hold.
  { intros m Hm. apply Hfr1. intros num Hnum. pose proof (or_number _ _ Hor). apply (or_fresh _ _ Hor m); [done|lia|lia]. }
  rewrite adding_steps; [|done|].
  2: { rewrite Hx1. intros m (_ & _ & -> & _)%(output_number cm src w1 cm1 metas batches Hout1). lia. }
  rewrite Hf1. unfold reader_begin, AllFiles. cbn [set_files files_]. set (fs := files_ cm ++ take j metas).
  assert (forall m, m ∈ fs -> table_file w1 m) as Htab.
  { intros m [Hm|Hm]%elem_of_app.
    - by apply (frame_entries w w1 cm).
    - apply (output_table w cm src sources targets Hok Hage Hsel ltac:(lia) w1 metas batches Hw1 Hout Hem).
      apply list_elem_of_lookup in Hm as [i Hi]. apply lookup_take_Some in Hi as [Hi _]. by eapply list_elem_of_lookup_2. }
  pose proof (adding_read w cm src sources targets Hok Hage Hsel ltac:(lia) w1 metas batches Hw1 Hold Hout Hem key j) as Hcur.
  fold fs in Hcur. set (goal := client_value (first_version w1 key (std_sort newer_first fs))).
  destruct (interleave_course w1 fs key goal schedule
    (mkShared (Searching (std_sort newer_first fs)) (Adding (drop j metas) (merge_inputs sources targets))
       (set_files cm1 fs) w1)) as (s & Hs & Hc & Hsize); [done|done|by split; auto| |].
  { split; [|done]. intros m Hm. by rewrite std_sort_perm in Hm. }
  exists s. split; [done|]. cbn [sh_reader reader_size] in Hsize.
  rewrite (Permutation_length (std_sort_perm newer_first fs)) in Hsize. split.
  - intros Hturns. destruct (sh_reader s); cbn [reader_size] in Hsize; [lia|lia|eauto].
  - intros r Er. rewrite Er in Hc. destruct Hc as [->|?]; [right|by left]. by apply table_read.
Qed.

(** ** Witness and scenarios *)

#[local] Existing Instance x86_64_libstdcxx.
#[local] Existing Instance insertion_std_sort.

Definition final_state (r : option (list Status * StorageEngine * World)) : option (StorageEngine * World) :=
  match r with Some (_, e, w) => Some (e, w) | None => None end.

(** The four level-0 tables of [layered_ops]; the newest deletes "d". *)
Definition layered_engine : option (StorageEngine * World) :=
  final_state (run_threads sample_config (layered_ops ++ [Client OpFlush])).

(** A reader that copies the catalogue after [before] steps of the run, and then
    runs with it under [schedule]. *)
Definition read_during (before : nat) (schedule : list thread) (key : str) (start : option (StorageEngine * World)) :
    option reader :=
  match start with
  | Some (e, w) =>
      match RunCompaction_merge w (compaction_manager_ e) with
      | Some (Ret (Val (metas, inputs, _)), cm, w) =>
          let '(c, cm, w) := compactor_steps before (Adding metas inputs) cm w in
          match interleave key schedule (mkShared (reader_begin cm) c cm w) with
          | Some s => Some (sh_reader s)
          | None => None
          end
      | _ => None
      end
  | None => None
  end.

Definition read_midway (before : nat) (schedule : list thread) (key : str) : option reader :=
  read_during before schedule key layered_engine.

Lemma concurrent_read_witness :
  exists e w, layered_engine = Some (e, w) /\
    let cm := compaction_manager_ e in
    exists metas inputs stats cm1 w1, RunCompaction_merge w cm = Some (Ret (Val (metas, inputs, stats)), cm1, w1) /\
    forall (j : nat) (schedule : list thread) (key : str), (j <= length metas)%nat ->
      let '(c, cm2, w2) := compactor_steps j (Adding metas inputs) cm1 w1 in
      exists s, interleave key schedule (mkShared (reader_begin cm2) c cm2 w2) = Some s /\
        ((2 * length (files_ cm2) < reader_turns schedule)%nat -> exists r, sh_reader s = Finished r) /\
        forall r, sh_reader s = Finished r ->
          (exists e, r = Err e) \/ search_tables w (std_sort newer_first (AllFiles cm)) key = Some (r, w).
Proof.
  destruct layered_state as (ss & e & w & Hrun & Hor & Hage & Hneed). exists e, w. split.
  - unfold layered_engine. rewrite Hrun. reflexivity.
  - exact (concurrent_read w (compaction_manager_ e) Hor Hage Hneed).
Defined.

Definition reports_error (r : option reader) : bool :=
  match r with Some (Finished (Err _)) => true | _ => false end.

(** A copy from before the removals: read without interference, and with the
    whole run between the copy and the first read. *)
Example early_copy_reads :
  read_midway 1 (replicate 11 Reader) (lit "c") = Some (Finished (Val (Some (lit "2")))) /\
  read_midway 1 (replicate 11 Reader) (lit "d") = Some (Finished (Val None)) /\
  reports_error (read_midway 0 (replicate 11 Compactor ++ replicate 11 Reader) (lit "c")) = true.
Proof. split; [|split]; vm_compute; reflexivity. Qed.

(** A copy from between two removals: the table with the tombstone of "d" is no
    longer listed, older tables still are, and the deleted key reads as present. *)
Example midway_copy_resurrects :
  read_midway 3 (replicate 11 Reader) (lit "d") = Some (Finished (Val (Some (lit "3")))).
Proof. vm_compute. reflexivity. Qed.
