(* ===== verification/EngineFaults.v ===== *)
(** * The engine under I/O faults

    What the operations of Engine.v do when calls into the file system fail, in
    any pattern: the theorems quantify over the whole fault schedule of
    FileSystem.v and compare with the same call in a world where nothing
    fails ([calm]). *)

From S2P Require Import Prelude Status BinarySerializer Mt19937 SkipList MemTable FileSystem Wal Recovery Checkpoint BloomFilter Block SSTable Compaction BlockCache Engine EngineCorrect.

(** The same files, and no fault to come. *)
Definition calm (w : World) : World := mkWorld (files w) [].

Lemma calm_healthy w : healthy (calm w).
Proof. done. Qed.

Lemma calm_files w w' : files w' = files w -> calm w' = calm w.
Proof. unfold calm. by intros ->. Qed.

Lemma calm_calm w : calm (calm w) = calm w.
Proof. done. Qed.

(** A result that may be an error instead. *)
Definition or_error {A} (r r0 : ErrorOr A) : Prop := r = r0 \/ exists s, r = Err s.

Lemma or_error_refl {A} (r : ErrorOr A) : or_error r r.
Proof. by left. Qed.

Lemma or_error_Err {A} s (r0 : ErrorOr A) : or_error (Err s) r0.
Proof. right. eauto. Qed.

Lemma or_error_error {A} c msg (r0 : ErrorOr A) : or_error (error c msg) r0.
Proof. apply or_error_Err. Qed.

#[local] Hint Resolve or_error_refl or_error_Err or_error_error : vdb.

(** ** Streams *)

Lemma ifs_open_faults w path o w' :
  ifs_open w path = (o, w') -> files w' = files w /\ (o = files w !! path \/ o = None).
Proof.
  unfold ifs_open. destruct (next_fault w) as [f w1] eqn:E. pose proof (next_fault_files _ _ _ E) as Hf.
  destruct f; intros [= <- <-]; rewrite Hf; auto.
Qed.

(** A read gets what a read without fault gets, or is cut short. *)
Lemma ifs_read_at_faults w c good offset len : exists got0 good0,
  ifs_read_at (calm w) c good offset len = (got0, good0, calm w) /\
  forall w1 got good' w2, files w1 = files w -> ifs_read_at w1 c good offset len = (got, good', w2) ->
    files w2 = files w /\ ((got = got0 /\ good' = good0) \/ (good' = false /\ Z.of_nat (length got) < len)).
Proof.
  unfold ifs_read_at. destruct (negb good || _) eqn:Eg.
  { do 2 eexists. split; [done|]. intros w1 got good' w2 Hf [= <- <- <-]. auto. }
  set (all := take _ (drop _ c)). rewrite (next_fault_healthy (calm w)) by done. do 2 eexists. split; [done|].
  intros w1 got good' w2 Hf. destruct (next_fault w1) as [f w3] eqn:E. pose proof (next_fault_files _ _ _ E) as Hf3.
  intros [= <- <- <-]. split; [congruence|]. destruct f as [|n]; [by left|].
  destruct (decide (length all <= n)%nat) as [Hn|Hn]; [left; by rewrite take_ge|right].
  assert (Z.of_nat (length (take n all)) < len); [|split; [lia|done]].
  rewrite length_take. assert (Z.of_nat (length all) <= Z.max 0 len); [|lia].
  unfold all. rewrite length_take. lia.
Qed.

(** ** Tables *)

Ltac calm_read :=
  match goal with
  | |- context [ifs_read_at (calm ?w) ?c ?g ?o ?n] =>
      let H := fresh "Hread" in destruct (ifs_read_at_faults w c g o n) as (? & ? & -> & H)
  end.

Lemma SSTableReader_Open_calm w path : exists r, SSTableReader_Open (calm w) path = (r, calm w).
Proof.
  unfold SSTableReader_Open, ifs_open. rewrite (next_fault_healthy (calm w)) by done.
  destruct (negb _); [eauto|]. destruct (files (calm w) !! path) as [c|]; [|eauto].
  destruct (_ <? kFooterSize); [eauto|]. calm_read. destruct (ReadFooter _) as [f|s]; [|eauto].
  destruct (negb _); [eauto|]. calm_read. destruct (negb _); [eauto|]. destruct (ReadBloom _) as [bloom|s]; [|eauto].
  calm_read. destruct (negb _); [eauto|]. destruct (ReadIndex _); eauto.
Qed.

(** Once a read has failed, [Open] reports an error. *)
Lemma SSTableReader_Open_faults w path :
  let '(r, w') := SSTableReader_Open w path in
  files w' = files w /\ or_error r (SSTableReader_Open (calm w) path).1.
Proof.
  unfold SSTableReader_Open. change (fs_exists (calm w) path) with (fs_exists w path).
  destruct (negb (fs_exists w path)); [auto with vdb|].
  unfold ifs_open at 2. rewrite (next_fault_healthy (calm w)) by done. change (files (calm w)) with (files w).
  destruct (ifs_open w path) as [o w1] eqn:Eo. apply ifs_open_faults in Eo as [Hf1 Ho].
  destruct Ho as [-> | ->]; [|auto with vdb]. destruct (files w !! path) as [c|]; [|auto with vdb].
  destruct (_ <? kFooterSize); [auto with vdb|]. calm_read.
  destruct (ifs_read_at w1 c true _ _) as [[got good] w2] eqn:E2.
  destruct (Hread _ _ _ _ Hf1 E2) as [Hf2 [[-> ->]|[-> _]]].
  - destruct (ReadFooter _) as [f|s]; [|auto with vdb]. destruct (negb _); [auto with vdb|]. calm_read.
    destruct (ifs_read_at w2 c _ _ _) as [[got3 good3] w3] eqn:E3.
    destruct (Hread0 _ _ _ _ Hf2 E3) as [Hf3 [[-> ->]|[-> _]]]; [|cbn [negb]; auto with vdb].
    destruct (negb _); [auto with vdb|]. destruct (ReadBloom _) as [bloom|s]; [|auto with vdb]. calm_read.
    destruct (ifs_read_at w3 c _ _ _) as [[got4 good4] w4] eqn:E4.
    destruct (Hread1 _ _ _ _ Hf3 E4) as [Hf4 [[-> ->]|[-> _]]]; [|cbn [negb]; auto with vdb].
    destruct (negb _); [auto with vdb|]. destruct (ReadIndex _); cbn [fst]; auto with vdb.
  - destruct (ReadFooter (got ++ _)) as [f|s]; [|auto with vdb]. destruct (negb (f_magic f =? _)); [auto with vdb|].
    cbn [ifs_read_at negb orb]. auto with vdb.
Qed.

Lemma ReadBlock_faults w rd offset size :
  let '(r, w') := ReadBlock w rd offset size in
  files w' = files w /\ exists r0, ReadBlock (calm w) rd offset size = (r0, calm w) /\ or_error r r0.
Proof.
  unfold ReadBlock. unfold ifs_open at 2. rewrite (next_fault_healthy (calm w)) by done.
  change (files (calm w)) with (files w).
  destruct (ifs_open w (filepath_ rd)) as [o w1] eqn:Eo. apply ifs_open_faults in Eo as [Hf1 Ho].
  destruct (files w !! filepath_ rd) as [c|].
  2: { destruct Ho as [-> | ->]; eauto with vdb. }
  calm_read. destruct Ho as [-> | ->].
  2: { split; [done|]. destruct (_ <? size); eauto with vdb. }
  destruct (ifs_read_at w1 c true offset size) as [[got good] w2] eqn:E2.
  destruct (Hread _ _ _ _ Hf1 E2) as [Hf2 [[-> ->]|[-> Hshort]]].
  - destruct (_ <? size); eauto with vdb.
  - rewrite (proj2 (Z.ltb_lt _ _)) by done. split; [done|]. destruct (_ <? size); eauto with vdb.
Qed.

(** A lookup that may fail: undefined behaviour, an error, or the value. *)
Definition same_or_error {A} (out : option (ErrorOr A * World)) (w : World) (out0 : option (ErrorOr A * World)) : Prop :=
  match out with
  | None => out0 = None
  | Some (r, w') => files w' = files w /\ ((exists s, r = Err s) \/ out0 = Some (r, calm w))
  end.

Lemma SSTableReader_Get_faults w rd key :
  same_or_error (SSTableReader_Get w rd key) w (SSTableReader_Get (calm w) rd key).
Proof.
  unfold SSTableReader_Get, same_or_error. destruct (MayContain (bloom_ rd) key) as [[|]|]; [|eauto..].
  destruct (find_block _ _ _ _ _ _) as [candidate|]; [|done]. destruct (candidate =? -1); [eauto|].
  destruct (index_ rd !! Z.to_nat candidate) as [ie|]; [|done].
  pose proof (ReadBlock_faults w rd (block_offset ie) (block_size ie)) as H.
  destruct (ReadBlock w rd _ _) as [r w'] eqn:E. destruct H as (Hf & r0 & -> & [-> |[s ->]]).
  - destruct r0 as [b|s]; [|by eauto]. destruct (Block_Get b key); [|done]. split; [done|]. by right.
  - by eauto.
Qed.

(** ** Reads of the engine *)

Lemma search_tables_faults files0 key : forall w,
  same_or_error (search_tables w files0 key) w (search_tables (calm w) files0 key).
Proof.
  induction files0 as [|m files0 IH]; intros w; cbn [search_tables]; [cbn; eauto|].
  destruct (_ || _); [apply IH|].
  pose proof (SSTableReader_Open_faults w (filepath m)) as Ho.
  destruct (SSTableReader_Open w (filepath m)) as [r w1]. destruct Ho as [Hf1 Hr].
  destruct (SSTableReader_Open_calm w (filepath m)) as [r0 E0]. rewrite E0 in *. cbn [fst] in Hr.
  destruct Hr as [-> |[s ->]]; [|cbn; eauto].
  destruct r0 as [rd|s]; [|cbn; eauto].
  pose proof (SSTableReader_Get_faults w1 rd key) as Hg. unfold same_or_error in Hg. rewrite (calm_files w w1 Hf1) in Hg.
  destruct (SSTableReader_Get w1 rd key) as [[r w2]|]; [|by rewrite Hg].
  destruct Hg as [Hf2 [[s ->]| ->]]; [cbn; split; [congruence|eauto]|].
  assert (files w2 = files w) as Hf by congruence.
  destruct r as [[entry|]|s]; [|pose proof (IH w2) as H|cbn; split; [done|eauto]].
  - destruct (be_is_tombstone entry); cbn; (split; [done|eauto]).
  - unfold same_or_error in *. rewrite (calm_files w w2 Hf) in H.
    destruct (search_tables w2 files0 key) as [[r w3]|]; [|done]. destruct H as [Hf3 H]. split; [congruence|done].
Qed.

(** ** Writes of the engine *)

Lemma ofs_write_faults w os bs os' w' :
  ofs_write w os bs = (os', w') -> os_path os' = os_path os /\ forall p, p <> os_path os -> files w' !! p = files w !! p.
Proof.
  unfold ofs_write. destruct (os_good os); [|by intros [= <- <-]].
  destruct (next_fault w) as [f w1] eqn:E. pose proof (next_fault_files _ _ _ E) as Hf.
  destruct f; intros [= <- <-]; (split; [done|]); intros p Hp; rewrite ?append_file_other by done; by rewrite Hf.
Qed.

Lemma ofs_flush_faults w os os' w' :
  ofs_flush w os = (os', w') -> os_path os' = os_path os /\ forall p, p <> os_path os -> files w' !! p = files w !! p.
Proof.
  unfold ofs_flush. destruct (os_good os); [|by intros [= <- <-]].
  destruct (next_fault w) as [f w1] eqn:E. pose proof (next_fault_files _ _ _ E) as Hf.
  destruct f; intros [= <- <-]; (split; [done|]); intros p Hp; rewrite append_file_other by done; by rewrite Hf.
Qed.

(** An append touches the file of the log only. *)
Lemma WAL_Append_faults w wal x r wal' w' :
  WAL_Append w wal x = (r, wal', w') -> forall p, p <> os_path (write_file_ wal) -> files w' !! p = files w !! p.
Proof.
  unfold WAL_Append. destruct (ofs_write w _ _) as [f1 w1] eqn:E1. apply ofs_write_faults in E1 as [Hp1 Hf1].
  destruct (negb _); [by intros [= _ _ <-]|]. destruct (ofs_flush w1 f1) as [f2 w2] eqn:E2.
  apply ofs_flush_faults in E2 as [_ Hf2]. intros [= _ _ <-] p Hp. rewrite Hf2 by congruence. by apply Hf1.
Qed.

(** Two engines that differ in the log and the counters answer alike. *)
Lemma Get_same {sort : StdSort} w e e' key :
  active_memtable_ e' = active_memtable_ e -> immutable_memtable_ e' = immutable_memtable_ e ->
  compaction_manager_ e' = compaction_manager_ e -> StorageEngine_Get w e' key = StorageEngine_Get w e key.
Proof. intros E1 E2 E3. unfold StorageEngine_Get, GetFromSSTables. by rewrite E1, E2, E3. Qed.

(** Another memtable, with the same answer for the key. *)
Lemma Get_memtable {sort : StdSort} w e e' mt mt' m m' key :
  active_memtable_ e = Some mt -> active_memtable_ e' = Some mt' -> mt_repr mt m -> mt_repr mt' m' ->
  immutable_memtable_ e' = immutable_memtable_ e -> compaction_manager_ e' = compaction_manager_ e ->
  m' !! key = m !! key -> StorageEngine_Get w e' key = StorageEngine_Get w e key.
Proof.
  intros E1 E1' Hr Hr' E2 E3 Em. unfold StorageEngine_Get, GetFromSSTables.
  by rewrite E1, E1', E2, E3, (mt_get_repr _ _ key Hr), (mt_get_repr _ _ key Hr'), Em.
Qed.

(** ** Flushing *)

Lemma read_blocks_faults rd index : forall w es,
  let '(r, w') := read_blocks w rd index es in
  files w' = files w /\ exists r0, read_blocks (calm w) rd index es = (r0, calm w) /\ or_error r r0.
Proof.
  induction index as [|ie index IH]; intros w es; cbn [read_blocks]; [eauto with vdb|].
  pose proof (ReadBlock_faults w rd (block_offset ie) (block_size ie)) as H.
  destruct (ReadBlock w rd _ _) as [r w1]. destruct H as (Hf & r0 & -> & [-> |[s ->]]).
  - destruct r0 as [b|s]; [|eauto with vdb]. specialize (IH w1 (es ++ entries_ b)).
    destruct (read_blocks w1 rd index _) as [r2 w2]. rewrite (calm_files w w1 Hf) in IH.
    destruct IH as (Hf2 & IH). split; [congruence|done].
  - split; [done|]. destruct r0 as [b|s']; [|eauto with vdb].
    pose proof (IH (calm w) (es ++ entries_ b)) as H0.
    destruct (read_blocks (calm w) rd index (es ++ entries_ b)) as [r2 w2] eqn:E2.
    destruct H0 as (_ & r3 & E & _). rewrite calm_calm, E2 in E. injection E as -> ->. eauto with vdb.
Qed.

Lemma SSTableReader_ReadAll_faults w rd :
  let '(r, w') := SSTableReader_ReadAll w rd in
  files w' = files w /\ exists r0, SSTableReader_ReadAll (calm w) rd = (r0, calm w) /\ or_error r r0.
Proof. apply read_blocks_faults. Qed.

Lemma key_range_files w path : files (key_range w path).2 = files w.
Proof.
  unfold key_range. pose proof (SSTableReader_Open_faults w path) as H.
  destruct (SSTableReader_Open w path) as [[rd|s] w1]; destruct H as [H _]; [|done].
  pose proof (SSTableReader_ReadAll_faults w1 rd) as Hr.
  destruct (SSTableReader_ReadAll w1 rd) as [[[|first rest]|s] w2]; destruct Hr as [Hr _]; cbn; congruence.
Qed.

Section flush_faults.
Context {abi : Abi} {sort : StdSort}.

(** The files a flush may change: its table, the checkpoint and its temporary
    file; the checkpoint only when it succeeds. *)
Lemma Flush_write_faults cfg w e mt cur lsn :
  config_ e = cfg -> checkpoint_manager_ e = CheckpointManager_new (data_dir cfg) ->
  max_level_ (compaction_manager_ e) = kNumLevels -> mt_repr mt (segment_map cur) -> log_cost cur < 2 ^ 30 ->
  let cpm := CheckpointManager_new (data_dir cfg) in
  exists s e' w', Flush_write w e mt lsn = Some (s, e', w') /\
    (forall p, p <> table_path cfg (next_sst_sequence_ e) -> p <> checkpoint_path_ cpm -> p <> temp_path_ cpm ->
       files w' !! p = files w !! p) /\
    (IsOk s = false -> files w' !! checkpoint_path_ cpm = files w !! checkpoint_path_ cpm).
Proof.
  intros Hc Hcp Hmax Hrepr Hcost cpm. destruct (paths_distinct cfg (next_sst_sequence_ e)) as (_ & D & _ & _).
  destruct (mt_entries_repr mt _ Hrepr) as (iter & Hiter & Hs & Hm).
  pose proof (lists_map_iter _ iter Hs Hm) as Hlm. pose proof (lists_map_size cur _ Hlm) as Hsize.
  assert (Z.of_nat (length iter) < 2 ^ 60) as Hcount.
  { pose proof (encoded_sum_count (entry_of_iter <$> iter)) as Hn. rewrite length_fmap in Hn. lia. }
  unfold Flush_write. rewrite Hiter. unfold sst_path. cbn [set_counters config_]. rewrite Hc.
  fold (table_path cfg (next_sst_sequence_ e)). set (path := table_path cfg (next_sst_sequence_ e)).
  destruct (sstable_write_frame w path iter Hcount) as (s1 & w1 & -> & Hw1 & _ & Hex).
  destruct (IsOk s1) eqn:Ok1; cbn [negb].
  2: { do 3 eexists. split; [done|]. split; [by intros p Hp _ _; apply Hw1|]. intros _. apply Hw1. exact (not_eq_sym D). }
  destruct (Hex eq_refl) as [c Hfile]. unfold fs_file_size. rewrite Hfile.
  pose proof (key_range_files w1 path) as Hk. destruct (key_range w1 path) as [[lo hi] w2]. cbn [snd] in Hk.
  unfold AddFile. cbn [level set_counters compaction_manager_]. rewrite Hmax. change (_ || _) with false. cbn beta iota.
  change (negb (IsOk StatusOk)) with false. cbn beta iota. cbn [set_compaction set_counters checkpoint_manager_ compaction_manager_].
  rewrite Hcp. fold cpm. set (cp := mkCheckpoint lsn _).
  pose proof (SaveCheckpoint_atomic w2 (data_dir cfg) cp) as Ha. cbn zeta in Ha. fold cpm in Ha.
  destruct (SaveCheckpoint w2 cpm cp) as [s3 w3]. destruct Ha as [Ha1 Ha2].
  assert (forall p, p <> path -> p <> checkpoint_path_ cpm -> p <> temp_path_ cpm -> files w3 !! p = files w !! p) as Hf.
  { intros p P1 P2 P3. rewrite Ha2, Hk by done. by apply Hw1. }
  destruct (IsOk s3) eqn:Ok3; cbn [negb]; do 3 eexists; (split; [done|]); (split; [done|]); [done|].
  intros _. rewrite Ha1, Hk. apply Hw1. exact (not_eq_sym D).
Qed.

(** The view of the files of an engine does not depend on other files. *)
Lemma engine_view_frame cfg w w' e segs cur :
  engine_view cfg w e segs cur -> healthy w' ->
  files w' !! wal_path cfg = files w !! wal_path cfg ->
  files w' !! checkpoint_path_ (CheckpointManager_new (data_dir cfg))
  = files w !! checkpoint_path_ (CheckpointManager_new (data_dir cfg)) ->
  (forall i, (i < length segs)%nat -> files w' !! table_path cfg (1 + Z.of_nat i) = files w !! table_path cfg (1 + Z.of_nat i)) ->
  engine_view cfg w' e segs cur.
Proof.
  intros [H1 (wal & H2 & Hp & Hws) H3 H4 H5 H6 H7 H8 H9 H10 H11] Hw Hl Hc Ht. split; auto.
  - exists wal. split_and!; auto. apply (wal_state_frame w); auto. by rewrite Hp.
  - by eapply seg_files_frame.
  - by eapply manifest_frame.
Qed.

(** A flush that fails leaves the files of the state before it. *)
Lemma FlushMemTable_faults cfg w w0 e segs cur :
  engine_inv cfg w e segs cur -> files w0 = files w ->
  exists s e' w', FlushMemTable w0 e = Some (s, e', w') /\
    (IsOk s = false -> engine_view cfg (calm w') e segs cur).
Proof.
  intros [Hv Hseq] Hw0. destruct (proj1 (engine_inv_store _ _ _ _ _) (conj Hv Hseq)) as [Hst _].
  destruct (store_bounds _ _ _ _ _ Hst) as (Hb & _ & Hcost).
  destruct (ev_mem _ _ _ _ _ Hv) as (mt & Hmt & Hrepr). destruct (ev_wal _ _ _ _ _ Hv) as (wal & Hwal & _).
  unfold FlushMemTable, Flush_swap. rewrite Hmt, (mt_is_empty_repr _ _ Hrepr).
  destruct (bool_decide (segment_map cur = ∅)); [by do 3 eexists|].
  unfold Flush_lsn. cbn [set_memtables wal_]. rewrite Hwal.
  destruct (Flush_write_faults cfg w0 (set_memtables e (Some MemTable_new) None) mt cur (current_sequence_number wal))
    as (s & e' & w' & -> & Hother & Hcp); auto; try apply Hv.
  { cbn. by rewrite (ev_manager _ _ _ _ _ Hv). }
  do 3 eexists. split; [done|]. intros Hs. cbn [set_memtables next_sst_sequence_] in Hother. rewrite Hseq, Hw0 in *.
  destruct (paths_distinct cfg (1 + Z.of_nat (length segs))) as (D1 & _ & _ & D4 & D5).
  apply (engine_view_frame cfg w _ _ _ _ Hv (calm_healthy w')); cbn [files calm].
  - by apply Hother.
  - by apply Hcp.
  - intros i Hi. destruct (paths_distinct cfg (1 + Z.of_nat i)) as (_ & E2 & E3 & _). apply Hother; [|done..].
    intros E. apply table_path_inj in E; lia.
Qed.
End flush_faults.

(** * Properties *)

(** C10. A read under I/O faults is never wrong: whatever opens and reads
    of files fail, and whatever the files hold, [Get] changes no file and either
    returns an error or exactly what it returns when nothing fails.  (The [exists]
    in front of an open is taken not to throw.) *)
Theorem engine_get_faults {sort : StdSort} (w : World) (e : StorageEngine) (key : str) :
  match StorageEngine_Get w e key with
  | None => StorageEngine_Get (calm w) e key = None
  | Some (r, w') => files w' = files w /\
      ((exists s, r = Err s) \/ StorageEngine_Get (calm w) e key = Some (r, calm w))
  end.
Proof.
  unfold StorageEngine_Get. destruct (active_memtable_ e) as [mt|]; [|done].
  destruct (MemTable_Get mt key) as [[v|]|]; [eauto| |done].
  pose proof (search_tables_faults (std_sort newer_first (AllFiles (compaction_manager_ e))) key w) as H.
  destruct (immutable_memtable_ e) as [imm|]; [|exact H].
  destruct (MemTable_Get imm key) as [[v|]|]; [eauto|exact H|done].
Qed.

(** C12. A write under I/O faults takes effect or does not: whatever calls fail,
    while the memtable stays below its limit, [Put] touches no file but the
    log; when it returns an error every key reads as before, and when it
    returns Ok the key reads as the value and every other key as before. *)
Theorem engine_put_faults {abi : Abi} {sort : StdSort} (w : World) (e : StorageEngine) (wal : WAL) (mt : MemTable)
    (m : gmap str SkipListValue) (key : str) (value : bytes)
    (Hwal : wal_ e = Some wal) (Hmt : active_memtable_ e = Some mt) (Hrepr : mt_repr mt m)
    (Hroom : forall mt', MemTable_Put mt key value = Some mt' ->
       MemTable_ApproximateMemoryUsage mt' < memtable_size_bytes (config_ e)) :
  exists s e' w', StorageEngine_Put w e key value = Some (s, e', w') /\
    (forall p, p <> os_path (write_file_ wal) -> files w' !! p = files w !! p) /\
    (IsOk s = false -> forall w2 k, StorageEngine_Get w2 e' k = StorageEngine_Get w2 e k) /\
    (IsOk s = true -> forall w2, StorageEngine_Get w2 e' key = Some (Val (Some value), w2) /\
       forall k, k <> key -> StorageEngine_Get w2 e' k = StorageEngine_Get w2 e k).
Proof.
  unfold StorageEngine_Put, WriteEntry, WriteEntry_log. rewrite Hwal.
  destruct (WAL_Append w wal _) as [[r wal'] w1] eqn:Ea. pose proof (WAL_Append_faults _ _ _ _ _ _ Ea) as Hf.
  destruct r as [n|s].
  - change (negb (IsOk StatusOk)) with false. cbn beta iota. unfold WriteEntry_apply.
    cbn [set_counters set_wal active_memtable_ config_]. rewrite Hmt, bool_decide_true by done.
    destruct (mt_put_repr mt m key value Hrepr) as (mt' & Hput & Hrepr'). rewrite Hput.
    rewrite (proj2 (Z.leb_gt _ _)) by (by apply Hroom).
    do 3 eexists. split; [done|]. split; [done|]. split; [done|]. intros _ w2. split.
    + unfold StorageEngine_Get. cbn [set_memtables active_memtable_].
      rewrite (mt_get_repr _ _ key Hrepr'), lookup_insert_eq. done.
    + intros k Hk. eapply (Get_memtable w2 e _ mt mt' m); try done. by apply lookup_insert_ne.
  - apply WAL_Append_error in Ea. rewrite Ea. do 3 eexists. split; [done|]. split; [done|].
    rewrite Ea. split; [|done]. intros _ w2 k. by apply Get_same.
Qed.

(** C11. A failed flush loses nothing on disk: after any sequence of writes and
    flushes, a further flush returns whatever stream or rename calls fail in it
    ([create_directories], [exists] and [file_size] are taken not to throw), and when it
    reports an error an engine opened on the files afterwards reads every key
    as it was read before that flush. *)
Theorem failed_flush_recoverable {abi : Abi} {sort : StdSort} (cfg : StorageConfig) (ops : list engine_op) (schedule : list fault)
    (Hcfg : config_ok cfg) (Hops : Forall op_ok ops) (Hcost : log_cost (ops_log ops) < 2 ^ 30) :
  exists ss e w s e' w', run_fresh cfg ops = Some (ss, e, w) /\
    FlushMemTable (mkWorld (files w) schedule) e = Some (s, e', w') /\
    (IsOk s = false ->
     exists e2, StorageEngine_Open (calm w') cfg = Some (Val e2, calm w') /\
       forall key, exists v, StorageEngine_Get w e key = Some (Val v, w) /\
         StorageEngine_Get (calm w') e2 key = Some (Val v, calm w')).
Proof.
  destruct (run_fresh_spec cfg ops Hcfg Hops Hcost) as (ss & e & w & segs & cur & Hrun & _ & Hinv & _).
  destruct (FlushMemTable_faults cfg w (mkWorld (files w) schedule) e segs cur Hinv eq_refl) as (s & e' & w' & Hf & Hv').
  exists ss, e, w, s, e', w'. split; [done|]. split; [done|]. intros Hs. destruct Hinv as [Hv _].
  destruct (engine_reopen cfg _ e segs cur (Hv' Hs)) as (e2 & Ho & Hv2 & _).
  exists e2. split; [done|]. intros key. exists (view_get segs cur key). split; by apply (Get_view cfg).
Qed.

(** ** Witnesses *)

#[local] Existing Instance x86_64_libstdcxx.
#[local] Existing Instance insertion_std_sort.

(** An engine that has just been opened, and a log whose next write fails. *)
Lemma engine_put_faults_witness :
  match StorageEngine_Open (mkWorld ∅ []) sample_config with
  | Some (Val e, w) =>
      match StorageEngine_Put (mkWorld (files w) [Fault 3]) e (lit "k") (lit "v") with
      | Some (s, e', _) => IsOk s = false /\ forall w2 k, StorageEngine_Get w2 e' k = StorageEngine_Get w2 e k
      | None => False
      end
  | _ => False
  end.
Proof.
  destruct (engine_open_fresh sample_config (mkWorld ∅ [])) as (e & w & Ho & Hv & _); [reflexivity..|].
  assert (match StorageEngine_Open (mkWorld ∅ []) sample_config with
          | Some (Val e, w) =>
              match active_memtable_ e, StorageEngine_Put (mkWorld (files w) [Fault 3]) e (lit "k") (lit "v") with
              | Some mt, Some (s, _, _) =>
                  negb (IsOk s) &&
                  match MemTable_Put mt (lit "k") (lit "v") with
                  | Some mt' => MemTable_ApproximateMemoryUsage mt' <? memtable_size_bytes (config_ e)
                  | None => true
                  end
              | _, _ => false
              end
          | _ => false
          end = true) as Hrun by (vm_compute; reflexivity).
  rewrite Ho in *. destruct (ev_wal _ _ _ _ _ Hv) as (wal & Hwal & _). destruct (ev_mem _ _ _ _ _ Hv) as (mt & Hmt & Hrepr).
  rewrite Hmt in Hrun.
  destruct (engine_put_faults (mkWorld (files w) [Fault 3]) e wal mt _ (lit "k") (lit "v") Hwal Hmt Hrepr)
    as (s & e' & w' & Hput & _ & Hfail & _).
  - intros mt' Hp. rewrite Hp in Hrun. destruct (StorageEngine_Put _ _ _ _) as [[[? ?] ?]|]; [|discriminate Hrun].
    apply andb_true_iff in Hrun as [_ Hrun]. by apply Z.ltb_lt.
  - rewrite Hput in *. apply andb_true_iff in Hrun as [Hs _]. apply negb_true_iff in Hs. split; [exact Hs|exact (Hfail Hs)].
Defined.

(** The write of the table fails after two bytes. *)
Lemma failed_flush_recoverable_witness :
  exists ss e w s e' w', run_fresh sample_config sample_ops = Some (ss, e, w) /\
    FlushMemTable (mkWorld (files w) [NoFault; Fault 2]) e = Some (s, e', w') /\ IsOk s = false /\
    exists e2, StorageEngine_Open (calm w') sample_config = Some (Val e2, calm w') /\
      forall key, exists v, StorageEngine_Get w e key = Some (Val v, w) /\
        StorageEngine_Get (calm w') e2 key = Some (Val v, calm w').
Proof.
  destruct (failed_flush_recoverable sample_config sample_ops [NoFault; Fault 2])
    as (ss & e & w & s & e' & w' & Hrun & Hf & H); [vm_compute; reflexivity|exact sample_ops_ok|vm_compute; reflexivity|].
  assert (match run_fresh sample_config sample_ops with
          | Some (_, e, w) =>
              match FlushMemTable (mkWorld (files w) [NoFault; Fault 2]) e with
              | Some (s, _, _) => negb (IsOk s)
              | None => false
              end
          | None => false
          end = true) as Hs by (vm_compute; reflexivity).
  rewrite Hrun, Hf in Hs. apply negb_true_iff in Hs.
  exists ss, e, w, s, e', w'. split; [exact Hrun|]. split; [exact Hf|]. split; [exact Hs|exact (H Hs)].
Defined.
