(* ===== verification/CompactionFaults.v ===== *)
(** * A compaction run under I/O faults

    [RunCompaction] of Compaction.v when calls into the file system fail, in any
    pattern; a failure shows as an error status or, for the calls of
    [std::filesystem], as an exception that leaves the run.  The inputs are read
    exactly or the run ends; until the catalogue is updated only new files are
    written, so a run that reports an error, or is left by an exception before the
    update, leaves the catalogue, its tables and with them every read as they
    were.  An exception of the [remove] of an input is different: the catalogue has
    been updated by then, and inputs have been deleted. *)

From S2P Require Import Prelude Status BinarySerializer Mt19937 SkipList MemTable FileSystem Wal Recovery Checkpoint BloomFilter Block SSTable Compaction CompactionMerge BlockCache Engine EngineCorrect CompactionReads EngineCompaction EngineSpec EngineFaults.

(** ** Reading the inputs *)

(** The call threw, or returned an error or [good]. *)
Definition or_throws {A} (r : Outcome (ErrorOr A)) (good : ErrorOr A) : Prop :=
  r = Throw \/ exists r0, r = Ret r0 /\ or_error r0 good.

Lemma Open_input_faults w path :
  let '(r, w') := Open_input w path in
  files w' = files w /\ or_throws r (SSTableReader_Open (calm w) path).1.
Proof.
  unfold Open_input, try_exists. destruct (or_throw_cases w (fun w => (Ret (fs_exists w path), w))) as (w1 & Hf & [-> | ->]).
  - split; [done|by left].
  - pose proof (SSTableReader_Open_faults w1 path) as H. destruct (SSTableReader_Open w1 path) as [r w2].
    rewrite (calm_files w w1 Hf) in H. destruct H as [H1 H2]. split; [congruence|right; eauto].
Qed.

Lemma read_inputs_faults inputs : forall w file_data stats,
  Forall2 (fun m es => table_at (calm w) (filepath m) es) inputs file_data ->
  let '(r, _, w') := read_inputs w inputs stats in
  files w' = files w /\ or_throws r (Val file_data).
Proof.
  induction inputs as [|m inputs IH]; intros w file_data stats H; cbn [read_inputs].
  - apply Forall2_nil_inv_l in H as ->. split; [done|]. right. eexists. split; [done|by left].
  - apply Forall2_cons_inv_l in H as (es & rest & (rd & Ho & _ & Ha & _) & Hrest & ->).
    assert (forall (s : Status) w', files w' = files w -> files w' = files w /\ or_throws (Ret (Err s)) (Val (es :: rest))) as Herr.
    { intros s w' Hf. split; [done|]. right. eexists. split; [done|right; eauto]. }
    pose proof (Open_input_faults w (filepath m)) as Hopen. rewrite Ho in Hopen.
    destruct (Open_input w (filepath m)) as [r w1]. destruct Hopen as [Hf1 [-> |(r0 & -> & [-> |[s ->]])]]; cbn [fst].
    { split; [done|by left]. }
    2: { by apply Herr. }
    pose proof (SSTableReader_ReadAll_faults w1 rd) as Hall.
    destruct (SSTableReader_ReadAll w1 rd) as [r2 w2]. destruct Hall as (Hf2 & r0 & E0 & Hr2).
    rewrite (calm_files w w1 Hf1), Ha in E0. injection E0 as <-.
    destruct Hr2 as [-> |[s ->]]; [|apply Herr; congruence].
    assert (files w2 = files w) as Hf by congruence. rewrite <-(calm_files w w2 Hf) in Hrest.
    specialize (IH w2 rest (stats_read stats (Z.of_nat (length es)) (file_size_bytes m)) Hrest).
    destruct (read_inputs w2 inputs _) as [[r3 stats3] w3]. destruct IH as [Hf3 [-> |(r0 & -> & [-> |[s ->]])]].
    + split; [congruence|by left].
    + split; [congruence|]. right. eexists. split; [done|by left].
    + apply Herr. congruence.
Qed.

(** ** Writing the outputs *)

(** Since [cm0] and [w0] only files with numbers that were taken since then have
    been written, and the catalogue is the same. *)
Record writing (w0 : World) (cm0 : CompactionManager) (lvl : Z) (st : MergeState) : Prop := {
  wr_files : files_ (ms_cm st) = files_ cm0;
  wr_levels : max_level_ (ms_cm st) = max_level_ cm0;
  wr_dir : cm_data_dir_ (ms_cm st) = cm_data_dir_ cm0;
  wr_number : next_file_number_ cm0 < next_file_number_ (ms_cm st);
  wr_path : ms_path st = out_path (cm_data_dir_ cm0) lvl (next_file_number_ (ms_cm st) - 1);
  wr_metas : forall m, m ∈ ms_metas st -> level m = lvl;
  wr_frame : forall p,
    (forall num, next_file_number_ cm0 <= num < next_file_number_ (ms_cm st) -> p <> out_path (cm_data_dir_ cm0) lvl num) ->
    files (ms_world st) !! p = files w0 !! p
}.

Lemma writing_same w0 cm0 lvl st st' :
  writing w0 cm0 lvl st -> ms_world st' = ms_world st -> ms_cm st' = ms_cm st -> ms_path st' = ms_path st ->
  ms_metas st' = ms_metas st -> writing w0 cm0 lvl st'.
Proof. intros [] E1 E2 E3 E4. split; rewrite ?E1, ?E2, ?E3, ?E4; done. Qed.

Section faults.
Context {abi : Abi}.

Lemma WriteVectorToSSTable_faults w path es :
  batch_ok es -> exists r w', WriteVectorToSSTable w path es = Some (r, w') /\
    forall p, p <> path -> files w' !! p = files w !! p.
Proof.
  intros (Hs & Hp & Hsize). destruct (vector_iter es Hs Hp) as (sl & Hfill & Hiter).
  unfold WriteVectorToSSTable. destruct es as [|e0 es0] eqn:Ees; [by eauto|]. rewrite <-Ees in *.
  rewrite Hfill, Hiter. pose proof (encoded_sum_count es) as Hcount. unfold try_create_directories.
  destruct (or_throw_cases w (fun w => (Ret (), w))) as (w1 & Hw1 & [-> | ->]).
  { do 2 eexists. split; [done|]. intros p _. by rewrite Hw1. }
  destruct (sstable_write_frame w1 path (pair_of_entry <$> es)) as (s & w' & -> & Hf & _); [rewrite length_fmap; lia|].
  do 2 eexists. split; [done|]. intros p Hne. by rewrite Hf, Hw1.
Qed.

Lemma output_size_faults w path estimate : exists r w', output_size w path estimate = (r, w') /\ files w' = files w.
Proof.
  unfold output_size, try_exists, try_file_size.
  destruct (or_throw_cases w (fun w => (Ret (fs_exists w path), w))) as (w1 & Hf1 & [-> | ->]); [eauto|].
  destruct (fs_exists w1 path); [|eauto].
  match goal with |- context [or_throw w1 ?c] => destruct (or_throw_cases w1 c) as (w2 & Hf2 & [-> | ->]) end;
    (do 2 eexists; split; [done|congruence]).
Qed.

Definition succeeds (r : Outcome Status) : bool := match r with Ret s => IsOk s | Throw => false end.

Lemma writing_world w0 cm0 lvl st w :
  writing w0 cm0 lvl st -> (forall p, p <> ms_path st -> files w !! p = files (ms_world st) !! p) ->
  writing w0 cm0 lvl (set_world st w).
Proof.
  intros [W1 W2 W3 W4 W5 W6 W7] Hf. split; cbn [set_world ms_cm ms_path ms_metas ms_world]; try done.
  intros p Hp. rewrite Hf; [by apply W7|]. rewrite W5. apply Hp. lia.
Qed.

(** A flush of the batch, successful or not. *)
Lemma flush_output_faults w0 cm0 lvl st :
  writing w0 cm0 lvl st -> batch_ok (ms_entries st) -> 0 <= next_file_number_ (ms_cm st) < 2 ^ 64 - 1 ->
  exists r st', flush_output lvl st = Some (r, st') /\ writing w0 cm0 lvl st' /\
    ms_heap st' = ms_heap st /\ ms_next st' = ms_next st /\ ms_last_key st' = ms_last_key st /\
    next_file_number_ (ms_cm st') <= next_file_number_ (ms_cm st) + 1 /\
    (succeeds r = true -> ms_entries st' = []).
Proof.
  intros Hwr Hb Hn. unfold flush_output. destruct (ms_entries st) as [|first es] eqn:Ee.
  { do 2 eexists. split; [done|]. split_and!; try done. lia. }
  destruct (WriteVectorToSSTable_faults (ms_world st) (ms_path st) (first :: es) Hb) as (r & w & -> & Hf).
  assert (forall r w1, succeeds r = false -> files w1 = files w -> exists r' st', Some (r, set_world st w1) = Some (r', st') /\
    writing w0 cm0 lvl st' /\ ms_heap st' = ms_heap st /\ ms_next st' = ms_next st /\ ms_last_key st' = ms_last_key st /\
    next_file_number_ (ms_cm st') <= next_file_number_ (ms_cm st) + 1 /\ (succeeds r' = true -> ms_entries st' = [])) as Hbad.
  { intros r' w1 Hr' Hw1. do 2 eexists. split; [done|].
    split_and!; [apply writing_world; [done|by intros; rewrite Hw1, Hf]|done|done|done|cbn; lia|by rewrite Hr']. }
  destruct r as [s|]; [|by apply Hbad]. destruct (IsOk s) eqn:Es; cbn [negb]; [|by apply Hbad].
  destruct (output_size_faults w (ms_path st) (ms_bytes st)) as (size & w1 & -> & Hw1).
  destruct size as [size|]; [|by apply Hbad].
  destruct (writing_world w0 cm0 lvl st w1 Hwr) as [W1 W2 W3 W4 W5 W6 W7]; [by intros; rewrite Hw1, Hf|].
  cbn [set_world ms_cm ms_path ms_metas ms_world] in *.
  unfold GenerateOutputPath. do 2 eexists. split; [done|].
  cbn [ms_heap ms_next ms_last_key ms_cm next_file_number_ ms_entries]. rewrite u64_small by lia. split_and!; try done.
  split; cbn [ms_cm ms_metas ms_path ms_world files_ max_level_ cm_data_dir_ next_file_number_]; auto; try lia.
  - rewrite W3. by rewrite Z.add_simpl_r.
  - intros m [Hm| ->%list_elem_of_singleton]%elem_of_app; [by apply W6|done].
  - intros p Hp. apply W7. intros num ?. apply Hp. lia.
Qed.

(** What is known behind the loop. *)
Definition drained_safely (w0 : World) (cm0 : CompactionManager) (lvl bound : Z)
    (run : option (Outcome Status * MergeState)) : Prop :=
  exists r st', run = Some (r, st') /\ writing w0 cm0 lvl st' /\ next_file_number_ (ms_cm st') <= bound /\
    (succeeds r = true -> batch_ok (ms_entries st')).

Lemma ready_flushed file_data inputs rems st st' :
  ready file_data inputs rems st -> ms_heap st' = ms_heap st -> ms_next st' = ms_next st ->
  ms_last_key st' = ms_last_key st -> ms_entries st' = [] -> ready file_data inputs rems st'.
Proof.
  intros [R1 R2 R3 R4 R5 R6 R7 R8] E1 E2 E3 E4. pose proof (encoded_sum_count (ms_entries st)).
  split; rewrite ?E1, ?E2, ?E3, ?E4; try done; [constructor| |].
  - intros e He. by apply not_elem_of_nil in He.
  - change (encoded_sum []) with 0. lia.
Qed.

Lemma drain_faults w0 cm0 lvl bottom file_data inputs fuel : forall rems st,
  ready file_data inputs rems st -> writing w0 cm0 lvl st -> 0 <= next_file_number_ cm0 ->
  next_file_number_ (ms_cm st) + Z.of_nat (length (mjoin rems)) < 2 ^ 64 - 1 -> (length (mjoin rems) < fuel)%nat ->
  drained_safely w0 cm0 lvl (next_file_number_ (ms_cm st) + Z.of_nat (length (mjoin rems)))
    (drain fuel file_data inputs lvl bottom st).
Proof.
  induction fuel as [|fuel IH]; intros rems st Hrd Hwr H0 Hnum Hfuel; [lia|].
  cbn [drain]. destruct (ms_heap st) as [|x heap] eqn:Eheap.
  { exists (Ret StatusOk), st. split_and!; try done; [lia|]. intros _. by eapply ready_batch_ok. }
  pose proof (rd_drain _ _ _ _ Hrd) as Hdr. rewrite Eheap in Hdr.
  destruct (pop_least x heap) as [item heap'] eqn:Epop.
  destruct (pop_draining _ _ _ _ _ _ _ _ Hdr Epop (rd_sorted _ _ _ _ Hrd))
    as (e & r & m & entries & n & Hitem & Hr & Hm & He & Hn & Hleast & Hdr').
  destruct (dr_files _ _ _ _ _ Hdr) as (Hl1 & Hl2 & _). pose proof (rems_length rems _ e r Hr) as Hlen.
  assert (e ∈ mjoin rems) as Hein.
  { destruct (rems_split rems _ e r Hr) as (A & B & -> & _). apply elem_of_app. right. by left. }
  rewrite He, Hn, Hm. assert (mi_entry item = e) as -> by (by rewrite Hitem).
  fold (advance entries m (mi_file item) n heap' (ms_next st)).
  destruct (advance entries m (mi_file item) n heap' (ms_next st)) as [heap2 next2] eqn:Eadv.
  cbn [fst snd] in Hdr'. set (i := mi_file item) in *.
  assert (forall st', ready file_data inputs (<[i := r]> rems) st' -> writing w0 cm0 lvl st' ->
            next_file_number_ (ms_cm st') <= next_file_number_ (ms_cm st) + 1 ->
            drained_safely w0 cm0 lvl (next_file_number_ (ms_cm st) + Z.of_nat (length (mjoin rems)))
              (drain fuel file_data inputs lvl bottom st')) as Hgo.
  { intros st' Hrd' Hwr' Hle. destruct (IH _ st' Hrd' Hwr' H0) as (s & st2 & E & Hw2 & Hb2 & Hk); [lia|lia|].
    exists s, st2. split_and!; try done. lia. }
  destruct (str_eqb (be_key e) (ms_last_key st)) eqn:Ekey; str_cases.
  { apply Hgo; [|by eapply writing_same|cbn; lia].
    apply (ready_next file_data inputs rems st _ i e r m); auto. lia. }
  assert (str_lt (ms_last_key st) (be_key e)) as Hlt.
  { destruct (str_not_lt _ _ (rd_above _ _ _ _ Hrd e Hein)) as [?|?]; done. }
  destruct (be_is_tombstone e && bottom).
  { apply Hgo; [|by eapply writing_same|cbn; lia].
    apply (ready_next file_data inputs rems st _ i e r m); auto. lia. }
  set (st1 := mkMS _ _ _ _ _ _ _ _ _ _).
  assert (ready file_data inputs (<[i := r]> rems) st1) as Hrd1.
  { apply (ready_next file_data inputs rems st st1 i e r m); auto; lia. }
  assert (writing w0 cm0 lvl st1) as Hwr1 by (by eapply writing_same).
  destruct (kMaxOutputBytes <=? ms_bytes st1); [|apply Hgo; [done|done|cbn; lia]].
  pose proof (wr_number _ _ _ _ Hwr).
  destruct (flush_output_faults w0 cm0 lvl st1 Hwr1 (ready_batch_ok _ _ _ _ Hrd1))
    as (o & st2 & -> & Hwr2 & E1 & E2 & E3 & Hn2 & Hs); [cbn; lia|].
  assert (forall o', succeeds o' = false -> drained_safely w0 cm0 lvl
            (next_file_number_ (ms_cm st) + Z.of_nat (length (mjoin rems))) (Some (o', st2))) as Hstop.
  { intros o' Ho'. exists o', st2. split_and!; try done; [|by rewrite Ho']. cbn [st1 ms_cm] in Hn2. lia. }
  destruct o as [s|]; [|by apply Hstop]. destruct (IsOk s) eqn:Es; cbn [negb]; [|by apply Hstop].
  apply Hgo; [|done|exact Hn2]. eapply ready_flushed; eauto.
Qed.

(** ** The merge *)

Lemma MergeFiles_faults w cm inputs lvl stats file_data :
  Forall2 (fun m es => table_at (calm w) (filepath m) es) inputs file_data ->
  Forall sorted_entries file_data -> Forall tombstone_plain (mjoin file_data) ->
  encoded_sum (mjoin file_data) < 2 ^ 30 -> 0 <= next_file_number_ cm < 2 ^ 63 ->
  exists r stats' cm' w', MergeFiles w cm inputs lvl stats = Some (r, stats', cm', w') /\
    files_ cm' = files_ cm /\ max_level_ cm' = max_level_ cm /\ cm_data_dir_ cm' = cm_data_dir_ cm /\
    next_file_number_ cm <= next_file_number_ cm' <= next_file_number_ cm + 2 ^ 27 /\
    (forall p, (forall num, next_file_number_ cm <= num < next_file_number_ cm' -> p <> out_path (cm_data_dir_ cm) lvl num) ->
       files w' !! p = files w !! p) /\
    (forall metas, r = Ret (Val metas) -> forall m, m ∈ metas -> level m = lvl).
Proof.
  intros Htab Hsort Hplain Hsize Hnum. pose proof (encoded_sum_count (mjoin file_data)) as Hcount.
  pose proof (Forall2_length _ _ _ Htab) as Hlen. unfold MergeFiles.
  pose proof (read_inputs_faults inputs w file_data stats Htab) as Hread.
  destruct (read_inputs w inputs stats) as [[r stats1] w1]. 
  destruct Hread as [Hf1 [-> |(r0 & -> & [-> |[s ->]])]].
  1, 3: do 4 eexists; (split; [done|]); split_and!; try done; try lia; intros p _; by rewrite Hf1.
  destruct (seed_heap_draining file_data inputs 0 Hlen) as (Hh & Hl & Hn).
  destruct (seed_heap 0 file_data inputs) as [heap next]. cbn [fst snd] in Hh, Hl, Hn.
  unfold GenerateOutputPath. rewrite u64_small by lia. set (cm1 := mkCM _ _ _ _).
  set (st0 := mkMS w1 cm1 heap next [] [] [] 0 _ stats1).
  assert (ready file_data inputs file_data st0) as Hrd0.
  { split; cbn [st0 ms_heap ms_next ms_last_key ms_entries]; auto.
    - split; [done|by rewrite Hh|]. intros i r entries k Hi Hi' Hk. simplify_eq. eauto.
    - intros e _. apply not_lt_nil.
    - constructor.
    - intros e He. by apply not_elem_of_nil in He. }
  assert (writing w cm lvl st0) as Hwr0.
  { split; cbn [st0 cm1 ms_cm ms_world ms_path ms_metas files_ max_level_ cm_data_dir_ next_file_number_]; try done.
    - lia.
    - by rewrite Z.add_simpl_r.
    - intros m Hm. by apply not_elem_of_nil in Hm.
    - intros p _. by rewrite Hf1. }
  destruct (drain_faults w cm lvl (lvl =? max_level_ cm - 1) file_data inputs (S (length (mjoin file_data))) file_data st0
              Hrd0 Hwr0) as (o & st & -> & Hwr & Hb & Hk); [lia|cbn; lia|lia|]. cbn [st0 cm1 ms_cm next_file_number_] in Hb.
  pose proof (wr_number _ _ _ _ Hwr).
  destruct (succeeds o) eqn:Eo.
  - destruct o as [s|]; [|done]. cbn [succeeds] in Eo. rewrite Eo. cbn [negb].
    destruct (flush_output_faults w cm lvl st Hwr (Hk eq_refl)) as (o2 & st2 & -> & [W1 W2 W3 W4 _ W6 W7] & _ & _ & _ & Hn2 & _); [lia|].
    destruct o2 as [s2|]; [destruct (negb (IsOk s2))|]; do 4 eexists; (split; [done|]); split_and!; try done; try lia.
    intros metas [= <-]. exact W6.
  - destruct Hwr as [W1 W2 W3 W4 _ _ W7].
    destruct o as [s|]; [cbn [succeeds] in Eo; rewrite Eo; cbn [negb]|]; do 4 eexists; (split; [done|]); split_and!; try done; lia.
Qed.

(** ** Removing the inputs *)

(** Every removal succeeded, or one threw behind those that did. *)
Lemma remove_inputs_faults inputs : forall w cm,
  exists r cm' w', remove_inputs w cm inputs = (r, cm', w') /\
    (forall p, p ∉ filepath <$> inputs -> files w' !! p = files w !! p) /\
    (r = Throw -> exists removed m left, inputs = removed ++ m :: left /\
       cm' = set_files cm (filter (fun f => filepath f ∉ (filepath <$> removed) ++ [filepath m]) (files_ cm)) /\
       (forall p, p ∈ filepath <$> removed -> files w' !! p = None) /\
       (forall p, p ∉ filepath <$> removed -> files w' !! p = files w !! p)).
Proof.
  induction inputs as [|m inputs IH]; intros w cm; cbn [remove_inputs]; [by do 3 eexists|].
  unfold try_remove. match goal with |- context [or_throw w ?c] => destruct (or_throw_cases w c) as (w1 & Hw1 & [-> | ->]) end.
  - do 3 eexists. split; [done|]. split; [intros; by rewrite Hw1|]. intros _. exists [], m, inputs. split; [done|].
    split; [|split; [intros p Hp; by apply not_elem_of_nil in Hp|intros; by rewrite Hw1]].
    unfold RemoveFile. f_equal. apply list_filter_iff. intros f. cbn. by rewrite list_elem_of_singleton.
  - destruct (IH (fs_remove w1 (filepath m)) (RemoveFile cm (filepath m))) as (r & cm' & w' & -> & Hf & Hthrow).
    exists r, cm', w'. split; [done|]. split.
    + intros p (Hne & Hp)%not_elem_of_cons. rewrite Hf by done. cbn [fs_remove files]. by rewrite lookup_delete_ne, Hw1.
    + intros Hr. destruct (Hthrow Hr) as (removed & m' & left & -> & -> & H1 & H2). exists (m :: removed), m', left.
      split; [done|]. split_and!.
      * unfold RemoveFile, set_files. cbn. f_equal. rewrite list_filter_filter. apply list_filter_iff.
        intros f. rewrite not_elem_of_cons. tauto.
      * intros p Hp. rewrite fmap_cons, elem_of_cons in Hp. destruct (decide (p ∈ filepath <$> removed)) as [Hr'|Hr']; [by apply H1|].
        rewrite H2 by done. destruct Hp as [-> |?]; [|done]. apply lookup_delete_eq.
      * intros p Hp. rewrite fmap_cons, not_elem_of_cons in Hp. destruct Hp as [Hne Hp]. rewrite H2 by done.
        cbn [fs_remove files]. by rewrite lookup_delete_ne, Hw1.
Qed.

(** ** The run *)

Context {sort : StdSort}.

(** The state that an exception of [remove] leaves: outputs [metas] are in the
    catalogue; the inputs [removed] are out of it and deleted; [path] is out of it
    and its removal threw; everything else is as it was. *)
Definition removal_interrupted (w : World) (cm : CompactionManager) (w' : World) (cm' : CompactionManager) : Prop :=
  exists sources targets metas removed path left,
    SelectCompactionFiles cm (PickCompactionLevel cm) = (sources, targets) /\
    filepath <$> (sources ++ targets) = removed ++ path :: left /\
    files_ cm' = filter (fun m => filepath m ∉ removed ++ [path]) (files_ cm ++ metas) /\
    (forall p, p ∈ removed -> files w' !! p = None) /\
    (forall m, m ∈ files_ cm -> filepath m ∉ removed -> files w' !! filepath m = files w !! filepath m).

(** The run returned an error or threw, and the catalogue and its files are as
    they were. *)
Record run_failed (w : World) (cm : CompactionManager) (r : Outcome (ErrorOr CompactionStats))
    (w' : World) (cm' : CompactionManager) : Prop := {
  rf_result : r = Throw \/ exists s, r = Ret (Err s);
  rf_files : files_ cm' = files_ cm;
  rf_levels : max_level_ cm' = max_level_ cm;
  rf_dir : cm_data_dir_ cm' = cm_data_dir_ cm;
  rf_number : next_file_number_ cm <= next_file_number_ cm' <= next_file_number_ cm + 2 ^ 27;
  rf_tables : forall m, m ∈ files_ cm -> files w' !! filepath m = files w !! filepath m
}.

(** Other files than tables are not touched by a run. *)
Definition only_tables (w : World) (cm : CompactionManager) (w' : World) : Prop :=
  forall p, (forall lvl num, p <> out_path (cm_data_dir_ cm) lvl num) -> p ∉ filepath <$> files_ cm ->
    files w' !! p = files w !! p.

Lemma RunCompaction_faults w cm :
  orderly (calm w) cm ->
  exists r cm' w', RunCompaction w cm = Some (r, cm', w') /\ only_tables w cm w' /\
    ((exists stats, r = Ret (Val stats)) \/ r = Throw /\ removal_interrupted w cm w' cm' \/ run_failed w cm r w' cm').
Proof.
  intros Hc. pose proof (or_catalogue _ _ Hc) as Hok. pose proof (or_number _ _ Hc) as Hn.
  assert (forall s : Status, exists r cm' w', Some (Ret (Err s), cm, w) = Some (r, cm', w') /\ only_tables w cm w' /\
    ((exists stats : CompactionStats, r = Ret (Val stats)) \/ r = Throw /\ removal_interrupted w cm w' cm' \/ run_failed w cm r w' cm')) as Hnone.
  { intros s. do 3 eexists. split; [done|]. split; [done|]. right. right. split; eauto. lia. }
  unfold RunCompaction. destruct (PickCompactionLevel cm =? -1) eqn:Eneed; [apply Hnone|].
  destruct (picked_level cm (proj1 (or_levels _ _ Hc))) as (Hsrc & _); [by apply negb_true_iff|].
  set (src := PickCompactionLevel cm) in *. destruct (SelectCompactionFiles cm src) as [sources targets] eqn:Hsel.
  destruct sources as [|s0 sources0]; [apply Hnone|]. set (sources := s0 :: sources0) in *.
  fold (merge_inputs sources targets).
  destruct (merge_tables (calm w) cm src sources targets Hok Hsel) as (Htab & Hsort & Hplain & Hsize).
  pose proof (or_size _ _ Hc) as Hsize'.
  match goal with |- context [MergeFiles w cm _ _ ?st] => set (stats0 := st) end.
  destruct (MergeFiles_faults w cm (merge_inputs sources targets) (src + 1) stats0 _ Htab Hsort Hplain ltac:(lia) Hn)
    as (r & stats' & cm1 & w1 & -> & F1 & F2 & F3 & F4 & F5 & F6).
  assert (only_tables w cm w1) as Honly by (intros p Hp _; apply F5; intros num _; apply Hp).
  assert (forall m, m ∈ files_ cm -> files w1 !! filepath m = files w !! filepath m) as Hold.
  { intros m Hm. apply F5. intros num Hnum. apply (or_fresh _ _ Hc m); [done|lia|lia]. }
  destruct r as [[metas|s]|].
  - rewrite add_files_ok by (intros m Hm; rewrite (F6 metas eq_refl m Hm), F2; lia).
    change (negb (IsOk StatusOk)) with false. cbn beta iota.
    destruct (remove_inputs_faults (merge_inputs sources targets) w1 (set_files cm1 (files_ cm1 ++ metas)))
      as (r & cm2 & w2 & -> & Hfr & Hthrow). rewrite merge_inputs_paths in Hfr.
    assert (only_tables w cm w2) as Honly2.
    { intros p Hp Hno. rewrite Hfr; [by apply Honly|]. intros (m & -> & Hm)%list_elem_of_fmap. apply Hno.
      apply list_elem_of_fmap_2. by apply (selected_in cm src sources targets Hsel). }
    destruct r as [u|]; [do 3 eexists; split; [done|]; split; [done|]; left; eauto|].
    do 3 eexists. split; [done|]. split; [done|]. right. left. split; [done|].
    destruct (Hthrow eq_refl) as (removed & m & left & Hin & -> & H1 & H2). fold src.
    exists sources, targets, metas, (filepath <$> removed), (filepath m), (filepath <$> left).
    split_and!; [done| |cbn [set_files files_]; by rewrite F1|done|].
    + rewrite <-merge_inputs_paths, Hin, fmap_app. done.
    + intros m' Hm' Hno. rewrite H2 by done. by apply Hold.
  - do 3 eexists. split; [done|]. split; [done|]. right. right. split; eauto.
  - do 3 eexists. split; [done|]. split; [done|]. right. right. split; eauto.
Qed.
End faults.

(** * Properties *)


(** ** Witness *)

#[local] Existing Instance x86_64_libstdcxx.
#[local] Existing Instance insertion_std_sort.

(** Whether a run on these files with this schedule reports an error. *)
Definition run_fails (w : World) (schedule : list fault) (cm : CompactionManager) : bool :=
  match RunCompaction (mkWorld (files w) schedule) cm with Some (Ret (Err _), _, _) => true | _ => false end.

(** The write of an output fails after three bytes. *)
Definition output_fault : list fault := replicate 30 NoFault ++ [Fault 3].


(** ** Behaviour outside the contract *)

(** What a key reads before and after a run with this schedule that reports
    success. *)
Definition read_around (schedule : list fault) (key : str) (start : option (list Status * StorageEngine * World)) :
    option (ErrorOr (option bytes) * ErrorOr (option bytes)) :=
  match start with
  | Some (_, e, w) =>
      let cm := compaction_manager_ e in
      match RunCompaction (mkWorld (files w) schedule) cm with
      | Some (Ret (Val _), cm', w') =>
          match search_tables w (std_sort newer_first (AllFiles cm)) key,
                search_tables (calm w') (std_sort newer_first (AllFiles cm')) key with
          | Some (before, _), Some (after, _) => Some (before, after)
          | _, _ => None
          end
      | _ => None
      end
  | None => None
  end.

(** A value before and an error after. *)
Definition unreadable (r : option (ErrorOr (option bytes) * ErrorOr (option bytes))) : bool :=
  match r with Some (Val (Some _), Err _) => true | _ => false end.

(** The flush at the end of an output table fails: the run reports success and
    removes the inputs, and the keys cannot be read any more. *)
Example compaction_ignores_flush_failure :
  unreadable (read_around (replicate 34 NoFault ++ [Fault 3]) (lit "a")
                (run_threads sample_config (layered_ops ++ [Client OpFlush]))) = true.
Proof. vm_compute. reflexivity. Qed.
