(* ===== verification/CrashPoints.v ===== *)
(** * Crashes inside an operation

    The process dies in the middle of a write or a flush: a call into the file
    system is cut off after some of its bytes, and nothing that follows reaches the
    disk.  In the fault schedules of FileSystem.v that is [death i n k]: [i]
    calls that succeed, one that fails after [n] bytes, and [k] calls without
    effect; a run that ends with a rest of the schedule met no call beyond it.
    (Removing a file takes no element of the schedule; a put, a delete and a
    flush remove none.)

    The method: [consumes w w' P] says that a computation took a part of the
    schedule from [w] to [w'] and that [P] holds when nothing failed in that
    part; here [P] is that the same computation without faults gives the same
    result.  The rule for a sequence is [consumes_bind]. *)

From S2P Require Import Prelude Status BinarySerializer Mt19937 SkipList MemTable FileSystem Wal Recovery Checkpoint BloomFilter Block SSTable Compaction CompactionMerge BlockCache Engine EngineCorrect CompactionReads EngineCompaction EngineSpec EngineFaults CompactionFaults.

(** ** Schedules *)

Definition death (i n k : nat) : list fault := replicate i NoFault ++ Fault n :: replicate k (Fault 0).

(** Nothing succeeds behind a failure. *)
Definition doomed (fs : list fault) : Prop :=
  forall used rest, fs = used ++ NoFault :: rest -> Forall (eq NoFault) used.

Lemma doomed_death i n k : doomed (death i n k).
Proof.
  unfold doomed, death. induction i as [|i IH]; intros used rest E; cbn [replicate app] in E.
  - exfalso. assert (NoFault ∈ Fault n :: replicate k (Fault 0)) as H by (rewrite E; set_solver).
    apply elem_of_cons in H as [?|[? _]%elem_of_replicate]; done.
  - destruct used as [|f used]; [constructor|]. injection E as <- E. constructor; [done|]. by apply (IH used rest).
Qed.

Lemma doomed_suffix used fs : doomed (used ++ fs) -> doomed fs.
Proof.
  intros H used' rest ->. specialize (H (used ++ used') rest). rewrite <-app_assoc in H.
  by apply Forall_app in H as [_ H].
Qed.

(** ** Consumption *)

Definition consumes (w w' : World) (P : Prop) : Prop :=
  exists used, faults w = used ++ faults w' /\ (Forall (eq NoFault) used -> P).

Lemma consumes_refl w (P : Prop) : P -> consumes w w P.
Proof. by exists []. Qed.

Lemma consumes_bind w w1 w2 (P Q : Prop) : consumes w w1 P -> consumes w1 w2 (P -> Q) -> consumes w w2 Q.
Proof.
  intros (u1 & E1 & H1) (u2 & E2 & H2). exists (u1 ++ u2). rewrite E1, E2, app_assoc. split; [done|].
  intros [Hu1 Hu2]%Forall_app. by apply H2, H1.
Qed.

Lemma consumes_mono w w' (P Q : Prop) : consumes w w' P -> (P -> Q) -> consumes w w' Q.
Proof. intros (u & E & H) HQ. exists u. auto. Qed.

Lemma consumes_doomed w w' P : consumes w w' P -> doomed (faults w) -> doomed (faults w').
Proof. intros (u & E & _). rewrite E. apply doomed_suffix. Qed.

(** A fallible call: it takes one element of the schedule, and without fault its
    effect depends on the files alone. *)
Lemma call_consumes {A} (body : fault -> World -> A * World) w r w' :
  (let '(f, w1) := next_fault w in body f w1) = (r, w') ->
  (forall f w1, faults (body f w1).2 = faults w1) ->
  (forall w1, body NoFault (calm w1) = ((body NoFault w1).1, calm (body NoFault w1).2)) ->
  consumes w w' ((let '(f, w1) := next_fault (calm w) in body f w1) = (r, calm w')).
Proof.
  intros E Hfaults Hcalm. change (next_fault (calm w)) with (NoFault, calm w). cbn beta iota.
  destruct (next_fault w) as [f w1] eqn:En. pose proof (next_fault_files _ _ _ En) as Hf.
  pose proof (Hfaults f w1) as Hw'. rewrite E in Hw'. cbn [snd] in Hw'.
  assert (f = NoFault -> body NoFault (calm w) = (r, calm w')) as Hbody.
  { intros ->. by rewrite <-(calm_files w w1 Hf), Hcalm, E. }
  unfold next_fault in En. destruct (faults w) as [|g fs] eqn:Ew; injection En as <- <-.
  - exists []. rewrite Ew. split; [by rewrite Hw', Ew|]. auto.
  - exists [g]. rewrite Ew, Hw'. split; [done|]. intros [<- _]%Forall_cons. by apply Hbody.
Qed.

(** ** The calls *)

Lemma ofs_open_trunc_consumes w path r w' :
  ofs_open_trunc w path = (r, w') -> consumes w w' (ofs_open_trunc (calm w) path = (r, calm w')).
Proof. intros E. apply (call_consumes _ _ _ _ E); [by intros []|done]. Qed.

Lemma ifs_open_consumes w path r w' :
  ifs_open w path = (r, w') -> consumes w w' (ifs_open (calm w) path = (r, calm w')).
Proof. intros E. apply (call_consumes _ _ _ _ E); [by intros []|done]. Qed.

Lemma ofs_write_consumes w os bs os' w' :
  ofs_write w os bs = (os', w') -> consumes w w' (ofs_write (calm w) os bs = (os', calm w')).
Proof.
  unfold ofs_write. destruct (os_good os); [|by intros [= <- <-]; apply consumes_refl].
  intros E. apply (call_consumes _ _ _ _ E); [by intros []|done].
Qed.

Lemma ofs_flush_consumes w os os' w' :
  ofs_flush w os = (os', w') -> consumes w w' (ofs_flush (calm w) os = (os', calm w')).
Proof.
  unfold ofs_flush. destruct (os_good os); [|by intros [= <- <-]; apply consumes_refl].
  intros E. apply (call_consumes _ _ _ _ E); [by intros []|done].
Qed.

Lemma fs_rename_consumes w old new r w' :
  fs_rename w old new = (r, w') -> consumes w w' (fs_rename (calm w) old new = (r, calm w')).
Proof.
  intros E. apply (call_consumes _ _ _ _ E).
  - intros [] w1; by destruct (files w1 !! old).
  - intros w1. cbn [calm files]. by destruct (files w1 !! old).
Qed.

Lemma ifs_read_at_consumes w c good offset n got good' w' :
  ifs_read_at w c good offset n = (got, good', w') ->
  consumes w w' (ifs_read_at (calm w) c good offset n = (got, good', calm w')).
Proof.
  unfold ifs_read_at. destruct (_ || _); [by intros [= <- <- <-]; apply consumes_refl|].
  intros E. apply (call_consumes _ _ _ _ E); [by intros []|done].
Qed.

(** One call of a sequence: its fault-free run becomes a premise; at the end
    the premises rewrite the fault-free run of the whole. *)
Ltac consumed E lem := apply lem in E; eapply consumes_bind; [exact E|]; clear E.
Ltac consumed_end :=
  apply consumes_refl; intros; repeat match goal with H : _ = _ |- _ => rewrite H; clear H end; try done.

Lemma SaveCheckpoint_consumes w cm cp s w' :
  SaveCheckpoint w cm cp = (s, w') -> consumes w w' (SaveCheckpoint (calm w) cm cp = (s, calm w')).
Proof.
  unfold SaveCheckpoint. destruct (ofs_open_trunc w _) as [[out|] w1] eqn:E1; intros Er.
  2: { injection Er as <- <-. consumed E1 ofs_open_trunc_consumes. consumed_end. }
  destruct (ofs_write w1 out _) as [out2 w2] eqn:E2. destruct (ofs_flush w2 out2) as [out3 w3] eqn:E3.
  consumed E1 ofs_open_trunc_consumes. consumed E2 ofs_write_consumes. consumed E3 ofs_flush_consumes.
  destruct (negb (os_good out3)) eqn:Eg; [injection Er as <- <-; consumed_end|].
  destruct (fs_rename w3 _ _) as [renamed w4] eqn:E4. consumed E4 fs_rename_consumes.
  destruct (negb renamed) eqn:Ed; injection Er as <- <-; consumed_end.
Qed.

(** A checkpoint is saved by its last call. *)
Lemma SaveCheckpoint_last w cm cp s w' :
  SaveCheckpoint w cm cp = (s, w') -> IsOk s = true ->
  faults w' = [] \/ exists used, faults w = used ++ NoFault :: faults w'.
Proof.
  unfold SaveCheckpoint. destruct (ofs_open_trunc w _) as [[out|] w1] eqn:E1; [|by intros [= <- <-]].
  destruct (ofs_write w1 out _) as [out2 w2] eqn:E2. destruct (ofs_flush w2 out2) as [out3 w3] eqn:E3.
  destruct (negb (os_good out3)); [by intros [= <- <-]|].
  assert (consumes w w3 True) as (used & Hused & _).
  { consumed E1 ofs_open_trunc_consumes. consumed E2 ofs_write_consumes. apply ofs_flush_consumes in E3.
    by apply (consumes_mono _ _ _ _ E3). }
  rewrite Hused. unfold fs_rename, next_fault. destruct (faults w3) as [|[|n] fs] eqn:E3'.
  - destruct (files w3 !! _); intros [= <- <-] Hs; [by left|done].
  - cbn [files]. destruct (files w3 !! _); intros [= <- <-] Hs; [right; by exists used|done].
  - by intros [= <- <-].
Qed.

(** ** Tables *)

Definition calm_state (st : WriteState) : WriteState :=
  mkWriteState (calm (ws_world st)) (ws_out st) (ws_index st) (ws_block st) (ws_offset st) (ws_total st).

Lemma flush_block_consumes st s st' :
  flush_block st = (s, st') -> consumes (ws_world st) (ws_world st') (flush_block (calm_state st) = (s, calm_state st')).
Proof.
  unfold flush_block. cbn [calm_state ws_block ws_world ws_out ws_index ws_offset ws_total].
  destruct (Block_IsEmpty (ws_block st)); [intros [= <- <-]; consumed_end|].
  destruct (ofs_write _ _ _) as [file w1] eqn:E1. intros Er.
  assert (ws_world st' = w1) as Ew by (destruct (negb (os_good file)); by injection Er as _ <-).
  rewrite Ew. consumed E1 ofs_write_consumes. destruct (negb (os_good file)) eqn:Eg; injection Er as <- <-; consumed_end.
Qed.

Lemma write_entries_consumes es : forall st s st',
  write_entries st es = (s, st') ->
  consumes (ws_world st) (ws_world st') (write_entries (calm_state st) es = (s, calm_state st')).
Proof.
  induction es as [|x es IH]; intros st s st'; cbn [write_entries]; [intros [= <- <-]; consumed_end|].
  cbn [calm_state ws_block]. destruct (Block_Add (ws_block st) x) as [[|] block]; [apply IH|].
  fold (calm_state st). destruct (flush_block st) as [s1 st1] eqn:E1. intros Er. consumed E1 flush_block_consumes.
  destruct (negb (IsOk s1)) eqn:Es; [injection Er as <- <-; consumed_end|].
  destruct (Block_Add (ws_block st1) x) as [b1 block1] eqn:Eb.
  apply IH in Er. apply (consumes_mono _ _ _ _ Er). intros Hcalm ->. rewrite Es. cbn [calm_state ws_block]. by rewrite Eb.
Qed.

Lemma write_tail_consumes st bloom s w' :
  write_tail st bloom = (s, w') -> consumes (ws_world st) w' (write_tail (calm_state st) bloom = (s, calm w')).
Proof.
  unfold write_tail. cbn [calm_state ws_world ws_out ws_index ws_offset ws_total].
  destruct (ofs_write _ (ws_out st) _) as [f1 w1] eqn:E1. intros Er. consumed E1 ofs_write_consumes.
  destruct (negb (os_good f1)) eqn:G1; [injection Er as <- <-; consumed_end|].
  destruct (ofs_write w1 f1 _) as [f2 w2] eqn:E2. consumed E2 ofs_write_consumes.
  destruct (negb (os_good f2)) eqn:G2; [injection Er as <- <-; consumed_end|].
  destruct (ofs_write w2 f2 _) as [f3 w3] eqn:E3. consumed E3 ofs_write_consumes.
  destruct (negb (os_good f3)) eqn:G3; [injection Er as <- <-; consumed_end|].
  destruct (ofs_flush w3 f3) as [f4 w4] eqn:E4. consumed E4 ofs_flush_consumes.
  injection Er as <- <-; consumed_end.
Qed.

Lemma SSTableWriter_Write_consumes w path iter s w' :
  SSTableWriter_Write w path iter = Some (s, w') ->
  consumes w w' (SSTableWriter_Write (calm w) path iter = Some (s, calm w')).
Proof.
  unfold SSTableWriter_Write. destruct (ofs_open_trunc w path) as [[file|] w1] eqn:E1; intros Er.
  2: { injection Er as <- <-. consumed E1 ofs_open_trunc_consumes. consumed_end. }
  consumed E1 ofs_open_trunc_consumes. destruct (entry_of_iter <$> iter) as [|x es] eqn:Ees.
  { injection Er as <- <-. exists []. split; [done|]. by intros _ ->. }
  destruct (Add_all _ _) as [bloom|] eqn:Eb; [|done].
  destruct (write_entries _ _) as [s2 st2] eqn:E2. consumed E2 write_entries_consumes.
  unfold calm_state at 1. cbn [ws_world ws_out ws_index ws_block ws_offset ws_total].
  destruct (negb (IsOk s2)) eqn:G2.
  { injection Er as <- <-. apply consumes_refl. intros H2 H1. by rewrite H1, H2, G2. }
  destruct (flush_block st2) as [s3 st3] eqn:E3. consumed E3 flush_block_consumes.
  destruct (negb (IsOk s3)) eqn:G3.
  { injection Er as <- <-. apply consumes_refl. intros H3 H2 H1. by rewrite H1, H2, G2, H3, G3. }
  destruct (write_tail st3 bloom) as [s4 w4] eqn:E4. injection Er as <- <-. apply write_tail_consumes in E4.
  apply (consumes_mono _ _ _ _ E4). intros H4 H3 H2 H1. by rewrite H1, H2, G2, H3, G3, H4.
Qed.

Lemma SSTableReader_Open_consumes w path r w' :
  SSTableReader_Open w path = (r, w') -> consumes w w' (SSTableReader_Open (calm w) path = (r, calm w')).
Proof.
  unfold SSTableReader_Open. change (fs_exists (calm w) path) with (fs_exists w path).
  destruct (negb (fs_exists w path)); [intros [= <- <-]; consumed_end|]. intros Er.
  destruct (ifs_open w path) as [[c|] w1] eqn:E1; consumed E1 ifs_open_consumes; [|injection Er as <- <-; consumed_end].
  destruct (_ <? kFooterSize) eqn:G1; [injection Er as <- <-; consumed_end|].
  destruct (ifs_read_at w1 c true _ _) as [[got2 good2] w2] eqn:E2. consumed E2 ifs_read_at_consumes.
  destruct (ReadFooter _) as [f|s] eqn:G2; [|injection Er as <- <-; consumed_end].
  destruct (negb (f_magic f =? _)) eqn:G3; [injection Er as <- <-; consumed_end|].
  destruct (ifs_read_at w2 c good2 _ _) as [[got3 good3] w3] eqn:E3. consumed E3 ifs_read_at_consumes.
  destruct (negb good3) eqn:G4; [injection Er as <- <-; consumed_end|].
  destruct (ReadBloom got3) as [bloom|s] eqn:G5; [|injection Er as <- <-; consumed_end].
  destruct (ifs_read_at w3 c good3 _ _) as [[got4 good4] w4] eqn:E4. consumed E4 ifs_read_at_consumes.
  destruct (negb good4) eqn:G6; [injection Er as <- <-; consumed_end|].
  destruct (ReadIndex got4) eqn:G7; injection Er as <- <-; consumed_end.
Qed.

Lemma ReadBlock_consumes w rd offset size r w' :
  ReadBlock w rd offset size = (r, w') -> consumes w w' (ReadBlock (calm w) rd offset size = (r, calm w')).
Proof.
  unfold ReadBlock. intros Er.
  destruct (ifs_open w _) as [[c|] w1] eqn:E1; consumed E1 ifs_open_consumes; [|injection Er as <- <-; consumed_end].
  destruct (ifs_read_at w1 c true _ _) as [[got2 good2] w2] eqn:E2. consumed E2 ifs_read_at_consumes.
  destruct (_ <? size) eqn:G; injection Er as <- <-; consumed_end.
Qed.

Lemma read_blocks_consumes rd index : forall w es r w',
  read_blocks w rd index es = (r, w') -> consumes w w' (read_blocks (calm w) rd index es = (r, calm w')).
Proof.
  induction index as [|ie index IH]; intros w es r w' Er; cbn [read_blocks] in *; [injection Er as <- <-; consumed_end|].
  destruct (ReadBlock w rd _ _) as [[b|s] w1] eqn:E1; consumed E1 ReadBlock_consumes; [|injection Er as <- <-; consumed_end].
  apply (consumes_mono _ _ _ _ (IH _ _ _ _ Er)). intros H ->. done.
Qed.

Lemma key_range_consumes w path lo hi w' :
  key_range w path = (lo, hi, w') -> consumes w w' (key_range (calm w) path = (lo, hi, calm w')).
Proof.
  unfold key_range. intros Er.
  destruct (SSTableReader_Open w path) as [[rd|s] w1] eqn:E1; consumed E1 SSTableReader_Open_consumes;
    [|injection Er as <- <- <-; consumed_end].
  unfold SSTableReader_ReadAll in *. destruct (read_blocks w1 rd _ _) as [r2 w2] eqn:E2. consumed E2 read_blocks_consumes.
  destruct r2 as [[|first rest]|s]; injection Er as <- <- <-; consumed_end.
Qed.

(** ** A flush *)

Section crash.
Context {abi : Abi} {sort : StdSort}.

Lemma Flush_write_consumes w e mt lsn s e' w' :
  Flush_write w e mt lsn = Some (s, e', w') ->
  consumes w w' (Flush_write (calm w) e mt lsn = Some (s, e', calm w')) /\
  (IsOk s = true -> faults w' = [] \/ exists used, faults w = used ++ NoFault :: faults w').
Proof.
  unfold Flush_write. destruct (MemTable_entries mt) as [iter|]; [|done].
  destruct (SSTableWriter_Write w _ iter) as [[s1 w1]|] eqn:E1; [|done]. apply SSTableWriter_Write_consumes in E1.
  destruct (negb (IsOk s1)) eqn:G1.
  { intros [= <- <- <-]. split; [|by destruct (IsOk s1)]. apply (consumes_mono _ _ _ _ E1). intros ->. by rewrite G1. }
  unfold fs_file_size. destruct (files w1 !! _) as [c|] eqn:Ef; [|done].
  destruct (key_range w1 _) as [[lo hi] w2] eqn:E2. apply key_range_consumes in E2.
  destruct (AddFile _ _) as [s3 cm3] eqn:E3. destruct (negb (IsOk s3)) eqn:G3.
  { intros [= <- <- <-]. split; [|by destruct (IsOk s3)]. eapply consumes_bind; [exact E1|].
    apply (consumes_mono _ _ _ _ E2). intros H2 ->. rewrite G1. cbn [calm files]. by rewrite Ef, H2, E3, G3. }
  destruct (SaveCheckpoint w2 _ _) as [s4 w4] eqn:E4. intros Er.
  assert (s = s4 \/ (IsOk s4 = true)) as Hs by (destruct (IsOk s4); [by right|left; by injection Er]).
  assert (w' = w4) as -> by (by destruct (negb (IsOk s4)); injection Er).
  split.
  - eapply consumes_bind; [exact E1|]. eapply consumes_bind; [exact E2|].
    apply SaveCheckpoint_consumes in E4. apply (consumes_mono _ _ _ _ E4). intros H4 H2 ->. rewrite G1. cbn [calm files].
    rewrite Ef, H2, E3, G3. fold (calm w2). rewrite H4. destruct (negb (IsOk s4)); by injection Er as <- <-.
  - intros Hok. assert (IsOk s4 = true) as Hok4 by (destruct Hs as [<-|]; done).
    destruct (SaveCheckpoint_last _ _ _ _ _ E4 Hok4) as [|[used Hu]]; [by left|right].
    destruct E1 as (u1 & H1 & _), E2 as (u2 & H2 & _). exists (u1 ++ u2 ++ used). by rewrite H1, H2, Hu, !app_assoc.
Qed.

Lemma FlushMemTable_consumes w e s e' w' :
  FlushMemTable w e = Some (s, e', w') ->
  consumes w w' (FlushMemTable (calm w) e = Some (s, e', calm w')) /\
  (IsOk s = true -> w' = w \/ faults w' = [] \/ exists used, faults w = used ++ NoFault :: faults w').
Proof.
  unfold FlushMemTable. destruct (Flush_swap e) as [[[mt|] e1]|]; [| |done].
  - destruct (Flush_lsn e1) as [lsn|]; [|done]. intros [Hc Hl]%Flush_write_consumes. auto.
  - intros [= <- <- <-]. split; [by apply consumes_refl|by left].
Qed.

(** In a doomed schedule a computation whose last call succeeded met no fault. *)
Lemma doomed_clean w w' (P : Prop) :
  consumes w w' P -> doomed (faults w) ->
  w' = w \/ (exists used, faults w = used ++ NoFault :: faults w') -> P.
Proof.
  intros (u & Hu & HP) Hd [->|[used Hused]].
  - apply HP. assert (u = []) as ->; [|constructor]. apply (f_equal length) in Hu. rewrite length_app in Hu.
    destruct u; [done|cbn in Hu; lia].
  - apply HP. pose proof (Hd used _ Hused) as Hall.
    assert (u = used ++ [NoFault]) as ->; [|apply Forall_app_2; [done|by constructor]].
    rewrite Hu in Hused. apply (app_inv_tail (faults w')). by rewrite <-app_assoc.
Qed.

(** What an engine opened on the files reads. *)
Definition recovers (cfg : StorageConfig) (w : World) (log : list WALEntry) : Prop :=
  exists e segs cur, StorageEngine_Open w cfg = Some (Val e, w) /\ strip <$> (mjoin segs ++ cur) = log /\
    forall key, StorageEngine_Get w e key = Some (Val (view_get segs cur key), w).

Lemma view_recovers cfg w e segs cur :
  engine_view cfg w e segs cur -> recovers cfg w (strip <$> (mjoin segs ++ cur)).
Proof.
  intros Hv. destruct (engine_reopen cfg w e segs cur Hv) as (e' & Ho & Hv' & _).
  exists e', segs, cur. split; [done|]. split; [done|]. intros key. by apply (Get_view cfg).
Qed.

(** A flush that dies loses nothing. *)
Lemma flush_dying cfg w e segs cur :
  config_ok cfg -> engine_inv cfg (calm w) e segs cur -> doomed (faults w) ->
  exists s e' w', FlushMemTable w e = Some (s, e', w') /\
    (faults w' <> [] -> recovers cfg (calm w') (strip <$> (mjoin segs ++ cur))).
Proof.
  intros Hcfg Hinv Hd. destruct (FlushMemTable_faults cfg (calm w) w e segs cur Hinv eq_refl) as (s & e' & w' & Hf & Herr).
  exists s, e', w'. split; [done|]. intros Hrest. destruct (IsOk s) eqn:Hs.
  2: { by apply (view_recovers _ _ e), Herr. }
  destruct (FlushMemTable_consumes w e s e' w' Hf) as [Hc Hl].
  assert (FlushMemTable (calm w) e = Some (s, e', calm w')) as Hcalm.
  { apply (doomed_clean _ _ _ Hc Hd). destruct (Hl Hs) as [|[|]]; [by left|done|by right]. }
  destruct (FlushMemTable_spec cfg (calm w) e segs cur Hcfg Hinv) as (e1 & w1 & segs' & Hf1 & [Hv1 _] & Hj).
  rewrite Hcalm in Hf1. injection Hf1 as _ <- <-.
  pose proof (view_recovers _ _ _ _ _ Hv1) as Hr. by rewrite app_nil_r, Hj in Hr.
Qed.

(** A process that is dead already flushes nothing. *)
Lemma flush_dead cfg w e mt wal cur :
  config_ e = cfg -> checkpoint_manager_ e = CheckpointManager_new (data_dir cfg) ->
  max_level_ (compaction_manager_ e) = kNumLevels -> active_memtable_ e = Some mt -> mt_repr mt (segment_map cur) ->
  log_cost cur < 2 ^ 30 -> wal_ e = Some wal -> Forall (fun f => f <> NoFault) (faults w) ->
  exists s e' w', FlushMemTable w e = Some (s, e', w') /\ consumes w w' True /\
    (faults w' <> [] -> files w' = files w).
Proof.
  intros Hc Hcp Hmax Hmt Hrepr Hcost Hwal Hdead. unfold FlushMemTable. rewrite (Flush_swap_run e mt _ Hmt Hrepr).
  destruct (bool_decide _); [do 3 eexists; split; [done|]; split; [by apply consumes_refl|done]|].
  unfold Flush_lsn. cbn [set_memtables wal_]. rewrite Hwal. set (e1 := set_memtables _ _ _).
  destruct (Flush_write_faults cfg w e1 mt cur (current_sequence_number wal)) as (s & e' & w' & Hf & _); try done.
  exists s, e', w'. split; [done|]. destruct (Flush_write_consumes _ _ _ _ _ _ _ Hf) as [Hcons _].
  split; [by apply (consumes_mono _ _ _ _ Hcons)|]. intros Hrest.
  destruct (faults w) as [|[|m] fs] eqn:Ew.
  - destruct Hcons as (u & Hu & _). rewrite Ew in Hu. symmetry in Hu. by apply app_eq_nil in Hu as [_ Hu].
  - by apply Forall_cons in Hdead as [? _].
  - revert Hf. unfold Flush_write. destruct (MemTable_entries mt) as [iter|]; [|done].
    unfold SSTableWriter_Write, ofs_open_trunc, next_fault. rewrite Ew. cbn [IsOk negb]. by intros [= _ _ <-].
Qed.

(** ** A write *)

(** The append of a record meets its death before, inside or behind itself. *)
Lemma append_dying w wal log x i n k :
  wal_state (calm w) wal log -> readable x -> Z.of_nat (length log) < 2 ^ 62 -> faults w = death i n k ->
  let record := record_bytes (stamp (1 + Z.of_nat (length log)) x) in
  exists r wal' w', WAL_Append w wal x = (r, wal', w') /\
    ((exists i', WAL_Append (calm w) wal x = (r, wal', calm w') /\ faults w' = death i' n k) \/
     ((exists s, r = Err s /\ IsOk s = false) \/ exists q, r = Val q) /\
     faults w' = replicate k (Fault 0) /\ exists m, files w' = files (append_file w (path_ wal) (take m record))).
Proof.
  intros Hws Hx Hlen Hd record. unfold WAL_Append. rewrite (ws_stream _ _ _ Hws), (ws_next _ _ _ Hws).
  assert (SerializeEntry (mkWALEntry (1 + Z.of_nat (length log)) (we_type x) (we_key x) (we_value x)) = record) as ->.
  { unfold record. rewrite <-SerializeEntry_bytes; [done|]. apply readable_stamp; [done|lia]. }
  unfold ofs_write, ofs_flush, next_fault. cbn [os_good os_path os_buf]. change (faults (calm w)) with (@nil fault).
  rewrite Hd. destruct i as [|[|i]]; cbn [death replicate app os_good negb os_path os_buf faults files calm].
  - do 3 eexists. split; [done|]. right. split; [left; eauto|]. split; [done|]. by exists n.
  - do 3 eexists. split; [done|]. right. split; [right; eauto|]. split; [done|]. by exists n.
  - do 3 eexists. split; [done|]. left. exists i. done.
Qed.

(** An engine opened on a log with a torn end. *)
Lemma log_recovers cfg w segs cur tail metas :
  healthy w -> files w !! wal_path cfg = Some (log_bytes (mjoin segs ++ cur) ++ tail) ->
  parse_log tail = [] -> (forall seq, scan_from tail seq = seq) -> Forall readable (mjoin segs ++ cur) ->
  numbered 1 (mjoin segs ++ cur) -> Z.of_nat (length (mjoin segs ++ cur)) < 2 ^ 63 ->
  seg_files w cfg metas segs -> manifest w cfg metas segs -> recovers cfg w (strip <$> (mjoin segs ++ cur)).
Proof.
  intros Hw H1 H2 H3 H4 H5 H6 Hfiles Hman.
  destruct (Recover_torn cfg w (mjoin segs) cur tail metas Hw H1 H2 H3 H4 H5 H6)
    as (e & mt & Hrec & _ & _ & Hmt & Hrepr & Himm & Hcm & _).
  - by apply manifest_loaded.
  - intros f Hf. by rewrite (seg_files_level0 w cfg _ segs f Hfiles Hf).
  - exists e, segs, cur. unfold StorageEngine_Open. rewrite Hrec. split; [done|]. split; [done|]. intros key.
    apply (Get_current cfg w e segs cur mt (segment_map cur) key Hw); try done. by rewrite Hcm.
Qed.

(** An engine opened on the files with a record that may be torn. *)
Lemma torn_recovers cfg w w' e segs cur x m :
  engine_view cfg w e segs cur -> readable x -> Z.of_nat (length (mjoin segs ++ cur)) < 2 ^ 62 -> healthy w' ->
  let entry := stamp (1 + Z.of_nat (length (mjoin segs ++ cur))) x in
  files w' = files (append_file w (wal_path cfg) (take m (record_bytes entry))) ->
  recovers cfg w' (strip <$> (mjoin segs ++ cur)) \/ recovers cfg w' (strip <$> (mjoin segs ++ cur ++ [entry])).
Proof.
  intros Hv Hx Hlen Hw' entry Hf.
  destruct Hv as [_ (wal & _ & Hp & Hws) _ _ _ _ Hfiles Hman _ _ _]. destruct Hws as [Hw _ Hlog Hread Hnum _ _].
  rewrite Hp in Hlog. assert (readable entry) as Hentry by (apply readable_stamp; [done|lia]).
  assert (files w' !! wal_path cfg = Some (log_bytes (mjoin segs ++ cur) ++ take m (record_bytes entry))) as Hlog'.
  { by rewrite Hf, append_file_lookup, Hlog. }
  assert (forall p, p <> wal_path cfg -> files w' !! p = files w !! p) as Hother.
  { intros p Hne. rewrite Hf. by apply append_file_other. }
  destruct (paths_distinct cfg 0) as (_ & _ & _ & Hcp & _).
  assert (seg_files w' cfg (files_ (compaction_manager_ e)) segs) as Hfiles'.
  { apply (seg_files_frame w); [done|]. intros i _. apply Hother, paths_distinct. }
  assert (manifest w' cfg (files_ (compaction_manager_ e)) segs) as Hman'.
  { apply (manifest_frame w); [done|]. apply Hother. congruence. }
  destruct (decide (m < length (record_bytes entry))%nat) as [Hm|Hm].
  - left. apply (log_recovers cfg w' segs cur (take m (record_bytes entry)) (files_ (compaction_manager_ e)));
      try done; [|intros seq|lia].
    + apply parse_log_torn; [apply Hentry|done].
    + apply scan_from_torn; [apply Hentry|done].
  - right. apply (log_recovers cfg w' segs (cur ++ [entry]) [] (files_ (compaction_manager_ e))); try done.
    + rewrite Hlog', take_ge by lia. by rewrite app_assoc, log_bytes_snoc, app_nil_r.
    + rewrite app_assoc. apply Forall_app_2; [done|by constructor].
    + rewrite app_assoc. by apply numbered_snoc.
    + rewrite app_assoc, length_app. cbn [length]. lia.
Qed.

(** A write whose record has reached the log completely. *)
Lemma write_logged_dying cfg w e segs cur type key value e1 w1 n i k :
  config_ok cfg -> engine_inv cfg (calm w) e segs cur -> write_ok type key value ->
  log_cost (mjoin segs ++ cur) + entry_cost (mkWALEntry 0 type key value) < 2 ^ 30 ->
  WriteEntry_log w e type key value = Some (StatusOk, e1, w1) ->
  WriteEntry_log (calm w) e type key value = Some (StatusOk, e1, calm w1) -> faults w1 = death i n k ->
  exists s e' w', WriteEntry w e type key value = Some (s, e', w') /\
    (faults w' <> [] -> recovers cfg (calm w') ((strip <$> (mjoin segs ++ cur)) ++ [mkWALEntry 0 type key value])).
Proof.
  intros Hcfg [Hv Hseq] Hok Hcost Hlog Hcalm Hd.
  destruct (write_log_apply cfg (calm w) e segs cur type key value Hv Hok Hcost)
    as (e1' & w1' & needs & e2 & Hlog' & Happly & Hv2 & Hseq2).
  rewrite Hcalm in Hlog'. injection Hlog' as <- <-. set (x := stamp _ _) in Hv2.
  assert (strip <$> (mjoin segs ++ cur ++ [x]) = (strip <$> (mjoin segs ++ cur)) ++ [mkWALEntry 0 type key value]) as Hx
    by (by rewrite app_assoc, fmap_app).
  unfold WriteEntry. rewrite Hlog. change (negb (IsOk StatusOk)) with false. cbn beta iota. rewrite Happly, <-Hx.
  destruct needs.
  - apply flush_dying; [done|by split; [|rewrite Hseq2]|]. rewrite Hd. apply doomed_death.
  - do 3 eexists. split; [done|]. intros _. by apply (view_recovers _ _ e2).
Qed.

(** A write whose record was torn, or was complete when the process died. *)
Lemma write_torn_dying cfg w e segs cur type key value wal r wal' w1 k m :
  engine_view cfg (calm w) e segs cur -> write_ok type key value ->
  log_cost (mjoin segs ++ cur) + entry_cost (mkWALEntry 0 type key value) < 2 ^ 30 -> wal_ e = Some wal ->
  let x := mkWALEntry 0 type key value in
  WAL_Append w wal x = (r, wal', w1) -> (exists s, r = Err s /\ IsOk s = false) \/ (exists q, r = Val q) ->
  faults w1 = replicate k (Fault 0) ->
  files w1 = files (append_file w (wal_path cfg) (take m (record_bytes (stamp (1 + Z.of_nat (length (mjoin segs ++ cur))) x)))) ->
  exists s e' w', WriteEntry w e type key value = Some (s, e', w') /\ (length (faults w') <= k)%nat /\
    (faults w' <> [] -> recovers cfg (calm w') ((strip <$> (mjoin segs ++ cur)) ++ [x]) \/
       recovers cfg (calm w') (strip <$> (mjoin segs ++ cur))).
Proof.
  intros Hv Hok Hcost Hwal x Happ Hr Hdead Hf1. pose proof (log_cost_count (mjoin segs ++ cur)) as Hcount.
  assert (0 <= entry_cost x) as Hpos by (unfold entry_cost; lia). fold x in Hcost.
  set (entry := stamp _ x) in Hf1.
  assert (forall w', files w' = files w1 -> recovers cfg (calm w') ((strip <$> (mjoin segs ++ cur)) ++ [x]) \/
       recovers cfg (calm w') (strip <$> (mjoin segs ++ cur))) as Hrec.
  { intros w' Hf. assert (strip <$> (mjoin segs ++ cur ++ [entry]) = (strip <$> (mjoin segs ++ cur)) ++ [x]) as <-
      by (by rewrite app_assoc, fmap_app). apply or_comm.
    apply (torn_recovers cfg (calm w) (calm w') e segs cur x m Hv (write_ok_readable _ _ _ Hok)); [lia|done|].
    cbn [calm files]. by rewrite Hf, Hf1. }
  unfold WriteEntry, WriteEntry_log. rewrite Hwal. fold x. rewrite Happ. destruct Hr as [(s & -> & Hs)|[q ->]].
  - rewrite Hs. do 3 eexists. split; [done|]. rewrite Hdead, length_replicate. split; [done|]. intros _. by apply Hrec.
  - change (negb (IsOk StatusOk)) with false. cbn beta iota. set (e1 := set_counters _ _ _ _).
    destruct (ev_mem _ _ _ _ _ Hv) as (mt & Hmt & Hrepr).
    destruct (WriteEntry_apply_run e1 mt (segment_map cur) type key value Hmt Hrepr) as (needs & mt' & -> & Hrepr').
    destruct needs.
    + rewrite log_cost_app in Hcost. pose proof (log_cost_count (mjoin segs)).
      destruct (flush_dead cfg w1 (set_memtables e1 (Some mt') (immutable_memtable_ e1)) mt' wal' (cur ++ [stamp 0 x]))
        as (s & e' & w' & -> & (u & Hu & _) & Hsame); try done; try apply Hv.
      * cbn. by rewrite (ev_manager _ _ _ _ _ Hv).
      * by rewrite segment_map_snoc.
      * rewrite log_cost_snoc. lia.
      * rewrite Hdead. by apply Forall_replicate.
      * do 3 eexists. split; [done|]. split; [|intros Hne; by apply Hrec, Hsame].
        apply (f_equal length) in Hu. rewrite Hdead, length_app, length_replicate in Hu. lia.
    + do 3 eexists. split; [done|]. rewrite Hdead, length_replicate. split; [done|]. intros _. by apply Hrec.
Qed.

Lemma WriteEntry_dying cfg w e segs cur type key value i n k :
  config_ok cfg -> engine_inv cfg (calm w) e segs cur -> write_ok type key value ->
  log_cost (mjoin segs ++ cur) + entry_cost (mkWALEntry 0 type key value) < 2 ^ 30 -> faults w = death i n k ->
  exists s e' w', WriteEntry w e type key value = Some (s, e', w') /\
    (faults w' <> [] ->
       recovers cfg (calm w') ((strip <$> (mjoin segs ++ cur)) ++ [mkWALEntry 0 type key value]) \/
       (length (faults w') <= k)%nat /\ recovers cfg (calm w') (strip <$> (mjoin segs ++ cur))).
Proof.
  intros Hcfg Hinv Hok Hcost Hd. pose proof Hinv as [Hv _]. pose proof (log_cost_count (mjoin segs ++ cur)) as Hcount.
  assert (0 <= entry_cost (mkWALEntry 0 type key value)) as Hpos by (unfold entry_cost; lia).
  destruct (ev_wal _ _ _ _ _ Hv) as (wal & Hwal & Hp & Hws).
  destruct (append_dying w wal _ (mkWALEntry 0 type key value) i n k Hws (write_ok_readable _ _ _ Hok)) as (r & wal' & w1 & Happ & Hcase);
    [lia|done|]. destruct Hcase as [(i' & Hcalm & Hd1)|(Hr & Hdead & m & Hf1)].
  - destruct (wal_state_append (calm w) wal _ _ Hws (write_ok_readable _ _ _ Hok)) as (wal2 & w2 & Happ2 & _); [lia|].
    rewrite Hcalm in Happ2. injection Happ2 as -> _ _.
    destruct (write_logged_dying cfg w e segs cur type key value
                (set_counters (set_wal e wal') (u64 (wal_writes_ e + 1)) (memtable_flushes_ e) (next_sst_sequence_ e)) w1 n i' k)
      as (s & e' & w' & Hrun & Hrec); try done.
    + unfold WriteEntry_log. by rewrite Hwal, Happ.
    + unfold WriteEntry_log. by rewrite Hwal, Hcalm.
    + exists s, e', w'. split; [done|]. intros Hne. left. by apply Hrec.
  - rewrite Hp in Hf1.
    destruct (write_torn_dying cfg w e segs cur type key value wal r wal' w1 k m Hv Hok Hcost Hwal Happ Hr Hdead Hf1)
      as (s & e' & w' & Hrun & Hlen & Hrec). exists s, e', w'. split; [done|]. intros Hne.
    destruct (Hrec Hne); [by left|by right].
Qed.

Lemma engine_step_dying cfg w e segs cur op i n k :
  config_ok cfg -> engine_inv cfg (calm w) e segs cur -> op_ok op ->
  log_cost (mjoin segs ++ cur) + log_cost (op_log op) < 2 ^ 30 -> faults w = death i n k ->
  exists s e' w', engine_step w e op = Some (s, e', w') /\
    (faults w' <> [] ->
       recovers cfg (calm w') ((strip <$> (mjoin segs ++ cur)) ++ op_log op) \/
       (length (faults w') <= k)%nat /\ recovers cfg (calm w') (strip <$> (mjoin segs ++ cur))).
Proof.
  intros Hcfg Hinv Hop Hcost Hd. destruct op as [key value|key|]; cbn [engine_step op_log] in *.
  - rewrite log_cost_cons in Hcost. change (log_cost []) with 0 in Hcost.
    eapply WriteEntry_dying; [done|done|done|lia|done].
  - rewrite log_cost_cons in Hcost. change (log_cost []) with 0 in Hcost.
    eapply WriteEntry_dying; [done|done|done|lia|done].
  - destruct (flush_dying cfg w e segs cur Hcfg Hinv) as (s & e' & w' & Hrun & Hrec); [rewrite Hd; apply doomed_death|].
    exists s, e', w'. split; [done|]. intros Hne. left. rewrite app_nil_r. by apply Hrec.
Qed.
End crash.

(** ** A pass of the compaction thread *)

Section pass.
Context {abi : Abi} {sort : StdSort}.

(** The log, the tables and what the checkpoint says are all that counts. *)
Lemma related_same_files cfg w e st c n w' :
  related cfg w e st c n -> healthy w' -> files w' !! wal_path cfg = files w !! wal_path cfg ->
  (forall m, m ∈ files_ (compaction_manager_ e) -> files w' !! filepath m = files w !! filepath m) ->
  (loaded w' cfg = loaded w cfg \/
   forall flushed, settled cfg w e flushed [] ->
     loaded w' cfg = Val (mkCheckpoint (Z.of_nat (length flushed)) (files_ (compaction_manager_ e)))) ->
  related cfg w' e st c n.
Proof.
  intros [(flushed & cur & Hs & Hcp & Hp & Hc) Ht Hn] Hw' Hwal Htab Hload.
  destruct (settled_same cfg w e flushed cur w' Hs Hw' Hwal Htab) as (Hs' & Hcur & _).
  split; [|apply (related_same_values cfg w e st c n); [by split; [exists flushed, cur|..]|apply (settled_catalogue Hs)|apply (settled_catalogue Hs')|]|done].
  - exists flushed, cur. split_and!; try done. intros Hcur0. destruct Hload as [-> |Hload]; [by apply Hcp|]. apply Hload. by rewrite <-Hcur0.
  - intros k o Ho. exists o. split; [by apply Hcur|done].
Qed.

(** The run failed and every table that was catalogued is still there. *)
Definition spared (w : World) (cm : CompactionManager) (r : Outcome (ErrorOr CompactionStats)) (w' : World) : Prop :=
  match r with
  | Ret (Val _) => False
  | Ret (Err _) => True
  | Throw => forall m, m ∈ files_ cm -> files w' !! filepath m = files w !! filepath m
  end.

(** The files after a pass whose run failed, whatever failed in it and behind
    it, are those of the engine before. *)
Lemma related_failed_pass cfg w e st c n :
  related cfg (calm w) e st c n -> NeedsCompaction (compaction_manager_ e) = true -> sp_pending st = ∅ ->
  exists r cm1 w1 o w', RunCompaction w (compaction_manager_ e) = Some (r, cm1, w1) /\
    CompactionLoop_body w e = Some (o, w') /\ (spared w (compaction_manager_ e) r w1 -> related cfg (calm w') e st c n).
Proof.
  intros Hr Hneed Hempty. pose proof Hr as [(flushed & cur & Hs & Hcp & Hp & Hc) Ht Hn].
  rewrite Hempty in Hp. symmetry in Hp. apply segment_map_nil in Hp as ->.
  destruct (RunCompaction_faults w _ (se_tables _ _ _ _ _ Hs)) as (r & cm1 & w1 & Hrun & Honly & Hres).
  assert (files w1 !! wal_path cfg = files w !! wal_path cfg /\ loaded w1 cfg = loaded w cfg) as [Hwal1 Hload1].
  { unfold loaded. rewrite !Honly; [done|..]; rewrite ?(se_dir _ _ _ _ _ Hs).
    1, 3: intros lvl num; by destruct (sst_named_distinct cfg _ (out_path_named (sst_dir cfg) lvl num)) as (H1 & H2 & _).
    all: intros (m & E & Hm)%list_elem_of_fmap;
      by destruct (sst_named_distinct cfg _ (settled_names Hs m Hm)) as (H1 & H2 & _). }
  unfold CompactionLoop_body. rewrite Hneed, Hrun. cbn [negb].
  destruct r as [r|].
  2: { exists Throw, cm1, w1. do 2 eexists. split; [done|]. split; [done|]. intros Htab.
       apply (related_same_files cfg (calm w)); [done|done|done|exact Htab|by left]. }
  cbn [set_compaction wal_ compaction_manager_ checkpoint_manager_].
  destruct (se_wal _ _ _ _ _ Hs) as (wal & Hwal & Hpath & Hws). rewrite Hwal, (se_cpm _ _ _ _ _ Hs).
  unfold AllFiles. cbn [files_]. set (cp := mkCheckpoint _ _).
  pose proof (SaveCheckpoint_atomic w1 (data_dir cfg) cp) as Ha. cbn zeta in Ha.
  destruct (SaveCheckpoint w1 _ cp) as [s2 w2] eqn:Esave. destruct Ha as [Ha1 Ha2].
  exists (Ret r), cm1, w1. do 2 eexists. split; [done|]. split; [done|]. destruct r as [stats|s]; [done|]. intros _.
  destruct Hres as [[stats ?]|[[? _]|[_ F1 _ _ _ F5]]]; [done|done|].
  destruct (paths_distinct cfg 0) as (_ & _ & _ & D4 & D5).
  apply (related_same_files cfg (calm w)); [done|done|..]; cbn [calm files].
  - by rewrite Ha2.
  - intros m Hm. destruct (sst_named_distinct cfg _ (settled_names Hs m Hm)) as (_ & H1 & H2).
    rewrite Ha2 by done. by apply F5.
  - unfold loaded in *. cbn [calm files]. rewrite Ha1. destruct (IsOk s2); [right|by left]. intros fl Hs2.
    assert (cp = mkCheckpoint (Z.of_nat (length (fl ++ []))) (files_ (compaction_manager_ e))) as ->.
    { unfold cp. rewrite F1. f_equal. destruct (se_wal _ _ _ _ _ Hs2) as (wal2 & Hwal2 & _ & Hws2).
      rewrite Hwal in Hwal2. injection Hwal2 as <-. unfold current_sequence_number. rewrite (ws_next _ _ _ Hws2).
      pose proof (settled_bounds Hs2) as (Hb & _). rewrite u64_small by lia. lia. }
    pose proof (ParseCheckpoint_Serialize _ [] (settled_checkpoint_ok _ _ _ _ _ Hs2)) as Hparse.
    rewrite app_nil_r in Hparse. by rewrite Hparse, app_nil_r.
Qed.
End pass.

(** * Properties *)

(** C4. A crash inside an operation: after any sequence of puts, deletes and
    flushes on a new engine, the process dies at any call into the file system of
    one more put, delete or flush (with the flush that a put may bring), after
    any number of bytes of that call.  An engine opened on the files that
    are left reads, for every key whose last write is not a deletion, either
    the history with the operation or the history without it, the same for
    all keys; and the history with it when the operation had returned before
    the process died. *)
Theorem crash_atomic {abi : Abi} {sort : StdSort} (cfg : StorageConfig) (ops : list engine_op) (op : engine_op)
    (i n k : nat)
    (Hcfg : config_ok cfg) (Hops : Forall op_ok (ops ++ [op])) (Hcost : log_cost (ops_log (ops ++ [op])) < 2 ^ 30) :
  exists ss e w s e' w', run_fresh cfg ops = Some (ss, e, w) /\
    engine_step (mkWorld (files w) (death i n k)) e op = Some (s, e', w') /\
    (faults w' <> [] ->
     exists e2 log, StorageEngine_Open (calm w') cfg = Some (Val e2, calm w') /\
       (log = ops_log (ops ++ [op]) \/ log = ops_log ops /\ (length (faults w') <= k)%nat) /\
       forall key, not_deleted log key = true ->
         StorageEngine_Get (calm w') e2 key = Some (Val (visible_at log key), calm w')).
Proof.
  apply Forall_app in Hops as [Hops Hop]. apply Forall_cons in Hop as [Hop _].
  assert (ops_log (ops ++ [op]) = ops_log ops ++ op_log op) as Hlog.
  { unfold ops_log. rewrite fmap_app. apply mjoin_snoc. }
  rewrite Hlog, log_cost_app in *. pose proof (log_cost_count (op_log op)).
  destruct (run_fresh_spec cfg ops Hcfg Hops) as (ss & e & w & segs & cur & Hrun & _ & Hinv & Hl); [lia|].
  rewrite <-fmap_app in Hl. set (w0 := mkWorld (files w) (death i n k)).
  assert (calm w0 = w) as Hcalm.
  { destruct (ev_wal _ _ _ _ _ (proj1 Hinv)) as (wal & _ & _ & Hws). pose proof (ws_healthy _ _ _ Hws) as Hw.
    unfold healthy in Hw. destruct w. unfold calm. cbn in *. by rewrite Hw. }
  rewrite <-Hcalm in Hinv. exists ss, e, w.
  destruct (engine_step_dying cfg w0 e segs cur op i n k Hcfg Hinv Hop) as (s & e' & w' & Hstep & Hrec); [|done|].
  { rewrite <-(log_cost_strip (mjoin segs ++ cur)), Hl. lia. }
  exists s, e', w'. split; [done|]. split; [done|]. intros Hne. rewrite Hl in Hrec.
  destruct (Hrec Hne) as [(e2 & segs' & cur' & Ho & Hl' & Hget)|[Hk (e2 & segs' & cur' & Ho & Hl' & Hget)]].
  - exists e2, (ops_log ops ++ op_log op). split; [done|]. split; [by left|]. intros key Hnd.
    by rewrite Hget, (view_get_current segs' cur' _ key Hl' Hnd).
  - exists e2, (ops_log ops). split; [done|]. split; [by right|]. intros key Hnd.
    by rewrite Hget, (view_get_current segs' cur' _ key Hl' Hnd).
Qed.

(** C8. A compaction that fails loses nothing on disk: after any sequence of
    client operations and passes that ends with a flush (writes below 1 GiB in
    total, and the level-0 files in order of age at every pass of it), whatever
    calls fail in one more pass of the compaction thread, the pass ends, by
    returning or by an exception, which ends the process.  When its run returns an
    error, or is left by an exception before an input has been deleted, an engine
    opened on the files afterwards, with the checkpoint of the pass saved or not,
    reads every key as before the pass. *)
Theorem failed_compaction_recoverable {abi : Abi} {sort : StdSort} (cfg : StorageConfig) (ops : list thread_op)
    (schedule : list fault)
    (Hcfg : config_ok cfg) (Hops : Forall thread_ok ops) (Hcost : log_cost (threads_log ops) < 2 ^ 30)
    (Hpasses : ordered_passes cfg ops) (Hlen : Z.of_nat (length ops) < 2 ^ 35) :
  exists ss e w o w', run_threads cfg (ops ++ [Client OpFlush]) = Some (ss, e, w) /\
    let w0 := mkWorld (files w) schedule in
    CompactionLoop_body w0 e = Some (o, w') /\
    ((exists r cm1 w1, RunCompaction w0 (compaction_manager_ e) = Some (r, cm1, w1) /\
        spared w0 (compaction_manager_ e) r w1) ->
     exists e2, StorageEngine_Open (calm w') cfg = Some (Val e2, calm w') /\
       forall key, exists v, StorageEngine_Get w e key = Some (Val v, w) /\
         StorageEngine_Get (calm w') e2 key = Some (Val v, calm w')).
Proof.
  destruct (run_threads_spec cfg ops Hcfg Hops Hcost Hpasses Hlen) as (ss & e0 & w0 & st0 & c & n & Hrun0 & _ & _ & Hr0 & _).
  destruct (related_flush cfg w0 e0 st0 c n Hcfg Hr0) as (e & w & Hf & Hr). set (st := spec_flush st0) in Hr.
  pose proof (run_threads_snoc cfg ops (Client OpFlush) ss e0 w0 _ _ _ Hrun0 Hf) as Hrun.
  set (wf := mkWorld (files w) schedule). assert (calm wf = w) as Hcalm.
  { destruct Hr as [(flushed & cur & Hs & _) _ _]. pose proof (co_healthy _ _ (settled_catalogue Hs)) as Hw.
    unfold healthy in Hw. destruct w. unfold calm. cbn in *. by rewrite Hw. }
  rewrite <-Hcalm in Hr.
  assert (exists o w', CompactionLoop_body wf e = Some (o, w') /\
    ((exists r cm1 w1, RunCompaction wf (compaction_manager_ e) = Some (r, cm1, w1) /\ spared wf (compaction_manager_ e) r w1) ->
      related cfg (calm w') e st c n)) as (o & w' & Hbody & Hrel).
  { destruct (NeedsCompaction (compaction_manager_ e)) eqn:Hneed.
    - destruct (related_failed_pass cfg wf e st c n Hr Hneed eq_refl) as (r & cm1 & w1 & o & w' & Hrc & Hb & Hrel).
      exists o, w'. split; [done|]. intros (r2 & cm2 & w2 & Hrc2 & Hsp). rewrite Hrc in Hrc2. injection Hrc2 as -> _ ->. by apply Hrel.
    - exists (Ret e), wf. unfold CompactionLoop_body. by rewrite Hneed. }
  eexists _, e, w, o, w'. split; [done|]. split; [done|]. intros Herr.
  destruct (related_reopen cfg (calm w') e st c n (Hrel Herr) eq_refl) as (e2 & Ho & Hget).
  exists e2. split; [done|]. intros key. exists (spec_get st key). split; [|done]. rewrite <-Hcalm. by apply (related_get cfg _ _ _ c n).
Qed.

(** ** Witness *)

#[local] Existing Instance x86_64_libstdcxx.
#[local] Existing Instance insertion_std_sort.

(** The process dies five bytes into the log record of a put. *)
Definition dying_put (r : option (list Status * StorageEngine * World)) : option (Status * StorageEngine * World) :=
  match r with
  | Some (_, e, w) => engine_step (mkWorld (files w) (death 1 5 4)) e (OpPut (lit "a") (lit "9"))
  | None => None
  end.

Definition rest_of (r : option (Status * StorageEngine * World)) : nat :=
  match r with Some (_, _, w) => length (faults w) | None => 0 end.

Lemma crash_atomic_witness :
  exists s e' w' e2 v, dying_put (run_fresh sample_config sample_ops) = Some (s, e', w') /\
    StorageEngine_Open (calm w') sample_config = Some (Val e2, calm w') /\ (v = lit "3" \/ v = lit "9") /\
    StorageEngine_Get (calm w') e2 (lit "a") = Some (Val (Some v), calm w').
Proof.
  destruct (crash_atomic sample_config sample_ops (OpPut (lit "a") (lit "9")) 1 5 4)
    as (ss & e & w & s & e' & w' & Hrun & Hstep & Hrec).
  - reflexivity.
  - by_vm.
  - reflexivity.
  - assert (dying_put (run_fresh sample_config sample_ops) = Some (s, e', w')) as Hdie by (rewrite Hrun; exact Hstep).
    assert (rest_of (dying_put (run_fresh sample_config sample_ops)) = 4%nat) as Hlen by (vm_compute; reflexivity).
    rewrite Hdie in Hlen. unfold rest_of in Hlen. destruct Hrec as (e2 & log & Ho & Hlog & Hget).
    { intros Hf. rewrite Hf in Hlen. discriminate Hlen. }
    exists s, e', w', e2. destruct Hlog as [->|[-> _]].
    + exists (lit "9"). split; [exact Hdie|]. split; [exact Ho|]. split; [right; reflexivity|]. exact (Hget (lit "a") eq_refl).
    + exists (lit "3"). split; [exact Hdie|]. split; [exact Ho|]. split; [left; reflexivity|]. exact (Hget (lit "a") eq_refl).
Defined.

(** The process dies after twenty calls, while the merge reads its inputs. *)
Definition run_dies (r : option (list Status * StorageEngine * World)) : bool :=
  match r with
  | Some (_, e, w) =>
      match RunCompaction (mkWorld (files w) (death 20 0 20)) (compaction_manager_ e) with Some (Ret (Err _), _, _) => true | _ => false end
  | None => false
  end.

Lemma failed_compaction_recoverable_witness :
  exists ss e w w' e2 v, run_threads sample_config (layered_ops ++ [Client OpFlush]) = Some (ss, e, w) /\
    StorageEngine_Open (calm w') sample_config = Some (Val e2, calm w') /\
    StorageEngine_Get w e (lit "a") = Some (Val v, w) /\ StorageEngine_Get (calm w') e2 (lit "a") = Some (Val v, calm w').
Proof.
  destruct (failed_compaction_recoverable sample_config layered_ops (death 20 0 20))
    as (ss & e & w & e' & w' & Hrun & _ & Hrec).
  - reflexivity.
  - apply thread_okb_ok. by_vm.
  - reflexivity.
  - apply run_falls_ordered. vm_compute. reflexivity.
  - reflexivity.
  - assert (run_dies (run_threads sample_config (layered_ops ++ [Client OpFlush])) = true) as Hd by (vm_compute; reflexivity).
    rewrite Hrun in Hd. unfold run_dies in Hd. destruct Hrec as (e2 & Ho & Hget).
    { destruct (RunCompaction _ _) as [[[[[stats|s]|] cm1] w1]|]; [discriminate Hd| |discriminate Hd|discriminate Hd].
      exists (Ret (Err s)), cm1, w1. split; [reflexivity|exact I]. }
    destruct (Hget (lit "a")) as (v & H1 & H2). exists ss, e, w, w', e2, v. split_and!; assumption.
Defined.

(** ** Behaviour outside the contract *)

(** What a key reads in an engine opened on these files. *)
Definition read_reopened (cfg : StorageConfig) (w : World) (key : str) : option (ErrorOr (option bytes)) :=
  match StorageEngine_Open (calm w) cfg with
  | Some (Val e, w) => match StorageEngine_Get w e key with Some (r, _) => Some r | None => None end
  | _ => None
  end.

(** A pass of the compaction thread that dies at its call [i]. *)
Definition dying_pass (i : nat) (key : str) (r : option (list Status * StorageEngine * World)) :
    option (ErrorOr (option bytes)) :=
  match r with
  | Some (_, e, w) =>
      match CompactionLoop_body (mkWorld (files w) (death i 0 20)) e with
      | Some (_, w') => read_reopened (config_ e) w' key
      | None => None
      end
  | None => None
  end.

Definition fails (r : option (ErrorOr (option bytes))) : bool := match r with Some (Err _) => true | _ => false end.

(** The inputs of a merge are deleted before the checkpoint that replaces them
    is saved: a process that dies in between (its call 41 is the opening of the
    temporary checkpoint file), or at the removal of the second input (call 38),
    leaves a checkpoint of deleted files, and the keys in them cannot be read any
    more.  A pass that dies during the merge, or behind the checkpoint, does no
    harm. *)
Example compaction_crash_loses_tables :
  let s := run_threads sample_config (layered_ops ++ [Client OpFlush]) in
  fails (dying_pass 41 (lit "a") s) = true /\ fails (dying_pass 38 (lit "a") s) = true /\
  dying_pass 20 (lit "a") s = Some (Val (Some (lit "5"))) /\ dying_pass 50 (lit "a") s = Some (Val (Some (lit "5"))).
Proof. vm_compute. split_and!; reflexivity. Qed.

(** A pass in which one call fails, the one with number [i]: whether the process
    survives, and what a key reads in an engine opened on the files. *)
Definition faulty_pass (i : nat) (key : str) (r : option (list Status * StorageEngine * World)) :
    option (bool * option (ErrorOr (option bytes))) :=
  match r with
  | Some (_, e, w) =>
      match CompactionLoop_body (mkWorld (files w) (replicate i NoFault ++ [Fault 0])) e with
      | Some (Ret _, w') => Some (true, read_reopened (config_ e) w' key)
      | Some (Throw, w') => Some (false, read_reopened (config_ e) w' key)
      | None => None
      end
  | None => None
  end.

Definition lost_by_exception (r : option (bool * option (ErrorOr (option bytes)))) : bool :=
  match r with Some (false, Some (Err _)) => true | _ => false end.

(** The second input of a merge cannot be removed: the exception ends the process,
    and the checkpoint still lists the first input, which is deleted.  When the
    file size of an output cannot be read the process ends as well, but nothing
    is lost. *)
Example failed_remove_loses_tables :
  let s := run_threads sample_config (layered_ops ++ [Client OpFlush]) in
  lost_by_exception (faulty_pass 38 (lit "a") s) = true /\
  faulty_pass 36 (lit "a") s = Some (false, Some (Val (Some (lit "5")))).
Proof. vm_compute. split_and!; reflexivity. Qed.
