(* ===== verification/EngineScenarios.v ===== *)
(** * Scenarios of the storage engine

    Concrete runs of the definitions of Engine.v, evaluated by the kernel:
    where the behaviour of the code differs from what its documentation
    states.  A scenario is a sequence of steps on the engine and the file
    system; [crash] drops the engine and opens a new one on the same files. *)

From S2P Require Import Prelude Status BinarySerializer Mt19937 SkipList MemTable FileSystem Wal Recovery Checkpoint BloomFilter Block SSTable Compaction BlockCache Engine.

#[local] Existing Instance x86_64_libstdcxx.
#[local] Existing Instance insertion_std_sort.

Definition config : StorageConfig := mkConfig (lit "/d") (lit "/d/wal") (lit "/d/sst") (64 * 1024 * 1024) 1.

Definition state : Set := World * StorageEngine.

Definition step : Type := state -> option state.

Definition open_on (w : World) : option state :=
  match StorageEngine_Open w config with Some (Val e, w) => Some (w, e) | _ => None end.

Definition put (key value : str) : step := fun '(w, e) =>
  match StorageEngine_Put w e key value with Some (_, e, w) => Some (w, e) | None => None end.

Definition del (key : str) : step := fun '(w, e) =>
  match StorageEngine_Delete w e key with Some (_, e, w) => Some (w, e) | None => None end.

Definition flush : step := fun '(w, e) =>
  match FlushMemTable w e with Some (_, e, w) => Some (w, e) | None => None end.

Definition compaction_pass : step := fun '(w, e) =>
  match CompactionLoop_body w e with Some (Ret e, w) => Some (w, e) | _ => None end.

(** The process dies; a new engine opens the files. *)
Definition crash : step := fun '(w, e) => open_on (mkWorld (files w) []).

(** A clean shutdown and reopening. *)
Definition restart : step := fun '(w, e) =>
  match StorageEngine_destroy w e with Some w => open_on w | None => None end.

(** Set the faults that the following calls meet. *)
Definition with_faults (fs : list fault) : step := fun '(w, e) => Some (mkWorld (files w) fs, e).

(** The sections of a write and of a flush, for interleavings. *)
Definition log_put (key value : str) : step := fun '(w, e) =>
  match WriteEntry_log w e kPut key value with Some (_, e, w) => Some (w, e) | None => None end.

Definition apply_put (key value : str) : step := fun '(w, e) =>
  match WriteEntry_apply e kPut key value with Some (_, e) => Some (w, e) | None => None end.

Fixpoint run (steps : list step) (s : option state) : option state :=
  match steps, s with
  | [], _ => s
  | f :: steps, Some s => run steps (f s)
  | _ :: _, None => None
  end.

Definition read (s : option state) (key : str) : option (ErrorOr (option bytes)) :=
  match s with
  | Some (w, e) => match StorageEngine_Get w e key with Some (r, _) => Some r | None => None end
  | None => None
  end.

Definition fresh : option state := open_on (mkWorld ∅ []).

(** Writing, reading, flushing and reopening work together. *)
Example basic_run :
  let s := run [put (lit "a") (lit "1"); put (lit "b") (lit "2"); flush; put (lit "a") (lit "3"); del (lit "c")] fresh in
  read s (lit "a") = Some (Val (Some (lit "3"))) /\ read s (lit "b") = Some (Val (Some (lit "2"))) /\
  read s (lit "c") = Some (Val None) /\
  read (run [crash] s) (lit "a") = Some (Val (Some (lit "3"))).
Proof. vm_compute. split_and!; reflexivity. Qed.

(** A deleted key whose earlier version has been flushed is found again: the
    memtable reports its tombstone as absent, and the read goes on to the
    tables. *)
Example deleted_key_reappears :
  read (run [put (lit "k") (lit "v"); flush; del (lit "k")] fresh) (lit "k") = Some (Val (Some (lit "v"))).
Proof. vm_compute. reflexivity. Qed.

(** After a restart the table numbers start at 1 again: the first flush
    overwrites the first table of the previous run, and its keys are gone. *)
Example restart_overwrites_table :
  read (run [put (lit "a") (lit "1"); flush; restart; put (lit "b") (lit "2"); flush] fresh) (lit "a")
  = Some (Val None).
Proof. vm_compute. reflexivity. Qed.

(** A compaction pass checkpoints the current log position although the
    memtable has not been flushed: after a crash the acknowledged write of "x"
    is not replayed. *)
Example compaction_checkpoint_loses_write :
  let s := run [put (lit "a") (lit "1"); flush; put (lit "b") (lit "1"); flush; put (lit "c") (lit "1"); flush;
                put (lit "d") (lit "1"); flush; put (lit "x") (lit "1"); compaction_pass] fresh in
  read s (lit "x") = Some (Val (Some (lit "1"))) /\ read (run [crash] s) (lit "x") = Some (Val None).
Proof. vm_compute. split; reflexivity. Qed.

(** A flush that fails has already replaced the memtable: the write is not
    found any more, and the next successful flush moves the checkpoint past
    it, so it is lost for good. *)
Example failed_flush_loses_write :
  let s := run [put (lit "a") (lit "1"); with_faults [Fault 0]; flush; with_faults []] fresh in
  read s (lit "a") = Some (Val None) /\
  read (run [put (lit "b") (lit "2"); flush; crash] s) (lit "a") = Some (Val None).
Proof. vm_compute. split; reflexivity. Qed.

(** Between the swap and the registration of the new table a reader finds the
    key neither in a memtable nor in a table: [immutable_memtable_] is reset,
    never set. *)
Example flush_hides_key :
  match run [put (lit "a") (lit "1")] fresh with
  | Some (w, e) =>
      match Flush_swap e with
      | Some (Some _, e) => StorageEngine_Get w e (lit "a") = Some (Val None, w)
      | _ => False
      end
  | None => False
  end.
Proof. vm_compute. reflexivity. Qed.

(** A write between the swap and the capture of the log position is counted as
    flushed, but it is in the new memtable: a crash loses it. *)
Example flush_lsn_race_loses_write :
  match run [put (lit "a") (lit "1")] fresh with
  | Some (w, e) =>
      match Flush_swap e with
      | Some (Some to_flush, e) =>
          match run [put (lit "b") (lit "2")] (Some (w, e)) with
          | Some (w, e) =>
              match Flush_lsn e with
              | Some lsn =>
                  match Flush_write w e to_flush lsn with
                  | Some (_, e, w) =>
                      read (Some (w, e)) (lit "b") = Some (Val (Some (lit "2"))) /\
                      read (run [crash] (Some (w, e))) (lit "b") = Some (Val None)
                  | None => False
                  end
              | None => False
              end
          | None => False
          end
      | _ => False
      end
  | None => False
  end.
Proof. vm_compute. split; reflexivity. Qed.

(** Two writers of one key may reach the memtable in the opposite order of
    their log records: the value read before a crash is not the value read
    after it. *)
Example write_order_diverges :
  let s := run [log_put (lit "k") (lit "first"); log_put (lit "k") (lit "second");
                apply_put (lit "k") (lit "second"); apply_put (lit "k") (lit "first")] fresh in
  read s (lit "k") = Some (Val (Some (lit "first"))) /\
  read (run [crash] s) (lit "k") = Some (Val (Some (lit "second"))).
Proof. vm_compute. split; reflexivity. Qed.

(** When recovery stops at an unknown entry type, the destructor of the failed
    engine flushes what was replayed and checkpoints the end of the log: the
    next [Open] succeeds without the entries behind the unknown one. *)
Example failed_recovery_skips_entries :
  let bad := mkWALEntry 2 Byte.x07 (lit "k") [] in
  let log := mjoin (SerializeEntry <$> [mkWALEntry 1 kPut (lit "a") (lit "1"); bad; mkWALEntry 3 kPut (lit "b") (lit "2")]) in
  match StorageEngine_Open (mkWorld {[ wal_path config := log ]} []) config with
  | Some (Err s, w) =>
      code_ s = kStorageCorruption /\ read (open_on w) (lit "a") = Some (Val (Some (lit "1"))) /\
      read (open_on w) (lit "b") = Some (Val None)
  | _ => False
  end.
Proof. vm_compute. split_and!; reflexivity. Qed.

(** The memory usage of an empty memtable already counts the skip list and its
    head node, so a small threshold flushes on every write. *)
Example small_threshold_flushes_each_write :
  match StorageEngine_Open (mkWorld ∅ []) (mkConfig (lit "/d") (lit "/d/wal") (lit "/d/sst") 4096 1) with
  | Some (Val e, w) =>
      match StorageEngine_Put w e (lit "a") (lit "1") with
      | Some (s, e, _) => IsOk s = true /\ memtable_flushes_ e = 1
      | None => False
      end
  | _ => False
  end.
Proof. vm_compute. split; reflexivity. Qed.

(** After a restart the compaction's file numbers start at 1 again as well: the
    merge of the next run is written over the level-1 file it has read, and
    that path is then removed as one of the inputs.  Everything in both levels
    is gone. *)
Example restart_compaction_loses_tables :
  let round := [put (lit "a") (lit "1"); flush; put (lit "b") (lit "1"); flush; put (lit "c") (lit "1"); flush;
                put (lit "d") (lit "1"); flush; compaction_pass] in
  let s := run round fresh in
  let s' := run round (run [restart] s) in
  read s (lit "b") = Some (Val (Some (lit "1"))) /\ read (run [restart] s) (lit "b") = Some (Val (Some (lit "1"))) /\
  read s' (lit "b") = Some (Val None) /\ read s' (lit "d") = Some (Val None).
Proof. vm_compute. split_and!; reflexivity. Qed.
