(* ===== verification/RaftState.v ===== *)
(** * [RaftState]: the role, term and vote of a node

    Models src/src/raft/core/raft_state.{h,cpp}.  Every method holds the mutex
    for its whole body, so the methods are the atomic steps of the machine;
    [step] is the relation of one call, and the theorems are about every
    sequence of calls from a new node.  The registered callback is a flag (its
    body is the client's) and a transition returns the notification it makes,
    if any.  Terms are 64-bit and wrap around.

    [LoadState] overwrites term and vote; it is meant for start-up, and is
    part of the initial states, not of the steps. *)

From S2P Require Import Prelude Status.

Inductive RaftRole : Set := kFollower | kCandidate | kLeader.

#[export] Instance RaftRole_eq_dec : EqDecision RaftRole.
Proof. solve_decision. Defined.

Definition RaftRoleToString (role : RaftRole) : str :=
  match role with
  | kFollower => lit "Follower"
  | kCandidate => lit "Candidate"
  | kLeader => lit "Leader"
  end.

Record RaftState : Set := mkRaft {
  current_role_ : RaftRole;
  current_term_ : Z;
  voted_for_ : str;
  leader_id_ : str;
  self_id_ : str;
  on_state_change_ : bool
}.

(** [on_state_change_(old_role, new_role)] *)
Definition notification : Set := RaftRole * RaftRole.

Definition RaftState_new (self_id : str) : RaftState := mkRaft kFollower 0 [] [] self_id false.

(** A [std::function] may be empty: [callback] says whether it is callable. *)
Definition SetStateChangeCallback (s : RaftState) (callback : bool) : RaftState :=
  mkRaft (current_role_ s) (current_term_ s) (voted_for_ s) (leader_id_ s) (self_id_ s) callback.

Definition notify (s : RaftState) (old_role new_role : RaftRole) : option notification :=
  if on_state_change_ s then Some (old_role, new_role) else None.

Definition TransitionToCandidate (s : RaftState) : Status * RaftState * option notification :=
  if bool_decide (current_role_ s = kLeader)
  then (mkStatus kInvalidArgument
          (lit "Leader cannot transition directly to Candidate. Must StepDown first."), s, None)
  else
    (StatusOk,
     mkRaft kCandidate (u64 (current_term_ s + 1)) (self_id_ s) [] (self_id_ s) (on_state_change_ s),
     notify s (current_role_ s) kCandidate).

Definition TransitionToLeader (s : RaftState) : Status * RaftState * option notification :=
  if negb (bool_decide (current_role_ s = kCandidate))
  then (mkStatus kInvalidArgument (lit "Only a Candidate can transition to Leader."), s, None)
  else
    (StatusOk,
     mkRaft kLeader (current_term_ s) (voted_for_ s) (self_id_ s) (self_id_ s) (on_state_change_ s),
     notify s (current_role_ s) kLeader).

Definition StepDown (s : RaftState) (new_term : Z) (known_leader_id : str) :
    Status * RaftState * option notification :=
  if new_term <? current_term_ s
  then (mkStatus kInvalidArgument (lit "Cannot step down to a lower term."), s, None)
  else
    (StatusOk,
     mkRaft kFollower new_term (if current_term_ s <? new_term then [] else voted_for_ s)
       known_leader_id (self_id_ s) (on_state_change_ s),
     if negb (bool_decide (current_role_ s = kFollower)) then notify s (current_role_ s) kFollower else None).

Definition GrantVote (s : RaftState) (candidate_id : str) : Status * RaftState :=
  if bool_decide (voted_for_ s = []) || bool_decide (voted_for_ s = candidate_id)
  then (StatusOk, mkRaft (current_role_ s) (current_term_ s) candidate_id (leader_id_ s) (self_id_ s)
                    (on_state_change_ s))
  else (mkStatus kAlreadyExists (lit "Already voted for another candidate in this term."), s).

Definition LoadState (s : RaftState) (term : Z) (voted_for : str) : RaftState :=
  mkRaft (current_role_ s) term voted_for (leader_id_ s) (self_id_ s) (on_state_change_ s).

(** The accessors, each under the lock. *)
Definition role (s : RaftState) : RaftRole := current_role_ s.
Definition current_term (s : RaftState) : Z := current_term_ s.
Definition voted_for (s : RaftState) : str := voted_for_ s.
Definition leader_id (s : RaftState) : str := leader_id_ s.
Definition self_id (s : RaftState) : str := self_id_ s.

(** ** The machine *)

Inductive call : Set :=
  | CallCandidate
  | CallLeader
  | CallStepDown (new_term : Z) (known_leader_id : str)
  | CallGrantVote (candidate_id : str)
  | CallSetCallback (callback : bool).

(** The state after a call, and the vote it casts: the term and the candidate. *)
Definition perform (s : RaftState) (c : call) : RaftState * option (Z * str) :=
  match c with
  | CallCandidate =>
      let '(st, s', _) := TransitionToCandidate s in
      (s', if IsOk st then Some (current_term_ s', voted_for_ s') else None)
  | CallLeader => let '(_, s', _) := TransitionToLeader s in (s', None)
  | CallStepDown t l => let '(_, s', _) := StepDown s t l in (s', None)
  | CallGrantVote id =>
      let '(st, s') := GrantVote s id in
      (s', if IsOk st then Some (current_term_ s', id) else None)
  | CallSetCallback f => (SetStateChangeCallback s f, None)
  end.

(** What callers pass: node ids are not empty and a new term fits 64 bits; a
    new election needs a term to count up to. *)
Definition call_ok (s : RaftState) (c : call) : Prop :=
  match c with
  | CallCandidate => current_term_ s < 2 ^ 64 - 1
  | CallStepDown t _ => 0 <= t < 2 ^ 64
  | CallGrantVote id => id <> []
  | _ => True
  end.

Inductive step : RaftState -> option (Z * str) -> RaftState -> Prop :=
  | step_call s c s' v : call_ok s c -> perform s c = (s', v) -> step s v s'.

(** Runs from a node started with a stored term and vote, with the votes cast
    in all, latest first. *)
Inductive reachable (self_id : str) (term : Z) (vote : str) : RaftState -> list (Z * str) -> Prop :=
  | reach_start :
      reachable self_id term vote (LoadState (RaftState_new self_id) term vote)
        (if bool_decide (vote = []) then [] else [(term, vote)])
  | reach_step s votes v s' :
      reachable self_id term vote s votes -> step s v s' ->
      reachable self_id term vote s' (match v with Some x => x :: votes | None => votes end).

(** ** Invariants *)

Record raft_inv (self_id : str) (s : RaftState) (votes : list (Z * str)) : Prop := {
  ri_self : self_id_ s = self_id;
  ri_term : 0 <= current_term_ s < 2 ^ 64;
  ri_votes_term : forall t c, (t, c) ∈ votes -> t <= current_term_ s;
  ri_votes_current : forall c, (current_term_ s, c) ∈ votes -> c = voted_for_ s /\ c <> [];
  ri_unique : forall t c c', (t, c) ∈ votes -> (t, c') ∈ votes -> c = c';
  ri_candidate : current_role_ s <> kFollower ->
    voted_for_ s = self_id /\ (current_term_ s, self_id) ∈ votes;
  ri_leader : current_role_ s = kLeader -> leader_id_ s = self_id
}.

(** The cases of a call: the guard that fails leaves the state as it was. *)
Ltac raft_cases :=
  match goal with
  | |- perform _ ?c = _ -> _ => destruct c; cbn [perform call_ok] in *
  end;
  unfold TransitionToCandidate, TransitionToLeader, StepDown, GrantVote, SetStateChangeCallback;
  repeat match goal with
  | |- context [if bool_decide (?x = kLeader) then _ else _] => destruct (bool_decide_reflect (x = kLeader))
  | |- context [negb (bool_decide (?x = kCandidate))] => destruct (bool_decide_reflect (x = kCandidate)); cbn [negb]
  | |- context [if ?a <? ?b then (mkStatus _ _, _, _) else _] => destruct (Z.ltb_spec a b)
  | |- context [bool_decide (voted_for_ ?s = []) || bool_decide (voted_for_ ?s = ?x)] =>
      destruct (bool_decide_reflect (voted_for_ s = []));
      destruct (bool_decide_reflect (voted_for_ s = x)); cbn [orb]
  end.

Lemma perform_self s c s' v : perform s c = (s', v) -> self_id_ s' = self_id_ s.
Proof. raft_cases; by intros [= <- _]. Qed.

(** Terms never go back, and the vote of a term, once cast, stays. *)
Lemma perform_term s c s' v :
  0 <= current_term_ s < 2 ^ 64 -> call_ok s c -> perform s c = (s', v) ->
  current_term_ s <= current_term_ s' < 2 ^ 64 /\
  (current_term_ s' = current_term_ s -> voted_for_ s <> [] -> voted_for_ s' = voted_for_ s).
Proof.
  intros Ht Hc. raft_cases; intros [= <- _]; cbn [current_term_ voted_for_];
    try (split; [lia | intros; congruence]).
  - rewrite u64_small by lia. split; [lia | intros; lia].
  - split; [lia|]. intros -> _. by rewrite Z.ltb_irrefl.
Qed.

(** A vote is cast for the term and candidate that the new state records, and
    a second vote of one term is for the same candidate. *)
Lemma perform_vote s c s' t id :
  0 <= current_term_ s < 2 ^ 64 -> call_ok s c -> self_id_ s <> [] -> perform s c = (s', Some (t, id)) ->
  t = current_term_ s' /\ id = voted_for_ s' /\ id <> [].
Proof.
  intros Ht Hc Hself. raft_cases; cbn; intros [= <- <- <-]; auto.
Qed.

(** What the role says of the new state. *)
Lemma perform_role s c s' v :
  perform s c = (s', v) -> current_role_ s' <> kFollower ->
  (voted_for_ s' = self_id_ s /\ v = Some (current_term_ s', self_id_ s) /\ current_role_ s' = kCandidate) \/
  (current_role_ s <> kFollower /\ current_term_ s' = current_term_ s /\
   (voted_for_ s <> [] -> voted_for_ s' = voted_for_ s) /\
   (current_role_ s' = kLeader -> leader_id_ s' = self_id_ s \/ current_role_ s = kLeader /\ leader_id_ s' = leader_id_ s)).
Proof.
  raft_cases; cbn; intros [= <- <-]; cbn; intros Hr; try (by left); try done; right; split_and!; auto; try congruence.
Qed.

Lemma raft_inv_step self_id s votes c s' v :
  self_id <> [] -> raft_inv self_id s votes -> call_ok s c -> perform s c = (s', v) ->
  raft_inv self_id s' (match v with Some x => x :: votes | None => votes end).
Proof.
  intros Hid [I1 I2 I3 I4 I5 I6 I7] Hc E. set (votes' := match v with Some x => x :: votes | None => votes end).
  destruct (perform_term _ _ _ _ I2 Hc E) as [Ht Hv]. pose proof (perform_self _ _ _ _ E) as Hs.
  assert (forall t x, (t, x) ∈ votes' -> (t, x) ∈ votes \/ t = current_term_ s' /\ x = voted_for_ s' /\ x <> []) as Hin.
  { intros t x Hx. destruct v as [[t0 x0]|]; [|by left]. apply elem_of_cons in Hx as [[= <- <-]|Hx]; [right|by left].
    apply (perform_vote s c); [done|done|congruence|done]. }
  assert (forall x, x ∈ votes -> x ∈ votes') as Hsub.
  { intros x Hx. unfold votes'. destruct v; [by right|done]. }
  assert (forall x, (current_term_ s', x) ∈ votes' -> x = voted_for_ s' /\ x <> []) as Hcur.
  { intros x Hx. apply Hin in Hx as [Hx|(_ & ? & ?)]; [|done].
    assert (current_term_ s' = current_term_ s) as Et by (specialize (I3 _ _ Hx); lia). rewrite Et in Hx.
    destruct (I4 _ Hx) as [-> Hne]. by rewrite Hv. }
  constructor; [congruence|lia| |exact Hcur| | |].
  - intros t x Hx. apply Hin in Hx as [Hx| [-> _]]; [specialize (I3 _ _ Hx)|]; lia.
  - intros t x y Hx Hy. pose proof (Hin _ _ Hx) as [Hx'|(-> & -> & _)].
    + pose proof (Hin _ _ Hy) as [Hy'|(-> & -> & _)]; [by eapply I5|]. by apply Hcur.
    + symmetry. by apply Hcur.
  - intros Hr. destruct (perform_role _ _ _ _ E Hr) as [(Hvf & -> & _)|(Hr0 & Et & Hvf & _)].
    + rewrite <-I1. split; [done|]. by left.
    + destruct (I6 Hr0) as [Hv0 Hin0]. rewrite Et. split; [|auto]. rewrite Hvf; congruence.
  - intros Hr. assert (current_role_ s' <> kFollower) as Hr' by congruence.
    destruct (perform_role _ _ _ _ E Hr') as [(_ & _ & ?)|(_ & _ & _ & Hl)]; [congruence|].
    destruct (Hl Hr) as [->|[Hr0 ->]]; [congruence|auto].
Qed.

Lemma raft_inv_reachable self_id term vote s votes :
  self_id <> [] -> 0 <= term < 2 ^ 64 -> reachable self_id term vote s votes -> raft_inv self_id s votes.
Proof.
  intros Hid Ht. induction 1 as [|s votes v s' _ IH Hstep].
  - assert (forall t c, (t, c) ∈ (if bool_decide (vote = []) then [] else [(term, vote)]) ->
        t = term /\ c = vote /\ vote <> []) as Hin.
    { intros t c. case_bool_decide; [by intros ?%not_elem_of_nil|]. by intros [= -> ->]%list_elem_of_singleton. }
    constructor; cbn; try done.
    + intros t c (-> & _)%Hin. lia.
    + by intros c (_ & -> & ?)%Hin.
    + by intros t c c' (_ & -> & _)%Hin (_ & -> & _)%Hin.
  - destruct Hstep as [s c s' v Hc E]. exact (raft_inv_step self_id s votes c s' v Hid IH Hc E).
Qed.

(** ** Elections *)

(** A candidate has the votes of a majority of [nodes] in a term; [votes] are
    the votes each node has cast. *)
Definition elected (nodes : list str) (votes : str -> list (Z * str)) (term : Z) (candidate : str) : Prop :=
  exists quorum, NoDup quorum /\ quorum ⊆ nodes /\ (length nodes < 2 * length quorum)%nat /\
    forall n, n ∈ quorum -> (term, candidate) ∈ votes n.

(** Two majorities share a node. *)
Lemma majorities_meet (nodes q1 q2 : list str) :
  NoDup q1 -> NoDup q2 -> q1 ⊆ nodes -> q2 ⊆ nodes ->
  (length nodes < 2 * length q1)%nat -> (length nodes < 2 * length q2)%nat -> exists n, n ∈ q1 /\ n ∈ q2.
Proof.
  intros H1 H2 S1 S2 L1 L2. destruct (filter (fun n => n ∈ q2) q1) as [|n l] eqn:E.
  - exfalso. assert (NoDup (q1 ++ q2)) as Hnd.
    { apply NoDup_app. split_and!; auto. intros n Hn Hn2. apply (filter_nil_not_elem_of _ q1 n E Hn2 Hn). }
    assert (q1 ++ q2 ⊆+ nodes) as Hsub.
    { apply NoDup_submseteq; [done|]. intros n [Hn|Hn]%elem_of_app; [by apply S1|by apply S2]. }
    apply submseteq_length in Hsub. rewrite length_app in Hsub. lia.
  - exists n. assert (n ∈ filter (fun n => n ∈ q2) q1) as Hn by (rewrite E; by left).
    by apply list_elem_of_filter in Hn as [? ?].
Qed.

(** ** Properties *)

(** C30. Election safety: in a cluster whose nodes each run the state machine,
    with whatever stored terms and votes they started from, no two candidates
    have the votes of a majority in one term; so when a node becomes leader
    only with a majority behind it, no term has two leaders. *)
Theorem raft_election_safety (nodes : list str) (state : str -> RaftState) (votes : str -> list (Z * str))
    (term0 : str -> Z) (vote0 : str -> str)
    (Hids : forall n, n ∈ nodes -> n <> [] /\ 0 <= term0 n < 2 ^ 64)
    (Hruns : forall n, n ∈ nodes -> reachable n (term0 n) (vote0 n) (state n) (votes n)) :
  (forall t a b, elected nodes votes t a -> elected nodes votes t b -> a = b) /\
  ((forall n, n ∈ nodes -> role (state n) = kLeader -> elected nodes votes (current_term (state n)) n) ->
   forall a b, a ∈ nodes -> b ∈ nodes -> role (state a) = kLeader -> role (state b) = kLeader ->
     current_term (state a) = current_term (state b) -> a = b).
Proof.
  assert (forall t a b, elected nodes votes t a -> elected nodes votes t b -> a = b) as Hsafe.
  { intros t a b (q1 & N1 & S1 & L1 & V1) (q2 & N2 & S2 & L2 & V2).
    destruct (majorities_meet nodes q1 q2 N1 N2 S1 S2 L1 L2) as (n & Hn1 & Hn2).
    destruct (Hids n (S1 n Hn1)) as [Hid Ht].
    apply (ri_unique _ _ _ (raft_inv_reachable _ _ _ _ _ Hid Ht (Hruns n (S1 n Hn1))) t); auto. }
  split; [done|]. intros Hlead a b Ha Hb Ra Rb Et. apply (Hsafe (current_term (state a))); [by apply Hlead|].
  rewrite Et. by apply Hlead.
Qed.

(** A node votes for at most one candidate per term: among all the votes it
    ever casts (its self-votes as a candidate, the votes it grants, and the
    stored vote it restarts with), two of one term are for one candidate, and
    none is for a term above the current one. *)
Theorem raft_one_vote_per_term self_id term vote s votes :
  self_id <> [] -> 0 <= term < 2 ^ 64 -> reachable self_id term vote s votes ->
  (forall t c c', (t, c) ∈ votes -> (t, c') ∈ votes -> c = c') /\
  (forall t c, (t, c) ∈ votes -> t <= current_term_ s).
Proof.
  intros Hid Ht H. destruct (raft_inv_reachable _ _ _ _ _ Hid Ht H). auto.
Qed.

(** A node is a candidate or a leader only of a term in which it voted for
    itself, its vote is still its own, no other candidate got its vote of that
    term, and a leader knows itself as the leader. *)
Theorem raft_leader_voted_for_self self_id term vote s votes :
  self_id <> [] -> 0 <= term < 2 ^ 64 -> reachable self_id term vote s votes ->
  current_role_ s <> kFollower ->
  voted_for_ s = self_id /\ (current_term_ s, self_id) ∈ votes /\
  (forall c, (current_term_ s, c) ∈ votes -> c = self_id) /\
  (current_role_ s = kLeader -> leader_id_ s = self_id).
Proof.
  intros Hid Ht H Hr. destruct (raft_inv_reachable _ _ _ _ _ Hid Ht H) as [_ _ _ Hc _ Hs Hl].
  destruct (Hs Hr) as [Hv Hin]. split_and!; auto. intros c Hx. destruct (Hc c Hx). congruence.
Qed.

(** Over any run the term never goes back, and while it stays the same a
    vote once recorded is not changed. *)
Theorem raft_term_monotone s s' :
  0 <= current_term_ s < 2 ^ 64 -> rtc (fun x y => exists v, step x v y) s s' ->
  current_term_ s <= current_term_ s' < 2 ^ 64 /\
  (current_term_ s' = current_term_ s -> voted_for_ s <> [] -> voted_for_ s' = voted_for_ s).
Proof.
  intros Ht. induction 1 as [|x y z [v Hstep] _ IH]; [split; [lia|done]|].
  destruct Hstep as [s0 c s1 v Hc E].
  destruct (perform_term _ _ _ _ Ht Hc E) as [H1 H2]. destruct IH as [H3 H4]; [lia|]. split; [lia|].
  intros Et Hne. assert (current_term_ s1 = current_term_ s0) as Et' by lia.
  rewrite H4; [auto|lia|]. by rewrite (H2 Et' Hne).
Qed.

(** ** A run *)

(** A restarted node that had voted for [b] in term 4: it refuses [c], runs
    for term 5, wins, and steps down on seeing term 7, where it votes for [c]. *)
Definition run_calls : list call :=
  [CallSetCallback true; CallGrantVote (lit "b"); CallGrantVote (lit "c"); CallCandidate; CallLeader;
   CallGrantVote (lit "c"); CallStepDown 7 (lit "d"); CallGrantVote (lit "c")].

Fixpoint run (s : RaftState) (votes : list (Z * str)) (cs : list call) : RaftState * list (Z * str) :=
  match cs with
  | [] => (s, votes)
  | c :: rest => let '(s', v) := perform s c in run s' (match v with Some x => x :: votes | None => votes end) rest
  end.

Definition run_start : RaftState := LoadState (RaftState_new (lit "a")) 4 (lit "b").

Lemma run_reachable self_id term vote s votes cs s' votes' :
  reachable self_id term vote s votes ->
  (forall k, match cs !! k with
        | Some c => call_ok (run s votes (take k cs)).1 c
        | None => True
        end) ->
  run s votes cs = (s', votes') -> reachable self_id term vote s' votes'.
Proof.
  revert s votes. induction cs as [|c cs IH]; intros s votes Hr Hok; cbn [run].
  - by intros [= <- <-].
  - destruct (perform s c) as [s1 v] eqn:E. intros Hrun.
    eapply (IH s1); [ | |exact Hrun].
    + eapply reach_step; [exact Hr|]. apply (step_call s c); [exact (Hok 0%nat)|done].
    + intros k. specialize (Hok (S k)). cbn [lookup list_lookup take firstn] in Hok. 
      cbn [run] in Hok. by rewrite E in Hok.
Qed.

Example run_result :
  run run_start [(4, lit "b")] run_calls =
    (mkRaft kFollower 7 (lit "c") (lit "d") (lit "a") true,
     [(7, lit "c"); (5, lit "a"); (4, lit "b"); (4, lit "b")]).
Proof. by vm_compute. Qed.

(** The callback is told of an election that is repeated, where the role does
    not change. *)
Example callback_without_role_change :
  (TransitionToCandidate (mkRaft kCandidate 3 (lit "a") [] (lit "a") true)).2 = Some (kCandidate, kCandidate).
Proof. reflexivity. Qed.

Lemma run_calls_reachable k :
  (k <= 8)%nat ->
  let '(s, votes) := run run_start [(4, lit "b")] (take k run_calls) in reachable (lit "a") 4 (lit "b") s votes.
Proof.
  intros Hk. destruct (run run_start _ (take k run_calls)) as [s votes] eqn:E.
  eapply (run_reachable _ _ _ run_start [(4, lit "b")]); [exact (reach_start (lit "a") 4 (lit "b")) | |exact E].
  intros i. do 9 (destruct k as [|k]; [do 9 (destruct i as [|i]; [vm_compute; (done || split; done)|]); done|]). lia.
Qed.

Lemma raft_one_vote_per_term_witness : 5 <= 7.
Proof.
  destruct (raft_one_vote_per_term (lit "a") 4 (lit "b") _ _ ltac:(discriminate) ltac:(lia)
    (run_calls_reachable 8 ltac:(lia))) as [_ H].
  apply (H 5 (lit "a")). vm_compute. by right; left.
Defined.

Lemma raft_leader_voted_for_self_witness :
  leader_id_ (run run_start [(4, lit "b")] (take 6 run_calls)).1 = lit "a".
Proof.
  destruct (raft_leader_voted_for_self (lit "a") 4 (lit "b") _ _ ltac:(discriminate) ltac:(lia)
    (run_calls_reachable 6 ltac:(lia)) ltac:(vm_compute; discriminate)) as (_ & _ & _ & H).
  apply H. reflexivity.
Defined.

Lemma raft_term_monotone_witness :
  4 <= current_term_ (perform run_start (CallStepDown 9 [])).1.
Proof.
  apply (raft_term_monotone run_start); [vm_compute; split; done|].
  eapply rtc_l; [|apply rtc_refl]. exists None. apply (step_call _ (CallStepDown 9 [])); [split; done|reflexivity].
Defined.

(** Three nodes: [a] runs for term 1, [b] votes for it, [c] has seen nothing. *)
Definition cluster_calls (n : str) : list call :=
  if decide (n = lit "a") then [CallCandidate; CallLeader]
  else if decide (n = lit "b") then [CallStepDown 1 []; CallGrantVote (lit "a")] else [].

Definition cluster_run (n : str) : RaftState * list (Z * str) :=
  run (LoadState (RaftState_new n) 0 []) [] (cluster_calls n).

Lemma cluster_reachable n : n ∈ [lit "a"; lit "b"; lit "c"] -> reachable n 0 [] (cluster_run n).1 (cluster_run n).2.
Proof.
  intros Hn. unfold cluster_run. destruct (run _ _ (cluster_calls n)) as [s votes] eqn:E. cbn [fst snd].
  apply (run_reachable n 0 [] (LoadState (RaftState_new n) 0 []) [] (cluster_calls n)); [apply (reach_start n 0 [])| |exact E].
  clear E s votes. repeat (apply elem_of_cons in Hn as [-> | Hn]); [| | |by apply not_elem_of_nil in Hn];
    intros k; (do 3 (destruct k as [|k]; [vm_compute; (done || split; done)|])); done.
Qed.

Lemma raft_election_safety_witness :
  role (cluster_run (lit "a")).1 = kLeader /\
  forall b, elected [lit "a"; lit "b"; lit "c"] (fun n => (cluster_run n).2) 1 b -> lit "a" = b.
Proof.
  split; [vm_compute; reflexivity|]. intros b Hb.
  refine (proj1 (raft_election_safety [lit "a"; lit "b"; lit "c"] (fun n => (cluster_run n).1) (fun n => (cluster_run n).2)
            (fun _ => 0) (fun _ => []) _ _) 1 (lit "a") b _ Hb).
  - intros n Hn. split; [|lia]. intros ->. vm_compute in Hn. repeat (apply elem_of_cons in Hn as [Hn|Hn]; [discriminate Hn|]).
    by apply not_elem_of_nil in Hn.
  - apply cluster_reachable.
  - exists [lit "a"; lit "b"]. split_and!.
    + apply (bool_decide_eq_true_1 (NoDup _)). vm_compute. reflexivity.
    + intros n Hn. apply elem_of_cons in Hn as [-> |Hn]; [by left|]. apply list_elem_of_singleton in Hn as ->. by right; left.
    + cbn. lia.
    + intros n Hn. apply elem_of_cons in Hn as [-> |Hn]; [|apply list_elem_of_singleton in Hn as ->];
        apply (bool_decide_eq_true_1 (_ ∈ _)); vm_compute; reflexivity.
Defined.
