(* ===== verification/Clock.v ===== *)
(** * [Clock], [FakeClock] and the hybrid logical clock [HLC]

    Models src/src/common/clock.  The abstract class [Clock] is the type class
    [Clock]; [FakeClock] and [PhysicalClock] are instances, and the theorems
    about [HLC] hold for every clock.  The time of the operating system and how
    much longer than asked a sleep takes are part of the state of a
    [PhysicalClock].  A node owns one [HLC], whose methods hold its mutex, so a
    call is atomic.

    The properties: the packed 64-bit arithmetic implements the hybrid logical
    clock algorithm on (physical, logical) pairs, and the timestamps of a run of
    several nodes that exchange them respect causality, while the physical time
    fits its 48 bits and the logical counter its 16. *)

From S2P Require Import Prelude.

(** ** The interface *)

(** The state of a clock, what it reads, and a sleep. *)
Class Clock (C : Type) := {
  NowMicros : C -> Z;
  SleepForMicros : C -> Z -> C
}.

(** ** [FakeClock] *)

Record FakeClock : Set := mkFakeClock { current_micros_ : Z }.

Definition FakeClock_new (start_micros : Z) : FakeClock := mkFakeClock (u64 start_micros).

Definition FakeClock_NowMicros (c : FakeClock) : Z := current_micros_ c.

(** [fetch_add] on an unsigned atomic wraps around. *)
Definition FakeClock_Advance (c : FakeClock) (micros : Z) : FakeClock :=
  mkFakeClock (u64 (current_micros_ c + micros)).

Definition FakeClock_SleepForMicros (c : FakeClock) (micros : Z) : FakeClock := FakeClock_Advance c micros.

#[export] Instance FakeClock_Clock : Clock FakeClock := {|
  NowMicros := FakeClock_NowMicros;
  SleepForMicros := FakeClock_SleepForMicros
|}.

(** ** [PhysicalClock] *)

(** What [system_clock::now()] reads, in nanoseconds since the epoch, and by how
    many nanoseconds each coming sleep is too long. *)
Record PhysicalClock : Set := mkPhysicalClock { system_nanos : Z; oversleep : list Z }.

(** [duration_cast] truncates towards zero; the count becomes unsigned. *)
Definition PhysicalClock_NowMicros (c : PhysicalClock) : Z := u64 (Z.quot (system_nanos c) 1000).

(** [std::chrono::microseconds] counts with a signed 64-bit integer; a duration
    that is not positive does not sleep. *)
Definition PhysicalClock_SleepForMicros (c : PhysicalClock) (micros : Z) : PhysicalClock :=
  let d := if 2 ^ 63 <=? micros then micros - 2 ^ 64 else micros in
  if d <=? 0 then c
  else mkPhysicalClock (system_nanos c + d * 1000 + default 0 (head (oversleep c))) (tail (oversleep c)).

#[export] Instance PhysicalClock_Clock : Clock PhysicalClock := {|
  NowMicros := PhysicalClock_NowMicros;
  SleepForMicros := PhysicalClock_SleepForMicros
|}.

(** A sleep advances the reading by at least what was asked. *)
Lemma physical_sleep_advances c micros :
  0 <= system_nanos c -> 0 <= micros < 2 ^ 63 -> Forall (fun d => 0 <= d) (oversleep c) ->
  system_nanos (PhysicalClock_SleepForMicros c micros) < 2 ^ 63 ->
  PhysicalClock_NowMicros c + micros <= PhysicalClock_NowMicros (PhysicalClock_SleepForMicros c micros).
Proof.
  intros Hc Hm Ho. unfold PhysicalClock_NowMicros, PhysicalClock_SleepForMicros.
  rewrite (proj2 (Z.leb_gt (2 ^ 63) micros)) by lia. cbn beta iota zeta.
  destruct (Z.leb_spec micros 0); cbn [system_nanos].
  - intros Hb. assert (micros = 0) as -> by lia. lia.
  - assert (0 <= default 0 (head (oversleep c))) as Hd by (by destruct Ho).
    intros Hb. rewrite !Z.quot_div_nonneg by lia. rewrite !u64_small.
    + rewrite <-Z.div_add by lia. apply Z.div_le_mono; lia.
    + split; [apply Z.div_pos; lia|]. apply Z.div_lt_upper_bound; lia.
    + split; [apply Z.div_pos; lia|]. apply Z.div_lt_upper_bound; lia.
Qed.

(** ** [HLC] *)

(** [current_time_]: the packed time. *)
Definition HLC : Set := Z.

Definition HLC_new : HLC := 0.

Definition GetPhysicalTime (hlc_time : Z) : Z := Z.shiftr hlc_time 16.

Definition GetLogicalTime (hlc_time : Z) : Z := Z.land hlc_time 0xFFFF.

Section Hlc.
  Context {C : Type} `{Clock C}.

(** [HLC::Now]: the new state is also the result. *)
Definition HLC_Now (clock : C) (current_time_ : HLC) : HLC :=
  let physical_time := NowMicros clock in
  let current_physical := GetPhysicalTime current_time_ in
  let current_logical := GetLogicalTime current_time_ in
  if current_physical <? physical_time
  then Z.lor (u64 (Z.shiftl physical_time 16)) 0
  else Z.lor (u64 (Z.shiftl current_physical 16)) (u64 (current_logical + 1)).

Definition HLC_Update (clock : C) (current_time_ : HLC) (remote_time : Z) : HLC :=
  let physical_time := NowMicros clock in
  let current_physical := GetPhysicalTime current_time_ in
  let current_logical := GetLogicalTime current_time_ in
  let remote_physical := GetPhysicalTime remote_time in
  let remote_logical := GetLogicalTime remote_time in
  let max_physical := Z.max physical_time (Z.max current_physical remote_physical) in
  if (max_physical =? physical_time) && ((current_physical <? physical_time) && (remote_physical <? physical_time))
  then Z.lor (u64 (Z.shiftl physical_time 16)) 0
  else
    let max_logical := 0 in
    let max_logical := if max_physical =? current_physical then Z.max max_logical current_logical else max_logical in
    let max_logical := if max_physical =? remote_physical then Z.max max_logical remote_logical else max_logical in
    Z.lor (u64 (Z.shiftl max_physical 16)) (u64 (max_logical + 1)).

End Hlc.

(** ** Packing *)

(** The two fields of a packed time. *)
Definition unpack (t : Z) : Z * Z := (GetPhysicalTime t, GetLogicalTime t).

Lemma physical_div t : GetPhysicalTime t = t / 2 ^ 16.
Proof. apply Z.shiftr_div_pow2. lia. Qed.

Lemma logical_mod t : GetLogicalTime t = t mod 2 ^ 16.
Proof. apply (land_ones_mod t 16). lia. Qed.

Lemma unpack_range t : 0 <= t < 2 ^ 64 -> 0 <= GetPhysicalTime t < 2 ^ 48 /\ 0 <= GetLogicalTime t < 2 ^ 16.
Proof.
  intros Ht. rewrite physical_div, logical_mod. split; [|apply Z.mod_pos_bound; lia].
  split; [apply Z.div_pos; lia|]. apply Z.div_lt_upper_bound; lia.
Qed.

Lemma pack_unpack t : t = GetPhysicalTime t * 2 ^ 16 + GetLogicalTime t.
Proof. rewrite physical_div, logical_mod. rewrite Z.mul_comm. apply Z.div_mod. lia. Qed.

Lemma unpack_pack p l : 0 <= l < 2 ^ 16 -> unpack (p * 2 ^ 16 + l) = (p, l).
Proof.
  intros Hl. unfold unpack. rewrite physical_div, logical_mod. f_equal.
  - rewrite Z.div_add_l by lia. rewrite Z.div_small by lia. lia.
  - rewrite Z.add_comm, Z.mod_add by lia. by apply Z.mod_small.
Qed.

Lemma shift_small p : 0 <= p < 2 ^ 48 -> u64 (Z.shiftl p 16) = p * 2 ^ 16.
Proof. intros Hp. rewrite Z.shiftl_mul_pow2 by lia. apply u64_small. lia. Qed.

(** The fields do not overlap while the logical part fits its 16 bits. *)
Lemma pack_small p l : 0 <= p < 2 ^ 48 -> 0 <= l < 2 ^ 16 -> Z.lor (u64 (Z.shiftl p 16)) l = p * 2 ^ 16 + l.
Proof.
  intros Hp Hl. rewrite shift_small by lia. symmetry. apply Z.add_nocarry_lor. apply Z.bits_inj_iff'. intros n Hn.
  rewrite Z.land_spec, Z.bits_0. destruct (Z.lt_ge_cases n 16).
  - by rewrite Z.mul_pow2_bits_low by lia.
  - rewrite (bits_high l 16 n) by lia. apply andb_false_r.
Qed.

(** A logical part of 2^16 falls on the lowest bit of the physical part: it
    carries only when that bit is clear. *)
Lemma pack_overflow p :
  0 <= p < 2 ^ 48 -> Z.lor (u64 (Z.shiftl p 16)) (2 ^ 16) = (if Z.odd p then p else p + 1) * 2 ^ 16.
Proof.
  intros Hp. rewrite shift_small by lia. rewrite <-(Z.mul_1_l (2 ^ 16)) at 2.
  rewrite <-!Z.shiftl_mul_pow2, <-Z.shiftl_lor by lia. f_equal.
  destruct (Z.odd p) eqn:E.
  - apply Z.bits_inj_iff'. intros n Hn. rewrite Z.lor_spec. destruct (decide (n = 0)) as [->|Hne].
    + by rewrite Z.bit0_odd, E.
    + change 1 with (2 ^ 0). rewrite Z.pow2_bits_false by lia. apply orb_false_r.
  - symmetry. apply Z.add_nocarry_lor. apply Z.bits_inj_iff'. intros n Hn. rewrite Z.land_spec, Z.bits_0.
    destruct (decide (n = 0)) as [->|Hne].
    + by rewrite Z.bit0_odd, E.
    + change 1 with (2 ^ 0). rewrite Z.pow2_bits_false by lia. apply andb_false_r.
Qed.

(** ** The algorithm on pairs *)

(** The hybrid logical clock on a physical part [l] and a counter [c]: a local
    event, and a message with time [(ml, mc)]. *)
Definition hlc_now_spec (pt : Z) (t : Z * Z) : Z * Z :=
  let '(l, c) := t in if l <? pt then (pt, 0) else (l, c + 1).

Definition hlc_update_spec (pt : Z) (t m : Z * Z) : Z * Z :=
  let '(l, c) := t in
  let '(ml, mc) := m in
  let l' := Z.max pt (Z.max l ml) in
  (l', if (l' =? l) && (l' =? ml) then Z.max c mc + 1
       else if l' =? l then c + 1
       else if l' =? ml then mc + 1
       else 0).

(** The order of packed times is the lexicographic order of the pairs. *)
Definition pair_lt (a b : Z * Z) : Prop := a.1 < b.1 \/ a.1 = b.1 /\ a.2 < b.2.

Lemma pair_lt_packed t t' :
  0 <= t < 2 ^ 64 -> 0 <= t' < 2 ^ 64 -> pair_lt (unpack t) (unpack t') -> t < t'.
Proof.
  intros Ht Ht'. destruct (unpack_range t Ht), (unpack_range t' Ht').
  rewrite (pack_unpack t), (pack_unpack t') at 2. rewrite <-!pack_unpack.
  unfold pair_lt, unpack. cbn [fst snd]. pose proof (pack_unpack t). pose proof (pack_unpack t').
  intros [Hl| [Hl Hc]]; nia.
Qed.

Lemma now_spec_lt pt t : pair_lt t (hlc_now_spec pt t).
Proof.
  destruct t as [l c]. unfold hlc_now_spec, pair_lt. destruct (Z.ltb_spec l pt); cbn [fst snd]; lia.
Qed.

Lemma update_spec_lt pt t m : pair_lt t (hlc_update_spec pt t m) /\ pair_lt m (hlc_update_spec pt t m).
Proof.
  destruct t as [l c], m as [ml mc]. unfold hlc_update_spec, pair_lt. cbn [fst snd].
  destruct (Z.eqb_spec (Z.max pt (Z.max l ml)) l), (Z.eqb_spec (Z.max pt (Z.max l ml)) ml); cbn [andb]; lia.
Qed.

Section Refinement.
  Context {C : Type} `{Clock C}.
  Variables (clock : C) (cur : Z).
  Hypothesis Hcur : 0 <= cur < 2 ^ 64.
  Hypothesis Hclock : 0 <= NowMicros clock < 2 ^ 48.

Lemma now_refines :
  GetLogicalTime cur < 0xFFFF -> unpack (HLC_Now clock cur) = hlc_now_spec (NowMicros clock) (unpack cur) /\
  0 <= HLC_Now clock cur < 2 ^ 64.
Proof.
  intros Hl. destruct (unpack_range cur Hcur) as [Hp Hl']. unfold HLC_Now, hlc_now_spec, unpack at 2.
  destruct (_ <? _).
  - rewrite pack_small by lia. rewrite unpack_pack by lia. split; [done|lia].
  - rewrite (u64_small (_ + 1)), pack_small by lia. rewrite unpack_pack by lia. split; [done|lia].
Qed.

Lemma update_refines remote :
  0 <= remote < 2 ^ 64 -> GetLogicalTime cur < 0xFFFF -> GetLogicalTime remote < 0xFFFF ->
  unpack (HLC_Update clock cur remote) = hlc_update_spec (NowMicros clock) (unpack cur) (unpack remote) /\
  0 <= HLC_Update clock cur remote < 2 ^ 64.
Proof.
  intros Hr Hl Hrl. destruct (unpack_range cur Hcur) as [Hp Hl'], (unpack_range remote Hr) as [Hrp Hrl'].
  unfold HLC_Update, hlc_update_spec, unpack at 2 3. cbv zeta.
  set (pt := NowMicros clock) in *. set (m := Z.max pt (Z.max (GetPhysicalTime cur) (GetPhysicalTime remote))).
  assert (0 <= m < 2 ^ 48) as Hm by lia.
  destruct (Z.eqb_spec m pt), (Z.ltb_spec (GetPhysicalTime cur) pt), (Z.ltb_spec (GetPhysicalTime remote) pt),
    (Z.eqb_spec m (GetPhysicalTime cur)), (Z.eqb_spec m (GetPhysicalTime remote)); cbn [andb]; try lia;
    rewrite ?(u64_small (_ + 1)), pack_small by lia; rewrite unpack_pack by lia; (split; [f_equal; lia | lia]).
Qed.

End Refinement.

(** ** Runs of several nodes *)

Section System.
  Context {C : Type} `{Clock C}.

(** A local event, or the receipt of the timestamp of an earlier event, with
    the state of the node's physical clock at that moment (nothing relates the
    clocks of different nodes, or the readings of one). *)
Inductive event : Type :=
  | Local (node : nat) (clock : C)
  | Receive (node : nat) (clock : C) (msg : nat).

Definition event_node (e : event) : nat := match e with Local n _ | Receive n _ _ => n end.
Definition event_clock (e : event) : C := match e with Local _ c | Receive _ c _ => c end.

(** The [HLC] of every node, and the timestamps given so far in order. *)
Definition system : Type := gmap nat HLC * list Z.

Definition node_time (s : system) (n : nat) : HLC := default HLC_new (s.1 !! n).

Definition happen (s : system) (e : event) : system :=
  let tick n t := (<[n := t]> s.1, s.2 ++ [t]) in
  match e with
  | Local n c => tick n (HLC_Now c (node_time s n))
  | Receive n c msg =>
      match s.2 !! msg with
      | Some remote => tick n (HLC_Update c (node_time s n) remote)
      | None => s
      end
  end.

Definition run_events (es : list event) : system := foldl happen (∅, []) es.

Definition timestamp (es : list event) (i : nat) : option Z := (run_events es).2 !! i.

Definition event_ok (i : nat) (e : event) : Prop :=
  0 <= NowMicros (event_clock e) < 2 ^ 48 /\
  match e with Receive _ _ msg => (msg < i)%nat | Local _ _ => True end.

(** Lamport's relation: the order of one node's events and the sending of a
    message before its receipt, closed under transitivity. *)
Inductive happened_before (es : list event) : nat -> nat -> Prop :=
  | hb_node i j e f :
      (i < j)%nat -> es !! i = Some e -> es !! j = Some f -> event_node e = event_node f ->
      happened_before es i j
  | hb_message i j n c : es !! j = Some (Receive n c i) -> happened_before es i j
  | hb_trans i j k : happened_before es i j -> happened_before es j k -> happened_before es i k.

(** What holds after the events [es]: times are 64-bit with a counter of at
    most the number of events, a node's clock is not behind its events, and
    the direct cases of [happened_before] are ordered. *)
Record system_inv (es : list event) (s : system) : Prop := {
  si_length : length s.2 = length es;
  si_times : forall t, t ∈ s.2 -> 0 <= t < 2 ^ 64 /\ GetLogicalTime t <= Z.of_nat (length es);
  si_clocks : forall n, 0 <= node_time s n < 2 ^ 64 /\ GetLogicalTime (node_time s n) <= Z.of_nat (length es);
  si_node : forall i e t, es !! i = Some e -> s.2 !! i = Some t -> t <= node_time s (event_node e);
  si_order : forall i j e f t u,
    es !! i = Some e -> es !! j = Some f -> s.2 !! i = Some t -> s.2 !! j = Some u ->
    (i < j)%nat -> event_node e = event_node f \/ (exists n c, f = Receive n c i) -> t < u
}.

Lemma now_spec_counter pt t : 0 <= t.2 -> (hlc_now_spec pt t).2 <= t.2 + 1.
Proof. destruct t as [l c]. unfold hlc_now_spec. destruct (_ <? _); cbn [fst snd]; lia. Qed.

Lemma update_spec_counter pt t m : 0 <= t.2 -> 0 <= m.2 -> (hlc_update_spec pt t m).2 <= Z.max t.2 m.2 + 1.
Proof.
  destruct t as [l c], m as [ml mc]. unfold hlc_update_spec. cbn [fst snd]. repeat case_match; lia.
Qed.

(** The time given to one more event. *)
Lemma happen_time es s e :
  system_inv es s -> event_ok (length es) e -> Z.of_nat (length es) < 0xFFFF ->
  exists t, happen s e = (<[event_node e := t]> s.1, s.2 ++ [t]) /\
    0 <= t < 2 ^ 64 /\ GetLogicalTime t <= Z.of_nat (length es) + 1 /\ node_time s (event_node e) < t /\
    (forall n c i u, e = Receive n c i -> s.2 !! i = Some u -> u < t).
Proof.
  intros [Hlen Htimes Hclocks _ _] [Hpt Hmsg] Hmax.
  destruct (Hclocks (event_node e)) as [Hr Hl]. destruct (unpack_range _ Hr) as [_ Hl0].
  destruct e as [n c|n c msg]; cbn [event_node event_clock happen] in *.
  - destruct (now_refines c (node_time s n) Hr Hpt) as [E Ht]; [lia|].
    exists (HLC_Now c (node_time s n)). split_and!; try done; try apply Ht.
    + pose proof (now_spec_counter (NowMicros c) (unpack (node_time s n))) as Hc. rewrite <-E in Hc. cbn in Hc. lia.
    + apply pair_lt_packed; [assumption..|]. rewrite E. apply now_spec_lt.
  - destruct (lookup_lt_is_Some_2 s.2 msg) as [r Hmr]; [lia|]. rewrite Hmr.
    destruct (Htimes r) as [Hrr Hrl]; [by eapply list_elem_of_lookup_2|]. destruct (unpack_range _ Hrr) as [_ Hrl0].
    destruct (update_refines c (node_time s n) Hr Hpt r) as [E Ht]; [lia..|].
    pose proof (update_spec_lt (NowMicros c) (unpack (node_time s n)) (unpack r)) as [Hlt1 Hlt2].
    exists (HLC_Update c (node_time s n) r). split_and!; try done; try apply Ht.
    + pose proof (update_spec_counter (NowMicros c) (unpack (node_time s n)) (unpack r)) as Hc.
      rewrite <-E in Hc. cbn in Hc. lia.
    + apply pair_lt_packed; [assumption..|]. by rewrite E.
    + intros ? ? ? u [= <- <- <-] Hu. rewrite Hmr in Hu. injection Hu as <-.
      apply pair_lt_packed; [assumption..|]. by rewrite E.
Qed.

Lemma system_inv_happen es s e :
  system_inv es s -> event_ok (length es) e -> Z.of_nat (length es) < 0xFFFF -> system_inv (es ++ [e]) (happen s e).
Proof.
  intros I He Hmax. destruct (happen_time es s e I He Hmax) as (t & -> & Ht & Hl & Hnode & Hrcv).
  destruct I as [Hlen Htimes Hclocks Hn Ho].
  assert (forall n, node_time (<[event_node e := t]> s.1, s.2 ++ [t]) n =
               if decide (event_node e = n) then t else node_time s n) as Hnt.
  { intros n. unfold node_time. cbn [fst]. rewrite lookup_insert. by destruct (decide _). }
  constructor; cbn [snd]; rewrite ?length_app; cbn [length].
  - lia.
  - intros u [Hu| ->%list_elem_of_singleton]%elem_of_app; [|lia]. destruct (Htimes u Hu). lia.
  - intros n. rewrite Hnt. destruct (decide _); [lia|]. destruct (Hclocks n). lia.
  - intros i f u Hf Hu. rewrite Hnt. apply lookup_snoc_Some in Hf, Hu.
    destruct Hf as [[Hi Hf]|[Hi <-]], Hu as [[Hi' Hu]|[Hi' <-]]; try lia.
    + specialize (Hn _ _ _ Hf Hu). destruct (decide _) as [Ee|]; [rewrite <-Ee in Hn|]; lia.
    + rewrite decide_True by done. lia.
  - intros i j e1 f u v He1 Hf Hu Hv Hij Hcase. apply lookup_snoc_Some in He1, Hf, Hu, Hv.
    destruct He1 as [[_ He1]|[? _]]; [|lia]. destruct Hu as [[_ Hu]|[? _]]; [|lia].
    destruct Hf as [[? Hf]|[? <-]], Hv as [[? Hv]|[? <-]]; try lia.
    + by apply (Ho i j e1 f).
    + destruct Hcase as [Ee|(n & c & ->)]; [|by eapply Hrcv].
      specialize (Hn _ _ _ He1 Hu). rewrite Ee in Hn. lia.
Qed.

Lemma run_events_inv es :
  (forall i e, es !! i = Some e -> event_ok i e) -> Z.of_nat (length es) <= 0xFFFF ->
  system_inv es (run_events es).
Proof.
  induction es as [|e es IH] using rev_ind; intros Hok Hlen.
  - constructor; [done|by intros ? ?%not_elem_of_nil|by intros n; vm_compute|done..].
  - unfold run_events. rewrite foldl_app. cbn [foldl]. rewrite length_app in Hlen. cbn [length] in Hlen.
    apply system_inv_happen; [apply IH| |lia].
    + intros i f Hf. apply Hok. by apply lookup_app_l_Some.
    + lia.
    + apply Hok. by rewrite list_lookup_middle.
Qed.

(** C31. Timestamps respect causality: over any run of any number of nodes, in
    which each event is local or receives the timestamp of an earlier one, an
    event that happened before another has a strictly smaller timestamp,
    whatever the physical clocks read.  The physical times fit 48 bits and
    there are at most 65535 events, so that the 16-bit counters cannot
    overflow. *)
Theorem hlc_causal es :
  (forall i e, es !! i = Some e -> event_ok i e) -> Z.of_nat (length es) <= 0xFFFF ->
  forall i j, happened_before es i j ->
  exists t u, timestamp es i = Some t /\ timestamp es j = Some u /\ t < u.
Proof.
  intros Hok Hlen. destruct (run_events_inv es Hok Hlen) as [Hl _ _ _ Ho].
  assert (forall i e, es !! i = Some e -> exists t, timestamp es i = Some t) as Hts.
  { intros i e Hi. apply lookup_lt_is_Some_2. rewrite Hl. by eapply lookup_lt_Some. }
  induction 1 as [i j e f Hij He Hf Hn|i j n c Hj|i j k _ (t & u & Ht & Hu & ?) _ (u' & v & Hu' & Hv & ?)].
  - destruct (Hts _ _ He) as [t Ht], (Hts _ _ Hf) as [u Hu]. exists t, u. split_and!; [done..|].
    apply (Ho i j e f); auto.
  - destruct (Hok _ _ Hj) as [_ Hij]. cbn in Hij.
    destruct (lookup_lt_is_Some_2 es i) as [e He]; [apply lookup_lt_Some in Hj; lia|].
    destruct (Hts _ _ He) as [t Ht], (Hts _ _ Hj) as [u Hu]. exists t, u. split_and!; [done..|].
    apply (Ho i j e (Receive n c i)); eauto.
  - exists t, v. rewrite Hu in Hu'. injection Hu' as <-. split_and!; [done..|lia].
Qed.

End System.

(** ** Properties of one clock *)

Section OneClock.
  Context {C : Type} `{Clock C}.

(** C32. While both counters are below their 16-bit limit and the reading fits
    48 bits, [Now] and [Update] on packed times are the hybrid logical clock
    algorithm on pairs, and the results are above the node's time and, for
    [Update], above the received one. *)
Theorem hlc_refines (clock : C) (cur remote : Z) :
  0 <= cur < 2 ^ 64 -> 0 <= remote < 2 ^ 64 -> 0 <= NowMicros clock < 2 ^ 48 ->
  GetLogicalTime cur < 0xFFFF -> GetLogicalTime remote < 0xFFFF ->
  unpack (HLC_Now clock cur) = hlc_now_spec (NowMicros clock) (unpack cur) /\
  unpack (HLC_Update clock cur remote) = hlc_update_spec (NowMicros clock) (unpack cur) (unpack remote) /\
  cur < HLC_Now clock cur /\ cur < HLC_Update clock cur remote /\ remote < HLC_Update clock cur remote.
Proof.
  intros Hc Hr Hpt Hlc Hlr. destruct (now_refines clock cur Hc Hpt Hlc) as [En Hn].
  destruct (update_refines clock cur Hc Hpt remote Hr Hlc Hlr) as [Eu Hu].
  pose proof (update_spec_lt (NowMicros clock) (unpack cur) (unpack remote)) as [H1 H2].
  split_and!; [done|done|apply pair_lt_packed..]; rewrite ?En, ?Eu; auto using now_spec_lt.
Qed.

(** When [Now] advances, exactly: with a reading that fits 48 bits the new
    time is above the old one unless the reading is not ahead, the counter is
    full and the physical part is odd; then the carry is lost and the time goes
    back to the start of that microsecond. *)
Theorem hlc_now_advances_iff (clock : C) (cur : Z) :
  0 <= cur < 2 ^ 64 -> 0 <= NowMicros clock < 2 ^ 48 ->
  (cur < HLC_Now clock cur <->
   ~ (NowMicros clock <= GetPhysicalTime cur /\ GetLogicalTime cur = 0xFFFF /\ Z.odd (GetPhysicalTime cur) = true)).
Proof.
  intros Hc Hpt. destruct (unpack_range cur Hc) as [Hp Hl]. pose proof (pack_unpack cur) as E.
  destruct (decide (GetLogicalTime cur = 0xFFFF)) as [Ef|Hne].
  - unfold HLC_Now. destruct (Z.ltb_spec (GetPhysicalTime cur) (NowMicros clock)).
    + rewrite pack_small by lia. split; [lia|]. intros _. lia.
    + rewrite Ef. change (u64 (0xFFFF + 1)) with (2 ^ 16). rewrite pack_overflow by lia.
      destruct (Z.odd _); split; try lia.
  - split; [lia|]. intros _. destruct (now_refines clock cur Hc Hpt) as [En Hn]; [lia|].
    apply pair_lt_packed; [assumption..|]. rewrite En. apply now_spec_lt.
Qed.

(** C33. A reading that does not fit 48 bits (every real time in microseconds
    after 1978) is always above the stored physical part: [Now] gives the
    truncated reading with a zero counter, [Update] gives the same whatever it
    receives, and so two calls at one reading give one timestamp. *)
Theorem hlc_wide_reading_stalls (clock : C) (cur remote : Z) :
  0 <= cur < 2 ^ 64 -> 0 <= remote < 2 ^ 64 -> 2 ^ 48 <= NowMicros clock < 2 ^ 64 ->
  HLC_Now clock cur = NowMicros clock mod 2 ^ 48 * 2 ^ 16 /\
  HLC_Update clock cur remote = HLC_Now clock cur /\
  HLC_Now clock (HLC_Now clock cur) = HLC_Now clock cur.
Proof.
  intros Hc Hr Hpt.
  assert (forall t, 0 <= t < 2 ^ 64 -> HLC_Now clock t = NowMicros clock mod 2 ^ 48 * 2 ^ 16) as Hnow.
  { intros t Ht. destruct (unpack_range t Ht) as [Hp _]. unfold HLC_Now.
    rewrite (proj2 (Z.ltb_lt _ _)), Z.lor_0_r by lia. unfold u64. rewrite Z.shiftl_mul_pow2 by lia.
    change (2 ^ 64) with (2 ^ 48 * 2 ^ 16). by rewrite Z.mul_mod_distr_r by lia. }
  pose proof (Z.mod_pos_bound (NowMicros clock) (2 ^ 48) ltac:(lia)).
  split_and!; [auto| |rewrite (Hnow cur Hc); apply Hnow; lia].
  destruct (unpack_range cur Hc) as [Hp _], (unpack_range remote Hr) as [Hrp _].
  unfold HLC_Update, HLC_Now. cbv zeta.
  rewrite (proj2 (Z.eqb_eq _ _)), !(proj2 (Z.ltb_lt _ (NowMicros clock))) by lia. done.
Qed.

End OneClock.

(** ** Concrete runs *)

Definition at_time (t : Z) : FakeClock := FakeClock_new t.

(** Node 1 is fast; node 0 receives its time and goes on from it. *)
Definition demo_events : list (event (C := FakeClock)) :=
  [Local 0 (at_time 10); Local 1 (at_time 900); Receive 0 (at_time 12) 1; Local 0 (at_time 15);
   Local 0 (FakeClock_SleepForMicros (at_time 15) 2000)].

Example demo_timestamps :
  unpack <$> (run_events demo_events).2 = [(10, 0); (900, 0); (900, 1); (900, 2); (2015, 0)].
Proof. by vm_compute. Qed.

Lemma hlc_causal_witness :
  exists t u, timestamp demo_events 1 = Some t /\ timestamp demo_events 3 = Some u /\ t < u.
Proof.
  apply (hlc_causal demo_events).
  - intros i e. do 5 (destruct i as [|i]; [intros [= <-]; vm_compute; repeat split; try done; lia|]). done.
  - vm_compute. discriminate.
  - apply (hb_trans _ 1 2 3).
    + by apply (hb_message _ 1 2 0 (at_time 12)).
    + by apply (hb_node _ 2 3 (Receive 0 (at_time 12) 1) (Local 0 (at_time 15))); [lia|..].
Defined.

Lemma hlc_refines_witness :
  unpack (HLC_Update (at_time 5) (7 * 2 ^ 16 + 3) (7 * 2 ^ 16 + 8)) = (7, 9).
Proof.
  destruct (hlc_refines (at_time 5) (7 * 2 ^ 16 + 3) (7 * 2 ^ 16 + 8)) as (_ & -> & _); try (vm_compute; (done || split; done)).
Defined.

Lemma hlc_now_advances_iff_witness :
  ~ (7 * 2 ^ 16 + 0xFFFF < HLC_Now (at_time 7) (7 * 2 ^ 16 + 0xFFFF)).
Proof.
  rewrite (hlc_now_advances_iff (at_time 7) (7 * 2 ^ 16 + 0xFFFF)); [|vm_compute; split; done..].
  intros Hn. apply Hn. vm_compute. repeat split; discriminate.
Defined.

(** 1 January 2024, in microseconds. *)
Lemma hlc_wide_reading_stalls_witness :
  let clock := at_time 1704067200000000 in
  HLC_Update clock 5 (2 ^ 64 - 1) = HLC_Now clock 5.
Proof.
  assert (2 ^ 48 <= NowMicros (at_time 1704067200000000) < 2 ^ 64) as Hr by (vm_compute; split; done).
  exact (proj1 (proj2 (hlc_wide_reading_stalls (at_time 1704067200000000) 5 (2 ^ 64 - 1) ltac:(lia) ltac:(lia) Hr))).
Defined.
