(* ===== verification/Utils.v ===== *)
(** * [Hash] and [StringUtils]

    Models src/src/common/utils/hash.{h,cpp} (the FNV-1a hash) and
    src/src/common/utils/string_utils.{h,cpp} ([Split] and [Trim]).  [Split]
    is written over [std::getline], whose treatment of the end of the stream is
    modelled: a delimiter at the very end starts no further token. *)

From S2P Require Import Prelude.

(** ** [Hash::FNV1a64] *)

Definition kFnvPrime : Z := 1099511628211.

Definition kFnvOffsetBasis : Z := 14695981039346656037.

(** One turn of the loop. *)
Definition fnv_step (hash : Z) (b : byte) : Z := u64 (Z.lxor hash (Z_of_byte b) * kFnvPrime).

Definition FNV1a64 (data : bytes) : Z := foldl fnv_step kFnvOffsetBasis data.

(** The published vectors of the algorithm. *)
Example fnv_empty : FNV1a64 [] = 0xcbf29ce484222325.
Proof. reflexivity. Qed.

Example fnv_a : FNV1a64 (lit "a") = 0xaf63dc4c8601ec8c.
Proof. reflexivity. Qed.

Example fnv_foobar : FNV1a64 (lit "foobar") = 0x85944171f73967e8.
Proof. reflexivity. Qed.

(** ** [StringUtils::Split] *)

(** [std::getline(stream, token, delimiter)] on the characters left in the
    stream: the characters up to the delimiter, which is taken and dropped.  It
    fails when no character is left. *)
Fixpoint scan_line (delimiter : byte) (s : str) : str * str :=
  match s with
  | [] => ([], [])
  | c :: rest =>
      if bool_decide (c = delimiter) then ([], rest)
      else let '(token, rest') := scan_line delimiter rest in (c :: token, rest')
  end.

Definition getline (delimiter : byte) (s : str) : option (str * str) :=
  match s with
  | [] => None
  | _ => Some (scan_line delimiter s)
  end.

(** The loop; every turn takes a character at least. *)
Fixpoint Split_loop (fuel : nat) (delimiter : byte) (s : str) (tokens : list str) : option (list str) :=
  match fuel with
  | O => None
  | S fuel =>
      match getline delimiter s with
      | None => Some tokens
      | Some (token, rest) => Split_loop fuel delimiter rest (tokens ++ [token])
      end
  end.

Definition Split (s : str) (delimiter : byte) : option (list str) :=
  Split_loop (S (length s)) delimiter s [].

(** ** [StringUtils::Trim] *)

(** [std::isspace] in the C locale. *)
Definition isspace (ch : byte) : bool :=
  (Z_of_byte ch =? 0x20) || (0x09 <=? Z_of_byte ch) && (Z_of_byte ch <=? 0x0d).

(** [std::find_if_not(begin, end, isspace) - begin] *)
Fixpoint find_non_space (s : str) : nat :=
  match s with
  | [] => 0
  | c :: rest => if isspace c then S (find_non_space rest) else 0
  end.

Definition Trim (s : str) : str :=
  let start := find_non_space s in
  let end_ := (length s - find_non_space (reverse s))%nat in
  if (start <? end_)%nat then take (end_ - start) (drop start s) else [].

(** ** Lemmas *)

Lemma fnv_step_range h b : 0 <= fnv_step h b < 2 ^ 64.
Proof. apply u64_range. Qed.

(** The prime is odd, so its product is reversible modulo 2^64. *)
Lemma prime_cancel a b : 0 <= a < 2 ^ 64 -> 0 <= b < 2 ^ 64 -> u64 (a * kFnvPrime) = u64 (b * kFnvPrime) -> a = b.
Proof.
  intros Ha Hb E. assert (forall x, 0 <= x < 2 ^ 64 -> u64 (u64 (x * kFnvPrime) * 14886173955864302971) = x) as Hinv.
  { intros x Hx. unfold u64. rewrite Z.mul_mod_idemp_l, <-Z.mul_assoc by lia.
    rewrite <-Z.mul_mod_idemp_r by lia. change ((kFnvPrime * 14886173955864302971) mod 2 ^ 64) with 1.
    rewrite Z.mul_1_r. by apply Z.mod_small. }
  rewrite <-(Hinv a), <-(Hinv b), E by lia. done.
Qed.

Lemma xor_byte_range h b : 0 <= h < 2 ^ 64 -> 0 <= Z.lxor h (Z_of_byte b) < 2 ^ 64.
Proof. intros Hh. pose proof (Z_of_byte_range b). apply lxor_range; lia. Qed.

Lemma fnv_step_inj h h' b :
  0 <= h < 2 ^ 64 -> 0 <= h' < 2 ^ 64 -> fnv_step h b = fnv_step h' b -> h = h'.
Proof.
  intros Hh Hh' E. apply (lxor_cancel_r (Z_of_byte b)). apply prime_cancel; auto using xor_byte_range.
Qed.

Lemma fnv_step_byte_inj h b b' : 0 <= h < 2 ^ 64 -> fnv_step h b = fnv_step h b' -> b = b'.
Proof.
  intros Hh E. apply Z_of_byte_inj, (lxor_cancel_l h). apply prime_cancel; auto using xor_byte_range.
Qed.

Lemma fnv_fold_range h data : 0 <= h < 2 ^ 64 -> 0 <= foldl fnv_step h data < 2 ^ 64.
Proof. revert h. induction data as [|b data IH]; intros h Hh; [done|]. apply IH, fnv_step_range. Qed.

Lemma fnv_fold_inj data h h' :
  0 <= h < 2 ^ 64 -> 0 <= h' < 2 ^ 64 -> foldl fnv_step h data = foldl fnv_step h' data -> h = h'.
Proof.
  revert h h'. induction data as [|b data IH]; intros h h' Hh Hh' E; [done|].
  apply (fnv_step_inj _ _ b); auto. apply IH; auto using fnv_step_range.
Qed.

Lemma scan_line_length delimiter s : (length (scan_line delimiter s).2 <= length s)%nat.
Proof.
  induction s as [|c s IH]; cbn [scan_line]; [done|]. case_bool_decide; cbn [snd length]; [lia|].
  destruct (scan_line delimiter s). cbn [snd length] in *. lia.
Qed.

Lemma getline_length delimiter s token rest :
  getline delimiter s = Some (token, rest) -> (length rest < length s)%nat.
Proof.
  destruct s as [|c s]; [done|]. intros [= E]. cbn [scan_line] in E. case_bool_decide.
  - injection E as _ <-. cbn. lia.
  - pose proof (scan_line_length delimiter s). destruct (scan_line delimiter s). injection E as _ <-. cbn in *. lia.
Qed.

Lemma scan_line_spec delimiter s token rest :
  scan_line delimiter s = (token, rest) ->
  (delimiter ∉ token) /\ (s = token ++ delimiter :: rest \/ (s = token /\ rest = [])).
Proof.
  revert token rest. induction s as [|c s IH]; intros token rest; cbn [scan_line].
  - intros [= <- <-]. split; [apply not_elem_of_nil|auto].
  - case_bool_decide as Hc.
    + intros [= <- <-]. subst c. split; [apply not_elem_of_nil|auto].
    + destruct (scan_line delimiter s) as [t r]. intros [= <- <-].
      destruct (IH t r eq_refl) as [Ht Hs]. split; [apply not_elem_of_cons; auto|].
      destruct Hs as [-> |[-> ->]]; auto.
Qed.

(** Every token followed by the delimiter. *)
Definition terminated (delimiter : byte) (tokens : list str) : str :=
  mjoin ((fun t => t ++ [delimiter]) <$> tokens).

(** Tokens with the delimiter between them. *)
Fixpoint join (delimiter : byte) (tokens : list str) : str :=
  match tokens with
  | [] => []
  | [t] => t
  | t :: rest => t ++ delimiter :: join delimiter rest
  end.

(** What is missing at the end of the input for every token to be terminated. *)
Definition missing_delimiter (delimiter : byte) (s : str) : str :=
  if bool_decide (s = []) || bool_decide (last s = Some delimiter) then [] else [delimiter].

Lemma terminated_cons delimiter t tokens :
  terminated delimiter (t :: tokens) = t ++ delimiter :: terminated delimiter tokens.
Proof. unfold terminated. cbn. by rewrite <-app_assoc. Qed.

Lemma terminated_join delimiter tokens :
  tokens <> [] -> terminated delimiter tokens = join delimiter tokens ++ [delimiter].
Proof.
  induction tokens as [|t tokens IH]; [done|]. intros _. rewrite terminated_cons.
  destruct tokens as [|t' tokens]; [done|]. rewrite IH by done. cbn [join]. by rewrite <-app_assoc.
Qed.

Lemma app_delim_inj (d : byte) t t' r r' : d ∉ t -> d ∉ t' -> t ++ d :: r = t' ++ d :: r' -> t = t' /\ r = r'.
Proof.
  revert t'. induction t as [|c t IH]; intros [|c' t'] Ht Ht' E; cbn in E; rewrite ?not_elem_of_cons in *.
  - by injection E.
  - injection E as <- _. tauto.
  - injection E as -> _. tauto.
  - injection E as -> E. apply IH in E as [-> ->]; tauto.
Qed.

Lemma terminated_inj delimiter tokens tokens' :
  Forall (fun t => delimiter ∉ t) tokens -> Forall (fun t => delimiter ∉ t) tokens' ->
  terminated delimiter tokens = terminated delimiter tokens' -> tokens = tokens'.
Proof.
  intros H. revert tokens'. induction H as [|t tokens Ht _ IH]; intros tokens' H' E; destruct H' as [|t' tokens' Ht' H'];
    rewrite ?terminated_cons in E; [done|by destruct t'|by destruct t|].
  apply app_delim_inj in E as [-> E]; [|done..]. f_equal. by apply IH.
Qed.

Lemma missing_app delimiter t r : missing_delimiter delimiter (t ++ delimiter :: r) = missing_delimiter delimiter r.
Proof.
  unfold missing_delimiter. rewrite list.last_app_cons, (bool_decide_eq_false_2 (t ++ _ = [])) by (by destruct t).
  destruct r as [|c r]; [by rewrite bool_decide_eq_true_2|]. cbn [orb].
  by rewrite (bool_decide_eq_false_2 (c :: r = [])).
Qed.

Lemma missing_none delimiter t : t <> [] -> delimiter ∉ t -> missing_delimiter delimiter t = [delimiter].
Proof.
  intros Hne Hd. unfold missing_delimiter. rewrite bool_decide_eq_false_2 by done. cbn [orb].
  rewrite bool_decide_eq_false_2; [done|]. intros [l ->]%last_Some. set_solver.
Qed.

Lemma Split_loop_spec delimiter : forall fuel s tokens, (length s < fuel)%nat ->
  exists ts, Split_loop fuel delimiter s tokens = Some (tokens ++ ts) /\
    Forall (fun t => delimiter ∉ t) ts /\ terminated delimiter ts = s ++ missing_delimiter delimiter s.
Proof.
  induction fuel as [|fuel IH]; intros s tokens Hf; [lia|]. cbn [Split_loop].
  destruct s as [|c s]; [exists []; by rewrite app_nil_r|].
  destruct (getline delimiter (c :: s)) as [[t r]|] eqn:E; [|done].
  pose proof (getline_length _ _ _ _ E) as Hlen.
  assert (scan_line delimiter (c :: s) = (t, r)) as E' by exact (Some_inj _ _ E).
  destruct (IH r (tokens ++ [t])) as (ts & -> & Hts & Hj); [lia|].
  apply scan_line_spec in E' as [Ht Hs]. exists (t :: ts). rewrite <-app_assoc, terminated_cons, Hj.
  split_and!; [done|by constructor|]. destruct Hs as [-> |[Es ->]].
  - by rewrite missing_app, <-app_assoc.
  - rewrite Es, (missing_none delimiter t); [done| |done]. by rewrite <-Es.
Qed.

(** The result of [Split] is determined by these two facts. *)
Lemma Split_unique s delimiter tokens :
  Forall (fun t => delimiter ∉ t) tokens -> terminated delimiter tokens = s ++ missing_delimiter delimiter s ->
  Split s delimiter = Some tokens.
Proof.
  intros Hd E. destruct (Split_loop_spec delimiter (S (length s)) s []) as (ts & Hs & Hts & Ets); [lia|].
  unfold Split. rewrite Hs. cbn. f_equal. eapply terminated_inj; [done..|congruence].
Qed.

Lemma find_non_space_spec s :
  Forall (fun c => isspace c = true) (take (find_non_space s) s) /\
  (find_non_space s <= length s)%nat /\
  (forall c, head (drop (find_non_space s) s) = Some c -> isspace c = false).
Proof.
  induction s as [|c s (IH1 & IH2 & IH3)]; cbn [find_non_space]; [split_and!; [constructor|done|done]|].
  destruct (isspace c) eqn:E; cbn [take drop firstn skipn length].
  - split_and!; [by constructor|lia|done].
  - split_and!; [constructor|lia|]. by intros ? [= <-].
Qed.

(** ** Properties *)

(** [Split] terminates, its tokens have no delimiter in them and, each
    followed by the delimiter, they spell the input, to which a last delimiter
    is added only if the input is not empty and does not end in one. *)
Theorem split_tokens s delimiter :
  exists tokens, Split s delimiter = Some tokens /\
    Forall (fun t => delimiter ∉ t) tokens /\
    terminated delimiter tokens = s ++ missing_delimiter delimiter s.
Proof.
  destruct (Split_loop_spec delimiter (S (length s)) s []) as (ts & Hs & ?); [lia|]. by exists ts.
Qed.

(** Joining delimiter-free tokens and splitting gives them back, if the
    last one is not empty (an empty last token is lost); with every token
    terminated, always. *)
Theorem split_join delimiter tokens :
  Forall (fun t => delimiter ∉ t) tokens ->
  (last tokens <> Some [] -> Split (join delimiter tokens) delimiter = Some tokens) /\
  Split (terminated delimiter tokens) delimiter = Some tokens.
Proof.
  intros Hd. destruct (decide (tokens = [])) as [->|Hne]; [by split|].
  pose proof (terminated_join delimiter tokens Hne) as Ej. split; [intros Hlast|]; apply Split_unique; auto.
  - rewrite Ej. f_equal. symmetry. destruct (last tokens) as [t|] eqn:El; [|by apply last_None in El].
    apply last_Some in El as [l ->]. apply Forall_app in Hd as [_ Ht%Forall_inv].
    assert (t <> []) as Hte by congruence.
    clear Hne Ej Hlast. induction l as [|x l IH]; [exact (missing_none _ _ Hte Ht)|].
    cbn [app join]. destruct (l ++ [t]) eqn:E; [by destruct l|]. rewrite missing_app. exact IH.
  - rewrite Ej. replace (missing_delimiter _ _) with ([] : str); [by rewrite app_nil_r|].
    by rewrite missing_app.
Qed.

(** [Trim] removes white space only, and all of it: what it cuts off at
    both ends is white space, and the result neither begins nor ends with it. *)
Theorem trim_spec s :
  exists l r, s = l ++ Trim s ++ r /\
    Forall (fun c => isspace c = true) (l ++ r) /\
    (forall c, head (Trim s) = Some c -> isspace c = false) /\
    (forall c, last (Trim s) = Some c -> isspace c = false).
Proof.
  destruct (find_non_space_spec s) as (Hl & Hll & Hh), (find_non_space_spec (reverse s)) as (Hr & Hrl & Hlast).
  unfold Trim. set (a := find_non_space s) in *. set (b := find_non_space (reverse s)) in *.
  rewrite length_reverse in Hrl. rewrite take_reverse, Forall_reverse in Hr. rewrite drop_reverse, head_reverse in Hlast.
  destruct (Nat.ltb_spec a (length s - b)).
  - exists (take a s), (drop (length s - b) s). split_and!.
    + rewrite <-(take_drop a s) at 1. f_equal. rewrite <-(take_drop (length s - b - a) (drop a s)) at 1.
      rewrite drop_drop. by replace (a + (length s - b - a))%nat with (length s - b)%nat by lia.
    + by apply Forall_app.
    + intros c Hc. apply Hh. destruct (drop a s) as [|x l]; [by destruct (length s - b - a)%nat|].
      by destruct (length s - b - a)%nat eqn:E; [lia|].
    + intros c Hc. apply Hlast. rewrite take_drop_commute in Hc.
      replace (a + (length s - b - a))%nat with (length s - b)%nat in Hc by lia.
      rewrite <-(take_drop a (take _ s)), last_app. by rewrite Hc.
  - exists s, []. rewrite !app_nil_r. split_and!; [done| |done|done].
    rewrite <-(take_drop (length s - b) s). apply Forall_app. split; [|done].
    replace (length s - b)%nat with (a `min` (length s - b))%nat by lia. rewrite Nat.min_comm, <-take_take.
    by apply Forall_take.
Qed.

(** Changing one byte of the data always changes the hash: no two inputs
    that differ in exactly one position collide. *)
Theorem fnv_one_byte_change data1 data2 b b' :
  b <> b' -> FNV1a64 (data1 ++ b :: data2) <> FNV1a64 (data1 ++ b' :: data2).
Proof.
  intros Hb E. apply Hb. unfold FNV1a64 in E. rewrite !foldl_app in E. cbn [foldl] in E.
  assert (0 <= foldl fnv_step kFnvOffsetBasis data1 < 2 ^ 64) as Hh by (apply fnv_fold_range; by vm_compute).
  apply fnv_fold_inj in E; [|apply fnv_step_range..]. by apply fnv_step_byte_inj in E.
Qed.

(** ** Concrete inputs *)

Example split_drops_trailing_empty :
  Split (lit "a,,b,") (byte_of_Z 44) = Some [lit "a"; []; lit "b"].
Proof. by vm_compute. Qed.

Example trim_both_ends : Trim (lit "  a b ") = lit "a b".
Proof. by vm_compute. Qed.

Lemma split_join_witness : Split (lit "x=1;y=2") (byte_of_Z 59) = Some [lit "x=1"; lit "y=2"].
Proof.
  destruct (split_join (byte_of_Z 59) [lit "x=1"; lit "y=2"]) as [H _]; [by_vm|]. apply H. discriminate.
Defined.

Lemma fnv_one_byte_change_witness : FNV1a64 (lit "node-1/a") <> FNV1a64 (lit "node-2/a").
Proof. apply (fnv_one_byte_change (lit "node-") (lit "/a") (byte_of_Z 49) (byte_of_Z 50)). discriminate. Defined.
