(* ===== verification/ThreadPool.v ===== *)
(** * [ThreadPool]

    Models src/src/common/thread_pool/thread_pool.{h,cpp} as a machine whose
    steps are the critical sections of its threads: a client's [Enqueue] (the
    push under the mutex, and the later [notify_one]), a worker's turn of its
    loop (the predicate, the pop or the exit under the mutex; then the task
    outside it) and the destructor (setting [stop_], [notify_all], joining).
    A worker that finds nothing to do blocks on the condition variable, and
    runs again when it is notified or wakes spuriously.

    A task is an identifier: its body is the client's code.  The model keeps
    three logs, of the tasks enqueued, started and finished. *)

From S2P Require Import Prelude.

Definition task : Set := nat.

Inductive worker : Set :=
  | Checking              (* about to lock the mutex and test the predicate *)
  | Blocked               (* in condition_.wait *)
  | Running (t : task)    (* in task() *)
  | Exited.

#[export] Instance worker_eq_dec : EqDecision worker.
Proof. solve_decision. Defined.

Record ThreadPool : Set := mkPool {
  workers_ : list worker;
  tasks_ : list task;
  stop_ : bool;
  notify_one_due : nat;     (* pushes whose notify_one is still to come *)
  notify_all_due : bool;    (* the same of the destructor's notify_all *)
  enqueued : list task;
  started : list task;
  finished : list task
}.

Definition ThreadPool_new (num_threads : nat) : ThreadPool :=
  mkPool (replicate num_threads Checking) [] false 0 false [] [] [].

(** The block of [Enqueue] under the lock; [None]: it throws. *)
Definition Enqueue (p : ThreadPool) (t : task) : option ThreadPool :=
  if stop_ p then None
  else Some (mkPool (workers_ p) (tasks_ p ++ [t]) (stop_ p) (S (notify_one_due p)) (notify_all_due p)
               (enqueued p ++ [t]) (started p) (finished p)).

Definition set_worker (p : ThreadPool) (i : nat) (w : worker) : ThreadPool :=
  mkPool (<[i := w]> (workers_ p)) (tasks_ p) (stop_ p) (notify_one_due p) (notify_all_due p)
    (enqueued p) (started p) (finished p).

(** The next block of worker [i]; [None]: it waits, or is gone. *)
Definition worker_turn (p : ThreadPool) (i : nat) : option ThreadPool :=
  match workers_ p !! i with
  | Some Checking =>
      if negb (stop_ p || negb (bool_decide (tasks_ p = []))) then Some (set_worker p i Blocked)
      else if stop_ p && bool_decide (tasks_ p = []) then Some (set_worker p i Exited)
      else
        match tasks_ p with
        | [] => None
        | t :: rest =>
            Some (mkPool (<[i := Running t]> (workers_ p)) rest (stop_ p) (notify_one_due p) (notify_all_due p)
                    (enqueued p) (started p ++ [t]) (finished p))
        end
  | Some (Running t) =>
      Some (mkPool (<[i := Checking]> (workers_ p)) (tasks_ p) (stop_ p) (notify_one_due p) (notify_all_due p)
              (enqueued p) (started p) (finished p ++ [t]))
  | _ => None
  end.

(** [notify_one]: one of the blocked workers, if there is any. *)
Definition notify_one (p : ThreadPool) (i : option nat) : option ThreadPool :=
  match notify_one_due p with
  | O => None
  | S k =>
      let p' ws := mkPool ws (tasks_ p) (stop_ p) k (notify_all_due p) (enqueued p) (started p) (finished p) in
      match i with
      | Some i => if bool_decide (workers_ p !! i = Some Blocked) then Some (p' (<[i := Checking]> (workers_ p))) else None
      | None => if bool_decide (Blocked ∈ workers_ p) then None else Some (p' (workers_ p))
      end
  end.

(** The first block of the destructor. *)
Definition destructor_stop (p : ThreadPool) : ThreadPool :=
  mkPool (workers_ p) (tasks_ p) true (notify_one_due p) true (enqueued p) (started p) (finished p).

Definition wake (w : worker) : worker := match w with Blocked => Checking | _ => w end.

Definition notify_all (p : ThreadPool) : option ThreadPool :=
  if notify_all_due p
  then Some (mkPool (wake <$> workers_ p) (tasks_ p) (stop_ p) (notify_one_due p) false
               (enqueued p) (started p) (finished p))
  else None.

(** The destructor's [join]s return. *)
Definition joined (p : ThreadPool) : Prop := Forall (fun w => w = Exited) (workers_ p).

(** ** The machine *)

(** Steps that the pool makes of itself: its workers and the notifications due.
    While one of them is possible some thread can run. *)
Inductive scheduled_step : ThreadPool -> ThreadPool -> Prop :=
  | step_worker p i p' : worker_turn p i = Some p' -> scheduled_step p p'
  | step_notify_one p i p' : notify_one p i = Some p' -> scheduled_step p p'
  | step_notify_all p p' : notify_all p = Some p' -> scheduled_step p p'.

(** The standard also permits, but does not promise, that a blocked worker wakes
    up without a notification. *)
Inductive internal_step : ThreadPool -> ThreadPool -> Prop :=
  | step_scheduled p p' : scheduled_step p p' -> internal_step p p'
  | step_spurious p i : workers_ p !! i = Some Blocked -> internal_step p (set_worker p i Checking).

Inductive pool_step : ThreadPool -> ThreadPool -> Prop :=
  | step_internal p p' : internal_step p p' -> pool_step p p'
  | step_enqueue p t p' : Enqueue p t = Some p' -> pool_step p p'
  | step_destroy p : stop_ p = false -> pool_step p (destructor_stop p).

Definition pool_reachable (num_threads : nat) : ThreadPool -> Prop := rtc pool_step (ThreadPool_new num_threads).

(** ** Invariant *)

Definition running (ws : list worker) : list task :=
  omap (fun w => match w with Running t => Some t | _ => None end) ws.

Definition active (w : worker) : bool := match w with Checking | Running _ => true | _ => false end.

Record pool_inv (num_threads : nat) (p : ThreadPool) : Prop := {
  pi_workers : length (workers_ p) = num_threads;
  pi_fifo : enqueued p = started p ++ tasks_ p;
  pi_started : started p ≡ₚ finished p ++ running (workers_ p);
  (* no lost wake-up: work in the queue has a worker or a notification coming *)
  pi_wake : num_threads <> 0%nat -> tasks_ p <> [] ->
    notify_one_due p <> 0%nat \/ notify_all_due p = true \/ existsb active (workers_ p) = true;
  pi_stopped : stop_ p = true -> notify_all_due p = false -> Blocked ∉ workers_ p;
  pi_exit : Exited ∈ workers_ p -> stop_ p = true /\ tasks_ p = []
}.

(** The list of workers around worker [i]. *)
Lemma worker_split (ws : list worker) i w :
  ws !! i = Some w -> exists l1 l2, ws = l1 ++ w :: l2 /\ forall w', <[i := w']> ws = l1 ++ w' :: l2.
Proof.
  intros Hi. exists (take i ws), (drop (S i) ws). split; [by rewrite take_drop_middle|].
  intros w'. apply insert_take_drop. by eapply lookup_lt_Some.
Qed.

Lemma running_app l1 w l2 :
  running (l1 ++ w :: l2) = running l1 ++ (match w with Running t => [t] | _ => [] end) ++ running l2.
Proof. unfold running. rewrite omap_app. by destruct w. Qed.

Lemma active_middle l1 w l2 : active w = true -> existsb active (l1 ++ w :: l2) = true.
Proof. intros Hw. rewrite existsb_app. cbn. rewrite Hw. cbn. apply orb_true_r. Qed.

Lemma elem_middle (x w w' : worker) l1 l2 : x ∈ l1 ++ w' :: l2 -> x = w' \/ x ∈ l1 ++ w :: l2.
Proof. rewrite !elem_of_app, !elem_of_cons. tauto. Qed.

(** A worker becomes [w']: what is left to show of the invariant. *)
Lemma pool_inv_set n p p' i w w' :
  pool_inv n p -> workers_ p !! i = Some w -> workers_ p' = <[i := w']> (workers_ p) ->
  enqueued p' = started p' ++ tasks_ p' ->
  (forall l1 l2, started p ≡ₚ finished p ++ running (l1 ++ w :: l2) ->
     started p' ≡ₚ finished p' ++ running (l1 ++ w' :: l2)) ->
  (active w' = true \/ tasks_ p' = []) -> stop_ p' = stop_ p -> notify_all_due p' = notify_all_due p ->
  (w' = Blocked -> stop_ p = false) ->
  (tasks_ p = [] -> tasks_ p' = []) -> (w' = Exited -> stop_ p = true /\ tasks_ p = []) ->
  pool_inv n p'.
Proof.
  intros [Hlen Hq Hs Hw Hst He] Hi Hws Hq' Hs' Ha Estop Eall Hb Ht Hx.
  destruct (worker_split _ _ _ Hi) as (l1 & l2 & El & Hins).
  constructor; rewrite ?Estop, ?Eall, ?Hws.
  - by rewrite length_insert.
  - done.
  - rewrite Hins. apply Hs'. by rewrite <-El.
  - intros _ Hne. right; right. rewrite Hins. destruct Ha as [Ha|Ha]; [by apply active_middle|done].
  - intros H1 H2. rewrite Hins. intros [Hw'|Hin]%(elem_middle _ w); [specialize (Hb (eq_sym Hw')); congruence|].
    apply (Hst H1 H2). by rewrite El.
  - rewrite Hins. intros [Hw'|Hin]%(elem_middle _ w).
    + destruct (Hx (eq_sym Hw')); auto.
    + rewrite <-El in Hin. destruct (He Hin); auto.
Qed.

Lemma pool_inv_worker n p i p' : pool_inv n p -> worker_turn p i = Some p' -> pool_inv n p'.
Proof.
  intros I. unfold worker_turn. destruct (workers_ p !! i) as [w|] eqn:Ei; [|done].
  pose proof (pi_fifo _ _ I) as Hq. destruct w as [| |t|]; [|done| |done].
  - destruct (decide (tasks_ p = [])) as [Et|Et].
    + rewrite (bool_decide_eq_true_2 (tasks_ p = [])) by done. destruct (stop_ p) eqn:Es; cbn; intros [= <-];
        (eapply pool_inv_set; [exact I|exact Ei|reflexivity|..]; cbn; auto); try congruence.
      all: intros l1 l2; by rewrite !running_app.
    + rewrite (bool_decide_eq_false_2 (tasks_ p = [])) by done. rewrite orb_true_r, andb_false_r. cbn.
      destruct (tasks_ p) as [|t rest] eqn:Etasks; [done|]. intros [= <-].
      eapply pool_inv_set; [exact I|exact Ei|reflexivity|..]; cbn; auto; try congruence.
      * by rewrite Hq, <-app_assoc.
      * intros l1 l2. rewrite !running_app. intros ->. cbn. solve_Permutation.
  - intros [= <-]. eapply pool_inv_set; [exact I|exact Ei|reflexivity|..]; cbn; auto; try congruence.
    intros l1 l2. rewrite !running_app. intros ->. cbn. solve_Permutation.
Qed.

Lemma pool_inv_wake n p p' i :
  pool_inv n p -> workers_ p !! i = Some Blocked -> workers_ p' = <[i := Checking]> (workers_ p) ->
  tasks_ p' = tasks_ p -> stop_ p' = stop_ p -> notify_all_due p' = notify_all_due p ->
  enqueued p' = enqueued p -> started p' = started p -> finished p' = finished p -> pool_inv n p'.
Proof.
  intros I Hi Hws Ht Es Ea Eq Est Ef.
  eapply pool_inv_set; [exact I|exact Hi|exact Hws|..]; rewrite ?Ht, ?Eq, ?Est, ?Ef; auto; try congruence.
  - apply (pi_fifo _ _ I).
  - intros l1 l2. by rewrite !running_app.
Qed.

(** With nobody blocked and work to do, somebody is active. *)
Lemma some_active n p :
  pool_inv n p -> n <> 0%nat -> tasks_ p <> [] -> Blocked ∉ workers_ p -> existsb active (workers_ p) = true.
Proof.
  intros I Hn Ht Hb. destruct (workers_ p) as [|w ws] eqn:E; [pose proof (pi_workers _ _ I) as Hl; by rewrite E in Hl|].
  assert (w <> Blocked /\ w <> Exited) as [H1 H2].
  { split; intros ->; [apply Hb; by left|]. apply Ht. apply (pi_exit _ _ I). rewrite E. by left. }
  by destruct w.
Qed.

Lemma running_wake (ws : list worker) : running (wake <$> ws) = running ws.
Proof. induction ws as [|[] ws IH]; cbn in *; try done; f_equal; exact IH. Qed.

Lemma blocked_wake (ws : list worker) : Blocked ∉ wake <$> ws.
Proof. intros ([] & ? & _)%list_elem_of_fmap; done. Qed.

Lemma exited_wake (ws : list worker) : Exited ∈ wake <$> ws -> Exited ∈ ws.
Proof. intros ([] & ? & Hin)%list_elem_of_fmap; done. Qed.

Lemma pool_inv_internal n p p' : pool_inv n p -> internal_step p p' -> pool_inv n p'.
Proof.
  intros I Hstep. revert I. destruct Hstep as [? ? [q i q' E|q i q' E|q q' E]|q i E]; intros I.
  - by eapply pool_inv_worker.
  - unfold notify_one in E. destruct (notify_one_due q) as [|k]; [done|]. destruct i as [i|].
    + case_bool_decide as Hi; [|done]. injection E as <-. by eapply pool_inv_wake.
    + case_bool_decide as Hb; [done|]. injection E as <-. pose proof (some_active n q I) as Ha.
      destruct I. constructor; cbn; auto.
  - unfold notify_all in E. destruct (notify_all_due q) eqn:Ed; [|done]. injection E as <-.
    pose proof (some_active n q I) as Ha. destruct I as [Hl Hq Hs Hw Hst He]. constructor; cbn; auto.
    + by rewrite length_fmap.
    + by rewrite running_wake.
    + intros Hn Ht. right; right. destruct (workers_ q) as [|w ws] eqn:E; [done|].
      cbn. destruct w; try done. exfalso. apply Ht. apply He. by left.
    + intros _ _. apply blocked_wake.
    + intros Hx%exited_wake. auto.
  - by eapply pool_inv_wake.
Qed.

Lemma pool_inv_step n p p' : pool_inv n p -> pool_step p p' -> pool_inv n p'.
Proof.
  intros I Hstep. revert I. destruct Hstep as [q q' Hs|q t q' E|q Es]; intros I.
  - by eapply pool_inv_internal.
  - unfold Enqueue in E. destruct (stop_ q) eqn:Es; [done|]. injection E as <-.
    destruct I as [Hl Hq Hs Hw Hst He]. constructor; cbn; rewrite ?Es in *; auto.
    + by rewrite Hq, app_assoc.
    + intros Hx. by destruct (He Hx).
  - destruct I as [Hl Hq Hs Hw Hst He]. constructor; cbn; auto; [done|]. intros Hx. split; [done|]. by apply He.
Qed.

Lemma pool_inv_reachable n p : pool_reachable n p -> pool_inv n p.
Proof.
  intros H. unfold pool_reachable in H.
  refine (rtc_ind_r (pool_inv n) _ _ (fun x y _ Hs I => pool_inv_step n x y I Hs) _ H).
  constructor; cbn [ThreadPool_new workers_ tasks_ stop_ notify_all_due enqueued started finished app].
  - apply length_replicate.
  - done.
  - clear. by induction n.
  - done.
  - done.
  - intros [? _]%elem_of_replicate. done.
Qed.

(** ** Termination of the destructor *)

Definition weight (w : worker) : nat :=
  match w with Exited => 0 | Checking => 1 | Blocked | Running _ => 2 end.

Definition pool_measure (p : ThreadPool) : nat :=
  3 * length (tasks_ p) + sum_list_with weight (workers_ p) + notify_one_due p +
  (if notify_all_due p then 1 else 0).

Lemma weight_insert (ws : list worker) i w w' :
  ws !! i = Some w ->
  (sum_list_with weight (<[i := w']> ws) + weight w = sum_list_with weight ws + weight w')%nat.
Proof.
  intros Hi. destruct (worker_split _ _ _ Hi) as (l1 & l2 & -> & ->). rewrite !sum_list_with_app. cbn. lia.
Qed.

Lemma weight_wake (ws : list worker) : (sum_list_with weight (wake <$> ws) <= sum_list_with weight ws)%nat.
Proof. induction ws as [|[] ws IH]; cbn in *; lia. Qed.

Lemma measure_decreases p p' :
  stop_ p = true -> internal_step p p' -> stop_ p' = true /\ (pool_measure p' < pool_measure p)%nat.
Proof.
  intros Hs Hstep. revert Hs. destruct Hstep as [? ? [q i q' E|q i q' E|q q' E]|q i E]; intros Hs; unfold pool_measure.
  - unfold worker_turn in E. rewrite Hs in E. destruct (workers_ q !! i) as [w|] eqn:Ei; [|done].
    pose proof (fun w' => weight_insert (workers_ q) i w w' Ei) as Hw. destruct w as [| |t|]; [|done| |done].
    + cbn [orb negb andb] in E. case_bool_decide as Et.
      * injection E as <-. cbn. specialize (Hw Exited). cbn in Hw. split; [done|lia].
      * destruct (tasks_ q) as [|t rest]; [done|]. injection E as <-. specialize (Hw (Running t)). cbn in *. split; [done|lia].
    + injection E as <-. specialize (Hw Checking). cbn in *. split; [done|lia].
  - unfold notify_one in E. destruct (notify_one_due q) as [|k] eqn:Ed; [done|]. destruct i as [i|].
    + case_bool_decide as Hi; [|done]. injection E as <-. pose proof (weight_insert _ i _ Checking Hi).
      cbn in *. split; [done|lia].
    + case_bool_decide; [done|]. injection E as <-. cbn. split; [done|lia].
  - unfold notify_all in E. destruct (notify_all_due q); [|done]. injection E as <-. cbn.
    pose proof (weight_wake (workers_ q)). split; [done|lia].
  - pose proof (weight_insert _ i _ Checking E). cbn in *. split; [done|lia].
Qed.

Lemma internal_accessible p : stop_ p = true -> Acc (flip internal_step) p.
Proof.
  remember (pool_measure p) as m eqn:Em. revert p Em. induction m as [m IH] using lt_wf_ind. intros p -> Hs.
  constructor. intros q Hq. destruct (measure_decreases p q Hs Hq) as [Hs' Hm]. by eapply IH.
Qed.

Lemma active_turn n p i w :
  pool_inv n p -> workers_ p !! i = Some w -> active w = true -> exists p', worker_turn p i = Some p'.
Proof.
  intros I Hi Hw. unfold worker_turn. rewrite Hi. destruct w; try done; [|eauto].
  destruct (tasks_ p) eqn:E; [rewrite bool_decide_eq_true_2 by done|rewrite bool_decide_eq_false_2 by done];
    destruct (stop_ p); cbn; eauto.
Qed.

(** Where no thread can run nobody is blocked either, because the notification
    of the destructor has been made. *)
Lemma stuck_joined n p :
  pool_inv n p -> stop_ p = true -> (forall q, ~ scheduled_step p q) -> joined p.
Proof.
  intros I Hs Hstuck. assert (notify_all_due p = false) as Hd.
  { apply not_true_iff_false. intros Hd. eapply Hstuck. eapply step_notify_all. unfold notify_all. by rewrite Hd. }
  apply Forall_lookup_2. intros i w Hi. destruct (active w) eqn:Ha.
  - destruct (active_turn n p i w I Hi Ha) as [p' E]. destruct (Hstuck p'). by eapply step_worker.
  - destruct w; try done. destruct (pi_stopped _ _ I Hs Hd). by eapply list_elem_of_lookup_2.
Qed.

(** ** Properties *)

(** C28. Tasks are started in the order they were enqueued, each exactly once:
    at any moment of any run the tasks enqueued are those started followed by
    those in the queue, and those started are the finished and the running. *)
Theorem pool_fifo_exactly_once num_threads p :
  pool_reachable num_threads p ->
  enqueued p = started p ++ tasks_ p /\ started p ≡ₚ finished p ++ running (workers_ p).
Proof. intros I%pool_inv_reachable. split; apply I. Qed.

(** C29. No wake-up is lost: while the queue holds a task, some worker has a
    block to run or a notification is about to reach one, without relying on
    spurious wake-ups. *)
Theorem pool_no_lost_wakeup num_threads p :
  pool_reachable num_threads p -> num_threads <> 0%nat -> tasks_ p <> [] ->
  (exists i p', worker_turn p i = Some p') \/ (exists i p', notify_one p i = Some p') \/
  (exists p', notify_all p = Some p').
Proof.
  intros I%pool_inv_reachable Hn Ht. destruct (pi_wake _ _ I Hn Ht) as [Hd|[Hd|Ha]].
  - right; left. unfold notify_one. destruct (notify_one_due p); [done|].
    destruct (decide (Blocked ∈ workers_ p)) as [[i Hi]%list_elem_of_lookup|Hb].
    + exists (Some i). rewrite bool_decide_eq_true_2 by done. eauto.
    + exists None. rewrite bool_decide_eq_false_2 by done. eauto.
  - right; right. unfold notify_all. rewrite Hd. eauto.
  - left. apply existsb_exists in Ha as (w & Hin & Ha).
    apply list_elem_of_In, list_elem_of_lookup in Hin as [i Hi]. exists i. by eapply active_turn.
Qed.

(** C27. The destructor returns and drains the queue: once [stop_] is set every
    run of the workers ends, with whatever spurious wake-ups; and where no worker
    can run and no notification is due, so that only a spurious wake-up could go
    on, no worker is left waiting: all of them have exited; if there are any, the
    queue is empty and every task that was ever enqueued has finished. *)
Theorem pool_destructor_drains num_threads p :
  pool_reachable num_threads p -> stop_ p = true ->
  Acc (flip internal_step) p /\
  forall q, rtc internal_step p q -> (forall q', ~ scheduled_step q q') ->
    joined q /\ (num_threads <> 0%nat -> tasks_ q = [] /\ finished q ≡ₚ enqueued q).
Proof.
  intros I%pool_inv_reachable Hs. split; [by apply internal_accessible|]. intros q Hpq Hstuck.
  assert (pool_inv num_threads q /\ stop_ q = true) as [Iq Hsq].
  { clear Hstuck. induction Hpq as [|x y z Hxy _ IH]; [done|].
    apply IH; [by eapply pool_inv_internal|]. by destruct (measure_decreases x y Hs Hxy). }
  pose proof (stuck_joined _ _ Iq Hsq Hstuck) as Hj. split; [done|]. intros Hn.
  pose proof (pi_workers _ _ Iq) as Hl. unfold joined in Hj.
  assert (tasks_ q = []) as Ht.
  { apply (pi_exit _ _ Iq). destruct Hj as [|w ws ->]; [by rewrite <-Hl in Hn|]. by left. }
  split; [done|]. rewrite (pi_fifo _ _ Iq), Ht, app_nil_r, (pi_started _ _ Iq).
  assert (running (workers_ q) = []) as ->; [|by rewrite app_nil_r].
  clear -Hj. by induction Hj as [|w ws -> _ IH].
Qed.

(** ** Concrete runs *)

(** Without workers a task stays in the queue, and the destructor returns at
    once: the task's future is never satisfied. *)
Example no_workers_drops_tasks :
  match Enqueue (ThreadPool_new 0) 7%nat with
  | Some p => joined (destructor_stop p) /\ tasks_ (destructor_stop p) = [7%nat]
  | None => False
  end.
Proof. split; [constructor|reflexivity]. Qed.

(** A turn of the demonstration: a worker's block. *)
Definition turn (i : nat) (p : ThreadPool) : ThreadPool := default p (worker_turn p i).

Definition demo_pool : ThreadPool :=
  default (ThreadPool_new 2) (Enqueue (turn 0 (turn 1 (ThreadPool_new 2))) 5%nat).

Lemma demo_pool_reachable : pool_reachable 2 demo_pool.
Proof.
  eapply rtc_l; [apply step_internal, step_scheduled, (step_worker _ 1); reflexivity|].
  eapply rtc_l; [apply step_internal, step_scheduled, (step_worker _ 0); reflexivity|].
  eapply rtc_l; [apply (step_enqueue _ 5%nat); reflexivity|]. apply rtc_refl.
Qed.

Lemma pool_fifo_exactly_once_witness : enqueued demo_pool = started demo_pool ++ tasks_ demo_pool.
Proof. apply (pool_fifo_exactly_once 2 demo_pool demo_pool_reachable). Defined.

Lemma pool_no_lost_wakeup_witness :
  workers_ demo_pool = [Blocked; Blocked] /\
  ((exists i p', worker_turn demo_pool i = Some p') \/ (exists i p', notify_one demo_pool i = Some p') \/
   (exists p', notify_all demo_pool = Some p')).
Proof.
  split; [reflexivity|]. apply (pool_no_lost_wakeup 2 demo_pool demo_pool_reachable); discriminate.
Defined.

(** The destructor while both workers wait: both notifications are made, worker
    0 runs the task, and then both leave. *)
Definition demo_notified : ThreadPool :=
  default demo_pool (notify_one (default demo_pool (notify_all (destructor_stop demo_pool))) None).

Definition demo_end : ThreadPool := turn 1 (turn 0 (turn 0 (turn 0 demo_notified))).

Lemma demo_end_reached : rtc internal_step (destructor_stop demo_pool) demo_end.
Proof.
  eapply rtc_l; [apply step_scheduled, step_notify_all; reflexivity|].
  eapply rtc_l; [apply step_scheduled, (step_notify_one _ None); reflexivity|].
  eapply rtc_l; [apply step_scheduled, (step_worker _ 0); reflexivity|].
  eapply rtc_l; [apply step_scheduled, (step_worker _ 0); reflexivity|].
  eapply rtc_l; [apply step_scheduled, (step_worker _ 0); reflexivity|].
  eapply rtc_l; [apply step_scheduled, (step_worker _ 1); reflexivity|]. apply rtc_refl.
Qed.

Lemma demo_end_stuck p : ~ scheduled_step demo_end p.
Proof.
  remember demo_end as d eqn:Ed. intros H. destruct H as [d i d' E|d i d' E|d d' E]; subst d; [|discriminate E..].
  destruct i as [|[|i]]; discriminate E.
Qed.

Lemma pool_destructor_drains_witness :
  Acc (flip internal_step) (destructor_stop demo_pool) /\ joined demo_end /\
  tasks_ demo_end = [] /\ finished demo_end ≡ₚ [5%nat].
Proof.
  destruct (pool_destructor_drains 2 (destructor_stop demo_pool)) as [Hacc Hend]; [|reflexivity|].
  - eapply rtc_r; [exact demo_pool_reachable|]. by apply step_destroy.
  - destruct (Hend demo_end demo_end_reached demo_end_stuck) as [Hj Hd]. split; [exact Hacc|]. split; [exact Hj|].
    apply Hd. discriminate.
Defined.

(** Without the notification of the destructor its [join] would wait for ever,
    unless workers woke up of themselves. *)
Example unnotified_workers_wait :
  let p := mkPool [Blocked; Blocked] [] true 0 false [] [] [] in
  (forall q, ~ scheduled_step p q) /\ ~ joined p.
Proof.
  split.
  - intros q H. remember (mkPool _ _ _ _ _ _ _ _) as d eqn:Ed.
    destruct H as [d i d' E|d i d' E|d d' E]; subst d; [destruct i as [|[|i]]; discriminate E|discriminate E..].
  - intros H. inversion H as [|w ws Hw]. discriminate Hw.
Qed.
