(* ===== verification/Config.v ===== *)
(** * Configuration: [ServerConfig] and [ConfigLoader]

    Models src/src/common/config: the configuration records, [ParseRole] and
    [ConfigLoader::LoadFromFile].  yaml-cpp is not part of the repository: the
    class [Yaml] names the calls the loader makes ([YAML::LoadFile],
    [Node::operator[]], the test of a node, [as<T>] with and without a
    fallback, iteration), an exception being its text; [YamlDocumented] states
    the documented behaviour that the theorems use.

    [ServerConfig config;] leaves the members of type [NodeRole], [size_t] and
    [int] indeterminate: the values they happen to have are the argument
    [memory]. *)

From S2P Require Import Prelude Status FileSystem.

(** ** The records *)

Inductive NodeRole : Set := kRouter | kShard | kMetadata | kStandalone.

#[export] Instance NodeRole_eq_dec : EqDecision NodeRole.
Proof. solve_decision. Defined.

Record NodeConfig : Set := mkNodeConfig { node_id : str; listen_address : str; role : NodeRole }.

Record StorageConfig : Set := mkStorageConfig { data_dir : str; memtable_size_mb : Z; block_cache_mb : Z }.

Record RaftConfig : Set := mkRaftConfig {
  election_timeout_ms : Z; heartbeat_interval_ms : Z; snapshot_threshold : Z
}.

Record ClusterConfig : Set := mkClusterConfig { peer_addresses : list str }.

Record ServerConfig : Set := mkServerConfig {
  node : NodeConfig; storage : StorageConfig; raft : RaftConfig; cluster : ClusterConfig
}.

(** ** yaml-cpp *)

Class Yaml : Type := {
  Node : Type;
  LoadFile : World -> str -> str + Node;
  subscript : Node -> str -> str + Node;
  is_defined : Node -> bool;
  as_string_or : Node -> str -> str;
  as_size_or : Node -> Z -> Z;
  as_int_or : Node -> Z -> Z;
  as_string : Node -> str + str;
  elements : Node -> str + list Node
}.

(** [as<T>(fallback)] returns the fallback for an undefined node, and otherwise
    a value of [T]. *)
Class YamlDocumented (yaml : Yaml) : Prop := {
  string_fallback : forall n d, is_defined n = false -> as_string_or n d = d;
  size_fallback : forall n d, is_defined n = false -> as_size_or n d = d;
  int_fallback : forall n d, is_defined n = false -> as_int_or n d = d;
  size_width : forall n d, 0 <= d < 2 ^ 64 -> 0 <= as_size_or n d < 2 ^ 64;
  int_width : forall n d, - 2 ^ 31 <= d < 2 ^ 31 -> - 2 ^ 31 <= as_int_or n d < 2 ^ 31
}.

(** Exceptions: the text of the first one that is thrown. *)
Definition guard {A B} (x : str + A) (k : A -> str + B) : str + B :=
  match x with inl what => inl what | inr a => k a end.

Notation "'let!' x := e 'in' k" := (guard e (fun x => k))
  (at level 10, x pattern, e at level 100, k at level 200) : stdpp_scope.

(** ** The loader *)

Definition ParseRole (role_str : str) : NodeRole :=
  if str_eqb role_str (lit "router") then kRouter
  else if str_eqb role_str (lit "shard") then kShard
  else if str_eqb role_str (lit "metadata") then kMetadata
  else kStandalone.

(** [ServerConfig config;]: strings and the vector are empty. *)
Definition ServerConfig_init (memory : ServerConfig) : ServerConfig :=
  mkServerConfig
    (mkNodeConfig [] [] (role (node memory)))
    (mkStorageConfig [] (memtable_size_mb (storage memory)) (block_cache_mb (storage memory)))
    (raft memory)
    (mkClusterConfig []).

Section loader.
Context {yaml : Yaml}.

(** [peer.as<std::string>()] for each element. *)
Fixpoint read_peers (peers : list Node) : str + list str :=
  match peers with
  | [] => inr []
  | peer :: peers =>
      let! s := as_string peer in
      let! rest := read_peers peers in
      inr (s :: rest)
  end.

(** The four sections.  [inr None] is the return for a missing [node]. *)
Definition parse_node (doc : Node) : str + option NodeConfig :=
  let! n := subscript doc (lit "node") in
  if is_defined n then
    let! id := subscript n (lit "node_id") in
    let! addr := subscript n (lit "listen_address") in
    let! r := subscript n (lit "role") in
    inr (Some (mkNodeConfig (as_string_or id (lit "default-node")) (as_string_or addr (lit "0.0.0.0:50051"))
                 (ParseRole (as_string_or r (lit "standalone")))))
  else inr None.

Definition parse_storage (doc : Node) (config : StorageConfig) : str + StorageConfig :=
  let! s := subscript doc (lit "storage") in
  if is_defined s then
    let! dir := subscript s (lit "data_dir") in
    let! mem := subscript s (lit "memtable_size_mb") in
    let! cache := subscript s (lit "block_cache_mb") in
    inr (mkStorageConfig (as_string_or dir (lit "/tmp/vectordb")) (as_size_or mem 64) (as_size_or cache 256))
  else inr config.

Definition parse_raft (doc : Node) (config : RaftConfig) : str + RaftConfig :=
  let! r := subscript doc (lit "raft") in
  if is_defined r then
    let! election := subscript r (lit "election_timeout_ms") in
    let! heartbeat := subscript r (lit "heartbeat_interval_ms") in
    let! snapshot := subscript r (lit "snapshot_threshold") in
    inr (mkRaftConfig (as_int_or election 300) (as_int_or heartbeat 50) (as_int_or snapshot 10000))
  else inr config.

Definition parse_cluster (doc : Node) (config : ClusterConfig) : str + ClusterConfig :=
  let! c := subscript doc (lit "cluster") in
  if is_defined c then
    let! peers := subscript c (lit "peers") in
    if is_defined peers then
      let! es := elements peers in
      let! addresses := read_peers es in
      inr (mkClusterConfig (peer_addresses config ++ addresses))
    else inr config
  else inr config.

(** The body of the [try] block. *)
Definition parse_config (memory : ServerConfig) (doc : Node) : str + option ServerConfig :=
  let config := ServerConfig_init memory in
  let! n := parse_node doc in
  match n with
  | None => inr None
  | Some n =>
      let! s := parse_storage doc (storage config) in
      let! r := parse_raft doc (raft config) in
      let! c := parse_cluster doc (cluster config) in
      inr (Some (mkServerConfig n s r c))
  end.

Definition LoadFromFile (memory : ServerConfig) (w : World) (file_path : str) : ErrorOr ServerConfig :=
  if negb (fs_exists w file_path)
  then error kNotFound (lit "Config file not found: " ++ file_path)
  else
    match (let! doc := LoadFile w file_path in parse_config memory doc) with
    | inl what => error kInvalidArgument (lit "Failed to parse YAML config: " ++ what)
    | inr None => error kInvalidArgument (lit "Missing required 'node' section in config")
    | inr (Some config) => Val config
    end.
End loader.

(** ** What the loader does *)

Lemma guard_inr {A B} (x : str + A) (k : A -> str + B) b :
  guard x k = inr b -> exists a, x = inr a /\ k a = inr b.
Proof. destruct x as [what|a]; cbn; [done|eauto]. Qed.

(** Split the hypothesis [H : guard .. = inr ..] into its steps. *)
Ltac unguard H :=
  repeat (apply guard_inr in H as (? & ? & H); cbn beta in H).

(** The values that [size_t] and [int] members can have. *)
Definition storage_widths (c : StorageConfig) : Prop :=
  0 <= memtable_size_mb c < 2 ^ 64 /\ 0 <= block_cache_mb c < 2 ^ 64.

Definition raft_widths (c : RaftConfig) : Prop :=
  - 2 ^ 31 <= election_timeout_ms c < 2 ^ 31 /\ - 2 ^ 31 <= heartbeat_interval_ms c < 2 ^ 31 /\
  - 2 ^ 31 <= snapshot_threshold c < 2 ^ 31.

Definition config_widths (c : ServerConfig) : Prop := storage_widths (storage c) /\ raft_widths (raft c).

Section facts.
Context {yaml : Yaml}.

(** The section is in the document. *)
Definition has_section (doc : Node) (name : str) : Prop :=
  exists n, subscript doc name = inr n /\ is_defined n = true.

Lemma has_section_case doc name n : subscript doc name = inr n -> is_defined n = true <-> has_section doc name.
Proof.
  intros Hn. split; [by exists n|]. intros (n' & Hn' & Hd). rewrite Hn in Hn'. by injection Hn' as <-.
Qed.

Lemma parse_node_Some doc n : parse_node doc = inr (Some n) -> has_section doc (lit "node").
Proof.
  unfold parse_node. intros H. apply guard_inr in H as (m & Hm & H). destruct (is_defined m) eqn:E; [|done].
  by exists m.
Qed.

Lemma parse_storage_inv doc old new :
  parse_storage doc old = inr new ->
  (has_section doc (lit "storage") /\ exists dir mem cache,
     new = mkStorageConfig (as_string_or dir (lit "/tmp/vectordb")) (as_size_or mem 64) (as_size_or cache 256)) \/
  (~ has_section doc (lit "storage") /\ new = old).
Proof.
  unfold parse_storage. intros H. apply guard_inr in H as (m & Hm & H). pose proof (has_section_case doc _ m Hm) as Hs.
  destruct (is_defined m).
  - left. split; [by apply Hs|]. unguard H. injection H as <-. eauto.
  - right. split; [by intros ?%Hs|]. by injection H.
Qed.

Lemma parse_raft_inv doc old new :
  parse_raft doc old = inr new ->
  (has_section doc (lit "raft") /\ exists a b c,
     new = mkRaftConfig (as_int_or a 300) (as_int_or b 50) (as_int_or c 10000)) \/
  (~ has_section doc (lit "raft") /\ new = old).
Proof.
  unfold parse_raft. intros H. apply guard_inr in H as (m & Hm & H). pose proof (has_section_case doc _ m Hm) as Hs.
  destruct (is_defined m).
  - left. split; [by apply Hs|]. unguard H. injection H as <-. eauto.
  - right. split; [by intros ?%Hs|]. by injection H.
Qed.

(** Whether a section parses, and to what when it is there, does not depend on
    the record it overwrites. *)
Lemma parse_storage_other doc old old' new :
  parse_storage doc old = inr new ->
  exists new', parse_storage doc old' = inr new' /\ (has_section doc (lit "storage") -> new' = new) /\
    (~ has_section doc (lit "storage") -> new' = old').
Proof.
  unfold parse_storage. intros H. apply guard_inr in H as (m & Hm & H). pose proof (has_section_case doc _ m Hm) as Hs.
  rewrite Hm. cbn [guard]. destruct (is_defined m).
  - exists new. split_and!; [done|done|]. by destruct 1; apply Hs.
  - exists old'. split_and!; [done| |done]. by intros ?%Hs.
Qed.

Lemma parse_raft_other doc old old' new :
  parse_raft doc old = inr new ->
  exists new', parse_raft doc old' = inr new' /\ (has_section doc (lit "raft") -> new' = new) /\
    (~ has_section doc (lit "raft") -> new' = old').
Proof.
  unfold parse_raft. intros H. apply guard_inr in H as (m & Hm & H). pose proof (has_section_case doc _ m Hm) as Hs.
  rewrite Hm. cbn [guard]. destruct (is_defined m).
  - exists new. split_and!; [done|done|]. by destruct 1; apply Hs.
  - exists old'. split_and!; [done| |done]. by intros ?%Hs.
Qed.

Lemma LoadFromFile_Val memory w path c :
  LoadFromFile memory w path = Val c ->
  exists doc, is_Some (files w !! path) /\ LoadFile w path = inr doc /\ parse_config memory doc = inr (Some c).
Proof.
  unfold LoadFromFile, fs_exists. destruct (files w !! path) as [bytes|]; cbn [negb]; [|done].
  destruct (LoadFile w path) as [what|doc]; cbn [guard]; [done|].
  destruct (parse_config memory doc) as [what|[c'|]] eqn:E; [done| |done]. intros [= <-]. by exists doc.
Qed.

Lemma LoadFromFile_doc memory w path doc c :
  is_Some (files w !! path) -> LoadFile w path = inr doc -> parse_config memory doc = inr (Some c) ->
  LoadFromFile memory w path = Val c.
Proof. intros [bs Hf] Hd Hp. unfold LoadFromFile, fs_exists. by rewrite Hf, Hd; cbn [negb guard]; rewrite Hp. Qed.

(** The four parts of a document that loads. *)
Lemma parse_config_Some memory doc c :
  parse_config memory doc = inr (Some c) ->
  parse_node doc = inr (Some (node c)) /\
  parse_storage doc (storage (ServerConfig_init memory)) = inr (storage c) /\
  parse_raft doc (raft memory) = inr (raft c) /\
  parse_cluster doc (mkClusterConfig []) = inr (cluster c).
Proof.
  unfold parse_config. intros H. apply guard_inr in H as ([n|] & Hn & H); [|done].
  apply guard_inr in H as (s & Hs & H). apply guard_inr in H as (r & Hr & H). apply guard_inr in H as (cl & Hc & H).
  injection H as <-. done.
Qed.

Lemma parse_config_parts memory doc n s r cl :
  parse_node doc = inr (Some n) -> parse_storage doc (storage (ServerConfig_init memory)) = inr s ->
  parse_raft doc (raft memory) = inr r -> parse_cluster doc (mkClusterConfig []) = inr cl ->
  parse_config memory doc = inr (Some (mkServerConfig n s r cl)).
Proof. intros Hn Hs Hr Hc. unfold parse_config. rewrite Hn. cbn [guard]. rewrite Hs. cbn [guard ServerConfig_init raft cluster]. by rewrite Hr; cbn [guard]; rewrite Hc. Qed.
End facts.

(** ** Document trees: an instance of the interface *)

Module Tree.
Inductive ynode : Set :=
  | YUndefined
  | YNull
  | YScalar (s : str)
  | YSeq (l : list ynode)
  | YMap (l : list (str * ynode)).

Fixpoint member (l : list (str * ynode)) (key : str) : ynode :=
  match l with
  | [] => YUndefined
  | (k, n) :: l => if str_eqb k key then n else member l key
  end.

(** A string of digits below [bound]. *)
Definition decimal (bound : Z) (s : str) : option Z :=
  let v := foldl undigit 0 s in
  if negb (bool_decide (s = [])) && forallb (fun b => (48 <=? Z_of_byte b) && (Z_of_byte b <? 58)) s && (v <? bound)
  then Some v else None.

Definition scalar (n : ynode) : option str := match n with YScalar s => Some s | _ => None end.

#[local] Instance yaml_tree (doc : World -> str -> str + ynode) : Yaml := {|
  Node := ynode;
  LoadFile := doc;
  subscript n key :=
    match n with
    | YMap l => inr (member l key)
    | YScalar _ => inl (lit "operator[] call on a scalar")
    | _ => inr YUndefined
    end;
  is_defined n := match n with YUndefined => false | _ => true end;
  as_string_or n d := match n with YScalar s => s | YNull => lit "null" | _ => d end;
  as_size_or n d := default d (scalar n ≫= decimal (2 ^ 64));
  as_int_or n d := default d (scalar n ≫= decimal (2 ^ 31));
  as_string n := match n with YScalar s => inr s | YNull => inr (lit "null") | _ => inl (lit "bad conversion") end;
  elements n := match n with YSeq l => inr l | YMap _ => inl (lit "bad conversion") | _ => inr [] end
|}.

Lemma digits_nonneg s acc :
  0 <= acc -> forallb (fun b => (48 <=? Z_of_byte b) && (Z_of_byte b <? 58)) s = true -> 0 <= foldl undigit acc s.
Proof.
  revert acc. induction s as [|b s IH]; intros acc Hacc; cbn [foldl forallb]; [done|].
  intros [[Hb _]%andb_true_iff Hs]%andb_true_iff. apply IH; [|done]. unfold undigit. lia.
Qed.

Lemma decimal_range bound s v : decimal bound s = Some v -> 0 <= v < bound.
Proof.
  unfold decimal. destruct (_ && _ && _) eqn:E; [|done]. intros [= <-].
  apply andb_true_iff in E as [[_ E]%andb_true_iff Hlt]. split; [by apply digits_nonneg|lia].
Qed.

#[local] Instance yaml_tree_documented doc : YamlDocumented (yaml_tree doc).
Proof.
  split; cbn; intros n d.
  - by destruct n.
  - by destruct n.
  - by destruct n.
  - intros Hd. destruct (scalar n) as [s|]; cbn [mbind option_bind]; [|done].
    destruct (decimal (2 ^ 64) s) as [v|] eqn:E; cbn; [by apply decimal_range in E|done].
  - intros Hd. destruct (scalar n) as [s|]; cbn [mbind option_bind]; [|done].
    destruct (decimal (2 ^ 31) s) as [v|] eqn:E; cbn; [apply decimal_range in E; unfold id; lia|done].
Qed.

(** The document of src/src/common/config/config.yaml. *)
Definition sample : ynode :=
  YMap [(lit "node", YMap [(lit "node_id", YScalar (lit "shard-node-1"));
                           (lit "listen_address", YScalar (lit "0.0.0.0:50051"));
                           (lit "role", YScalar (lit "shard"))]);
        (lit "storage", YMap [(lit "data_dir", YScalar (lit "/tmp/vectordb_data"));
                              (lit "memtable_size_mb", YScalar (lit "128"));
                              (lit "block_cache_mb", YScalar (lit "512"))]);
        (lit "raft", YMap [(lit "election_timeout_ms", YScalar (lit "300"));
                           (lit "heartbeat_interval_ms", YScalar (lit "50"));
                           (lit "snapshot_threshold", YScalar (lit "50000"))]);
        (lit "cluster", YMap [(lit "peers", YSeq [YScalar (lit "10.0.0.1:50051"); YScalar (lit "10.0.0.2:50051")])])].

Definition sample_yaml : Yaml := yaml_tree (fun _ _ => inr sample).

Definition sample_world : World := mkWorld {[ lit "config.yaml" := [] ]} [].

Definition zero_memory : ServerConfig :=
  mkServerConfig (mkNodeConfig [] [] kRouter) (mkStorageConfig [] 0 0) (mkRaftConfig 0 0 0) (mkClusterConfig []).

Example sample_loads :
  LoadFromFile (yaml := sample_yaml) zero_memory sample_world (lit "config.yaml")
  = Val (mkServerConfig (mkNodeConfig (lit "shard-node-1") (lit "0.0.0.0:50051") kShard)
           (mkStorageConfig (lit "/tmp/vectordb_data") 128 512) (mkRaftConfig 300 50 50000)
           (mkClusterConfig [lit "10.0.0.1:50051"; lit "10.0.0.2:50051"])).
Proof. vm_compute. reflexivity. Qed.

(** Only the node section, and it is empty. *)
Definition node_only : Yaml := yaml_tree (fun _ _ => inr (YMap [(lit "node", YNull)])).
End Tree.

(** * Properties *)

(** Errors of the loader: [LoadFromFile] fails with NotFound exactly when
    the file does not exist; otherwise its only error is InvalidArgument,
    either for a document without a node section or with the text of the
    exception the parser threw; and a configuration is returned only for a
    document that has a node section. *)
Theorem config_outcome {yaml : Yaml} (memory : ServerConfig) (w : World) (file_path : str) :
  match LoadFromFile memory w file_path with
  | Val c => is_Some (files w !! file_path) /\
      exists doc, LoadFile w file_path = inr doc /\ has_section doc (lit "node")
  | Err s =>
      (code_ s = kNotFound <-> files w !! file_path = None) /\
      (code_ s = kNotFound \/ code_ s = kInvalidArgument) /\
      (code_ s = kInvalidArgument ->
       message_ s = lit "Missing required 'node' section in config" \/
       exists what, message_ s = lit "Failed to parse YAML config: " ++ what /\
         (LoadFile w file_path = inl what \/
          exists doc, LoadFile w file_path = inr doc /\ parse_config memory doc = inl what))
  end.
Proof.
  destruct (LoadFromFile memory w file_path) as [c|s] eqn:E.
  - apply LoadFromFile_Val in E as (doc & Hf & Hd & Hp). split; [done|]. exists doc. split; [done|].
    apply parse_config_Some in Hp as (Hn & _). by eapply parse_node_Some.
  - revert E. unfold LoadFromFile, fs_exists. destruct (files w !! file_path) as [bs|]; cbn [negb].
    + destruct (LoadFile w file_path) as [what|doc] eqn:El; cbn [guard].
      * intros [= <-]. cbn. split_and!; [done|by right|]. intros _. right. eauto.
      * destruct (parse_config memory doc) as [what|[c|]] eqn:Ep; intros [= <-]; cbn;
          (split_and!; [done|by right|]); intros _; [right; exists what; eauto|by left].
    + intros [= <-]. cbn. by split_and!; [|left|].
Qed.

(** Loaded numbers fit their types: with yaml-cpp's conversions as
    documented, every [size_t] and [int] member of a configuration that loads
    holds a value of its type, the defaults included. *)
Theorem config_types {yaml : Yaml} {doc : YamlDocumented yaml} (memory c : ServerConfig) (w : World) (file_path : str)
    (Hmem : config_widths memory) (Hload : LoadFromFile memory w file_path = Val c) :
  config_widths c.
Proof.
  apply LoadFromFile_Val in Hload as (d & _ & _ & (_ & Hs & Hr & _)%parse_config_Some). destruct Hmem as [Hms Hmr]. split.
  - apply parse_storage_inv in Hs as [(_ & dir & mem & cache & ->)|[_ ->]]; [|done].
    split; cbn; by apply size_width.
  - apply parse_raft_inv in Hr as [(_ & x & y & z & ->)|[_ ->]]; [|done].
    split_and!; cbn; by apply int_width.
Qed.

(** C36. Which configurations are determined by their file: a document that
    loads gives the same configuration whatever was in memory exactly when it
    has both a storage and a raft section; without one of them the numbers of
    that section are those that happened to be in memory. *)
Theorem config_determined {yaml : Yaml} (memory c : ServerConfig) (w : World) (file_path : str) (doc : Node)
    (Hdoc : LoadFile w file_path = inr doc) (Hload : LoadFromFile memory w file_path = Val c) :
  (forall memory', LoadFromFile memory' w file_path = Val c) <->
  has_section doc (lit "storage") /\ has_section doc (lit "raft").
Proof.
  pose proof Hload as Hload0. apply LoadFromFile_Val in Hload as (doc' & Hf & Hdoc' & Hp). rewrite Hdoc in Hdoc'.
  injection Hdoc' as <-. apply parse_config_Some in Hp as (Hn & Hs & Hr & Hc).
  assert (forall memory', exists s r, LoadFromFile memory' w file_path = Val (mkServerConfig (node c) s r (cluster c)) /\
    (has_section doc (lit "storage") -> s = storage c) /\ (has_section doc (lit "raft") -> r = raft c) /\
    (~ has_section doc (lit "storage") -> s = storage (ServerConfig_init memory')) /\
    (~ has_section doc (lit "raft") -> r = raft memory')) as Hany.
  { intros memory'. destruct (parse_storage_other doc _ (storage (ServerConfig_init memory')) _ Hs) as (s & Hs' & Hs1 & Hs2).
    destruct (parse_raft_other doc _ (raft memory') _ Hr) as (r & Hr' & Hr1 & Hr2).
    exists s, r. split_and!; auto. eapply LoadFromFile_doc; [done|done|]. by apply parse_config_parts. }
  split.
  - intros Hall.
    set (m1 := mkServerConfig (node c) (mkStorageConfig [] (memtable_size_mb (storage c) + 1) 0)
                 (mkRaftConfig (election_timeout_ms (raft c) + 1) 0 0) (cluster c)).
    destruct (Hany m1) as (s & r & Hl & _ & _ & Hs2 & Hr2). rewrite Hall in Hl. injection Hl as Hc1.
    pose proof (f_equal storage Hc1) as Es. pose proof (f_equal raft Hc1) as Er. cbn in Es, Er.
    apply parse_storage_inv in Hs as [[Hhs _]|[Hno _]].
    + split; [done|]. apply parse_raft_inv in Hr as [[Hhr _]|[Hno _]]; [done|]. exfalso.
      rewrite (Hr2 Hno) in Er. apply (f_equal election_timeout_ms) in Er. cbn in Er. lia.
    + exfalso. rewrite (Hs2 Hno) in Es. apply (f_equal memtable_size_mb) in Es. cbn in Es. lia.
  - intros [Hhs Hhr] memory'. destruct (Hany memory') as (s & r & -> & Hs1 & Hr1 & _).
    rewrite (Hs1 Hhs), (Hr1 Hhr). by destruct c.
Qed.

(** ** Witnesses *)

Lemma config_types_witness :
  exists c, LoadFromFile (yaml := Tree.sample_yaml) Tree.zero_memory Tree.sample_world (lit "config.yaml") = Val c /\
    config_widths c.
Proof.
  eexists. split; [apply Tree.sample_loads|].
  apply (config_types (yaml := Tree.sample_yaml) (doc := Tree.yaml_tree_documented _)
           Tree.zero_memory _ Tree.sample_world (lit "config.yaml")).
  - repeat split; vm_compute; congruence.
  - apply Tree.sample_loads.
Defined.

(** The sample file determines its configuration; a file with only a node
    section does not. *)
Lemma config_determined_witness :
  (exists c, forall memory, LoadFromFile (yaml := Tree.sample_yaml) memory Tree.sample_world (lit "config.yaml") = Val c) /\
  (exists c, LoadFromFile (yaml := Tree.node_only) Tree.zero_memory Tree.sample_world (lit "config.yaml") = Val c /\
     ~ forall memory, LoadFromFile (yaml := Tree.node_only) memory Tree.sample_world (lit "config.yaml") = Val c).
Proof.
  split.
  - eexists. apply (config_determined (yaml := Tree.sample_yaml) Tree.zero_memory _ Tree.sample_world (lit "config.yaml") Tree.sample);
      [reflexivity|apply Tree.sample_loads|]. split; eexists; (split; [vm_compute|]; reflexivity).
  - eexists. split; [vm_compute; reflexivity|].
    intros [(n & Hn & Hd) _]%(config_determined (yaml := Tree.node_only) Tree.zero_memory _ Tree.sample_world
                                 (lit "config.yaml") (Tree.YMap [(lit "node", Tree.YNull)]) eq_refl eq_refl).
    vm_compute in Hn. injection Hn as <-. discriminate Hd.
Defined.
