(* ===== verification/Uuid.v ===== *)
(** * [UUID]

    Models src/src/common/utils/uuid.h: [Generate] and [ShortID].  The engine
    is the [std::mt19937] of Mt19937.v, whose state is passed explicitly (it is
    [thread_local]: each thread and each function has its own).  How
    [std::uniform_int_distribution] turns its words into numbers is left to
    the library by the C++ standard, which gives the range of the result: the
    class [UniformInt] states it. *)

From S2P Require Import Prelude Mt19937.

(** [std::uniform_int_distribution<uint32_t>(a, b)(rng)] *)
Class UniformInt : Type := {
  uniform_int : Z -> Z -> mt19937 -> Z * mt19937;
  uniform_int_range : forall a b g, a <= b -> a <= (uniform_int a b g).1 <= b
}.

(** What libstdc++ computes when the size of the range divides [2^32], as it
    does for the ranges used here. *)
Definition scale_word (a b x : Z) : Z := a + u32 x * (b - a + 1) / 2 ^ 32.

Lemma scale_word_range a b x : a <= b -> a <= scale_word a b x <= b.
Proof.
  intros Hab. unfold scale_word. pose proof (u32_range x) as Hx.
  assert (0 <= u32 x * (b - a + 1) / 2 ^ 32 < b - a + 1); [|lia].
  split; [apply Z.div_pos; nia|]. apply Z.div_lt_upper_bound; nia.
Qed.

Definition scaled_draw (a b : Z) (g : mt19937) : Z * mt19937 :=
  let '(x, g) := mt_next g in (scale_word a b x, g).

Lemma scaled_draw_range a b g : a <= b -> a <= (scaled_draw a b g).1 <= b.
Proof. intros Hab. unfold scaled_draw. destruct (mt_next g) as [x g']. by apply scale_word_range. Qed.

#[local] Instance libstdcxx_uniform_int : UniformInt :=
  {| uniform_int := scaled_draw; uniform_int_range := scaled_draw_range |}.

(** ** [std::hex] *)

Definition hex_digit (d : Z) : byte := byte_of_Z (if d <? 10 then 48 + d else 87 + d).

(** The digits of [n], most significant first, in front of [acc]. *)
Fixpoint hex_digits (fuel : nat) (n : Z) (acc : str) : str :=
  match fuel with
  | O => acc
  | S fuel' => if n <? 16 then hex_digit n :: acc else hex_digits fuel' (n / 16) (hex_digit (n mod 16) :: acc)
  end.

(** A [uint32_t] has at most 8 hexadecimal digits. *)
Definition to_hex (n : Z) : str := hex_digits 8 n [].

(** [std::setfill('0') << std::setw(8)] *)
Definition setw8 (s : str) : str := replicate (8 - length s) Byte.x30 ++ s.

Section uuid.
Context {dist : UniformInt}.

(** ** [Generate] *)

(** One round of the loop: what is written to the stream. *)
Definition uuid_round (i : Z) (rng : mt19937) : str * mt19937 :=
  let dash := if (i =? 8) || (i =? 12) || (i =? 16) || (i =? 20) then lit "-" else [] in
  if i =? 12 then (dash ++ lit "4", rng)
  else if i =? 16 then let '(x, rng) := uniform_int 8 11 rng in (dash ++ to_hex x, rng)
  else let '(x, rng) := uniform_int 0 15 rng in (dash ++ to_hex x, rng).

(** [n] rounds left, the next one being [i]. *)
Fixpoint uuid_loop (n : nat) (i : Z) (ss : str) (rng : mt19937) : str * mt19937 :=
  match n with
  | O => (ss, rng)
  | S n' => let '(out, rng) := uuid_round i rng in uuid_loop n' (i + 1) (ss ++ out) rng
  end.

Definition Generate (rng : mt19937) : str * mt19937 := uuid_loop 32 0 [] rng.

(** ** [ShortID] *)

Definition ShortID (rng : mt19937) : str * mt19937 :=
  let '(x, rng) := uniform_int 0 0xFFFFFFFF rng in (setw8 (to_hex x), rng).
End uuid.

(** ** The documented format *)

Definition is_hex (b : byte) : bool :=
  ((48 <=? Z_of_byte b) && (Z_of_byte b <=? 57)) || ((97 <=? Z_of_byte b) && (Z_of_byte b <=? 102)).

(** A character of the pattern in the comment: 'x' a hexadecimal digit, 'y' one
    of 8, 9, a and b, any other character itself. *)
Definition accepts (p c : byte) : bool :=
  if bool_decide (p = Byte.x78) then is_hex c
  else if bool_decide (p = Byte.x79) then bool_decide (c ∈ lit "89ab")
  else bool_decide (c = p).

Definition uuid_pattern : str := lit "xxxxxxxx-xxxx-4xxx-yxxx-xxxxxxxxxxxx".

(** The value of a hexadecimal number. *)
Definition unhex (acc : Z) (b : byte) : Z :=
  16 * acc + (if Z_of_byte b <? 97 then Z_of_byte b - 48 else Z_of_byte b - 87).

(** ** Proofs *)

Lemma hex_digit_value d : 0 <= d < 16 -> Z_of_byte (hex_digit d) = if d <? 10 then 48 + d else 87 + d.
Proof. intros Hd. unfold hex_digit. rewrite Z_of_byte_of_Z. apply Z.mod_small. destruct (d <? 10); lia. Qed.

Lemma hex_digit_is_hex d : 0 <= d < 16 -> is_hex (hex_digit d) = true.
Proof.
  intros Hd. unfold is_hex. rewrite hex_digit_value by done. destruct (Z.ltb_spec d 10); apply orb_true_iff;
    [left|right]; apply andb_true_iff; split; apply Z.leb_le; lia.
Qed.

Lemma hex_digit_variant d : 8 <= d <= 11 -> hex_digit d ∈ lit "89ab".
Proof.
  intros Hd. assert (d = 8 \/ d = 9 \/ d = 10 \/ d = 11) as H by lia.
  repeat destruct H as [-> | H]; try subst d; vm_compute; repeat (first [left; reflexivity | right]).
Qed.

Lemma unhex_digit acc d : 0 <= d < 16 -> unhex acc (hex_digit d) = 16 * acc + d.
Proof.
  intros Hd. unfold unhex. rewrite hex_digit_value by done. destruct (Z.ltb_spec d 10).
  - rewrite (proj2 (Z.ltb_lt _ _)) by lia. lia.
  - rewrite (proj2 (Z.ltb_ge _ _)) by lia. lia.
Qed.

Lemma to_hex_digit d : 0 <= d < 16 -> to_hex d = [hex_digit d].
Proof. intros Hd. unfold to_hex. cbn [hex_digits]. by rewrite (proj2 (Z.ltb_lt _ _)) by lia. Qed.

Lemma hex_digits_value fuel : forall n acc,
  0 <= n < 16 ^ Z.of_nat fuel -> foldl unhex 0 (hex_digits fuel n acc) = foldl unhex n acc.
Proof.
  induction fuel as [|fuel IH]; intros n acc Hn; [cbn in Hn; by assert (n = 0) as -> by lia|].
  rewrite Nat2Z.inj_succ, Z.pow_succ_r in Hn by lia. cbn [hex_digits]. destruct (Z.ltb_spec n 16).
  - cbn [foldl]. by rewrite unhex_digit by lia.
  - pose proof (Z.div_mod n 16 ltac:(lia)). pose proof (Z.mod_pos_bound n 16 ltac:(lia)).
    rewrite IH by lia. cbn [foldl]. rewrite unhex_digit by lia. f_equal. lia.
Qed.

Lemma hex_digits_shape fuel : forall n acc,
  0 <= n < 16 ^ Z.of_nat fuel -> Forall (fun b => is_hex b = true) acc ->
  Forall (fun b => is_hex b = true) (hex_digits fuel n acc) /\ (length (hex_digits fuel n acc) <= fuel + length acc)%nat.
Proof.
  induction fuel as [|fuel IH]; intros n acc Hn Hacc; [done|].
  rewrite Nat2Z.inj_succ, Z.pow_succ_r in Hn by lia. cbn [hex_digits].
  pose proof (Z.div_mod n 16 ltac:(lia)). pose proof (Z.mod_pos_bound n 16 ltac:(lia)). destruct (Z.ltb_spec n 16).
  - split; [constructor; [apply hex_digit_is_hex; lia|done]|cbn; lia].
  - destruct (IH (n / 16) (hex_digit (n mod 16) :: acc)) as [Hs Hlen]; [lia|constructor; [apply hex_digit_is_hex; lia|done]|].
    split; [done|]. cbn [length] in Hlen. lia.
Qed.

Lemma setw8_value s : foldl unhex 0 (setw8 s) = foldl unhex 0 s.
Proof.
  unfold setw8. rewrite foldl_app. f_equal. induction (8 - length s)%nat as [|n IH]; [done|exact IH].
Qed.

(** The part of the pattern a round writes. *)
Definition round_pattern (i : Z) : str :=
  (if (i =? 8) || (i =? 12) || (i =? 16) || (i =? 20) then lit "-" else []) ++
  (if i =? 12 then lit "4" else if i =? 16 then lit "y" else lit "x").

Section format.
Context {dist : UniformInt}.

Lemma uuid_round_format i rng : Forall2 (fun p c => accepts p c = true) (round_pattern i) (uuid_round i rng).1.
Proof.
  unfold round_pattern, uuid_round.
  assert (Forall2 (fun p c => accepts p c = true)
            (if (i =? 8) || (i =? 12) || (i =? 16) || (i =? 20) then lit "-" else [])
            (if (i =? 8) || (i =? 12) || (i =? 16) || (i =? 20) then lit "-" else [])) as Hdash
    by (destruct (_ || _); repeat constructor).
  destruct (i =? 12); [by apply Forall2_app; [|repeat constructor]|]. destruct (i =? 16).
  - pose proof (uniform_int_range 8 11 rng ltac:(lia)) as Hr. destruct (uniform_int 8 11 rng) as [x rng'].
    cbn [fst] in Hr |- *. apply Forall2_app; [done|]. rewrite to_hex_digit by lia. repeat constructor.
    unfold accepts. rewrite bool_decide_false, bool_decide_true by done. by apply bool_decide_eq_true, hex_digit_variant.
  - pose proof (uniform_int_range 0 15 rng ltac:(lia)) as Hr. destruct (uniform_int 0 15 rng) as [x rng'].
    cbn [fst] in Hr |- *. apply Forall2_app; [done|]. rewrite to_hex_digit by lia. repeat constructor.
    unfold accepts. rewrite bool_decide_true by done. apply hex_digit_is_hex. lia.
Qed.

Fixpoint rounds_pattern (n : nat) (i : Z) : str :=
  match n with O => [] | S n' => round_pattern i ++ rounds_pattern n' (i + 1) end.

Lemma uuid_loop_format n : forall i pre ss rng,
  Forall2 (fun p c => accepts p c = true) pre ss ->
  Forall2 (fun p c => accepts p c = true) (pre ++ rounds_pattern n i) (uuid_loop n i ss rng).1.
Proof.
  induction n as [|n IH]; intros i pre ss rng Hss; cbn [uuid_loop rounds_pattern].
  - by rewrite app_nil_r.
  - pose proof (uuid_round_format i rng) as Hr. destruct (uuid_round i rng) as [out rng']. rewrite app_assoc.
    apply IH. by apply Forall2_app.
Qed.
End format.

(** * Properties *)

(** C37. The format of identifiers: whatever the engine draws, [Generate] returns
    a string of the form xxxxxxxx-xxxx-4xxx-yxxx-xxxxxxxxxxxx, 'x' being a
    lower-case hexadecimal digit and 'y' one of 8, 9, a and b. *)
Theorem uuid_format {dist : UniformInt} (rng : mt19937) :
  Forall2 (fun p c => accepts p c = true) uuid_pattern (Generate rng).1.
Proof. apply (uuid_loop_format 32 0 [] [] rng). constructor. Qed.

(** Short identifiers: [ShortID] returns eight lower-case hexadecimal
    digits, leading zeros included, whose value is the number drawn; so two
    draws give the same identifier only when they are equal. *)
Theorem short_id_value {dist : UniformInt} (rng : mt19937) :
  length (ShortID rng).1 = 8%nat /\ Forall (fun b => is_hex b = true) (ShortID rng).1 /\
  foldl unhex 0 (ShortID rng).1 = (uniform_int 0 0xFFFFFFFF rng).1.
Proof.
  unfold ShortID. pose proof (uniform_int_range 0 0xFFFFFFFF rng ltac:(lia)) as Hr.
  destruct (uniform_int 0 0xFFFFFFFF rng) as [x rng']. cbn [fst] in Hr |- *.
  destruct (hex_digits_shape 8 x []) as [Hhex Hlen]; [cbn; lia|constructor|]. fold (to_hex x) in Hhex, Hlen.
  rewrite setw8_value. unfold to_hex at 3. rewrite hex_digits_value by (cbn; lia). unfold setw8.
  split_and!; [rewrite length_app, length_replicate; cbn [length] in Hlen; lia| |done].
  apply Forall_app_2; [|done]. by apply Forall_replicate.
Qed.

(** The identifiers of an engine seeded with 42. *)
Example generate_seed42 :
  (Generate (dist := libstdcxx_uniform_int) (mt_seed 42)).1 = lit "5cf2bc99-2721-407d-992b-a00fbdf302f2" /\
  (ShortID (dist := libstdcxx_uniform_int) (mt_seed 42)).1 = lit "5fe1dc66".
Proof. vm_compute. split; reflexivity. Qed.
