(* ===== verification/Logger.v ===== *)
(** * [Logger]

    Models src/src/common/logging: the static state of [Logger], [Initialize],
    [Shutdown], [Get] and the [LOG_*] macros.  spdlog and its fmt are not part
    of the repository: the class [Spdlog] names what is called of them, and
    [SpdlogDocumented] what their documentation says.

    The code is written in a small monad of state and outcomes.  An operation
    keeps the state it had reached when an exception leaves it.

    The properties: the life cycle (when [Initialize] returns, when logging uses
    a null pointer) is that of a small automaton, whatever calls of the library
    throw, and a JSON reader gets the arguments of a macro back from the line it
    writes exactly when they need no escaping. *)

From S2P Require Import Prelude.

(** [spdlog::level] as far as it is used, and [LogLevel] of log_level.h. *)
Inductive level : Set := info | warn | err | critical.

Inductive LogLevel : Set := kTrace | kDebug | kInfo | kWarn | kError | kFatal.

(** A [shared_ptr<spdlog::logger>]: its constant name, and its identity. *)
Record LoggerPtr : Set := mkLoggerPtr { lp_name : str; lp_id : Z }.

(** [None] is an exception. *)
Class Spdlog : Type := {
  Spd : Type;
  Sink : Type;
  init_thread_pool : Z -> Z -> Spd -> option Spd;
  stdout_color_sink_mt : Spd -> option (Sink * Spd);
  rotating_file_sink_mt : str -> Z -> Z -> Spd -> option (Sink * Spd);
  (** with the global thread pool, and blocking when its queue is full *)
  async_logger : str -> list Sink -> Spd -> option (LoggerPtr * Spd);
  set_pattern : LoggerPtr -> str -> Spd -> Spd;
  register_logger : LoggerPtr -> Spd -> option Spd;
  set_default_logger : LoggerPtr -> Spd -> Spd;
  set_level : LoggerPtr -> level -> Spd -> Spd;
  flush : LoggerPtr -> Spd -> Spd;
  shutdown : Spd -> Spd;
  log : LoggerPtr -> level -> str -> Spd -> Spd;
  (** [fmt::format] with string arguments *)
  format : str -> list str -> str
}.

Inductive outcome (A : Type) : Type :=
  | Returns (a : A)
  | Throws
  | NullPointer
  | Aborted.
Arguments Returns {A} a.
Arguments Throws {A}.
Arguments NullPointer {A}.
Arguments Aborted {A}.

Section logger.
Context {spdlog : Spdlog}.

(** The static members, and the state of the library. *)
Record Logger : Type := mkLogger { logger_ : option LoggerPtr; node_id_ : str; spd : Spd }.

Definition Logger_init (sp : Spd) : Logger := mkLogger None (lit "unknown") sp.

(** ** The monad *)

Definition prog (A : Type) : Type := Logger -> outcome A * Logger.

#[local] Instance prog_ret : MRet prog := fun A a s => (Returns a, s).

#[local] Instance prog_bind : MBind prog := fun A B k p s =>
  match p s with
  | (Returns a, s) => k a s
  | (Throws, s) => (Throws, s)
  | (NullPointer, s) => (NullPointer, s)
  | (Aborted, s) => (Aborted, s)
  end.

(** A call of the library that may throw, and one that does not. *)
Definition attempt {A} (f : Spd -> option (A * Spd)) : prog A := fun s =>
  match f (spd s) with
  | None => (Throws, s)
  | Some (a, sp) => (Returns a, mkLogger (logger_ s) (node_id_ s) sp)
  end.

Definition call (f : Spd -> Spd) : prog unit := attempt (fun sp => Some (tt, f sp)).

Definition attempt_ (f : Spd -> option Spd) : prog unit := attempt (fun sp => (fun sp => (tt, sp)) <$> f sp).

Definition set_node_id (node_id : str) : prog unit := fun s => (Returns tt, mkLogger (logger_ s) node_id (spd s)).

Definition set_logger (l : LoggerPtr) : prog unit := fun s => (Returns tt, mkLogger (Some l) (node_id_ s) (spd s)).

(** [logger_] where the source looks at it, and where it is dereferenced. *)
Definition Get : prog (option LoggerPtr) := fun s => (Returns (logger_ s), s).

Definition deref (l : option LoggerPtr) : prog LoggerPtr :=
  match l with Some l => mret l | None => fun s => (NullPointer, s) end.

(** ** Operations *)

Definition q : str := [Byte.x22].

Definition pattern (node_id : str) : str :=
  lit "{" ++ q ++ lit "time" ++ q ++ lit ": " ++ q ++ lit "%Y-%m-%dT%H:%M:%S.%f" ++ q ++ lit ", "
    ++ q ++ lit "node_id" ++ q ++ lit ": " ++ q
  ++ node_id
  ++ q ++ lit ", " ++ q ++ lit "level" ++ q ++ lit ": " ++ q ++ lit "%^%l%$" ++ q ++ lit ", "
    ++ q ++ lit "data" ++ q ++ lit ": %v}".

Definition Initialize (node_id log_file_path : str) : prog unit :=
  set_node_id node_id;;
  attempt_ (init_thread_pool 8192 1);;
  console_sink ← attempt stdout_color_sink_mt;
  file_sink ← attempt (rotating_file_sink_mt log_file_path (1024 * 1024 * 100) 10);
  l ← attempt (async_logger (lit "vectordb") [console_sink; file_sink]);
  set_logger l;;
  call (set_pattern l (pattern node_id));;
  attempt_ (register_logger l);;
  call (set_default_logger l);;
  call (set_level l info).

Definition Shutdown : prog unit :=
  l ← Get;
  match l with
  | Some l => call (flush l)
  | None => mret tt
  end;;
  call shutdown.

(** The format string of the macros. *)
Definition data_format : str :=
  lit "{{" ++ q ++ lit "component" ++ q ++ lit ": " ++ q ++ lit "{}" ++ q ++ lit ", "
  ++ q ++ lit "msg" ++ q ++ lit ": " ++ q ++ lit "{}" ++ q ++ lit "}}".

Definition LOG (lvl : level) (component msg : str) : prog unit :=
  p ← Get;
  l ← deref p;
  call (log l lvl (format data_format [component; msg])).

Definition LOG_INFO : str -> str -> prog unit := LOG info.

Definition LOG_WARN : str -> str -> prog unit := LOG warn.

Definition LOG_ERROR : str -> str -> prog unit := LOG err.

(** [std::abort] ends the process. *)
Definition abort_process : prog unit := fun s => (Aborted, s).

Definition LOG_FATAL (component msg : str) : prog unit :=
  LOG critical component msg;;
  Shutdown;;
  abort_process.

End logger.

Arguments Logger spdlog : clear implicits.

(** ** What spdlog documents *)

(** The registry of loggers by name: [register_logger] throws when the name is
    taken, [set_default_logger] registers as well, [shutdown] drops all.  Nothing
    else that is called changes it.  In a format string a doubled brace is a
    brace and a pair of braces is the next argument. *)
Class SpdlogDocumented (spdlog : Spdlog) : Type := {
  taken : Spd -> str -> bool;
  register_throws : forall l sp, register_logger l sp = None <-> taken sp (lp_name l) = true;
  register_takes : forall l sp sp', register_logger l sp = Some sp' -> taken sp' (lp_name l) = true;
  default_takes : forall l sp, taken (set_default_logger l sp) (lp_name l) = true;
  shutdown_drops : forall sp n, taken (shutdown sp) n = false;
  async_logger_name : forall n sinks sp l sp', async_logger n sinks sp = Some (l, sp') -> lp_name l = n;
  init_thread_pool_taken : forall a b sp sp', init_thread_pool a b sp = Some sp' -> taken sp' = taken sp;
  stdout_sink_taken : forall sp k sp', stdout_color_sink_mt sp = Some (k, sp') -> taken sp' = taken sp;
  file_sink_taken : forall f a b sp k sp', rotating_file_sink_mt f a b sp = Some (k, sp') -> taken sp' = taken sp;
  async_logger_taken : forall n sinks sp l sp', async_logger n sinks sp = Some (l, sp') -> taken sp' = taken sp;
  set_pattern_taken : forall l p sp, taken (set_pattern l p sp) = taken sp;
  set_level_taken : forall l v sp, taken (set_level l v sp) = taken sp;
  flush_taken : forall l sp, taken (flush l sp) = taken sp;
  log_taken : forall l v p sp, taken (log l v p sp) = taken sp;
  format_nil : forall args, format [] args = [];
  format_open : forall f args, format (Byte.x7b :: Byte.x7b :: f) args = Byte.x7b :: format f args;
  format_close : forall f args, format (Byte.x7d :: Byte.x7d :: f) args = Byte.x7d :: format f args;
  format_argument : forall f a args, format (Byte.x7b :: Byte.x7d :: f) (a :: args) = a ++ format f args;
  format_char : forall b f args, b <> Byte.x7b -> b <> Byte.x7d -> format (b :: f) args = b :: format f args
}.

(** ** Life cycle *)

Inductive op : Set :=
  | OpInitialize (node_id log_file_path : str)
  | OpShutdown
  | OpLog (lvl : level) (component msg : str)
  | OpFatal (component msg : str).

(** Whether the process goes on behind an operation with this outcome: an
    exception is taken to be caught by the caller. *)
Definition goes_on (o : outcome unit) : bool :=
  match o with Returns _ | Throws => true | NullPointer | Aborted => false end.

Section runs.
Context {O S : Type} (perform : O -> S -> outcome unit * S).

Fixpoint run (ops : list O) (s : S) : list (outcome unit) * S :=
  match ops with
  | [] => ([], s)
  | o :: ops =>
      let '(r, s) := perform o s in
      if goes_on r then let '(rs, s) := run ops s in (r :: rs, s) else ([r], s)
  end.

End runs.

Definition perform `{spdlog : Spdlog} (o : op) : prog unit :=
  match o with
  | OpInitialize node_id log_file_path => Initialize node_id log_file_path
  | OpShutdown => Shutdown
  | OpLog lvl component msg => LOG lvl component msg
  | OpFatal component msg => LOG_FATAL component msg
  end.

(** Whether the thread pool, the two sinks and the logger of an [Initialize] can be
    made in a state of the library. *)
Definition can_make `{spdlog : Spdlog} (log_file_path : str) (sp : Spd) : bool :=
  match init_thread_pool 8192 1 sp with
  | None => false
  | Some sp =>
      match stdout_color_sink_mt sp with
      | None => false
      | Some (console_sink, sp) =>
          match rotating_file_sink_mt log_file_path (1024 * 1024 * 100) 10 sp with
          | None => false
          | Some (file_sink, sp) =>
              match async_logger (lit "vectordb") [console_sink; file_sink] sp with None => false | Some _ => true end
          end
      end
  end.

Definition available `{spdlog : Spdlog} (o : op) (s : Logger spdlog) : bool :=
  match o with OpInitialize _ path => can_make path (spd s) | _ => true end.

(** What each operation of a run meets. *)
Fixpoint supply `{spdlog : Spdlog} (ops : list op) (s : Logger spdlog) : list bool :=
  match ops with
  | [] => []
  | o :: ops =>
      available o s :: (let '(r, s) := perform o s in if goes_on r then supply ops s else [])
  end.

(** The automaton: whether a logger was ever made, and whether its name is taken.
    An operation comes with whether its resources can be made. *)
Record phase : Set := mkPhase { created : bool; registered : bool }.

Definition spec_perform (x : bool * op) (p : phase) : outcome unit * phase :=
  match x.2 with
  | OpInitialize _ _ =>
      if x.1 then (if registered p then Throws else Returns tt, mkPhase true true) else (Throws, p)
  | OpShutdown => (Returns tt, mkPhase (created p) false)
  | OpLog _ _ _ => (if created p then Returns tt else NullPointer, p)
  | OpFatal _ _ => if created p then (Aborted, mkPhase true false) else (NullPointer, p)
  end.

(** The monad, and the fields behind a call of the library. *)
Ltac lib_unfold := unfold call, attempt_, attempt, set_logger, set_node_id, Get, deref, mret, prog_ret, mbind, prog_bind.
Ltac lib_step := cbn [fmap option_fmap option_map spd logger_ node_id_ created registered].

Section lifecycle.
Context `{spdlog : Spdlog} {documented : SpdlogDocumented spdlog}.

(** A state of the code is in a phase of the automaton. *)
Record in_phase (s : Logger spdlog) (p : phase) : Prop := {
  ip_created : is_Some (logger_ s) <-> created p = true;
  ip_taken : taken (spd s) (lit "vectordb") = registered p
}.

(** An exception while the resources are made leaves the phase as it was. *)
Lemma Initialize_throws node_id path s p :
  can_make path (spd s) = false -> in_phase s p ->
  exists s', Initialize node_id path s = (Throws, s') /\ in_phase s' p /\ node_id_ s' = node_id.
Proof.
  assert (forall sp, taken sp = taken (spd s) -> in_phase s p -> in_phase (mkLogger (logger_ s) node_id sp) p) as Hkeep.
  { intros sp Ht [H1 H2]. split; lib_step; [done|by rewrite Ht]. }
  intros Hm Hp. unfold can_make in Hm. unfold Initialize. lib_unfold. lib_step.
  destruct (init_thread_pool 8192 1 (spd s)) as [sp1|] eqn:E1; lib_step; [|by eexists; split; [done|]; auto].
  apply init_thread_pool_taken in E1.
  destruct (stdout_color_sink_mt sp1) as [[k1 sp2]|] eqn:E2; lib_step; [|by eexists; split; [done|]; auto].
  apply stdout_sink_taken in E2. rewrite E1 in E2.
  destruct (rotating_file_sink_mt path (1024 * 1024 * 100) 10 sp2) as [[k2 sp3]|] eqn:E3; lib_step;
    [|by eexists; split; [done|]; auto].
  apply file_sink_taken in E3. rewrite E2 in E3.
  destruct (async_logger (lit "vectordb") [k1; k2] sp3) as [[l sp4]|]; lib_step; [done|].
  by eexists; split; [done|]; auto.
Qed.

Lemma Initialize_spec node_id path s p :
  can_make path (spd s) = true -> in_phase s p ->
  exists s', Initialize node_id path s = ((if registered p then Throws else Returns tt), s') /\
  in_phase s' (mkPhase true true) /\ node_id_ s' = node_id.
Proof.
  intros Hm [_ Ht]. unfold can_make in Hm. unfold Initialize. lib_unfold. lib_step.
  destruct (init_thread_pool 8192 1 (spd s)) as [sp1|] eqn:E1; [|done]. lib_step.
  destruct (stdout_color_sink_mt sp1) as [[k1 sp2]|] eqn:E2; [|done]. lib_step.
  destruct (rotating_file_sink_mt path (1024 * 1024 * 100) 10 sp2) as [[k2 sp3]|] eqn:E3; [|done]. lib_step.
  destruct (async_logger (lit "vectordb") [k1; k2] sp3) as [[l sp4]|] eqn:E4; [|done]. lib_step.
  pose proof (async_logger_name _ _ _ _ _ E4) as Hn.
  apply init_thread_pool_taken in E1. apply stdout_sink_taken in E2.
  apply file_sink_taken in E3. apply async_logger_taken in E4.
  set (sp5 := set_pattern l (pattern node_id) sp4).
  assert (taken sp5 (lp_name l) = registered p) as H5.
  { unfold sp5. by rewrite set_pattern_taken, E4, E3, E2, E1, Hn. }
  destruct (register_logger l sp5) as [sp6|] eqn:E6; lib_step.
  - destruct (registered p) eqn:Er.
    { apply (register_throws l sp5) in H5. congruence. }
    eexists; split; [reflexivity|]. split; [|done]. split; lib_step; [by split; eauto|].
    by rewrite set_level_taken, <-Hn, default_takes.
  - apply (register_throws l sp5) in E6. rewrite H5 in E6. rewrite E6.
    eexists; split; [reflexivity|]. split; [|done]. split; lib_step; [by split; eauto|].
    by rewrite <-Hn, H5.
Qed.

Lemma Shutdown_spec s p :
  in_phase s p -> exists s', Shutdown s = (Returns tt, s') /\ in_phase s' (mkPhase (created p) false).
Proof.
  intros [Hc Ht]. unfold Shutdown. lib_unfold.
  destruct (logger_ s) as [l|] eqn:E; lib_step; eexists; (split; [reflexivity|]); split; lib_step;
    rewrite ?shutdown_drops, ?E; done.
Qed.

Lemma LOG_spec lvl component msg s p :
  in_phase s p ->
  exists s', LOG lvl component msg s = ((if created p then Returns tt else NullPointer), s') /\ in_phase s' p.
Proof.
  intros [Hc Ht]. unfold LOG. lib_unfold. destruct (logger_ s) as [l|] eqn:E; lib_step.
  - rewrite (proj1 Hc) by eauto. eexists; split; [reflexivity|].
    split; lib_step; [by rewrite <-Hc, E|by rewrite log_taken].
  - destruct (created p) eqn:Ec; [by destruct (proj2 Hc)|].
    exists s. split; [done|]. split; [by rewrite E, Ec|done].
Qed.

Lemma LOG_FATAL_spec component msg s p :
  in_phase s p ->
  exists s', LOG_FATAL component msg s = ((if created p then Aborted else NullPointer), s') /\
  in_phase s' (if created p then mkPhase true false else p).
Proof.
  intros H. unfold LOG_FATAL. unfold mbind, prog_bind.
  destruct (LOG_spec critical component msg s p H) as (s1 & -> & H1).
  destruct (created p) eqn:Ec; [|by eauto].
  destruct (Shutdown_spec s1 p H1) as (s2 & E2 & H2). rewrite E2.
  exists s2. split; [done|]. by rewrite <-Ec.
Qed.

Lemma perform_simulation o s p :
  in_phase s p ->
  exists s', perform o s = ((spec_perform (available o s, o) p).1, s') /\
    in_phase s' (spec_perform (available o s, o) p).2.
Proof.
  intros H. unfold spec_perform. cbn [fst snd]. destruct o; cbn [perform available].
  - destruct (can_make log_file_path (spd s)) eqn:Hm; cbn [fst snd].
    + destruct (Initialize_spec node_id log_file_path s p Hm H) as (s' & E & Hp & _). eauto.
    + destruct (Initialize_throws node_id log_file_path s p Hm H) as (s' & E & Hp & _). eauto.
  - by apply Shutdown_spec.
  - by apply LOG_spec.
  - destruct (LOG_FATAL_spec component msg s p H) as (s' & -> & Hp).
    destruct (created p); eauto.
Qed.

Lemma run_simulation ops : forall s p,
  in_phase s p ->
  let spec := run spec_perform (zip (supply ops s) ops) p in
  exists s', run perform ops s = (spec.1, s') /\ in_phase s' spec.2.
Proof.
  induction ops as [|o ops IH]; intros s p H; cbn [run supply]; [by exists s|].
  change (zip (?b :: ?bs) (o :: ops)) with ((b, o) :: zip bs ops). cbn [run].
  destruct (perform_simulation o s p H) as (s1 & -> & H1).
  destruct (spec_perform _ p) as [r p1]. cbn [fst snd] in *.
  destruct (goes_on r); [|by exists s1].
  destruct (IH s1 p1 H1) as (s2 & -> & H2).
  destruct (run spec_perform _ p1). by exists s2.
Qed.

End lifecycle.

(** ** JSON

    A reader of JSON objects whose members are strings (RFC 8259).  A string is
    read to its closing quote and its escapes are decoded, [\u] ones to UTF-8,
    with surrogates in pairs; bytes from 0x80 are taken as they are. *)

(** A character that stands for itself. *)
Definition json_plain (b : byte) : bool :=
  (32 <=? Z_of_byte b) && negb (bool_decide (b = Byte.x22)) && negb (bool_decide (b = Byte.x5c)).

(** What the character behind a backslash stands for. *)
Definition json_escape (b : byte) : option byte :=
  match b with
  | Byte.x22 | Byte.x5c | Byte.x2f => Some b
  | Byte.x62 => Some Byte.x08
  | Byte.x66 => Some Byte.x0c
  | Byte.x6e => Some Byte.x0a
  | Byte.x72 => Some Byte.x0d
  | Byte.x74 => Some Byte.x09
  | _ => None
  end.

Definition hex_digit (b : byte) : option Z :=
  let c := Z_of_byte b in
  if (48 <=? c) && (c <=? 57) then Some (c - 48)
  else if (65 <=? c) && (c <=? 70) then Some (c - 55)
  else if (97 <=? c) && (c <=? 102) then Some (c - 87)
  else None.

Fixpoint read_hex (n : nat) (acc : Z) (s : str) : option (Z * str) :=
  match n, s with
  | O, _ => Some (acc, s)
  | S n, b :: s => match hex_digit b with Some d => read_hex n (16 * acc + d) s | None => None end
  | S _, [] => None
  end.

Definition utf8 (c : Z) : str :=
  let tail n := byte_of_Z (128 + Z.shiftr c n mod 64) in
  if c <? 128 then [byte_of_Z c]
  else if c <? 2048 then [byte_of_Z (192 + Z.shiftr c 6); tail 0]
  else if c <? 65536 then [byte_of_Z (224 + Z.shiftr c 12); tail 6; tail 0]
  else [byte_of_Z (240 + Z.shiftr c 18); tail 12; tail 6; tail 0].

Definition high_surrogate (c : Z) : bool := (55296 <=? c) && (c <? 56320).
Definition low_surrogate (c : Z) : bool := (56320 <=? c) && (c <? 57344).

(** What stands behind [\u]. *)
Definition read_unicode (s : str) : option (str * str) :=
  '(c, s) ← read_hex 4 0 s;
  if low_surrogate c then None
  else if negb (high_surrogate c) then Some (utf8 c, s)
  else
    match s with
    | b :: u :: s =>
        if decide (b = Byte.x5c /\ u = Byte.x75) then
          '(d, s) ← read_hex 4 0 s;
          if low_surrogate d then Some (utf8 (65536 + 1024 * (c - 55296) + (d - 56320)), s) else None
        else None
    | _ => None
    end.

(** One character of a string: its bytes, and what follows. *)
Definition read_char (b : byte) (s : str) : option (str * str) :=
  if decide (b = Byte.x5c) then
    match s with
    | [] => None
    | e :: s =>
        match json_escape e with
        | Some c => Some ([c], s)
        | None => if decide (e = Byte.x75) then read_unicode s else None
        end
    end
  else if json_plain b then Some ([b], s) else None.

(** A string up to its closing quote; every character takes a byte of fuel. *)
Fixpoint read_chars (fuel : nat) (s : str) : option (str * str) :=
  match fuel, s with
  | S fuel, b :: s =>
      if decide (b = Byte.x22) then Some ([], s)
      else
        '(c, s) ← read_char b s;
        '(v, s) ← read_chars fuel s;
        Some (c ++ v, s)
  | _, _ => None
  end.

Fixpoint skip_space (s : str) : str :=
  match s with
  | b :: r => if bool_decide (b ∈ [Byte.x20; Byte.x09; Byte.x0a; Byte.x0d]) then skip_space r else s
  | [] => []
  end.

Definition expect (b : byte) (s : str) : option str :=
  match skip_space s with
  | c :: r => if decide (c = b) then Some r else None
  | [] => None
  end.

Definition read_string (s : str) : option (str * str) := s ← expect Byte.x22 s; read_chars (length s) s.

Definition read_member (s : str) : option ((str * str) * str) :=
  '(k, s) ← read_string s;
  s ← expect Byte.x3a s;
  '(v, s) ← read_string s;
  Some ((k, v), s).

Fixpoint read_members (fuel : nat) (s : str) : option (list (str * str) * str) :=
  match fuel with
  | O => None
  | S fuel =>
      '(kv, s) ← read_member s;
      match expect Byte.x2c s with
      | Some s => '(kvs, s) ← read_members fuel s; Some (kv :: kvs, s)
      | None => s ← expect Byte.x7d s; Some ([kv], s)
      end
  end.

Definition read_object (s : str) : option (list (str * str)) :=
  body ← expect Byte.x7b s;
  '(kvs, rest) ← match expect Byte.x7d body with
                 | Some rest => Some ([], rest)
                 | None => read_members (length body) body
                 end;
  if decide (skip_space rest = []) then Some kvs else None.

(** *** Text that is read back *)

Definition plain (s : str) : bool := forallb json_plain s.

Lemma read_char_plain b s : json_plain b = true -> b <> Byte.x22 /\ read_char b s = Some ([b], s).
Proof.
  intros Hb. pose proof Hb as Hp. unfold json_plain in Hb. apply andb_prop in Hb as [[_ H1]%andb_prop H2].
  apply negb_true_iff, bool_decide_eq_false in H1, H2. split; [done|]. unfold read_char. by rewrite decide_False, Hp.
Qed.

Lemma read_chars_plain v r : forall fuel, (length v < fuel)%nat -> plain v = true ->
  read_chars fuel (v ++ Byte.x22 :: r) = Some (v, r).
Proof.
  induction v as [|b v IH]; intros [|fuel] Hf Hv; cbn [length] in Hf; try lia; cbn [app read_chars]; [done|].
  apply andb_prop in Hv as [Hb Hv]. destruct (read_char_plain b (v ++ Byte.x22 :: r) Hb) as [Hq ->].
  rewrite decide_False by done. cbn [mbind option_bind]. by rewrite IH by (done || lia).
Qed.

Lemma read_string_plain v r : plain v = true -> read_chars (length (v ++ Byte.x22 :: r)) (v ++ Byte.x22 :: r) = Some (v, r).
Proof. apply read_chars_plain. rewrite length_app. cbn. lia. Qed.

(** The quotes in a text.  A character that is read is shorter than what it is
    written as, unless it stands for itself, and has no fewer quotes. *)
Definition quotes (s : str) : nat := length (filter (fun b => b = Byte.x22) s).

Lemma quotes_app s t : quotes (s ++ t) = (quotes s + quotes t)%nat.
Proof. unfold quotes. by rewrite filter_app, length_app. Qed.

Lemma quotes_cons b s : quotes (b :: s) = (quotes [b] + quotes s)%nat.
Proof. apply (quotes_app [b]). Qed.

Lemma read_hex_text n : forall acc s c r, read_hex n acc s = Some (c, r) ->
  exists t, s = t ++ r /\ length t = n /\ quotes t = 0%nat.
Proof.
  induction n as [|n IH]; intros acc s c r; cbn [read_hex].
  - intros [= _ ->]. by exists [].
  - destruct s as [|b s]; [done|]. destruct (hex_digit b) eqn:Eb; [|done]. intros (t & -> & Hl & Hq)%IH.
    exists (b :: t). split; [done|]. split; [cbn; lia|]. rewrite quotes_cons, Hq.
    unfold quotes. rewrite filter_cons_False; [done|]. by intros ->.
Qed.

Lemma length_utf8 c : (length (utf8 c) <= 4)%nat.
Proof. unfold utf8. repeat case_match; cbn; lia. Qed.

(** A string [v] read from [s]: [t] is how it is written. *)
Definition written (s t v r : str) : Prop :=
  s = t ++ r /\ (length v <= length t)%nat /\ (quotes t <= quotes v)%nat /\
  (length v = length t -> t = v /\ plain v = true).

Lemma written_shorter s t v r :
  s = t ++ r -> (length v < length t)%nat -> (quotes t <= quotes v)%nat -> written s t v r.
Proof. intros. split_and!; try done; lia. Qed.

Lemma read_unicode_text s c r : read_unicode s = Some (c, r) -> exists t, written (Byte.x5c :: Byte.x75 :: s) t c r.
Proof.
  unfold read_unicode. destruct (read_hex 4 0 s) as [[x s1]|] eqn:E1; cbn [mbind option_bind]; [|done].
  apply read_hex_text in E1 as (t1 & -> & Hl1 & Hq1). destruct (low_surrogate x); [done|].
  destruct (negb (high_surrogate x)).
  - intros [= <- <-]. exists (Byte.x5c :: Byte.x75 :: t1). pose proof (length_utf8 x).
    apply written_shorter; [done|cbn; lia|]. change (Byte.x5c :: Byte.x75 :: t1) with ([Byte.x5c; Byte.x75] ++ t1). rewrite quotes_app, Hq1.
    change (quotes [Byte.x5c; Byte.x75]) with 0%nat. lia.
  - destruct s1 as [|b [|u s1]]; [done..|]. case_decide as Hbu; [|done]. destruct Hbu as [-> ->].
    destruct (read_hex 4 0 s1) as [[y s2]|] eqn:E2; cbn [mbind option_bind]; [|done].
    apply read_hex_text in E2 as (t2 & -> & Hl2 & Hq2). destruct (low_surrogate y); [|done]. intros [= <- <-].
    exists (Byte.x5c :: Byte.x75 :: t1 ++ Byte.x5c :: Byte.x75 :: t2).
    set (z := 65536 + 1024 * (x - 55296) + (y - 56320)). pose proof (length_utf8 z).
    apply written_shorter; [by cbn; rewrite <-app_assoc|cbn; rewrite length_app; cbn; lia|].
    change (Byte.x5c :: Byte.x75 :: t1 ++ Byte.x5c :: Byte.x75 :: t2)
      with ([Byte.x5c; Byte.x75] ++ t1 ++ [Byte.x5c; Byte.x75] ++ t2).
    rewrite !quotes_app, Hq1, Hq2. change (quotes [Byte.x5c; Byte.x75]) with 0%nat. lia.
Qed.

Lemma read_char_text b s c r : read_char b s = Some (c, r) -> exists t, written (b :: s) t c r.
Proof.
  unfold read_char. case_decide as Hbs; [subst b|].
  - destruct s as [|e s]; [done|]. destruct (json_escape e) as [x|] eqn:Ee.
    + intros [= <- <-]. exists [Byte.x5c; e]. apply written_shorter; [done|cbn; lia|].
      destruct (decide (e = Byte.x22)) as [->|He]; [injection Ee as <-; vm_compute; done|].
      rewrite quotes_cons. unfold quotes at 2. rewrite filter_cons_False by done.
      change (quotes [Byte.x5c]) with 0%nat. cbn [filter list_filter length]. lia.
    + case_decide; [subst e|done]. apply read_unicode_text.
  - destruct (json_plain b) eqn:Hp; [|done]. intros [= <- <-]. exists [b]. split_and!; try done.
    intros _. split; [done|]. cbn. by rewrite Hp.
Qed.

Lemma written_app s t v s1 t1 v1 r : written s t v s1 -> written s1 t1 v1 r -> written s (t ++ t1) (v ++ v1) r.
Proof.
  intros (-> & L1 & Q1 & P1) (-> & L2 & Q2 & P2). unfold written. rewrite !length_app, !quotes_app.
  split_and!; [by rewrite <-app_assoc|lia|lia|]. intros Hl.
  destruct P1 as [-> H1]; [lia|]. destruct P2 as [-> H2]; [lia|]. split; [done|]. unfold plain in *. by rewrite forallb_app, H1.
Qed.

Lemma read_chars_text fuel : forall s v r, read_chars fuel s = Some (v, r) -> exists t, written s t v (Byte.x22 :: r).
Proof.
  induction fuel as [|fuel IH]; intros [|b s] v r; cbn [read_chars]; try done.
  case_decide as Hb; [intros [= <- <-]; subst b; by exists []|].
  destruct (read_char b s) as [[c s1]|] eqn:Ec; cbn [mbind option_bind]; [|done].
  apply read_char_text in Ec as [t Ht].
  destruct (read_chars fuel s1) as [[v1 s2]|] eqn:Ev; cbn [mbind option_bind]; [|done]. intros [= <- <-].
  apply IH in Ev as [t1 Ht1]. exists (t ++ t1). by eapply written_app.
Qed.

(** Text between quotes that is read as itself needs no escaping: an escape would
    be read as something shorter, and a quote inside ends the string, or is read
    as part of it together with the one behind. *)
Lemma read_back_plain fuel v r s : read_chars fuel (v ++ Byte.x22 :: r) = Some (v, s) -> plain v = true /\ s = r.
Proof.
  intros (t & E & Hl & Hq & Hp)%read_chars_text. apply app_eq_inv in E as [(k & -> & E)|(k & -> & E)].
  - rewrite length_app in Hl. destruct k as [|b k]; [|cbn in Hl; lia]. rewrite app_nil_r in *.
    destruct (Hp eq_refl) as [_ Hv]. by injection E as ->.
  - destruct k as [|b k]; [rewrite app_nil_r in *; destruct (Hp eq_refl); by injection E as ->|].
    injection E as <- _. rewrite quotes_app, quotes_cons in Hq. change (quotes [Byte.x22]) with 1%nat in Hq. lia.
Qed.

Lemma plain_both s t :
  plain s = true /\ plain t = true <->
  forall b, b ∈ s ++ t -> b <> Byte.x22 /\ b <> Byte.x5c /\ 32 <= Z_of_byte b.
Proof.
  assert (forall u, plain u = true <-> forall b, b ∈ u -> b <> Byte.x22 /\ b <> Byte.x5c /\ 32 <= Z_of_byte b) as H.
  { intros u. unfold plain. rewrite forallb_forall. split; intros Hu b Hb; specialize (Hu b); rewrite <-list_elem_of_In in *;
      specialize (Hu Hb); unfold json_plain in *; rewrite !andb_true_iff, !negb_true_iff, !bool_decide_eq_false, Z.leb_le in *; tauto. }
  rewrite !H. setoid_rewrite elem_of_app. firstorder.
Qed.

(** A member as the macros write it, with what follows it. *)
Definition member (k v rest : str) : str :=
  Byte.x22 :: k ++ Byte.x22 :: Byte.x3a :: Byte.x20 :: Byte.x22 :: v ++ Byte.x22 :: rest.

Definition data (component msg : str) : str :=
  Byte.x7b :: member (lit "component") component
    (Byte.x2c :: Byte.x20 :: member (lit "msg") msg [Byte.x7d]).

Lemma format_data `{spdlog : Spdlog} {documented : SpdlogDocumented spdlog} component msg :
  format data_format [component; msg] = data component msg.
Proof.
  let f := eval vm_compute in data_format in change data_format with f.
  repeat first [rewrite format_open | rewrite format_close | rewrite format_argument
               | rewrite format_char by done | rewrite format_nil].
  reflexivity.
Qed.

Lemma read_member_value k v r :
  plain k = true ->
  read_member (member k v r) = '(v', s) ← read_chars (length (v ++ Byte.x22 :: r)) (v ++ Byte.x22 :: r); Some ((k, v'), s).
Proof.
  intros Hk. unfold read_member, member, read_string.
  change (expect Byte.x22 (Byte.x22 :: ?s)) with (Some s).
  cbn [mbind option_bind]. rewrite read_string_plain by done. reflexivity.
Qed.

(** Reading a member gives its value exactly when that needs no escaping. *)
Lemma read_member_iff k v r s :
  plain k = true -> read_member (member k v r) = Some ((k, v), s) <-> plain v = true /\ s = r.
Proof.
  intros Hk. rewrite read_member_value by done. split.
  - intros H. destruct (read_chars _ _) as [[v' s']|] eqn:E; cbn in H; [|done].
    injection H as -> ->. by apply read_back_plain in E.
  - intros [Hv ->]. by rewrite read_string_plain.
Qed.

(** The first member of a list of members, and those behind it. *)
Lemma read_members_cons fuel s kv kvs r :
  read_members fuel s = Some (kv :: kvs, r) ->
  exists fuel' s', fuel = S fuel' /\ read_member s = Some (kv, s') /\
  (kvs <> [] -> exists s'', expect Byte.x2c s' = Some s'' /\ read_members fuel' s'' = Some (kvs, r)).
Proof.
  destruct fuel as [|fuel]; [done|]. cbn [read_members].
  destruct (read_member s) as [[kv' s']|]; cbn; [|done].
  destruct (expect Byte.x2c s') as [s''|] eqn:E.
  - destruct (read_members fuel s'') as [[kvs' r']|] eqn:E'; cbn; [|done].
    intros [= <- <- <-]. naive_solver.
  - destruct (expect Byte.x7d s'); cbn; [|done]. intros [= <- <- <-]. naive_solver.
Qed.

Lemma read_object_members k v r kv kvs :
  read_object (Byte.x7b :: member k v r) = Some (kv :: kvs) ->
  exists fuel rest, read_members fuel (member k v r) = Some (kv :: kvs, rest).
Proof.
  unfold read_object. change (expect Byte.x7b (Byte.x7b :: ?s)) with (Some s). cbn [mbind option_bind].
  change (expect Byte.x7d (member k v r)) with (@None str). cbn beta iota.
  destruct (read_members _ _) as [[kvs' rest]|] eqn:E; cbn; [|done].
  case_decide; [|done]. intros [= ->]. eauto.
Qed.

Lemma read_data component msg :
  read_object (data component msg) = Some [(lit "component", component); (lit "msg", msg)] <->
  plain component = true /\ plain msg = true.
Proof.
  assert (plain (lit "component") = true /\ plain (lit "msg") = true) as [Hc Hm] by (split; vm_compute; reflexivity).
  split.
  - intros (fuel & rest & (f1 & s1 & -> & E1 & H)%read_members_cons)%read_object_members.
    destruct H as (s2 & Hs & (f2 & s3 & -> & E2 & _)%read_members_cons); [done|].
    apply (read_member_iff _ _ _ _ Hc) in E1 as [Hv ->]. split; [done|].
    change (Some (Byte.x20 :: member (lit "msg") msg [Byte.x7d]) = Some s2) in Hs. injection Hs as <-.
    change (read_member (Byte.x20 :: ?s)) with (read_member s) in E2.
    by apply (read_member_iff _ _ _ _ Hm) in E2 as [Hw _].
  - intros [Hv Hw]. unfold read_object, data.
    change (expect Byte.x7b (Byte.x7b :: ?s)) with (Some s). cbn [mbind option_bind].
    set (tail := Byte.x2c :: Byte.x20 :: member (lit "msg") msg [Byte.x7d]).
    change (expect Byte.x7d (member ?k ?v ?r)) with (@None str). cbn beta iota.
    assert (exists n, length (member (lit "component") component tail) = S (S n)) as [n ->] by (eexists; reflexivity).
    cbn [read_members]. rewrite (proj2 (read_member_iff _ component tail tail Hc) (conj Hv eq_refl)). cbn [mbind option_bind].
    change (expect Byte.x2c tail) with (Some (Byte.x20 :: member (lit "msg") msg [Byte.x7d])). cbn beta iota.
    change (read_member (Byte.x20 :: ?s)) with (read_member s).
    rewrite (proj2 (read_member_iff _ msg [Byte.x7d] _ Hm) (conj Hw eq_refl)). reflexivity.
Qed.

(** ** A library that does what is documented *)

Module Recorder.

(** The names that are registered, the number of loggers made, and the lines. *)
Record state : Set := mkState { names : list str; made : Z; lines : list (level * str) }.

Fixpoint fmt (f : str) (args : list str) : str :=
  match f with
  | [] => []
  | b :: f =>
      if decide (b = Byte.x7b) then
        match f with
        | [] => []
        | c :: f =>
            if decide (c = Byte.x7b) then b :: fmt f args
            else match args with [] => [] | a :: args => a ++ fmt f args end
        end
      else if decide (b = Byte.x7d) then match f with [] => [] | _ :: f => b :: fmt f args end
      else b :: fmt f args
  end.

#[export] Instance recorder : Spdlog := {|
  Spd := state;
  Sink := str;
  init_thread_pool _ _ sp := Some sp;
  stdout_color_sink_mt sp := Some (lit "stdout", sp);
  rotating_file_sink_mt path _ _ sp := if decide (path = []) then None else Some (path, sp);
  async_logger name _ sp := Some (mkLoggerPtr name (made sp), mkState (names sp) (made sp + 1) (lines sp));
  set_pattern _ _ sp := sp;
  register_logger l sp :=
    if bool_decide (lp_name l ∈ names sp) then None
    else Some (mkState (lp_name l :: names sp) (made sp) (lines sp));
  set_default_logger l sp := mkState (lp_name l :: names sp) (made sp) (lines sp);
  set_level _ _ sp := sp;
  flush _ sp := sp;
  shutdown sp := mkState [] (made sp) (lines sp);
  log _ v p sp := mkState (names sp) (made sp) (lines sp ++ [(v, p)]);
  format := fmt
|}.

#[export] Program Instance recorder_documented : SpdlogDocumented recorder := {|
  taken sp n := bool_decide (n ∈ names sp)
|}.
Next Obligation. intros l sp. cbn. case_bool_decide; naive_solver. Qed.
Next Obligation.
  intros l sp sp'. cbn. case_bool_decide; [done|]. intros [= <-]. apply bool_decide_eq_true_2. cbn. set_solver.
Qed.
Next Obligation. intros l sp. apply bool_decide_eq_true_2. cbn. set_solver. Qed.
Next Obligation. done. Qed.
Next Obligation. intros n sinks sp l sp' [= <- _]. done. Qed.
Next Obligation. intros a b sp sp' [= <-]. done. Qed.
Next Obligation. intros sp k sp' [= _ <-]. done. Qed.
Next Obligation. intros f a b sp k sp'. cbn. case_decide; [done|]. intros [= _ <-]. done. Qed.
Next Obligation. intros n sinks sp l sp' [= _ <-]. done. Qed.
Next Obligation. done. Qed.
Next Obligation. done. Qed.
Next Obligation. done. Qed.
Next Obligation. done. Qed.
Next Obligation. done. Qed.
Next Obligation. done. Qed.
Next Obligation. done. Qed.
Next Obligation. done. Qed.
Next Obligation. intros b f args H1 H2. cbn. by rewrite !decide_False. Qed.

End Recorder.

#[local] Existing Instances Recorder.recorder Recorder.recorder_documented.

(** ** Properties *)


(** The library of the examples cannot open a log file with an empty name. *)
Definition sample_ops : list op :=
  [OpInitialize (lit "n0") []; OpInitialize (lit "n1") (lit "a.log"); OpLog info (lit "raft") (lit "up");
   OpInitialize (lit "n2") (lit "a.log"); OpShutdown; OpLog warn (lit "raft") (lit "late");
   OpInitialize (lit "n3") (lit "b.log"); OpFatal (lit "wal") (lit "torn"); OpShutdown].


(** A log file that cannot be opened: [Initialize] throws before it has made a
    logger, and the next message is logged through a null pointer. *)
Example unopenable_log_file :
  (run perform [OpInitialize (lit "n1") []; OpLog err (lit "main") (lit "no log")]
     (Logger_init (spdlog := Recorder.recorder) (Recorder.mkState [] 0 []))).1 = [Throws; NullPointer].
Proof. vm_compute. reflexivity. Qed.

(** C40. What a macro writes: with a logger it hands over one line, for the level
    of the macro, and a JSON reader, which decodes escapes, gets exactly the
    component and the message back from that line if and only if neither of them
    has a quote, a backslash or a control character: the macros do not escape. *)
Theorem log_line_json {spdlog : Spdlog} {documented : SpdlogDocumented spdlog} (s : Logger spdlog) (l : LoggerPtr)
    (lvl : level) (component msg : str) (Hl : logger_ s = Some l) :
  exists line, LOG lvl component msg s = (Returns tt, mkLogger (Some l) (node_id_ s) (log l lvl line (spd s))) /\
  (read_object line = Some [(lit "component", component); (lit "msg", msg)] <->
   forall b, b ∈ component ++ msg -> b <> Byte.x22 /\ b <> Byte.x5c /\ 32 <= Z_of_byte b).
Proof.
  exists (data component msg). split; [|by rewrite read_data, plain_both].
  unfold LOG. lib_unfold. rewrite Hl, format_data. lib_step. by rewrite Hl.
Qed.

Lemma log_line_json_witness :
  let s := mkLogger (spdlog := Recorder.recorder) (Some (mkLoggerPtr (lit "vectordb") 0)) (lit "n") (Recorder.mkState [] 1 []) in
  exists line, LOG info (lit "raft") (lit "up") s =
     (Returns tt, mkLogger (Some (mkLoggerPtr (lit "vectordb") 0)) (lit "n") (Recorder.mkState [] 1 [(info, line)])) /\
   read_object line = Some [(lit "component", lit "raft"); (lit "msg", lit "up")].
Proof.
  destruct (log_line_json (spdlog := Recorder.recorder) (mkLogger (spdlog := Recorder.recorder) (Some (mkLoggerPtr (lit "vectordb") 0)) (lit "n")
              (Recorder.mkState [] 1 [])) (mkLoggerPtr (lit "vectordb") 0) info (lit "raft") (lit "up") eq_refl)
    as (line & E & H).
  exists line. split; [exact E|]. apply H. intros b Hb.
  assert (Forall (fun b => b <> Byte.x22 /\ b <> Byte.x5c /\ 32 <= Z_of_byte b) (lit "raft" ++ lit "up")) as Hall.
  { repeat constructor; vm_compute; discriminate. }
  exact (proj1 (Forall_forall _ _) Hall b Hb).
Defined.

(** The reader decodes escapes: the path "C:\new" is read with a line feed, and
    the two escapes of a surrogate pair are one character of four bytes. *)
Example log_line_decoded :
  read_object (data (lit "fs") (lit "C:" ++ Byte.x5c :: lit "new")) =
    Some [(lit "component", lit "fs"); (lit "msg", lit "C:" ++ Byte.x0a :: lit "ew")] /\
  read_object (data (lit "ui") (Byte.x5c :: lit "ud83d" ++ Byte.x5c :: lit "ude00")) =
    Some [(lit "component", lit "ui"); (lit "msg", [Byte.xf0; Byte.x9f; Byte.x98; Byte.x80])].
Proof. vm_compute. split; reflexivity. Qed.

(** A message with a quote can forge fields of the line. *)
Example log_line_forged :
  read_object (data (lit "auth") (lit "ok" ++ q ++ lit ", " ++ q ++ lit "user" ++ q ++ lit ": " ++ q ++ lit "root")) =
  Some [(lit "component", lit "auth"); (lit "msg", lit "ok"); (lit "user", lit "root")].
Proof. vm_compute. reflexivity. Qed.
