(* ===== verification/Metrics.v ===== *)
(** * [MetricsRegistry]

    Models src/src/common/metrics/metrics_registry.{h,cpp}: the static state
    (the registry, the exposer and the three caches of families) and its
    operations.  prometheus-cpp is not part of the repository: the class
    [Prometheus] names what is called of it.  A registry object owns the
    families registered with it, so a cached [Family*] is the address of the
    registry object and a handle in it; it may be used only while that object
    exists.  An operation yields [None] where the C++ has undefined behaviour
    (a null or dangling pointer is used), and [Throws] where an exception
    leaves it. *)

From S2P Require Import Prelude.

(** The three kinds of metric. *)
Inductive Kind : Set := Counter | Gauge | Histogram.

#[export] Instance Kind_eq_dec : EqDecision Kind.
Proof. solve_decision. Defined.

Definition labels : Set := list (str * str).

Class Prometheus : Type := {
  Registry : Type;
  Bucket : Type;
  Registry_new : Registry;
  (** [Build<Kind>().Name(name).Help(help).Register(registry)] *)
  Register : Kind -> str -> str -> Registry -> option (Z * Registry);
  (** [Family<Kind>::Add]; the boundaries are those of a histogram. *)
  Family_Add : Kind -> Z -> labels -> list Bucket -> Registry -> option (Z * Registry);
  (** Whether the constructor of [Exposer] returns. *)
  Exposer_starts : str -> bool
}.

(** A [Family*]. *)
Record FamilyPtr : Set := mkFamilyPtr { fp_registry : nat; fp_handle : Z }.

Inductive result (A : Type) : Type :=
  | Returns (a : A)
  | Throws.
Arguments Returns {A} a.
Arguments Throws {A}.

Section metrics.
Context {prometheus : Prometheus}.

(** The static members, and the registry objects that exist, by address. *)
Record MetricsRegistry : Type := mkMetrics {
  registry_ : option nat;
  exposer_ : option str;
  counter_families_ : gmap str FamilyPtr;
  gauge_families_ : gmap str FamilyPtr;
  histogram_families_ : gmap str FamilyPtr;
  objects : gmap nat Registry;
  next_address : nat
}.

Definition MetricsRegistry_init : MetricsRegistry := mkMetrics None None ∅ ∅ ∅ ∅ 0.

Definition families (s : MetricsRegistry) (k : Kind) : gmap str FamilyPtr :=
  match k with
  | Counter => counter_families_ s
  | Gauge => gauge_families_ s
  | Histogram => histogram_families_ s
  end.

Definition set_families (s : MetricsRegistry) (k : Kind) (m : gmap str FamilyPtr) : MetricsRegistry :=
  match k with
  | Counter => mkMetrics (registry_ s) (exposer_ s) m (gauge_families_ s) (histogram_families_ s) (objects s) (next_address s)
  | Gauge => mkMetrics (registry_ s) (exposer_ s) (counter_families_ s) m (histogram_families_ s) (objects s) (next_address s)
  | Histogram => mkMetrics (registry_ s) (exposer_ s) (counter_families_ s) (gauge_families_ s) m (objects s) (next_address s)
  end.

Definition set_objects (s : MetricsRegistry) (o : gmap nat Registry) : MetricsRegistry :=
  mkMetrics (registry_ s) (exposer_ s) (counter_families_ s) (gauge_families_ s) (histogram_families_ s) o (next_address s).

(** ** Operations *)

(** The registry is created before the exposer, and stays when that throws. *)
Definition Initialize (s : MetricsRegistry) (bind_address : str) : result unit * MetricsRegistry :=
  match registry_ s with
  | Some _ => (Returns tt, s)
  | None =>
      let a := next_address s in
      let with_exposer e := mkMetrics (Some a) e (counter_families_ s) (gauge_families_ s) (histogram_families_ s)
                              (<[a := Registry_new]> (objects s)) (S a) in
      if Exposer_starts bind_address then (Returns tt, with_exposer (Some bind_address))
      else (Throws, with_exposer (exposer_ s))
  end.

(** The exposer keeps a [weak_ptr]: [registry_] is the only owner. *)
Definition Shutdown (s : MetricsRegistry) : MetricsRegistry :=
  mkMetrics None None (counter_families_ s) (gauge_families_ s) (histogram_families_ s)
    (match registry_ s with Some a => delete a (objects s) | None => objects s end) (next_address s).

(** The lookup in the cache, and the registration behind it. *)
Definition find_family (s : MetricsRegistry) (k : Kind) (name help : str) : option (result FamilyPtr * MetricsRegistry) :=
  match families s k !! name with
  | Some p => Some (Returns p, s)
  | None =>
      match registry_ s with
      | None => None
      | Some a =>
          match objects s !! a with
          | None => None
          | Some r =>
              match Register k name help r with
              | None => Some (Throws, s)
              | Some (h, r) =>
                  let p := mkFamilyPtr a h in
                  Some (Returns p, set_families (set_objects s (<[a := r]> (objects s))) k (<[name := p]> (families s k)))
              end
          end
      end
  end.

Definition add_metric (s : MetricsRegistry) (k : Kind) (name help : str) (ls : labels) (buckets : list Bucket) :
    option (result Z * MetricsRegistry) :=
  match find_family s k name help with
  | None => None
  | Some (Throws, s) => Some (Throws, s)
  | Some (Returns p, s) =>
      match objects s !! fp_registry p with
      | None => None
      | Some r =>
          match Family_Add k (fp_handle p) ls buckets r with
          | None => Some (Throws, s)
          | Some (m, r) => Some (Returns m, set_objects s (<[fp_registry p := r]> (objects s)))
          end
      end
  end.

Definition AddCounter (s : MetricsRegistry) (name help : str) (ls : labels) := add_metric s Counter name help ls [].

Definition AddGauge (s : MetricsRegistry) (name help : str) (ls : labels) := add_metric s Gauge name help ls [].

Definition AddHistogram (s : MetricsRegistry) (name help : str) (ls : labels) (bucket_boundaries : list Bucket) :=
  add_metric s Histogram name help ls bucket_boundaries.

(** ** Sequences of calls *)

Inductive call : Type :=
  | CallInitialize (bind_address : str)
  | CallShutdown
  | CallAddCounter (name help : str) (ls : labels)
  | CallAddGauge (name help : str) (ls : labels)
  | CallAddHistogram (name help : str) (ls : labels) (buckets : list Bucket).

Definition step (s : MetricsRegistry) (c : call) : option MetricsRegistry :=
  match c with
  | CallInitialize bind_address => Some (Initialize s bind_address).2
  | CallShutdown => Some (Shutdown s)
  | CallAddCounter name help ls => snd <$> AddCounter s name help ls
  | CallAddGauge name help ls => snd <$> AddGauge s name help ls
  | CallAddHistogram name help ls buckets => snd <$> AddHistogram s name help ls buckets
  end.

Fixpoint steps (s : MetricsRegistry) (cs : list call) : option MetricsRegistry :=
  match cs with
  | [] => Some s
  | c :: cs => match step s c with Some s => steps s cs | None => None end
  end.

Definition is_shutdown (c : call) : Prop := c = CallShutdown.

(** ** Invariants *)

(** The registry in use is the only one there is, and addresses are new. *)
Record metrics_ok (s : MetricsRegistry) : Prop := {
  mo_live : forall a, is_Some (objects s !! a) <-> registry_ s = Some a;
  mo_address : forall a, registry_ s = Some a -> (a < next_address s)%nat;
  mo_cached : forall k name p, families s k !! name = Some p -> (fp_registry p < next_address s)%nat
}.

(** No [Shutdown] has happened since the families were cached. *)
Definition current_families (s : MetricsRegistry) : Prop :=
  forall k name p, families s k !! name = Some p -> registry_ s = Some (fp_registry p).

Lemma metrics_init_ok : metrics_ok MetricsRegistry_init.
Proof.
  split; cbn.
  - intros a. split; [intros [r Hr]; by rewrite lookup_empty in Hr|done].
  - done.
  - intros [] name p; cbn; by rewrite lookup_empty.
Qed.

Lemma Initialize_ok s bind_address : metrics_ok s -> metrics_ok (Initialize s bind_address).2.
Proof.
  intros [Hlive Haddr Hcached]. unfold Initialize. destruct (registry_ s) as [a|] eqn:E; cbn [snd].
  { by split; rewrite ?E. }
  assert (forall a, objects s !! a = None) as Hnone.
  { intros a. destruct (objects s !! a) eqn:Ea; [|done]. by specialize (proj1 (Hlive a) ltac:(by eauto)). }
  destruct (Exposer_starts bind_address); cbn [snd]; (split; cbn;
    [intros a; destruct (decide (a = next_address s)) as [->|Hne];
       [rewrite lookup_insert_eq; by eauto
       |rewrite lookup_insert_ne, Hnone by done; split; [by intros [? ?]|congruence]]
    |by intros a [= <-]; lia|intros k name p Hp; specialize (Hcached k name p); destruct k; cbn in *; apply Hcached in Hp; lia]).
Qed.

Lemma Shutdown_ok s : metrics_ok s -> metrics_ok (Shutdown s).
Proof.
  intros [Hlive Haddr Hcached]. split; cbn; [|done|intros k name p Hp; apply (Hcached k name); by destruct k].
  intros a. split; [|done]. destruct (registry_ s) as [b|] eqn:E.
  - intros [r Hr]. destruct (decide (a = b)) as [->|Hne]; [by rewrite lookup_delete_eq in Hr|].
    rewrite lookup_delete_ne in Hr by done. specialize (proj1 (Hlive a) ltac:(by eauto)). congruence.
  - intros Hr%Hlive. congruence.
Qed.

Lemma families_set s k m k' : families (set_families s k m) k' = if decide (k' = k) then m else families s k'.
Proof. by destruct k, k'. Qed.

Lemma set_families_other s k m :
  registry_ (set_families s k m) = registry_ s /\ objects (set_families s k m) = objects s /\
  next_address (set_families s k m) = next_address s.
Proof. by destruct k. Qed.

(** A step keeps what is cached, and either keeps the registry or is one of the
    two calls that change it. *)
Record extends (s s' : MetricsRegistry) : Prop := {
  ex_ok : metrics_ok s';
  ex_cached : forall k name p, families s k !! name = Some p -> families s' k !! name = Some p;
  ex_address : (next_address s <= next_address s')%nat
}.

Lemma find_family_spec s k name help :
  metrics_ok s ->
  match find_family s k name help with
  | None => families s k !! name = None /\ registry_ s = None
  | Some (Throws, s') => s' = s
  | Some (Returns p, s') =>
      extends s s' /\ registry_ s' = registry_ s /\ families s' k !! name = Some p /\
      (current_families s -> current_families s') /\
      (families s k !! name = None -> registry_ s = Some (fp_registry p))
  end.
Proof.
  intros Hok. unfold find_family. destruct (families s k !! name) as [p|] eqn:Ef.
  { split_and!; [by split|done|done|done|done]. }
  destruct (registry_ s) as [a|] eqn:Er; [|done].
  destruct (objects s !! a) as [r|] eqn:Eo.
  2: { destruct (proj2 (mo_live _ Hok a) Er) as [r Hr]. congruence. }
  destruct (Register k name help r) as [[h r']|]; [|done].
  set (s1 := set_objects s _). set (m := <[name := _]> _).
  destruct (set_families_other s1 k m) as (H1 & H2 & H3). change (next_address s1) with (next_address s) in H3.
  change (registry_ s1) with (registry_ s) in H1.
  assert (forall k' n p, families (set_families s1 k m) k' !! n = Some p ->
            (p = mkFamilyPtr a h \/ families s k' !! n = Some p)) as Hnew.
  { intros k' n p. rewrite families_set. destruct (decide (k' = k)) as [->|]; [|by right].
    unfold m. destruct (decide (n = name)) as [->|]; [rewrite lookup_insert_eq; intros [= <-]; by left|].
    rewrite lookup_insert_ne by done. by right. }
  split_and!.
  - split; [split| |lia].
    + intros b. rewrite H1, H2. cbn [s1 set_objects objects]. rewrite <-(mo_live _ Hok b).
      destruct (decide (b = a)) as [->|]; [rewrite lookup_insert_eq, Eo; by split; eauto|by rewrite lookup_insert_ne].
    + rewrite H1, H3. apply (mo_address _ Hok).
    + intros k' n p Hp. rewrite H3. apply Hnew in Hp as [->|Hp]; [by apply (mo_address _ Hok)|by apply (mo_cached _ Hok k' n)].
    + intros k' n p Hp. rewrite families_set. destruct (decide (k' = k)) as [->|]; [|done]. unfold m.
      rewrite lookup_insert_ne; [done|]. congruence.
  - by rewrite H1.
  - rewrite families_set, decide_True by done. apply lookup_insert_eq.
  - intros Hcur k' n p Hp. rewrite H1. apply Hnew in Hp as [->|Hp]; [done|by apply (Hcur k' n)].
  - done.
Qed.

Lemma set_objects_extends s a r :
  metrics_ok s -> is_Some (objects s !! a) -> extends s (set_objects s (<[a := r]> (objects s))).
Proof.
  intros Hok Ha. split; [split| |done].
  - intros b. cbn [set_objects objects registry_]. rewrite <-(mo_live _ Hok b).
    destruct (decide (b = a)) as [->|]; [rewrite lookup_insert_eq; by split; eauto|by rewrite lookup_insert_ne].
  - apply (mo_address _ Hok).
  - intros k n p Hp. apply (mo_cached _ Hok k n). by destruct k.
  - intros k n p. by destruct k.
Qed.

Lemma extends_trans s1 s2 s3 : extends s1 s2 -> extends s2 s3 -> extends s1 s3.
Proof. intros [_ Hc1 Ha1] [Hok Hc2 Ha2]. split; [done|auto|lia]. Qed.

(** When an [Add] is defined, and what it leaves. *)
Lemma add_metric_spec s k name help ls buckets :
  metrics_ok s ->
  match add_metric s k name help ls buckets with
  | None =>
      match families s k !! name with
      | Some p => registry_ s <> Some (fp_registry p)
      | None => registry_ s = None
      end
  | Some (_, s') => extends s s' /\ registry_ s' = registry_ s /\ (current_families s -> current_families s')
  end.
Proof.
  intros Hok. unfold add_metric. pose proof (find_family_spec s k name help Hok) as Hf.
  destruct (find_family s k name help) as [[[p|] s1]|].
  - destruct Hf as (Hex & Hr & Hp & Hcur & Hnew). pose proof (ex_ok _ _ Hex) as Hok1.
    destruct (objects s1 !! fp_registry p) as [r|] eqn:Eo.
    + destruct (Family_Add _ _ _ _ r) as [[m r']|]; [|done].
      split; [|split; [done|]].
      * eapply extends_trans; [done|]. apply set_objects_extends; eauto.
      * intros Hc k' n q Hq. apply (Hcur Hc k' n). by destruct k'.
    + assert (registry_ s <> Some (fp_registry p)) as Hdead.
      { rewrite <-Hr. intros [r Hr']%(mo_live _ Hok1). congruence. }
      destruct (families s k !! name) as [q|] eqn:Eq; [|by destruct Hdead; apply Hnew].
      rewrite (ex_cached _ _ Hex k name q Eq) in Hp. by injection Hp as ->.
  - subst. split; [|done]. by split.
  - by destruct Hf as [-> ->].
Qed.

Lemma Initialize_extends s bind_address : metrics_ok s -> extends s (Initialize s bind_address).2.
Proof.
  intros Hok. split; [by apply Initialize_ok| |].
  - intros k name p Hp. unfold Initialize. destruct (registry_ s); [done|]. by destruct (Exposer_starts _), k.
  - unfold Initialize. destruct (registry_ s); [done|]. destruct (Exposer_starts _); cbn; lia.
Qed.

(** The [Add] of a call. *)
Definition call_add (s : MetricsRegistry) (c : call) : option (Kind * str * option (result Z * MetricsRegistry)) :=
  match c with
  | CallAddCounter name help ls => Some (Counter, name, AddCounter s name help ls)
  | CallAddGauge name help ls => Some (Gauge, name, AddGauge s name help ls)
  | CallAddHistogram name help ls buckets => Some (Histogram, name, AddHistogram s name help ls buckets)
  | _ => None
  end.

Lemma call_add_spec s c k name out :
  metrics_ok s -> call_add s c = Some (k, name, out) ->
  step s c = snd <$> out /\
  match out with
  | None => match families s k !! name with Some p => registry_ s <> Some (fp_registry p) | None => registry_ s = None end
  | Some (_, s') => extends s s' /\ registry_ s' = registry_ s /\ (current_families s -> current_families s')
  end.
Proof.
  intros Hok. destruct c as [| |name' help ls|name' help ls|name' help ls buckets]; cbn [call_add]; try done;
    intros [= <- <- <-]; (split; [done|]).
  - apply (add_metric_spec s Counter); done.
  - apply (add_metric_spec s Gauge); done.
  - apply (add_metric_spec s Histogram); done.
Qed.

Lemma step_extends s c s' : metrics_ok s -> step s c = Some s' -> extends s s'.
Proof.
  intros Hok Hstep. destruct (call_add s c) as [[[k name] out]|] eqn:Ec.
  - destruct (call_add_spec s c k name out Hok Ec) as [Hs Hout]. rewrite Hs in Hstep.
    destruct out as [[r s1]|]; [|done]. injection Hstep as <-. apply Hout.
  - destruct c; try done; injection Hstep as <-; [by apply Initialize_extends|].
    split; [by apply Shutdown_ok|by intros []|done].
Qed.

Lemma steps_extends cs : forall s s', metrics_ok s -> steps s cs = Some s' -> extends s s'.
Proof.
  induction cs as [|c cs IH]; intros s s' Hok; cbn [steps]; [by intros [= <-]; split|].
  destruct (step s c) as [s1|] eqn:E; [|done]. intros H. pose proof (step_extends s c s1 Hok E) as H1.
  eapply extends_trans; [done|]. apply IH; [apply H1|done].
Qed.

Lemma steps_app cs1 cs2 s : steps s (cs1 ++ cs2) = match steps s cs1 with Some s' => steps s' cs2 | None => None end.
Proof. revert s. induction cs1 as [|c cs1 IH]; intros s; cbn [app steps]; [done|]. destruct (step s c); [apply IH|done]. Qed.

(** While there is a registry that owns all cached families, calls other than
    [Shutdown] are defined and keep it so. *)
Lemma step_defined s c a :
  metrics_ok s -> current_families s -> registry_ s = Some a -> ~ is_shutdown c ->
  exists s', step s c = Some s' /\ current_families s' /\ registry_ s' = Some a.
Proof.
  intros Hok Hcur Hreg Hno. destruct (call_add s c) as [[[k name] out]|] eqn:Ec.
  - destruct (call_add_spec s c k name out Hok Ec) as [-> Hout]. destruct out as [[r s1]|].
    + destruct Hout as (_ & Hr & Hc). exists s1. split; [done|]. split; [auto|congruence].
    + exfalso. destruct (families s k !! name) as [p|] eqn:Ef; [by apply Hout, (Hcur k name)|congruence].
  - destruct c; try done. cbn [step]. unfold Initialize. rewrite Hreg. by exists s.
Qed.

Lemma steps_defined cs : forall s a,
  metrics_ok s -> current_families s -> registry_ s = Some a -> Forall (fun c => ~ is_shutdown c) cs ->
  exists s', steps s cs = Some s' /\ current_families s'.
Proof.
  induction cs as [|c cs IH]; intros s a Hok Hcur Hreg Hno; cbn [steps]; [by exists s|].
  apply Forall_cons in Hno as [Hc Hno]. destruct (step_defined s c a Hok Hcur Hreg Hc) as (s1 & E & Hcur1 & Hreg1).
  rewrite E. apply (IH s1 a); auto. by apply (step_extends s c).
Qed.

(** An address that is not in use is never used again. *)
Lemma steps_dead cs : forall s s' a,
  metrics_ok s -> (a < next_address s)%nat -> registry_ s <> Some a -> steps s cs = Some s' -> registry_ s' <> Some a.
Proof.
  induction cs as [|c cs IH]; intros s s' a Hok Ha Hreg; cbn [steps]; [by intros [= <-]|].
  destruct (step s c) as [s1|] eqn:E; [|done]. pose proof (step_extends s c s1 Hok E) as Hex.
  apply IH; [apply Hex|pose proof (ex_address _ _ Hex); lia|].
  destruct (call_add s c) as [[[k name] out]|] eqn:Ec.
  - destruct (call_add_spec s c k name out Hok Ec) as [Hs Hout]. rewrite Hs in E.
    destruct out as [[r s2]|]; [|done]. injection E as <-. destruct Hout as (_ & -> & _). done.
  - destruct c; try done; injection E as <-; [|discriminate]. unfold Initialize.
    destruct (registry_ s) as [b|] eqn:Er; [cbn; by rewrite Er|]. destruct (Exposer_starts _); cbn; intros [= E]; lia.
Qed.
End metrics.

(** ** A registry that numbers its families *)

#[local] Instance counting_prometheus : Prometheus := {|
  Registry := Z;
  Bucket := Z;
  Registry_new := 0;
  Register _ _ _ r := Some (r, r + 1);
  Family_Add _ h _ _ r := Some (h, r);
  Exposer_starts _ := true
|}.

Definition requests : call := CallAddCounter (lit "requests") (lit "Requests.") [].
Definition latency : call := CallAddHistogram (lit "latency") (lit "Latency.") [] [1; 5; 10].

(** * Properties *)

(** C38. Metrics are safe to add until [Shutdown]: after [Initialize], whether or
    not its exposer started, any sequence of calls that has no [Shutdown] uses
    no null or dangling pointer; every family is registered at most once, since
    a pointer that has been cached stays the one that is used. *)
Theorem metrics_defined {prometheus : Prometheus} (bind_address : str) (cs1 cs2 : list call)
    (Hno : Forall (fun c => ~ is_shutdown c) (cs1 ++ cs2)) :
  exists s1 s2, steps MetricsRegistry_init (CallInitialize bind_address :: cs1) = Some s1 /\ steps s1 cs2 = Some s2 /\
    (forall k name p, families s1 k !! name = Some p -> families s2 k !! name = Some p) /\
    (forall k name p, families s2 k !! name = Some p -> registry_ s2 = Some (fp_registry p)).
Proof.
  set (s0 := (Initialize MetricsRegistry_init bind_address).2).
  pose proof (Initialize_ok _ bind_address metrics_init_ok) as Hok0. fold s0 in Hok0.
  assert (current_families s0 /\ registry_ s0 = Some 0%nat) as [Hcur0 Hreg0].
  { unfold s0, Initialize. cbn. split; [|by destruct (Exposer_starts _)].
    intros [] name p; destruct (Exposer_starts _); cbn; by rewrite lookup_empty. }
  destruct (steps_defined (cs1 ++ cs2) s0 0 Hok0 Hcur0 Hreg0 Hno) as (s2 & Hs2 & Hcur2).
  rewrite steps_app in Hs2. cbn [steps step]. fold s0. destruct (steps s0 cs1) as [s1|] eqn:E1; [|done].
  exists s1, s2. split_and!; [done|done| |exact Hcur2].
  apply (steps_extends cs2); [|done]. by apply (steps_extends cs1 s0).
Qed.

(** A restart leaves dangling families: when a family has been cached and
    [Shutdown] is called, every later [Add] of that name is undefined, however
    often the registry is initialized again. *)
Theorem metrics_dangling {prometheus : Prometheus} (cs1 cs2 : list call) (s1 s2 : MetricsRegistry) (k : Kind)
    (name help : str) (ls : labels) (buckets : list Bucket) (p : FamilyPtr)
    (H1 : steps MetricsRegistry_init cs1 = Some s1) (Hcached : families s1 k !! name = Some p)
    (H2 : steps s1 (CallShutdown :: cs2) = Some s2) :
  add_metric s2 k name help ls buckets = None.
Proof.
  pose proof (ex_ok _ _ (steps_extends cs1 _ _ metrics_init_ok H1)) as Hok1.
  pose proof (steps_extends _ _ _ Hok1 H2) as Hex.
  assert (registry_ s2 <> Some (fp_registry p)) as Hdead.
  { apply (steps_dead cs2 (Shutdown s1) s2); [by apply Shutdown_ok| |done|done].
    exact (mo_cached _ Hok1 k name p Hcached). }
  pose proof (ex_cached _ _ Hex k name p Hcached) as Hp. unfold add_metric, find_family. rewrite Hp.
  destruct (objects s2 !! fp_registry p) eqn:Eo; [|done].
  destruct Hdead. apply (mo_live _ (ex_ok _ _ Hex)). by eauto.
Qed.

(** ** Witnesses *)

Lemma metrics_defined_witness :
  exists s1 s2, steps MetricsRegistry_init [CallInitialize (lit "0.0.0.0:8080"); requests] = Some s1 /\
    steps s1 [latency; requests] = Some s2 /\
    (forall k name p, families s1 k !! name = Some p -> families s2 k !! name = Some p) /\
    (forall k name p, families s2 k !! name = Some p -> registry_ s2 = Some (fp_registry p)).
Proof.
  apply (metrics_defined (lit "0.0.0.0:8080") [requests] [latency; requests]).
  repeat constructor; intros H; discriminate H.
Defined.

Lemma metrics_dangling_witness :
  exists s1 s2, steps MetricsRegistry_init [CallInitialize (lit "0.0.0.0:8080"); requests] = Some s1 /\
    steps s1 [CallShutdown; CallInitialize (lit "0.0.0.0:8080"); latency] = Some s2 /\
    AddCounter s2 (lit "requests") (lit "Requests.") [] = None.
Proof.
  do 2 eexists. split; [vm_compute; reflexivity|]. split; [vm_compute; reflexivity|].
  eapply (metrics_dangling [CallInitialize (lit "0.0.0.0:8080"); requests]
            [CallInitialize (lit "0.0.0.0:8080"); latency] _ _ Counter); vm_compute; reflexivity.
Defined.
